(* ===== verification/_CoqProject ===== *)
-Q . S2P
Prelude.v
BitArray.v
GoHeap.v
Wire.v
WireReflect.v
Types.v
SimpleTree.v
SignBytes.v
Validators.v
VoteSets.v
HeightVotes.v
PrivVal.v
PartSets.v
Blocks.v
Store.v
ChainState.v
Locking.v
Consensus.v
ConsensusSteps.v
ConsensusSim.v
Agreement.v
Network.v
EthMath.v
EvmCode.v
StateDB.v
StateRevert.v
Rlp.v
RlpDecode.v
StateSpec.v
EvmBase.v
Precompiles.v
EthTx.v
TxCodec.v
Receipts.v
TrieKeys.v
RlpRaw.v
TrieNode.v
TrieTree.v
TrieCodec.v
Trie.v
TrieMap.v
TrieHash.v
TrieSpec.v
TrieDB.v
TrieStore.v
TrieCommit.v
TrieProof.v
TrieToy.v
Evm.v
EvmLogic.v
EvmToy.v
EvmGas.v
EvmInstr.v
EvmCalls.v
EvmSafe.v
Transition.v
TransitionSafe.v
ParallelVerify.v
BlockExec.v
Limbs.v
Field25519.v
