(* ===== verification/Prelude.v ===== *)
(** * AnnChain: a verification library

    AnnChain is a permissioned blockchain: the gemmill engine (src/gemmill)
    orders blocks with a PBFT-style consensus, and an application (src/chain)
    executes them on an Ethereum virtual machine (src/eth).  This library is a
    shallow embedding of the engine and of the execution of blocks, with the
    theorems that make them correct.

    ** The program and how its parts interact

    Validators exchange proposals, block parts and votes.  A node's
    [ConsensusState] (consensus/pbft/state.go) handles one message or timeout
    at a time: it files votes in a [HeightVoteSet] of [VoteSet]s, checked
    against the [ValidatorSet] and the signatures; assembles a proposed block
    from a [PartSet], whose parts carry Merkle proofs; signs its own votes with
    a [PrivValidator], which refuses to sign twice; and on two thirds of
    precommits saves the block in the [BlockStore], executes it, and moves to
    the next height with the new [State].  Everything that is hashed, signed,
    stored or sent is encoded with go-wire.

    To execute a block the application decodes its transactions from RLP,
    recovers their senders, and runs them one by one on the [StateDB]: a
    transaction buys gas, its message runs in the interpreter, and what is left
    of the gas is paid back; the journal of the state database undoes what
    fails.

    ** The files

    - [Prelude]: Go results ([res], a value or a panic), machine integers
      ([i64], [u64], ...), slices, byte strings, [sort.Search], list lemmas,
      the tactic [ok] and the hint database [go].
    - [BitArray]: modules/go-common/bit_array.go.  [GoHeap]:
      modules/go-common/heap.go over container/heap.
    - [Wire], [WireReflect]: go-wire, the primitive coders and the reflective
      codec over a type of Go types.
    - [Types]: keys, signatures, block identifiers, votes and proposals
      (types/vote.go, proposal.go, go-crypto, go-hash), and the class [Crypto]
      of the third-party hash and signature functions.
    - [SimpleTree]: modules/go-merkle/simple_tree.go.
    - [SignBytes]: types/canonical_json.go, signable.go and the JSON writer.
    - [Validators]: types/validator.go, validator_set.go.
    - [VoteSets]: types/vote_set.go.  [HeightVotes]:
      consensus/pbft/height_vote_set.go.
    - [PrivVal]: types/priv_validator.go with its file.
    - [PartSets]: types/part_set.go.  [Blocks]: types/block.go, with
      [VerifyCommit] and [MakeCommit].
    - [Store]: blockchain/store.go.  [ChainState]: state/state.go and
      execution.go, types/genesis.go.
    - [Locking]: a specification, the locking discipline of one validator at
      one height, and its invariant.
    - [Consensus]: consensus/pbft/state.go and ticker.go, every handler from a
      message or a timeout to the commit of a block.
    - [ConsensusSteps], [ConsensusSim], [Agreement]: runs of the machine, the
      simulation of [Locking] by it, and agreement of a network of nodes.
    - [Network]: an executable network of four validators, on which the
      theorems about runs are instantiated.
    - [EthMath]: eth/common/math and the conversions of eth/common/types.go and
      bytes.go.  [EvmCode]: eth/core/vm/opcodes.go and analysis.go.
    - [StateDB]: eth/core/state, the accounts an application transaction works
      on, with the journal that undoes it.  [StateRevert]: the theory of the
      journal.  [StateSpec]: a ledger of accounts, which it implements.
    - [Rlp], [RlpDecode]: eth/rlp/encode.go and decode.go.
    - [EthTx], [TxCodec]: eth/core/types/transaction.go and
      transaction_signing.go, with the decoder of a transaction.  [Receipts]:
      receipt.go and bloom9.go.
    - [TrieKeys], [RlpRaw], [TrieNode], [Trie]: eth/trie, the encodings of keys
      (encoding.go), the nodes and their stored form (node.go, over
      eth/rlp/raw.go), and the trie with its hasher (trie.go, hasher.go) over a
      database of nodes, the class [NodeDB].  [TrieTree], [TrieCodec]: the
      trees that nodes stand for, and what is stored of them.  [TrieMap],
      [TrieHash], [TrieSpec]: reading and updating, hashing and committing, and
      the theorems against the interface [NodeDBLaws].
    - [TrieDB]: eth/trie/database.go, the database of nodes in memory and on
      the disk.  [TrieStore] proves that it is a [NodeDBLaws], [TrieCommit]
      what is on the disk after a commit.  [TrieProof]: eth/trie/proof.go.
      [TrieToy]: tries over a small hash function, on which the theorems are
      applied.
    - [EvmBase], [Precompiles], [Evm]: eth/core/vm, the memory, the stack, the
      tables of gas and of instructions, the precompiled contracts over the
      class [Natives] of hashes and curves, every instruction, the interpreter
      and the calls and creations of contracts.  The instructions are programs
      of a state monad [I] over the frame; a call takes the interpreter as an
      argument, which ties the recursion.
    - [EvmLogic]: the assertion [safe] on such programs, with its rules;
      [EvmGas], [EvmInstr], [EvmCalls], [EvmSafe]: what gas pays for, what
      each instruction and call preserves, and the theorems on whole calls.
      [EvmToy]: small hashes and accounts on which the theorems are applied.
    - [Transition]: eth/core/state_transition.go, state_processor.go and
      gaspool.go with the serial execution of a block in chain/app/evm.
      [TransitionSafe]: its theory.
    - [ParallelVerify], [BlockExec]: chain/app/evm/verifycpuparallel.go, a step
      relation on the turns of its goroutines, and the closures of evm.go that
      it calls.

    State is passed explicitly: a method with a pointer receiver is a function
    from the old to the new record, and [Panic] where the process would stop.
    A nil pointer is [None].  Records, constructors and operations keep the
    names of the source.

    ** What the theorems show

    - Agreement: with less than a third of the voting power faulty, two nodes
      that commit at a height commit the same block ([agreement]).  It rests
      on the simulation [consensus_refines_locking] (prevotes follow the lock,
      locks need a polka, decisions need two thirds of precommits), on
      [no_double_sign] of the signer and on [sign_bytes_injective].
    - Votes and commits: a majority of a vote set is backed by two thirds of
      valid signatures ([maj23_has_quorum]), every branch of [addVote]
      ([addVote_outcome]), [VerifyCommit] accepts exactly two thirds
      ([verify_commit_iff]), [MakeCommit] yields commits that verify
      ([make_commit_verifies]), two majorities or commits for different
      blocks expose a double signer.
    - Blocks: a header hash binds the block ([block_hash_binding]); splitting,
      gossiping and reassembling gives the block back ([block_propagation],
      [reassembly]); stores and states read back what was saved.
    - Proposers: [IncrementAccum] refines a weighted round robin, and its
      deviation from proportional turns is bounded ([proposer_fairness]).
    - Runs: height, round and step only grow ([consensus_monotone]); committed
      blocks are linked to their predecessors ([committed_chain]).
    - Data structures: the bit array refines a finite set, the validator set a
      map, the heap drains in order; go-wire decodes what it encodes;
      Merkle proofs are sound and complete.
    - Application libraries: reverting to a snapshot brings back every answer
      of the state database ([snapshot_undoes_everything]), which implements
      a ledger ([state_refines_ledger]); RLP encoding equals its recursive
      definition ([encode_correct]) and the decoder accepts exactly the
      canonical encodings ([decode_exactly_canonical]); the jump table's bitmap
      marks exactly the push data ([codeBitmap_correct]).
    - Tries: a trie behaves as the map it stands for ([trie_refines_map]), its
      root hash commits to the map ([root_commits]), what is committed to the
      disk survives restarts and failed writes ([commit_survives]), and proofs
      of membership are sound and complete ([proofs_sound_complete]).  They
      hold on sets of encodings without collisions (class [Known]).
    - Transactions: which bytes decode ([DecodeTx_exact]), and that the sender
      of a signed transaction is who signed it ([SignTx_Sender]).
    - Execution: a call of a contract ends within its gas and without a crash
      ([Call_ends]), and leaves no trace when it fails ([failed_call_undone]);
      a block ends, whatever is in it ([block_ends]), and its invalid
      transactions leave no trace ([invalid_tx_undone]).
    - Concurrency: under every interleaving the transactions of a block are
      executed in order and once ([parallel_in_order]), and no interleaving
      gets stuck ([parallel_finishes]).
    - Faults: theorems that exhibit, by evaluation, where the code departs
      from what it means to do (for instance [late_proposal_crash],
      [double_sign_after_failed_save], [load_intermediate_swaps]).

    ** Bounds and fuel

    [sort.Search] runs on as much fuel as the interval is wide, and each turn
    halves it; the heap loops on the length of the slice, which bounds the
    depth; varint and slice readers on the length of the input; the reflective
    codec on the depth of the type.  In each case the lemmas that use the
    function show the fuel is never exhausted.  Integers are kept at their
    width: [int64] and [uint64] operations are written with [i64] and [u64].
    The interpreter takes one unit of fuel per instruction; every instruction
    that does not end its frame costs gas, so that as much fuel as the machine
    has gas is enough ([loop_safe], [Call_ends]), and a block needs as much as
    the limit on the gas of its transactions ([block_ends]).  A walk
    of a trie takes a turn for each nibble of the key and for each hash on the
    way ([enough]); the commit of a root takes the depth of what is below it
    ([within]).

    ** What is not modelled

    The write-ahead log and its replay, the reactors' gossip routines, fast
    sync, the p2p stack, RPC, the raft engine (over a library that is not in
    the repository), the mempool and the IAVL tree; of the application its
    start-up, queries and transaction pool.  The state database sees a trie as
    the finite map it holds; iterators, the synchronisation of tries and the
    wrapper that hashes their keys are left out.  Signature and hash functions are
    parameters (classes [Crypto] and [Natives]); where a theorem needs collision resistance or
    unforgeability it says so as a hypothesis or offers the collision as an
    alternative of its conclusion.  Mutexes, channels, logging and renderings
    have no counterpart: the goroutine that owns a state is the function that
    passes it. *)
From stdpp Require Export base tactics list gmap strings numbers sorting.
From Stdlib Require Export ZArith Lia.

#[global] Open Scope Z_scope.

(** ** Go results: a value, or a panic

    [gcmn.PanicSanity], [gcmn.PanicCrisis], [gcmn.PanicConsensus], a builtin
    [panic], a nil dereference and an index out of range all abort the
    goroutine; they are one value of the sum. *)
Inductive res (A : Type) : Type :=
| Ok (a : A)
| Panic.
Arguments Ok {A} a.
Arguments Panic {A}.

Definition rbind {A B} (m : res A) (k : A -> res B) : res B :=
  match m with Ok a => k a | Panic => Panic end.

Declare Scope go_scope.
Delimit Scope go_scope with go.
Notation "'let!' x := m 'in' k" := (rbind m (fun x => k))
  (at level 10, x pattern, m at level 100, k at level 200) : go_scope.
#[global] Open Scope go_scope.

Lemma Ok_inj {A} (a b : A) : Ok a = Ok b -> a = b.
Proof. congruence. Qed.

Lemma rbind_Ok {A B} (m : res A) (k : A -> res B) b :
  rbind m k = Ok b -> exists a, m = Ok a /\ k a = Ok b.
Proof. destruct m as [a|]; [|done]. by exists a. Qed.

(** [ok H as x E]: a computation that returned returned from its first step. *)
Tactic Notation "ok" hyp(H) "as" simple_intropattern(x) simple_intropattern(E) :=
  apply rbind_Ok in H as (x & E & H); cbv beta iota zeta in H.

(** Reading an option as a possibly nil pointer that must not be nil. *)
Definition deref {A} (o : option A) : res A :=
  match o with Some a => Ok a | None => Panic end.

Lemma deref_Ok {A} (o : option A) a : deref o = Ok a -> o = Some a.
Proof. destruct o; [|done]. by intros [= ->]. Qed.

(** [xs[i]] and [xs[i] = x] with Go's bounds check on a signed index. *)
Definition go_index {A} (l : list A) (i : Z) : res A :=
  if (i <? 0) then Panic else deref (l !! Z.to_nat i).

Definition go_store {A} (l : list A) (i : Z) (x : A) : res (list A) :=
  if (i <? 0) || (Z.of_nat (length l) <=? i) then Panic
  else Ok (<[Z.to_nat i := x]> l).

(** [xs[lo:hi]] on a slice whose capacity is its length. *)
Definition go_slice {A} (l : list A) (lo hi : Z) : res (list A) :=
  if (lo <? 0) || (hi <? lo) || (Z.of_nat (length l) <? hi) then Panic
  else Ok (take (Z.to_nat (hi - lo)) (drop (Z.to_nat lo) l)).

(** ** Machine integers: Go's [int64] (and [int] on a 64-bit platform) and
    [uint64] wrap around. *)
Definition i64 (z : Z) : Z := (z + 2 ^ 63) mod 2 ^ 64 - 2 ^ 63.
Definition u64 (z : Z) : Z := z mod 2 ^ 64.
Definition i8 (z : Z) : Z := (z + 2 ^ 7) mod 2 ^ 8 - 2 ^ 7.
Definition u8 (z : Z) : Z := z mod 2 ^ 8.

Definition is_i64 (z : Z) : Prop := - 2 ^ 63 <= z < 2 ^ 63.
Definition is_u64 (z : Z) : Prop := 0 <= z < 2 ^ 64.
Definition is_byte (z : Z) : Prop := 0 <= z < 256.

Lemma i64_id z : is_i64 z -> i64 z = z.
Proof. unfold is_i64, i64. intros ?. rewrite Z.mod_small; lia. Qed.

Lemma i64_range z : is_i64 (i64 z).
Proof.
  unfold is_i64, i64. pose proof (Z.mod_pos_bound (z + 2 ^ 63) (2 ^ 64)). lia.
Qed.

Lemma u64_id z : is_u64 z -> u64 z = z.
Proof. unfold is_u64, u64. intros ?. rewrite Z.mod_small; lia. Qed.

Lemma u64_range z : is_u64 (u64 z).
Proof. unfold is_u64, u64. apply Z.mod_pos_bound. lia. Qed.

(** Converting to [uint64] and back to [int64] is the identity. *)
Lemma i64_u64 z : i64 (u64 z) = i64 z.
Proof.
  unfold i64, u64. f_equal. rewrite Z.add_mod_idemp_l by lia. done.
Qed.

Lemma u64_i64 z : u64 (i64 z) = u64 z.
Proof.
  unfold i64, u64. rewrite Zminus_mod_idemp_l. f_equal. lia.
Qed.

(** ** Byte strings: [bytes.Compare] and [bytes.Equal] *)
Abbreviation bytes := (list Z).

Fixpoint bytes_cmp (a b : bytes) : comparison :=
  match a, b with
  | [], [] => Eq
  | [], _ :: _ => Lt
  | _ :: _, [] => Gt
  | x :: a', y :: b' =>
      match Z.compare x y with Eq => bytes_cmp a' b' | c => c end
  end.

Definition bytes_eqb (a b : bytes) : bool :=
  match bytes_cmp a b with Eq => true | _ => false end.
Definition bytes_ltb (a b : bytes) : bool :=
  match bytes_cmp a b with Lt => true | _ => false end.
Definition bytes_leb (a b : bytes) : bool :=
  match bytes_cmp a b with Gt => false | _ => true end.

Definition bytes_lt (a b : bytes) : Prop := bytes_cmp a b = Lt.

Lemma bytes_cmp_eq a b : bytes_cmp a b = Eq <-> a = b.
Proof.
  revert b; induction a as [|x a IH]; intros [|y b]; simpl; try done.
  destruct (Z.compare_spec x y) as [->|?|?].
  - rewrite IH. naive_solver.
  - split; [done|]. intros [=]; lia.
  - split; [done|]. intros [=]; lia.
Qed.

Lemma bytes_cmp_refl a : bytes_cmp a a = Eq.
Proof. by apply bytes_cmp_eq. Qed.

Lemma bytes_cmp_antisym a b : bytes_cmp b a = CompOpp (bytes_cmp a b).
Proof.
  revert b; induction a as [|x a IH]; intros [|y b]; simpl; try done.
  rewrite (Z.compare_antisym x y). destruct (x ?= y); simpl; auto.
Qed.

Lemma bytes_lt_cons x y a b :
  bytes_lt (x :: a) (y :: b) <-> x < y \/ (x = y /\ bytes_lt a b).
Proof.
  unfold bytes_lt. simpl. destruct (Z.compare_spec x y); naive_solver lia.
Qed.

Lemma bytes_lt_trans a b c : bytes_lt a b -> bytes_lt b c -> bytes_lt a c.
Proof.
  revert b c. induction a as [|x a IH]; intros [|y b] [|z c]; try done.
  rewrite !bytes_lt_cons. intros [?|[-> ?]] [?|[-> ?]]; eauto with lia.
Qed.

Lemma bytes_lt_irrefl a : ~ bytes_lt a a.
Proof. unfold bytes_lt. by rewrite bytes_cmp_refl. Qed.

Lemma bytes_lt_asym a b : bytes_lt a b -> ~ bytes_lt b a.
Proof. intros ??. eapply bytes_lt_irrefl, bytes_lt_trans; eauto. Qed.

Lemma bytes_lt_ne a b : bytes_lt a b -> a <> b.
Proof. intros Hlt ->. by apply bytes_lt_irrefl in Hlt. Qed.

Lemma bytes_eqb_eq a b : bytes_eqb a b = true <-> a = b.
Proof.
  unfold bytes_eqb. destruct (bytes_cmp a b) eqn:E.
  - split; [intros _; by apply bytes_cmp_eq|done].
  - split; [done|]. intros ->. by rewrite bytes_cmp_refl in E.
  - split; [done|]. intros ->. by rewrite bytes_cmp_refl in E.
Qed.

Lemma bytes_eqb_refl a : bytes_eqb a a = true.
Proof. by apply bytes_eqb_eq. Qed.

Lemma bytes_eqb_neq a b : bytes_eqb a b = false <-> a <> b.
Proof. rewrite <- bytes_eqb_eq. destruct (bytes_eqb a b); naive_solver. Qed.

Lemma bytes_ltb_lt a b : bytes_ltb a b = true <-> bytes_lt a b.
Proof. unfold bytes_ltb, bytes_lt. destruct (bytes_cmp a b); naive_solver. Qed.

Lemma bytes_leb_le a b : bytes_leb a b = true <-> (bytes_lt a b \/ a = b).
Proof.
  unfold bytes_leb, bytes_lt. rewrite <- (bytes_cmp_eq a b).
  destruct (bytes_cmp a b); naive_solver.
Qed.

Lemma bytes_leb_false a b : bytes_leb a b = false <-> bytes_lt b a.
Proof.
  unfold bytes_leb, bytes_lt. rewrite (bytes_cmp_antisym a b).
  destruct (bytes_cmp a b); simpl; naive_solver.
Qed.

Lemma bytes_lt_total a b : bytes_lt a b \/ a = b \/ bytes_lt b a.
Proof.
  unfold bytes_lt. rewrite (bytes_cmp_antisym a b), <- (bytes_cmp_eq a b).
  destruct (bytes_cmp a b); simpl; naive_solver.
Qed.

(** ** [sort.Search]: the binary search of Go's standard library

    [i] and [j] bracket the answer; [n] halvings are enough for a bracket of
    width [n] because every turn shrinks it. *)
Fixpoint search_loop (fuel : nat) (f : nat -> bool) (i j : nat) : nat :=
  match fuel with
  | O => i
  | S fuel' =>
      if (i <? j)%nat then
        let h := ((i + j) / 2)%nat in
        if f h then search_loop fuel' f i h else search_loop fuel' f (S h) j
      else i
  end.

Definition sort_search (n : nat) (f : nat -> bool) : nat := search_loop n f 0 n.

Lemma search_loop_spec fuel f n i j :
  (j - i <= fuel)%nat -> (i <= j <= n)%nat ->
  (forall a b, (a <= b < n)%nat -> f a = true -> f b = true) ->
  (forall k, (k < i)%nat -> f k = false) ->
  (forall k, (j <= k < n)%nat -> f k = true) ->
  let r := search_loop fuel f i j in
  (r <= n)%nat /\ (forall k, (k < r)%nat -> f k = false) /\
  (forall k, (r <= k < n)%nat -> f k = true).
Proof.
  revert i j. induction fuel as [|fuel IH]; intros i j Hf Hij Hm Hlo Hhi;
    cbn [search_loop]; cbv zeta.
  - split_and!; [lia|auto|]. intros k ?. apply Hhi. lia.
  - destruct (Nat.ltb_spec i j) as [Hlt|Hge].
    2:{ split_and!; [lia|auto|]. intros k ?. apply Hhi. lia. }
    pose proof (Nat.div_mod (i + j) 2 ltac:(lia)) as Hd.
    pose proof (Nat.mod_upper_bound (i + j) 2 ltac:(lia)) as Hmb.
    set (h := ((i + j) / 2)%nat) in *.
    destruct (f h) eqn:E.
    + apply IH; try lia; auto. intros k ?. apply (Hm h k); [lia|done].
    + apply IH; try lia; auto. intros k ?.
      destruct (f k) eqn:Ek; [|done]. rewrite (Hm k h) in E; [done|lia|done].
Qed.

(** For a predicate that is monotone on [[0,n)], [sort.Search] returns the
    least index at which it holds, or [n]. *)
Lemma sort_search_spec n f :
  (forall a b, (a <= b < n)%nat -> f a = true -> f b = true) ->
  (sort_search n f <= n)%nat /\
  (forall k, (k < sort_search n f)%nat -> f k = false) /\
  (forall k, (sort_search n f <= k < n)%nat -> f k = true).
Proof. intros Hm. apply search_loop_spec; auto with lia. Qed.

(** ** Lists *)

(** Concatenations associated to the right, conses in front. *)
Ltac norm_app := repeat progress (rewrite <- ?app_assoc; cbn [app]).

Fixpoint zsum (l : list Z) : Z :=
  match l with [] => 0 | x :: l' => x + zsum l' end.

Lemma zsum_app l k : zsum (l ++ k) = zsum l + zsum k.
Proof. induction l; simpl; lia. Qed.

Lemma zsum_nonneg l : Forall (fun x => 0 <= x) l -> 0 <= zsum l.
Proof. induction 1; simpl; lia. Qed.

Lemma zsum_perm l k : l ≡ₚ k -> zsum l = zsum k.
Proof. induction 1; simpl; lia. Qed.

Lemma zsum_insert l i x y :
  l !! i = Some x -> zsum (<[i := y]> l) = zsum l - x + y.
Proof.
  revert i. induction l as [|z l IH]; intros [|i]; simpl; try done.
  - intros [= ->]. lia.
  - intros H. rewrite (IH _ H). lia.
Qed.

Lemma zsum_elem_le l i x :
  Forall (fun x => 0 <= x) l -> l !! i = Some x -> x <= zsum l.
Proof.
  revert i. induction l as [|z l IH]; intros [|i] Hf; simpl; try done.
  - intros [= ->]. apply Forall_cons in Hf as [? ?%zsum_nonneg]. lia.
  - apply Forall_cons in Hf as [? Hf]. intros ?%IH; [lia|done].
Qed.

Lemma zsum_map_add {A} (f g : A -> Z) l :
  zsum (map (fun x => f x + g x) l) = zsum (map f l) + zsum (map g l).
Proof. induction l; simpl; lia. Qed.

Lemma zsum_map_le {A} (f g : A -> Z) l :
  (forall x, x ∈ l -> f x <= g x) -> zsum (map f l) <= zsum (map g l).
Proof.
  induction l as [|a l IH]; intros H; simpl; [lia|].
  pose proof (H a ltac:(left)). pose proof (IH ltac:(intros; apply H; by right)). lia.
Qed.

Lemma zsum_map_ext {A} (f g : A -> Z) l :
  (forall x, x ∈ l -> f x = g x) -> zsum (map f l) = zsum (map g l).
Proof.
  intros H. apply Z.le_antisymm; apply zsum_map_le; intros x Hx; rewrite H; auto; lia.
Qed.

Lemma size_list_to_set_le `{Countable K} (l : list K) :
  (size (list_to_set l : gset K) <= length l)%nat.
Proof.
  induction l as [|x l IH]; [done|]. cbn [list_to_set length].
  rewrite size_union_alt, size_singleton.
  assert (size (list_to_set l ∖ {[x]} : gset K) <= size (list_to_set l : gset K))%nat
    by (apply subseteq_size; set_solver). lia.
Qed.

(** Equality of lists up to an exceptional case *)
Lemma list_eq_or {A} (P : Prop) (a b : list A) :
  length a = length b -> (forall i x, a !! i = Some x -> b !! i = Some x \/ P) -> a = b \/ P.
Proof.
  revert b. induction a as [|x a IH]; intros [|y b] Hl Hs; simplify_eq/=; [by left|].
  destruct (Hs 0%nat x eq_refl) as [E|]; [|by right]. simplify_eq/=.
  destruct (IH b Hl) as [->|]; [|by left|by right]. intros i z Hz. by apply (Hs (S i)).
Qed.

(** ** Hints

    The facts about machine integers, byte order and lists that close the side
    conditions of the components: [eauto with go] and [autorewrite with go]. *)
Create HintDb go.
#[export] Hint Resolve i64_range u64_range bytes_lt_trans zsum_nonneg : go.
#[export] Hint Resolve bytes_eqb_refl bytes_cmp_refl : go.
#[export] Hint Rewrite @i64_u64 @u64_i64 @zsum_app : go.
#[export] Hint Rewrite i64_id using (unfold is_i64; lia) : go.
#[export] Hint Rewrite u64_id using (unfold is_u64; lia) : go.
