(* ===== verification/BitArray.v ===== *)
(** * gemmill/modules/go-common/bit_array.go

    A bit array is a word count of bits with a slice of 64-bit words; a nil
    pointer (an array of size 0) is [None].  The mutex only serialises callers
    and has no state of its own.  The theorems read every operation through
    [GetIndex], the only way callers look at a bit. *)
From S2P Require Import Prelude.

Module BitArray.

Record t := mk { Bits : Z; Elems : list Z }.

(** [uint64(1) << uint(k)]: a shift by 64 or more is 0, and converting a
    negative [int] to [uint] gives a huge shift. *)
Definition shl1 (k : Z) : Z := if u64 k <? 64 then 2 ^ u64 k else 0.
Definition not64 (x : Z) : Z := u64 (Z.lnot x).

(** [make([]uint64, (bits+63)/64)]; a negative length panics. *)
Definition make_words (bits : Z) : res (list Z) :=
  let n := Z.quot (bits + 63) 64 in
  if n <? 0 then Panic else Ok (replicate (Z.to_nat n) 0).

Definition NewBitArray (bits : Z) : res (option t) :=
  if bits =? 0 then Ok None
  else let! ws := make_words bits in Ok (Some (mk bits ws)).

Definition Size (bA : option t) : Z :=
  match bA with None => 0 | Some b => Bits b end.

Definition getIndex (b : t) (i : Z) : res bool :=
  if Bits b <=? i then Ok false
  else let! e := go_index (Elems b) (Z.quot i 64) in
       Ok (0 <? Z.land e (shl1 (Z.rem i 64))).

Definition GetIndex (bA : option t) (i : Z) : res bool :=
  match bA with None => Ok false | Some b => getIndex b i end.

Definition setIndex (b : t) (i : Z) (v : bool) : res (t * bool) :=
  if Bits b <=? i then Ok (b, false)
  else
    let! e := go_index (Elems b) (Z.quot i 64) in
    let e' := if v then Z.lor e (shl1 (Z.rem i 64))
              else Z.land e (not64 (shl1 (Z.rem i 64))) in
    let! es := go_store (Elems b) (Z.quot i 64) e' in
    Ok (mk (Bits b) es, true).

Definition SetIndex (bA : option t) (i : Z) (v : bool) : res (option t * bool) :=
  match bA with
  | None => Ok (None, false)
  | Some b => let! (b', ok) := setIndex b i v in Ok (Some b', ok)
  end.

Definition Copy (bA : option t) : option t := bA.

(** [copy(dst, src)]: the first [min(len dst, len src)] words. *)
Definition go_copy (dst src : list Z) : list Z :=
  take (length dst) src ++ drop (length src) dst.

Definition copyBits (b : t) (bits : Z) : res t :=
  let! c := make_words bits in Ok (mk bits (go_copy c (Elems b))).

(** [for i := 0; i < len(c.Elems); i++ { c.Elems[i] = f(c.Elems[i], o.Elems[i]) }] *)
Fixpoint zip_elems (f : Z -> Z -> Z) (c o : list Z) : res (list Z) :=
  match c, o with
  | [], _ => Ok []
  | _ :: _, [] => Panic
  | x :: c', y :: o' => let! r := zip_elems f c' o' in Ok (f x y :: r)
  end.

(** A nil receiver falls through [o.Copy()] to a nil dereference. *)
Definition Or (bA o : option t) : res (option t) :=
  let! b := deref bA in
  let! ob := deref o in
  let! c := copyBits b (Z.max (Bits b) (Bits ob)) in
  let! es := zip_elems Z.lor (Elems c) (Elems ob) in
  Ok (Some (mk (Bits c) es)).

Definition and (b : t) (o : option t) : res (option t) :=
  let! ob := deref o in
  let! c := copyBits b (Z.min (Bits b) (Bits ob)) in
  let! es := zip_elems Z.land (Elems c) (Elems ob) in
  Ok (Some (mk (Bits c) es)).

Definition And (bA o : option t) : res (option t) :=
  match bA with None => Ok None | Some b => and b o end.

Definition Not (bA : option t) : option t :=
  match bA with
  | None => None
  | Some b => Some (mk (Bits b) (map not64 (Elems b)))
  end.

(** [for idx := i*64; idx < o.Bits; idx++ { c.setIndex(idx, c.getIndex(idx) && !o.GetIndex(idx)) }] *)
Fixpoint sub_tail (fuel : nat) (c : t) (o : option t) (idx obits : Z) : res t :=
  match fuel with
  | O => Ok c
  | S fuel' =>
      if idx <? obits then
        let! g := getIndex c idx in
        let! og := GetIndex o idx in
        let! (c', _) := setIndex c idx (g && negb og) in
        sub_tail fuel' c' o (idx + 1) obits
      else Ok c
  end.

(** The body of the first loop reads [c.Elems[i] &= ^c.Elems[i]]. *)
Fixpoint sub_head (k : nat) (c : list Z) : res (list Z) :=
  match k, c with
  | O, _ => Ok c
  | S k', x :: c' => let! r := sub_head k' c' in Ok (Z.land x (not64 x) :: r)
  | S _, [] => Panic
  end.

Definition Sub (bA o : option t) : res (option t) :=
  match bA with
  | None => Ok None
  | Some b =>
      let! ob := deref o in
      if Bits ob <? Bits b then
        let n := length (Elems ob) in
        let! es := sub_head (n - 1) (Elems b) in
        let c := mk (Bits b) es in
        if (0 <? n)%nat then
          let start := Z.of_nat (n - 1) * 64 in
          let! c' := sub_tail (Z.to_nat (Bits ob - start)) c o start (Bits ob) in
          Ok (Some c')
        else Ok (Some c)
      else and b (Not o)
  end.

Definition IsEmpty (bA : option t) : bool :=
  match bA with
  | None => true
  | Some b => forallb (fun e => negb (0 <? e)) (Elems b)
  end.

Definition IsFull (bA : option t) : res bool :=
  match bA with
  | None => Ok true
  | Some b =>
      match last (Elems b) with
      | None => Panic
      | Some lastElem =>
          if forallb (fun e => not64 e =? 0) (take (length (Elems b) - 1) (Elems b)) then
            let lastElemBits := Z.rem (Bits b + 63) 64 + 1 in
            Ok (Z.land (u64 (lastElem + 1)) (u64 (shl1 lastElemBits - 1)) =? 0)
          else Ok false
      end
  end.

(** [for j := 0; j < n; j++ { bitIdx := (j+start) % n; if e & (1<<bitIdx) > 0 ... }] *)
Definition pick_bit (e n start : Z) : option Z :=
  list_find (fun bitIdx => 0 < Z.land e (shl1 bitIdx))
    (map (fun j => Z.rem (Z.of_nat j + start) n) (seq 0 (Z.to_nat n)))
  ≫= fun p => Some p.2.

(** One turn of the outer loop of [PickRandom].  [randBit] is the value
    [rand.Intn] draws in that turn. *)
Definition pick_elem (b : t) (elemIdx randBit : Z) : res (option Z) :=
  let length := Z.of_nat (length (Elems b)) in
  let! e := go_index (Elems b) elemIdx in
  if elemIdx <? length - 1 then
    if 0 <? e then
      match pick_bit e 64 randBit with
      | Some bitIdx => Ok (Some (64 * elemIdx + bitIdx))
      | None => Panic
      end
    else Ok None
  else
    let elemBits := if Z.rem (Bits b) 64 =? 0 then 64 else Z.rem (Bits b) 64 in
    match pick_bit e elemBits randBit with
    | Some bitIdx => Ok (Some (64 * elemIdx + bitIdx))
    | None => Ok None
    end.

Fixpoint pick_loop (b : t) (start : Z) (randBit : nat -> Z) (todo : nat) (i : nat)
    : res (option Z) :=
  match todo with
  | O => Ok None
  | S todo' =>
      let elemIdx := Z.rem (Z.of_nat i + start) (Z.of_nat (length (Elems b))) in
      let! r := pick_elem b elemIdx (randBit i) in
      match r with
      | Some k => Ok (Some k)
      | None => pick_loop b start randBit todo' (S i)
      end
  end.

(** [randStart] is the first draw, [randBit i] the draw of turn [i]. *)
Definition PickRandom (bA : option t) (randStart : Z) (randBit : nat -> Z)
    : res (option Z) :=
  match bA with
  | None => Ok None
  | Some b =>
      match Elems b with
      | [] => Ok None
      | _ => pick_loop b randStart randBit (length (Elems b)) 0
      end
  end.

(** [binary.LittleEndian.PutUint64] *)
Fixpoint le_bytes (n : nat) (x : Z) : bytes :=
  match n with O => [] | S n' => x mod 256 :: le_bytes n' (x / 256) end.

(** The words go out eight bytes at a time, clipped to [(Bits+7)/8] bytes;
    slicing [bytes[i*8:]] past the end panics. *)
Definition Bytes (b : t) : res bytes :=
  let numBytes := Z.quot (Bits b + 7) 8 in
  if (numBytes <? 0) || (numBytes <? 8 * (Z.of_nat (length (Elems b)) - 1)) then Panic
  else
    let raw := concat (map (le_bytes 8) (Elems b)) in
    Ok (take (Z.to_nat numBytes) (raw ++ replicate (Z.to_nat numBytes) 0)).

Definition Update (bA o : option t) : res (option t) :=
  match bA with
  | None => Ok None
  | Some b => let! ob := deref o in
              Ok (Some (mk (Bits b) (go_copy (Elems b) (Elems ob))))
  end.

(** ** Reading an array through its bits *)

(** The arrays [NewBitArray] makes and the operations keep: one word for
    every 64 bits started. *)
Definition wf (b : t) : Prop :=
  0 < Bits b /\ length (Elems b) = Z.to_nat ((Bits b + 63) / 64) /\
  Forall is_u64 (Elems b).

Definition bit (b : t) (i : Z) : bool :=
  Z.testbit (default 0 (Elems b !! Z.to_nat (i / 64))) (i mod 64).

Lemma is_u64_bits x : 0 <= x -> (forall k, 64 <= k -> Z.testbit x k = false) -> is_u64 x.
Proof.
  intros Hx Hk. split; [done|]. apply Z.nle_gt. intros Hge.
  pose proof (Z.log2_le_mono _ _ Hge) as Hl. rewrite Z.log2_pow2 in Hl by lia.
  pose proof (Z.bit_log2 x ltac:(lia)) as Hb. rewrite Hk in Hb by lia. done.
Qed.

Lemma u64_high x k : is_u64 x -> 64 <= k -> Z.testbit x k = false.
Proof.
  intros [H0 H1] Hk. destruct (decide (x = 0)) as [->|]; [by rewrite Z.bits_0|].
  apply Z.bits_above_log2; [done|]. apply Z.log2_lt_pow2; [lia|].
  eapply Z.lt_le_trans; [exact H1|]. apply Z.pow_le_mono_r; lia.
Qed.

Lemma not64_testbit x k : 0 <= k < 64 -> Z.testbit (not64 x) k = negb (Z.testbit x k).
Proof.
  intros Hk. unfold not64, u64. rewrite Z.mod_pow2_bits_low by lia.
  by rewrite Z.lnot_spec by lia.
Qed.

Lemma not64_range x : is_u64 (not64 x).
Proof. apply u64_range. Qed.

Lemma lor_range x y : is_u64 x -> is_u64 y -> is_u64 (Z.lor x y).
Proof.
  intros Hx Hy. apply is_u64_bits; [apply Z.lor_nonneg; destruct Hx, Hy; lia|].
  intros k Hk. by rewrite Z.lor_spec, !u64_high.
Qed.

Lemma land_range x y : is_u64 x -> is_u64 y -> is_u64 (Z.land x y).
Proof.
  intros Hx Hy. apply is_u64_bits; [apply Z.land_nonneg; destruct Hx; lia|].
  intros k Hk. by rewrite Z.land_spec, !u64_high.
Qed.

Lemma shl1_eq k : 0 <= k < 64 -> shl1 k = 2 ^ k.
Proof.
  intros. unfold shl1. rewrite u64_id by (unfold is_u64; lia).
  by destruct (Z.ltb_spec k 64); [|lia].
Qed.

Lemma shl1_range k : 0 <= k < 64 -> is_u64 (shl1 k).
Proof.
  intros. rewrite shl1_eq by done. split; [apply Z.pow_nonneg; lia|].
  apply Z.pow_lt_mono_r; lia.
Qed.

Lemma shl1_testbit k j : 0 <= k < 64 -> 0 <= j -> Z.testbit (shl1 k) j = bool_decide (j = k).
Proof.
  intros. rewrite shl1_eq by done. rewrite Z.pow2_bits_eqb by lia.
  destruct (Z.eqb_spec k j); destruct (bool_decide_reflect (j = k)); subst; done.
Qed.

Lemma land_shl1 e k : is_u64 e -> 0 <= k < 64 -> (0 <? Z.land e (shl1 k)) = Z.testbit e k.
Proof.
  intros He Hk. destruct (Z.testbit e k) eqn:E.
  - apply Z.ltb_lt. destruct (decide (Z.land e (shl1 k) = 0)) as [H|H].
    + assert (Z.testbit (Z.land e (shl1 k)) k = true) as H'.
      { rewrite Z.land_spec, E, shl1_testbit by lia. by rewrite bool_decide_true. }
      rewrite H, Z.bits_0 in H'. done.
    + pose proof (land_range e (shl1 k) He (shl1_range k Hk)) as [? ?]. lia.
  - apply Z.ltb_ge. enough (Z.land e (shl1 k) = 0) by lia.
    apply Z.bits_inj'. intros n Hn. rewrite Z.land_spec, Z.bits_0, shl1_testbit by lia.
    case_bool_decide; [subst|]; rewrite ?E; auto using andb_false_r.
Qed.

Lemma quot_rem_64 i : 0 <= i -> Z.quot i 64 = i / 64 /\ Z.rem i 64 = i mod 64.
Proof. intros. by rewrite Z.quot_div_nonneg, Z.rem_mod_nonneg by lia. Qed.

Lemma wf_word b i :
  wf b -> 0 <= i < Bits b -> exists e, Elems b !! Z.to_nat (i / 64) = Some e /\ is_u64 e.
Proof.
  intros (Hb & Hl & Hf) Hi.
  destruct (lookup_lt_is_Some_2 (Elems b) (Z.to_nat (i / 64))) as [e He].
  { rewrite Hl. apply Z2Nat.inj_lt; [apply Z.div_pos; lia|apply Z.div_pos; lia|].
    apply Z.div_lt_upper_bound; [lia|]. pose proof (Z.div_mod (Bits b + 63) 64).
    pose proof (Z.mod_pos_bound (Bits b + 63) 64). lia. }
  exists e. split; [done|]. eapply Forall_lookup_1 in Hf; eauto.
Qed.

Lemma getIndex_bit b i : wf b -> 0 <= i < Bits b -> getIndex b i = Ok (bit b i).
Proof.
  intros Hwf Hi. destruct (wf_word b i Hwf Hi) as (e & He & Hu).
  destruct (quot_rem_64 i ltac:(lia)) as [Hq Hr].
  unfold getIndex, bit, go_index. rewrite Hq, Hr, He.
  pose proof (Z.div_pos i 64 ltac:(lia) ltac:(lia)).
  destruct (Z.leb_spec (Bits b) i); [lia|]. destruct (Z.ltb_spec (i / 64) 0); [lia|].
  simpl. rewrite land_shl1; [done..|]. apply Z.mod_pos_bound. lia.
Qed.

Lemma getIndex_out b i : Bits b <= i -> getIndex b i = Ok false.
Proof. intros. unfold getIndex. by destruct (Z.leb_spec (Bits b) i); [|lia]. Qed.

Lemma setIndex_ok b i v :
  wf b -> 0 <= i < Bits b ->
  exists b', setIndex b i v = Ok (b', true) /\ wf b' /\ Bits b' = Bits b /\
    forall j, 0 <= j < Bits b -> bit b' j = if decide (i = j) then v else bit b j.
Proof.
  intros Hwf Hi. destruct (wf_word b i Hwf Hi) as (e & He & Hu).
  destruct (quot_rem_64 i ltac:(lia)) as [Hq Hr].
  pose proof (Z.div_pos i 64 ltac:(lia) ltac:(lia)) as Hd.
  pose proof (Z.mod_pos_bound i 64 ltac:(lia)) as Hm.
  pose proof (lookup_lt_Some _ _ _ He) as Hlt.
  unfold setIndex, go_index, go_store. rewrite Hq, Hr, He.
  destruct (Z.leb_spec (Bits b) i); [lia|]. destruct (Z.ltb_spec (i / 64) 0); [lia|].
  destruct (Z.leb_spec (Z.of_nat (length (Elems b))) (i / 64)); [lia|]. simpl.
  set (e' := if v then _ else _).
  assert (is_u64 e') as He'.
  { unfold e'. destruct v; [apply lor_range|apply land_range];
      auto using shl1_range, not64_range. }
  assert (forall k, 0 <= k < 64 ->
    Z.testbit e' k = if decide (i mod 64 = k) then v else Z.testbit e k) as Hbit.
  { intros k Hk. unfold e'. destruct v.
    - rewrite Z.lor_spec, shl1_testbit by lia.
      case_bool_decide; case_decide; try lia; auto using orb_true_r, orb_false_r.
    - rewrite Z.land_spec, not64_testbit, shl1_testbit by lia.
      case_bool_decide; case_decide; try lia; simpl; auto using andb_true_r, andb_false_r. }
  eexists. split; [reflexivity|]. destruct Hwf as (Hb & Hl & Hf). split_and!.
  - split_and!; simpl; [done|by rewrite length_insert|]. by apply Forall_insert.
  - done.
  - intros j Hj. unfold bit at 1. simpl.
    pose proof (Z.mod_pos_bound j 64 ltac:(lia)).
    pose proof (Z.div_mod i 64 ltac:(lia)). pose proof (Z.div_mod j 64 ltac:(lia)).
    destruct (decide (i / 64 = j / 64)) as [Heq|Hne].
    + rewrite <- Heq, list_lookup_insert_eq by done. simpl.
      rewrite Hbit by done. unfold bit. rewrite <- Heq, He. simpl.
      repeat case_decide; subst; try done; lia.
    + rewrite list_lookup_insert_ne
        by (pose proof (Z.div_pos j 64 ltac:(lia) ltac:(lia)); lia).
      case_decide; [subst; done|]. done.
Qed.

Lemma SetIndex_out b i v : Bits b <= i -> SetIndex (Some b) i v = Ok (Some b, false).
Proof. intros. unfold SetIndex, setIndex. by destruct (Z.leb_spec (Bits b) i); [|lia]. Qed.

Lemma NewBitArray_ok n :
  0 < n -> exists b, NewBitArray n = Ok (Some b) /\ Bits b = n /\ wf b /\
    forall i, bit b i = false.
Proof.
  intros Hn. unfold NewBitArray, make_words.
  pose proof (Z.div_pos (n + 63) 64 ltac:(lia) ltac:(lia)).
  rewrite Z.quot_div_nonneg by lia.
  destruct (Z.eqb_spec n 0); [lia|]. destruct (Z.ltb_spec ((n + 63) / 64) 0); [lia|].
  eexists. split; [reflexivity|]. split_and!; simpl; [done|..].
  - split_and!; simpl; [done|by rewrite length_replicate|].
    apply Forall_replicate. unfold is_u64. lia.
  - intros i. unfold bit. simpl. destruct (replicate _ _ !! _) eqn:E; simpl; [|apply Z.bits_0].
    apply lookup_replicate in E as [-> _]. apply Z.bits_0.
Qed.

(** ** The word-wise operations *)

Lemma zip_elems_ok f c o :
  (length c <= length o)%nat ->
  exists r, zip_elems f c o = Ok r /\ length r = length c /\
    forall i x y, c !! i = Some x -> o !! i = Some y -> r !! i = Some (f x y).
Proof.
  revert o. induction c as [|x c IH]; intros [|y o] Hl; simpl in *; try lia.
  - exists []. done.
  - exists []. done.
  - destruct (IH o ltac:(lia)) as (r & Hr & Hlr & Hi). rewrite Hr. simpl.
    eexists. split; [done|]. split; [simpl; lia|]. intros [|i] x' y'; simpl; [naive_solver|eauto].
Qed.

Lemma zip_elems_range f c o r :
  (forall x y, is_u64 x -> is_u64 y -> is_u64 (f x y)) ->
  Forall is_u64 c -> Forall is_u64 o -> zip_elems f c o = Ok r -> Forall is_u64 r.
Proof.
  intros Hf. revert o r. induction c as [|x c IH]; intros [|y o] r Hc Ho; simpl; try done.
  - by intros [= <-].
  - by intros [= <-].
  - apply Forall_cons in Hc as [? ?]. apply Forall_cons in Ho as [? ?].
    destruct (zip_elems f c o) eqn:E; simpl; [|done]. intros [= <-]. eauto.
Qed.

Definition words (bits : Z) : nat := Z.to_nat ((bits + 63) / 64).

Lemma words_mono a b : 0 < a -> a <= b -> (words a <= words b)%nat.
Proof.
  intros. unfold words. apply Z2Nat.inj_le; try (apply Z.div_pos; lia).
  apply Z.div_le_mono; lia.
Qed.

Lemma copyBits_ok b n :
  wf b -> 0 < n ->
  exists c, copyBits b n = Ok c /\ wf c /\ Bits c = n /\
    forall i, 0 <= i < n -> bit c i = if decide (Z.to_nat (i / 64) < length (Elems b))%nat
                                     then bit b i else false.
Proof.
  intros (Hb & Hl & Hf) Hn. unfold copyBits, make_words.
  pose proof (Z.div_pos (n + 63) 64 ltac:(lia) ltac:(lia)).
  rewrite Z.quot_div_nonneg by lia. destruct (Z.ltb_spec ((n + 63) / 64) 0); [lia|].
  eexists. split; [reflexivity|]. unfold go_copy. rewrite length_replicate. simpl. split_and!.
  - split_and!; simpl; [done|..].
    + rewrite length_app, length_take, length_drop, length_replicate. lia.
    + apply Forall_app. split; [by apply Forall_take|].
      apply Forall_drop, Forall_replicate. unfold is_u64. lia.
  - done.
  - intros i Hi. unfold bit. simpl.
    assert (Z.to_nat (i / 64) < Z.to_nat ((n + 63) / 64))%nat as Hlt.
    { apply Z2Nat.inj_lt; try (apply Z.div_pos; lia).
      apply Z.div_lt_upper_bound; [lia|]. pose proof (Z.div_mod (n + 63) 64).
      pose proof (Z.mod_pos_bound (n + 63) 64). lia. }
    case_decide as Hd.
    + rewrite lookup_app_l by (rewrite length_take; lia).
      by rewrite lookup_take_lt by lia.
    + rewrite lookup_app_r by (rewrite length_take; lia).
      rewrite lookup_drop, length_take.
      destruct (replicate _ _ !! _) eqn:E; simpl; [|apply Z.bits_0].
      apply lookup_replicate in E as [-> _]. apply Z.bits_0.
Qed.

(** Two bit-wise combinations read bit by bit. *)
Lemma bit_zip f g b c o r i :
  (forall x y k, Z.testbit (f x y) k = g (Z.testbit x k) (Z.testbit y k)) ->
  zip_elems f (Elems c) (Elems o) = Ok r ->
  (length (Elems c) <= length (Elems o))%nat ->
  (Z.to_nat (i / 64) < length (Elems c))%nat ->
  bit (mk b r) i = g (bit c i) (bit o i).
Proof.
  intros Hfg Hz Hl Hi. destruct (zip_elems_ok f (Elems c) (Elems o) Hl) as (r' & Hr & _ & Hlk).
  rewrite Hz in Hr. injection Hr as <-. unfold bit. simpl.
  destruct (lookup_lt_is_Some_2 (Elems c) (Z.to_nat (i / 64)) Hi) as [x Hx].
  destruct (lookup_lt_is_Some_2 (Elems o) (Z.to_nat (i / 64)) ltac:(lia)) as [y Hy].
  rewrite (Hlk _ _ _ Hx Hy), Hx, Hy. simpl. apply Hfg.
Qed.

Lemma idx_lt n i : 0 <= i < n -> (Z.to_nat (i / 64) < words n)%nat.
Proof.
  intros. unfold words. apply Z2Nat.inj_lt; try (apply Z.div_pos; lia).
  apply Z.div_lt_upper_bound; [lia|]. pose proof (Z.div_mod (n + 63) 64).
  pose proof (Z.mod_pos_bound (n + 63) 64). lia.
Qed.

Lemma and_ok a o :
  wf a -> wf o ->
  exists c, and a (Some o) = Ok (Some c) /\ wf c /\ Bits c = Z.min (Bits a) (Bits o) /\
    forall i, 0 <= i < Bits c -> bit c i = bit a i && bit o i.
Proof.
  intros Ha Ho. unfold and. simpl.
  assert (0 < Z.min (Bits a) (Bits o)) as Hn by (destruct Ha, Ho; lia).
  destruct (copyBits_ok a _ Ha Hn) as (c & Hc & Hwc & Hbc & Hbit). rewrite Hc. simpl.
  assert (length (Elems c) <= length (Elems o))%nat as Hl.
  { destruct Hwc as (? & -> & _), Ho as (? & -> & _). rewrite Hbc. apply words_mono; lia. }
  destruct (zip_elems_ok Z.land (Elems c) (Elems o) Hl) as (r & Hr & Hlr & _). rewrite Hr. simpl.
  eexists. split; [reflexivity|]. split_and!.
  - destruct Hwc as (? & ? & ?). split_and!; simpl; [lia|congruence|].
    eapply zip_elems_range; [apply land_range|..|exact Hr]; [done|]. by destruct Ho as (_ & _ & ?).
  - done.
  - simpl. rewrite Hbc. intros i Hi.
    assert (Z.to_nat (i / 64) < length (Elems a))%nat.
    { destruct Ha as (? & -> & _). apply idx_lt. lia. }
    erewrite bit_zip with (g := andb);
      [|intros; apply Z.land_spec|exact Hr|done|].
    + rewrite Hbit by lia. by rewrite decide_True by done.
    + destruct Hwc as (? & -> & _). rewrite Hbc. by apply idx_lt.
Qed.

Lemma Not_ok a :
  wf a -> exists c, Not (Some a) = Some c /\ wf c /\ Bits c = Bits a /\
    forall i, 0 <= i < Bits a -> bit c i = negb (bit a i).
Proof.
  intros Hw. eexists. split; [reflexivity|]. destruct (Hw) as (Hb & Hl & Hf). split_and!.
  - split_and!; simpl; [done|by rewrite length_map|].
    apply Forall_forall. intros x (y & -> & _)%list_elem_of_fmap. apply not64_range.
  - done.
  - intros i Hi. destruct (wf_word a i Hw Hi) as (e & He & _). unfold bit. simpl.
    rewrite list_lookup_fmap, He. simpl. rewrite not64_testbit; [done|].
    apply Z.mod_pos_bound. lia.
Qed.

Lemma Or_ok a o :
  wf a -> wf o -> Bits a <= Bits o ->
  exists c, Or (Some a) (Some o) = Ok (Some c) /\ wf c /\ Bits c = Bits o /\
    forall i, 0 <= i < Bits a -> bit c i = bit a i || bit o i.
Proof.
  intros Ha Ho Hao. unfold Or. simpl. rewrite Z.max_r by done.
  destruct (copyBits_ok a (Bits o) Ha ltac:(destruct Ho; lia)) as (c & Hc & Hwc & Hbc & Hbit).
  rewrite Hc. simpl.
  assert (length (Elems c) = length (Elems o))%nat as Hl.
  { destruct Hwc as (? & -> & _), Ho as (? & -> & _). by rewrite Hbc. }
  destruct (zip_elems_ok Z.lor (Elems c) (Elems o) ltac:(lia)) as (r & Hr & Hlr & _).
  rewrite Hr. simpl. eexists. split; [reflexivity|]. split_and!.
  - destruct Hwc as (? & ? & ?). split_and!; simpl; [lia|congruence|].
    eapply zip_elems_range; [apply lor_range|..|exact Hr]; [done|]. by destruct Ho as (_ & _ & ?).
  - done.
  - intros i Hi. assert (Z.to_nat (i / 64) < length (Elems a))%nat.
    { destruct Ha as (? & -> & _). apply idx_lt. lia. }
    erewrite bit_zip with (g := orb); [|intros; apply Z.lor_spec|exact Hr|lia|].
    + rewrite Hbit by lia. by rewrite decide_True by done.
    + destruct Hwc as (? & -> & _). rewrite Hbc. apply idx_lt. lia.
Qed.

(** ** [Sub] *)

Lemma land_not64_self x : is_u64 x -> Z.land x (not64 x) = 0.
Proof.
  intros Hx. apply Z.bits_inj'. intros k Hk. rewrite Z.land_spec, Z.bits_0.
  destruct (Z.lt_ge_cases k 64).
  - rewrite not64_testbit by lia. by destruct (Z.testbit x k).
  - by rewrite (u64_high x) by done.
Qed.

Lemma sub_head_ok k c :
  Forall is_u64 c -> (k <= length c)%nat ->
  sub_head k c = Ok (replicate k 0 ++ drop k c).
Proof.
  revert c. induction k as [|k IH]; intros [|x c] Hf Hk; simpl in *; try done; try lia.
  apply Forall_cons in Hf as [? ?]. rewrite IH by (done || lia). simpl.
  by rewrite land_not64_self.
Qed.

Lemma sub_tail_ok fuel c o idx :
  wf c -> wf o -> 0 <= idx -> Bits o <= Bits c -> (Z.to_nat (Bits o - idx) <= fuel)%nat ->
  exists c', sub_tail fuel c (Some o) idx (Bits o) = Ok c' /\ wf c' /\ Bits c' = Bits c /\
    forall i, 0 <= i < Bits c ->
      bit c' i = if decide (idx <= i < Bits o) then bit c i && negb (bit o i) else bit c i.
Proof.
  revert c idx. induction fuel as [|fuel IH]; intros c idx Hc Ho Hidx Hoc Hfuel; simpl.
  { exists c. split_and!; [done..|]. intros i Hi. case_decide; [lia|done]. }
  destruct (Z.ltb_spec idx (Bits o)) as [Hlt|Hge].
  2:{ exists c. split_and!; [done..|]. intros i Hi. case_decide; [lia|done]. }
  rewrite !getIndex_bit by (done || lia). simpl.
  destruct (setIndex_ok c idx (bit c idx && negb (bit o idx)) Hc ltac:(lia))
    as (c1 & -> & Hc1 & Hb1 & Hbit1). simpl.
  destruct (IH c1 (idx + 1) Hc1 Ho ltac:(lia) ltac:(lia) ltac:(lia))
    as (c' & -> & Hc' & Hb' & Hbit'). exists c'. split_and!; [done..|congruence|].
  intros i Hi. rewrite Hbit', Hbit1 by lia.
  repeat case_decide; subst; try done; try lia.
Qed.

Lemma bit_cleared n ws k i :
  0 <= i -> bit (mk n (replicate k 0 ++ drop k ws)) i
  = if decide (i < 64 * Z.of_nat k) then false else bit (mk n ws) i.
Proof.
  intros Hi. unfold bit. simpl. pose proof (Z.div_mod i 64 ltac:(lia)).
  pose proof (Z.mod_pos_bound i 64 ltac:(lia)).
  pose proof (Z.div_pos i 64 Hi ltac:(lia)). case_decide.
  - rewrite lookup_app_l by (rewrite length_replicate; lia).
    rewrite lookup_replicate_2 by lia. apply Z.bits_0.
  - rewrite lookup_app_r by (rewrite length_replicate; lia).
    rewrite length_replicate, lookup_drop. do 3 f_equal. lia.
Qed.

Lemma Sub_le a o :
  wf a -> wf o -> Bits a <= Bits o ->
  exists c, Sub (Some a) (Some o) = Ok (Some c) /\ wf c /\ Bits c = Bits a /\
    forall i, 0 <= i < Bits a -> bit c i = bit a i && negb (bit o i).
Proof.
  intros Ha Ho Hao. unfold Sub. cbn [rbind deref].
  destruct (Z.ltb_spec (Bits o) (Bits a)); [lia|].
  destruct (Not_ok o Ho) as (n & -> & Hn & Hbn & Hbitn).
  destruct (and_ok a n Ha Hn) as (c & -> & Hc & Hbc & Hbit).
  rewrite Hbn, Z.min_l in Hbc by done.
  exists c. split_and!; [done..|]. intros i Hi. rewrite Hbit, Hbitn by lia. done.
Qed.

Lemma Sub_gt a o :
  wf a -> wf o -> Bits o < Bits a ->
  exists c, Sub (Some a) (Some o) = Ok (Some c) /\ wf c /\ Bits c = Bits a /\
    forall i, 0 <= i < Bits a ->
      bit c i = if decide (i < 64 * (Z.of_nat (length (Elems o)) - 1)) then false
                else if decide (i < Bits o) then bit a i && negb (bit o i)
                else bit a i.
Proof.
  intros Ha Ho Hlt. unfold Sub. cbn [rbind deref].
  destruct (Z.ltb_spec (Bits o) (Bits a)); [|lia].
  destruct (Ha) as (Hba & Hla & Hfa). destruct (Ho) as (Hbo & Hlo & Hfo).
  assert (0 < length (Elems o))%nat as Hlen.
  { rewrite Hlo. pose proof (idx_lt (Bits o) 0 ltac:(lia)). unfold words in *. lia. }
  assert (length (Elems o) <= length (Elems a))%nat as Hle.
  { rewrite Hlo, Hla. apply words_mono; lia. }
  rewrite sub_head_ok by (done || lia). cbn [rbind].
  destruct (Nat.ltb_spec 0 (length (Elems o))); [|lia].
  set (k := (length (Elems o) - 1)%nat) in *.
  set (c0 := mk (Bits a) (replicate k 0 ++ drop k (Elems a))).
  assert (wf c0) as Hc0.
  { split_and!; simpl; [done|rewrite length_app, length_replicate, length_drop; lia|].
    apply Forall_app. split; [apply Forall_replicate; unfold is_u64; lia|by apply Forall_drop]. }
  destruct (sub_tail_ok (Z.to_nat (Bits o - Z.of_nat k * 64)) c0 o (Z.of_nat k * 64) Hc0 Ho
    ltac:(lia) ltac:(simpl; lia) ltac:(lia)) as (c & -> & Hc & Hbc & Hbit). cbn [rbind].
  exists c. split_and!; [done..|]. intros i Hi. rewrite Hbit by done.
  unfold c0. rewrite bit_cleared by lia. change (bit (mk (Bits a) (Elems a)) i) with (bit a i).
  replace (Z.of_nat (length (Elems o)) - 1) with (Z.of_nat k) by lia.
  repeat case_decide; try done; lia.
Qed.

(** ** [IsFull], [IsEmpty] and [PickRandom] *)

Lemma words_split n : 0 < n ->
  n = 64 * (Z.of_nat (words n) - 1) + (Z.rem (n + 63) 64 + 1) /\
  1 <= Z.rem (n + 63) 64 + 1 <= 64 /\ (0 < words n)%nat.
Proof.
  intros. unfold words. rewrite Z.rem_mod_nonneg by lia.
  pose proof (Z.div_mod (n + 63) 64 ltac:(lia)). pose proof (Z.mod_pos_bound (n + 63) 64 ltac:(lia)).
  pose proof (Z.div_le_lower_bound (n + 63) 64 1 ltac:(lia) ltac:(lia)). lia.
Qed.

Lemma not64_zero e : is_u64 e -> (not64 e = 0 <-> forall k, 0 <= k < 64 -> Z.testbit e k = true).
Proof.
  intros He. split.
  - intros H k Hk. pose proof (not64_testbit e k Hk) as Hn. rewrite H, Z.bits_0 in Hn.
    by destruct (Z.testbit e k).
  - intros H. apply Z.bits_inj'. intros k Hk. rewrite Z.bits_0.
    destruct (Z.lt_ge_cases k 64).
    + by rewrite not64_testbit, H by lia.
    + apply u64_high; [apply not64_range|done].
Qed.

(** [(e+1) & (1<<m - 1) == 0] says that the low [m] bits of [e] are all ones. *)
Lemma low_ones e m : is_u64 e -> 1 <= m <= 64 ->
  Z.land (u64 (e + 1)) (u64 (shl1 m - 1)) = 0 <-> forall k, 0 <= k < m -> Z.testbit e k = true.
Proof.
  intros He Hm.
  assert (u64 (shl1 m - 1) = Z.ones m) as ->.
  { rewrite Z.ones_equiv. destruct (decide (m = 64)) as [->|]; [done|].
    rewrite shl1_eq by lia. rewrite u64_id; [lia|]. split.
    - pose proof (Z.pow_pos_nonneg 2 m). lia.
    - pose proof (Z.pow_lt_mono_r 2 m 64). lia. }
  rewrite Z.land_ones by lia.
  assert (u64 (e + 1) mod 2 ^ m = (e mod 2 ^ m + 1) mod 2 ^ m) as ->.
  { unfold u64. rewrite Z.add_mod_idemp_l by (apply Z.pow_nonzero; lia).
    apply Z.mod_mod_divide. exists (2 ^ (64 - m)). rewrite <- Z.pow_add_r by lia. f_equal. lia. }
  pose proof (Z.pow_pos_nonneg 2 m ltac:(lia) ltac:(lia)) as Hp.
  pose proof (Z.mod_pos_bound e (2 ^ m) Hp) as Hb.
  assert (e mod 2 ^ m = 2 ^ m - 1 <-> forall k, 0 <= k < m -> Z.testbit e k = true) as <-.
  { replace (2 ^ m - 1) with (Z.ones m) by (rewrite Z.ones_equiv; lia).
    rewrite <- Z.land_ones by lia. split.
    - intros H k Hk. assert (Z.testbit (Z.land e (Z.ones m)) k = true) as Ht.
      { rewrite H. apply Z.ones_spec_low. lia. }
      rewrite Z.land_spec in Ht. by apply andb_true_iff in Ht as [? _].
    - intros H. apply Z.bits_inj'. intros k Hk. rewrite Z.land_spec.
      destruct (Z.lt_ge_cases k m).
      + by rewrite H, Z.ones_spec_low by lia.
      + rewrite Z.ones_spec_high by lia. apply andb_false_r. }
  split.
  - intros H. destruct (decide (e mod 2 ^ m + 1 < 2 ^ m)); [|lia].
    rewrite Z.mod_small in H by lia. lia.
  - intros ->. replace (2 ^ m - 1 + 1) with (2 ^ m) by lia. apply Z.mod_same. lia.
Qed.

Lemma IsFull_iff a :
  wf a -> exists r, IsFull (Some a) = Ok r /\
    (r = true <-> forall i, 0 <= i < Bits a -> bit a i = true).
Proof.
  intros Hw. destruct (Hw) as (Hb & Hl & Hf). fold (words (Bits a)) in Hl.
  destruct (words_split (Bits a) Hb) as (Hn & Hm & Hpos). unfold IsFull.
  destruct (last (Elems a)) as [e|] eqn:El.
  2:{ apply last_None in El. rewrite El in Hl. simpl in Hl. lia. }
  rewrite last_lookup in El.
  assert (is_u64 e) as He by (eapply Forall_lookup_1 in Hf; eauto).
  assert (forall i, 0 <= i < Bits a -> 64 * (Z.of_nat (words (Bits a)) - 1) <= i ->
    bit a i = Z.testbit e (i - 64 * (Z.of_nat (words (Bits a)) - 1))) as Hlast.
  { intros i Hi Hge. unfold bit.
    assert (i / 64 = Z.of_nat (words (Bits a)) - 1) as Hd.
    { symmetry. apply (Z.div_unique i 64 _ (i - 64 * (Z.of_nat (words (Bits a)) - 1))); lia. }
    rewrite Hd. replace (Z.to_nat (Z.of_nat (words (Bits a)) - 1))
      with (Init.Nat.pred (length (Elems a))) by lia.
    rewrite El. simpl. f_equal. rewrite Z.mod_eq, Hd by lia. done. }
  case_eq (forallb (fun e0 => not64 e0 =? 0) (take (length (Elems a) - 1) (Elems a))).
  - intros Hall. rewrite forallb_forall in Hall. eexists. split; [reflexivity|].
    rewrite Z.eqb_eq, low_ones by done. split.
    + intros Hlow i Hi. destruct (Z.lt_ge_cases i (64 * (Z.of_nat (words (Bits a)) - 1))) as [Hlt|Hge].
      * destruct (wf_word a i Hw Hi) as (x & Hx & Hux). unfold bit. rewrite Hx. simpl.
        assert (not64 x = 0) as Hx0.
        { apply Z.eqb_eq, Hall, list_elem_of_In, list_elem_of_lookup.
          exists (Z.to_nat (i / 64)). rewrite lookup_take_lt; [done|].
          pose proof (Z.div_lt_upper_bound i 64 (Z.of_nat (words (Bits a)) - 1) ltac:(lia) Hlt).
          pose proof (Z.div_pos i 64). lia. }
        apply (not64_zero x Hux); [done|]. apply Z.mod_pos_bound. lia.
      * rewrite Hlast by lia. apply Hlow. lia.
    + intros Hb' k Hk. specialize (Hlast (k + 64 * (Z.of_nat (words (Bits a)) - 1)) ltac:(lia) ltac:(lia)).
      rewrite Hb' in Hlast by lia. rewrite Hlast. f_equal. lia.
  - intros Hall. eexists. split; [reflexivity|]. split; [done|]. intros Hb'. exfalso.
    apply not_true_iff_false in Hall. apply Hall, forallb_forall.
    intros x (j & Hj)%list_elem_of_In%list_elem_of_lookup.
    pose proof (lookup_lt_Some _ _ _ Hj) as Hjl. rewrite length_take in Hjl.
    rewrite lookup_take_lt in Hj by lia. assert (is_u64 x) by (eapply Forall_lookup_1 in Hf; eauto).
    apply Z.eqb_eq, not64_zero; [done|]. intros k Hk.
    specialize (Hb' (64 * Z.of_nat j + k) ltac:(lia)). unfold bit in Hb'.
    rewrite (Z.mul_comm 64), Z.div_add_l, Z.div_small, Z.add_0_r, Nat2Z.id in Hb' by lia.
    rewrite Z.add_comm, Z_mod_plus_full, Z.mod_small, Hj in Hb' by lia. done.
Qed.

Lemma pick_bit_spec e n start :
  is_u64 e -> 0 < n <= 64 -> 0 <= start ->
  match pick_bit e n start with
  | Some k => 0 <= k < n /\ Z.testbit e k = true
  | None => forall k, 0 <= k < n -> Z.testbit e k = false
  end.
Proof.
  intros He Hn Hs. unfold pick_bit.
  assert (forall j, 0 <= Z.rem (Z.of_nat j + start) n < n) as Hr.
  { intros j. apply Z.rem_bound_pos; lia. }
  destruct (list_find _ _) as [[i k]|] eqn:E; simpl.
  - apply list_find_Some in E as (Hi & Hk & _).
    apply list_lookup_fmap_Some in Hi as (j & -> & _). split; [apply Hr|].
    apply Z.ltb_lt in Hk. rewrite land_shl1 in Hk; [done..|]. pose proof (Hr j). lia.
  - apply list_find_None in E. rewrite Forall_forall in E. intros k Hk.
    destruct (Z.testbit e k) eqn:Et; [|done]. exfalso. apply (E k).
    + apply list_elem_of_fmap. exists (Z.to_nat ((k - start) mod n)).
      pose proof (Z.mod_pos_bound (k - start) n ltac:(lia)).
      split; [|apply elem_of_seq; lia].
      rewrite Z2Nat.id by lia. rewrite Z.rem_mod_nonneg by lia.
      rewrite Z.add_mod_idemp_l by lia. rewrite Z.sub_add. symmetry. apply Z.mod_small. lia.
    + apply Z.ltb_lt. rewrite land_shl1; [done..|lia].
Qed.

Lemma last_bits n : 0 < n ->
  (if Z.rem n 64 =? 0 then 64 else Z.rem n 64) = Z.rem (n + 63) 64 + 1.
Proof.
  intros. rewrite !Z.rem_mod_nonneg by lia.
  pose proof (Z.div_mod n 64 ltac:(lia)). pose proof (Z.mod_pos_bound n 64 ltac:(lia)).
  destruct (Z.eqb_spec (n mod 64) 0).
  - rewrite <- (Z.mod_unique (n + 63) 64 (n / 64) 63); lia.
  - rewrite <- (Z.mod_unique (n + 63) 64 (n / 64 + 1) (n mod 64 - 1)); lia.
Qed.

(** One word of the search: either a set bit of that word in range, or no bit
    of the word in range is set; the panic is not reached. *)
Lemma pick_elem_spec b i r :
  wf b -> 0 <= i < Z.of_nat (length (Elems b)) -> 0 <= r ->
  exists o, pick_elem b i r = Ok o /\
  match o with
  | Some k => 0 <= k < Bits b /\ bit b k = true
  | None => forall k, 0 <= k < Bits b -> k / 64 = i -> bit b k = false
  end.
Proof.
  intros (Hb & Hl & Hf) Hi Hr. fold (words (Bits b)) in Hl.
  destruct (words_split (Bits b) Hb) as (Hn & Hm & Hpos).
  destruct (lookup_lt_is_Some_2 (Elems b) (Z.to_nat i) ltac:(lia)) as [e He].
  assert (is_u64 e) as Hu by (eapply Forall_lookup_1 in Hf; eauto).
  assert (forall k, 0 <= k < 64 -> bit b (64 * i + k) = Z.testbit e k) as Hbit.
  { intros k Hk. unfold bit. rewrite (Z.mul_comm 64), Z.div_add_l, Z.div_small, Z.add_0_r by lia.
    rewrite (Z.add_comm (i * 64)), Z_mod_plus_full, Z.mod_small, He by lia. done. }
  assert (forall k, k / 64 = i -> k = 64 * i + k mod 64 /\ 0 <= k mod 64 < 64) as Hk.
  { intros k <-. split; [apply Z.div_mod; lia|apply Z.mod_pos_bound; lia]. }
  unfold pick_elem, go_index. destruct (Z.ltb_spec i 0); [lia|]. rewrite He. cbn [rbind deref].
  destruct (Z.ltb_spec i (Z.of_nat (length (Elems b)) - 1)).
  - destruct (Z.ltb_spec 0 e).
    + pose proof (pick_bit_spec e 64 r Hu ltac:(lia) Hr) as Hp.
      destruct (pick_bit e 64 r) as [k|].
      * eexists. split; [done|]. destruct Hp as [? ?]. rewrite Hbit by lia. split; [lia|done].
      * exfalso. assert (e = 0); [|lia]. apply Z.bits_inj'. intros k ?. rewrite Z.bits_0.
        destruct (Z.lt_ge_cases k 64); [apply Hp; lia|by apply u64_high].
    + eexists. split; [done|]. intros k Hkb Hki. destruct (Hk k Hki) as [Hke Hkr].
      rewrite Hke, Hbit by exact Hkr. assert (e = 0) as -> by (destruct Hu; lia). apply Z.bits_0.
  - rewrite last_bits by done.
    pose proof (pick_bit_spec e _ r Hu (conj (Z.lt_le_trans 0 1 _ ltac:(lia) (proj1 Hm)) (proj2 Hm)) Hr) as Hp.
    destruct (pick_bit e _ r) as [k|]; (eexists; split; [done|]).
    + destruct Hp as [? ?]. rewrite Hbit by lia. split; [lia|done].
    + intros k Hkb Hki. destruct (Hk k Hki) as [Hke Hkr].
      rewrite Hke, Hbit by exact Hkr. apply Hp. lia.
Qed.

Lemma pick_loop_spec b start rb todo i :
  wf b -> 0 <= start -> (forall n, 0 <= rb n) ->
  exists o, pick_loop b start rb todo i = Ok o /\
  match o with
  | Some k => 0 <= k < Bits b /\ bit b k = true
  | None => forall j k, (i <= j < i + todo)%nat -> 0 <= k < Bits b ->
      k / 64 = Z.rem (Z.of_nat j + start) (Z.of_nat (length (Elems b))) -> bit b k = false
  end.
Proof.
  intros Hw Hs Hrb. revert i. induction todo as [|todo IH]; intros i; cbn [pick_loop].
  { eexists. split; [done|]. intros j k ?. lia. }
  assert (0 < length (Elems b))%nat as Hlen.
  { destruct Hw as (Hb & -> & _). by destruct (words_split (Bits b) Hb) as (_ & _ & ?). }
  destruct (pick_elem_spec b (Z.rem (Z.of_nat i + start) (Z.of_nat (length (Elems b)))) (rb i) Hw)
    as ([k|] & -> & Hk); [apply Z.rem_bound_pos; lia|done|..]; cbn [rbind].
  { eexists. split; [done|]. done. }
  destruct (IH (S i)) as (o & -> & Ho). exists o. split; [done|].
  destruct o as [k|]; [done|]. intros j k Hj Hkb Hki.
  destruct (decide (j = i)) as [->|]; [by apply Hk|]. apply (Ho j k); [lia|done..].
Qed.

Lemma PickRandom_spec b start rb :
  wf b -> 0 <= start -> (forall n, 0 <= rb n) ->
  exists o, PickRandom (Some b) start rb = Ok o /\
  match o with
  | Some k => 0 <= k < Bits b /\ bit b k = true
  | None => forall k, 0 <= k < Bits b -> bit b k = false
  end.
Proof.
  intros Hw Hs Hrb. destruct (Hw) as (Hb & Hl & _). fold (words (Bits b)) in Hl.
  destruct (words_split (Bits b) Hb) as (_ & _ & Hpos).
  destruct (pick_loop_spec b start rb (length (Elems b)) 0 Hw Hs Hrb) as (o & Ho & Hspec).
  exists o. split.
  { unfold PickRandom. destruct (Elems b) eqn:E; [simpl in Hl; lia|done]. }
  destruct o as [k|]; [done|]. intros k Hk.
  set (L := Z.of_nat (length (Elems b))) in *.
  pose proof (idx_lt (Bits b) k Hk) as Hlt. pose proof (Z.div_pos k 64 ltac:(lia) ltac:(lia)).
  pose proof (Z.mod_pos_bound (k / 64 - start) L ltac:(lia)).
  apply (Hspec (Z.to_nat ((k / 64 - start) mod L)) k); [lia|done|].
  rewrite Z2Nat.id, Z.rem_mod_nonneg by lia. rewrite Z.add_mod_idemp_l by lia.
  rewrite Z.sub_add, Z.mod_small by lia. done.
Qed.

(** ** [Bytes] *)

Lemma le_bytes_length n x : length (le_bytes n x) = n.
Proof. revert x. induction n; intros; simpl; [done|by f_equal]. Qed.

Lemma le_bytes_testbit n x k j :
  (k < n)%nat -> 0 <= j < 8 ->
  Z.testbit (default 0 (le_bytes n x !! k)) j = Z.testbit x (8 * Z.of_nat k + j).
Proof.
  revert x k. induction n as [|n IH]; intros x k Hk Hj; [lia|]. destruct k as [|k]; simpl.
  - change 256 with (2 ^ 8). rewrite Z.mod_pow2_bits_low by lia. f_equal.
  - rewrite IH by lia. change 256 with (2 ^ 8). rewrite <- Z.shiftr_div_pow2 by lia.
    rewrite Z.shiftr_spec by lia. f_equal. lia.
Qed.

Lemma concat_words_lookup ws k :
  (k < 8 * length ws)%nat ->
  concat (map (le_bytes 8) ws) !! k = le_bytes 8 (default 0 (ws !! (k / 8)%nat)) !! (k mod 8)%nat.
Proof.
  revert k. induction ws as [|w ws IH]; intros k Hk; [simpl in Hk; lia|]. cbn [map concat].
  destruct (decide (k < 8)%nat).
  - rewrite lookup_app_l by (by rewrite le_bytes_length).
    by rewrite Nat.div_small, Nat.mod_small by lia.
  - rewrite lookup_app_r by (rewrite le_bytes_length; lia). rewrite le_bytes_length.
    rewrite IH by (simpl in Hk; lia).
    replace k with ((k - 8) + 1 * 8)%nat at 3 4 by lia.
    rewrite Nat.div_add, Nat.Div0.mod_add by lia. by rewrite Nat.add_1_r.
Qed.

(** Bit [i] of the array is bit [i mod 8] of byte [i / 8]. *)
Lemma Bytes_spec b :
  wf b -> exists bs, Bytes b = Ok bs /\ Z.of_nat (length bs) = (Bits b + 7) / 8 /\
    forall i, 0 <= i < Bits b ->
      Z.testbit (default 0 (bs !! Z.to_nat (i / 8))) (i mod 8) = bit b i.
Proof.
  intros (Hb & Hl & Hf). fold (words (Bits b)) in Hl.
  destruct (words_split (Bits b) Hb) as (Hn & Hm & Hpos).
  unfold Bytes. rewrite Z.quot_div_nonneg by lia.
  pose proof (Z.div_mod (Bits b + 7) 8 ltac:(lia)) as Hd.
  pose proof (Z.mod_pos_bound (Bits b + 7) 8 ltac:(lia)) as Hdm.
  set (N := (Bits b + 7) / 8) in *.
  destruct (Z.ltb_spec N 0); [lia|].
  destruct (Z.ltb_spec N (8 * (Z.of_nat (length (Elems b)) - 1))); [lia|]. cbn [orb].
  eexists. split; [done|]. split.
  { rewrite length_take, length_app, length_replicate. lia. }
  intros i Hi. pose proof (Z.div_mod i 8 ltac:(lia)). pose proof (Z.mod_pos_bound i 8 ltac:(lia)).
  pose proof (Z.div_mod i 64 ltac:(lia)). pose proof (Z.mod_pos_bound i 64 ltac:(lia)).
  pose proof (Z.div_pos i 8 ltac:(lia) ltac:(lia)). pose proof (Z.div_pos i 64 ltac:(lia) ltac:(lia)).
  assert (length (concat (map (le_bytes 8) (Elems b))) = 8 * length (Elems b))%nat as Hcl.
  { clear. induction (Elems b) as [|w ws IH]; [done|].
    cbn [map concat]. rewrite length_app, le_bytes_length, IH. cbn [length]. lia. }
  rewrite lookup_take_lt by lia. rewrite lookup_app_l by lia.
  rewrite concat_words_lookup by lia.
  assert (Z.to_nat (i / 8) / 8 = Z.to_nat (i / 64))%nat as ->.
  { symmetry. apply (Nat.div_unique _ 8 _ (Z.to_nat (i / 8 - 8 * (i / 64)))); lia. }
  rewrite le_bytes_testbit; [|apply Nat.mod_upper_bound; lia|lia].
  unfold bit. f_equal. rewrite Nat2Z.inj_mod, Z2Nat.id by lia.
  change (Z.of_nat 8) with 8. rewrite (Z.mod_eq (i / 8)), Z.div_div by lia.
  change (8 * 8) with 64. lia.
Qed.

(** On arrays of one size the operations of [BitArray] are those of the
    sets of their indices: setting, union, intersection, complement and
    difference bit by bit, [IsFull] and [PickRandom] (whatever the random
    numbers) tell exactly which bits are set. *)
Theorem bit_array_refines_set a o i v start rb :
  wf a -> wf o -> Bits a = Bits o -> 0 <= i < Bits a -> 0 <= start -> (forall n, 0 <= rb n) ->
  (exists c, SetIndex (Some a) i v = Ok (Some c, true) /\ wf c /\
     forall j, 0 <= j < Bits a -> bit c j = if decide (i = j) then v else bit a j) /\
  (exists c, Or (Some a) (Some o) = Ok (Some c) /\ wf c /\ forall j, 0 <= j < Bits a -> bit c j = bit a j || bit o j) /\
  (exists c, And (Some a) (Some o) = Ok (Some c) /\ wf c /\ forall j, 0 <= j < Bits a -> bit c j = bit a j && bit o j) /\
  (exists c, Not (Some a) = Some c /\ wf c /\ forall j, 0 <= j < Bits a -> bit c j = negb (bit a j)) /\
  (exists c, Sub (Some a) (Some o) = Ok (Some c) /\ wf c /\
     forall j, 0 <= j < Bits a -> bit c j = bit a j && negb (bit o j)) /\
  (exists r, IsFull (Some a) = Ok r /\ (r = true <-> forall j, 0 <= j < Bits a -> bit a j = true)) /\
  (exists p, PickRandom (Some a) start rb = Ok p /\
     match p with
     | Some k => 0 <= k < Bits a /\ bit a k = true
     | None => forall k, 0 <= k < Bits a -> bit a k = false
     end).
Proof.
  intros Ha Ho Hb Hi Hs Hrb. split_and!.
  - destruct (setIndex_ok a i v Ha Hi) as (c & E & Hw & _ & Hc). exists c. unfold SetIndex. by rewrite E.
  - destruct (Or_ok a o Ha Ho) as (c & E & Hw & _ & Hc); [lia|]. eauto.
  - destruct (and_ok a o Ha Ho) as (c & E & Hw & Hbc & Hc). exists c. split_and!; [done..|].
    intros j Hj. apply Hc. lia.
  - destruct (Not_ok a Ha) as (c & E & Hw & _ & Hc). eauto.
  - destruct (Sub_le a o Ha Ho) as (c & E & Hw & _ & Hc); [lia|]. eauto.
  - by apply IsFull_iff.
  - by apply PickRandom_spec.
Qed.

(** [Sub] of a shorter array clears bits it must keep.  When the other array
    is shorter but has more than one word, every bit of the first words is
    cleared, whether or not it is set in the other array. *)
Theorem Sub_longer_clears a o :
  wf a -> wf o -> Bits o < Bits a -> 64 < Bits o ->
  exists c, Sub (Some a) (Some o) = Ok (Some c) /\ forall i, 0 <= i < 64 -> bit c i = false.
Proof.
  intros Ha Ho Hlt Hlong. destruct (Sub_gt a o Ha Ho Hlt) as (c & E & _ & _ & Hc). exists c. split; [done|].
  intros i Hi. rewrite Hc by lia. destruct Ho as (_ & Hl & _).
  assert (2 <= (Bits o + 63) / 64) by (apply Z.div_le_lower_bound; lia).
  rewrite decide_True; [done|lia].
Qed.

Definition ones (n : Z) : t := mk n [2 ^ 64 - 1; 2 ^ 64 - 1].
Definition zeros (n : Z) : t := mk n [0; 0].

Lemma Sub_longer_clears_witness :
  bit (ones 100) 5 = true /\ bit (zeros 90) 5 = false /\
  exists c, Sub (Some (ones 100)) (Some (zeros 90)) = Ok (Some c) /\ bit c 5 = false.
Proof.
  split_and!; [vm_compute; reflexivity..|].
  destruct (Sub_longer_clears (ones 100) (zeros 90)) as (c & E & Hc).
  - split_and!; [reflexivity|reflexivity|repeat constructor; done].
  - split_and!; [reflexivity|reflexivity|repeat constructor; done].
  - reflexivity.
  - reflexivity.
  - exists c. split; [exact E|]. apply Hc. lia.
Defined.

Lemma bit_array_refines_set_witness :
  exists c, SetIndex (Some (zeros 100)) 70 true = Ok (Some c, true) /\ wf c /\
    forall j, 0 <= j < 100 -> bit c j = if decide (70 = j) then true else bit (zeros 100) j.
Proof.
  assert (wf (zeros 100)) as Hw by (split_and!; [reflexivity|reflexivity|repeat constructor; done]).
  refine (proj1 (bit_array_refines_set (zeros 100) (zeros 100) 70 true 0 (fun _ => 0) Hw Hw eq_refl _ _ _)).
  - simpl. lia.
  - lia.
  - intros n. lia.
Defined.

End BitArray.
