(* ===== verification/GoHeap.v ===== *)
(** * gemmill/modules/go-common/heap.go over Go's container/heap

    [container/heap] is modelled as the standard library writes it: [up],
    [down], [Push], [Pop], [Fix] and [Remove] on a slice, with the element
    order and the [Swap] of the client as parameters.  [priorityQueue] is the
    client of [heap.go]; its [Swap] also maintains the [index] field. *)
From S2P Require Import Prelude.

(** The order of a heap's client ([Comparable] in heap.go): a strict weak
    order, so that "not above" is transitive. *)
Class Comparable (K : Type) := Less : K -> K -> bool.

Class ComparableLaws (K : Type) `{Comparable K} : Prop := {
  less_asym : forall a b : K, Less a b = true -> Less b a = false;
  less_negtrans : forall a b c : K, Less b a = false -> Less c b = false -> Less c a = false
}.

Module GoHeap.
Section Container.
Context {A K : Type} `{Comparable K} (key : A -> K) (setidx : nat -> A -> A).

Definition lessAt (l : list A) (i j : nat) : bool :=
  match l !! i, l !! j with
  | Some x, Some y => Less (key x) (key y)
  | _, _ => false
  end.

(** The client's [Swap]; the heap only calls it with indices in range. *)
Definition swap (l : list A) (i j : nat) : list A :=
  match l !! i, l !! j with
  | Some x, Some y => <[j := setidx j x]> (<[i := setidx i y]> l)
  | _, _ => l
  end.

Fixpoint up_loop (fuel : nat) (l : list A) (j : nat) : list A :=
  match fuel with
  | O => l
  | S fuel' =>
      let i := ((j - 1) / 2)%nat in
      if (i =? j)%nat || negb (lessAt l j i) then l
      else up_loop fuel' (swap l i j) i
  end.

Definition up (l : list A) (j : nat) : list A := up_loop (S j) l j.

(** Returns the slice and the final position; [down] answers [i > i0]. *)
Fixpoint down_loop (fuel : nat) (l : list A) (i n : nat) : list A * nat :=
  match fuel with
  | O => (l, i)
  | S fuel' =>
      let j1 := (2 * i + 1)%nat in
      if (n <=? j1)%nat then (l, i)
      else
        let j2 := (j1 + 1)%nat in
        let j := if (j2 <? n)%nat && lessAt l j2 j1 then j2 else j1 in
        if negb (lessAt l j i) then (l, i)
        else down_loop fuel' (swap l i j) j n
  end.

Definition down (l : list A) (i0 n : nat) : list A * bool :=
  let '(l', i) := down_loop (S n) l i0 n in (l', (i0 <? i)%nat).

Definition Fix (l : list A) (i : nat) : list A :=
  let '(l', moved) := down l i (length l) in
  if moved then l' else up l' i.

Definition Push (l : list A) (x : A) : list A := up (l ++ [x]) (length l).

(** [Pop]: swap the root with the last element, sift down the prefix, then
    take the last element off. *)
Definition Pop (l : list A) : res (A * list A) :=
  let n := (length l - 1)%nat in
  let l1 := fst (down (swap l 0 n) 0 n) in
  let! x := deref (l1 !! n) in Ok (x, take n l1).

Definition Remove (l : list A) (i : nat) : res (A * list A) :=
  let n := (length l - 1)%nat in
  let l1 :=
    if (n =? i)%nat then l
    else
      let l0 := swap l i n in
      let '(l', moved) := down l0 i n in
      if moved then l' else up l' i in
  let! x := deref (l1 !! n) in Ok (x, take n l1).

(** ** Heap order on a prefix *)

Context `{!ComparableLaws K}.
Context (Hset : forall i x, key (setidx i x) = key x).

Definition kat (l : list A) (i : nat) : option K := key <$> l !! i.
Definition par (k : nat) : nat := ((k - 1) / 2)%nat.

(** [above l i j]: the element at [j] is not less than the one at [i]. *)
Definition above (l : list A) (i j : nat) : Prop :=
  match kat l i, kat l j with
  | Some a, Some b => Less b a = false
  | _, _ => True
  end.

Definition heap_upto (n : nat) (l : list A) : Prop :=
  forall k, (0 < k < n)%nat -> above l (par k) k.

Lemma lessAt_false l i j : lessAt l j i = false -> above l i j.
Proof. unfold lessAt, above, kat. destruct (l !! i), (l !! j); simpl; auto. Qed.

Lemma lessAt_true l i j : lessAt l j i = true -> above l j i.
Proof.
  unfold lessAt, above, kat. destruct (l !! i), (l !! j); simpl; auto. apply less_asym.
Qed.

Lemma above_trans l i j k : (j < length l)%nat -> above l i j -> above l j k -> above l i k.
Proof.
  unfold above, kat. intros Hj. destruct (lookup_lt_is_Some_2 l j Hj) as [y ->].
  destruct (l !! i), (l !! k); simpl; auto. apply less_negtrans.
Qed.

Lemma swap_length l i j : length (swap l i j) = length l.
Proof. unfold swap. destruct (l !! i), (l !! j); rewrite ?length_insert; done. Qed.

Lemma kat_swap l i j k :
  (i < length l)%nat -> (j < length l)%nat ->
  kat (swap l i j) k = if decide (k = j) then kat l i
                       else if decide (k = i) then kat l j else kat l k.
Proof.
  intros Hi Hj. unfold swap, kat.
  destruct (lookup_lt_is_Some_2 l i Hi) as [x Hx], (lookup_lt_is_Some_2 l j Hj) as [y Hy].
  rewrite Hx, Hy. destruct (decide (k = j)) as [->|].
  - rewrite list_lookup_insert_eq by (by rewrite length_insert). simpl. by rewrite Hset.
  - rewrite list_lookup_insert_ne by done. destruct (decide (k = i)) as [->|].
    + rewrite list_lookup_insert_eq by done. simpl. by rewrite Hset.
    + by rewrite list_lookup_insert_ne by done.
Qed.

Lemma above_swap l i j a b :
  (i < length l)%nat -> (j < length l)%nat ->
  let s k := if decide (k = j) then i else if decide (k = i) then j else k in
  above (swap l i j) a b <-> above l (s a) (s b).
Proof.
  intros Hi Hj s. unfold above. rewrite !kat_swap by done. unfold s.
  by repeat case_decide.
Qed.

Lemma swap_perm l i j : map key (swap l i j) ≡ₚ map key l.
Proof.
  unfold swap. destruct (l !! i) as [x|] eqn:Hx; [|done].
  destruct (l !! j) as [y|] eqn:Hy; [|done].
  change (@map A K) with (@fmap list list_fmap A K).
  rewrite !list_fmap_insert, !Hset.
  apply Permutation_insert_swap; by rewrite list_lookup_fmap, ?Hx, ?Hy.
Qed.

Lemma up_loop_length fuel l j : length (up_loop fuel l j) = length l.
Proof.
  revert l j. induction fuel as [|fuel IH]; intros l j; cbn [up_loop]; cbv zeta; [done|].
  case_match; [done|]. by rewrite IH, swap_length.
Qed.

Lemma up_loop_perm fuel l j : map key (up_loop fuel l j) ≡ₚ map key l.
Proof.
  revert l j. induction fuel as [|fuel IH]; intros l j; cbn [up_loop]; cbv zeta; [done|].
  case_match; [done|]. by rewrite IH, swap_perm.
Qed.

Lemma down_loop_length fuel l i n : length (down_loop fuel l i n).1 = length l.
Proof.
  revert l i. induction fuel as [|fuel IH]; intros l i; cbn [down_loop]; cbv zeta; [done|].
  repeat (case_match; try done); by rewrite IH, swap_length.
Qed.

Lemma down_loop_perm fuel l i n : map key (down_loop fuel l i n).1 ≡ₚ map key l.
Proof.
  revert l i. induction fuel as [|fuel IH]; intros l i; cbn [down_loop]; cbv zeta; [done|].
  repeat (case_match; try done); by rewrite IH, swap_perm.
Qed.

(** Sifting down touches only positions below [n]. *)
Lemma down_loop_frame fuel l i n k :
  (n <= length l)%nat -> (i < n)%nat -> (n <= k)%nat ->
  kat (down_loop fuel l i n).1 k = kat l k.
Proof.
  revert l i. induction fuel as [|fuel IH]; intros l i Hn Hi Hk; cbn [down_loop]; cbv zeta; [done|].
  destruct (Nat.leb_spec n (2 * i + 1)); [done|].
  set (j := if _ && _ then _ else _).
  assert (j = (2 * i + 1) \/ (j = 2 * i + 2 /\ 2 * i + 2 < n))%nat as Hj.
  { unfold j. destruct (Nat.ltb_spec (2 * i + 1 + 1) n); simpl; [|lia]. case_match; lia. }
  case_match; [done|]. rewrite IH, kat_swap by (rewrite ?swap_length; lia).
  repeat case_decide; done || lia.
Qed.

Lemma child_cases i k : (0 < k)%nat -> par k = i <-> (k = 2 * i + 1 \/ k = 2 * i + 2)%nat.
Proof.
  intros Hk. unfold par. pose proof (Nat.div_mod (k - 1) 2 ltac:(lia)).
  pose proof (Nat.mod_upper_bound (k - 1) 2 ltac:(lia)). lia.
Qed.

Lemma par_lt k : (0 < k)%nat -> (par k < k)%nat.
Proof. intros Hk. pose proof (proj1 (child_cases (par k) k Hk) eq_refl). lia. Qed.

Lemma up_loop_heap fuel l j n :
  (j < fuel)%nat -> (j < n <= length l)%nat ->
  (forall k, (0 < k < n)%nat -> k <> j -> above l (par k) k) ->
  (forall k, (0 < k < n)%nat -> par k = j -> (0 < j)%nat -> above l (par j) k) ->
  heap_upto n (up_loop fuel l j).
Proof.
  revert l j. induction fuel as [|fuel IH]; intros l j Hf Hn H1 H2; [lia|].
  cbn [up_loop]; cbv zeta. fold (par j).
  destruct (Nat.eqb_spec (par j) j) as [Hpj|Hpj]; simpl.
  { assert (j = 0)%nat as -> by (pose proof (par_lt j); lia).
    intros k Hk. apply H1; lia. }
  assert (0 < j)%nat as Hj0 by (destruct j; [done|lia]).
  pose proof (par_lt j Hj0) as Hlt.
  destruct (lessAt l j (par j)) eqn:Eless; simpl.
  2:{ intros k Hk. destruct (decide (k = j)) as [->|]; [by apply lessAt_false|auto]. }
  apply lessAt_true in Eless as Hab.
  apply IH; [lia|rewrite swap_length; lia|..].
  - intros k Hk Hkp. apply above_swap; [lia..|]. cbv zeta.
    pose proof (par_lt k).
    destruct (decide (k = j)) as [->|Hkj].
    { rewrite decide_False by lia. rewrite decide_True by done. done. }
    rewrite (decide_False (P := k = par j)) by done.
    destruct (decide (par k = j)) as [Hpk|]; [by apply H2|].
    destruct (decide (par k = par j)) as [Hpk|]; [|apply H1; lia].
    apply (above_trans l j (par j) k); [lia|done|]. rewrite <- Hpk. apply H1; lia.
  - intros k Hk Hpk Hp0. apply above_swap; [lia..|]. cbv zeta.
    pose proof (par_lt (par j) Hp0).
    rewrite (decide_False (P := par (par j) = j)) by lia.
    rewrite (decide_False (P := par (par j) = par j)) by lia.
    destruct (decide (k = j)) as [->|Hkj]; [apply H1; lia|].
    rewrite decide_False.
    2:{ intros ->. lia. }
    apply (above_trans l _ (par j)); [lia|apply H1; lia|]. rewrite <- Hpk. apply H1; lia.
Qed.

Lemma down_loop_mono fuel l i n : (i <= (down_loop fuel l i n).2)%nat.
Proof.
  revert l i. induction fuel as [|fuel IH]; intros l i; cbn [down_loop]; cbv zeta; [done|].
  repeat (case_match; try done); simplify_eq;
    (etransitivity; [|apply IH]); repeat case_match; lia.
Qed.

Lemma down_loop_heap fuel l i n :
  (n <= fuel + i)%nat -> (n <= length l)%nat -> (i < n)%nat ->
  (forall k, (0 < k < n)%nat -> par k <> i -> k <> i -> above l (par k) k) ->
  (forall k, (0 < k < n)%nat -> par k = i -> (0 < i)%nat -> above l (par i) k) ->
  let r := down_loop fuel l i n in
  (forall k, (0 < k < n)%nat -> k <> i -> above r.1 (par k) k) /\
  (r.2 <> i -> (0 < i)%nat -> above r.1 (par i) i) /\
  (r.2 = i -> r.1 = l).
Proof.
  revert l i. induction fuel as [|fuel IH]; intros l i Hf Hn Hi H1 H2; [lia|].
  cbn [down_loop]; cbv zeta. pose proof (child_cases i) as Hch.
  destruct (Nat.leb_spec n (2 * i + 1)).
  { split_and!; simpl; [|done..]. intros k Hk Hki. apply H1; [done| |done]. rewrite Hch; lia. }
  set (j := if _ && _ then _ else _).
  assert (j < n /\ par j = i /\ i < j /\
    (forall k, (0 < k < n)%nat -> par k = i -> k <> j -> above l j k))%nat as (Hjn & Hpj & Hij & Hsib).
  { unfold j. destruct (Nat.ltb_spec (2 * i + 1 + 1) n); cbn [andb].
    - destruct (lessAt l (2 * i + 1 + 1) (2 * i + 1)) eqn:E;
        (split_and!; [lia|apply Hch; lia|lia|intros k Hk Hp Hkj; apply Hch in Hp; [|lia]]).
      + replace k with (2 * i + 1)%nat by lia. by apply lessAt_true.
      + replace k with (2 * i + 1 + 1)%nat by lia. by apply lessAt_false.
    - split_and!; [lia|apply Hch; lia|lia|]. intros k Hk Hp Hkj. apply Hch in Hp; lia. }
  clearbody j.
  destruct (lessAt l j i) eqn:E; simpl.
  2:{ apply lessAt_false in E. split_and!; [|done..]. intros k Hk Hki.
      destruct (decide (par k = i)) as [Hp|Hp]; [|by apply H1].
      rewrite Hp. destruct (decide (k = j)) as [->|]; [done|].
      apply (above_trans l i j k); [lia|done|by apply Hsib]. }
  apply lessAt_true in E.
  assert (forall a b, above (swap l i j) a b <->
    above l (if decide (a = j) then i else if decide (a = i) then j else a)
            (if decide (b = j) then i else if decide (b = i) then j else b)) as Hsw.
  { intros. apply above_swap; lia. }
  pose proof par_lt as Hpar.
  destruct (IH (swap l i j) j) as (C1 & C2 & C3); [lia|rewrite swap_length; lia|lia|..].
  - intros k Hk Hp Hkj. rewrite Hsw. rewrite (decide_False (P := par k = j)), (decide_False (P := k = j)) by done.
    destruct (decide (par k = i)) as [Hpi|Hpi].
    + rewrite decide_False by (pose proof (Hpar k); lia). by apply Hsib.
    + destruct (decide (k = i)) as [->|Hki]; [|by apply H1].
      apply H2; lia.
  - intros k Hk Hp Hj0. rewrite Hsw, Hpj. pose proof (Hpar k ltac:(lia)).
    rewrite (decide_False (P := i = j)), (decide_True (P := i = i)) by (done || lia).
    rewrite !decide_False by lia. rewrite <- Hp. apply H1; lia.
  - pose proof (down_loop_mono fuel (swap l i j) j n).
    split_and!; [|intros _ Hi0; apply C1; lia|lia].
    intros k Hk Hki. destruct (decide (k = j)) as [->|Hkj]; [|by apply C1].
    destruct (decide ((down_loop fuel (swap l i j) j n).2 = j)) as [He|He].
    + rewrite (C3 He), Hsw, Hpj. rewrite (decide_False (P := i = j)) by lia.
      rewrite !decide_True by done. done.
    + apply C2; lia.
Qed.

(** ** The exported operations *)

Lemma Push_length l x : length (Push l x) = S (length l).
Proof. unfold Push, up. rewrite up_loop_length, length_app. simpl. lia. Qed.

Lemma Push_perm l x : map key (Push l x) ≡ₚ key x :: map key l.
Proof.
  unfold Push, up. rewrite up_loop_perm. rewrite map_app. simpl.
  by rewrite Permutation_app_comm.
Qed.

Lemma above_app l k i j : (i < length l)%nat -> (j < length l)%nat ->
  above (l ++ k) i j <-> above l i j.
Proof. intros. unfold above, kat. by rewrite !lookup_app_l by done. Qed.

Lemma Push_heap l x : heap_upto (length l) l -> heap_upto (length (Push l x)) (Push l x).
Proof.
  intros Hh. rewrite Push_length. unfold Push, up.
  pose proof par_lt as Hpar.
  apply up_loop_heap; [lia|rewrite length_app; simpl; lia|..].
  - intros k Hk Hkl. pose proof (Hpar k). apply above_app; [lia..|]. apply Hh. lia.
  - intros k Hk Hp. pose proof (Hpar k). lia.
Qed.

Lemma Fix_length l i : length (Fix l i) = length l.
Proof.
  unfold Fix, down, up. pose proof (down_loop_length (S (length l)) l i (length l)) as Hd.
  destruct (down_loop _ _ _ _) as [l' i']. simpl in Hd. case_match; by rewrite ?up_loop_length.
Qed.

Lemma Fix_perm l i : map key (Fix l i) ≡ₚ map key l.
Proof.
  unfold Fix, down, up. pose proof (down_loop_perm (S (length l)) l i (length l)) as Hd.
  destruct (down_loop _ _ _ _) as [l' i']. simpl in Hd. case_match; by rewrite ?up_loop_perm.
Qed.

(** Sifting the element at [i] down and, if it did not move, up. *)
Definition sift (l : list A) (i n : nat) : list A :=
  let '(l', moved) := down l i n in if moved then l' else up l' i.

Lemma sift_heap l i n :
  (i < n)%nat -> (n <= length l)%nat ->
  (forall k, (0 < k < n)%nat -> par k <> i -> k <> i -> above l (par k) k) ->
  (forall k, (0 < k < n)%nat -> par k = i -> (0 < i)%nat -> above l (par i) k) ->
  heap_upto n (sift l i n).
Proof.
  intros Hi Hn H1 H2. unfold sift, down.
  pose proof (down_loop_heap (S n) l i n ltac:(lia) Hn Hi H1 H2) as (C1 & C2 & C3).
  pose proof (down_loop_mono (S n) l i n) as Hm.
  destruct (down_loop (S n) l i n) as [l' i']. simpl in *.
  destruct (Nat.ltb_spec i i').
  - intros k Hk. destruct (decide (k = i)) as [->|]; [apply C2; lia|by apply C1].
  - rewrite C3 by lia. rewrite C3 in C1 by lia. unfold up. apply up_loop_heap; auto with lia.
Qed.

Lemma Fix_sift l i : Fix l i = sift l i (length l).
Proof. done. Qed.

(** The root is not below any element of a heap. *)
Lemma heap_root l n k :
  (n <= length l)%nat -> heap_upto n l -> (k < n)%nat -> above l 0 k.
Proof.
  intros Hn Hh. induction k as [k IH] using lt_wf_ind. intros Hk.
  destruct (decide (k = 0)%nat) as [->|].
  { unfold above, kat. destruct (l !! 0%nat); simpl; [|done].
    destruct (Less (key a) (key a)) eqn:E; [|done]. apply less_asym in E as E'. congruence. }
  pose proof (par_lt k).
  apply (above_trans l 0 (par k) k); [lia|apply IH; lia|apply Hh; lia].
Qed.

Lemma down_loop_ind (Q : list A -> Prop) fuel l i n :
  (forall l i j, Q l -> Q (swap l i j)) -> Q l -> Q (down_loop fuel l i n).1.
Proof.
  intros Hs. revert l i. induction fuel as [|fuel IH]; intros l i Hl; cbn [down_loop]; cbv zeta; [done|].
  repeat (case_match; try done); by apply IH, Hs.
Qed.

Lemma up_loop_ind (Q : list A -> Prop) fuel l j :
  (forall l i j, Q l -> Q (swap l i j)) -> Q l -> Q (up_loop fuel l j).
Proof.
  intros Hs. revert l j. induction fuel as [|fuel IH]; intros l j Hl; cbn [up_loop]; cbv zeta; [done|].
  case_match; [done|]. by apply IH, Hs.
Qed.

Lemma Pop_spec l :
  l <> [] -> heap_upto (length l) l ->
  exists x l', Pop l = Ok (x, l') /\ kat l 0 = Some (key x) /\
    key x :: map key l' ≡ₚ map key l /\ S (length l') = length l /\ heap_upto (length l') l'.
Proof.
  intros Hne Hh. assert (0 < length l)%nat as Hl by (destruct l; simpl; [done|lia]).
  unfold Pop. cbv zeta. set (n := (length l - 1)%nat). set (l0 := swap l 0 n).
  assert (length l0 = length l) as Hl0 by apply swap_length.
  unfold down. pose proof (down_loop_length (S n) l0 0 n) as Hlen.
  pose proof (down_loop_perm (S n) l0 0 n) as Hperm.
  assert (kat (down_loop (S n) l0 0 n).1 n = kat l 0) as Hk.
  { transitivity (kat l0 n).
    - destruct (decide (n = 0)%nat) as [En|]; [by rewrite En|apply down_loop_frame; lia].
    - unfold l0. rewrite kat_swap by lia. by rewrite decide_True. }
  assert (heap_upto n (down_loop (S n) l0 0 n).1) as Hheap.
  { intros k Hkn. apply (down_loop_heap (S n) l0 0 n); try lia.
    intros m Hm Hpm Hm0. unfold l0. apply above_swap; [lia..|]. cbv zeta.
    pose proof (par_lt m). rewrite !decide_False by lia. apply Hh. lia. }
  destruct (down_loop (S n) l0 0 n) as [l1 i1]. simpl in *.
  destruct (lookup_lt_is_Some_2 l1 n ltac:(lia)) as [x Hx]. rewrite Hx. simpl.
  exists x, (take n l1). split_and!; [done| | | |].
  - rewrite <- Hk. unfold kat. by rewrite Hx.
  - rewrite <- (swap_perm l 0 n). fold l0. rewrite <- Hperm.
    rewrite <- (take_drop n l1) at 2. rewrite (drop_S _ x) by done.
    rewrite drop_ge by lia. rewrite map_app. simpl. by rewrite Permutation_app_comm.
  - rewrite length_take. lia.
  - intros k Hk'. rewrite length_take in Hk'. pose proof (par_lt k). unfold above, kat.
    rewrite !lookup_take_lt by lia. apply Hheap. lia.
Qed.

End Container.

(** ** heap.go *)
Section Queue.
Context {V P : Type} `{Comparable P}.

Record pqItem := mkItem { value : V; priority : P; index : Z }.

Definition set_index (i : nat) (it : pqItem) : pqItem :=
  mkItem (value it) (priority it) (Z.of_nat i).

Definition vp (it : pqItem) : V * P := (value it, priority it).

#[export] Instance pair_comparable : Comparable (V * P) := fun a b => Less a.2 b.2.
#[export] Instance pair_laws `{!ComparableLaws P} : ComparableLaws (V * P).
Proof.
  split.
  - intros [? a] [? b]. exact (less_asym a b).
  - intros [? a] [? b] [? c]. exact (less_negtrans a b c).
Qed.

#[local] Abbreviation Heap := (list pqItem).

Definition NewHeap : Heap := [].

Definition Len (h : Heap) : Z := Z.of_nat (length h).

Definition hPush (h : Heap) (v : V) (p : P) : Heap :=
  Push vp set_index h (mkItem v p (Z.of_nat (length h))).

Definition Peek (h : Heap) : option V := value <$> h !! 0%nat.

(** [heap.Fix] on an [int] index: [i = -1] leaves both loops at once, every
    other index outside the slice is a run-time panic. *)
Definition fix_at (h : Heap) (i : Z) : res Heap :=
  if (0 <=? i) && (i <? Len h) then Ok (Fix vp set_index h (Z.to_nat i))
  else if i =? -1 then Ok h else Panic.

Definition hUpdate (h : Heap) (v : V) (p : P) : res Heap :=
  let! it := go_index h 0 in
  fix_at (<[0%nat := mkItem v p (index it)]> h) (index it).

Definition hPop (h : Heap) : res (V * Heap) :=
  match h with
  | [] => Panic
  | _ => let! r := Pop vp set_index h in Ok (value r.1, r.2)
  end.

(** ** Invariant: heap order and [index] equal to the position *)
Definition indexed (h : Heap) : Prop :=
  forall k it, h !! k = Some it -> index it = Z.of_nat k.

Definition wf (h : Heap) : Prop := heap_upto vp (length h) h /\ indexed h.

Lemma swap_indexed h i j : indexed h -> indexed (swap set_index h i j).
Proof.
  intros Hx. unfold swap. destruct (h !! i) as [x|] eqn:Hi; [|done].
  destruct (h !! j) as [y|] eqn:Hj; [|done]. intros k it.
  intros [(<- & <- & _)|[_ [(<- & <- & _)|[_ Hk]]%list_lookup_insert_Some]]%list_lookup_insert_Some;
    [done..|by apply Hx].
Qed.

Context `{!ComparableLaws P}.

Lemma hPush_spec h v p :
  wf h -> wf (hPush h v p) /\ map vp (hPush h v p) ≡ₚ (v, p) :: map vp h.
Proof.
  intros [Hh Hi]. split; [split|].
  - apply Push_heap; [apply _|done|exact Hh].
  - unfold hPush, Push, up. apply up_loop_ind; [intros; by apply swap_indexed|].
    intros k it [Hk|[Hk Hl]]%lookup_app_Some; [by apply Hi|].
    apply list_lookup_singleton_Some in Hl as [Hk0 <-]. simpl. f_equal. lia.
  - unfold hPush. by rewrite Push_perm.
Qed.

Lemma root_minimal h it v p : wf h -> h !! 0%nat = Some it -> (v, p) ∈ map vp h -> Less p (priority it) = false.
Proof.
  intros [Hh _] E (it' & He & Hin)%list_elem_of_fmap. apply list_elem_of_lookup in Hin as [k Hk].
  apply lookup_lt_Some in Hk as Hlt. pose proof (heap_root vp h (length h) k ltac:(lia) Hh Hlt) as Ha.
  unfold above, kat in Ha. rewrite E, Hk in Ha. simpl in Ha. by injection He as -> ->.
Qed.

Lemma Peek_minimal h v :
  wf h -> Peek h = Some v ->
  exists p, (v, p) ∈ map vp h /\ forall v' p', (v', p') ∈ map vp h -> Less p' p = false.
Proof.
  intros Hw Hp. unfold Peek in Hp. destruct (h !! 0%nat) as [it|] eqn:E; simplify_eq/=. exists (priority it). split.
  - change (value it, priority it) with (vp it).
    apply list_elem_of_fmap. exists it. split; [done|]. by eapply list_elem_of_lookup_2.
  - intros v' p'. by apply root_minimal.
Qed.

(** [Update] rewrites the root and sifts it; the other entries only need to be
    ordered among themselves, which is all that is left of the invariant when
    the root's priority was changed through a pointer beforehand. *)
Lemma hUpdate_spec it h v p :
  indexed (it :: h) ->
  (forall k, (0 < k < length (it :: h))%nat -> par k <> 0%nat -> above vp (it :: h) (par k) k) ->
  exists h', hUpdate (it :: h) v p = Ok h' /\ wf h' /\ map vp h' ≡ₚ (v, p) :: map vp h.
Proof.
  intros Hi Ho. unfold hUpdate, go_index. simpl.
  rewrite (Hi 0%nat it eq_refl). unfold fix_at, Len. simpl.
  set (h1 := mkItem v p 0 :: h).
  destruct (Z.ltb_spec 0 (Z.of_nat (S (length h)))); [|lia].
  exists (Fix vp set_index h1 0). split; [done|]. split; [split|].
  - rewrite Fix_length. rewrite Fix_sift. apply sift_heap; [apply _|done|simpl; lia|done| |lia].
    intros k Hk Hp Hk0. pose proof (par_lt k).
    assert (forall m, (0 < m)%nat -> kat vp h1 m = kat vp (it :: h) m) as Hm.
    { intros m Hm. destruct m; [lia|done]. }
    unfold above. rewrite !Hm by lia. apply Ho; [simpl in *; lia|done].
  - assert (indexed h1) as Hx.
    { intros k x Hk. destruct k; simplify_eq/=; [done|]. by apply (Hi (S k) x). }
    unfold Fix, down, up. pose proof (down_loop_ind vp set_index indexed (S (length h1)) h1 0 (length h1)) as Hd.
    destruct (down_loop _ _ _ _ _ _) as [l' i']. simpl in Hd.
    case_match; [|apply up_loop_ind]; auto using swap_indexed.
  - by rewrite Fix_perm.
Qed.

(** [Pop] takes a minimal element off and keeps the rest. *)
Lemma hPop_spec h :
  wf h -> h <> [] ->
  exists v p h', hPop h = Ok (v, h') /\ Peek h = Some v /\ wf h' /\ (v, p) :: map vp h' ≡ₚ map vp h /\
    forall v' p', (v', p') ∈ map vp h -> Less p' p = false.
Proof.
  intros Hw Hne. pose proof Hw as [Hh Hi].
  destruct (Pop_spec vp set_index (fun _ _ => eq_refl) h Hne Hh) as (x & h' & E & Hk & Hp & Hl & Hh').
  exists (value x), (priority x), h'. split_and!; [| |split| |].
  - unfold hPop. rewrite E. by destruct h.
  - unfold Peek. unfold kat in Hk. destruct (h !! 0%nat) as [y|]; [|done]. injection Hk as Hv _. simpl. by f_equal.
  - done.
  - unfold Pop, down in E. pose proof (down_loop_ind vp set_index indexed (S (length h - 1)) (swap set_index h 0 (length h - 1)) 0 (length h - 1)) as Hd.
    destruct (down_loop _ _ _ _ _ _) as [l1 i']. simpl in *.
    destruct (l1 !! (length h - 1)%nat) eqn:El; simplify_eq/=.
    intros k y [Hy _]%lookup_take_Some. eapply Hd; eauto using swap_indexed.
  - done.
  - intros v' p' Hin. unfold kat in Hk. destruct (h !! 0%nat) as [y|] eqn:E0; [|done]. injection Hk as _ Hpr.
    rewrite <- Hpr. by eapply root_minimal.
Qed.

(** ** Use as a queue *)
Fixpoint push_items (l : list (V * P)) (h : Heap) : Heap :=
  match l with [] => h | (v, p) :: l' => push_items l' (hPush h v p) end.

(** [n] times [Peek] and [Pop]. *)
Fixpoint drain (n : nat) (h : Heap) : res (list V * Heap) :=
  match n with
  | O => Ok ([], h)
  | S n' =>
      let! (v, h) := hPop h in
      let! (vs, h) := drain n' h in
      Ok (v :: vs, h)
  end.

Lemma push_items_spec l h : wf h -> wf (push_items l h) /\ map vp (push_items l h) ≡ₚ l ++ map vp h.
Proof.
  revert h. induction l as [|[v p] l IH]; intros h Hw; simpl; [done|].
  destruct (hPush_spec h v p Hw) as [Hw' Hp]. destruct (IH _ Hw') as [Hw2 Hp2]. split; [done|].
  rewrite Hp2, Hp. by rewrite <- Permutation_middle.
Qed.

Definition ordered (out : list (V * P)) : Prop := StronglySorted (fun a b => Less b.2 a.2 = false) out.

Lemma drain_spec n h : wf h -> (n <= length h)%nat ->
  exists out h', drain n h = Ok (out.*1, h') /\ wf h' /\ length out = n /\ out ++ map vp h' ≡ₚ map vp h /\ ordered out /\
    forall a b, a ∈ out -> b ∈ map vp h' -> Less b.2 a.2 = false.
Proof.
  revert h. induction n as [|n IH]; intros h Hw Hn; simpl.
  { exists [], h. split_and!; try done; [constructor|]. intros a b Ha. set_solver. }
  destruct (hPop_spec h Hw) as (v & p & h1 & E & _ & Hw1 & Hp1 & Hmin); [by intros ->; simpl in Hn; lia|].
  assert (length h = S (length h1)) as Hl.
  { apply Permutation_length in Hp1. simpl in Hp1. by rewrite !length_map in Hp1. }
  destruct (IH h1 Hw1) as (out & h2 & E2 & Hw2 & Hlo & Hp2 & Hso & Hle); [lia|]. rewrite E. simpl. rewrite E2.
  assert (forall b, b ∈ out ++ map vp h2 -> Less b.2 p = false) as Hv.
  { intros [v' p'] Hin. apply (Hmin v' p'). rewrite <- Hp1, <- Hp2. by right. }
  exists ((v, p) :: out), h2. split_and!; [done|done|by rewrite <- Hlo|by rewrite <- Hp1, <- Hp2| |].
  - constructor; [done|]. apply Forall_forall. intros b Hb. apply Hv, elem_of_app. by left.
  - intros a b [->|Ha]%elem_of_cons Hb; [apply Hv, elem_of_app; by right|by apply Hle].
Qed.

(** The heap is a priority queue.  Whatever is pushed, in whatever order,
    popping it all never panics, gives every value once, and gives them in
    an order in which no later priority is less than an earlier one. *)
Theorem heap_drains_sorted l :
  exists out, drain (length l) (push_items l NewHeap) = Ok (out.*1, []) /\ out ≡ₚ l /\ ordered out.
Proof.
  assert (wf NewHeap) as Hw by (split; [intros k Hk; simpl in Hk; lia|intros k it Hk; done]).
  destruct (push_items_spec l NewHeap Hw) as [Hw' Hp]. simpl in Hp. rewrite app_nil_r in Hp.
  assert (length (push_items l NewHeap) = length l) as Hl by (rewrite <- (length_map vp), Hp; done).
  destruct (drain_spec (length l) _ Hw') as (out & h' & E & _ & Hlo & Hpo & Hso & _); [lia|].
  assert (h' = []) as ->.
  { apply Permutation_length in Hpo. rewrite length_app, !length_map, Hl in Hpo. destruct h'; [done|simpl in Hpo; lia]. }
  exists out. rewrite E. simpl in Hpo. rewrite app_nil_r in Hpo. split_and!; [done|by rewrite Hpo|done].
Qed.

End Queue.

#[local] Instance Z_comparable : Comparable Z := Z.ltb.
#[local] Instance Z_comparable_laws : ComparableLaws Z.
Proof. split; unfold Less, Z_comparable; intros; lia. Qed.

Lemma heap_drains_sorted_witness :
  exists out, drain 3 (push_items [(1, 30); (2, 10); (3, 20)] NewHeap) = Ok (out.*1, []) /\
    out ≡ₚ [(1, 30); (2, 10); (3, 20)] /\ ordered out.
Proof. exact (heap_drains_sorted [(1, 30); (2, 10); (3, 20)]). Defined.

End GoHeap.
