(* ===== verification/Wire.v ===== *)
(** * gemmill/go-wire: primitive encoders and decoders

    int.go, byteslice.go, string.go, time.go and the [WriteTo]/[ReadFull] of
    wire.go.  A writer is the bytes written so far, the counter [*n] and the
    sticky error [*err]; a reader is the bytes left, the counter and the
    error.  The writer of the model is a [bytes.Buffer], which never fails. *)
From S2P Require Import Prelude.

Inductive werr :=
| ErrEOF | ErrUnexpectedEOF
| ErrInvalidBool | ErrVarintOverflow | ErrNegativeZero | ErrUvarintOverflow
| ErrInsufficientBuffer
| ErrBinaryReadOverflow | ErrBinaryReadInvalidLength | ErrBinaryWriteOverflow
| ErrUnregistered | ErrTypeByte | ErrPtrByte | ErrFloatUnsafe | ErrNilPtr.

#[export] Instance werr_eq_dec : EqDecision werr.
Proof. solve_decision. Defined.

Module Wire.

Record W := mkW { wout : bytes; wn : Z; we : option werr }.
Record R := mkR { rin : bytes; rn : Z; re : option werr }.

(** ** wire.go *)
Definition WriteTo (bz : bytes) (w : W) : W :=
  match we w with
  | Some _ => w
  | None => mkW (wout w ++ bz) (wn w + Z.of_nat (length bz)) None
  end.

(** [io.ReadFull] into a zeroed buffer of [k] bytes: what is missing stays
    zero, [EOF] if nothing was read, [ErrUnexpectedEOF] after a short read. *)
Definition ReadFull (k : nat) (r : R) : bytes * R :=
  match re r with
  | Some _ => (replicate k 0, r)
  | None =>
      let got := take k (rin r) in
      let m := length got in
      let e := if (m =? k)%nat then None
               else if (m =? 0)%nat then Some ErrEOF else Some ErrUnexpectedEOF in
      (got ++ replicate (k - m) 0, mkR (drop k (rin r)) (rn r + Z.of_nat m) e)
  end.

Definition setFirstErr (e : werr) (r : R) : R :=
  match re r with None => mkR (rin r) (rn r) (Some e) | Some _ => r end.

(** [*err = e] *)
Definition setErr (e : werr) (r : R) : R := mkR (rin r) (rn r) (Some e).
Definition failed (r : R) : bool := match re r with Some _ => true | None => false end.

(** ** encoding/binary: big endian *)
Fixpoint be_bytes (k : nat) (z : Z) : bytes :=
  match k with
  | O => []
  | S k' => (z / 2 ^ (8 * Z.of_nat k')) mod 256 :: be_bytes k' z
  end.

Definition be_val (bz : bytes) : Z := fold_left (fun acc b => acc * 256 + b) bz 0.

(** Two's complement at [k] bytes. *)
Definition sgn (k : nat) (z : Z) : Z :=
  let w := 8 * Z.of_nat k in (z + 2 ^ (w - 1)) mod 2 ^ w - 2 ^ (w - 1).
Definition uns (k : nat) (z : Z) : Z := z mod 2 ^ (8 * Z.of_nat k).

(** [*n += k] before the write, as the fixed-width writers do *)
Definition bump (k : nat) (w : W) : W := mkW (wout w) (wn w + Z.of_nat k) (we w).
Definition write_fixed (k : nat) (z : Z) (w : W) : W :=
  WriteTo (be_bytes k (uns k z)) (bump k w).
Definition read_fixed (k : nat) (r : R) : Z * R :=
  let '(buf, r) := ReadFull k r in (be_val buf, r).

(** ** int.go *)
Definition WriteByte (b : Z) (w : W) : W := WriteTo [b] w.
Definition ReadByte (r : R) : Z * R :=
  let '(buf, r) := ReadFull 1 r in (nth 0 buf 0, r).

Definition WriteBool (b : bool) (w : W) : W := WriteTo [if b then 1 else 0] w.
Definition ReadBool (r : R) : bool * R :=
  let '(buf, r) := ReadFull 1 r in
  let b := nth 0 buf 0 in
  if b =? 0 then (false, r) else if b =? 1 then (true, r)
  else (false, setFirstErr ErrInvalidBool r).

Definition WriteInt8 (i : Z) (w : W) : W := WriteByte (u8 i) w.
Definition ReadInt8 (r : R) : Z * R := let '(b, r) := ReadByte r in (i8 b, r).
Definition WriteUint8 (i : Z) (w : W) : W := WriteByte (u8 i) w.
Definition ReadUint8 (r : R) : Z * R := ReadByte r.
Definition WriteInt16 (i : Z) (w : W) : W := write_fixed 2 i w.
Definition ReadInt16 (r : R) : Z * R := let '(z, r) := read_fixed 2 r in (sgn 2 z, r).
Definition WriteUint16 (i : Z) (w : W) : W := write_fixed 2 i w.
Definition ReadUint16 (r : R) : Z * R := read_fixed 2 r.
Definition WriteInt32 (i : Z) (w : W) : W := write_fixed 4 i w.
Definition ReadInt32 (r : R) : Z * R := let '(z, r) := read_fixed 4 r in (sgn 4 z, r).
Definition WriteUint32 (i : Z) (w : W) : W := write_fixed 4 i w.
Definition ReadUint32 (r : R) : Z * R := read_fixed 4 r.
Definition WriteInt64 (i : Z) (w : W) : W := write_fixed 8 i w.
Definition ReadInt64 (r : R) : Z * R := let '(z, r) := read_fixed 8 r in (sgn 8 z, r).
Definition WriteUint64 (i : Z) (w : W) : W := write_fixed 8 i w.
Definition ReadUint64 (r : R) : Z * R := read_fixed 8 r.

Definition uvarintSize (i : Z) : nat :=
  if i =? 0 then 0 else if i <? 2 ^ 8 then 1 else if i <? 2 ^ 16 then 2
  else if i <? 2 ^ 24 then 3 else if i <? 2 ^ 32 then 4 else if i <? 2 ^ 40 then 5
  else if i <? 2 ^ 48 then 6 else if i <? 2 ^ 56 then 7 else 8.

Definition UvarintSize (i : Z) : Z := Z.of_nat (uvarintSize i) + 1.

Definition WriteVarint (i : Z) (w : W) : W :=
  let negate := i <? 0 in
  let i := if negate then i64 (- i) else i in
  let size := uvarintSize (u64 i) in
  let w := if negate then WriteUint8 (u8 (Z.of_nat size + 240)) w
           else WriteUint8 (u8 (Z.of_nat size)) w in
  if (0 <? size)%nat then WriteTo (drop (8 - size) (be_bytes 8 (u64 i))) w else w.

(** [buf[(8-size):]] is read into, the rest of the eight bytes stays zero. *)
Definition ReadVarint (r : R) : Z * R :=
  let '(size, r) := ReadUint8 r in
  let negate := Z.shiftr size 4 =? 15 in
  let size := if negate then Z.land size 15 else size in
  if 8 <? size then (0, setFirstErr ErrVarintOverflow r)
  else if size =? 0 then
    (0, if negate then setFirstErr ErrNegativeZero r else r)
  else
    let size := Z.to_nat size in
    let '(buf, r) := ReadFull size r in
    let i := i64 (be_val (replicate (8 - size) 0 ++ buf)) in
    (if negate then i64 (- i) else i, r).

Definition WriteUvarint (i : Z) (w : W) : W :=
  let size := uvarintSize (u64 i) in
  let w := WriteUint8 (u8 (Z.of_nat size)) w in
  if (0 <? size)%nat then WriteTo (drop (8 - size) (be_bytes 8 (u64 i))) w else w.

Definition ReadUvarint (r : R) : Z * R :=
  let '(size, r) := ReadUint8 r in
  if 8 <? size then (0, setFirstErr ErrUvarintOverflow r)
  else if size =? 0 then (0, r)
  else
    let size := Z.to_nat size in
    let '(buf, r) := ReadFull size r in
    (be_val (replicate (8 - size) 0 ++ buf), r).

(** [copy(dst[off:], src)] on slices. *)
Definition copy_at (dst : bytes) (off : nat) (src : bytes) : bytes :=
  let m := (length src `min` (length dst - off))%nat in
  take off dst ++ take m src ++ drop (off + m) dst.

(** The [Put] functions fill a caller's buffer and return the new buffer, the
    count and the error. *)
Definition PutVarint (buf : bytes) (i : Z) : bytes * Z * option werr :=
  let negate := i <? 0 in
  let i := if negate then i64 (- i) else i in
  let size := uvarintSize (u64 i) in
  if (length buf <? size + 1)%nat then (buf, 0, Some ErrInsufficientBuffer)
  else
    let buf := <[0%nat := if negate then u8 (Z.of_nat size + 240) else u8 (Z.of_nat size)]> buf in
    let buf := if (0 <? size)%nat
               then copy_at buf 1 (drop (8 - size) (be_bytes 8 (u64 i))) else buf in
    (buf, Z.of_nat size + 1, None).

Definition GetVarint (buf : bytes) : Z * Z * option werr :=
  match buf with
  | [] => (0, 0, Some ErrInsufficientBuffer)
  | b0 :: _ =>
      let negate := Z.shiftr b0 4 =? 15 in
      let size := if negate then Z.land b0 15 else b0 in
      if 8 <? size then (0, 0, Some ErrVarintOverflow)
      else if size =? 0 then
        if negate then (0, 0, Some ErrNegativeZero) else (0, 1, None)
      else if (Z.of_nat (length buf) <? 1 + size) then (0, 0, Some ErrInsufficientBuffer)
      else
        let k := Z.to_nat size in
        let i := i64 (be_val (replicate (8 - k) 0 ++ take k (drop 1 buf))) in
        (if negate then i64 (- i) else i, size + 1, None)
  end.

Definition PutUvarint (buf : bytes) (i : Z) : bytes * Z * option werr :=
  let size := uvarintSize (u64 i) in
  if (length buf <? size + 1)%nat then (buf, 0, Some ErrInsufficientBuffer)
  else
    let buf := <[0%nat := u8 (Z.of_nat size)]> buf in
    let buf := if (0 <? size)%nat
               then copy_at buf 1 (drop (8 - size) (be_bytes 8 (u64 i))) else buf in
    (buf, Z.of_nat size + 1, None).

Definition GetUvarint (buf : bytes) : Z * Z * option werr :=
  match buf with
  | [] => (0, 0, Some ErrInsufficientBuffer)
  | size :: _ =>
      if 8 <? size then (0, 0, Some ErrUvarintOverflow)
      else if size =? 0 then (0, 1, None)
      else if (Z.of_nat (length buf) <? 1 + size) then (0, 0, Some ErrInsufficientBuffer)
      else
        let k := Z.to_nat size in
        (be_val (replicate (8 - k) 0 ++ take k (drop 1 buf)), size + 1, None)
  end.

(** ** byteslice.go and string.go *)
Definition WriteByteSlice (bz : bytes) (w : W) : W :=
  WriteTo bz (WriteVarint (Z.of_nat (length bz)) w).

(** [make([]byte, length)] panics beyond the allocator's limit (2^48 bytes on
    amd64). *)
Definition maxAlloc : Z := 2 ^ 48.

(** [ReadFull] into a [length]-byte buffer.  The buffer is as long as the
    declared length, whatever the reader holds. *)
Definition ReadByteSlice (lmt : Z) (r : R) : res (bytes * R) :=
  let '(length, r) := ReadVarint r in
  if failed r then Ok ([], r)
  else if length <? 0 then Ok ([], setErr ErrBinaryReadInvalidLength r)
  else if negb (lmt =? 0) && (lmt <? Z.max length (i64 (rn r + length)))
  then Ok ([], setErr ErrBinaryReadOverflow r)
  else if maxAlloc <? length then Panic
  else Ok (ReadFull (Z.to_nat length) r).

Definition PutByteSlice (buf bz : bytes) : bytes * Z * option werr :=
  let '(buf, n_, err) := PutVarint buf (Z.of_nat (length bz)) in
  match err with
  | Some e => (buf, 0, Some e)
  | None =>
      let k := Z.to_nat n_ in
      if (length (drop k buf) <? length bz)%nat then (buf, 0, Some ErrBinaryWriteOverflow)
      else (copy_at buf k bz, n_ + Z.of_nat (length bz), None)
  end.

Definition GetByteSlice (buf : bytes) : res (bytes * Z * option werr) :=
  let '(len, n_, err) := GetVarint buf in
  match err with
  | Some e => Ok ([], 0, Some e)
  | None =>
      let buf := drop (Z.to_nat n_) buf in
      if len <? 0 then Ok ([], 0, Some ErrBinaryReadInvalidLength)
      else if Z.of_nat (length buf) <? len then Ok ([], 0, Some ErrBinaryReadOverflow)
      else if maxAlloc <? len then Panic
      else Ok (take (Z.to_nat len) buf, n_ + len, None)
  end.

Definition ByteSliceSize (bz : bytes) : Z :=
  UvarintSize (Z.of_nat (length bz)) + Z.of_nat (length bz).

Fixpoint write_slices (bzz : list bytes) (w : W) : W :=
  match bzz with
  | [] => w
  | bz :: bzz' =>
      let w := WriteByteSlice bz w in
      match we w with Some _ => w | None => write_slices bzz' w end
  end.

Definition WriteByteSlices (bzz : list bytes) (w : W) : W :=
  write_slices bzz (WriteVarint (Z.of_nat (length bzz)) w).

Fixpoint read_slices (k : nat) (lmt : Z) (acc : list bytes) (r : R) : res (list bytes * R) :=
  match k with
  | O => Ok (acc, r)
  | S k' =>
      let! (bz, r) := ReadByteSlice lmt r in
      if failed r then Ok ([], r) else read_slices k' lmt (acc ++ [bz]) r
  end.

(** A slice header takes 24 bytes of [make([][]byte, length)]. *)
Definition ReadByteSlices (lmt : Z) (r : R) : res (list bytes * R) :=
  let '(length, r) := ReadVarint r in
  if failed r then Ok ([], r)
  else if length <? 0 then Ok ([], setErr ErrBinaryReadInvalidLength r)
  else if negb (lmt =? 0) && (lmt <? Z.max length (i64 (rn r + length)))
  then Ok ([], setErr ErrBinaryReadOverflow r)
  else if maxAlloc <? 24 * length then Panic
  else read_slices (Z.to_nat length) lmt [] r.

Definition WriteString (s : bytes) (w : W) : W := WriteByteSlice s w.
Definition ReadString (lmt : Z) (r : R) : res (bytes * R) := ReadByteSlice lmt r.

(** ** time.go: a [time.Time] by its [UnixNano] *)
Definition WriteTime (t : Z) (w : W) : W :=
  let millisecs := Z.quot t 1000000 in WriteInt64 (i64 (millisecs * 1000000)) w.

Definition ReadTime (r : R) : res (Z * R) :=
  let '(t, r) := ReadInt64 r in
  if negb (Z.rem t 1000000 =? 0) then Panic else Ok (t, r).

(** ** Specifications *)

(** [f] appends [bz] to a writer without error. *)
Definition writes (f : W -> W) (bz : bytes) : Prop :=
  forall out n, exists n', f (mkW out n None) = mkW (out ++ bz) n' None.

(** [f] reads [a] off the front of the input and leaves the rest. *)
Definition reads {A} (f : R -> A * R) (bz : bytes) (a : A) : Prop :=
  forall rest n, f (mkR (bz ++ rest) n None) = (a, mkR rest (n + Z.of_nat (length bz)) None).

Lemma be_bytes_length k z : length (be_bytes k z) = k.
Proof. induction k; simpl; congruence. Qed.

Lemma be_bytes_byte k z : Forall is_byte (be_bytes k z).
Proof.
  induction k; simpl; constructor; [|done]. unfold is_byte. apply Z.mod_pos_bound. lia.
Qed.

Lemma fold_be acc bz :
  fold_left (fun acc b => acc * 256 + b) bz acc = acc * 2 ^ (8 * Z.of_nat (length bz)) + be_val bz.
Proof.
  unfold be_val. revert acc. induction bz as [|b bz IH]; intros acc; simpl fold_left.
  { simpl. lia. }
  rewrite IH, (IH (0 * 256 + b)). simpl length.
  replace (8 * Z.of_nat (S (length bz))) with (8 + 8 * Z.of_nat (length bz)) by lia.
  rewrite Z.pow_add_r by lia. change (2 ^ 8) with 256. ring.
Qed.

Lemma be_val_cons b bz : be_val (b :: bz) = b * 2 ^ (8 * Z.of_nat (length bz)) + be_val bz.
Proof. unfold be_val at 1. simpl fold_left. rewrite fold_be. ring. Qed.

Lemma be_val_zeros k bz : be_val (replicate k 0 ++ bz) = be_val bz.
Proof. induction k; simpl; [done|]. rewrite be_val_cons, IHk. ring. Qed.

Lemma be_val_bytes k z : be_val (be_bytes k z) = z mod 2 ^ (8 * Z.of_nat k).
Proof.
  induction k as [|k IH]; cbn [be_bytes].
  { simpl. by rewrite Z.mod_1_r. }
  rewrite be_val_cons, be_bytes_length, IH.
  replace (8 * Z.of_nat (S k)) with (8 * Z.of_nat k + 8) by lia.
  set (m := 2 ^ (8 * Z.of_nat k)). assert (0 < m) by (unfold m; apply Z.pow_pos_nonneg; lia).
  rewrite Z.pow_add_r by lia. fold m. change (2 ^ 8) with 256.
  rewrite (Z.rem_mul_r z m 256) by lia. lia.
Qed.

Lemma drop_be_bytes m k z : (m <= k)%nat -> drop (k - m) (be_bytes k z) = be_bytes m z.
Proof.
  intros Hm. induction k as [|k IH]; [by replace m with 0%nat by lia|].
  destruct (decide (m = S k)) as [->|]; [by rewrite Nat.sub_diag|].
  replace (S k - m)%nat with (S (k - m)) by lia. cbn [be_bytes drop]. apply IH. lia.
Qed.

Lemma uvarintSize_spec i :
  is_u64 i -> (uvarintSize i <= 8)%nat /\ i < 2 ^ (8 * Z.of_nat (uvarintSize i)) /\
    (uvarintSize i = 0%nat <-> i = 0).
Proof.
  intros [H0 H1]. unfold uvarintSize.
  repeat match goal with
  | |- context [if (?a =? ?b) then _ else _] => destruct (Z.eqb_spec a b)
  | |- context [if (?a <? ?b) then _ else _] => destruct (Z.ltb_spec a b)
  end; split_and!; simpl Z.of_nat; simpl Z.mul; lia.
Qed.

(** The encoding is minimal: one byte less would not hold the value. *)
Lemma uvarintSize_min i k :
  is_u64 i -> 0 < i -> i < 2 ^ (8 * Z.of_nat k) -> (uvarintSize i <= k)%nat.
Proof.
  intros [H0 H1] Hpos Hk. destruct (decide (uvarintSize i <= k)%nat) as [|Hn]; [done|]. exfalso.
  assert (2 ^ (8 * Z.of_nat k) <= 2 ^ (8 * (Z.of_nat (uvarintSize i) - 1))) as Hp
    by (apply Z.pow_le_mono_r; lia).
  revert Hp Hn. unfold uvarintSize.
  repeat match goal with
  | |- context [if (?a =? ?b) then _ else _] => destruct (Z.eqb_spec a b)
  | |- context [if (?a <? ?b) then _ else _] => destruct (Z.ltb_spec a b)
  end; simpl Z.of_nat; simpl Z.sub; simpl Z.mul; lia.
Qed.

Lemma writes_app f g a b : writes f a -> writes g b -> writes (fun w => g (f w)) (a ++ b).
Proof.
  intros Hf Hg out n. destruct (Hf out n) as [n1 ->]. destruct (Hg (out ++ a) n1) as [n2 ->].
  rewrite <- (assoc_L (++)). eauto.
Qed.

Lemma writes_WriteTo bz : writes (WriteTo bz) bz.
Proof. intros out n. unfold WriteTo. simpl. eauto. Qed.

Lemma writes_fixed k z : writes (write_fixed k z) (be_bytes k (uns k z)).
Proof. intros out n. unfold write_fixed, WriteTo, bump. simpl. eauto. Qed.

Lemma reads_ReadFull k bz : length bz = k -> reads (ReadFull k) bz bz.
Proof.
  intros <- rest n. unfold ReadFull. simpl. rewrite take_app_length, drop_app_length.
  rewrite Nat.eqb_refl, Nat.sub_diag. simpl. by rewrite (right_id_L [] (++)).
Qed.

Lemma reads_fixed k z : reads (read_fixed k) (be_bytes k (uns k z)) (uns k z).
Proof.
  intros rest n. unfold read_fixed.
  rewrite (reads_ReadFull k) by apply be_bytes_length. f_equal.
  rewrite be_val_bytes. unfold uns. by rewrite Z.mod_mod by (apply Z.pow_nonzero; lia).
Qed.

Lemma sgn_uns k z :
  (0 < k)%nat -> - 2 ^ (8 * Z.of_nat k - 1) <= z < 2 ^ (8 * Z.of_nat k - 1) ->
  sgn k (uns k z) = z.
Proof.
  intros Hk Hz. unfold sgn, uns. rewrite Z.add_mod_idemp_l by (apply Z.pow_nonzero; lia).
  assert (2 ^ (8 * Z.of_nat k) = 2 * 2 ^ (8 * Z.of_nat k - 1)).
  { rewrite <- Z.pow_succ_r by lia. f_equal. lia. }
  rewrite Z.mod_small; lia.
Qed.

(** The varint format: a byte with the size (plus 0xF0 for a negative), then
    the magnitude in big endian without leading zeros. *)
Definition varint_bytes (i : Z) : bytes :=
  let size := uvarintSize (Z.abs i) in
  (Z.of_nat size + (if i <? 0 then 240 else 0)) :: be_bytes size (Z.abs i).

Definition uvarint_bytes (i : Z) : bytes :=
  Z.of_nat (uvarintSize i) :: be_bytes (uvarintSize i) i.

Lemma magnitude i : is_i64 i -> u64 (if i <? 0 then i64 (- i) else i) = Z.abs i /\ is_u64 (Z.abs i).
Proof.
  intros Hi. split; [|unfold is_i64, is_u64 in *; lia]. destruct (Z.ltb_spec i 0).
  - rewrite u64_i64. unfold is_i64 in Hi. rewrite u64_id; [lia|unfold is_u64; lia].
  - unfold is_i64 in Hi. rewrite u64_id; [lia|unfold is_u64; lia].
Qed.

Lemma size_tail size z : (size <= 8)%nat ->
  (if (0 <? size)%nat then drop (8 - size) (be_bytes 8 z) else []) = be_bytes size z.
Proof. intros. destruct (Nat.ltb_spec 0 size); [by apply drop_be_bytes|by replace size with 0%nat by lia]. Qed.

Lemma WriteVarint_bytes i : is_i64 i -> writes (WriteVarint i) (varint_bytes i).
Proof.
  intros Hi out n. destruct (magnitude i Hi) as [Hm Hu].
  destruct (uvarintSize_spec _ Hu) as (Hs & _ & _).
  unfold WriteVarint. cbv zeta. rewrite Hm. unfold varint_bytes, WriteUint8, WriteByte.
  rewrite <- (size_tail (uvarintSize (Z.abs i))) by done.
  assert (forall x, 0 <= x < 256 -> u8 (u8 x) = x) as Hx.
  { intros x ?. unfold u8. change (2 ^ 8) with 256. rewrite Z.mod_mod, Z.mod_small; lia. }
  destruct (i <? 0); rewrite Hx by lia; rewrite ?Z.add_0_r;
    destruct (Nat.ltb_spec 0 (uvarintSize (Z.abs i))); unfold WriteTo; cbn [we wout wn];
    rewrite <- ?(assoc_L (++)); eauto.
Qed.

Lemma be_val_mag size m : is_u64 m -> m < 2 ^ (8 * Z.of_nat size) ->
  be_val (replicate (8 - size) 0 ++ be_bytes size m) = m.
Proof.
  intros [? ?] ?. rewrite be_val_zeros, be_val_bytes. apply Z.mod_small. lia.
Qed.

Lemma size_byte_pos (size : nat) : (size <= 8)%nat -> (Z.shiftr (Z.of_nat size) 4 =? 15) = false.
Proof. intros. do 9 (destruct size; [done|]). lia. Qed.

Lemma size_byte_neg (size : nat) : (size <= 8)%nat ->
  (Z.shiftr (Z.of_nat size + 240) 4 =? 15) = true /\ Z.land (Z.of_nat size + 240) 15 = Z.of_nat size.
Proof. intros. do 9 (destruct size; [done|]). lia. Qed.

(** The sign and the size are read back off the first byte. *)
Lemma size_byte (size : nat) (b : bool) : (size <= 8)%nat ->
  let x := Z.of_nat size + (if b then 240 else 0) in
  (Z.shiftr x 4 =? 15) = b /\ (if b then Z.land x 15 else x) = Z.of_nat size.
Proof.
  intros ?. destruct b; [by apply size_byte_neg|]. intros x. unfold x.
  rewrite Z.add_0_r. split; [by apply size_byte_pos|done].
Qed.

Lemma ReadUint8_cons b rest n : ReadUint8 (mkR (b :: rest) n None) = (b, mkR rest (n + 1) None).
Proof. done. Qed.

Lemma signed_magnitude i : is_i64 i ->
  (if i <? 0 then i64 (- i64 (Z.abs i)) else i64 (Z.abs i)) = i.
Proof.
  intros Hi. destruct (Z.ltb_spec i 0).
  - unfold is_i64 in Hi. destruct (decide (i = - 2 ^ 63)) as [->|]; [done|].
    rewrite (i64_id (Z.abs i)), i64_id; unfold is_i64; lia.
  - unfold is_i64 in Hi. rewrite i64_id; unfold is_i64; lia.
Qed.

Lemma ReadVarint_bytes i : is_i64 i -> reads ReadVarint (varint_bytes i) i.
Proof.
  intros Hi rest n. destruct (magnitude i Hi) as [_ Hu].
  destruct (uvarintSize_spec _ Hu) as (Hs & Hlt & H0).
  unfold ReadVarint, varint_bytes. cbv zeta. set (size := uvarintSize (Z.abs i)) in *.
  rewrite <- app_comm_cons. rewrite ReadUint8_cons.
  pose proof (signed_magnitude i Hi) as Hsg.
  destruct (size_byte size (i <? 0) Hs) as [-> ->].
  destruct (Z.ltb_spec 8 (Z.of_nat size)); [lia|].
  destruct (Z.eqb_spec (Z.of_nat size) 0).
  - assert (i = 0) as -> by lia. simpl. do 2 f_equal; lia.
  - rewrite Nat2Z.id, (reads_ReadFull size) by apply be_bytes_length.
    rewrite be_val_mag by done. rewrite Hsg. do 2 f_equal. simpl length. lia.
Qed.

Lemma WriteUvarint_bytes i : is_u64 i -> writes (WriteUvarint i) (uvarint_bytes i).
Proof.
  intros Hu out n. destruct (uvarintSize_spec _ Hu) as (Hs & _ & _).
  unfold WriteUvarint. cbv zeta. rewrite u64_id by done. unfold uvarint_bytes, WriteUint8, WriteByte.
  rewrite <- (size_tail (uvarintSize i)) by done.
  assert (u8 (u8 (Z.of_nat (uvarintSize i))) = Z.of_nat (uvarintSize i)) as ->.
  { unfold u8. change (2 ^ 8) with 256. rewrite Z.mod_mod, Z.mod_small; lia. }
  destruct (Nat.ltb_spec 0 (uvarintSize i)); unfold WriteTo; cbn [we wout wn];
    rewrite <- ?(assoc_L (++)); eauto.
Qed.

Lemma ReadUvarint_bytes i : is_u64 i -> reads ReadUvarint (uvarint_bytes i) i.
Proof.
  intros Hu rest n. destruct (uvarintSize_spec _ Hu) as (Hs & Hlt & H0).
  unfold ReadUvarint, uvarint_bytes. set (size := uvarintSize i) in *.
  rewrite <- app_comm_cons. rewrite ReadUint8_cons.
  destruct (Z.ltb_spec 8 (Z.of_nat size)); [lia|].
  destruct (Z.eqb_spec (Z.of_nat size) 0).
  - assert (i = 0) as -> by lia. simpl. do 2 f_equal; lia.
  - rewrite Nat2Z.id, (reads_ReadFull size) by apply be_bytes_length.
    rewrite be_val_mag by done. do 2 f_equal. simpl length. lia.
Qed.

(** go-wire reads a [uint] with [ReadVarint]; the sizes agree. *)
Lemma ReadVarint_uvarint i : is_u64 i -> reads ReadVarint (uvarint_bytes i) (i64 i).
Proof.
  intros Hu rest n. destruct (uvarintSize_spec _ Hu) as (Hs & Hlt & H0).
  unfold ReadVarint, uvarint_bytes. cbv zeta. set (size := uvarintSize i) in *.
  rewrite <- app_comm_cons. rewrite ReadUint8_cons.
  rewrite size_byte_pos by done.
  destruct (Z.ltb_spec 8 (Z.of_nat size)); [lia|].
  destruct (Z.eqb_spec (Z.of_nat size) 0).
  - assert (i = 0) as -> by lia. simpl. do 2 f_equal; lia.
  - rewrite Nat2Z.id, (reads_ReadFull size) by apply be_bytes_length.
    rewrite be_val_mag by done. do 2 f_equal. simpl length. lia.
Qed.

(** ** Byte slices *)
Definition slice_bytes (bz : bytes) : bytes := varint_bytes (Z.of_nat (length bz)) ++ bz.

(** The read limit leaves room for [len] more bytes ([0] is no limit). *)
Definition lmt_ok (lmt n : Z) (len : nat) : Prop :=
  lmt = 0 \/ (0 <= n /\ n + Z.of_nat len <= lmt < 2 ^ 63).

(** Reading below a limit, possibly panicking. *)
Definition reads_lmt {A} (f : Z -> R -> res (A * R)) (bz : bytes) (a : A) : Prop :=
  forall lmt rest n, lmt_ok lmt n (length bz) ->
    f lmt (mkR (bz ++ rest) n None) = Ok (a, mkR rest (n + Z.of_nat (length bz)) None).

Lemma varint_bytes_length i : length (varint_bytes i) = S (uvarintSize (Z.abs i)).
Proof. unfold varint_bytes. cbn [length]. by rewrite be_bytes_length. Qed.

Lemma WriteByteSlice_bytes bz :
  Z.of_nat (length bz) <= maxAlloc -> writes (WriteByteSlice bz) (slice_bytes bz).
Proof.
  intros Hl. apply (writes_app (WriteVarint _) (WriteTo bz)); [|apply writes_WriteTo].
  apply WriteVarint_bytes. unfold is_i64, maxAlloc in *. lia.
Qed.

Lemma ReadByteSlice_bytes bz :
  Z.of_nat (length bz) <= maxAlloc -> reads_lmt ReadByteSlice (slice_bytes bz) bz.
Proof.
  intros Hl lmt rest n Hlmt. unfold slice_bytes, ReadByteSlice in *.
  assert (is_i64 (Z.of_nat (length bz))) as Hi by (unfold is_i64, maxAlloc in *; lia).
  rewrite <- (assoc_L (++)). rewrite (ReadVarint_bytes _ Hi). cbn [failed re rn].
  set (m := length (varint_bytes (Z.of_nat (length bz)))) in *.
  rewrite length_app in *. fold m in Hlmt. unfold lmt_ok in Hlmt.
  destruct (Z.ltb_spec (Z.of_nat (length bz)) 0); [lia|].
  destruct (Z.ltb_spec maxAlloc (Z.of_nat (length bz))); [lia|].
  rewrite Nat2Z.id, (reads_ReadFull (length bz)) by done.
  assert (negb (lmt =? 0) && (lmt <? Z.max (Z.of_nat (length bz))
    (i64 (n + Z.of_nat m + Z.of_nat (length bz)))) = false) as ->.
  { destruct (Z.eqb_spec lmt 0) as [|Hne]; [done|]. cbn [negb andb]. apply Z.ltb_ge.
    destruct Hlmt as [|(? & ? & ?)]; [done|]. rewrite i64_id; unfold is_i64; lia. }
  do 3 f_equal. lia.
Qed.

Lemma copy_at_spec dst src k :
  (k + length src <= length dst)%nat ->
  copy_at dst k src = take k dst ++ src ++ drop (k + length src) dst.
Proof.
  intros. unfold copy_at. rewrite Nat.min_l by lia. by rewrite (take_ge src) by lia.
Qed.

Lemma PutVarint_spec buf i :
  is_i64 i ->
  PutVarint buf i =
    if (length buf <? length (varint_bytes i))%nat then (buf, 0, Some ErrInsufficientBuffer)
    else (varint_bytes i ++ drop (length (varint_bytes i)) buf,
          Z.of_nat (length (varint_bytes i)), None).
Proof.
  intros Hi. destruct (magnitude i Hi) as [Hm Hu].
  destruct (uvarintSize_spec _ Hu) as (Hs & _ & _).
  unfold PutVarint. cbv zeta. rewrite Hm, varint_bytes_length. rewrite Nat.add_1_r.
  destruct (Nat.ltb_spec (length buf) (S (uvarintSize (Z.abs i)))); [done|].
  destruct buf as [|b buf]; [simpl in *; lia|]. cbn [length] in *.
  do 2 f_equal; [|lia]. unfold varint_bytes. set (size := uvarintSize (Z.abs i)) in *.
  replace (if i <? 0 then u8 (Z.of_nat size + 240) else u8 (Z.of_nat size))
    with (Z.of_nat size + (if i <? 0 then 240 else 0)).
  2:{ unfold u8. change (2 ^ 8) with 256. destruct (i <? 0); rewrite Z.mod_small; lia. }
  destruct (Nat.ltb_spec 0 size).
  - rewrite drop_be_bytes by done. rewrite copy_at_spec; rewrite be_bytes_length; [done|].
    rewrite length_insert. simpl. lia.
  - by replace size with 0%nat by lia.
Qed.

Lemma GetVarint_bytes i rest :
  is_i64 i -> GetVarint (varint_bytes i ++ rest) = (i, Z.of_nat (length (varint_bytes i)), None).
Proof.
  intros Hi.
  destruct (magnitude i Hi) as [_ Hu]. destruct (uvarintSize_spec _ Hu) as (Hs & Hlt & H0).
  rewrite varint_bytes_length. pose proof (signed_magnitude i Hi) as Hsg.
  unfold GetVarint, varint_bytes. cbv zeta. set (size := uvarintSize (Z.abs i)) in *.
  rewrite <- app_comm_cons. cbn [drop].
  destruct (size_byte size (i <? 0) Hs) as [-> ->].
  destruct (Z.ltb_spec 8 (Z.of_nat size)); [lia|].
  destruct (Z.eqb_spec (Z.of_nat size) 0).
  - assert (i = 0) as -> by lia. done.
  - cbn [length]. rewrite length_app, be_bytes_length.
    destruct (Z.ltb_spec (Z.of_nat (S (size + length rest))) (1 + Z.of_nat size)); [lia|].
    rewrite Nat2Z.id, drop_0.
    rewrite take_app_length' by (by rewrite be_bytes_length).
    rewrite be_val_mag by done. rewrite Hsg. do 2 f_equal. lia.
Qed.

Lemma PutByteSlice_spec buf bz :
  Z.of_nat (length bz) <= maxAlloc -> (length (slice_bytes bz) <= length buf)%nat ->
  PutByteSlice buf bz =
    (slice_bytes bz ++ drop (length (slice_bytes bz)) buf, Z.of_nat (length (slice_bytes bz)), None).
Proof.
  intros Hm Hl. unfold PutByteSlice, slice_bytes in *.
  set (v := varint_bytes (Z.of_nat (length bz))) in *. rewrite length_app in *.
  rewrite PutVarint_spec by (unfold is_i64, maxAlloc in *; lia). fold v.
  destruct (Nat.ltb_spec (length buf) (length v)); [lia|].
  rewrite Nat2Z.id, drop_app_length, length_drop.
  destruct (Nat.ltb_spec (length buf - length v) (length bz)); [lia|].
  rewrite copy_at_spec by (rewrite length_app, length_drop; lia).
  rewrite take_app_length, <- (assoc_L (++)), drop_app_add, drop_drop. f_equal. f_equal. lia.
Qed.

Lemma GetByteSlice_bytes bz rest :
  Z.of_nat (length bz) <= maxAlloc ->
  GetByteSlice (slice_bytes bz ++ rest) = Ok (bz, Z.of_nat (length (slice_bytes bz)), None).
Proof.
  intros Hl. unfold GetByteSlice, slice_bytes. rewrite <- (assoc_L (++)).
  rewrite GetVarint_bytes by (unfold is_i64, maxAlloc in *; lia).
  rewrite Nat2Z.id, drop_app_length. cbv zeta.
  destruct (Z.ltb_spec (Z.of_nat (length bz)) 0); [lia|].
  destruct (Z.ltb_spec (Z.of_nat (length (bz ++ rest))) (Z.of_nat (length bz)));
    [rewrite length_app in *; lia|].
  destruct (Z.ltb_spec maxAlloc (Z.of_nat (length bz))); [lia|].
  rewrite Nat2Z.id, take_app_length, length_app. do 3 f_equal. lia.
Qed.

(** No encoded slice is a prefix of another one. *)
Lemma slice_bytes_prefix a b x y :
  Z.of_nat (length a) <= maxAlloc -> Z.of_nat (length b) <= maxAlloc ->
  slice_bytes a ++ x = slice_bytes b ++ y -> a = b /\ x = y.
Proof.
  intros Ha Hb Heq.
  pose proof (ReadByteSlice_bytes a Ha 0 x 0 (or_introl eq_refl)) as Qa.
  pose proof (ReadByteSlice_bytes b Hb 0 y 0 (or_introl eq_refl)) as Qb.
  rewrite Heq, Qb in Qa. by simplify_eq.
Qed.

(** ** Time *)
Definition time_bytes (t : Z) : bytes := be_bytes 8 (uns 8 (Z.quot t 1000000 * 1000000)).

Lemma ReadTime_bytes t : is_i64 t ->
  reads_lmt (fun _ => ReadTime) (time_bytes t) (Z.quot t 1000000 * 1000000).
Proof.
  intros Ht lmt rest n _. unfold ReadTime, ReadInt64, time_bytes.
  assert (is_i64 (Z.quot t 1000000 * 1000000)) as Hq.
  { unfold is_i64 in *. pose proof (Z.quot_rem' t 1000000). pose proof (Z.rem_bound_abs t 1000000).
    destruct (decide (0 <= t)); [pose proof (Z.rem_nonneg t 1000000)|pose proof (Z.rem_nonpos t 1000000)]; lia. }
  rewrite (reads_fixed 8). rewrite sgn_uns; [|lia|exact Hq].
  rewrite Z.rem_mul by lia. done.
Qed.

Lemma WriteTime_bytes t : is_i64 t -> writes (WriteTime t) (time_bytes t).
Proof.
  intros Ht. unfold WriteTime, WriteInt64, time_bytes. rewrite i64_id; [apply writes_fixed|].
  unfold is_i64 in *. pose proof (Z.quot_rem' t 1000000). pose proof (Z.rem_bound_abs t 1000000).
  destruct (decide (0 <= t)); [pose proof (Z.rem_nonneg t 1000000)|pose proof (Z.rem_nonpos t 1000000)]; lia.
Qed.

End Wire.
