(* ===== verification/WireReflect.v ===== *)
(** * gemmill/go-wire/reflect.go: the binary codec driven by Go types

    [rtype] is what [reflect.Type] and [TypeInfo] expose to the codec: the
    kinds, the exported fields of a struct with their options, and the
    concrete types registered for an interface (a type is identified by a
    number, as [reflect.Type] identity is nominal).  [gval] are the values.
    Decoding is into a fresh zero value. *)
From S2P Require Import Prelude Wire.
#[local] Set Warnings "-register-all".
Import Wire.

Record Options := mkOpts { Varint : bool; Unsafe : bool }.
Definition noOpts : Options := mkOpts false false.

Inductive rtype :=
| TInterface (registered : option (list (Z * nat * rtype)))
| TPtr (elem : rtype)
| TArray (len : nat) (elem : rtype)
| TSlice (elem : rtype)
| TStruct (fields : list (Options * rtype))
| TTime
| TString
| TInt64 | TInt32 | TInt16 | TInt8 | TInt
| TUint64 | TUint32 | TUint16 | TUint8 | TUint
| TBool | TFloat64 | TFloat32
| TOther.

(** Bytes of a byte slice, byte array or string are [VBytes]; a float is its
    IEEE bits; a time its [UnixNano]. *)
Inductive gval :=
| VNil
| VIface (id : nat) (crt : rtype) (v : gval)
| VPtr (v : gval)
| VList (vs : list gval)
| VStruct (vs : list gval)
| VBytes (bz : bytes)
| VInt (z : Z)
| VBool (b : bool).

Module WireReflect.

Definition isUint8 (t : rtype) : bool := match t with TUint8 => true | _ => false end.

#[local] Abbreviation regs := (list (Z * nat * rtype)).

(** [ByteToType[b]] and [TypeToByte[crt]]; a later registration of the same
    type overwrites the byte. *)
Definition ByteToType (cts : regs) (b : Z) : option (nat * rtype) :=
  match filter (fun c => c.1.1 = b) cts with
  | (_, id, t) :: _ => Some (id, t)
  | [] => None
  end.

Definition TypeToByte (cts : regs) (id : nat) : option Z :=
  match filter (fun c => c.1.2 = id) (reverse cts) with
  | (b, _, _) :: _ => Some b
  | [] => None
  end.

(** [RegisterInterface] refuses byte 0 and a byte used twice. *)
Fixpoint register_loop (cts : regs) (seen : list Z) : res unit :=
  match cts with
  | [] => Ok tt
  | (b, _, _) :: cts' =>
      if b =? 0 then Panic
      else if existsb (Z.eqb b) seen then Panic
      else register_loop cts' (b :: seen)
  end.

Definition RegisterInterface (cts : regs) : res rtype :=
  let! _ := register_loop cts [] in Ok (TInterface (Some cts)).

Definition wSetErr (e : werr) (w : W) : W := mkW (wout w) (wn w) (Some e).

(** The cases of the switch without sub-values.  [Panic] for [TOther] is the
    switch's default; a value that does not have the type has no Go
    counterpart. *)
Definition write_scalar (v : gval) (rt : rtype) (o : Options) (w : W) : res W :=
  match v, rt with
  | VBytes s, TString => Ok (WriteString s w)
  | VInt t, TTime => Ok (WriteTime t w)
  | VInt z, TInt64 => Ok (if Varint o then WriteVarint z w else WriteInt64 z w)
  | VInt z, TInt32 => Ok (WriteInt32 z w)
  | VInt z, TInt16 => Ok (WriteInt16 z w)
  | VInt z, TInt8 => Ok (WriteInt8 z w)
  | VInt z, TInt => Ok (WriteVarint z w)
  | VInt z, TUint64 => Ok (if Varint o then WriteUvarint z w else WriteUint64 z w)
  | VInt z, TUint32 => Ok (WriteUint32 z w)
  | VInt z, TUint16 => Ok (WriteUint16 z w)
  | VInt z, TUint8 => Ok (WriteUint8 z w)
  | VInt z, TUint => Ok (WriteUvarint z w)
  | VBool b, TBool => Ok (WriteUint8 (if b then 1 else 0) w)
  | VInt z, TFloat64 => Ok (if Unsafe o then WriteUint64 z w else wSetErr ErrFloatUnsafe w)
  | VInt z, TFloat32 => Ok (if Unsafe o then WriteUint32 z w else wSetErr ErrFloatUnsafe w)
  | _, _ => Panic
  end.

Definition write_elems (write : gval -> W -> res W) : list gval -> W -> res W :=
  fix elems vs w :=
    match vs with
    | [] => Ok w
    | v :: vs' => let! w := write v w in elems vs' w
    end.

Definition write_fields (write : gval -> Options -> rtype -> W -> res W)
    : list gval -> list (Options * rtype) -> W -> res W :=
  fix fields vs fs w :=
    match vs, fs with
    | [], [] => Ok w
    | v :: vs', (fo, ft) :: fs' => let! w := write v fo ft w in fields vs' fs' w
    | _, _ => Panic
    end.

(** [dr] is set after the one pointer dereference before the switch: the
    switch has no case for a pointer or an interface. *)
Fixpoint writeReflectBinary (v : gval) (rt : rtype) (o : Options) (dr : bool) (w : W) : res W :=
  match rt with
  | TInterface reg =>
      if dr then Panic else
      match v with
      | VNil => Ok (WriteByte 0 w)
      | VIface id crt cv =>
          match reg with
          | Some cts =>
              match TypeToByte cts id with
              | None => Ok (wSetErr ErrUnregistered w)
              | Some b =>
                  match crt, cv with
                  | TPtr _, VNil => Ok (wSetErr ErrNilPtr w)
                  | TPtr crt', VPtr cv' => writeReflectBinary cv' crt' o false (WriteByte b w)
                  | _, _ => writeReflectBinary cv crt o false (WriteByte b w)
                  end
              end
          | None => writeReflectBinary cv crt o false w
          end
      | _ => Panic
      end
  | TPtr t =>
      if dr then Panic else
      match v with
      | VNil => Ok (WriteByte 0 w)
      | VPtr v' => writeReflectBinary v' t o true (WriteByte 1 w)
      | _ => Panic
      end
  | TArray n t =>
      match v with
      | VBytes bz => if isUint8 t then Ok (WriteTo bz w) else Panic
      | VList vs =>
          if isUint8 t then Panic else
          write_elems (fun v => writeReflectBinary v t o false) vs w
      | _ => Panic
      end
  | TSlice t =>
      match v with
      | VBytes bz => if isUint8 t then Ok (WriteByteSlice bz w) else Panic
      | VList vs =>
          if isUint8 t then Panic else
          write_elems (fun v => writeReflectBinary v t o false) vs
            (WriteVarint (Z.of_nat (length vs)) w)
      | _ => Panic
      end
  | TStruct fs =>
      match v with
      | VStruct vs =>
          write_fields (fun v fo ft => writeReflectBinary v ft fo false) vs fs w
      | _ => Panic
      end
  | _ => write_scalar v rt o w
  end.

(** The zero value of a type; [time.Time{}.UnixNano()] is a fixed number. *)
Fixpoint zero_of (rt : rtype) : gval :=
  match rt with
  | TInterface _ | TPtr _ => VNil
  | TArray n t => if isUint8 t then VBytes (replicate n 0) else VList (replicate n (zero_of t))
  | TSlice t => if isUint8 t then VBytes [] else VList []
  | TStruct fs => VStruct (map (fun f => zero_of f.2) fs)
  | TTime => VInt (-6795364578871345152)
  | TString => VBytes []
  | TBool => VBool false
  | _ => VInt 0
  end.

Definition ret {A B} (f : A -> B) (p : A * R) : res (B * R) := Ok (f p.1, p.2).

Definition read_scalar (rt : rtype) (o : Options) (lmt : Z) (r : R) : res (gval * R) :=
  match rt with
  | TTime => let! p := ReadTime r in ret VInt p
  | TString => let! p := ReadString lmt r in ret VBytes p
  | TInt64 => ret VInt (if Varint o then ReadVarint r else ReadInt64 r)
  | TInt32 => ret (fun z => VInt (sgn 4 z)) (ReadUint32 r)
  | TInt16 => ret (fun z => VInt (sgn 2 z)) (ReadUint16 r)
  | TInt8 => ret (fun z => VInt (i8 z)) (ReadUint8 r)
  | TInt => ret VInt (ReadVarint r)
  | TUint64 => ret (fun z => VInt (u64 z)) (if Varint o then ReadVarint r else ReadUint64 r)
  | TUint32 => ret VInt (ReadUint32 r)
  | TUint16 => ret VInt (ReadUint16 r)
  | TUint8 => ret VInt (ReadUint8 r)
  | TUint => ret (fun z => VInt (u64 z)) (ReadVarint r)
  | TBool => ret (fun z => VBool (0 <? z)) (ReadUint8 r)
  | TFloat64 => if Unsafe o then ret VInt (ReadUint64 r) else Ok (VInt 0, setErr ErrFloatUnsafe r)
  | TFloat32 => if Unsafe o then ret VInt (ReadUint32 r) else Ok (VInt 0, setErr ErrFloatUnsafe r)
  | _ => Panic
  end.

(** The element loops stop at an error or beyond the limit; [acc] holds the
    elements read.  A slice is read in chunks of [ReadSliceChunkSize] only to
    bound its allocation. *)
Fixpoint read_elems (read : R -> res (gval * R)) (lmt : Z) (k : nat) (acc : list gval) (r : R)
    : res (list gval * R) :=
  match k with
  | O => Ok (acc, r)
  | S k' =>
      let! (v, r) := read r in
      let acc := acc ++ [v] in
      if failed r then Ok (acc, r)
      else if negb (lmt =? 0) && (lmt <? rn r) then Ok (acc, setErr ErrBinaryReadOverflow r)
      else read_elems read lmt k' acc r
  end.

Definition read_fields (read : Options -> rtype -> R -> res (gval * R))
    : list (Options * rtype) -> R -> res (list gval * R) :=
  fix fields fs r :=
    match fs with
    | [] => Ok ([], r)
    | (fo, ft) :: fs' =>
        let! (v, r) := read fo ft r in
        let! (vs, r) := fields fs' r in Ok (v :: vs, r)
    end.

(** The registered type with the type byte, or an error. *)
Definition read_registered (read : nat -> rtype -> res (gval * R)) (typeByte : Z) (r : R)
    : regs -> res (gval * R) :=
  fix find cts :=
    match cts with
    | [] => Ok (VNil, setErr ErrTypeByte r)
    | (b, id, crt) :: cts' => if b =? typeByte then read id crt else find cts'
    end.

Fixpoint readReflectBinary (rt : rtype) (o : Options) (dr : bool) (lmt : Z) (r : R) : res (gval * R) :=
  match rt with
  | TInterface reg =>
      if dr then Panic else
      match reg with
      | None => Ok (VNil, setErr ErrUnregistered r)
      | Some cts =>
          let '(typeByte, r) := ReadByte r in
          if failed r then Ok (VNil, r)
          else if typeByte =? 0 then Ok (VNil, r)
          else
            read_registered (fun id crt =>
                match crt with
                | TPtr crt' =>
                    let! (v, r) := readReflectBinary crt' o false lmt r in
                    Ok (VIface id crt (VPtr v), r)
                | _ =>
                    let! (v, r) := readReflectBinary crt o false lmt r in
                    Ok (VIface id crt v, r)
                end) typeByte r cts
      end
  | TPtr t =>
      if dr then Panic else
      let '(typeByte, r) := ReadByte r in
      if failed r then Ok (VNil, r)
      else if typeByte =? 0 then Ok (VNil, r)
      else if negb (typeByte =? 1) then Ok (VNil, setErr ErrPtrByte r)
      else let! (v, r) := readReflectBinary t o true lmt r in Ok (VPtr v, r)
  | TArray n t =>
      if isUint8 t then
        let '(buf, r) := ReadFull n r in
        Ok (VBytes (if failed r then replicate n 0 else buf), r)
      else
        let! (vs, r) := read_elems (readReflectBinary t o false lmt) lmt n [] r in
        Ok (VList (vs ++ replicate (n - length vs) (zero_of t)), r)
  | TSlice t =>
      if isUint8 t then let! p := ReadByteSlice lmt r in ret VBytes p
      else
        let '(length, r) := ReadVarint r in
        let! (vs, r') := read_elems (readReflectBinary t o false lmt) lmt (Z.to_nat length) [] r in
        Ok (VList (if failed r' then [] else vs), r')
  | TStruct fs =>
      let! (vs, r) := read_fields (fun fo ft => readReflectBinary ft fo false lmt) fs r in
      Ok (VStruct vs, r)
  | _ => read_scalar rt o lmt r
  end.

(** ** wire.go and util.go *)
Definition newW : W := mkW [] 0 None.
Definition WriteBinary (v : gval) (rt : rtype) (w : W) : res W :=
  writeReflectBinary v rt noOpts false w.

Definition BinaryBytes (v : gval) (rt : rtype) : res bytes :=
  let! w := WriteBinary v rt newW in
  match we w with Some _ => Panic | None => Ok (wout w) end.

Definition ReadBinaryPtr (rt : rtype) (lmt : Z) (r : R) : res (gval * R) :=
  let! (v, r) := readReflectBinary rt noOpts false lmt r in
  if negb (lmt =? 0) && (lmt <? rn r) && negb (failed r)
  then Ok (v, setErr ErrBinaryReadOverflow r) else Ok (v, r).

(** [ReadBinary] into a fresh [&T{}]: a nil pointer on the wire leaves it as
    it is. *)
Definition ReadBinary (t : rtype) (lmt : Z) (r : R) : res (gval * R) :=
  let! (v, r) := readReflectBinary (TPtr t) noOpts false lmt r in
  let v := match v with VNil => VPtr (zero_of t) | _ => v end in
  if negb (lmt =? 0) && (lmt <? rn r) && negb (failed r)
  then Ok (v, setErr ErrBinaryReadOverflow r) else Ok (v, r).

Definition ReadBinaryBytes (d : bytes) (rt : rtype) : res (gval * option werr) :=
  let! (v, r) := ReadBinaryPtr rt 0 (mkR d 0 None) in Ok (v, re r).

(** ** Well-typed values *)
Definition bits (k : Z) (z : Z) : Prop := 0 <= z < 2 ^ k.
Definition sbits (k : Z) (z : Z) : Prop := - 2 ^ (k - 1) <= z < 2 ^ (k - 1).

(** A time is stored in milliseconds; a float needs the [unsafe] option. *)
Definition scalar_ok (v : gval) (rt : rtype) (o : Options) : Prop :=
  match v, rt with
  | VBytes s, TString => Z.of_nat (length s) <= maxAlloc
  | VInt t, TTime => is_i64 t /\ Z.rem t 1000000 = 0
  | VInt z, TInt64 | VInt z, TInt => is_i64 z
  | VInt z, TInt32 => sbits 32 z
  | VInt z, TInt16 => sbits 16 z
  | VInt z, TInt8 => sbits 8 z
  | VInt z, TUint64 | VInt z, TUint => is_u64 z
  | VInt z, TUint32 => bits 32 z
  | VInt z, TUint16 => bits 16 z
  | VInt z, TUint8 => bits 8 z
  | VBool _, TBool => True
  | VInt z, TFloat64 => Unsafe o = true /\ is_u64 z
  | VInt z, TFloat32 => Unsafe o = true /\ bits 32 z
  | _, _ => False
  end.

Definition all_of (P : gval -> Prop) : list gval -> Prop :=
  fix all vs := match vs with [] => True | v :: vs' => P v /\ all vs' end.

Definition all_fields (P : gval -> Options -> rtype -> Prop)
    : list gval -> list (Options * rtype) -> Prop :=
  fix all vs fs :=
    match vs, fs with
    | [], [] => True
    | v :: vs', (fo, ft) :: fs' => P v fo ft /\ all vs' fs'
    | _, _ => False
    end.

Fixpoint wt (v : gval) (rt : rtype) (o : Options) (dr : bool) : Prop :=
  match rt with
  | TInterface None => False
  | TInterface (Some cts) =>
      dr = false /\
      match v with
      | VNil => True
      | VIface id crt cv =>
          (exists b, TypeToByte cts id = Some b /\ ByteToType cts b = Some (id, crt) /\ 0 < b < 256) /\
          match crt, cv with
          | TPtr _, VNil => False
          | TPtr crt', VPtr cv' => wt cv' crt' o false
          | _, _ => wt cv crt o false
          end
      | _ => False
      end
  | TPtr t => dr = false /\ match v with VNil => True | VPtr v' => wt v' t o true | _ => False end
  | TArray n t =>
      match v with
      | VBytes bz => isUint8 t = true /\ length bz = n
      | VList vs => isUint8 t = false /\ length vs = n /\ all_of (fun v => wt v t o false) vs
      | _ => False
      end
  | TSlice t =>
      match v with
      | VBytes bz => isUint8 t = true /\ Z.of_nat (length bz) <= maxAlloc
      | VList vs => isUint8 t = false /\ Z.of_nat (length vs) < 2 ^ 63 /\
                    all_of (fun v => wt v t o false) vs
      | _ => False
      end
  | TStruct fs =>
      match v with
      | VStruct vs => all_fields (fun v fo ft => wt v ft fo false) vs fs
      | _ => False
      end
  | _ => scalar_ok v rt o
  end.

(** ** Round trip *)
Definition writes_res (f : W -> res W) (bz : bytes) : Prop :=
  forall out n, exists n', f (mkW out n None) = Ok (mkW (out ++ bz) n' None).

(** [bz] is written for [v], and [v] is what is read back from it. *)
Definition codes (v : gval) (rt : rtype) (o : Options) (dr : bool) (bz : bytes) : Prop :=
  writes_res (writeReflectBinary v rt o dr) bz /\
  reads_lmt (readReflectBinary rt o dr) bz v.

Lemma reads_lmt_ret {A B} (f : R -> A * R) (g : A -> B) bz a :
  reads f bz a -> reads_lmt (fun _ r => ret g (f r)) bz (g a).
Proof. intros Hf lmt rest n _. by rewrite Hf. Qed.

Lemma lmt_ok_le lmt n a b : lmt_ok lmt n b -> (a <= b)%nat -> lmt_ok lmt n a.
Proof. unfold lmt_ok. lia. Qed.

Lemma lmt_ok_shift lmt n a b : lmt_ok lmt n (a + b) -> lmt_ok lmt (n + Z.of_nat a) b.
Proof. unfold lmt_ok. lia. Qed.

Lemma uns_id k z : bits (8 * Z.of_nat k) z -> uns k z = z.
Proof. intros. unfold uns. by apply Z.mod_small. Qed.

Lemma fixed_codes (v : gval) (wr : W -> W) (rd : R -> Z * R) (g : Z -> gval) (bz : bytes) (z : Z) :
  writes wr bz -> reads rd bz z -> g z = v ->
  writes_res (fun w => Ok (wr w)) bz /\ reads_lmt (fun _ r => ret g (rd r)) bz v.
Proof.
  intros Hw Hr <-. split; [|by apply reads_lmt_ret].
  intros out n. destruct (Hw out n) as [n' ->]. eauto.
Qed.

Lemma writes_uint8 b : bits 8 b -> writes (WriteUint8 b) [b].
Proof.
  intros Hb. unfold WriteUint8, WriteByte, u8. rewrite Z.mod_small by done. apply writes_WriteTo.
Qed.

Lemma reads_uint8 b : reads ReadUint8 [b] b.
Proof. intros rest n. apply ReadUint8_cons. Qed.

Lemma i8_u8 z : sbits 8 z -> i8 (u8 z) = z.
Proof.
  intros [? ?]. unfold i8, u8. change (8 - 1) with 7 in *.
  rewrite Z.add_mod_idemp_l by lia. rewrite Z.mod_small; lia.
Qed.

Lemma u64_of_i64 z : is_u64 z -> u64 (i64 z) = z.
Proof. intros. by rewrite u64_i64, u64_id. Qed.

Lemma scalar_codes v rt o :
  scalar_ok v rt o ->
  exists bz, writes_res (write_scalar v rt o) bz /\ reads_lmt (read_scalar rt o) bz v.
Proof.
  intros Hok. destruct v as [| | | | |s|z|b]; try done; destruct rt; try done; simpl in Hok.
  - exists (slice_bytes s). split.
    + intros out n. destruct (WriteByteSlice_bytes s Hok out n) as [n' Hn]. simpl. unfold WriteString. rewrite Hn. eauto.
    + intros lmt rest n Hl. unfold read_scalar, ReadString. by rewrite (ReadByteSlice_bytes s Hok lmt rest n Hl).
  - destruct Hok as [Hi Hr]. exists (time_bytes z). split.
    + intros out n. destruct (WriteTime_bytes z Hi out n) as [n' Hn]. simpl. rewrite Hn. eauto.
    + intros lmt rest n Hl. cbn [read_scalar]. rewrite (ReadTime_bytes z Hi lmt rest n Hl). simpl.
      unfold ret. simpl. do 3 f_equal. pose proof (Z.quot_rem' z 1000000). lia.
  - unfold write_scalar, read_scalar. destruct (Varint o).
    + eexists; eapply fixed_codes; [by apply WriteVarint_bytes|by apply ReadVarint_bytes|done].
    + exists (be_bytes 8 (uns 8 z)). eapply fixed_codes; [apply writes_fixed| |done].
      intros rest n. unfold ReadInt64. rewrite (reads_fixed 8 z rest n). rewrite sgn_uns; [done|lia|done].
  - eexists. eapply fixed_codes; [apply writes_fixed|apply reads_fixed|]. by rewrite sgn_uns by (done || lia).
  - eexists. eapply fixed_codes; [apply writes_fixed|apply reads_fixed|]. by rewrite sgn_uns by (done || lia).
  - eexists. eapply (fixed_codes _ _ _ _ [u8 z] (u8 z)); [apply writes_WriteTo|apply reads_uint8|].
    by rewrite i8_u8.
  - eexists. eapply fixed_codes; [by apply WriteVarint_bytes|by apply ReadVarint_bytes|done].
  - unfold write_scalar, read_scalar. destruct (Varint o); eexists.
    + eapply fixed_codes; [by apply WriteUvarint_bytes|by apply ReadVarint_uvarint|].
      by rewrite u64_of_i64.
    + eapply fixed_codes; [apply writes_fixed|apply reads_fixed|].
      rewrite uns_id by done. by rewrite u64_id.
  - eexists. eapply fixed_codes; [apply writes_fixed|apply reads_fixed|]. by rewrite uns_id.
  - eexists. eapply fixed_codes; [apply writes_fixed|apply reads_fixed|]. by rewrite uns_id.
  - eexists. eapply fixed_codes; [by apply writes_uint8|apply reads_uint8|done].
  - eexists. eapply fixed_codes; [by apply WriteUvarint_bytes|by apply ReadVarint_uvarint|].
    by rewrite u64_of_i64.
  - destruct Hok as [Ho ?]. unfold write_scalar, read_scalar. rewrite Ho.
    eexists. eapply fixed_codes; [apply writes_fixed|apply reads_fixed|]. by rewrite uns_id.
  - destruct Hok as [Ho ?]. unfold write_scalar, read_scalar. rewrite Ho.
    eexists. eapply fixed_codes; [apply writes_fixed|apply reads_fixed|]. by rewrite uns_id.
  - exists [if b then 1 else 0]. eapply fixed_codes; [|apply reads_uint8|by destruct b].
    apply writes_uint8. by destruct b.
Qed.

(** Induction over values with the components of lists, and the value behind
    a pointer. *)
Section gval_induction.
Variable P : gval -> Prop.
Hypothesis HNil : P VNil.
Hypothesis HIface : forall id crt v, P v -> (forall v', v = VPtr v' -> P v') -> P (VIface id crt v).
Hypothesis HPtr : forall v, P v -> P (VPtr v).
Hypothesis HList : forall vs, Forall P vs -> P (VList vs).
Hypothesis HStruct : forall vs, Forall P vs -> P (VStruct vs).
Hypothesis HBytes : forall bz, P (VBytes bz).
Hypothesis HInt : forall z, P (VInt z).
Hypothesis HBool : forall b, P (VBool b).

Lemma gval_ind_nested v : P v /\ (forall v', v = VPtr v' -> P v').
Proof.
  revert v. fix IH 1. intros v.
  assert (forall vs, Forall P vs) as Hvs.
  { fix IHs 1. intros [|v' vs]; constructor; [apply IH|apply IHs]. }
  destruct v as [|id crt v|v|vs|vs|bz|z|b]; (split; [|intros v' Hv'; try discriminate]).
  - exact HNil.
  - apply HIface; apply IH.
  - apply HPtr; apply IH.
  - injection Hv' as <-. apply IH.
  - apply HList, Hvs.
  - apply HStruct, Hvs.
  - apply HBytes.
  - apply HInt.
  - apply HBool.
Qed.
End gval_induction.

Lemma elems_codes t o vs :
  Forall (fun v => exists bz, codes v t o false bz) vs ->
  exists bz, writes_res (write_elems (fun v => writeReflectBinary v t o false) vs) bz /\
    forall lmt acc rest n, lmt_ok lmt n (length bz) ->
      read_elems (readReflectBinary t o false lmt) lmt (length vs) acc (mkR (bz ++ rest) n None)
      = Ok (acc ++ vs, mkR rest (n + Z.of_nat (length bz)) None).
Proof.
  induction 1 as [|v vs (b1 & Hw1 & Hr1) _ (b2 & Hw2 & Hr2)].
  - exists []. split; [intros out n; exists n; simpl; by rewrite (right_id_L [] (++))|].
    intros. simpl. rewrite (right_id_L [] (++)). do 3 f_equal. lia.
  - exists (b1 ++ b2). split.
    + intros out n. simpl. destruct (Hw1 out n) as [n1 ->]. simpl.
      destruct (Hw2 (out ++ b1) n1) as [n2 ->]. rewrite <- (assoc_L (++)). eauto.
    + intros lmt acc rest n Hl. rewrite length_app in *. cbn [length read_elems].
      rewrite <- (assoc_L (++)), Hr1 by (eapply lmt_ok_le; [done|lia]). cbn [rbind failed re rn].
      pose proof (lmt_ok_shift _ _ _ _ Hl) as Hl2.
      assert (negb (lmt =? 0) && (lmt <? n + Z.of_nat (length b1)) = false) as ->.
      { unfold lmt_ok in Hl2. destruct (Z.eqb_spec lmt 0); [done|]. simpl. apply Z.ltb_ge. lia. }
      rewrite Hr2 by done. rewrite <- (assoc_L (++)). do 3 f_equal. lia.
Qed.

Lemma fields_codes vs fs :
  Forall (fun v => forall rt o dr, wt v rt o dr -> exists bz, codes v rt o dr bz) vs ->
  all_fields (fun v fo ft => wt v ft fo false) vs fs ->
  exists bz, writes_res (write_fields (fun v fo ft => writeReflectBinary v ft fo false) vs fs) bz /\
    reads_lmt (fun lmt => read_fields (fun fo ft => readReflectBinary ft fo false lmt) fs) bz vs.
Proof.
  intros Hvs. revert fs. induction Hvs as [|v vs Hv _ IH]; intros [|[fo ft] fs] Hf; try done.
  - exists []. split; [intros out n; exists n; simpl; by rewrite (right_id_L [] (++))|].
    intros lmt rest n _. simpl. do 3 f_equal. lia.
  - destruct Hf as [Hwt Hf]. destruct (Hv _ _ _ Hwt) as (b1 & Hw1 & Hr1).
    destruct (IH fs Hf) as (b2 & Hw2 & Hr2). exists (b1 ++ b2). split.
    + intros out n. simpl. destruct (Hw1 out n) as [n1 ->]. simpl.
      destruct (Hw2 (out ++ b1) n1) as [n2 ->]. rewrite <- (assoc_L (++)). eauto.
    + intros lmt rest n Hl. rewrite length_app in *. cbn [read_fields].
      rewrite <- (assoc_L (++)), Hr1 by (eapply lmt_ok_le; [done|lia]). cbn [rbind].
      fold (read_fields (fun fo ft => readReflectBinary ft fo false lmt)).
      rewrite Hr2 by (by apply lmt_ok_shift). simpl. do 3 f_equal. lia.
Qed.

Lemma read_registered_find read b r cts id crt :
  ByteToType cts b = Some (id, crt) -> read_registered read b r cts = read id crt.
Proof.
  unfold ByteToType. induction cts as [|[[b' id'] crt'] cts IH]; [done|].
  change (read_registered read b r ((b', id', crt') :: cts))
    with (if b' =? b then read id' crt' else read_registered read b r cts).
  destruct (Z.eqb_spec b' b) as [->|Hne].
  - rewrite filter_cons_True by done. intros [=]; subst. done.
  - rewrite filter_cons_False by done. apply IH.
Qed.

Lemma ReadByte_cons b rest n : ReadByte (mkR (b :: rest) n None) = (b, mkR rest (n + 1) None).
Proof. done. Qed.

(** A value behind a type byte. *)
Lemma codes_byte v rt o dr b bz (inner : W -> res W) v' (rd : Z -> R -> res (gval * R)) (f : gval -> gval) :
  (forall w, writeReflectBinary v rt o dr w = inner (WriteByte b w)) ->
  writes_res inner bz ->
  (forall lmt rest n, readReflectBinary rt o dr lmt (mkR (b :: rest) n None) =
     let! (x, r) := rd lmt (mkR rest (n + 1) None) in Ok (f x, r)) ->
  reads_lmt rd bz v' -> f v' = v ->
  codes v rt o dr (b :: bz).
Proof.
  intros He Hi Hrd Hr <-. split.
  - intros out n. rewrite He. destruct (Hi (out ++ [b]) (n + Z.of_nat 1)) as [n' Hn].
    exists n'. rewrite <- (assoc_L (++)) in Hn. exact Hn.
  - intros lmt rest n Hl. rewrite <- app_comm_cons, Hrd.
    assert (lmt_ok lmt (n + 1) (length bz)) as Hl' by (unfold lmt_ok in *; simpl in *; lia).
    rewrite (Hr lmt rest _ Hl'). simpl. do 3 f_equal. lia.
Qed.

Lemma codes_nil rt o : wt VNil rt o false -> (exists t, rt = TPtr t) \/ (exists cts, rt = TInterface (Some cts)) ->
  codes VNil rt o false [0].
Proof.
  intros _ Hrt. split.
  - intros out n. destruct Hrt as [[t ->]|[cts ->]]; simpl; unfold WriteByte, WriteTo; simpl; eauto.
  - intros lmt rest n _. by destruct Hrt as [[t ->]|[cts ->]].
Qed.

Lemma codes_iface id crt v cts b o bz :
  TypeToByte cts id = Some b -> ByteToType cts b = Some (id, crt) -> 0 < b < 256 ->
  (match crt, v with
   | TPtr _, VNil => False
   | TPtr crt', VPtr v' => codes v' crt' o false bz
   | _, _ => (forall t, crt <> TPtr t) /\ codes v crt o false bz
   end) ->
  codes (VIface id crt v) (TInterface (Some cts)) o false (b :: bz).
Proof.
  intros Hb Ht Hr Hc.
  assert (forall lmt rest n, readReflectBinary (TInterface (Some cts)) o false lmt (mkR (b :: rest) n None) =
    match crt with
    | TPtr crt' => let! (v, r) := readReflectBinary crt' o false lmt (mkR rest (n + 1) None) in Ok (VIface id crt (VPtr v), r)
    | _ => let! (v, r) := readReflectBinary crt o false lmt (mkR rest (n + 1) None) in Ok (VIface id crt v, r)
    end) as Hread.
  { intros. cbn [readReflectBinary]. rewrite ReadByte_cons. cbn [failed re].
    destruct (Z.eqb_spec b 0); [lia|]. by rewrite (read_registered_find _ _ _ _ _ _ Ht). }
  destruct crt as [|crt'| | | | | | | | | | | | | | | | | | | ].
  2:{ destruct v as [| |v'| | | | |]; try done; try by destruct Hc as [Hne _]; destruct (Hne crt').
      eapply (codes_byte _ _ _ _ _ _ _ v' _ (fun x => VIface id (TPtr crt') (VPtr x))).
      - intros w. cbn [writeReflectBinary]. rewrite Hb. reflexivity.
      - apply Hc.
      - intros. apply Hread.
      - apply Hc.
      - done. }
  all: destruct Hc as [_ [Hw Hrd]];
    (eapply (codes_byte _ _ _ _ _ _ _ v _ (VIface id _));
      [intros w; cbn [writeReflectBinary]; rewrite Hb; reflexivity|exact Hw|intros; apply Hread|exact Hrd|done]).
Qed.

Lemma all_of_codes t o vs :
  Forall (fun v => forall rt o dr, wt v rt o dr -> exists bz, codes v rt o dr bz) vs ->
  all_of (fun v => wt v t o false) vs -> Forall (fun v => exists bz, codes v t o false bz) vs.
Proof. induction 1; [constructor|]. intros [? ?]. constructor; auto. Qed.

Lemma list_codes vs rt o dr :
  Forall (fun v => forall rt o dr, wt v rt o dr -> exists bz, codes v rt o dr bz) vs ->
  wt (VList vs) rt o dr -> exists bz, codes (VList vs) rt o dr bz.
Proof.
  intros Hvs Hwt. destruct rt; try done; simpl in Hwt.
  - by destruct registered, Hwt.
  - by destruct Hwt.
  - destruct Hwt as (Ht & Hlen & Hall).
    destruct (elems_codes _ _ _ (all_of_codes _ _ _ Hvs Hall)) as (bz & Hw & Hr).
    exists bz. split.
    + intros out n. cbn [writeReflectBinary]. rewrite Ht. apply Hw.
    + intros lmt rest n Hl. cbn [readReflectBinary]. rewrite Ht, <- Hlen.
      rewrite (Hr lmt [] rest n Hl). cbn [rbind app]. rewrite Nat.sub_diag. simpl.
      by rewrite (right_id_L [] (++)).
  - destruct Hwt as (Ht & Hlen & Hall).
    destruct (elems_codes _ _ _ (all_of_codes _ _ _ Hvs Hall)) as (bz & Hw & Hr).
    assert (is_i64 (Z.of_nat (length vs))) as Hi by (unfold is_i64; lia).
    exists (varint_bytes (Z.of_nat (length vs)) ++ bz). split.
    + intros out n. cbn [writeReflectBinary]. rewrite Ht.
      destruct (WriteVarint_bytes _ Hi out n) as [n1 ->].
      destruct (Hw (out ++ varint_bytes (Z.of_nat (length vs))) n1) as [n2 ->].
      rewrite <- (assoc_L (++)). eauto.
    + intros lmt rest n Hl. cbn [readReflectBinary]. rewrite Ht, <- (assoc_L (++)).
      rewrite (ReadVarint_bytes _ Hi _ n). rewrite Nat2Z.id. rewrite length_app in *.
      rewrite Hr by (by apply lmt_ok_shift). simpl. do 3 f_equal. lia.
Qed.

Lemma bytes_codes b rt o dr :
  wt (VBytes b) rt o dr -> exists bz, codes (VBytes b) rt o dr bz.
Proof.
  intros Hwt. destruct rt; try done; simpl in Hwt.
  - by destruct registered, Hwt.
  - by destruct Hwt.
  - destruct Hwt as (Ht & Hlen). exists b. split.
    + intros out n. cbn [writeReflectBinary]. rewrite Ht.
      destruct (writes_WriteTo b out n) as [n' ->]. eauto.
    + intros lmt rest n _. cbn [readReflectBinary]. rewrite Ht.
      by rewrite (reads_ReadFull len b Hlen rest n).
  - destruct Hwt as (Ht & Hlen). exists (slice_bytes b). split.
    + intros out n. cbn [writeReflectBinary]. rewrite Ht.
      destruct (WriteByteSlice_bytes b Hlen out n) as [n' ->]. eauto.
    + intros lmt rest n Hl. cbn [readReflectBinary]. rewrite Ht.
      by rewrite (ReadByteSlice_bytes b Hlen lmt rest n Hl).
  - by apply (scalar_codes (VBytes b) TString o).
Qed.

Lemma iface_codes id crt v rt o dr :
  (forall rt o dr, wt v rt o dr -> exists bz, codes v rt o dr bz) ->
  (forall v', v = VPtr v' -> forall rt o dr, wt v' rt o dr -> exists bz, codes v' rt o dr bz) ->
  wt (VIface id crt v) rt o dr -> exists bz, codes (VIface id crt v) rt o dr bz.
Proof.
  intros Hv Hv' Hwt. destruct rt as [[cts|]| | | | | | | | | | | | | | | | | | | |]; simpl in Hwt; try done.
  2:{ by destruct Hwt. }
  destruct Hwt as [-> [(b & Hb & Ht & Hr) Hwt]].
  destruct crt as [reg|crt'|k t|t|fs| | | | | | | | | | | | | | | |].
  2:{ destruct v as [| |v'| | | | |]; try done; try by destruct Hwt.
      destruct (Hv' v' eq_refl _ _ _ Hwt) as [bz Hc]. exists (b :: bz).
      by apply codes_iface. }
  all: destruct (Hv _ _ _ Hwt) as [bz Hc]; exists (b :: bz); apply codes_iface; by auto.
Qed.

Lemma codes_all v rt o dr : wt v rt o dr -> exists bz, codes v rt o dr bz.
Proof.
  revert rt o dr. apply (gval_ind_nested (fun v => forall rt o dr, wt v rt o dr -> exists bz, codes v rt o dr bz)).
  - intros rt o dr Hwt. destruct rt as [[cts|]|t| | | | | | | | | | | | | | | | | | |];
      simpl in Hwt; try done; destruct Hwt as [-> _]; exists [0]; apply codes_nil; by eauto.
  - intros id crt w Hw Hw' rt o dr. by apply iface_codes.
  - intros w IH rt o dr Hwt. destruct rt as [[cts|]|t| | | | | | | | | | | | | | | | | | |]; try done;
      destruct Hwt as [-> Hwt]; [done|].
    destruct (IH _ _ _ Hwt) as (bz & Hw & Hr). exists (1 :: bz).
    by apply (codes_byte _ _ _ _ _ _ (writeReflectBinary w t o true) w
      (fun lmt => readReflectBinary t o true lmt) VPtr).
  - intros vs IH rt o dr. by apply list_codes.
  - intros vs IH rt o dr Hwt. destruct rt as [[cts|]| | | |fs| | | | | | | | | | | | | | | |]; try done;
      try by destruct Hwt.
    destruct (fields_codes vs fs IH Hwt) as (bz & Hw & Hr). exists bz. split; [exact Hw|].
    intros lmt rest n Hl. cbn [readReflectBinary]. by rewrite (Hr lmt rest n Hl).
  - intros b rt o dr. apply bytes_codes.
  - intros z rt o dr Hwt. destruct rt as [[cts|]| | | |fs| | | | | | | | | | | | | | | |]; try done;
      try by destruct Hwt. all: exact (scalar_codes _ _ o Hwt).
  - intros b rt o dr Hwt. destruct rt as [[cts|]| | | |fs| | | | | | | | | | | | | | | |]; try done;
      try by destruct Hwt. all: exact (scalar_codes _ _ o Hwt).
Qed.

(** [BinaryBytes] of a well-typed value succeeds, and what it writes is read
    back, whatever follows, below any limit that leaves room. *)
Lemma BinaryBytes_codes v rt :
  wt v rt noOpts false ->
  exists bz, BinaryBytes v rt = Ok bz /\ reads_lmt (readReflectBinary rt noOpts false) bz v.
Proof.
  intros Hwt. destruct (codes_all _ _ _ _ Hwt) as (bz & Hw & Hr). exists bz. split; [|done].
  unfold BinaryBytes, WriteBinary, newW. destruct (Hw [] 0) as [n' ->]. done.
Qed.

(** No encoding is a prefix of another one, so concatenations parse. *)
Lemma BinaryBytes_prefix v1 v2 rt b1 b2 r1 r2 :
  wt v1 rt noOpts false -> wt v2 rt noOpts false ->
  BinaryBytes v1 rt = Ok b1 -> BinaryBytes v2 rt = Ok b2 ->
  b1 ++ r1 = b2 ++ r2 -> v1 = v2 /\ r1 = r2.
Proof.
  intros H1 H2 E1 E2 Heq.
  destruct (BinaryBytes_codes _ _ H1) as (b1' & E1' & R1).
  destruct (BinaryBytes_codes _ _ H2) as (b2' & E2' & R2).
  assert (b1' = b1) as -> by congruence. assert (b2' = b2) as -> by congruence.
  pose proof (R1 0 r1 0 (or_introl eq_refl)) as Q1. pose proof (R2 0 r2 0 (or_introl eq_refl)) as Q2.
  rewrite Heq in Q1. rewrite Q1 in Q2. by simplify_eq.
Qed.

(** C31: go-wire's binary encoding of a well-typed value, structs, pointers,
    interfaces, slices and scalars alike, succeeds; reading it with the type
    gives the value back, also when the bytes come first in a longer buffer,
    and then leaves the rest; and the encoding determines the value, no
    encoding being a proper prefix of another one's. *)
Theorem wire_roundtrip v rt rest :
  wt v rt noOpts false ->
  exists bz, BinaryBytes v rt = Ok bz /\ ReadBinaryBytes bz rt = Ok (v, None) /\
    ReadBinaryPtr rt 0 (mkR (bz ++ rest) 0 None) = Ok (v, mkR rest (Z.of_nat (length bz)) None) /\
    forall v' bz' rest', wt v' rt noOpts false -> BinaryBytes v' rt = Ok bz' -> bz' ++ rest' = bz ++ rest ->
      v' = v /\ rest' = rest.
Proof.
  intros Hwt. destruct (BinaryBytes_codes _ _ Hwt) as (bz & E & Hr). exists bz.
  assert (forall rest, ReadBinaryPtr rt 0 (mkR (bz ++ rest) 0 None) = Ok (v, mkR rest (Z.of_nat (length bz)) None)) as Hp.
  { intros rest'. unfold ReadBinaryPtr. rewrite (Hr 0 rest' 0 (or_introl eq_refl)). done. }
  split_and!; [done| |apply Hp|].
  - unfold ReadBinaryBytes. specialize (Hp []). rewrite app_nil_r in Hp. by rewrite Hp.
  - intros v' bz' rest' Hwt' E' Heq. by eapply BinaryBytes_prefix.
Qed.

(** A struct with a pointer, a byte slice and a negative integer. *)
Lemma wire_roundtrip_witness :
  let rt := TStruct [(noOpts, TPtr TInt64); (noOpts, TSlice TUint8); (noOpts, TInt)] in
  let v := VStruct [VPtr (VInt (-5)); VBytes [1; 2]; VInt (-300)] in
  exists bz, BinaryBytes v rt = Ok bz /\ ReadBinaryBytes bz rt = Ok (v, None).
Proof.
  destruct (wire_roundtrip (VStruct [VPtr (VInt (-5)); VBytes [1; 2]; VInt (-300)])
    (TStruct [(noOpts, TPtr TInt64); (noOpts, TSlice TUint8); (noOpts, TInt)]) []) as (bz & E & R & _).
  - vm_compute. repeat split; discriminate.
  - exists bz. exact (conj E R).
Defined.

End WireReflect.
