(* ===== verification/Types.v ===== *)
(** * gemmill/types and gemmill/go-crypto: the data the consensus exchanges

    Keys and signatures, part-set headers, block identifiers, votes and
    proposals, with the go-wire type of each (the argument of
    [wire.BinaryBytes]).  The hash functions and the signature schemes are
    third-party code: they are the operations of the class [Crypto]. *)
From S2P Require Import Prelude Wire WireReflect.
Import Wire WireReflect.

(** ** Third-party cryptography *)
Class Crypto := {
  ripemd160 : bytes -> bytes;
  keccak256 : bytes -> bytes;
  configured_sha256 : bool;
  ed25519_Verify : bytes -> bytes -> bytes -> bool;
  secp256k1_Verify : bytes -> bytes -> bytes -> bool
}.

(** go-hash/hash.go: [DoHash] is a variable set by [ConfigHasher]. *)
Definition DoHash `{Crypto} (bz : bytes) : bytes :=
  if configured_sha256 then keccak256 bz else ripemd160 bz.

Definition Keccak256Func `{Crypto} (bz : bytes) : bytes := keccak256 bz.

(** ** go-crypto: signatures and public keys *)
Inductive Signature :=
| SignatureEd25519 (bz : bytes)
| SignatureSecp256k1 (bz : bytes).

Inductive PubKey :=
| PubKeyEd25519 (bz : bytes)
| PubKeySecp256k1 (bz : bytes).

#[export] Instance Signature_eq_dec : EqDecision Signature.
Proof. solve_decision. Defined.
#[export] Instance PubKey_eq_dec : EqDecision PubKey.
Proof. solve_decision. Defined.

Definition sig_IsZero (s : Signature) : bool :=
  match s with
  | SignatureEd25519 _ => false
  | SignatureSecp256k1 bz => (length bz =? 0)%nat
  end.

Definition sig_Equals (s other : Signature) : bool :=
  match s, other with
  | SignatureEd25519 a, SignatureEd25519 b => bytes_eqb a b
  | SignatureSecp256k1 a, SignatureSecp256k1 b => bytes_eqb a b
  | _, _ => false
  end.

(** [Address]: the hash of the type byte and the length-prefixed key. *)
Definition Address `{Crypto} (pk : PubKey) : bytes :=
  let enc b key := DoHash (b :: wout (WriteByteSlice key newW)) in
  match pk with
  | PubKeyEd25519 key => enc 1 key
  | PubKeySecp256k1 key => enc 2 key
  end.

Definition VerifyBytes `{Crypto} (pk : PubKey) (msg : bytes) (sig : option Signature) : bool :=
  match pk, sig with
  | PubKeyEd25519 key, Some (SignatureEd25519 s) => ed25519_Verify key msg s
  | PubKeySecp256k1 key, Some (SignatureSecp256k1 s) => secp256k1_Verify key msg s
  | _, _ => false
  end.

Definition pk_Equals (pk other : PubKey) : bool :=
  match pk, other with
  | PubKeyEd25519 a, PubKeyEd25519 b => bytes_eqb a b
  | PubKeySecp256k1 a, PubKeySecp256k1 b => bytes_eqb a b
  | _, _ => false
  end.

(** Registrations: the type byte, the type's identity, the type. *)
Definition T_bytes : rtype := TSlice TUint8.
Definition T_Signature : rtype :=
  TInterface (Some [(1, 1%nat, TArray 64 TUint8); (2, 2%nat, T_bytes)]).
Definition T_PubKey : rtype :=
  TInterface (Some [(1, 3%nat, TArray 32 TUint8); (2, 4%nat, TArray 64 TUint8)]).

Definition sig_val (s : option Signature) : gval :=
  match s with
  | None => VNil
  | Some (SignatureEd25519 bz) => VIface 1 (TArray 64 TUint8) (VBytes bz)
  | Some (SignatureSecp256k1 bz) => VIface 2 T_bytes (VBytes bz)
  end.

Definition pk_val (pk : PubKey) : gval :=
  match pk with
  | PubKeyEd25519 bz => VIface 3 (TArray 32 TUint8) (VBytes bz)
  | PubKeySecp256k1 bz => VIface 4 (TArray 64 TUint8) (VBytes bz)
  end.

(** ** part_set.go: [PartSetHeader] *)
Record PartSetHeader := mkPSH { ps_Total : Z; ps_Hash : bytes }.

#[export] Instance PartSetHeader_eq_dec : EqDecision PartSetHeader.
Proof. solve_decision. Defined.

Definition psh_IsZero (psh : PartSetHeader) : bool := ps_Total psh =? 0.
Definition psh_Equals (psh other : PartSetHeader) : bool :=
  (ps_Total psh =? ps_Total other) && bytes_eqb (ps_Hash psh) (ps_Hash other).

Definition field (t : rtype) : Options * rtype := (noOpts, t).

Definition T_PartSetHeader : rtype := TStruct [field TInt; field T_bytes].
Definition psh_val (p : PartSetHeader) : gval := VStruct [VInt (ps_Total p); VBytes (ps_Hash p)].

(** ** block.go: [BlockID] *)
Record BlockID := mkBID { bid_Hash : bytes; bid_PartsHeader : PartSetHeader }.

#[export] Instance BlockID_eq_dec : EqDecision BlockID.
Proof. solve_decision. Defined.

Definition nilBlockID : BlockID := mkBID [] (mkPSH 0 []).

Definition bid_IsZero (b : BlockID) : bool :=
  (length (bid_Hash b) =? 0)%nat && psh_IsZero (bid_PartsHeader b).
Definition bid_Equals (b other : BlockID) : bool :=
  bytes_eqb (bid_Hash b) (bid_Hash other) &&
  psh_Equals (bid_PartsHeader b) (bid_PartsHeader other).

Definition T_BlockID : rtype := TStruct [field T_bytes; field T_PartSetHeader].
Definition bid_val (b : BlockID) : gval := VStruct [VBytes (bid_Hash b); psh_val (bid_PartsHeader b)].

(** [BinaryBytes] where it cannot fail (see [BinaryBytes_psh]). *)
Definition binary_bytes (v : gval) (rt : rtype) : bytes :=
  match BinaryBytes v rt with Ok bz => bz | Panic => [] end.

Definition Key (b : BlockID) : bytes :=
  bid_Hash b ++ binary_bytes (psh_val (bid_PartsHeader b)) T_PartSetHeader.

(** ** vote.go and proposal.go *)
Definition VoteTypePrevote : Z := 1.
Definition VoteTypePrecommit : Z := 2.

Definition IsVoteTypeValid (type_ : Z) : bool :=
  (type_ =? VoteTypePrevote) || (type_ =? VoteTypePrecommit).

Record Vote := mkVote {
  v_ValidatorAddress : bytes;
  v_ValidatorIndex : Z;
  v_Height : Z;
  v_Round : Z;
  v_Type : Z;
  v_BlockID : BlockID;
  v_Signature : option Signature
}.

#[export] Instance Vote_eq_dec : EqDecision Vote.
Proof. solve_decision. Defined.

Definition T_Vote : rtype :=
  TStruct [field T_bytes; field TInt; field TInt64; field TInt64; field TUint8;
           field T_BlockID; field T_Signature].
Definition vote_val (v : Vote) : gval :=
  VStruct [VBytes (v_ValidatorAddress v); VInt (v_ValidatorIndex v); VInt (v_Height v);
           VInt (v_Round v); VInt (v_Type v); bid_val (v_BlockID v); sig_val (v_Signature v)].

Record Proposal := mkProposal {
  p_Height : Z;
  p_Round : Z;
  p_BlockPartsHeader : PartSetHeader;
  p_POLRound : Z;
  p_POLBlockID : BlockID;
  p_Signature : option Signature
}.

#[export] Instance Proposal_eq_dec : EqDecision Proposal.
Proof. solve_decision. Defined.

Definition NewProposal (height round : Z) (parts : PartSetHeader) (polRound : Z) (polBlockID : BlockID)
    : Proposal :=
  mkProposal height round parts polRound polBlockID None.

Definition T_Proposal : rtype :=
  TStruct [field TInt64; field TInt64; field T_PartSetHeader; field TInt64; field T_BlockID;
           field T_Signature].
Definition proposal_val (p : Proposal) : gval :=
  VStruct [VInt (p_Height p); VInt (p_Round p); psh_val (p_BlockPartsHeader p);
           VInt (p_POLRound p); bid_val (p_POLBlockID p); sig_val (p_Signature p)].

(** ** Facts *)
Lemma psh_Equals_eq a b : psh_Equals a b = true <-> a = b.
Proof.
  unfold psh_Equals. rewrite andb_true_iff, Z.eqb_eq, bytes_eqb_eq.
  destruct a, b; simpl. naive_solver.
Qed.

Lemma bid_Equals_eq a b : bid_Equals a b = true <-> a = b.
Proof.
  unfold bid_Equals. rewrite andb_true_iff, bytes_eqb_eq, psh_Equals_eq.
  destruct a, b; simpl. naive_solver.
Qed.

(** What Go's types and its allocator guarantee of a value. *)
Definition psh_ok (p : PartSetHeader) : Prop :=
  is_i64 (ps_Total p) /\ Z.of_nat (length (ps_Hash p)) <= maxAlloc.
Definition bid_ok (b : BlockID) : Prop :=
  Z.of_nat (length (bid_Hash b)) <= maxAlloc /\ psh_ok (bid_PartsHeader b).
Definition sig_ok (s : option Signature) : Prop :=
  match s with
  | None => True
  | Some (SignatureEd25519 bz) => length bz = 64%nat
  | Some (SignatureSecp256k1 bz) => Z.of_nat (length bz) <= maxAlloc
  end.
Definition vote_ok (v : Vote) : Prop :=
  Z.of_nat (length (v_ValidatorAddress v)) <= maxAlloc /\ is_i64 (v_ValidatorIndex v) /\
  is_i64 (v_Height v) /\ is_i64 (v_Round v) /\ is_byte (v_Type v) /\ bid_ok (v_BlockID v) /\
  sig_ok (v_Signature v).

Lemma psh_wt p o : psh_ok p -> wt (psh_val p) T_PartSetHeader o false.
Proof. intros [? ?]. simpl. naive_solver. Qed.

Lemma bid_wt b o : bid_ok b -> wt (bid_val b) T_BlockID o false.
Proof. intros [? [? ?]]. simpl. naive_solver. Qed.

Lemma sig_wt s o : sig_ok s -> wt (sig_val s) T_Signature o false.
Proof.
  destruct s as [[bz|bz]|]; intros Hs; (split; [done|]); [| |done]; split; try (by repeat split);
    eexists; (split; [reflexivity|]); split; done || lia.
Qed.

Lemma vote_wt v o : vote_ok v -> wt (vote_val v) T_Vote o false.
Proof.
  intros (? & ? & ? & ? & ? & Hb & Hs).
  pose proof (bid_wt _ noOpts Hb). pose proof (sig_wt _ noOpts Hs).
  split_and!; done.
Qed.

(** The key of a block identifier determines it among identifiers whose block
    hashes have the same length. *)
Lemma Key_inj a b :
  bid_ok a -> bid_ok b -> length (bid_Hash a) = length (bid_Hash b) -> Key a = Key b -> a = b.
Proof.
  intros [_ Ha] [_ Hb] Hl. unfold Key, binary_bytes. intros Hk.
  apply app_inj_1 in Hk as [Hh Hk]; [|done].
  pose proof (psh_wt _ noOpts Ha) as Wa. pose proof (psh_wt _ noOpts Hb) as Wb.
  destruct (BinaryBytes_codes _ _ Wa) as (x & Ex & _). destruct (BinaryBytes_codes _ _ Wb) as (y & Ey & _).
  rewrite Ex, Ey in Hk. subst y.
  destruct (BinaryBytes_prefix _ _ _ _ _ [] [] Wa Wb Ex Ey eq_refl) as [Hv _].
  destruct a as [ha [ta pa]], b as [hb [tb pb]]. unfold psh_val in Hv. simpl in *. by simplify_eq.
Qed.
