(* ===== verification/SimpleTree.v ===== *)
(** * gemmill/modules/go-merkle/simple_tree.go

    The minimal-height merkle tree over a list of hashes, its proofs, and
    [types.Txs.Hash], which repeats it.  The proof nodes with their parent and
    sibling pointers live in an arena, as the code builds them. *)
From S2P Require Import Prelude Wire WireReflect Types.
Import Wire WireReflect.

(** Documented output sizes of the third-party hashes. *)
Class CryptoLaws `{Crypto} : Prop := {
  ripemd160_length : forall bz, length (ripemd160 bz) = 20%nat;
  keccak256_length : forall bz, length (keccak256 bz) = 32%nat
}.

(** A concrete instance, to evaluate the model: checksums of the documented
    sizes, and signatures that are the key followed by a checksum. *)
Definition checksum (k : nat) (bz : bytes) : bytes :=
  be_bytes k (fold_left (fun a b => (a * 31 + b + 1) mod 2 ^ 16) bz 0).

Definition sample_crypto : Crypto := {|
  ripemd160 := checksum 20;
  keccak256 := checksum 32;
  configured_sha256 := false;
  ed25519_Verify := fun key msg sig => bytes_eqb sig (key ++ checksum 32 msg);
  secp256k1_Verify := fun key msg sig => bytes_eqb sig (key ++ checksum 20 msg)
|}.

Lemma sample_crypto_laws : @CryptoLaws sample_crypto.
Proof. split; intros; apply be_bytes_length. Qed.

Module SimpleTree.
Section Tree.
Context `{Crypto}.

Definition pair_bytes (left right : bytes) : bytes :=
  wout (WriteByteSlice right (WriteByteSlice left newW)).

Definition SimpleHashFromTwoHashes (left right : bytes) : bytes := DoHash (pair_bytes left right).

(** [(len+1)/2] items go to the left. *)
Definition half (n : nat) : nat := ((n + 1) / 2)%nat.

Fixpoint hash_hashes (fuel : nat) (hashes : list bytes) : bytes :=
  match hashes with
  | [] => []
  | [h] => h
  | _ =>
      match fuel with
      | O => []
      | S fuel' =>
          let k := half (length hashes) in
          SimpleHashFromTwoHashes (hash_hashes fuel' (take k hashes)) (hash_hashes fuel' (drop k hashes))
      end
  end.

Definition SimpleHashFromHashes (hashes : list bytes) : bytes := hash_hashes (length hashes) hashes.

(** [hash.DoHash] of the go-wire encoding. *)
Definition SimpleHashFromBinary (v : gval) (rt : rtype) : res bytes :=
  let! bz := BinaryBytes v rt in Ok (DoHash bz).

Fixpoint hash_binaries (items : list (gval * rtype)) : res (list bytes) :=
  match items with
  | [] => Ok []
  | (v, rt) :: items' =>
      let! h := SimpleHashFromBinary v rt in
      let! hs := hash_binaries items' in Ok (h :: hs)
  end.

Definition SimpleHashFromBinaries (items : list (gval * rtype)) : res bytes :=
  let! hs := hash_binaries items in Ok (SimpleHashFromHashes hs).

(** A [KVPair] whose value is not itself [Hashable]. *)
Definition KVPair_Hash (kv : bytes * (gval * rtype)) : res bytes :=
  let '(k, (v, rt)) := kv in
  let! w := writeReflectBinary v rt noOpts false (WriteString k newW) in
  match we w with Some _ => Panic | None => Ok (DoHash (wout w)) end.

Fixpoint insert_kv (kv : bytes * (gval * rtype)) (l : list (bytes * (gval * rtype)))
    : list (bytes * (gval * rtype)) :=
  match l with
  | [] => [kv]
  | x :: l' => if bytes_ltb kv.1 x.1 then kv :: x :: l' else x :: insert_kv kv l'
  end.

(** [MakeSortedKVPairs]: the keys of a Go map are distinct, so the sorted
    order does not depend on the iteration order. *)
Definition MakeSortedKVPairs (m : list (bytes * (gval * rtype))) : list (bytes * (gval * rtype)) :=
  foldr insert_kv [] m.

Fixpoint hash_kvs (kvs : list (bytes * (gval * rtype))) : res (list bytes) :=
  match kvs with
  | [] => Ok []
  | kv :: kvs' =>
      let! h := KVPair_Hash kv in let! hs := hash_kvs kvs' in Ok (h :: hs)
  end.

Definition SimpleHashFromMap (m : list (bytes * (gval * rtype))) : res bytes :=
  let! hs := hash_kvs (MakeSortedKVPairs m) in Ok (SimpleHashFromHashes hs).

(** ** Proofs *)

(** The aunts from last to first: the recursion takes the last one off. *)
Fixpoint compute_aunts (leafHash : bytes) (rev_inner : list bytes) (index total : Z)
    : res (option bytes) :=
  if total <=? index then Ok None
  else if total =? 0 then Panic
  else if total =? 1 then Ok (match rev_inner with [] => Some leafHash | _ => None end)
  else
    match rev_inner with
    | [] => Ok None
    | last :: rest =>
        let numLeft := Z.quot (total + 1) 2 in
        if index <? numLeft then
          let! l := compute_aunts leafHash rest index numLeft in
          Ok (match l with None => None | Some l => Some (SimpleHashFromTwoHashes l last) end)
        else
          let! r := compute_aunts leafHash rest (index - numLeft) (total - numLeft) in
          Ok (match r with None => None | Some r => Some (SimpleHashFromTwoHashes last r) end)
    end.

Definition computeHashFromAunts (index total : Z) (leafHash : bytes) (innerHashes : list bytes)
    : res (option bytes) :=
  compute_aunts leafHash (rev innerHashes) index total.

Definition Verify (aunts : list bytes) (index total : Z) (leafHash rootHash : bytes) : res bool :=
  let! c := computeHashFromAunts index total leafHash aunts in
  Ok (match c with None => false | Some h => bytes_eqb h rootHash end).

Definition GenRoot (aunts : list bytes) (index total : Z) (leafHash : bytes) : res (option bytes) :=
  computeHashFromAunts index total leafHash aunts.

Record SimpleProofNode := mkSPN {
  spn_Hash : bytes;
  spn_Parent : option nat;
  spn_Left : option nat;
  spn_Right : option nat
}.

Definition node_hash (ar : list SimpleProofNode) (p : nat) : bytes :=
  match ar !! p with Some n => spn_Hash n | None => [] end.

(** [FlattenAunts]: up the parent pointers until a node without sibling. *)
Fixpoint flatten_loop (fuel : nat) (ar : list SimpleProofNode) (spn : option nat) : list bytes :=
  match fuel with
  | O => []
  | S fuel' =>
      match spn ≫= (ar !!.) with
      | None => []
      | Some n =>
          match spn_Left n, spn_Right n with
          | Some l, _ => node_hash ar l :: flatten_loop fuel' ar (spn_Parent n)
          | None, Some r => node_hash ar r :: flatten_loop fuel' ar (spn_Parent n)
          | None, None => []
          end
      end
  end.

Definition FlattenAunts (ar : list SimpleProofNode) (p : nat) : list bytes :=
  flatten_loop (S (length ar)) ar (Some p).

(** [leftRoot.Parent = root; leftRoot.Right = rightRoot] and its mirror. *)
Definition link_left (ar : list SimpleProofNode) (l root r : nat) : list SimpleProofNode :=
  alter (fun n => mkSPN (spn_Hash n) (Some root) (spn_Left n) (Some r)) l ar.
Definition link_right (ar : list SimpleProofNode) (r root l : nat) : list SimpleProofNode :=
  alter (fun n => mkSPN (spn_Hash n) (Some root) (Some l) (spn_Right n)) r ar.

(** [items] are the hashes of the items.  Returns the trails, the root and
    the arena. *)
Fixpoint trailsFromHashables (fuel : nat) (items : list bytes) (ar : list SimpleProofNode)
    : res (list nat * option nat * list SimpleProofNode) :=
  match items with
  | [] => Ok ([], None, ar)
  | [h] => Ok ([length ar], Some (length ar), ar ++ [mkSPN h None None None])
  | _ =>
      match fuel with
      | O => Panic
      | S fuel' =>
          let k := half (length items) in
          let! (lefts, leftRoot, ar) := trailsFromHashables fuel' (take k items) ar in
          let! (rights, rightRoot, ar) := trailsFromHashables fuel' (drop k items) ar in
          let! l := deref leftRoot in
          let! r := deref rightRoot in
          let rootHash := SimpleHashFromTwoHashes (node_hash ar l) (node_hash ar r) in
          let root := length ar in
          let ar := ar ++ [mkSPN rootHash None None None] in
          Ok (lefts ++ rights, Some root, link_right (link_left ar l root r) r root l)
      end
  end.

(** The root hash and the aunts of each proof; [None] for no items. *)
Definition SimpleProofsFromHashables (items : list bytes) : res (option (bytes * list (list bytes))) :=
  let! (trails, rootSPN, ar) := trailsFromHashables (length items) items [] in
  match trails with
  | [] => Ok None
  | _ => let! r := deref rootSPN in Ok (Some (node_hash ar r, map (FlattenAunts ar) trails))
  end.

(** ** The tree by its recursion equation *)
Lemma half_bounds n : (2 <= n)%nat -> (0 < half n < n)%nat /\ (n - half n <= half n)%nat.
Proof.
  intros Hn. unfold half. pose proof (Nat.div_mod (n + 1) 2 ltac:(lia)).
  pose proof (Nat.mod_upper_bound (n + 1) 2 ltac:(lia)). lia.
Qed.

Lemma half_lengths {A} (l : list A) : (2 <= length l)%nat ->
  length (take (half (length l)) l) = half (length l) /\
  length (drop (half (length l)) l) = (length l - half (length l))%nat.
Proof. intros Hl. pose proof (half_bounds _ Hl). rewrite length_take, length_drop. lia. Qed.

Lemma hash_hashes_fuel f g hs : (length hs <= f)%nat -> (length hs <= g)%nat ->
  hash_hashes f hs = hash_hashes g hs.
Proof.
  revert g hs. induction f as [|f IH]; intros g hs Hf Hg.
  - destruct hs; [by destruct g|simpl in *; lia].
  - destruct hs as [|h [|h' hs]]; [by destruct g|by destruct g|].
    destruct g as [|g]; [simpl in *; lia|].
    cbn [hash_hashes]. set (l := h :: h' :: hs) in *. cbv zeta.
    assert (2 <= length l)%nat as Hl by (simpl; lia).
    pose proof (half_bounds _ Hl). pose proof (half_lengths _ Hl) as [L1 L2].
    f_equal; apply IH; lia.
Qed.

Lemma hashes_two hs : (2 <= length hs)%nat ->
  SimpleHashFromHashes hs =
    SimpleHashFromTwoHashes (SimpleHashFromHashes (take (half (length hs)) hs))
      (SimpleHashFromHashes (drop (half (length hs)) hs)).
Proof.
  intros Hl. pose proof (half_bounds _ Hl). pose proof (half_lengths _ Hl) as [L1 L2].
  unfold SimpleHashFromHashes at 1.
  destruct hs as [|h [|h' hs]]; [simpl in *; lia..|].
  set (l := h :: h' :: hs) in *. destruct (length l) as [|f] eqn:E; [lia|].
  change (hash_hashes (S f) l) with
    (SimpleHashFromTwoHashes (hash_hashes f (take (half (length l)) l))
       (hash_hashes f (drop (half (length l)) l))). rewrite E in *.
  f_equal; apply hash_hashes_fuel; lia.
Qed.

(** The aunts of leaf [i], read off the recursion. *)
Fixpoint aunts (fuel : nat) (hs : list bytes) (i : nat) : list bytes :=
  match fuel with
  | O => []
  | S fuel' =>
      if (length hs <=? 1)%nat then []
      else
        let k := half (length hs) in
        if (i <? k)%nat then aunts fuel' (take k hs) i ++ [SimpleHashFromHashes (drop k hs)]
        else aunts fuel' (drop k hs) (i - k) ++ [SimpleHashFromHashes (take k hs)]
  end.

Lemma aunts_length fuel hs i : (length hs <= fuel)%nat -> (length (aunts fuel hs i) <= length hs - 1)%nat.
Proof.
  revert hs i. induction fuel as [|fuel IH]; intros hs i Hf; cbn [aunts]; [simpl; lia|].
  destruct (Nat.leb_spec (length hs) 1); [simpl; lia|]. cbv zeta.
  pose proof (half_bounds (length hs) ltac:(lia)). pose proof (half_lengths hs ltac:(lia)) as [L1 L2].
  destruct (Nat.ltb_spec i (half (length hs))); rewrite length_app; simpl.
  - pose proof (IH (take (half (length hs)) hs) i ltac:(lia)). lia.
  - pose proof (IH (drop (half (length hs)) hs) (i - half (length hs))%nat ltac:(lia)). lia.
Qed.

Lemma quot_half (n : nat) : Z.quot (Z.of_nat n + 1) 2 = Z.of_nat (half n).
Proof.
  unfold half. rewrite Nat2Z.inj_div, Nat2Z.inj_add. rewrite Z.quot_div_nonneg by lia. done.
Qed.

(** Folding the aunts of a leaf gives the root. *)
Lemma compute_aunts_root fuel hs i h :
  (length hs <= fuel)%nat -> hs !! i = Some h ->
  compute_aunts h (rev (aunts fuel hs i)) (Z.of_nat i) (Z.of_nat (length hs))
  = Ok (Some (SimpleHashFromHashes hs)).
Proof.
  revert hs i. induction fuel as [|fuel IH]; intros hs i Hf Hi;
    apply lookup_lt_Some in Hi as Hlt; [lia|].
  cbn [aunts]. destruct (Nat.leb_spec (length hs) 1).
  { destruct hs as [|x [|y hs]]; [simpl in *; lia| |simpl in *; lia].
    destruct i; [|simpl in *; lia]. by simplify_eq/=. }
  cbv zeta. pose proof (half_bounds (length hs) ltac:(lia)).
  pose proof (half_lengths hs ltac:(lia)) as [L1 L2]. rewrite (hashes_two hs) by lia.
  set (k := half (length hs)) in *.
  destruct (Nat.ltb_spec i k); rewrite rev_app_distr; cbn [rev app compute_aunts];
    (destruct (Z.leb_spec (Z.of_nat (length hs)) (Z.of_nat i)); [lia|]);
    (destruct (Z.eqb_spec (Z.of_nat (length hs)) 0); [lia|]);
    (destruct (Z.eqb_spec (Z.of_nat (length hs)) 1); [lia|]);
    rewrite quot_half; fold k;
    (destruct (Z.ltb_spec (Z.of_nat i) (Z.of_nat k)); [|]); try lia.
  - rewrite <- L1 at 2. rewrite IH; [done|lia|]. by rewrite lookup_take_lt.
  - replace (Z.of_nat i - Z.of_nat k) with (Z.of_nat (i - k)) by lia.
    replace (Z.of_nat (length hs) - Z.of_nat k) with (Z.of_nat (length (drop k hs))) by lia.
    rewrite IH; [done|lia|]. rewrite lookup_drop. by replace (k + (i - k))%nat with i by lia.
Qed.

(** ** The arena holds, for each leaf, a path of siblings to the root *)
Inductive path (ar : list SimpleProofNode) : nat -> nat -> list bytes -> Prop :=
| path_root p : path ar p p []
| path_left p n l q root hs :
    ar !! p = Some n -> spn_Left n = Some l -> spn_Parent n = Some q -> (l < length ar)%nat ->
    path ar q root hs -> path ar p root (node_hash ar l :: hs)
| path_right p n r q root hs :
    ar !! p = Some n -> spn_Left n = None -> spn_Right n = Some r -> spn_Parent n = Some q ->
    (r < length ar)%nat ->
    path ar q root hs -> path ar p root (node_hash ar r :: hs).

Lemma path_app ar p q root a b : path ar p q a -> path ar q root b -> path ar p root (a ++ b).
Proof. induction 1; intros; simpl; [done|eapply path_left; eauto|eapply path_right; eauto]. Qed.

Lemma path_flatten ar p root hs n fuel :
  path ar p root hs -> ar !! root = Some n -> spn_Left n = None -> spn_Right n = None ->
  (length hs < fuel)%nat -> flatten_loop fuel ar (Some p) = hs.
Proof.
  intros Hp Hr Hl Hrt. revert fuel. induction Hp as [p|p m l q root hs Hm HL HP Hlt Hp IH|p m r q root hs Hm HL HR HP Hlt Hp IH];
    intros [|fuel] Hf; try (simpl in Hf; lia); cbn [flatten_loop]; simpl.
  - by rewrite Hr, Hl, Hrt.
  - rewrite Hm, HL, HP. f_equal. apply IH; [done|simpl in Hf; lia].
  - rewrite Hm, HL, HR, HP. f_equal. apply IH; [done|simpl in Hf; lia].
Qed.

(** A path survives changes to the links of nodes without siblings, to nodes
    outside [lo, hi) and at the end of the arena. *)
Lemma path_frame ar ar' p root hs :
  path ar p root hs ->
  (length ar <= length ar')%nat ->
  (forall j, (j < length ar)%nat -> node_hash ar' j = node_hash ar j) ->
  (forall j n, ar !! j = Some n -> spn_Left n <> None \/ spn_Right n <> None -> ar' !! j = Some n) ->
  path ar' p root hs.
Proof.
  intros Hp Hlen Hh Hn. induction Hp as [p|p m l q root hs Hm HL HP Hlt Hp IH|p m r q root hs Hm HL HR HP Hlt Hp IH].
  - constructor.
  - rewrite <- Hh by done. eapply path_left; eauto; [|lia]. eapply Hn; eauto. left. by rewrite HL.
  - rewrite <- Hh by done. eapply path_right; eauto; [|lia]. eapply Hn; eauto. right. by rewrite HR.
Qed.

(** What [trailsFromHashables] promises of the arena it extends. *)
Definition trails_ok (ar ar' : list SimpleProofNode) (items : list bytes) (ps : list nat) (root : nat) : Prop :=
  (length ar' = length ar + 2 * length items - 1)%nat /\
  (forall j, (j < length ar)%nat -> ar' !! j = ar !! j) /\
  (length ar <= root)%nat /\
  ar' !! root = Some (mkSPN (SimpleHashFromHashes items) None None None) /\
  length ps = length items /\
  (forall i p, ps !! i = Some p -> path ar' p root (aunts (length items) items i)).

Lemma aunts_fuel f g hs i : (length hs <= f)%nat -> (length hs <= g)%nat -> aunts f hs i = aunts g hs i.
Proof.
  revert g hs i. induction f as [|f IH]; intros g hs i Hf Hg.
  { destruct hs; [|simpl in *; lia]. by destruct g. }
  destruct g as [|g]; [destruct hs; [done|simpl in *; lia]|]. cbn [aunts].
  destruct (Nat.leb_spec (length hs) 1); [done|]. cbv zeta.
  pose proof (half_bounds (length hs) ltac:(lia)). pose proof (half_lengths hs ltac:(lia)) as [L1 L2].
  case_match; f_equal; apply IH; lia.
Qed.

(** The arena after the two halves are linked below a new root. *)
Definition linked (ar : list SimpleProofNode) (l r : nat) (h : bytes) : list SimpleProofNode :=
  link_right (link_left (ar ++ [mkSPN h None None None]) l (length ar) r) r (length ar) l.

Lemma linked_length ar l r h : length (linked ar l r h) = S (length ar).
Proof. unfold linked, link_right, link_left. rewrite !length_alter, length_app. simpl. lia. Qed.

Lemma linked_other ar l r h j : j <> l -> j <> r -> (j < length ar)%nat ->
  linked ar l r h !! j = ar !! j.
Proof.
  intros. unfold linked, link_right, link_left. rewrite !list_lookup_alter_ne by done.
  by rewrite lookup_app_l.
Qed.

Lemma linked_left ar l r h n : l <> r -> ar !! l = Some n ->
  linked ar l r h !! l = Some (mkSPN (spn_Hash n) (Some (length ar)) (spn_Left n) (Some r)).
Proof.
  intros Hne Hl. apply lookup_lt_Some in Hl as Hlt. unfold linked, link_right, link_left.
  rewrite list_lookup_alter_ne by done. rewrite list_lookup_alter_eq, lookup_app_l by done. by rewrite Hl.
Qed.

Lemma linked_right ar l r h n : l <> r -> ar !! r = Some n ->
  linked ar l r h !! r = Some (mkSPN (spn_Hash n) (Some (length ar)) (Some l) (spn_Right n)).
Proof.
  intros Hne Hr. apply lookup_lt_Some in Hr as Hlt. unfold linked, link_right, link_left.
  rewrite list_lookup_alter_eq, list_lookup_alter_ne by done. rewrite lookup_app_l by done. by rewrite Hr.
Qed.

Lemma linked_new ar l r h : (l < length ar)%nat -> (r < length ar)%nat ->
  linked ar l r h !! length ar = Some (mkSPN h None None None).
Proof.
  intros. unfold linked, link_right, link_left. rewrite !list_lookup_alter_ne by lia.
  by rewrite lookup_app_r, Nat.sub_diag by lia.
Qed.

Lemma linked_hash ar l r h j : (j < length ar)%nat -> node_hash (linked ar l r h) j = node_hash ar j.
Proof.
  intros Hj. unfold node_hash, linked, link_right, link_left.
  rewrite !list_lookup_alter.
  repeat case_decide; subst; rewrite lookup_app_l by done; by destruct (ar !! _).
Qed.

Lemma path_linked ar l r h p root hs :
  ar !! l = Some (mkSPN (node_hash ar l) None None None) ->
  ar !! r = Some (mkSPN (node_hash ar r) None None None) ->
  path ar p root hs -> path (linked ar l r h) p root hs.
Proof.
  intros Hl Hr Hp. eapply path_frame; [done|rewrite linked_length; lia|apply linked_hash|].
  intros j n Hj Hs. apply lookup_lt_Some in Hj as Hlt.
  rewrite linked_other; [done| | |done]; intros ->; simplify_eq; naive_solver.
Qed.

Lemma path_extend ar ar' p root hs :
  path ar p root hs -> (length ar <= length ar')%nat ->
  (forall j, (j < length ar)%nat -> ar' !! j = ar !! j) -> path ar' p root hs.
Proof.
  intros Hp Hlen Hf. eapply path_frame; [done|done| |].
  - intros j Hj. unfold node_hash. by rewrite Hf.
  - intros j n Hj _. apply lookup_lt_Some in Hj as ?. by rewrite Hf.
Qed.

Lemma node_hash_lookup ar p n : ar !! p = Some n -> node_hash ar p = spn_Hash n.
Proof. unfold node_hash. by intros ->. Qed.

(** Two finished halves, linked below their root. *)
Lemma trails_link ar ar1 ar2 items ps qs l r :
  (2 <= length items)%nat ->
  trails_ok ar ar1 (take (half (length items)) items) ps l ->
  trails_ok ar1 ar2 (drop (half (length items)) items) qs r ->
  let h := SimpleHashFromTwoHashes (node_hash ar2 l) (node_hash ar2 r) in
  trails_ok ar (linked ar2 l r h) items (ps ++ qs) (length ar2).
Proof.
  intros H2 (N1 & F1 & B1 & R1 & L1 & P1) (N2 & F2 & B2 & R2 & L2 & P2) h.
  pose proof (half_bounds _ H2) as [? ?]. pose proof (half_lengths _ H2) as [K1 K2].
  rewrite K1 in N1, L1. rewrite K2 in N2, L2. set (k := half (length items)) in *.
  apply lookup_lt_Some in R1 as Hl1. apply lookup_lt_Some in R2 as Hr2.
  assert (ar2 !! l = Some (mkSPN (SimpleHashFromHashes (take k items)) None None None)) as Rl by (by rewrite F2).
  pose proof (node_hash_lookup _ _ _ Rl) as Hhl. pose proof (node_hash_lookup _ _ _ R2) as Hhr. simpl in Hhl, Hhr.
  assert (l <> r) as Hlr by lia. assert (l < length ar2)%nat as Hl2 by lia.
  split_and!.
  - rewrite linked_length. lia.
  - intros j Hj. rewrite linked_other by lia. rewrite F2 by lia. by apply F1.
  - lia.
  - rewrite linked_new by done. unfold h. rewrite Hhl, Hhr. by rewrite (hashes_two items).
  - rewrite length_app. lia.
  - intros i p Hi. rewrite <- Hhl in Rl. rewrite <- Hhr in R2.
    assert (path (linked ar2 l r h) l (length ar2) [node_hash ar2 r]) as Hpl.
    { rewrite <- (linked_hash ar2 l r h r) by done. eapply path_right.
      - by apply linked_left.
      - done.
      - done.
      - done.
      - rewrite linked_length. lia.
      - constructor. }
    assert (path (linked ar2 l r h) r (length ar2) [node_hash ar2 l]) as Hpr.
    { rewrite <- (linked_hash ar2 l r h l) by done. eapply path_left.
      - by apply linked_right.
      - done.
      - done.
      - rewrite linked_length. lia.
      - constructor. }
    destruct (length items) as [|m] eqn:Em; [lia|]. cbn [aunts]. rewrite Em.
    destruct (Nat.leb_spec (S m) 1); [lia|]. fold k. cbv zeta.
    apply lookup_app_Some in Hi as [Hi|[Hge Hi]].
    + apply lookup_lt_Some in Hi as Hik. destruct (Nat.ltb_spec i k); [|lia].
      eapply path_app; [|rewrite <- Hhr; exact Hpl]. apply path_linked; [done..|].
      apply (path_extend ar1); [|lia|done]. rewrite (aunts_fuel m (length (take k items))) by lia. by apply P1.
    + apply lookup_lt_Some in Hi as Hik. destruct (Nat.ltb_spec i k); [lia|].
      eapply path_app; [|rewrite <- Hhl; exact Hpr]. apply path_linked; [done..|].
      rewrite (aunts_fuel m (length (drop k items))) by lia. apply P2. by rewrite <- L1.
Qed.

Lemma trails_spec fuel items ar :
  (length items <= fuel)%nat -> items <> [] ->
  exists ps root ar', trailsFromHashables fuel items ar = Ok (ps, Some root, ar') /\
    trails_ok ar ar' items ps root.
Proof.
  revert items ar. induction fuel as [|fuel IH]; intros items ar Hf Hne.
  { destruct items; [done|simpl in *; lia]. }
  destruct items as [|h [|h' items]]; [done| |].
  - exists [length ar], (length ar), (ar ++ [mkSPN h None None None]). split; [done|]. split_and!.
    + rewrite length_app. simpl. lia.
    + intros j Hj. by rewrite lookup_app_l.
    + lia.
    + by rewrite lookup_app_r, Nat.sub_diag by lia.
    + done.
    + intros i p Hi. apply list_lookup_singleton_Some in Hi as [-> <-]. constructor.
  - set (l := h :: h' :: items) in *. assert (2 <= length l)%nat as H2 by (simpl; lia).
    pose proof (half_bounds _ H2) as [? ?]. pose proof (half_lengths _ H2) as [K1 K2].
    change (trailsFromHashables (S fuel) l ar) with
     (let! (lefts, leftRoot, ar) := trailsFromHashables fuel (take (half (length l)) l) ar in
      let! (rights, rightRoot, ar) := trailsFromHashables fuel (drop (half (length l)) l) ar in
      let! x := deref leftRoot in
      let! y := deref rightRoot in
      Ok (lefts ++ rights, Some (length ar),
        linked ar x y (SimpleHashFromTwoHashes (node_hash ar x) (node_hash ar y)))).
    clearbody l. destruct (IH (take (half (length l)) l) ar) as (ps & x & ar1 & -> & T1); [lia| |].
    { intros E. rewrite E in K1. simpl in K1. lia. }
    cbn [rbind]. destruct (IH (drop (half (length l)) l) ar1) as (qs & y & ar2 & -> & T2); [lia| |].
    { intros E. rewrite E in K2. simpl in K2. lia. }
    cbn [rbind deref]. do 3 eexists. split; [reflexivity|]. by apply (trails_link ar ar1 ar2).
Qed.

(** The root of the proofs is the tree hash, and every proof carries the
    aunts of its leaf. *)
Lemma SimpleProofs_spec items :
  items <> [] ->
  exists proofs, SimpleProofsFromHashables items = Ok (Some (SimpleHashFromHashes items, proofs)) /\
    length proofs = length items /\
    forall i pf, proofs !! i = Some pf -> pf = aunts (length items) items i.
Proof.
  intros Hne. destruct (trails_spec (length items) items []) as (ps & root & ar & E & T); [lia|done|].
  destruct T as (N & _ & _ & R & L & P). exists (map (FlattenAunts ar) ps).
  assert (length items <> 0)%nat as Hl0 by (by destruct items).
  split_and!.
  - unfold SimpleProofsFromHashables. rewrite E. cbn [rbind deref]. rewrite (node_hash_lookup _ _ _ R).
    destruct ps; [simpl in L; lia|done].
  - by rewrite length_map.
  - intros i pf Hpf. rewrite list_lookup_fmap in Hpf. destruct (ps !! i) as [p|] eqn:Ep; [|done].
    simplify_eq/=. unfold FlattenAunts. eapply path_flatten; [by apply P|exact R|done|done|].
    pose proof (aunts_length (length items) items i ltac:(lia)). simpl in N. lia.
Qed.

(** ** Soundness, up to a collision of the hash *)
Definition collision : Prop := exists x y, x <> y /\ DoHash x = DoHash y.

Context `{!CryptoLaws}.

Definition short (h : bytes) : Prop := Z.of_nat (length h) <= maxAlloc.

Lemma DoHash_short bz : short (DoHash bz).
Proof.
  unfold short, DoHash, maxAlloc. destruct configured_sha256;
    [rewrite keccak256_length|rewrite ripemd160_length]; lia.
Qed.

Lemma pair_bytes_slices l r : short l -> short r -> pair_bytes l r = slice_bytes l ++ slice_bytes r.
Proof.
  intros Hl Hr. unfold pair_bytes, newW. destruct (WriteByteSlice_bytes l Hl [] 0) as [n ->].
  destruct (WriteByteSlice_bytes r Hr ([] ++ slice_bytes l) n) as [n' ->]. done.
Qed.

Lemma two_hashes_inj l r l' r' :
  short l -> short r -> short l' -> short r' ->
  SimpleHashFromTwoHashes l r = SimpleHashFromTwoHashes l' r' -> (l = l' /\ r = r') \/ collision.
Proof.
  intros Hl Hr Hl' Hr' Heq. destruct (decide (pair_bytes l r = pair_bytes l' r')) as [E|E].
  - left. rewrite !pair_bytes_slices in E by done.
    apply slice_bytes_prefix in E as [-> E]; [|done..].
    rewrite <- (right_id_L [] (++) (slice_bytes r)), <- (right_id_L [] (++) (slice_bytes r')) in E.
    by apply slice_bytes_prefix in E as [-> _].
  - right. by exists (pair_bytes l r), (pair_bytes l' r').
Qed.

Lemma compute_aunts_short leaf inner i n h :
  short leaf -> compute_aunts leaf inner i n = Ok (Some h) -> short h.
Proof.
  intros Hs. destruct inner as [|a inner]; cbn [compute_aunts]; repeat case_match; intros; simplify_eq;
    try done; destruct (compute_aunts _ _ _ _) as [[?|]|]; simplify_eq/=; apply DoHash_short.
Qed.

(** Two proofs at the same position of trees of the same size with the same
    root prove the same leaf by the same aunts, unless the hash collides. *)
Lemma compute_aunts_inj leaf leaf' inner inner' i n h :
  short leaf -> short leaf' -> Forall short inner -> Forall short inner' ->
  compute_aunts leaf inner i n = Ok (Some h) -> compute_aunts leaf' inner' i n = Ok (Some h) ->
  (leaf = leaf' /\ inner = inner') \/ collision.
Proof.
  intros Hl Hl' HF. revert inner' i n h.
  induction HF as [|a inner Ha HF IH]; intros inner' i n h HF' H1 H2.
  - destruct inner' as [|a' inner']; cbn [compute_aunts] in H1, H2; repeat case_match; simplify_eq; by left.
  - destruct inner' as [|a' inner']; cbn [compute_aunts] in H1, H2;
      destruct (n <=? i); try done; destruct (n =? 0); try done; destruct (n =? 1); try done.
    apply Forall_cons in HF' as [Ha' HF'].
    destruct (i <? Z.quot (n + 1) 2).
    + destruct (compute_aunts leaf inner _ _) as [[x|]|] eqn:E1; try done.
      destruct (compute_aunts leaf' inner' _ _) as [[y|]|] eqn:E2; try done.
      cbn [rbind] in H1, H2. injection H1 as Hx. injection H2 as Hy. rewrite <- Hy in Hx.
      apply two_hashes_inj in Hx; [|by eauto using compute_aunts_short..].
      destruct Hx as [[-> ->]|]; [|by right].
      destruct (IH _ _ _ _ HF' E1 E2) as [[-> ->]|]; [by left|by right].
    + destruct (compute_aunts leaf inner _ _) as [[x|]|] eqn:E1; try done.
      destruct (compute_aunts leaf' inner' _ _) as [[y|]|] eqn:E2; try done.
      cbn [rbind] in H1, H2. injection H1 as Hx. injection H2 as Hy. rewrite <- Hy in Hx.
      apply two_hashes_inj in Hx; [|by eauto using compute_aunts_short..].
      destruct Hx as [[-> ->]|]; [|by right].
      destruct (IH _ _ _ _ HF' E1 E2) as [[-> ->]|]; [by left|by right].
Qed.

Lemma hashes_short hs : Forall short hs -> short (SimpleHashFromHashes hs).
Proof.
  intros HF. destruct (decide (2 <= length hs)%nat).
  - rewrite hashes_two by done. apply DoHash_short.
  - destruct hs as [|h [|]]; [done|by inversion HF|simpl in *; lia].
Qed.

Lemma aunts_short fuel hs i : Forall short hs -> Forall short (aunts fuel hs i).
Proof.
  revert hs i. induction fuel as [|fuel IH]; intros hs i HF; cbn [aunts]; [done|].
  repeat case_match; [done|..]; apply Forall_app; split; try (constructor; [|done]);
    auto using hashes_short, Forall_take, Forall_drop.
Qed.

(** Verification does not panic for a positive total. *)
Lemma compute_aunts_total leaf inner i n : 0 < n -> 0 <= i -> exists o, compute_aunts leaf inner i n = Ok o.
Proof.
  revert i n. induction inner as [|a inner IH]; intros i n Hn Hi; cbn [compute_aunts];
    (destruct (Z.leb_spec n i); [by eexists|]); (destruct (Z.eqb_spec n 0); [lia|]);
    (destruct (Z.eqb_spec n 1); [by eexists|]); [by eexists|].
  rewrite Z.quot_div_nonneg by lia. pose proof (Z.div_mod (n + 1) 2 ltac:(lia)).
  pose proof (Z.mod_pos_bound (n + 1) 2 ltac:(lia)).
  destruct (Z.ltb_spec i ((n + 1) / 2)).
  - destruct (IH i ((n + 1) / 2) ltac:(lia) Hi) as [o ->]. by eexists.
  - destruct (IH (i - (n + 1) / 2) (n - (n + 1) / 2) ltac:(lia) ltac:(lia)) as [o ->]. by eexists.
Qed.

Lemma Verify_total aunts i n leaf root : 0 < n -> 0 <= i -> exists b, Verify aunts i n leaf root = Ok b.
Proof.
  intros Hn Hi. unfold Verify, computeHashFromAunts.
  destruct (compute_aunts_total leaf (rev aunts) i n Hn Hi) as [o ->]. by eexists.
Qed.

Lemma aunts_verify items i h : items !! i = Some h ->
  Verify (aunts (length items) items i) (Z.of_nat i) (Z.of_nat (length items)) h (SimpleHashFromHashes items) = Ok true.
Proof.
  intros Hi. unfold Verify, computeHashFromAunts. rewrite compute_aunts_root by done.
  simpl. by rewrite bytes_eqb_refl.
Qed.


Lemma verify_item items aunts i leaf :
  Forall short items -> short leaf -> Forall short aunts ->
  0 <= i ->
  Verify aunts i (Z.of_nat (length items)) leaf (SimpleHashFromHashes items) = Ok true ->
  items !! Z.to_nat i = Some leaf \/ collision.
Proof.
  intros Hs Hl Ha Hi. unfold Verify, computeHashFromAunts. intros E.
  destruct (compute_aunts leaf (rev aunts) i (Z.of_nat (length items))) as [[h|]|] eqn:Ec; try done.
  injection E as E. apply bytes_eqb_eq in E as ->.
  assert (i < Z.of_nat (length items)) as Hlt.
  { destruct (rev aunts); cbn [compute_aunts] in Ec; destruct (Z.leb_spec (Z.of_nat (length items)) i); done || lia. }
  destruct (lookup_lt_is_Some_2 items (Z.to_nat i) ltac:(lia)) as [h' Hh'].
  pose proof (compute_aunts_root (length items) items (Z.to_nat i) h' ltac:(lia) Hh') as Er.
  rewrite Z2Nat.id in Er by lia.
  destruct (compute_aunts_inj _ _ _ _ _ _ _ Hl (proj1 (Forall_lookup _ _) Hs _ _ Hh')
    (Forall_rev Ha) (Forall_rev (aunts_short _ _ _ Hs)) Ec Er) as [[-> _]|]; [by left|by right].
Qed.

(** ** Binding of lists and maps, up to a collision *)
Lemma hashes_inj a b :
  Forall short a -> Forall short b -> length a = length b ->
  SimpleHashFromHashes a = SimpleHashFromHashes b -> a = b \/ collision.
Proof.
  intros Ha Hb Hl E. apply list_eq_or; [done|]. intros i x Hx.
  pose proof (aunts_verify a i x Hx) as Hv. rewrite Hl, E in Hv.
  destruct (verify_item b _ (Z.of_nat i) x Hb (proj1 (Forall_lookup _ _) Ha _ _ Hx)
    (aunts_short _ _ _ Ha) ltac:(lia) Hv) as [Hi|]; [left|by right]. by rewrite Nat2Z.id in Hi.
Qed.

(** Two entries of maps with the same keys and value types *)
Definition same_entry (a b : bytes * (gval * rtype)) : Prop :=
  a.1 = b.1 /\ a.2.2 = b.2.2 /\ Z.of_nat (length a.1) <= maxAlloc /\
  wt a.2.1 a.2.2 noOpts false /\ wt b.2.1 b.2.2 noOpts false.

Lemma KVPair_Hash_inj a b : same_entry a b ->
  exists x y, KVPair_Hash a = Ok (DoHash x) /\ KVPair_Hash b = Ok (DoHash y) /\ (x = y -> a = b).
Proof.
  destruct a as [k [v t]], b as [k' [v' t']]. intros (Ek & Et & Hk & Wv & Wv'). simpl in *. subst k' t'.
  destruct (codes_all _ _ _ _ Wv) as (bz & Hw & Hr). destruct (codes_all _ _ _ _ Wv') as (bz' & Hw' & Hr').
  destruct (WriteByteSlice_bytes k Hk [] 0) as [n Ek]. unfold WriteString, newW. rewrite Ek.
  destruct (Hw ([] ++ slice_bytes k) n) as [m ->]. destruct (Hw' ([] ++ slice_bytes k) n) as [m' ->]. cbn [rbind we wout].
  eexists _, _. split; [reflexivity|]. split; [reflexivity|]. intros E. apply app_inv_head in E. subst bz'.
  specialize (Hr 0 [] 0 (or_introl eq_refl)). specialize (Hr' 0 [] 0 (or_introl eq_refl)). congruence.
Qed.

Lemma hash_kvs_inj m1 m2 : Forall2 same_entry m1 m2 ->
  exists h1 h2, hash_kvs m1 = Ok h1 /\ hash_kvs m2 = Ok h2 /\ Forall short h1 /\ Forall short h2 /\
    length h1 = length h2 /\ (h1 = h2 -> m1 = m2 \/ collision).
Proof.
  induction 1 as [|a b m1 m2 Hab _ IH]; cbn [hash_kvs]; [exists [], []; split_and!; auto|].
  destruct (KVPair_Hash_inj a b Hab) as (x & y & -> & -> & Hinj).
  destruct IH as (h1 & h2 & -> & -> & S1 & S2 & Hl & IH). cbn [rbind].
  eexists _, _. split; [reflexivity|]. split; [reflexivity|].
  split; [constructor; [apply DoHash_short|done]|]. split; [constructor; [apply DoHash_short|done]|].
  split; [simpl; by rewrite Hl|]. intros [= Ed Eh]. destruct (IH Eh) as [->|]; [|by right].
  destruct (decide (x = y)) as [E|Hne]; [left; by rewrite (Hinj E)|right; by exists x, y].
Qed.

Lemma insert_kv_same a b m1 m2 :
  same_entry a b -> Forall2 same_entry m1 m2 ->
  Forall2 same_entry (insert_kv a m1) (insert_kv b m2) /\ (insert_kv a m1 = insert_kv b m2 -> a = b /\ m1 = m2).
Proof.
  intros Hab Hm. pose proof Hab as (Ek & _).
  induction Hm as [|x y m1 m2 Hxy Hm [IH IHeq]]; cbn [insert_kv].
  - split; [by constructor|]. by intros [= ->].
  - pose proof Hxy as (Ex & _). rewrite <- Ek, <- Ex. destruct (bytes_ltb a.1 x.1).
    + split; [constructor; [done|by constructor]|]. by intros [= -> -> ->].
    + split; [by constructor|]. intros [= -> E]. by destruct (IHeq E) as [-> ->].
Qed.

Lemma MakeSortedKVPairs_same m1 m2 : Forall2 same_entry m1 m2 ->
  Forall2 same_entry (MakeSortedKVPairs m1) (MakeSortedKVPairs m2) /\
  (MakeSortedKVPairs m1 = MakeSortedKVPairs m2 -> m1 = m2).
Proof.
  induction 1 as [|a b m1 m2 Hab Hm [IH IHeq]]; [by repeat constructor|]. cbn [MakeSortedKVPairs foldr].
  destruct (insert_kv_same a b _ _ Hab IH) as [Hs Heq]. split; [exact Hs|].
  intros E. destruct (Heq E) as [-> E']. by rewrite (IHeq E').
Qed.

(** Maps with the same keys and value types and the same hash are equal, or
    the hash function has a collision. *)
Lemma SimpleHashFromMap_inj m1 m2 : Forall2 same_entry m1 m2 ->
  exists x y, SimpleHashFromMap m1 = Ok x /\ SimpleHashFromMap m2 = Ok y /\ (x = y -> m1 = m2 \/ collision).
Proof.
  intros Hm. destruct (MakeSortedKVPairs_same m1 m2 Hm) as [Hs Heq].
  destruct (hash_kvs_inj _ _ Hs) as (h1 & h2 & E1 & E2 & S1 & S2 & Hl & Hinj).
  unfold SimpleHashFromMap. rewrite E1, E2. cbn [rbind]. eexists _, _. split; [reflexivity|]. split; [reflexivity|].
  intros E. destruct (hashes_inj h1 h2 S1 S2 Hl E) as [Eh|]; [|by right].
  destruct (Hinj Eh) as [Em|]; [left; auto|by right].
Qed.

Lemma SimpleHashFromMap_short m x : SimpleHashFromMap m = Ok x -> short x.
Proof.
  unfold SimpleHashFromMap. intros E. destruct (hash_kvs (MakeSortedKVPairs m)) as [hs|] eqn:Eh; [|done].
  injection E as <-. apply hashes_short. revert hs Eh. induction (MakeSortedKVPairs m) as [|kv l IH]; intros hs Eh.
  - simpl in Eh. by simplify_eq.
  - cbn [hash_kvs] in Eh. destruct (KVPair_Hash kv) as [h|] eqn:Ek; [|done]. cbn [rbind] in Eh.
    destruct (hash_kvs l) as [hs'|]; [|done]. injection Eh as <-. constructor; [|by apply IH].
    destruct kv as [k [v t]]. unfold KVPair_Hash in Ek.
    destruct (writeReflectBinary v t noOpts false (WriteString k newW)) as [w|]; [|done]. cbn [rbind] in Ek.
    destruct (we w); [done|]. injection Ek as <-. apply DoHash_short.
Qed.

(** For every non-empty list of items, [SimpleProofsFromHashables]
    succeeds, returns the tree hash as root and one proof per item, and each
    proof verifies its own item at its index (completeness of the proofs built
    through the pointer structure). *)
Theorem proofs_complete items :
  items <> [] ->
  exists proofs, SimpleProofsFromHashables items = Ok (Some (SimpleHashFromHashes items, proofs)) /\
    length proofs = length items /\
    forall i h pf, items !! i = Some h -> proofs !! i = Some pf ->
      Verify pf (Z.of_nat i) (Z.of_nat (length items)) h (SimpleHashFromHashes items) = Ok true.
Proof.
  intros Hne. destruct (SimpleProofs_spec items Hne) as (proofs & E & L & P). exists proofs.
  split_and!; [done..|]. intros i h pf Hi Hpf. rewrite (P _ _ Hpf). by apply aunts_verify.
Qed.

(** C30: a proof that verifies against the root of [items], at an index in
    range and for the right total, proves the item at that index, or the hash
    function has a collision (soundness of [SimpleProof.Verify]). *)
Theorem verify_sound items aunts i leaf :
  Forall short items -> short leaf -> Forall short aunts ->
  0 <= i ->
  Verify aunts i (Z.of_nat (length items)) leaf (SimpleHashFromHashes items) = Ok true ->
  items !! Z.to_nat i = Some leaf \/ collision.
Proof. apply verify_item. Qed.

End Tree.

(** The hypotheses of the completeness and soundness theorems hold of a
    three-leaf tree. *)
Lemma proofs_complete_witness :
  exists proofs, @SimpleProofsFromHashables sample_crypto [[1]; [2]; [3]] =
      Ok (Some (@SimpleHashFromHashes sample_crypto [[1]; [2]; [3]], proofs)) /\
    length proofs = 3%nat /\
    forall i h pf, [[1]; [2]; [3]] !! i = Some h -> proofs !! i = Some pf ->
      @Verify sample_crypto pf (Z.of_nat i) 3 h (@SimpleHashFromHashes sample_crypto [[1]; [2]; [3]]) = Ok true.
Proof. apply (@proofs_complete sample_crypto [[1]; [2]; [3]]). discriminate. Defined.

Lemma verify_sound_witness :
  let items := [[1]; [2]; [3]] in
  items !! 1%nat = Some [2] \/ @collision sample_crypto.
Proof.
  apply (@verify_sound sample_crypto sample_crypto_laws [[1]; [2]; [3]] [[1]; [3]] 1 [2]).
  - repeat constructor; vm_compute; discriminate.
  - vm_compute; discriminate.
  - repeat constructor; vm_compute; discriminate.
  - lia.
  - vm_compute. reflexivity.
Defined.

End SimpleTree.
