(* ===== verification/SignBytes.v ===== *)
(** * What validators sign: gemmill/types/signable.go, canonical_json.go and
    the JSON writer of gemmill/go-wire/reflect.go

    [SignBytes] of a vote or a proposal is the go-wire JSON of its canonical
    struct: fields in alphabetical order, byte slices in upper-case hex,
    integers in decimal, the empty hash and the empty parts header omitted. *)
From stdpp Require Import pretty.
From S2P Require Import Prelude Types.
#[local] Set Warnings "-register-all".

Definition of_string (s : string) : bytes := map (fun a => Z.of_N (Ascii.N_of_ascii a)) (String.list_ascii_of_string s).

Module Json.

(** ** The values of canonical structs, with the JSON name and the omitempty
    flag of each field *)
Inductive jval :=
| JBytes (bz : bytes)
| JString (s : bytes)
| JInt (z : Z)
| JStruct (fields : list (string * bool * jval)).

Definition quote : Z := 34.

(** [%X] *)
Definition hex_digit (d : Z) : Z := if d <? 10 then 48 + d else 55 + d.
Definition hex (bz : bytes) : bytes :=
  flat_map (fun b => [hex_digit (b / 16); hex_digit (b mod 16)]) bz.

(** [json.Marshal] of an integer *)
Definition dec (z : Z) : bytes := of_string (pretty z).

(** Length of the UTF-8 sequence at the front, if it is valid and not ASCII. *)
Definition cont (b : Z) : bool := (128 <=? b) && (b <=? 191).
Definition between (lo b hi : Z) : bool := (lo <=? b) && (b <=? hi).
Definition utf8_len (s : bytes) : option nat :=
  match s with
  | b0 :: b1 :: r =>
      if between 194 b0 223 && cont b1 then Some 2%nat
      else match r with
           | b2 :: r' =>
               if ((b0 =? 224) && between 160 b1 191 || between 225 b0 236 && cont b1
                   || (b0 =? 237) && between 128 b1 159 || between 238 b0 239 && cont b1) && cont b2
               then Some 3%nat
               else match r' with
                    | b3 :: _ =>
                        if ((b0 =? 240) && between 144 b1 191 || between 241 b0 243 && cont b1
                            || (b0 =? 244) && between 128 b1 143) && cont b2 && cont b3
                        then Some 4%nat else None
                    | [] => None
                    end
           | [] => None
           end
  | _ => None
  end.

Definition lower_hex_digit (d : Z) : Z := if d <? 10 then 48 + d else 87 + d.
Definition u_escape (b : Z) : bytes :=
  of_string "\u00" ++ [lower_hex_digit (b / 16); lower_hex_digit (b mod 16)].

(** [encoding/json]'s escaping of a string, HTML-safe. *)
Fixpoint escape (fuel : nat) (s : bytes) : bytes :=
  match fuel, s with
  | S fuel', b :: s' =>
      if b <? 128 then
        (if (b =? 34) || (b =? 92) then [92; b]
         else if b =? 10 then of_string "\n" else if b =? 13 then of_string "\r"
         else if b =? 9 then of_string "\t"
         else if (b <? 32) || (b =? 60) || (b =? 62) || (b =? 38) then u_escape b
         else [b]) ++ escape fuel' s'
      else
        match utf8_len s with
        | Some n =>
            let c := take n s in
            (if bytes_eqb c [226; 128; 168] then of_string "\u2028"
             else if bytes_eqb c [226; 128; 169] then of_string "\u2029" else c)
            ++ escape fuel' (drop n s)
        | None => of_string "\ufffd" ++ escape fuel' s'
        end
  | _, _ => []
  end.

Definition json_string (s : bytes) : bytes := quote :: escape (length s) s ++ [quote].

(** [isEmpty] of reflect.go *)
Fixpoint isEmpty (v : jval) : bool :=
  match v with
  | JBytes bz => (length bz =? 0)%nat
  | JString s => (length s =? 0)%nat
  | JInt z => z =? 0
  | JStruct fs => forallb (fun f => isEmpty f.2) fs
  end.

Definition json_name (s : string) : bytes := quote :: of_string s ++ [quote; 58].

(** The field loop: [wroteField] puts the commas. *)
Definition write_fields (write : jval -> bytes) : list (string * bool * jval) -> bool -> bytes :=
  fix fields fs wroteField :=
    match fs with
    | [] => []
    | (name, omitEmpty, v) :: fs' =>
        if omitEmpty && isEmpty v then fields fs' wroteField
        else (if wroteField then [44] else []) ++ json_name name ++ write v ++ fields fs' true
    end.

Fixpoint writeReflectJSON (v : jval) : bytes :=
  match v with
  | JBytes bz => quote :: hex bz ++ [quote]
  | JString s => json_string s
  | JInt z => dec z
  | JStruct fs => [123] ++ write_fields writeReflectJSON fs false ++ [125]
  end.

(** ** canonical_json.go *)
Definition CanonicalPartSetHeader (psh : PartSetHeader) : jval :=
  JStruct [("hash", false, JBytes (ps_Hash psh)); ("total", false, JInt (ps_Total psh))].

Definition CanonicalBlockID (b : BlockID) : jval :=
  JStruct [("hash", true, JBytes (bid_Hash b));
           ("parts", true, CanonicalPartSetHeader (bid_PartsHeader b))].

Definition CanonicalVote (v : Vote) : jval :=
  JStruct [("block_id", false, CanonicalBlockID (v_BlockID v)); ("height", false, JInt (v_Height v));
           ("round", false, JInt (v_Round v)); ("type", false, JInt (v_Type v))].

Definition CanonicalProposal (p : Proposal) : jval :=
  JStruct [("block_parts_header", false, CanonicalPartSetHeader (p_BlockPartsHeader p));
           ("height", false, JInt (p_Height p));
           ("pol_block_id", false, CanonicalBlockID (p_POLBlockID p));
           ("pol_round", false, JInt (p_POLRound p)); ("round", false, JInt (p_Round p))].

(** [SignBytes] of a vote, and of a proposal *)
Definition SignBytes_vote (chainID : bytes) (v : Vote) : bytes :=
  writeReflectJSON (JStruct [("chain_id", false, JString chainID); ("vote", false, CanonicalVote v)]).

Definition SignBytes_proposal (chainID : bytes) (p : Proposal) : bytes :=
  writeReflectJSON (JStruct [("chain_id", false, JString chainID); ("proposal", false, CanonicalProposal p)]).

(** ** Injectivity *)

(** Splitting at the first occurrence of a terminator. *)
Lemma split_at (t : Z) (x y r s : bytes) :
  t ∉ x -> t ∉ y -> x ++ t :: r = y ++ t :: s -> x = y /\ r = s.
Proof.
  revert y. induction x as [|a x IH]; intros [|b y] Hx Hy E; simplify_eq/=.
  - done.
  - by destruct Hy; left.
  - by destruct Hx; left.
  - apply not_elem_of_cons in Hx as [_ Hx]. apply not_elem_of_cons in Hy as [_ Hy].
    destruct (IH y Hx Hy) as [-> ->]; done.
Qed.

(** The second digit of a byte ends before any punctuation, so a hex string
    ends at the quote that punctuation follows. *)
Definition punctuation (c : Z) : Prop := c = 44 \/ c = 125.

Lemma hex_digit_range d : 0 <= d < 16 -> (48 <= hex_digit d <= 57 \/ 65 <= hex_digit d <= 70).
Proof. unfold hex_digit. destruct (Z.ltb_spec d 10); lia. Qed.

Lemma hex_digit_inj d e : hex_digit d = hex_digit e -> d = e.
Proof. unfold hex_digit. destruct (Z.ltb_spec d 10), (Z.ltb_spec e 10); lia. Qed.

Lemma low_digit b c : punctuation c -> hex_digit (b mod 16) <> c.
Proof. intros Hc. pose proof (hex_digit_range (b mod 16) ltac:(by apply Z.mod_pos_bound)). unfold punctuation in Hc. lia. Qed.

Lemma hex_split a b c d r s : punctuation c -> punctuation d ->
  hex a ++ quote :: c :: r = hex b ++ quote :: d :: s -> a = b /\ c :: r = d :: s.
Proof.
  intros Hc Hd. revert b. induction a as [|x a IH]; intros [|y b] E; simpl in E.
  - by injection E as -> ->.
  - injection E as _ E _. symmetry in E. by apply low_digit in E.
  - injection E as _ E _. by apply low_digit in E.
  - injection E as E1%hex_digit_inj E2%hex_digit_inj E. destruct (IH b E) as [-> ->]. split; [|done].
    f_equal. rewrite (Z.div_mod x 16), (Z.div_mod y 16) by lia. lia.
Qed.

Lemma of_string_inj s s' : of_string s = of_string s' -> s = s'.
Proof.
  unfold of_string. revert s'. induction s as [|a s IH]; intros [|b s'] E; simplify_eq/=; [done|].
  f_equal; [|by apply IH]. rewrite <- (Ascii.ascii_N_embedding a), <- (Ascii.ascii_N_embedding b). congruence.
Qed.

Lemma dec_inj a b : dec a = dec b -> a = b.
Proof. unfold dec. intros E%of_string_inj. by apply (inj pretty) in E. Qed.

Definition dec_char (c : Z) : Prop := c = 45 \/ 48 <= c <= 57.

Lemma of_string_cons a s : of_string (String a s) = Z.of_N (Ascii.N_of_ascii a) :: of_string s.
Proof. done. Qed.

Lemma digit_char x : dec_char (Z.of_N (Ascii.N_of_ascii (pretty_N_char x))).
Proof. unfold pretty_N_char, dec_char. repeat case_match; vm_compute; lia || (right; split; discriminate). Qed.

Lemma pretty_N_go_chars x s : Forall dec_char (of_string s) -> Forall dec_char (of_string (pretty_N_go x s)).
Proof.
  revert s. induction (N.lt_wf_0 x) as [x _ IH]; intros s Hs.
  assert (x = 0 \/ 0 < x)%N as [->|Hx] by lia; [by rewrite pretty_N_go_0|].
  rewrite pretty_N_go_step by done. apply IH; [by apply N.div_lt|].
  rewrite of_string_cons. constructor; [apply digit_char|done].
Qed.

Lemma pretty_N_chars (x : N) : Forall dec_char (of_string (pretty x)).
Proof.
  unfold pretty, pretty_N. case_decide.
  - constructor; [right; vm_compute; split; discriminate|constructor].
  - apply pretty_N_go_chars. constructor.
Qed.

Lemma dec_chars z : Forall dec_char (dec z).
Proof.
  unfold dec. destruct z as [|p|p].
  - constructor; [right; vm_compute; split; discriminate|constructor].
  - apply (pretty_N_chars (Npos p)).
  - change (pretty (Z.neg p)) with (String (Ascii.ascii_of_N 45) (pretty (Npos p))). rewrite of_string_cons.
    constructor; [left; done|apply pretty_N_chars].
Qed.

Lemma dec_not_in c z : ~ dec_char c -> c ∉ dec z.
Proof. intros Hc Hin. pose proof (dec_chars z) as HF. rewrite Forall_forall in HF. by apply Hc, HF. Qed.

Lemma comma_not_dec z : 44 ∉ dec z.
Proof. apply dec_not_in. unfold dec_char. lia. Qed.

Lemma brace_not_dec z : 125 ∉ dec z.
Proof. apply dec_not_in. unfold dec_char. lia. Qed.

(** ** The layout of the canonical structs *)
Lemma psh_layout p r :
  writeReflectJSON (CanonicalPartSetHeader p) ++ r =
  (123 :: json_name "hash" ++ [quote]) ++ hex (ps_Hash p) ++ quote ::
    (44 :: json_name "total") ++ dec (ps_Total p) ++ 125 :: r.
Proof.
  unfold CanonicalPartSetHeader. cbn [writeReflectJSON write_fields andb app].
  by norm_app.
Qed.

Lemma psh_json_inj p q r s :
  writeReflectJSON (CanonicalPartSetHeader p) ++ r = writeReflectJSON (CanonicalPartSetHeader q) ++ s ->
  p = q /\ r = s.
Proof.
  rewrite !psh_layout. intros E%app_inv_head. cbn [app] in E.
  apply hex_split in E as [E1 E]; [|by left..]. apply (app_inv_head [44]) in E.
  apply app_inv_head in E. apply split_at in E as [E2 ->]; [|apply brace_not_dec..].
  apply dec_inj in E2. destruct p, q; simpl in *; by subst.
Qed.

Definition hash_key : bytes := json_name "hash" ++ [quote].

Lemma bid_layout b r :
  writeReflectJSON (CanonicalBlockID b) ++ r =
  let hash := hash_key ++ hex (bid_Hash b) ++ [quote] in
  let parts := json_name "parts" ++ writeReflectJSON (CanonicalPartSetHeader (bid_PartsHeader b)) in
  let he := (length (bid_Hash b) =? 0)%nat in
  let pe := isEmpty (CanonicalPartSetHeader (bid_PartsHeader b)) in
  [123] ++ (if he then [] else hash) ++ (if pe then [] else (if he then [] else [44]) ++ parts) ++ 125 :: r.
Proof.
  unfold CanonicalBlockID. cbn [writeReflectJSON write_fields andb]. cbv zeta.
  change (length (bid_Hash b) =? 0)%nat with (isEmpty (JBytes (bid_Hash b))).
  destruct (isEmpty (JBytes (bid_Hash b))), (isEmpty (CanonicalPartSetHeader (bid_PartsHeader b)));
    unfold hash_key; by norm_app.
Qed.

Lemma psh_empty p : isEmpty (CanonicalPartSetHeader p) = true -> p = mkPSH 0 [].
Proof.
  destruct p as [t h]. cbn. rewrite andb_true_r. intros [Hh%Nat.eqb_eq Ht%Z.eqb_eq]%andb_true_iff.
  apply nil_length_inv in Hh. by subst.
Qed.

Lemma bid_json_inj a b r s :
  writeReflectJSON (CanonicalBlockID a) ++ r = writeReflectJSON (CanonicalBlockID b) ++ s ->
  a = b /\ r = s.
Proof.
  rewrite !bid_layout. cbv zeta. intros E%(app_inv_head [123]).
  destruct a as [ha pa], b as [hb pb]. cbn [bid_Hash bid_PartsHeader] in *.
  destruct (isEmpty (CanonicalPartSetHeader pa)) eqn:Epa; [apply psh_empty in Epa; subst pa|];
  (destruct (isEmpty (CanonicalPartSetHeader pb)) eqn:Epb; [apply psh_empty in Epb; subst pb|]);
  (destruct (Nat.eqb_spec (length ha) 0) as [La%nil_length_inv|La]; [subst ha|]);
  (destruct (Nat.eqb_spec (length hb) 0) as [Lb%nil_length_inv|Lb]; [subst hb|]).
  all: try discriminate E.
  all: rewrite <- ?app_assoc in E; cbn [app] in E.
  all: try (apply (app_inv_head hash_key) in E).
  all: try (apply hex_split in E as [E1 E]; [|first [by left|by right]..]; subst).
  all: try discriminate E.
  - by injection E as ->.
  - by injection E as ->.
  - apply app_inv_head in E. apply psh_json_inj in E as [-> E]. by injection E as ->.
  - apply (app_inv_head [44]) in E. apply app_inv_head in E.
    apply psh_json_inj in E as [-> E]. by injection E as ->.
Qed.

Lemma vote_layout chainID v :
  SignBytes_vote chainID v =
  ([123] ++ json_name "chain_id" ++ json_string chainID ++ [44]) ++ json_name "vote" ++
  ([123] ++ json_name "block_id") ++ writeReflectJSON (CanonicalBlockID (v_BlockID v)) ++
  ([44] ++ json_name "height") ++ dec (v_Height v) ++ 44 ::
  json_name "round" ++ dec (v_Round v) ++ 44 :: json_name "type" ++ dec (v_Type v) ++ 125 :: [125].
Proof.
  unfold SignBytes_vote, CanonicalVote. cbn [writeReflectJSON write_fields andb].
  by norm_app.
Qed.

Lemma proposal_layout chainID p :
  SignBytes_proposal chainID p =
  ([123] ++ json_name "chain_id" ++ json_string chainID ++ [44]) ++ json_name "proposal" ++
  ([123] ++ json_name "block_parts_header") ++ writeReflectJSON (CanonicalPartSetHeader (p_BlockPartsHeader p)) ++
  ([44] ++ json_name "height") ++ dec (p_Height p) ++ 44 ::
  json_name "pol_block_id" ++ writeReflectJSON (CanonicalBlockID (p_POLBlockID p)) ++
  ([44] ++ json_name "pol_round") ++ dec (p_POLRound p) ++ 44 ::
  json_name "round" ++ dec (p_Round p) ++ 125 :: [125].
Proof.
  unfold SignBytes_proposal, CanonicalProposal. cbn [writeReflectJSON write_fields andb].
  by norm_app.
Qed.

Lemma vote_json_inj chainID v w :
  SignBytes_vote chainID v = SignBytes_vote chainID w ->
  v_BlockID v = v_BlockID w /\ v_Height v = v_Height w /\ v_Round v = v_Round w /\ v_Type v = v_Type w.
Proof.
  rewrite !vote_layout. intros E. do 3 apply app_inv_head in E.
  apply bid_json_inj in E as [Eb E]. apply app_inv_head in E.
  apply split_at in E as [Eh E]; [|apply comma_not_dec..]. apply app_inv_head in E.
  apply split_at in E as [Er E]; [|apply comma_not_dec..]. apply app_inv_head in E.
  apply split_at in E as [Et E]; [|apply brace_not_dec..].
  split_and!; [done|by apply dec_inj..].
Qed.

Lemma proposal_json_inj chainID p q :
  SignBytes_proposal chainID p = SignBytes_proposal chainID q ->
  p_Height p = p_Height q /\ p_Round p = p_Round q /\ p_BlockPartsHeader p = p_BlockPartsHeader q /\
  p_POLRound p = p_POLRound q /\ p_POLBlockID p = p_POLBlockID q.
Proof.
  rewrite !proposal_layout. intros E. do 3 apply app_inv_head in E.
  apply psh_json_inj in E as [Eb E]. apply app_inv_head in E.
  apply split_at in E as [Eh E]; [|apply comma_not_dec..]. apply app_inv_head in E.
  apply bid_json_inj in E as [Ep E]. apply app_inv_head in E.
  apply split_at in E as [Er E]; [|apply comma_not_dec..]. apply app_inv_head in E.
  apply split_at in E as [Et E]; [|apply brace_not_dec..].
  split_and!; first [done | by apply dec_inj].
Qed.

Lemma vote_not_proposal chainID v p : SignBytes_vote chainID v <> SignBytes_proposal chainID p.
Proof.
  rewrite vote_layout, proposal_layout. intros E. apply app_inv_head in E.
  discriminate E.
Qed.

(** C32: within a chain, what is signed determines what it says: votes with
    the same sign bytes agree on block, height, round and type, proposals on
    height, round, parts, proof-of-lock round and proof-of-lock block, and no
    vote has the sign bytes of a proposal. *)
Theorem sign_bytes_injective chainID :
  (forall v w, SignBytes_vote chainID v = SignBytes_vote chainID w ->
     v_BlockID v = v_BlockID w /\ v_Height v = v_Height w /\ v_Round v = v_Round w /\ v_Type v = v_Type w) /\
  (forall p q, SignBytes_proposal chainID p = SignBytes_proposal chainID q ->
     p_Height p = p_Height q /\ p_Round p = p_Round q /\ p_BlockPartsHeader p = p_BlockPartsHeader q /\
     p_POLRound p = p_POLRound q /\ p_POLBlockID p = p_POLBlockID q) /\
  (forall v p, SignBytes_vote chainID v <> SignBytes_proposal chainID p).
Proof.
  split_and!; [apply vote_json_inj|apply proposal_json_inj|apply vote_not_proposal].
Qed.

Lemma sign_bytes_injective_witness :
  let v := mkVote [1] 0 5 0 1 (mkBID [1; 2] (mkPSH 1 [3])) None in
  let w := mkVote [2] 1 5 0 1 (mkBID [1; 2] (mkPSH 1 [3])) None in
  v_BlockID v = v_BlockID w /\ v_Height v = v_Height w /\ v_Round v = v_Round w /\ v_Type v = v_Type w.
Proof.
  apply (proj1 (sign_bytes_injective [99])).
  vm_compute. reflexivity.
Defined.

End Json.
