(* ===== verification/Validators.v ===== *)
(** * gemmill/types/validator.go and validator_set.go

    A validator set keeps its validators sorted by address, a running
    [Accum] per validator from which [IncrementAccum] picks the proposer with
    the heap of [GoHeap], and two caches: the proposer (a pointer) and the
    total voting power.  Voting powers and accums are [int64]. *)
From S2P Require Import Prelude GoHeap Wire WireReflect Types SimpleTree.
Import WireReflect SimpleTree.

Record Validator := mkVal {
  val_Address : bytes;
  val_PubKey : PubKey;
  val_VotingPower : Z;
  val_Accum : Z;
  val_IsCA : bool
}.

#[export] Instance Validator_eq_dec : EqDecision Validator.
Proof. solve_decision. Defined.

Definition T_Validator : rtype :=
  TStruct [field T_bytes; field T_PubKey; field TInt64; field TInt64; field TBool].
Definition val_val (v : Validator) : gval :=
  VStruct [VBytes (val_Address v); pk_val (val_PubKey v); VInt (val_VotingPower v);
           VInt (val_Accum v); VBool (val_IsCA v)].

Definition NewValidator `{Crypto} (pubKey : PubKey) (votingPower : Z) (isCA : bool) : Validator :=
  mkVal (Address pubKey) pubKey votingPower 0 isCA.

Definition set_Accum (a : Z) (v : Validator) : Validator :=
  mkVal (val_Address v) (val_PubKey v) (val_VotingPower v) a (val_IsCA v).

(** [v] and [other] are pointers: a tag [P] with the value behind it. *)
Definition CompareAccum {P} (v : option (P * Validator)) (other : P * Validator) : res (P * Validator) :=
  match v with
  | None => Ok other
  | Some v =>
      if val_Accum other.2 <? val_Accum v.2 then Ok v
      else if val_Accum v.2 <? val_Accum other.2 then Ok other
      else match bytes_cmp (val_Address v.2) (val_Address other.2) with
           | Lt => Ok v
           | Gt => Ok other
           | Eq => Panic
           end
  end.

(** [Validator.Hash] hashes the pointer's encoding. *)
Definition val_Hash `{Crypto} (v : Validator) : res bytes :=
  SimpleHashFromBinary (VPtr (val_val v)) (TPtr T_Validator).

Module ValidatorSet.

(** The [proposer] field points into this set's own slice or, after [Copy],
    at a validator of the copied set; nothing reads the [Accum] of the
    latter. *)
Inductive pointer := PIn (i : nat) | PExt (v : Validator).

Record t := mk {
  Validators : list Validator;
  proposer : option pointer;
  totalVotingPower : Z
}.

Definition set_validators (l : list Validator) (vs : t) : t := mk l (proposer vs) (totalVotingPower vs).
Definition set_proposer (p : option pointer) (vs : t) : t := mk (Validators vs) p (totalVotingPower vs).

Definition follow (vs : t) (p : pointer) : res Validator :=
  match p with PIn i => deref (Validators vs !! i) | PExt v => Ok v end.

(** [sort.Sort(ValidatorsByAddress(...))] *)
Fixpoint insert_val (v : Validator) (l : list Validator) : list Validator :=
  match l with
  | [] => [v]
  | x :: l' =>
      if bytes_ltb (val_Address v) (val_Address x) then v :: x :: l' else x :: insert_val v l'
  end.
Definition sort_vals (l : list Validator) : list Validator :=
  foldl (fun acc v => insert_val v acc) [] l.

Definition Size (vs : t) : Z := Z.of_nat (length (Validators vs)).

Definition TotalVotingPower (vs : t) : Z * t :=
  if totalVotingPower vs =? 0 then
    let total := foldl (fun acc v => i64 (acc + val_VotingPower v)) 0 (Validators vs) in
    (total, mk (Validators vs) (proposer vs) total)
  else (totalVotingPower vs, vs).

(** [accumComparable]: the greatest accum first. *)
Record accumComparable := AC { ac : Z }.
#[export] Instance accum_comparable : Comparable accumComparable := fun a b => ac b <? ac a.

#[local] Abbreviation heap := (list (@GoHeap.pqItem nat accumComparable)).

Fixpoint push_all (i : nat) (l : list Validator) (h : heap) : heap :=
  match l with
  | [] => h
  | v :: l' => push_all (S i) l' (GoHeap.hPush h i (AC (val_Accum v)))
  end.

(** The [times] turns of the second loop; [k] of them are left. *)
Fixpoint inc_loop (k : nat) (vs : t) (h : heap) : res t :=
  match k with
  | O => Ok vs
  | S k' =>
      let! mostest := deref (GoHeap.Peek h) in
      let vs := if (k' =? 0)%nat then set_proposer (Some (PIn mostest)) vs else vs in
      let! v := deref (Validators vs !! mostest) in
      let '(total, vs) := TotalVotingPower vs in
      let accum := i64 (val_Accum v - total) in
      let vs := set_validators (<[mostest := set_Accum accum v]> (Validators vs)) vs in
      let! h := GoHeap.hUpdate h mostest (AC accum) in
      inc_loop k' vs h
  end.

Definition add_power (times : Z) (v : Validator) : Validator :=
  set_Accum (i64 (val_Accum v + i64 (val_VotingPower v * times))) v.

Definition IncrementAccum (times : Z) (vs : t) : res t :=
  let l := map (add_power times) (Validators vs) in
  inc_loop (Z.to_nat times) (set_validators l vs) (push_all 0 l GoHeap.NewHeap).

(** A nil slice is [None]. *)
Definition NewValidatorSet (vals : option (list Validator)) : res t :=
  let vs := mk (sort_vals (default [] vals)) None 0 in
  match vals with None => Ok vs | Some _ => IncrementAccum 1 vs end.

Definition Copy (vs : t) : res t :=
  match proposer vs with
  | None => Ok vs
  | Some p => let! v := follow vs p in Ok (mk (Validators vs) (Some (PExt v)) (totalVotingPower vs))
  end.

(** [sort.Search] for the first address not below [address]. *)
Definition search (vs : t) (address : bytes) : nat :=
  sort_search (length (Validators vs)) (fun i =>
    match Validators vs !! i with Some v => bytes_leb address (val_Address v) | None => false end).

Definition HasAddress (vs : t) (address : bytes) : bool :=
  match Validators vs !! search vs address with
  | Some v => bytes_eqb (val_Address v) address
  | None => false
  end.

Definition GetByAddress (vs : t) (address : bytes) : Z * option Validator :=
  let idx := search vs address in
  match Validators vs !! idx with
  | Some v => if bytes_eqb (val_Address v) address then (Z.of_nat idx, Some v) else (0, None)
  | None => (0, None)
  end.

(** An index outside the slice panics. *)
Definition GetByIndex (vs : t) (index : Z) : res (bytes * Validator) :=
  let! v := go_index (Validators vs) index in Ok (val_Address v, v).

Fixpoint compare_all (i : nat) (l : list Validator) (p : option (nat * Validator))
    : res (option (nat * Validator)) :=
  match l with
  | [] => Ok p
  | v :: l' => let! q := CompareAccum p (i, v) in compare_all (S i) l' (Some q)
  end.

Definition Proposer (vs : t) : res (option Validator * t) :=
  match Validators vs with
  | [] => Ok (None, vs)
  | _ =>
      let! p := match proposer vs with
                | Some p => Ok (Some p)
                | None => let! q := compare_all 0 (Validators vs) None in
                          Ok (option_map (fun q => PIn q.1) q)
                end in
      let! p' := deref p in
      let! v := follow vs p' in
      Ok (Some v, set_proposer p vs)
  end.

Fixpoint hash_vals `{Crypto} (l : list Validator) : res (list bytes) :=
  match l with
  | [] => Ok []
  | v :: l' => let! h := val_Hash v in let! hs := hash_vals l' in Ok (h :: hs)
  end.

Definition Hash `{Crypto} (vs : t) : res bytes :=
  let! hs := hash_vals (Validators vs) in Ok (SimpleHashFromHashes hs).

(** [Add] is atomic up to the search: append, refuse, or insert. *)
Definition Add (vs : t) (val : Validator) : bool * t :=
  let idx := search vs (val_Address val) in
  match Validators vs !! idx with
  | None => (true, mk (Validators vs ++ [val]) None 0)
  | Some v =>
      if bytes_eqb (val_Address v) (val_Address val) then (false, vs)
      else (true, mk (take idx (Validators vs) ++ val :: drop idx (Validators vs)) None 0)
  end.

Definition Update (vs : t) (val : Validator) : bool * t :=
  match GetByAddress vs (val_Address val) with
  | (index, Some _) => (true, mk (<[Z.to_nat index := val]> (Validators vs)) None 0)
  | (_, None) => (false, vs)
  end.

Definition Remove (vs : t) (address : bytes) : option Validator * bool * t :=
  let idx := search vs address in
  match Validators vs !! idx with
  | Some v =>
      if bytes_eqb (val_Address v) address
      then (Some v, true, mk (take idx (Validators vs) ++ drop (S idx) (Validators vs)) None 0)
      else (None, false, vs)
  | None => (None, false, vs)
  end.

(** [Iterate] with the callback's state threaded; [true] stops. *)
Fixpoint iterate_from {S} (fn : Z -> Validator -> S -> bool * S) (i : nat) (l : list Validator) (s : S) : S :=
  match l with
  | [] => s
  | v :: l' => let '(stop, s) := fn (Z.of_nat i) v s in if stop then s else iterate_from fn (Datatypes.S i) l' s
  end.
Definition Iterate {S} (vs : t) (fn : Z -> Validator -> S -> bool * S) (s : S) : S :=
  iterate_from fn 0 (Validators vs) s.

(** ** The sorted slice as a finite map from addresses *)
Definition addr_lt (v w : Validator) : Prop := bytes_lt (val_Address v) (val_Address w).
Definition sorted (vs : t) : Prop := StronglySorted addr_lt (Validators vs).

Definition to_map (l : list Validator) : gmap bytes Validator :=
  list_to_map (map (fun v => (val_Address v, v)) l).

Lemma sorted_nodup l : StronglySorted addr_lt l -> NoDup (map val_Address l).
Proof.
  induction 1 as [|v l _ IH HF]; simpl; constructor; [|done].
  intros (w & Hw & Hin)%list_elem_of_fmap. rewrite Forall_forall in HF.
  apply HF in Hin. unfold addr_lt in Hin. rewrite Hw in Hin. by apply bytes_lt_irrefl in Hin.
Qed.

Lemma to_map_lookup l a v :
  StronglySorted addr_lt l -> to_map l !! a = Some v <-> v ∈ l /\ val_Address v = a.
Proof.
  intros Hs. unfold to_map. rewrite <- elem_of_list_to_map.
  - rewrite (list_elem_of_fmap (fun v => (val_Address v, v))). split.
    + intros (w & [= -> ->] & Hin). done.
    + intros [Hin <-]. eauto.
  - change (map (fun v => (val_Address v, v)) l) with ((fun v => (val_Address v, v)) <$> l).
    rewrite <- list_fmap_compose. by apply sorted_nodup.
Qed.

Lemma lt_all_before l i j v w :
  StronglySorted addr_lt l -> l !! i = Some v -> l !! j = Some w -> (i < j)%nat -> addr_lt v w.
Proof.
  intros Hs. revert i j. induction Hs as [|x l Hs IH HF]; intros i j Hi Hj Hij; [done|].
  destruct i, j; simplify_eq/=; try lia.
  - rewrite Forall_forall in HF. apply HF. by eapply list_elem_of_lookup_2.
  - eapply IH; eauto. lia.
Qed.

(** Where the binary search ends: everything before is below the address,
    everything after it above. *)
Lemma search_cases vs a :
  sorted vs ->
  exists l1 l2, length l1 = search vs a /\
    (forall v, v ∈ l1 -> bytes_lt (val_Address v) a) /\
    (forall v, v ∈ l2 -> bytes_lt a (val_Address v)) /\
    (Validators vs = l1 ++ l2 \/
     exists v, val_Address v = a /\ Validators vs = l1 ++ v :: l2).
Proof.
  intros Hs. unfold sorted in Hs. set (l := Validators vs) in *.
  destruct (sort_search_spec (length l) (fun i =>
    match l !! i with Some v => bytes_leb a (val_Address v) | None => false end)) as (Hle & Hlo & Hhi).
  { intros i j Hij. destruct (lookup_lt_is_Some_2 l i ltac:(lia)) as [v Hi].
    destruct (lookup_lt_is_Some_2 l j ltac:(lia)) as [w Hj]. rewrite Hi, Hj.
    destruct (decide (i = j)) as [->|]; [by simplify_eq|]. rewrite !bytes_leb_le.
    pose proof (lt_all_before l i j v w Hs Hi Hj ltac:(lia)) as Hvw. unfold addr_lt in Hvw.
    intros [?| ->]; left; eauto using bytes_lt_trans. }
  change (sort_search _ _) with (search vs a) in *. set (k := search vs a) in *.
  assert (forall v, v ∈ take k l -> bytes_lt (val_Address v) a) as Hbelow.
  { intros v [i Hi]%list_elem_of_lookup. apply lookup_take_Some in Hi as [Hi Hik].
    pose proof (Hlo i Hik) as E. rewrite Hi in E. by apply bytes_leb_false. }
  assert (length (take k l) = k) as Hlen by (rewrite length_take; lia).
  destruct (l !! k) as [v|] eqn:Hk.
  - apply lookup_lt_Some in Hk as Hlt. pose proof (Hhi k ltac:(lia)) as E. rewrite Hk in E.
    assert (forall w, w ∈ drop (S k) l -> bytes_lt (val_Address v) (val_Address w)) as Habove.
    { intros w [i Hi]%list_elem_of_lookup. rewrite lookup_drop in Hi.
      apply (lt_all_before l k (S k + i) v w Hs Hk Hi). lia. }
    assert (l = take k l ++ v :: drop (S k) l) as Hsplit by (by rewrite take_drop_middle).
    apply bytes_leb_le in E as [Hlt'|Heq].
    + exists (take k l), (v :: drop (S k) l). split_and!; [done|done| |by left].
      intros w [->|Hw]%elem_of_cons; [done|]. eauto using bytes_lt_trans.
    + exists (take k l), (drop (S k) l). split_and!; [done|done| |].
      * intros w Hw. rewrite Heq. by apply Habove.
      * right. exists v. by rewrite <- Heq.
  - exists (take k l), []. split_and!; [done|done|by intros ? ?%elem_of_nil|].
    left. rewrite (right_id_L [] (++)). symmetry. apply take_ge. by apply lookup_ge_None.
Qed.

(** The two outcomes of a lookup, in terms of the slice and of the map. *)
Inductive located (vs : t) (a : bytes) : Prop :=
| loc_present l1 v l2 :
    length l1 = search vs a -> Validators vs = l1 ++ v :: l2 -> val_Address v = a ->
    to_map (Validators vs) !! a = Some v -> located vs a
| loc_absent l1 l2 :
    length l1 = search vs a -> Validators vs = l1 ++ l2 ->
    (forall v, v ∈ l1 -> bytes_lt (val_Address v) a) ->
    (forall v, v ∈ l2 -> bytes_lt a (val_Address v)) ->
    (forall v, Validators vs !! search vs a = Some v -> bytes_eqb (val_Address v) a = false) ->
    to_map (Validators vs) !! a = None -> located vs a.

Lemma locate vs a : sorted vs -> located vs a.
Proof.
  intros Hs. destruct (search_cases vs a Hs) as (l1 & l2 & Hk & H1 & H2 & [E|(v & Hv & E)]).
  - assert (forall v, v ∈ Validators vs -> val_Address v <> a) as Hne.
    { intros v Hin Heq. rewrite E in Hin. apply elem_of_app in Hin as [Hin|Hin];
        [apply H1 in Hin|apply H2 in Hin]; rewrite Heq in Hin; by apply bytes_lt_irrefl in Hin. }
    apply (loc_absent vs a l1 l2); try done.
    + intros v Hl. apply bytes_eqb_neq, Hne. by eapply list_elem_of_lookup_2.
    + destruct (to_map (Validators vs) !! a) as [v|] eqn:Em; [|done].
      apply to_map_lookup in Em as [Hin Ha]; [|done]. by destruct (Hne v).
  - apply (loc_present vs a l1 v l2); try done. apply to_map_lookup; [done|].
    rewrite E. split; [set_solver|done].
Qed.

Lemma lookup_search (l1 : list Validator) v l2 k : length l1 = k -> (l1 ++ v :: l2) !! k = Some v.
Proof. intros <-. by rewrite lookup_app_r, Nat.sub_diag by lia. Qed.

Lemma GetByAddress_map vs a : sorted vs ->
  (GetByAddress vs a).2 = to_map (Validators vs) !! a /\
  (forall v, to_map (Validators vs) !! a = Some v ->
     exists i, (GetByAddress vs a).1 = Z.of_nat i /\ Validators vs !! i = Some v).
Proof.
  intros Hs. unfold GetByAddress. cbv zeta.
  destruct (locate vs a Hs) as [l1 v l2 Hk E Ha Hm|l1 l2 Hk E H1 H2 Hn Hm]; rewrite Hm.
  - assert (Validators vs !! search vs a = Some v) as -> by (rewrite E; by apply lookup_search).
    rewrite Ha, bytes_eqb_refl. split; [done|]. intros w [= <-]. eexists. split; [done|].
    rewrite E. by apply lookup_search.
  - destruct (Validators vs !! search vs a) eqn:El; [rewrite Hn by done|]; done.
Qed.

Lemma HasAddress_map vs a : sorted vs -> HasAddress vs a = bool_decide (is_Some (to_map (Validators vs) !! a)).
Proof.
  intros Hs. unfold HasAddress.
  destruct (locate vs a Hs) as [l1 v l2 Hk E Ha Hm|l1 l2 Hk E H1 H2 Hn Hm]; rewrite Hm.
  - rewrite E, lookup_search by done. rewrite Ha, bytes_eqb_refl. by rewrite bool_decide_eq_true_2.
  - rewrite bool_decide_eq_false_2 by (by intros [? ?]).
    destruct (Validators vs !! search vs a) eqn:El; [by rewrite Hn|done].
Qed.

Lemma map_ext_sorted l m :
  StronglySorted addr_lt l ->
  (forall a v, m !! a = Some v <-> v ∈ l /\ val_Address v = a) -> to_map l = m.
Proof. intros Hs Hm. apply map_eq. intros a. apply option_eq. intros v. by rewrite to_map_lookup, Hm. Qed.

Lemma sorted_insert l1 l2 v :
  StronglySorted addr_lt (l1 ++ l2) ->
  (forall w, w ∈ l1 -> bytes_lt (val_Address w) (val_Address v)) ->
  (forall w, w ∈ l2 -> bytes_lt (val_Address v) (val_Address w)) ->
  StronglySorted addr_lt (l1 ++ v :: l2).
Proof.
  rewrite !StronglySorted_app. intros (H12 & S1 & S2) H1 H2. split_and!; [|done|].
  - intros x y Hx [->|Hy]%elem_of_cons; [by apply H1|by apply H12].
  - constructor; [done|]. apply Forall_forall. apply H2.
Qed.

Lemma Add_map vs val : sorted vs ->
  let '(added, vs') := Add vs val in
  sorted vs' /\ added = bool_decide (to_map (Validators vs) !! val_Address val = None) /\
  to_map (Validators vs') =
    (if added then <[val_Address val := val]> (to_map (Validators vs)) else to_map (Validators vs)).
Proof.
  intros Hs. unfold Add. cbv zeta.
  destruct (locate vs (val_Address val) Hs) as [l1 v l2 Hk E Ha Hm|l1 l2 Hk E H1 H2 Hn Hm]; rewrite Hm.
  - assert (Validators vs !! search vs (val_Address val) = Some v) as -> by (rewrite E; by apply lookup_search).
    rewrite Ha, bytes_eqb_refl. split_and!; [done|by rewrite bool_decide_eq_false_2|done].
  - assert (StronglySorted addr_lt (l1 ++ val :: l2)) as Hs'.
    { apply sorted_insert; [|done..]. rewrite <- E. exact Hs. }
    assert (to_map (l1 ++ val :: l2) = <[val_Address val := val]> (to_map (Validators vs))) as Hmap.
    { apply map_ext_sorted; [done|]. intros a w. rewrite lookup_insert_Some, to_map_lookup by done.
      assert (forall x, x ∈ l1 \/ x ∈ l2 -> val_Address val <> val_Address x) as Hne.
      { intros x [Hx|Hx]; [apply H1, bytes_lt_ne in Hx|apply H2, bytes_lt_ne in Hx]; congruence. }
      rewrite E. set_unfold. clear - Hne. naive_solver. }
    destruct (Validators vs !! search vs (val_Address val)) as [v|] eqn:El.
    + rewrite Hn by done. rewrite E, take_app_length', drop_app_length' by done. rewrite <- E.
      split_and!; [done|by rewrite bool_decide_eq_true_2|done].
    + assert (l2 = []) as ->.
      { rewrite E in El. apply lookup_ge_None in El. rewrite length_app in El. destruct l2; simpl in *; [done|lia]. }
      rewrite (right_id_L [] (++)) in E. simpl. rewrite E in *.
      by split_and!.
Qed.

Lemma sorted_replace l1 l2 v w :
  StronglySorted addr_lt (l1 ++ v :: l2) -> val_Address v = val_Address w ->
  StronglySorted addr_lt (l1 ++ w :: l2).
Proof.
  intros Hs Ha. apply StronglySorted_app in Hs as (H12 & S1 & S2).
  apply StronglySorted_cons in S2 as [HF S2]. apply StronglySorted_app. split_and!; [|done|].
  - intros x y Hx [->|Hy]%elem_of_cons; [|apply H12; set_solver].
    unfold addr_lt. rewrite <- Ha. apply H12; set_solver.
  - constructor; [done|]. eapply Forall_impl; [exact HF|]. intros x. unfold addr_lt. by rewrite Ha.
Qed.

Lemma sorted_split_ne l1 v l2 x :
  StronglySorted addr_lt (l1 ++ v :: l2) -> x ∈ l1 \/ x ∈ l2 -> val_Address x <> val_Address v.
Proof.
  intros (H12 & S1 & S2)%StronglySorted_app [Hx|Hx].
  - apply bytes_lt_ne, H12; set_solver.
  - apply StronglySorted_cons in S2 as [HF S2]. rewrite Forall_forall in HF. apply HF in Hx.
    apply bytes_lt_ne in Hx. congruence.
Qed.

Lemma Update_map vs val : sorted vs ->
  let '(updated, vs') := Update vs val in
  sorted vs' /\ updated = bool_decide (is_Some (to_map (Validators vs) !! val_Address val)) /\
  to_map (Validators vs') =
    (if updated then <[val_Address val := val]> (to_map (Validators vs)) else to_map (Validators vs)).
Proof.
  intros Hs. unfold Update, GetByAddress. cbv zeta.
  destruct (locate vs (val_Address val) Hs) as [l1 v l2 Hk E Ha Hm|l1 l2 Hk E H1 H2 Hn Hm]; rewrite Hm.
  - assert (Validators vs !! search vs (val_Address val) = Some v) as -> by (rewrite E; by apply lookup_search).
    rewrite Ha, bytes_eqb_refl. unfold sorted in *. cbn [Validators]. rewrite Nat2Z.id, <- Hk. rewrite E in *.
    rewrite insert_app_r_alt, Nat.sub_diag by lia. simpl.
    pose proof (sorted_replace _ _ _ val Hs Ha) as Hs'.
    split_and!; [done|done|].
    apply map_ext_sorted; [done|]. intros a w. rewrite lookup_insert_Some, to_map_lookup by done.
    pose proof (fun x => sorted_split_ne _ _ _ x Hs') as Hne. set_unfold. clear - Hne Ha. naive_solver.
  - rewrite bool_decide_eq_false_2 by (by intros [? ?]).
    destruct (Validators vs !! search vs (val_Address val)) eqn:El; [rewrite Hn by done|]; done.
Qed.

Lemma Remove_map vs a : sorted vs ->
  let '(val, removed, vs') := Remove vs a in
  sorted vs' /\ val = to_map (Validators vs) !! a /\ removed = bool_decide (is_Some val) /\
  to_map (Validators vs') = delete a (to_map (Validators vs)).
Proof.
  intros Hs. unfold Remove. cbv zeta.
  destruct (locate vs a Hs) as [l1 v l2 Hk E Ha Hm|l1 l2 Hk E H1 H2 Hn Hm]; rewrite Hm.
  - assert (Validators vs !! search vs a = Some v) as -> by (rewrite E; by apply lookup_search).
    rewrite Ha, bytes_eqb_refl. unfold sorted in *. cbn [Validators]. rewrite <- Hk. rewrite E in *.
    rewrite take_app_length. replace (S (length l1)) with (length l1 + 1)%nat by lia.
    rewrite drop_app_add. simpl.
    assert (StronglySorted addr_lt (l1 ++ l2)) as Hs'.
    { pose proof Hs as (H12 & S1 & S2)%StronglySorted_app. apply StronglySorted_cons in S2 as [_ S2].
      apply StronglySorted_app. split_and!; [|done..]. intros. apply H12; set_solver. }
    split_and!; [done|done|done|].
    apply map_ext_sorted; [done|]. intros b w. rewrite lookup_delete_Some, to_map_lookup by done.
    pose proof (fun x => sorted_split_ne _ _ _ x Hs) as Hne. set_unfold. clear - Hne Ha. naive_solver.
  - assert (delete a (to_map (Validators vs)) = to_map (Validators vs)) as -> by (by apply delete_id).
    destruct (Validators vs !! search vs a) eqn:El; [rewrite Hn by done|];
      by rewrite bool_decide_eq_false_2 by (by intros [? ?]).
Qed.

(** [sort.Sort] on distinct addresses: a sorted permutation, hence the only one. *)
Lemma insert_val_perm v l : insert_val v l ≡ₚ v :: l.
Proof. induction l as [|x l IH]; simpl; [done|]. case_match; [done|]. rewrite IH. constructor. Qed.

Lemma sort_vals_perm l : sort_vals l ≡ₚ l.
Proof.
  unfold sort_vals. assert (forall acc, foldl (fun acc v => insert_val v acc) acc l ≡ₚ acc ++ l) as Hg; [|apply Hg].
  induction l as [|v l IH]; intros acc; simpl; [by rewrite (right_id_L [] (++))|].
  rewrite IH, insert_val_perm. simpl. by rewrite Permutation_middle.
Qed.

Lemma insert_val_sorted v l :
  StronglySorted addr_lt l -> val_Address v ∉ map val_Address l -> StronglySorted addr_lt (insert_val v l).
Proof.
  induction 1 as [|x l Hs IH HF]; simpl; intros Hni; [by repeat constructor|].
  apply not_elem_of_cons in Hni as [Hne Hni].
  destruct (bytes_ltb (val_Address v) (val_Address x)) eqn:E.
  - apply bytes_ltb_lt in E. constructor; [by constructor|]. constructor; [done|].
    eapply Forall_impl; [exact HF|]. intros y. unfold addr_lt. eauto using bytes_lt_trans.
  - constructor; [by apply IH|]. rewrite insert_val_perm. constructor; [|done].
    unfold addr_lt. destruct (bytes_lt_total (val_Address v) (val_Address x)) as [Hl|[|]]; [|done|done].
    apply bytes_ltb_lt in Hl. congruence.
Qed.

Lemma sort_vals_sorted l : NoDup (map val_Address l) -> StronglySorted addr_lt (sort_vals l).
Proof.
  intros Hnd. unfold sort_vals.
  assert (forall acc, StronglySorted addr_lt acc -> NoDup (map val_Address (acc ++ l)) ->
    StronglySorted addr_lt (foldl (fun acc v => insert_val v acc) acc l)) as Hg; [|apply Hg; [constructor|done]].
  clear Hnd. induction l as [|v l IH]; intros acc Hs Hnd; simpl; [done|].
  assert (NoDup (map val_Address (v :: acc ++ l))) as Hnd'.
  { eapply NoDup_Permutation_proper; [|exact Hnd]. apply fmap_Permutation. by rewrite Permutation_middle. }
  apply IH.
  - apply insert_val_sorted; [done|]. inversion Hnd' as [|? ? Hni _]. intros Hin. apply Hni.
    rewrite map_app. set_solver.
  - eapply NoDup_Permutation_proper; [|exact Hnd']. apply fmap_Permutation. by rewrite insert_val_perm.
Qed.

(** ** Proposer rotation

    The abstract step: among the validators, one of greatest accum is picked
    and pays the total voting power. *)
Definition accums (l : list Validator) : list Z := map val_Accum l.
Definition powers (l : list Validator) : list Z := map val_VotingPower l.
Definition total (l : list Validator) : Z := zsum (powers l).

Definition is_max (l : list Validator) (m : nat) (v : Validator) : Prop :=
  l !! m = Some v /\ forall w, w ∈ l -> val_Accum w <= val_Accum v.

Definition pay (T : Z) (v : Validator) : Validator := set_Accum (val_Accum v - T) v.

Inductive picks (T : Z) : list nat -> list Validator -> list Validator -> Prop :=
| picks_nil l : picks T [] l l
| picks_cons m ms v l l' :
    is_max l m v -> picks T ms (<[m := pay T v]> l) l' -> picks T (m :: ms) l l'.

#[export] Instance accum_laws : ComparableLaws accumComparable.
Proof.
  split; unfold Less, accum_comparable; intros *; rewrite ?Z.ltb_lt, ?Z.ltb_ge; lia.
Qed.

Fixpoint entries (i : nat) (l : list Validator) : list (nat * accumComparable) :=
  match l with [] => [] | v :: l' => (i, AC (val_Accum v)) :: entries (S i) l' end.

Lemma entries_lookup l i j : entries i l !! j = (fun v => ((i + j)%nat, AC (val_Accum v))) <$> l !! j.
Proof.
  revert i j. induction l as [|v l IH]; intros i [|j]; simpl; [done..| |].
  - by rewrite Nat.add_0_r.
  - rewrite IH. by rewrite Nat.add_succ_r.
Qed.

Lemma entries_insert l m v : entries 0 (<[m := v]> l) = <[m := (m, AC (val_Accum v))]> (entries 0 l).
Proof.
  apply list_eq. intros j. destruct (decide (j = m)) as [->|Hne].
  - rewrite entries_lookup. destruct (decide (m < length l)%nat) as [Hl|Hl].
    + rewrite !list_lookup_insert_eq; [done| |done].
      destruct (lookup_lt_is_Some_2 l m Hl) as [w Hw]. apply (lookup_lt_Some _ _ (m, AC (val_Accum w))).
      by rewrite entries_lookup, Hw.
    + rewrite !list_insert_ge; [by rewrite entries_lookup| |lia].
      apply lookup_ge_None. rewrite entries_lookup. by rewrite (proj2 (lookup_ge_None l m)) by lia.
  - rewrite entries_lookup, !list_lookup_insert_ne by done. by rewrite entries_lookup.
Qed.

Lemma insert_perm {A} (l : list A) m x y X : l !! m = Some x -> l ≡ₚ x :: X -> <[m := y]> l ≡ₚ y :: X.
Proof.
  intros Hm HX. rewrite <- (take_drop_middle l m x Hm) in HX.
  rewrite insert_take_drop by (by eapply lookup_lt_Some).
  rewrite <- Permutation_middle in HX |- *. constructor. by apply Permutation_cons_inv in HX.
Qed.

Lemma push_all_spec i l h :
  GoHeap.wf h -> GoHeap.wf (push_all i l h) /\
    map GoHeap.vp (push_all i l h) ≡ₚ entries i l ++ map GoHeap.vp h.
Proof.
  revert i h. induction l as [|v l IH]; intros i h Hh; simpl; [done|].
  destruct (GoHeap.hPush_spec h i (AC (val_Accum v)) Hh) as [Hw Hp].
  destruct (IH (S i) _ Hw) as [Hw' Hp']. split; [done|]. rewrite Hp', Hp.
  by rewrite Permutation_middle.
Qed.

(** The heap holds one entry per validator. *)
Definition tracks (h : heap) (l : list Validator) : Prop :=
  GoHeap.wf h /\ map GoHeap.vp h ≡ₚ entries 0 l.

Lemma tracks_peek h l : tracks h l -> l <> [] ->
  exists m v, GoHeap.Peek h = Some m /\ is_max l m v.
Proof.
  intros [Hw Hp] Hne. destruct h as [|it h].
  { apply Permutation_nil_l in Hp. destruct l; [done|discriminate Hp]. }
  destruct (GoHeap.Peek_minimal (it :: h) (GoHeap.value it) Hw eq_refl) as (p & Hin & Hmin).
  rewrite Hp in Hin. apply list_elem_of_lookup in Hin as [j Hj]. rewrite entries_lookup in Hj.
  destruct (l !! j) as [v|] eqn:El; simplify_eq/=.
  exists (GoHeap.value it), v. split; [done|]. split; [done|]. intros w Hw'.
  apply list_elem_of_lookup in Hw' as [k Hk].
  assert ((k, AC (val_Accum w)) ∈ map GoHeap.vp (it :: h)) as Hkin.
  { rewrite Hp. apply list_elem_of_lookup. exists k. by rewrite entries_lookup, Hk. }
  apply Hmin in Hkin. unfold Less, accum_comparable in Hkin. simpl in Hkin.
  apply Z.ltb_ge in Hkin. lia.
Qed.

Lemma tracks_update h l m v a :
  tracks h l -> GoHeap.Peek h = Some m -> l !! m = Some v ->
  exists h', GoHeap.hUpdate h m (AC a) = Ok h' /\ tracks h' (<[m := set_Accum a v]> l).
Proof.
  intros [[Hh Hi] Hp] Hpk Hv. destruct h as [|it h]; [done|].
  destruct (GoHeap.hUpdate_spec it h m (AC a) Hi) as (h' & E & Hw' & Hp').
  { intros k Hk _. apply Hh. lia. }
  exists h'. split; [done|]. split; [done|]. rewrite Hp', entries_insert. symmetry.
  apply (insert_perm _ m (m, AC (val_Accum v))); [by rewrite entries_lookup, Hv|].
  rewrite <- Hp. injection Hpk as Hm.
  assert (GoHeap.vp it ∈ entries 0 l) as Hin by (rewrite <- Hp; left).
  apply list_elem_of_lookup in Hin as [j Hj]. rewrite entries_lookup in Hj.
  destruct (l !! j) as [w|] eqn:El; [|done]. injection Hj as Hjv Hjp.
  assert (GoHeap.vp it = (m, AC (val_Accum v))) as Hvp by (unfold GoHeap.vp; congruence).
  cbn [map]. by rewrite Hvp.
Qed.

Definition cached (vs : t) : Prop :=
  totalVotingPower vs = 0 \/ totalVotingPower vs = total (Validators vs).
Definition nonneg (l : list Validator) : Prop := Forall (fun v => 0 <= val_VotingPower v) l.

Lemma sum_powers l acc :
  nonneg l -> 0 <= acc -> acc + total l < 2 ^ 63 ->
  foldl (fun acc v => i64 (acc + val_VotingPower v)) acc l = acc + total l.
Proof.
  intros Hn. revert acc. unfold total, powers. induction Hn as [|v l Hv Hn IH]; intros acc Ha Hs; simpl; [lia|].
  simpl in Hs. assert (0 <= zsum (map val_VotingPower l)).
  { apply zsum_nonneg. by apply Forall_map. }
  rewrite i64_id by (unfold is_i64; lia). rewrite IH; lia.
Qed.

Lemma TotalVotingPower_ok vs :
  nonneg (Validators vs) -> total (Validators vs) < 2 ^ 63 -> cached vs ->
  TotalVotingPower vs = (total (Validators vs), mk (Validators vs) (proposer vs) (total (Validators vs))).
Proof.
  intros Hn Ht Hc. unfold TotalVotingPower. destruct (Z.eqb_spec (totalVotingPower vs) 0) as [E|E].
  - rewrite sum_powers by (done || lia). done.
  - destruct Hc as [|Hc]; [done|]. rewrite <- Hc. by destruct vs.
Qed.

Lemma powers_insert l m v w : l !! m = Some v -> val_VotingPower w = val_VotingPower v ->
  powers (<[m := w]> l) = powers l.
Proof.
  intros Hm Hp. unfold powers. change (@map Validator Z) with (@fmap list list_fmap Validator Z).
  rewrite list_fmap_insert, Hp. apply list_insert_id. by rewrite list_lookup_fmap, Hm.
Qed.

Lemma accums_insert l m v w : l !! m = Some v ->
  zsum (accums (<[m := w]> l)) = zsum (accums l) - val_Accum v + val_Accum w.
Proof.
  intros Hm. unfold accums. change (@map Validator Z) with (@fmap list list_fmap Validator Z).
  rewrite list_fmap_insert. apply zsum_insert. by rewrite list_lookup_fmap, Hm.
Qed.

Lemma nonneg_insert l m v w : l !! m = Some v -> val_VotingPower w = val_VotingPower v ->
  nonneg l -> nonneg (<[m := w]> l).
Proof.
  intros Hm Hp Hn. apply Forall_insert; [done|]. rewrite Hp.
  by apply (proj1 (Forall_lookup _ _) Hn m v).
Qed.

Lemma is_max_pos l m v : is_max l m v -> 0 < zsum (accums l) -> 0 < val_Accum v.
Proof.
  intros [Hm Hmax] Hs. destruct (decide (0 < val_Accum v)) as [|Hn]; [done|]. exfalso.
  assert (zsum (accums l) <= zsum (map (fun _ => 0) l)) as Hle.
  { apply zsum_map_le. intros w Hw. apply Hmax in Hw. lia. }
  assert (zsum (map (fun _ : Validator => 0) l) = 0) as Hz by (clear; induction l; simpl; lia). lia.
Qed.

(** The loop refines the abstract steps; the last pick is the proposer. *)
Lemma inc_loop_picks k vs h :
  let T := total (Validators vs) in
  0 < T < 2 ^ 62 -> Validators vs <> [] -> nonneg (Validators vs) -> cached vs ->
  tracks h (Validators vs) -> Forall (fun v => is_i64 (val_Accum v)) (Validators vs) ->
  T * Z.of_nat k <= zsum (accums (Validators vs)) ->
  exists ms vs', inc_loop k vs h = Ok vs' /\ length ms = k /\
    picks T ms (Validators vs) (Validators vs') /\ cached vs' /\
    proposer vs' = match last ms with Some m => Some (PIn m) | None => proposer vs end.
Proof.
  revert vs h. induction k as [|k IH]; intros vs h T HT Hne Hn Hc Htr Hi Hs.
  { exists [], vs. split_and!; try done. constructor. }
  destruct (tracks_peek h _ Htr Hne) as (m & v & Hpk & Hmax). pose proof Hmax as [Hm _].
  assert (0 < val_Accum v) as Hpos by (eapply is_max_pos; [done|lia]).
  assert (is_i64 (val_Accum v)) as Hvi by (by apply (proj1 (Forall_lookup _ _) Hi m v)).
  assert (i64 (val_Accum v - T) = val_Accum v - T) as Hi64.
  { apply i64_id. unfold is_i64 in *. lia. }
  set (vs0 := if (k =? 0)%nat then set_proposer (Some (PIn m)) vs else vs).
  assert (Validators vs0 = Validators vs) as Hv0 by (unfold vs0; by case_match).
  assert (TotalVotingPower vs0 = (T, mk (Validators vs) (proposer vs0) T)) as Htot.
  { rewrite TotalVotingPower_ok; rewrite ?Hv0; [done|done|lia|].
    unfold cached. rewrite Hv0. unfold vs0. by case_match. }
  destruct (tracks_update h _ m v (val_Accum v - T) Htr Hpk Hm) as (h' & Hh' & Htr').
  set (vs1 := mk (<[m := pay T v]> (Validators vs)) (proposer vs0) T).
  assert (total (Validators vs1) = T) as HT1.
  { unfold total. simpl. by rewrite (powers_insert _ _ v). }
  assert (zsum (accums (Validators vs1)) = zsum (accums (Validators vs)) - T) as Hs1.
  { simpl. rewrite (accums_insert _ _ v) by done. simpl. lia. }
  destruct (IH vs1 h') as (ms & vs' & E & Hlen & Hpicks & Hc' & Hpr).
  - rewrite HT1. done.
  - simpl. intros Hnil. apply (f_equal length) in Hnil. rewrite length_insert in Hnil.
    by destruct (Validators vs).
  - by apply (nonneg_insert _ _ v).
  - right. by rewrite HT1.
  - done.
  - apply Forall_insert; [done|]. simpl. rewrite <- Hi64. apply i64_range.
  - rewrite HT1, Hs1. lia.
  - exists (m :: ms), vs'. cbn [inc_loop]. rewrite Hpk. cbn [deref rbind]. fold vs0.
    rewrite Hv0, Hm. cbn [deref rbind]. rewrite Htot, Hi64. cbn [Validators proposer totalVotingPower].
    unfold set_validators. cbn [Validators proposer totalVotingPower]. rewrite Hh'. cbn [rbind].
    fold (pay T v). fold vs1. rewrite HT1 in Hpicks.
    split_and!; [done|simpl; lia|by econstructor|done|].
    rewrite Hpr. destruct ms as [|m' ms]; [simpl in Hlen; by subst k|].
    change (last (m :: m' :: ms)) with (last (m' :: ms)).
    destruct (last (m' :: ms)) eqn:El; [done|]. by apply last_None in El.
Qed.

(** The state between two calls: powers and caches consistent, accums that
    sum to zero and stay above [-T].  [size * T] below 2^60 leaves room for
    every intermediate value. *)
Definition accum_inv (vs : t) : Prop :=
  let l := Validators vs in
  l <> [] /\ nonneg l /\ cached vs /\ 0 < total l /\ Z.of_nat (length l) * total l < 2 ^ 60 /\
  zsum (accums l) = 0 /\ Forall (fun v => - total l < val_Accum v) l.

Lemma accum_upper l T v :
  zsum (accums l) = 0 -> 0 < T -> Forall (fun v => - T < val_Accum v) l -> v ∈ l ->
  val_Accum v <= (Z.of_nat (length l) - 1) * T.
Proof.
  intros Hs HT HF [i Hi]%list_elem_of_lookup.
  assert (forall l, Forall (fun v => - T < val_Accum v) l -> - T * Z.of_nat (length l) <= zsum (accums l)) as Hlow.
  { clear. induction 1 as [|w l Hw _ IH]; simpl; lia. }
  rewrite <- (take_drop_middle l i v Hi) in Hs, HF |- *. rewrite length_app. cbn [length].
  apply Forall_app in HF as [H1 [_ H2]%Forall_cons]. pose proof (Hlow _ H1). pose proof (Hlow _ H2).
  unfold accums in *. rewrite map_app, zsum_app in Hs. simpl in Hs. lia.
Qed.

Lemma picks_preserves T ms l l' :
  picks T ms l l' -> 0 < T -> T * Z.of_nat (length ms) <= zsum (accums l) ->
  Forall (fun v => - T < val_Accum v) l ->
  zsum (accums l') = zsum (accums l) - T * Z.of_nat (length ms) /\
  Forall (fun v => - T < val_Accum v) l' /\
  map (set_Accum 0) l' = map (set_Accum 0) l.
Proof.
  intros Hp HT. induction Hp as [l|m ms v l l' Hmax Hp IH]; intros Hs HF.
  { split_and!; [simpl; lia|done|done]. }
  pose proof Hmax as [Hm _]. simpl length in *.
  assert (0 < val_Accum v) as Hpos by (eapply is_max_pos; [done|lia]).
  destruct IH as (Hs' & HF' & Hid).
  - rewrite (accums_insert _ _ v) by done. simpl. lia.
  - apply Forall_insert; [done|]. simpl. lia.
  - split_and!; [|done|].
    + rewrite Hs', (accums_insert _ _ v) by done. simpl. lia.
    + rewrite Hid. change (@map Validator Validator) with (@fmap list list_fmap Validator Validator).
      rewrite list_fmap_insert. apply list_insert_id. by rewrite list_lookup_fmap, Hm.
Qed.

Lemma powers_set_Accum l l' : map (set_Accum 0) l' = map (set_Accum 0) l -> powers l' = powers l.
Proof.
  intros E. apply (f_equal (map val_VotingPower)) in E. rewrite !map_map in E. exact E.
Qed.

Lemma powers_nonneg l : nonneg l <-> Forall (fun z => 0 <= z) (powers l).
Proof. unfold nonneg, powers. by rewrite Forall_map. Qed.

(** The first loop of [IncrementAccum], without overflow. *)
Definition bump (times : Z) (v : Validator) : Validator :=
  set_Accum (val_Accum v + val_VotingPower v * times) v.

Lemma powers_bump times l : powers (map (bump times) l) = powers l.
Proof. unfold powers. by rewrite map_map. Qed.

Lemma accums_bump times l : zsum (accums (map (bump times) l)) = zsum (accums l) + total l * times.
Proof.
  unfold accums, total, powers. rewrite map_map. simpl. rewrite zsum_map_add. f_equal.
  induction l; simpl; lia.
Qed.

Lemma power_le_total l v : nonneg l -> v ∈ l -> 0 <= val_VotingPower v <= total l.
Proof.
  intros Hn Hv. pose proof (proj1 (Forall_forall _ _) Hn v Hv) as Hv0. simpl in Hv0. split; [done|].
  apply list_elem_of_lookup in Hv as [i Hi]. apply (zsum_elem_le (powers l) i).
  - by apply powers_nonneg.
  - unfold powers. change (@map Validator Z) with (@fmap list list_fmap Validator Z).
    by rewrite list_lookup_fmap, Hi.
Qed.

(** Under the invariant, the additions of the first loop do not wrap. *)
Lemma bump_exact times vs :
  accum_inv vs -> 1 <= times -> total (Validators vs) * times < 2 ^ 60 ->
  map (add_power times) (Validators vs) = map (bump times) (Validators vs) /\
  Forall (fun v => - total (Validators vs) < val_Accum v < 2 ^ 61) (map (bump times) (Validators vs)).
Proof.
  intros (Hne & Hn & Hc & HT & Hnt & Hs & HF) Ht Htt. set (l := Validators vs) in *. set (T := total l) in *.
  assert (0 < Z.of_nat (length l)) as Hlen by (destruct l; simpl; [done|lia]).
  assert (T < 2 ^ 60) as HT60 by nia.
  assert (forall v, v ∈ l -> 0 <= val_VotingPower v * times < 2 ^ 60 /\
    - T < val_Accum v < 2 ^ 60) as Hacc.
  { intros v Hv. pose proof (power_le_total l v Hn Hv) as Hvp. fold T in Hvp.
    pose proof (proj1 (Forall_forall _ _) HF v Hv) as Hlo. simpl in Hlo.
    pose proof (accum_upper l T v Hs HT HF Hv). nia. }
  split.
  - apply map_ext_in. intros v Hv%list_elem_of_In. destruct (Hacc v Hv) as [? ?].
    unfold add_power, bump. f_equal.
    rewrite (i64_id (val_VotingPower v * times)) by (unfold is_i64; lia).
    apply i64_id. unfold is_i64. lia.
  - apply Forall_map, Forall_forall. intros v Hv. destruct (Hacc v Hv). simpl. lia.
Qed.

Lemma accum_inv_after vs vs' T :
  accum_inv vs -> T = total (Validators vs) -> cached vs' ->
  map (set_Accum 0) (Validators vs') = map (set_Accum 0) (Validators vs) ->
  zsum (accums (Validators vs')) = 0 -> Forall (fun v => - T < val_Accum v) (Validators vs') ->
  accum_inv vs'.
Proof.
  intros (Hne & Hn & Hc & HT & Hnt & Hs & HF) -> Hc' Hid Hs' HF'.
  pose proof (powers_set_Accum _ _ Hid) as Hpw.
  assert (length (Validators vs') = length (Validators vs)) as Hlen.
  { apply (f_equal length) in Hid. by rewrite !length_map in Hid. }
  unfold accum_inv, total. rewrite Hpw, Hlen. split_and!; try done.
  - intros Hnil. rewrite Hnil in Hlen. by destruct (Validators vs).
  - apply powers_nonneg. rewrite Hpw. by apply powers_nonneg.
Qed.

Lemma IncrementAccum_picks times vs :
  accum_inv vs -> 1 <= times -> total (Validators vs) * times < 2 ^ 60 ->
  exists ms p vs', IncrementAccum times vs = Ok vs' /\ length ms = Z.to_nat times /\
    last ms = Some p /\ proposer vs' = Some (PIn p) /\
    picks (total (Validators vs)) ms (map (bump times) (Validators vs)) (Validators vs') /\
    accum_inv vs' /\ map (set_Accum 0) (Validators vs') = map (set_Accum 0) (Validators vs).
Proof.
  intros Hinv Ht Htt. destruct (bump_exact times vs Hinv Ht Htt) as [Hadd Hrange].
  pose proof Hinv as (Hne & Hn & Hc & HT & Hnt & Hs & HF).
  set (l := Validators vs) in *. set (T := total l) in *. set (l1 := map (bump times) l) in *.
  assert (total l1 = T) as HT1 by (unfold total, l1; by rewrite powers_bump).
  assert (zsum (accums l1) = T * times) as Hs1 by (unfold l1; rewrite accums_bump; fold T; lia).
  assert (0 < Z.of_nat (length l)) as Hlen0 by (destruct l; simpl; [done|lia]).
  destruct (push_all_spec 0 l1 []) as [Hw Hp]. { split; [intros k Hk; simpl in Hk; lia|done]. }
  cbn [map] in Hp. rewrite (right_id_L [] (++)) in Hp.
  destruct (inc_loop_picks (Z.to_nat times) (set_validators l1 vs) (push_all 0 l1 [])) as
    (ms & vs' & E & Hlen & Hpk & Hc' & Hpr); cbn [set_validators Validators]; rewrite ?HT1; try done.
  - nia.
  - unfold l1. by destruct l.
  - apply powers_nonneg. unfold l1. rewrite powers_bump. by apply powers_nonneg.
  - unfold cached. simpl. rewrite HT1. exact Hc.
  - eapply Forall_impl; [exact Hrange|]. intros v [? ?]. unfold is_i64. nia.
  - rewrite Hs1. lia.
  - cbn [set_validators Validators] in Hpk. rewrite HT1 in Hpk.
    destruct (last ms) as [p|] eqn:El; [|apply last_None in El; subst; simpl in Hlen; lia].
    destruct (picks_preserves _ _ _ _ Hpk HT) as (Hs' & HF' & Hid); [lia| |].
    { eapply Forall_impl; [exact Hrange|]. by intros v [? ?]. }
    assert (map (set_Accum 0) (Validators vs') = map (set_Accum 0) l) as Hid'.
    { rewrite Hid. unfold l1. by rewrite map_map. }
    exists ms, p, vs'. split_and!; try done.
    + unfold IncrementAccum. fold l. by rewrite Hadd.
    + apply (accum_inv_after vs vs' T Hinv eq_refl Hc' Hid'); [rewrite Hs', Hs1, Hlen; lia|done].
Qed.

(** ** Successive rounds *)
Definition proposer_index (vs : t) : option nat :=
  match proposer vs with Some (PIn i) => Some i | _ => None end.

(** [n] successive calls of [IncrementAccum(1)] and the proposers they set. *)
Fixpoint rounds (n : nat) (vs : t) : res (list nat * t) :=
  match n with
  | O => Ok ([], vs)
  | S n' =>
      let! vs1 := IncrementAccum 1 vs in
      let! i := deref (proposer_index vs1) in
      let! (ps, vs2) := rounds n' vs1 in
      Ok (i :: ps, vs2)
  end.

Definition times_proposed (i : nat) (ps : list nat) : Z := Z.of_nat (count_occ Nat.eq_dec ps i).

Lemma picks_one T m l l' :
  picks T [m] l l' -> exists v, is_max l m v /\ l' = <[m := pay T v]> l.
Proof.
  intros Hp. inversion Hp as [|? ? v ? ? Hmax Hp']; subst. exists v. split; [done|]. by inversion Hp'.
Qed.

Lemma one_round vs :
  accum_inv vs ->
  exists p vs', IncrementAccum 1 vs = Ok vs' /\ proposer_index vs' = Some p /\ accum_inv vs' /\
    total (Validators vs') = total (Validators vs) /\
    length (Validators vs') = length (Validators vs) /\
    forall i v, Validators vs !! i = Some v -> exists v', Validators vs' !! i = Some v' /\
      val_VotingPower v' = val_VotingPower v /\
      val_Accum v' = val_Accum v + val_VotingPower v -
        (if decide (i = p) then total (Validators vs) else 0).
Proof.
  intros Hinv. pose proof Hinv as (Hne & _ & _ & HT & Hnt & _ & _).
  assert (0 < Z.of_nat (length (Validators vs))) by (destruct (Validators vs); simpl; [done|lia]).
  destruct (IncrementAccum_picks 1 vs Hinv) as (ms & p & vs' & E & Hlen & Hlast & Hp & Hpk & Hinv' & Hid);
    [lia|nia|].
  destruct ms as [|m [|]]; simplify_eq/=. apply picks_one in Hpk as (v0 & [Hm _] & E1). exists p, vs'.
  assert (length (Validators vs') = length (Validators vs)) as Hl.
  { apply (f_equal length) in Hid. by rewrite !length_map in Hid. }
  split_and!; try done.
  - unfold proposer_index. by rewrite Hp.
  - unfold total. by rewrite (powers_set_Accum _ _ Hid).
  - intros i v Hi. rewrite E1. rewrite list_lookup_fmap in Hm. destruct (decide (i = p)) as [->|Hip].
    + rewrite Hi in Hm. simplify_eq/=. eexists. split.
      { apply list_lookup_insert_eq. rewrite length_map. by eapply lookup_lt_Some. }
      simpl. lia.
    + eexists. rewrite list_lookup_insert_ne by done. rewrite list_lookup_fmap, Hi.
      split; [done|]. simpl. lia.
Qed.

Lemma rounds_accum n vs :
  accum_inv vs ->
  exists ps vs', rounds n vs = Ok (ps, vs') /\ length ps = n /\ accum_inv vs' /\
    total (Validators vs') = total (Validators vs) /\
    length (Validators vs') = length (Validators vs) /\
    forall i v, Validators vs !! i = Some v -> exists v', Validators vs' !! i = Some v' /\
      val_Accum v' = val_Accum v + Z.of_nat n * val_VotingPower v
                     - total (Validators vs) * times_proposed i ps.
Proof.
  revert vs. induction n as [|n IH]; intros vs Hinv.
  { exists [], vs. split_and!; try done. intros i v Hv. exists v. split; [done|].
    unfold times_proposed. simpl. lia. }
  destruct (one_round vs Hinv) as (p & vs1 & E1 & Hp & Hinv1 & HT1 & HL1 & H1).
  destruct (IH vs1 Hinv1) as (ps & vs' & E2 & Hlen & Hinv' & HT' & HL' & H2).
  exists (p :: ps), vs'. cbn [rounds]. rewrite E1. cbn [rbind]. rewrite Hp. cbn [deref rbind]. rewrite E2.
  split_and!; try done; [simpl; lia|congruence|congruence|].
  intros i v Hv. destruct (H1 i v Hv) as (v1 & Hv1 & Hpw & Ha1).
  destruct (H2 i v1 Hv1) as (v' & Hv' & Ha'). exists v'. split; [done|].
  rewrite Ha', Ha1, Hpw, HT1. unfold times_proposed. cbn [count_occ].
  destruct (Nat.eq_dec p i), (decide (i = p)); subst; try done; lia.
Qed.

(** C34: [ValidatorSet]'s slice, kept sorted by address, implements a finite
    map from addresses: the lookups by binary search read the map, and [Add],
    [Update] and [Remove] perform insert-if-absent, replace-if-present and
    delete, report whether they did, and keep the slice sorted. *)
Theorem validator_set_refines_map vs :
  sorted vs ->
  let m := to_map (Validators vs) in
  (forall a, HasAddress vs a = bool_decide (is_Some (m !! a)) /\ (GetByAddress vs a).2 = m !! a) /\
  (forall val, let '(added, vs') := Add vs val in
     sorted vs' /\ added = bool_decide (m !! val_Address val = None) /\
     to_map (Validators vs') = if added then <[val_Address val := val]> m else m) /\
  (forall val, let '(updated, vs') := Update vs val in
     sorted vs' /\ updated = bool_decide (is_Some (m !! val_Address val)) /\
     to_map (Validators vs') = if updated then <[val_Address val := val]> m else m) /\
  (forall a, let '(val, removed, vs') := Remove vs a in
     sorted vs' /\ val = m !! a /\ removed = bool_decide (is_Some val) /\
     to_map (Validators vs') = delete a m).
Proof.
  intros Hs m. split_and!.
  - intros a. split; [by apply HasAddress_map|by apply GetByAddress_map].
  - intros val. by apply Add_map.
  - intros val. by apply Update_map.
  - intros a. by apply Remove_map.
Qed.

(** C26: under the accum invariant (powers non-negative, accums summing to
    zero and above minus the total power, no overflow in sight),
    [IncrementAccum(times)] does not panic; it adds [times] shares to every
    validator, then [times] times charges the total power to a validator of
    greatest accum found by the heap; the last one charged is the proposer,
    nothing but accums changes, and the invariant holds again. *)
Theorem increment_accum_refines times vs :
  accum_inv vs -> 1 <= times -> total (Validators vs) * times < 2 ^ 60 ->
  exists ms p vs', IncrementAccum times vs = Ok vs' /\ length ms = Z.to_nat times /\
    last ms = Some p /\ proposer vs' = Some (PIn p) /\
    picks (total (Validators vs)) ms (map (bump times) (Validators vs)) (Validators vs') /\
    accum_inv vs' /\ map (set_Accum 0) (Validators vs') = map (set_Accum 0) (Validators vs).
Proof. apply IncrementAccum_picks. Qed.

(** C27: proportional fairness.  From a set with zero accums, over [n]
    successive rounds every validator proposes in proportion to its voting
    power: its number of turns times the total power is less than one total
    above, and less than [size] totals below, [n] times its power. *)
Theorem proposer_fairness n vs :
  accum_inv vs -> Forall (fun v => val_Accum v = 0) (Validators vs) ->
  exists ps vs', rounds n vs = Ok (ps, vs') /\ length ps = n /\
    forall i v, Validators vs !! i = Some v ->
      Z.of_nat n * val_VotingPower v - (Size vs - 1) * total (Validators vs)
        <= total (Validators vs) * times_proposed i ps
        < Z.of_nat n * val_VotingPower v + total (Validators vs).
Proof.
  intros Hinv H0. destruct (rounds_accum n vs Hinv) as (ps & vs' & E & Hlen & Hinv' & HT & HL & H).
  exists ps, vs'. split_and!; [done..|]. intros i v Hv. destruct (H i v Hv) as (v' & Hv' & Ha).
  pose proof (proj1 (Forall_lookup _ _) H0 i v Hv) as Hz. simpl in Hz.
  destruct Hinv' as (_ & _ & _ & HTp & _ & Hs & HF).
  pose proof (accum_upper _ _ _ Hs HTp HF (list_elem_of_lookup_2 _ _ _ Hv')) as Hup.
  pose proof (proj1 (Forall_lookup _ _) HF i v' Hv') as Hlo. simpl in Hlo.
  rewrite HT, HL in *. unfold Size. lia.
Qed.

Definition sample_validator (a : Z) (power : Z) : Validator :=
  mkVal [a] (PubKeyEd25519 (replicate 32 a)) power 0 true.
Definition sample_set : t := mk [sample_validator 1 1; sample_validator 2 2; sample_validator 3 3] None 0.

Lemma sample_set_inv : accum_inv sample_set.
Proof.
  unfold accum_inv. split_and!; try (vm_compute; reflexivity || discriminate).
  - repeat constructor; simpl; lia.
  - by left.
  - repeat constructor; vm_compute; reflexivity.
Qed.

Lemma sample_set_sorted : sorted sample_set.
Proof. repeat constructor. Qed.

Lemma validator_set_refines_map_witness :
  let '(added, vs') := Add sample_set (sample_validator 0 5) in
  sorted vs' /\ added = true.
Proof.
  pose proof (validator_set_refines_map sample_set sample_set_sorted) as (_ & H & _).
  destruct (H (sample_validator 0 5)) as [Hs [Ha _]]. split; [exact Hs|reflexivity].
Defined.

Lemma increment_accum_refines_witness :
  exists (ms : list nat) p vs', IncrementAccum 2 sample_set = Ok vs' /\ length ms = 2%nat /\ last ms = Some p.
Proof.
  destruct (increment_accum_refines 2 sample_set sample_set_inv) as (ms & p & vs' & H1 & H2 & H3 & _).
  - lia.
  - vm_compute. reflexivity.
  - exists ms, p, vs'. split; [exact H1|]. split; [exact H2|exact H3].
Defined.

Lemma proposer_fairness_witness :
  exists ps vs', rounds 6 sample_set = Ok (ps, vs') /\ length ps = 6%nat.
Proof.
  destruct (proposer_fairness 6 sample_set sample_set_inv) as (ps & vs' & H1 & H2 & _).
  - repeat constructor.
  - exists ps, vs'. split; [exact H1|exact H2].
Defined.

(** Encoding with go-wire and decoding again keeps the exported field only. *)
Definition reload (vs : t) : t := mk (Validators vs) None 0.

Definition proposer_address (vs : t) : option bytes :=
  match Proposer vs with Ok (Some v, _) => Some (val_Address v) | _ => None end.

(** The proposer does not survive persistence.  After [IncrementAccum(1)]
    on three validators of powers 1, 2 and 3 the set answers the third one;
    the same set written and read back (the cache is not an exported field)
    answers the second one, because the charge was already taken off. *)
Theorem proposer_lost_on_reload :
  exists vs1, IncrementAccum 1 sample_set = Ok vs1 /\
    proposer_address vs1 = Some [3] /\ proposer_address (reload vs1) = Some [2].
Proof. eexists. split; [vm_compute; reflexivity|]. split; vm_compute; reflexivity. Qed.

End ValidatorSet.
