(* ===== verification/VoteSets.v ===== *)
(** * gemmill/types/vote_set.go

    A [VoteSet] collects the votes of one height, round and type.  Votes are
    kept per validator in [votes] and per block in [votesByBlock], keyed by
    [BlockID.Key]; [maj23] is set when a bucket first crosses two thirds of
    the voting power. *)
From S2P Require Import Prelude BitArray Types SimpleTree SignBytes Validators.

Inductive vote_err :=
| ErrVoteUnexpectedStep
| ErrVoteInvalidValidatorIndex
| ErrVoteInvalidValidatorAddress
| ErrVoteInvalidSignature
| ErrVoteInvalidBlockHash
| ErrVoteConflictingVotes (VoteA VoteB : Vote).

Module VoteSet.
Import Json.

Record blockVotes := mkBV {
  bv_peerMaj23 : bool;
  bv_bitArray : option BitArray.t;
  bv_votes : list (option Vote);
  bv_sum : Z
}.

Record t := mk {
  chainID : bytes;
  height : Z;
  round : Z;
  type_ : Z;
  valSet : ValidatorSet.t;
  votesBitArray : option BitArray.t;
  votes : list (option Vote);
  sum : Z;
  maj23 : option BlockID;
  votesByBlock : gmap bytes blockVotes;
  peerMaj23s : gmap bytes BlockID
}.

Definition set_valSet (v : ValidatorSet.t) (s : t) : t :=
  mk (chainID s) (height s) (round s) (type_ s) v (votesBitArray s) (votes s) (sum s) (maj23 s)
     (votesByBlock s) (peerMaj23s s).
Definition set_votes (b : option BitArray.t) (vs : list (option Vote)) (sm : Z) (s : t) : t :=
  mk (chainID s) (height s) (round s) (type_ s) (valSet s) b vs sm (maj23 s) (votesByBlock s) (peerMaj23s s).
Definition set_maj23 (m : option BlockID) (s : t) : t :=
  mk (chainID s) (height s) (round s) (type_ s) (valSet s) (votesBitArray s) (votes s) (sum s) m
     (votesByBlock s) (peerMaj23s s).
Definition set_byBlock (m : gmap bytes blockVotes) (s : t) : t :=
  mk (chainID s) (height s) (round s) (type_ s) (valSet s) (votesBitArray s) (votes s) (sum s) (maj23 s)
     m (peerMaj23s s).
Definition set_peerMaj23s (m : gmap bytes BlockID) (s : t) : t :=
  mk (chainID s) (height s) (round s) (type_ s) (valSet s) (votesBitArray s) (votes s) (sum s) (maj23 s)
     (votesByBlock s) m.

Definition make_votes (n : Z) : list (option Vote) := replicate (Z.to_nat n) None.

Definition NewVoteSet (chainID : bytes) (height round type_ : Z) (valSet : ValidatorSet.t) : res t :=
  if height =? 0 then Panic
  else
    let size := ValidatorSet.Size valSet in
    let! ba := BitArray.NewBitArray size in
    Ok (mk chainID height round type_ valSet ba (make_votes size) 0 None ∅ ∅).

(** Readers on a possibly nil receiver *)
Definition Height (s : option t) : Z := match s with None => 0 | Some s => height s end.
Definition Round (s : option t) : Z := match s with None => -1 | Some s => round s end.
Definition Type_ (s : option t) : Z := match s with None => 0 | Some s => type_ s end.
Definition Size (s : option t) : Z := match s with None => 0 | Some s => ValidatorSet.Size (valSet s) end.

(** ** blockVotes *)
Definition newBlockVotes (peerMaj23 : bool) (numValidators : Z) : res blockVotes :=
  let! ba := BitArray.NewBitArray numValidators in
  Ok (mkBV peerMaj23 ba (make_votes numValidators) 0).

Definition bv_addVerifiedVote (vs : blockVotes) (vote : Vote) (votingPower : Z) : res blockVotes :=
  let valIndex := v_ValidatorIndex vote in
  let! existing := go_index (bv_votes vs) valIndex in
  match existing with
  | Some _ => Ok vs
  | None =>
      let! (ba, _) := BitArray.SetIndex (bv_bitArray vs) valIndex true in
      let! votes := go_store (bv_votes vs) valIndex (Some vote) in
      Ok (mkBV (bv_peerMaj23 vs) ba votes (i64 (bv_sum vs + votingPower)))
  end.

Definition bv_getByIndex (vs : option blockVotes) (index : Z) : res (option Vote) :=
  match vs with None => Ok None | Some vs => go_index (bv_votes vs) index end.

(** ** Adding votes *)
Definition getVote (s : t) (valIndex : Z) (blockKey : bytes) : res (option Vote) :=
  let! existing := go_index (votes s) valIndex in
  let from_bucket := bv_getByIndex (votesByBlock s !! blockKey) valIndex in
  match existing with
  | Some v => if bytes_eqb (Key (v_BlockID v)) blockKey then Ok (Some v) else from_bucket
  | None => from_bucket
  end.

(** [TotalVotingPower()*2/3] *)
Definition two_thirds (total : Z) : Z := Z.quot (i64 (total * 2)) 3.

(** The vote goes to [votes] unless another one is there; a conflicting one
    only replaces it when it is for the block with the majority. *)
Definition place_vote (s : t) (vote : Vote) (blockKey : bytes) (votingPower : Z) : res (t * option Vote) :=
  let valIndex := v_ValidatorIndex vote in
  let! existing := go_index (votes s) valIndex in
  match existing with
  | Some ex =>
      if bid_Equals (v_BlockID ex) (v_BlockID vote) then Panic
      else
        match maj23 s with
        | Some m =>
            if bytes_eqb (Key m) blockKey then
              let! vs := go_store (votes s) valIndex (Some vote) in
              let! (ba, _) := BitArray.SetIndex (votesBitArray s) valIndex true in
              Ok (set_votes ba vs (sum s) s, Some ex)
            else Ok (s, Some ex)
        | None => Ok (s, Some ex)
        end
  | None =>
      let! vs := go_store (votes s) valIndex (Some vote) in
      let! (ba, _) := BitArray.SetIndex (votesBitArray s) valIndex true in
      Ok (set_votes ba vs (i64 (sum s + votingPower)) s, None)
  end.

(** The loop that copies the bucket's votes over [votes]. *)
Fixpoint copy_over (i : nat) (from to : list (option Vote)) : res (list (option Vote)) :=
  match from with
  | [] => Ok to
  | None :: from' => copy_over (S i) from' to
  | Some v :: from' =>
      let! to := go_store to (Z.of_nat i) (Some v) in copy_over (S i) from' to
  end.

(** The vote goes to its bucket, and the quorum is checked. *)
Definition add_to_bucket (s : t) (bucket : blockVotes) (vote : Vote) (blockKey : bytes) (votingPower : Z)
    : res t :=
  let origSum := bv_sum bucket in
  let '(total, valSet) := ValidatorSet.TotalVotingPower (valSet s) in
  let quorum := i64 (two_thirds total + 1) in
  let s := set_valSet valSet s in
  let! bucket := bv_addVerifiedVote bucket vote votingPower in
  let s := set_byBlock (<[blockKey := bucket]> (votesByBlock s)) s in
  if (origSum <? quorum) && (quorum <=? bv_sum bucket) then
    match maj23 s with
    | Some _ => Ok s
    | None =>
        let s := set_maj23 (Some (v_BlockID vote)) s in
        let! vs := copy_over 0 (bv_votes bucket) (votes s) in
        Ok (set_votes (votesBitArray s) vs (sum s) s)
    end
  else Ok s.

Definition addVerifiedVote (s : t) (vote : Vote) (blockKey : bytes) (votingPower : Z)
    : res (bool * option Vote * t) :=
  let! (s, conflicting) := place_vote s vote blockKey votingPower in
  match votesByBlock s !! blockKey, conflicting with
  | Some bucket, Some _ =>
      if bv_peerMaj23 bucket then
        let! s := add_to_bucket s bucket vote blockKey votingPower in Ok (true, conflicting, s)
      else Ok (false, conflicting, s)
  | Some bucket, None =>
      let! s := add_to_bucket s bucket vote blockKey votingPower in Ok (true, None, s)
  | None, Some _ => Ok (false, conflicting, s)
  | None, None =>
      let! bucket := newBlockVotes false (ValidatorSet.Size (valSet s)) in
      let! s := add_to_bucket s bucket vote blockKey votingPower in Ok (true, None, s)
  end.

Section Ops.
Context `{Crypto}.

Definition addVote (s : t) (vote : Vote) : res (bool * option vote_err * t) :=
  let valIndex := v_ValidatorIndex vote in
  let valAddr := v_ValidatorAddress vote in
  let blockKey := Key (v_BlockID vote) in
  if (valIndex <? 0) || (length valAddr =? 0)%nat then Panic
  else if negb (v_Height vote =? height s) || negb (v_Round vote =? round s)
          || negb (v_Type vote =? type_ s)
  then Ok (false, Some ErrVoteUnexpectedStep, s)
  else
    let! (lookupAddr, val) := ValidatorSet.GetByIndex (valSet s) valIndex in
    if negb (bytes_eqb valAddr lookupAddr) then Ok (false, Some ErrVoteInvalidValidatorAddress, s)
    else
      let! existing := getVote s valIndex blockKey in
      match existing with
      | Some ex =>
          let! exSig := deref (v_Signature ex) in
          let same := match v_Signature vote with Some sg => sig_Equals exSig sg | None => false end in
          Ok (false, if same then None else Some ErrVoteInvalidSignature, s)
      | None =>
          if negb (VerifyBytes (val_PubKey val) (SignBytes_vote (chainID s) vote) (v_Signature vote))
          then Ok (false, Some ErrVoteInvalidSignature, s)
          else
            let! (added, conflicting, s') := addVerifiedVote s vote blockKey (val_VotingPower val) in
            match conflicting with
            | Some c => Ok (added, Some (ErrVoteConflictingVotes c vote), s')
            | None => if added then Ok (true, None, s') else Panic
            end
      end.

Definition AddVote (s : option t) (vote : Vote) : res (bool * option vote_err * t) :=
  match s with None => Panic | Some s => addVote s vote end.

End Ops.

Definition SetPeerMaj23 (s : t) (peerID : bytes) (blockID : BlockID) : res t :=
  let blockKey := Key blockID in
  match peerMaj23s s !! peerID with
  | Some _ => Ok s
  | None =>
      let s := set_peerMaj23s (<[peerID := blockID]> (peerMaj23s s)) s in
      match votesByBlock s !! blockKey with
      | Some b =>
          Ok (set_byBlock (<[blockKey := mkBV true (bv_bitArray b) (bv_votes b) (bv_sum b)]> (votesByBlock s)) s)
      | None =>
          let! b := newBlockVotes true (ValidatorSet.Size (valSet s)) in
          Ok (set_byBlock (<[blockKey := b]> (votesByBlock s)) s)
      end
  end.

(** ** Reading *)
Definition BitArray_ (s : option t) : option BitArray.t :=
  match s with None => None | Some s => BitArray.Copy (votesBitArray s) end.

Definition BitArrayByBlockID (s : option t) (blockID : BlockID) : option BitArray.t :=
  match s with
  | None => None
  | Some s => match votesByBlock s !! Key blockID with
              | Some b => BitArray.Copy (bv_bitArray b)
              | None => None
              end
  end.

Definition GetByIndex (s : option t) (valIndex : Z) : res (option Vote) :=
  match s with None => Ok None | Some s => go_index (votes s) valIndex end.

Definition GetByAddress (s : option t) (address : bytes) : res (option Vote) :=
  match s with
  | None => Ok None
  | Some s =>
      match ValidatorSet.GetByAddress (valSet s) address with
      | (_, None) => Panic
      | (valIndex, Some _) => go_index (votes s) valIndex
      end
  end.

Definition HasTwoThirdsMajority (s : option t) : bool :=
  match s with None => false | Some s => bool_decide (is_Some (maj23 s)) end.

Definition IsCommit (s : option t) : bool :=
  match s with
  | None => false
  | Some s => if negb (type_ s =? VoteTypePrecommit) then false else bool_decide (is_Some (maj23 s))
  end.

Definition HasTwoThirdsAny (s : option t) : bool :=
  match s with
  | None => false
  | Some s => two_thirds (ValidatorSet.TotalVotingPower (valSet s)).1 <? sum s
  end.

Definition HasAll (s : t) : bool := sum s =? (ValidatorSet.TotalVotingPower (valSet s)).1.

Definition TwoThirdsMajority (s : option t) : BlockID * bool :=
  match s with
  | None => (nilBlockID, false)
  | Some s => match maj23 s with Some b => (b, true) | None => (nilBlockID, false) end
  end.

(** ** Counting votes *)
Fixpoint tally (vals : list Validator) (vs : list (option Vote)) : Z :=
  match vals, vs with
  | val :: vals', Some _ :: vs' => val_VotingPower val + tally vals' vs'
  | _ :: vals', None :: vs' => tally vals' vs'
  | _, _ => 0
  end.

Definition filled (o : option Vote) : bool := match o with Some _ => true | None => false end.

Lemma tally_ext vals vs vs' : map filled vs = map filled vs' -> tally vals vs = tally vals vs'.
Proof.
  revert vs vs'. induction vals as [|val vals IH]; intros vs vs' E; [done|].
  destruct vs as [|o vs], vs' as [|o' vs']; simplify_eq/=; [done|].
  destruct o, o'; simplify_eq/=; by rewrite (IH vs vs').
Qed.

Lemma tally_insert vals vs i val v :
  vals !! i = Some val -> vs !! i = Some None ->
  tally vals (<[i := Some v]> vs) = tally vals vs + val_VotingPower val.
Proof.
  revert vs i. induction vals as [|val' vals IH]; intros [|o vs] [|i] Hv Ho; simplify_eq/=; [lia|].
  destruct o; rewrite (IH vs i) by done; lia.
Qed.

Lemma tally_range vals vs : ValidatorSet.nonneg vals -> 0 <= tally vals vs <= ValidatorSet.total vals.
Proof.
  intros Hn. revert vs. unfold ValidatorSet.total, ValidatorSet.powers.
  induction Hn as [|val vals Hv Hn IH]; intros [|[v|] vs]; simpl; try lia.
  - assert (0 <= zsum (map val_VotingPower vals)) by (apply zsum_nonneg; by apply Forall_map). lia.
  - pose proof (IH vs). lia.
  - pose proof (IH vs). lia.
Qed.

Lemma tally_empty vals n : tally vals (replicate n None) = 0.
Proof. revert n. induction vals; intros [|n]; simpl; auto. Qed.

(** A bit array that records which slots are filled. *)
Definition bits_ok (ba : option BitArray.t) (vs : list (option Vote)) : Prop :=
  match ba with
  | None => vs = []
  | Some b => BitArray.wf b /\ BitArray.Bits b = Z.of_nat (length vs) /\
      forall i o, vs !! i = Some o -> BitArray.bit b (Z.of_nat i) = filled o
  end.

Lemma bits_new n : 0 < n -> exists ba, BitArray.NewBitArray n = Ok ba /\ bits_ok ba (make_votes n).
Proof.
  intros Hn. destruct (BitArray.NewBitArray_ok n Hn) as (b & E & Hb & Hw & Hbit).
  exists (Some b). split; [done|]. split_and!; [done| |].
  - unfold make_votes. rewrite length_replicate. lia.
  - intros i o Ho. apply lookup_replicate in Ho as [-> _]. by rewrite Hbit.
Qed.

Lemma bits_set ba vs i v :
  bits_ok ba vs -> (i < length vs)%nat ->
  exists ba', BitArray.SetIndex ba (Z.of_nat i) true = Ok (ba', true) /\ bits_ok ba' (<[i := Some v]> vs).
Proof.
  intros Hb Hi. destruct ba as [b|]; [|simpl in Hb; subst; simpl in Hi; lia].
  destruct Hb as (Hw & Hbits & Hbit).
  destruct (BitArray.setIndex_ok b (Z.of_nat i) true Hw ltac:(lia)) as (b' & E & Hw' & Hb' & Hbit').
  exists (Some b'). simpl. rewrite E. split; [done|]. split_and!; [done|by rewrite length_insert, Hb'|].
  intros j o Hj. apply lookup_lt_Some in Hj as Hlt. rewrite length_insert in Hlt.
  rewrite Hbit' by lia. destruct (decide (Z.of_nat i = Z.of_nat j)) as [Heq|Hne].
  - apply Nat2Z.inj in Heq as <-. rewrite list_lookup_insert_eq in Hj by done. by simplify_eq.
  - rewrite list_lookup_insert_ne in Hj by lia. by apply Hbit.
Qed.

Lemma bits_ext ba vs vs' : map filled vs = map filled vs' -> bits_ok ba vs -> bits_ok ba vs'.
Proof.
  intros E. assert (length vs = length vs') as El by (apply (f_equal length) in E; by rewrite !length_map in E).
  destruct ba as [b|]; simpl; [|intros ->; simpl in El; by destruct vs'].
  intros (Hw & Hb & Hbit). split_and!; [done|by rewrite Hb, El|].
  intros i o Hi. assert ((map filled vs) !! i = Some (filled o)) as Hf.
  { rewrite E. change (@map (option Vote) bool) with (@fmap list list_fmap (option Vote) bool).
    by rewrite list_lookup_fmap, Hi. }
  change (@map (option Vote) bool) with (@fmap list list_fmap (option Vote) bool) in Hf.
  rewrite list_lookup_fmap in Hf. destruct (vs !! i) as [o'|] eqn:Ho; simplify_eq/=.
  rewrite (Hbit i o' Ho). congruence.
Qed.

Lemma go_index_nat {A} (l : list A) i x : l !! i = Some x -> go_index l (Z.of_nat i) = Ok x.
Proof.
  intros Hi. unfold go_index. destruct (Z.ltb_spec (Z.of_nat i) 0); [lia|]. by rewrite Nat2Z.id, Hi.
Qed.

Lemma go_store_nat {A} (l : list A) i x : (i < length l)%nat -> go_store l (Z.of_nat i) x = Ok (<[i := x]> l).
Proof.
  intros Hi. unfold go_store. destruct (Z.ltb_spec (Z.of_nat i) 0); [lia|].
  destruct (Z.leb_spec (Z.of_nat (length l)) (Z.of_nat i)); [lia|]. by rewrite Nat2Z.id.
Qed.

(** The copy loop overlays the bucket's votes. *)
Definition overlay (from to : list (option Vote)) : list (option Vote) :=
  zip_with (fun f o => match f with Some v => Some v | None => o end) from to.

Lemma copy_over_overlay i from to :
  (length from = length to - i)%nat -> (i <= length to)%nat ->
  copy_over i from to = Ok (take i to ++ overlay from (drop i to)).
Proof.
  revert i to. induction from as [|f from IH]; intros i to Hl Hi; cbn [copy_over].
  - simpl in Hl. rewrite (drop_ge to) by lia. simpl. rewrite (right_id_L [] (++)), take_ge by lia. done.
  - simpl in Hl. destruct (lookup_lt_is_Some_2 to i ltac:(lia)) as [o Ho].
    rewrite (drop_S to o i Ho). destruct f as [v|].
    + rewrite go_store_nat by lia. cbn [rbind]. rewrite IH; rewrite ?length_insert; [|lia..]. simpl.
      rewrite (drop_insert_lt to) by lia. rewrite (take_S_r _ _ (Some v)) by (apply list_lookup_insert_eq; lia).
      rewrite take_insert_ge by lia. by rewrite <- (assoc_L (++)).
    + rewrite IH by lia. simpl. rewrite (take_S_r _ _ o Ho). by rewrite <- (assoc_L (++)).
Qed.

Lemma overlay_lookup from to i : length from = length to ->
  overlay from to !! i = match from !! i with Some (Some v) => Some (Some v) | _ => to !! i end.
Proof.
  unfold overlay. revert to i. induction from as [|f from IH]; intros [|o to] i Hl; simplify_eq/=; [done|].
  destruct i as [|i]; simpl; [by destruct f|]. by apply IH.
Qed.

Lemma overlay_filled from to : length from = length to ->
  (forall i v, from !! i = Some (Some v) -> exists w, to !! i = Some (Some w)) ->
  map filled (overlay from to) = map filled to.
Proof.
  unfold overlay. revert to. induction from as [|f from IH]; intros [|o to] Hl Hf; simplify_eq/=; [done|].
  f_equal.
  - destruct f as [v|]; [|done]. destruct (Hf 0%nat v eq_refl) as [w Hw]. by simplify_eq/=.
  - apply IH; [done|]. intros i v Hi. by apply (Hf (S i) v).
Qed.

(** Votes present in both of two lists. *)
Definition both (a b : list (option Vote)) : list (option Vote) :=
  zip_with (fun x y => match y with Some _ => x | None => None end) a b.

Lemma tally_both vl a b :
  ValidatorSet.nonneg vl -> length a = length vl -> length b = length vl ->
  tally vl a + tally vl b - ValidatorSet.total vl <= tally vl (both a b).
Proof.
  intros Hn. revert a b. unfold ValidatorSet.total, ValidatorSet.powers, both.
  induction Hn as [|val vl Hv Hn IH]; intros [|x a] [|y b] Ha Hb; simplify_eq/=; [lia|].
  pose proof (IH a b Ha Hb). destruct x, y; simpl; lia.
Qed.

Lemma both_lookup a b i v :
  both a b !! i = Some (Some v) -> a !! i = Some (Some v) /\ exists w, b !! i = Some (Some w).
Proof.
  unfold both. rewrite lookup_zip_with. destruct (a !! i) as [x|]; simpl; [|done].
  destruct (b !! i) as [[w|]|]; simpl; intros; simplify_eq; eauto.
Qed.
(** ** The invariant, for a fixed chain, height, round, type and validators *)
Section Invariant.
Context `{Crypto} (cid : bytes) (h r ty : Z) (vals : list Validator).

Let T : Z := ValidatorSet.total vals.
Definition quorum : Z := Z.quot (ValidatorSet.total vals * 2) 3 + 1.

Definition valid_vote (i : nat) (v : Vote) : Prop :=
  exists val, vals !! i = Some val /\
    v_ValidatorIndex v = Z.of_nat i /\ v_ValidatorAddress v = val_Address val /\
    v_Height v = h /\ v_Round v = r /\ v_Type v = ty /\
    VerifyBytes (val_PubKey val) (SignBytes_vote cid v) (v_Signature v) = true.

Definition vals_ok : Prop := ValidatorSet.nonneg vals /\ 0 < ValidatorSet.total vals < 2 ^ 62.

Definition slots_ok (P : nat -> Vote -> Prop) (vs : list (option Vote)) : Prop :=
  length vs = length vals /\ forall i v, vs !! i = Some (Some v) -> P i v.

Definition bucket_ok (s : t) (K : bytes) (b : blockVotes) : Prop :=
  slots_ok (fun i v => valid_vote i v /\ Key (v_BlockID v) = K /\
                       exists w, votes s !! i = Some (Some w)) (bv_votes b) /\
  bits_ok (bv_bitArray b) (bv_votes b) /\ bv_sum b = tally vals (bv_votes b).

(** [ex] is the key of a bucket that is about to be created, if any. *)
Record inv (ex : option bytes) (s : t) : Prop := {
  inv_conf : chainID s = cid /\ height s = h /\ round s = r /\ type_ s = ty;
  inv_vals : ValidatorSet.Validators (valSet s) = vals /\ ValidatorSet.cached (valSet s);
  inv_votes : slots_ok valid_vote (votes s);
  inv_bits : bits_ok (votesBitArray s) (votes s);
  inv_sum : sum s = tally vals (votes s);
  inv_buckets : forall K b, votesByBlock s !! K = Some b -> bucket_ok s K b;
  inv_below : maj23 s = None -> forall K b, votesByBlock s !! K = Some b -> bv_sum b < quorum;
  inv_maj23 : forall B, maj23 s = Some B ->
    exists b, votesByBlock s !! Key B = Some b /\ quorum <= bv_sum b;
  inv_tracked : forall i v, votes s !! i = Some (Some v) -> Some (Key (v_BlockID v)) <> ex ->
    is_Some (votesByBlock s !! Key (v_BlockID v));
  inv_commit : forall B b i v, maj23 s = Some B -> votesByBlock s !! Key B = Some b ->
    bv_votes b !! i = Some (Some v) -> exists w, votes s !! i = Some (Some w) /\ Key (v_BlockID w) = Key B;
  inv_voted : forall B, maj23 s = Some B -> exists i v, valid_vote i v /\ v_BlockID v = B
}.

Hypothesis Hvals : vals_ok.

Lemma vals_size vset : ValidatorSet.Validators vset = vals ->
  ValidatorSet.Size vset = Z.of_nat (length vals) /\ 0 < Z.of_nat (length vals).
Proof using Hvals.
  intros E. unfold ValidatorSet.Size. rewrite E. split; [done|].
  destruct Hvals as [_ [HT _]]. unfold ValidatorSet.total, ValidatorSet.powers in HT.
  destruct vals; simpl in *; lia.
Qed.

Lemma quorum_ok : two_thirds T = Z.quot (T * 2) 3 /\ 0 < quorum <= T /\ i64 (two_thirds T + 1) = quorum.
Proof using Hvals.
  destruct Hvals as [_ HT]. fold T in HT. unfold two_thirds, quorum. fold T.
  rewrite (i64_id (T * 2)) by (unfold is_i64; lia).
  rewrite Z.quot_div_nonneg by lia. pose proof (Z.div_mod (T * 2) 3 ltac:(lia)).
  pose proof (Z.mod_pos_bound (T * 2) 3 ltac:(lia)). split; [done|].
  rewrite i64_id by (unfold is_i64; lia). lia.
Qed.

Lemma total_ok s ex : inv ex s ->
  ValidatorSet.TotalVotingPower (valSet s) =
    (T, ValidatorSet.mk vals (ValidatorSet.proposer (valSet s)) T).
Proof using Hvals.
  intros Hi. destruct (inv_vals _ _ Hi) as [E Hc]. destruct Hvals as [Hn HT].
  rewrite ValidatorSet.TotalVotingPower_ok; rewrite ?E; [done|done|lia|done].
Qed.

Lemma NewVoteSet_inv vset :
  h <> 0 -> ValidatorSet.Validators vset = vals -> ValidatorSet.cached vset ->
  exists s, NewVoteSet cid h r ty vset = Ok s /\ inv None s.
Proof using Hvals.
  intros Hh E Hc. destruct (vals_size vset E) as [Hs Hpos]. unfold NewVoteSet.
  destruct (Z.eqb_spec h 0); [done|]. rewrite Hs.
  destruct (bits_new (Z.of_nat (length vals)) Hpos) as (ba & -> & Hb). simpl. eexists. split; [done|].
  assert (forall i v, make_votes (Z.of_nat (length vals)) !! i <> Some (Some v)) as Hnone.
  { intros i v Hl. by apply lookup_replicate in Hl as [? _]. }
  split; simpl; try done.
  - split; [unfold make_votes; by rewrite length_replicate, Nat2Z.id|]. intros i v Hi. by destruct (Hnone i v).
  - unfold make_votes. by rewrite tally_empty.
  - intros i v Hi. by destruct (Hnone i v).
Qed.

Lemma bucket_new s K peer :
  exists b, newBlockVotes peer (Z.of_nat (length vals)) = Ok b /\ bucket_ok s K b /\ bv_sum b = 0 /\
    bv_votes b = replicate (length vals) None.
Proof using Hvals.
  destruct Hvals as [Hn HT]. assert (0 < Z.of_nat (length vals)) as Hpos.
  { unfold ValidatorSet.total, ValidatorSet.powers in HT. destruct vals; simpl in *; lia. }
  unfold newBlockVotes. destruct (bits_new _ Hpos) as (ba & -> & Hb). simpl. eexists. split; [done|].
  unfold make_votes in *. rewrite Nat2Z.id in *. split; [|done]. split_and!; [split|done|]; simpl.
  - by rewrite length_replicate.
  - intros i v Hi. by apply lookup_replicate in Hi as [? _].
  - by rewrite tally_empty.
Qed.

(** ** Adding to a bucket *)
Lemma bv_add_ok s K b vote i val :
  bucket_ok s K b -> valid_vote i vote -> Key (v_BlockID vote) = K -> vals !! i = Some val ->
  (exists w, votes s !! i = Some (Some w)) -> bv_votes b !! i = Some None ->
  exists b', bv_addVerifiedVote b vote (val_VotingPower val) = Ok b' /\ bucket_ok s K b' /\
    bv_sum b' = bv_sum b + val_VotingPower val /\ bv_peerMaj23 b' = bv_peerMaj23 b /\
    bv_votes b' = <[i := Some vote]> (bv_votes b).
Proof using Hvals.
  intros ([Hlen Hslots] & Hbits & Hsum) Hv HK Hval Hw Hnone.
  pose proof Hv as (val' & Hval' & Hidx & _). apply lookup_lt_Some in Hnone as Hlt.
  unfold bv_addVerifiedVote. rewrite Hidx, (go_index_nat _ _ _ Hnone). cbn [rbind].
  destruct (bits_set _ _ i vote Hbits Hlt) as (ba' & -> & Hbits'). cbn [rbind].
  rewrite go_store_nat by done. cbn [rbind].
  assert (i64 (bv_sum b + val_VotingPower val) = tally vals (<[i := Some vote]> (bv_votes b))) as Hs'.
  { rewrite (tally_insert _ _ _ val) by done. rewrite <- Hsum. apply i64_id.
    pose proof (tally_range vals (<[i := Some vote]> (bv_votes b)) (proj1 Hvals)) as Hr.
    rewrite (tally_insert _ _ _ val), <- Hsum in Hr by done. destruct Hvals as [_ HT]. unfold is_i64. lia. }
  eexists. split; [done|]. split; [|split_and!; simpl; try done].
  - split_and!; simpl; [split| |]; [by rewrite length_insert| |done|by rewrite Hs'].
    intros j v Hj. destruct (decide (i = j)) as [<-|Hne].
    + rewrite list_lookup_insert_eq in Hj by done. simplify_eq. done.
    + rewrite list_lookup_insert_ne in Hj by done. by apply Hslots.
  - rewrite Hs', Hsum. by rewrite (tally_insert _ _ _ val).
Qed.

Lemma bucket_ok_mono s s' K b :
  (forall i w, votes s !! i = Some (Some w) -> exists w', votes s' !! i = Some (Some w')) ->
  bucket_ok s K b -> bucket_ok s' K b.
Proof using Type.
  intros Hm ([Hl Hs] & Hb & Hsum). split_and!; [split|done|done]; [done|].
  intros i v Hi. destruct (Hs i v Hi) as (? & ? & w & Hw). eauto.
Qed.

Lemma insert_filled s i (vote : Vote) :
  (i < length (votes s))%nat ->
  forall j w, votes s !! j = Some (Some w) ->
    exists w', (<[i := Some vote]> (votes s)) !! j = Some (Some w').
Proof using Type.
  intros Hi j w Hj. destruct (decide (i = j)) as [<-|Hne].
  - rewrite list_lookup_insert_eq by done. eauto.
  - rewrite list_lookup_insert_ne by done. eauto.
Qed.

Lemma inv_set_votes s i vote K ba sm :
  inv None s -> valid_vote i vote -> Key (v_BlockID vote) = K ->
  bits_ok ba (<[i := Some vote]> (votes s)) -> sm = tally vals (<[i := Some vote]> (votes s)) ->
  (forall B, maj23 s = Some B -> votes s !! i = Some None \/ Key B = K) ->
  inv (Some K) (set_votes ba (<[i := Some vote]> (votes s)) sm s).
Proof using Type.
  intros Hi Hv HK Hba Hsm Hover. destruct Hi as [Hc Hvs [Hlen Hslots] Hbits Hsum Hbk Hbel Hmaj Htr Hcm Hvd].
  pose proof Hv as (val & Hval & _). apply lookup_lt_Some in Hval as Hlt.
  split; simpl; try done.
  - split; [by rewrite length_insert|]. intros j v Hj. destruct (decide (i = j)) as [<-|Hne].
    + rewrite list_lookup_insert_eq in Hj by lia. by simplify_eq.
    + rewrite list_lookup_insert_ne in Hj by done. by apply Hslots.
  - intros K' b Hb. eapply bucket_ok_mono; [|by apply Hbk]. apply insert_filled. lia.
  - intros j v Hj Hne. destruct (decide (i = j)) as [<-|Hij].
    + rewrite list_lookup_insert_eq in Hj by lia. simplify_eq.
    + rewrite list_lookup_insert_ne in Hj by done. by apply (Htr j v).
  - intros B b j v HB Hb Hj. destruct (Hcm B b j v HB Hb Hj) as (w & Hw & Hkw).
    destruct (decide (i = j)) as [<-|Hij]; [|exists w; by rewrite list_lookup_insert_ne].
    destruct (Hover B HB) as [Hn|HKB]; [congruence|]. exists vote. split; [apply list_lookup_insert_eq; lia|congruence].
Qed.

Lemma inv_exempt K s : inv None s -> inv (Some K) s.
Proof using Type. intros []. split; try done. intros i v Hi _. by apply (inv_tracked0 i v). Qed.

Lemma inv_unexempt K s : inv (Some K) s -> is_Some (votesByBlock s !! K) -> inv None s.
Proof using Type.
  intros [] HK. split; try done. intros i v Hi _. destruct (decide (Key (v_BlockID v) = K)) as [->|Hne]; [done|].
  apply (inv_tracked0 i v Hi). congruence.
Qed.

(** What [addVerifiedVote]'s first half guarantees to its second half. *)
Record placed (s s1 : t) (K : bytes) (i : nat) (conf : option Vote) : Prop := {
  pl_inv : inv (Some K) s1;
  pl_byBlock : votesByBlock s1 = votesByBlock s;
  pl_maj23 : maj23 s1 = maj23 s;
  pl_slot : exists w, votes s1 !! i = Some (Some w);
  pl_conf : votes s !! i = Some conf;
  pl_done : is_Some conf -> inv None s1;
  pl_key : forall B, maj23 s = Some B -> Key B = K -> exists w, votes s1 !! i = Some (Some w) /\ Key (v_BlockID w) = K
}.

Lemma place_ok s vote K i val :
  inv None s -> valid_vote i vote -> Key (v_BlockID vote) = K -> vals !! i = Some val ->
  (forall w, votes s !! i = Some (Some w) -> Key (v_BlockID w) <> K) ->
  exists s1 conf, place_vote s vote K (val_VotingPower val) = Ok (s1, conf) /\ placed s s1 K i conf.
Proof using Hvals.
  intros Hi Hv HK Hval Hnew. pose proof (inv_votes _ _ Hi) as [Hlen Hslots].
  pose proof Hv as (val' & Hval' & Hidx & _). apply lookup_lt_Some in Hval as Hlt.
  destruct (lookup_lt_is_Some_2 (votes s) i ltac:(lia)) as [o Ho].
  unfold place_vote. rewrite Hidx, (go_index_nat _ _ _ Ho). cbn [rbind].
  destruct (bits_set _ _ i vote (inv_bits _ _ Hi) ltac:(lia)) as (ba & Eba & Hba).
  rewrite go_store_nat, Eba by lia. cbn [rbind].
  destruct o as [ex|].
  - assert (bid_Equals (v_BlockID ex) (v_BlockID vote) = false) as ->.
    { destruct (bid_Equals (v_BlockID ex) (v_BlockID vote)) eqn:E; [|done].
      apply bid_Equals_eq in E. destruct (Hnew ex Ho). by rewrite E. }
    assert ((forall B, maj23 s = Some B -> Key B <> K) -> placed s s K i (Some ex)) as Hsame.
    { intros Hno. split; eauto using inv_exempt. intros B HB HBK. by destruct (Hno B HB). }
    destruct (maj23 s) as [m|] eqn:Em.
    2:{ eexists _, _. split; [reflexivity|]. by apply Hsame. }
    destruct (bytes_eqb (Key m) K) eqn:EK.
    2:{ apply bytes_eqb_neq in EK. eexists _, _. split; [reflexivity|]. apply Hsame. congruence. }
    apply bytes_eqb_eq in EK.
    eexists _, _. split; [reflexivity|].
    assert (inv (Some K) (set_votes ba (<[i := Some vote]> (votes s)) (sum s) s)) as Hinv.
    { apply inv_set_votes; try done; [|intros B HB; right; congruence]. rewrite (inv_sum _ _ Hi). apply tally_ext.
      change (@map (option Vote) bool) with (@fmap list list_fmap (option Vote) bool).
      rewrite list_fmap_insert. symmetry. apply list_insert_id. by rewrite list_lookup_fmap, Ho. }
    assert (<[i := Some vote]> (votes s) !! i = Some (Some vote)) as Hnow by (apply list_lookup_insert_eq; lia).
    split; try done; eauto.
    + intros _. apply (inv_unexempt K); [done|]. simpl. destruct (inv_maj23 _ _ Hi m Em) as (b & Hb & _).
      rewrite EK in Hb. eauto.
  - eexists _, _. split; [reflexivity|]. split; try done.
    + apply inv_set_votes; try done; [|by left]. rewrite (tally_insert _ _ _ val) by done.
      rewrite <- (inv_sum _ _ Hi). apply i64_id. rewrite (inv_sum _ _ Hi).
      rewrite <- (tally_insert _ _ i val vote) by done.
      pose proof (tally_range vals (<[i := Some vote]> (votes s)) (proj1 Hvals)).
      destruct Hvals as [_ HT]. unfold is_i64. lia.
    + exists vote. apply list_lookup_insert_eq. lia.
    + intros B _ _. exists vote. split; [apply list_lookup_insert_eq; lia|done].
Qed.

Lemma inv_add_bucket s K b b' (vset : ValidatorSet.t) :
  inv (Some K) s -> bucket_ok s K b' ->
  ValidatorSet.Validators vset = vals -> ValidatorSet.cached vset ->
  (votesByBlock s !! K = Some b \/ votesByBlock s !! K = None) ->
  (votesByBlock s !! K = Some b -> bv_sum b <= bv_sum b') ->
  (maj23 s = None -> bv_sum b' < quorum) ->
  (forall B i v, maj23 s = Some B -> Key B = K -> bv_votes b' !! i = Some (Some v) ->
     exists w, votes s !! i = Some (Some w) /\ Key (v_BlockID w) = K) ->
  inv None (set_byBlock (<[K := b']> (votesByBlock s)) (set_valSet vset s)).
Proof using Type.
  intros Hi Hb' Hvs Hc HK Hle Hbelow Hnew. apply (inv_unexempt K); [|simpl; by rewrite lookup_insert_eq].
  destruct Hi as [Hconf _ Hvotes Hbits Hsum Hbk Hbel Hmaj Htr Hcm Hvd]. split; simpl; try done.
  - intros K' c. destruct (decide (K = K')) as [<-|Hne].
    + rewrite lookup_insert_eq. intros [= <-]. eapply bucket_ok_mono; [|done]. eauto.
    + rewrite lookup_insert_ne by done. intros Hc'. eapply bucket_ok_mono; [|by apply Hbk]. eauto.
  - intros Hm K' c. destruct (decide (K = K')) as [<-|Hne].
    + rewrite lookup_insert_eq. intros [= <-]. auto.
    + rewrite lookup_insert_ne by done. by apply Hbel.
  - intros B HB. destruct (Hmaj B HB) as (c & Hc' & Hq). destruct (decide (K = Key B)) as [HKB|Hne].
    + subst K. rewrite lookup_insert_eq. eexists. split; [done|].
      destruct HK as [HK|HK]; rewrite Hc' in HK; simplify_eq. specialize (Hle Hc'). lia.
    + rewrite lookup_insert_ne by done. eauto.
  - intros i v Hv Hne. destruct (decide (K = Key (v_BlockID v))) as [<-|Hne'].
    + by rewrite lookup_insert_eq.
    + rewrite lookup_insert_ne by done. by apply (Htr i v).
  - intros B c i v HB Hb Hi. destruct (decide (K = Key B)) as [->|Hne].
    + rewrite lookup_insert_eq in Hb. injection Hb as <-. by apply (Hnew B i v).
    + rewrite lookup_insert_ne in Hb by done. by apply (Hcm B c i v).
Qed.

(** The bucket crosses the quorum for the first time: [maj23] is set and its
    votes are copied over [votes]. *)
Lemma inv_cross s K b' B vset :
  inv (Some K) s -> maj23 s = None -> bucket_ok s K b' -> quorum <= bv_sum b' -> Key B = K ->
  (exists i v, valid_vote i v /\ v_BlockID v = B) ->
  ValidatorSet.Validators vset = vals -> ValidatorSet.cached vset ->
  inv None (set_votes (votesBitArray s) (overlay (bv_votes b') (votes s)) (sum s)
    (set_maj23 (Some B) (set_byBlock (<[K := b']> (votesByBlock s)) (set_valSet vset s)))).
Proof using Type.
  intros Hi Hm Hb' Hq HK HB Hvs Hc. destruct Hi as [Hconf _ [Hlen Hslots] Hbits Hsum Hbk Hbel Hmaj Htr _ _].
  pose proof Hb' as ([Hlen' Hslots'] & _ & _).
  assert (length (bv_votes b') = length (votes s)) as Hll by congruence.
  assert (map filled (overlay (bv_votes b') (votes s)) = map filled (votes s)) as Hf.
  { apply overlay_filled; [done|]. intros i v Hv. by apply (Hslots' i v). }
  assert (forall i w, votes s !! i = Some (Some w) ->
    exists w', overlay (bv_votes b') (votes s) !! i = Some (Some w')) as Hmono.
  { intros i w Hw. rewrite overlay_lookup by done. destruct (bv_votes b' !! i) as [[v|]|]; eauto. }
  assert (forall i v, overlay (bv_votes b') (votes s) !! i = Some (Some v) ->
    valid_vote i v /\ (Key (v_BlockID v) = K \/ votes s !! i = Some (Some v))) as Hov.
  { intros i v Hv. rewrite overlay_lookup in Hv by done.
    destruct (bv_votes b' !! i) as [[v'|]|] eqn:E; simplify_eq; [|by auto..].
    destruct (Hslots' _ _ E) as (? & ? & _). auto. }
  split; simpl; try done.
  - split; [|intros i v Hv; by apply Hov]. apply (f_equal length) in Hf. rewrite !length_map in Hf. congruence.
  - eapply bits_ext; [|exact Hbits]. done.
  - rewrite Hsum. by apply tally_ext.
  - intros K' c. destruct (decide (K = K')) as [<-|Hne].
    + rewrite lookup_insert_eq. intros [= <-]. eapply bucket_ok_mono; [|done]. done.
    + rewrite lookup_insert_ne by done. intros Hc'. eapply bucket_ok_mono; [|by apply Hbk]. done.
  - intros ? [= <-]. rewrite HK, lookup_insert_eq. eauto.
  - intros i v Hv _. destruct (Hov i v Hv) as [_ [->|Hold]]; [by rewrite lookup_insert_eq|].
    destruct (decide (K = Key (v_BlockID v))) as [<-|Hne]; [by rewrite lookup_insert_eq|].
    rewrite lookup_insert_ne by done. apply (Htr i v Hold). congruence.
  - intros ? b i v [= <-] Hb Hi. rewrite HK, lookup_insert_eq in Hb. injection Hb as <-. exists v.
    rewrite overlay_lookup, Hi by done. split; [done|]. rewrite HK. by apply (Hslots' i v).
  - by intros ? [= <-].
Qed.

Lemma add_to_bucket_ok s K b vote i val :
  inv (Some K) s -> bucket_ok s K b -> valid_vote i vote -> Key (v_BlockID vote) = K ->
  vals !! i = Some val -> (exists w, votes s !! i = Some (Some w)) -> bv_votes b !! i = Some None ->
  (votesByBlock s !! K = Some b \/ votesByBlock s !! K = None) ->
  (maj23 s = None -> bv_sum b < quorum) ->
  (forall B, maj23 s = Some B -> Key B = K -> exists w, votes s !! i = Some (Some w) /\ Key (v_BlockID w) = K) ->
  exists s', add_to_bucket s b vote K (val_VotingPower val) = Ok s' /\ inv None s' /\
    (exists b', votesByBlock s' !! K = Some b' /\ bv_votes b' = <[i := Some vote]> (bv_votes b)).
Proof using Hvals.
  intros Hi Hb Hv HK Hval Hw Hnone HbK Hbelow Hkey. unfold add_to_bucket. rewrite (total_ok _ _ Hi).
  destruct quorum_ok as (_ & _ & ->).
  destruct (bv_add_ok s K b vote i val Hb Hv HK Hval Hw Hnone) as (b' & -> & Hb' & Hsum' & Hpeer & Hvotes').
  cbn [rbind]. set (vset := ValidatorSet.mk _ _ _).
  assert (ValidatorSet.Validators vset = vals) as Hvs by done.
  assert (ValidatorSet.cached vset) as Hcv by (by right).
  assert (0 <= val_VotingPower val) as Hpw.
  { destruct Hvals as [Hn _]. by apply (proj1 (Forall_lookup _ _) Hn i val). }
  assert (forall m : gmap bytes blockVotes, exists b'', <[K := b']> m !! K = Some b'' /\
    bv_votes b'' = <[i := Some vote]> (bv_votes b)) as Hres.
  { intros m. rewrite lookup_insert_eq. eauto. }
  cbn [maj23 set_byBlock set_valSet votesByBlock]. destruct (maj23 s) as [m|] eqn:Em.
  - assert (inv None (set_byBlock (<[K := b']> (votesByBlock s)) (set_valSet vset s))) as Hinv.
    { apply (inv_add_bucket s K b); try done; [lia|congruence|]. intros B j v HB HBK Hj. rewrite Hvotes' in Hj.
      destruct (decide (i = j)) as [<-|Hne]; [apply (Hkey B); congruence|].
      rewrite list_lookup_insert_ne in Hj by done. rewrite <- HBK. destruct (inv_maj23 _ _ Hi B HB) as (c & Hc & _).
      destruct HbK as [HbK|HbK]; rewrite HBK in Hc; [|congruence]. apply (inv_commit _ _ Hi B b j v HB); [|done].
      by rewrite HBK. }
    destruct ((_ <? _) && _); (eexists; split; [reflexivity|]; split; [exact Hinv|]; apply Hres).
  - specialize (Hbelow eq_refl). destruct (Z.ltb_spec (bv_sum b) quorum); [|lia].
    destruct (Z.leb_spec quorum (bv_sum b')); cbn [andb].
    + pose proof (inv_votes _ _ Hi) as [Hlen _]. pose proof Hb' as ([Hlen' _] & _).
      cbn [votes set_maj23 set_byBlock set_valSet]. rewrite copy_over_overlay by lia. cbn [rbind take drop app].
      eexists. split; [reflexivity|]. split; [|apply Hres].
      assert (exists j v, valid_vote j v /\ v_BlockID v = v_BlockID vote) as Hvd by eauto.
      exact (inv_cross s K b' (v_BlockID vote) vset Hi Em Hb' H1 HK Hvd Hvs Hcv).
    + eexists. split; [reflexivity|]. split; [|apply Hres]. apply (inv_add_bucket s K b); try done; [lia|congruence].
Qed.

(** [addVerifiedVote] on a vote that is valid and not known never panics and
    keeps the invariant. *)
Lemma addVerifiedVote_ok s vote K i val :
  inv None s -> valid_vote i vote -> Key (v_BlockID vote) = K -> vals !! i = Some val ->
  (forall w, votes s !! i = Some (Some w) -> Key (v_BlockID w) <> K) ->
  (forall b, votesByBlock s !! K = Some b -> bv_votes b !! i = Some None) ->
  exists added conf s', addVerifiedVote s vote K (val_VotingPower val) = Ok (added, conf, s') /\
    inv None s' /\ votes s !! i = Some conf /\
    added = (match conf with
             | None => true
             | Some _ => match votesByBlock s !! K with Some b => bv_peerMaj23 b | None => false end
             end) /\
    (added = true -> exists b, votesByBlock s' !! K = Some b /\ bv_votes b !! i = Some (Some vote)).
Proof using Hvals.
  intros Hi Hv HK Hval Hnew Hbk. unfold addVerifiedVote.
  destruct (place_ok s vote K i val Hi Hv HK Hval Hnew) as (s1 & conf & -> & Hpl). cbn [rbind].
  destruct Hpl as [Hi1 Hby Hm1 Hslot Hconf Hdone Hkey]. rewrite Hby.
  assert (forall B, maj23 s1 = Some B -> Key B = K -> exists w, votes s1 !! i = Some (Some w) /\ Key (v_BlockID w) = K)
    as Hkey1 by (rewrite Hm1; exact Hkey).
  pose proof (lookup_lt_Some _ _ _ Hval) as Hlt.
  destruct (votesByBlock s !! K) as [b|] eqn:Eb.
  - assert (bucket_ok s1 K b) as Hb1 by (apply (inv_buckets _ _ Hi1); by rewrite Hby).
    destruct (add_to_bucket_ok s1 K b vote i val) as (s2 & Es2 & Hi2 & b2 & Hb2 & Hv2); try done.
    { by apply Hbk. } { left. by rewrite Hby. }
    { intros Hm. apply (inv_below _ _ Hi1 Hm K). by rewrite Hby. }
    assert (bv_votes b2 !! i = Some (Some vote)) as Hin.
    { rewrite Hv2. apply list_lookup_insert_eq. destruct Hb1 as ([Hl _] & _). lia. }
    destruct conf as [c|]; [destruct (bv_peerMaj23 b) eqn:Ep|]; rewrite ?Es2; cbn [rbind];
      (do 3 eexists; split; [reflexivity|]); split_and!; try done; eauto.
  - destruct conf as [c|].
    { do 3 eexists. split; [reflexivity|]. split_and!; try done. eauto. }
    destruct (inv_vals _ _ Hi1) as [Evs _]. destruct (vals_size _ Evs) as [-> Hpos].
    destruct (bucket_new s1 K false) as (b & -> & Hb & Hb0 & Hbv). cbn [rbind].
    destruct (add_to_bucket_ok s1 K b vote i val) as (s2 & -> & Hi2 & b2 & Hb2 & Hv2); try done.
    { rewrite Hbv. apply lookup_replicate. split; [done|lia]. } { right. by rewrite Hby. }
    { intros _. rewrite Hb0. by destruct quorum_ok as (_ & [? _] & _). }
    cbn [rbind]. do 3 eexists. split; [reflexivity|]. split_and!; try done.
    intros _. exists b2. split; [done|]. rewrite Hv2. apply list_lookup_insert_eq.
    rewrite Hbv, length_replicate. lia.
Qed.

(** ** [addVote], branch by branch *)
Definition known (s : t) (i : nat) (K : bytes) (w : Vote) : Prop :=
  valid_vote i w /\ Key (v_BlockID w) = K /\
  (votes s !! i = Some (Some w) \/ exists b, votesByBlock s !! K = Some b /\ bv_votes b !! i = Some (Some w)).

Definition unknown (s : t) (i : nat) (K : bytes) : Prop :=
  (forall w, votes s !! i = Some (Some w) -> Key (v_BlockID w) <> K) /\
  (forall b, votesByBlock s !! K = Some b -> bv_votes b !! i = Some None).

Lemma getVote_ok s i K :
  inv None s -> (i < length vals)%nat ->
  (exists w, getVote s (Z.of_nat i) K = Ok (Some w) /\ known s i K w) \/
  (getVote s (Z.of_nat i) K = Ok None /\ unknown s i K).
Proof using Type.
  intros Hi Hlt. pose proof (inv_votes _ _ Hi) as [Hlen Hslots]. unfold getVote, known, unknown.
  destruct (lookup_lt_is_Some_2 (votes s) i ltac:(lia)) as [o Ho]. rewrite (go_index_nat _ _ _ Ho). cbn [rbind].
  assert ((exists w, bv_getByIndex (votesByBlock s !! K) (Z.of_nat i) = Ok (Some w) /\ known s i K w) \/
    (bv_getByIndex (votesByBlock s !! K) (Z.of_nat i) = Ok None /\
     forall b, votesByBlock s !! K = Some b -> bv_votes b !! i = Some None)) as Hbk.
  { destruct (votesByBlock s !! K) as [b|] eqn:Eb; [|by right]. simpl.
    destruct (inv_buckets _ _ Hi K b Eb) as ([Hl Hs] & _).
    destruct (lookup_lt_is_Some_2 (bv_votes b) i ltac:(lia)) as [ob Hob]. rewrite (go_index_nat _ _ _ Hob).
    destruct ob as [w|]; [left|right; split; [done|by intros ? [= <-]]].
    exists w. destruct (Hs i w Hob) as (? & ? & _). split; [done|]. split_and!; [done|done|]. right. eauto. }
  destruct o as [w|].
  - destruct (bytes_eqb (Key (v_BlockID w)) K) eqn:E.
    + left. exists w. apply bytes_eqb_eq in E. split; [done|]. split_and!; auto.
    + apply bytes_eqb_neq in E. destruct Hbk as [?|[? ?]]; [by left|right].
      split_and!; [done| |done]. intros w' Hw'. by simplify_eq.
  - destruct Hbk as [?|[? ?]]; [by left|right]. split_and!; [done| |done]. intros w' Hw'. by simplify_eq.
Qed.

Definition same_step (vote : Vote) : Prop := v_Height vote = h /\ v_Round vote = r /\ v_Type vote = ty.

Inductive outcome (s : t) (vote : Vote) (i : nat) (val : Validator) : bool -> option vote_err -> t -> Prop :=
| oc_step : ~ same_step vote -> outcome s vote i val false (Some ErrVoteUnexpectedStep) s
| oc_address :
    same_step vote -> v_ValidatorAddress vote <> val_Address val ->
    outcome s vote i val false (Some ErrVoteInvalidValidatorAddress) s
| oc_duplicate w :
    same_step vote -> known s i (Key (v_BlockID vote)) w -> v_Signature w = v_Signature vote ->
    outcome s vote i val false None s
| oc_other_signature w :
    same_step vote -> known s i (Key (v_BlockID vote)) w -> v_Signature w <> v_Signature vote ->
    outcome s vote i val false (Some ErrVoteInvalidSignature) s
| oc_bad_signature :
    same_step vote -> unknown s i (Key (v_BlockID vote)) -> ~ valid_vote i vote ->
    outcome s vote i val false (Some ErrVoteInvalidSignature) s
| oc_added s' :
    valid_vote i vote -> votes s !! i = Some None ->
    (exists b, votesByBlock s' !! Key (v_BlockID vote) = Some b /\ bv_votes b !! i = Some (Some vote)) ->
    outcome s vote i val true None s'
| oc_conflict c added s' :
    valid_vote i vote -> votes s !! i = Some (Some c) -> Key (v_BlockID c) <> Key (v_BlockID vote) ->
    added = (match votesByBlock s !! Key (v_BlockID vote) with Some b => bv_peerMaj23 b | None => false end) ->
    (added = true -> exists b, votesByBlock s' !! Key (v_BlockID vote) = Some b /\
                               bv_votes b !! i = Some (Some vote)) ->
    outcome s vote i val added (Some (ErrVoteConflictingVotes c vote)) s'.

Lemma sig_Equals_eq a b : sig_Equals a b = true <-> a = b.
Proof using Type. destruct a, b; simpl; rewrite ?bytes_eqb_eq; naive_solver. Qed.

Lemma valid_signed i v : valid_vote i v -> is_Some (v_Signature v).
Proof using Type.
  intros (val & _ & _ & _ & _ & _ & _ & Hv). unfold VerifyBytes in Hv.
  destruct (v_Signature v); [eauto|]. by destruct (val_PubKey val).
Qed.

Lemma step_mismatch (s : t) (vote : Vote) :
  chainID s = cid /\ height s = h /\ round s = r /\ type_ s = ty ->
  negb (v_Height vote =? height s) || negb (v_Round vote =? round s) || negb (v_Type vote =? type_ s)
  = negb (bool_decide (same_step vote)).
Proof using Type.
  intros (_ & -> & -> & ->). unfold same_step.
  destruct (Z.eqb_spec (v_Height vote) h), (Z.eqb_spec (v_Round vote) r), (Z.eqb_spec (v_Type vote) ty);
    simpl; case_bool_decide; simpl; naive_solver.
Qed.

Lemma addVote_ok s vote i val :
  inv None s -> v_ValidatorIndex vote = Z.of_nat i -> vals !! i = Some val -> v_ValidatorAddress vote <> [] ->
  exists added err s', addVote s vote = Ok (added, err, s') /\ inv None s' /\
    outcome s vote i val added err s'.
Proof using Hvals.
  intros Hi Hidx Hval Hne. pose proof (lookup_lt_Some _ _ _ Hval) as Hlt. unfold addVote. cbv zeta. rewrite Hidx.
  destruct (Z.ltb_spec (Z.of_nat i) 0); [lia|].
  destruct (Nat.eqb_spec (length (v_ValidatorAddress vote)) 0) as [E0%nil_length_inv|_]; [done|]. cbn [orb].
  rewrite (step_mismatch s vote (inv_conf _ _ Hi)). case_bool_decide as Hst; cbn [negb].
  2:{ do 3 eexists. split; [reflexivity|]. split; [done|]. by constructor. }
  unfold ValidatorSet.GetByIndex. destruct (inv_vals _ _ Hi) as [-> _]. rewrite (go_index_nat _ _ _ Hval).
  cbn [rbind]. destruct (bytes_eqb (v_ValidatorAddress vote) (val_Address val)) eqn:Ea; cbn [negb].
  2:{ apply bytes_eqb_neq in Ea. do 3 eexists. split; [reflexivity|]. split; [done|]. by constructor. }
  apply bytes_eqb_eq in Ea. destruct Hst as (Hh & Hr & Hty).
  destruct (getVote_ok s i (Key (v_BlockID vote)) Hi Hlt) as [(w & -> & Hw)|[-> Hunk]]; cbn [rbind].
  - pose proof Hw as (Hwv & _). destruct (valid_signed _ _ Hwv) as [sg Hsg]. rewrite Hsg. cbn [deref rbind].
    set (same := match v_Signature vote with Some _ => _ | None => _ end).
    assert (same = bool_decide (v_Signature w = v_Signature vote)) as ->.
    { unfold same. rewrite Hsg. destruct (v_Signature vote) as [sv|]; [|by case_bool_decide].
      destruct (sig_Equals sg sv) eqn:E; case_bool_decide as Hb; try done.
      - apply sig_Equals_eq in E. congruence.
      - simplify_eq. rewrite (proj2 (sig_Equals_eq sv sv) eq_refl) in E. done. }
    case_bool_decide; (do 3 eexists; split; [reflexivity|]; split; [done|]).
    + by eapply oc_duplicate.
    + by eapply oc_other_signature.
  - destruct (inv_conf _ _ Hi) as (-> & _).
    destruct (VerifyBytes (val_PubKey val) (SignBytes_vote cid vote) (v_Signature vote)) eqn:Ev; cbn [negb].
    2:{ do 3 eexists. split; [reflexivity|]. split; [done|]. apply oc_bad_signature; [done|done|].
        intros (val' & Hval' & _ & _ & _ & _ & _ & Hv'). congruence. }
    assert (valid_vote i vote) as Hvalid by (exists val; split_and!; done).
    destruct Hunk as [Hu1 Hu2].
    destruct (addVerifiedVote_ok s vote (Key (v_BlockID vote)) i val Hi Hvalid eq_refl Hval Hu1 Hu2)
      as (added & conf & s' & -> & Hi' & Hconf & Hadded & Hin). cbn [rbind].
    destruct conf as [c|].
    + do 3 eexists. split; [reflexivity|]. split; [done|]. apply oc_conflict; auto.
    + subst added. do 3 eexists. split; [reflexivity|]. split; [done|]. apply oc_added; auto.
Qed.

(** An index beyond the validators panics in [ValidatorSet.GetByIndex]. *)
Lemma addVote_out_of_range s vote :
  inv None s -> same_step vote -> Z.of_nat (length vals) <= v_ValidatorIndex vote -> addVote s vote = Panic.
Proof using Type.
  intros Hi Hst Hidx. unfold addVote. cbv zeta. case_match; [done|].
  rewrite (step_mismatch s vote (inv_conf _ _ Hi)), bool_decide_eq_true_2 by done. cbn [negb].
  unfold ValidatorSet.GetByIndex, go_index. destruct (inv_vals _ _ Hi) as [-> _].
  destruct (Z.ltb_spec (v_ValidatorIndex vote) 0); [done|].
  by rewrite lookup_ge_None_2 by lia.
Qed.

Lemma SetPeerMaj23_ok s peerID blockID :
  inv None s -> exists s', SetPeerMaj23 s peerID blockID = Ok s' /\ inv None s'.
Proof using Hvals.
  intros Hi. unfold SetPeerMaj23. destruct (peerMaj23s s !! peerID); [by eauto|]. cbv zeta.
  set (s1 := set_peerMaj23s _ s).
  assert (inv (Some (Key blockID)) s1) as Hi1.
  { apply inv_exempt. destruct Hi; by split. }
  destruct (inv_vals _ _ Hi) as [Evs Hc].
  destruct (votesByBlock s1 !! Key blockID) as [b|] eqn:Eb.
  - eexists. split; [reflexivity|].
    apply (inv_add_bucket s1 (Key blockID) b (mkBV true (bv_bitArray b) (bv_votes b) (bv_sum b)) (valSet s)); auto.
    + exact (inv_buckets _ _ Hi1 _ _ Eb).
    + simpl. lia.
    + intros Hm. simpl. by apply (inv_below _ _ Hi1 Hm (Key blockID)).
    + intros B i v HB HBK Hv. rewrite <- HBK. apply (inv_commit _ _ Hi1 B b i v HB); [|done]. by rewrite HBK.
  - destruct (vals_size _ Evs) as [Hsz _]. change (valSet s1) with (valSet s). rewrite Hsz.
    destruct (bucket_new s1 (Key blockID) true) as (b & -> & Hb & Hb0 & Hbv). cbn [rbind]. eexists.
    split; [reflexivity|]. apply (inv_add_bucket s1 (Key blockID) b b (valSet s)); auto; [lia| |].
    + intros _. rewrite Hb0. by destruct quorum_ok as (_ & [? _] & _).
    + intros B i v _ _ Hv. rewrite Hbv in Hv. by apply lookup_replicate in Hv as [? _].
Qed.

(** ** Reachable vote sets: any sequence of votes, from anyone, and of peers'
    claims, as long as the process does not panic *)
Inductive step : t -> t -> Prop :=
| step_AddVote s vote added err s' : addVote s vote = Ok (added, err, s') -> step s s'
| step_SetPeerMaj23 s peerID blockID s' : SetPeerMaj23 s peerID blockID = Ok s' -> step s s'.

Lemma step_inv s s' : inv None s -> step s s' -> inv None s'.
Proof using Hvals.
  intros Hi Hs. destruct Hs as [s vote added err s' E|s peerID blockID s' E].
  - destruct (decide (same_step vote)) as [Hst|Hst].
    + destruct (decide (0 <= v_ValidatorIndex vote < Z.of_nat (length vals))) as [Hr|Hr].
      * destruct (lookup_lt_is_Some_2 vals (Z.to_nat (v_ValidatorIndex vote)) ltac:(lia)) as [val Hval].
        destruct (decide (v_ValidatorAddress vote = [])) as [Hnil|Hne].
        { unfold addVote in E. rewrite Hnil in E. cbn in E. rewrite orb_true_r in E. done. }
        destruct (addVote_ok s vote (Z.to_nat (v_ValidatorIndex vote)) val Hi ltac:(lia) Hval Hne) as (a & e & s1 & E1 & Hi1 & _).
        congruence.
      * destruct (decide (v_ValidatorIndex vote < 0)) as [Hneg|Hpos].
        { unfold addVote in E. destruct (Z.ltb_spec (v_ValidatorIndex vote) 0); [done|lia]. }
        rewrite addVote_out_of_range in E by (done || lia). done.
    + unfold addVote in E. cbv zeta in E. case_match; [done|].
      rewrite (step_mismatch s vote (inv_conf _ _ Hi)), bool_decide_eq_false_2 in E by done. by simplify_eq/=.
  - destruct (SetPeerMaj23_ok s peerID blockID Hi) as (s1 & E1 & Hi1). congruence.
Qed.

Lemma reach_inv s s' : inv None s -> rtc step s s' -> inv None s'.
Proof using Hvals. intros Hi Hr. induction Hr; eauto using step_inv. Qed.

(** A quorum of signed votes for the key of [B]. *)
Definition signed_quorum (B : BlockID) (vs : list (option Vote)) : Prop :=
  2 * ValidatorSet.total vals < 3 * tally vals vs /\
  forall i v, vs !! i = Some (Some v) -> valid_vote i v /\ Key (v_BlockID v) = Key B.

Lemma maj23_signed s B : inv None s -> maj23 s = Some B -> exists vs, length vs = length vals /\ signed_quorum B vs.
Proof using Hvals.
  intros Hi HB. destruct (inv_maj23 _ _ Hi B HB) as (b & Hb & Hq).
  destruct (inv_buckets _ _ Hi _ _ Hb) as ([Hl Hs] & _ & Hsum). exists (bv_votes b). split; [done|]. split.
  - rewrite <- Hsum. unfold quorum in Hq. fold T in Hq |- *. destruct Hvals as [_ HT]. fold T in HT.
    rewrite Z.quot_div_nonneg in Hq by lia. pose proof (Z.div_mod (T * 2) 3 ltac:(lia)).
    pose proof (Z.mod_pos_bound (T * 2) 3 ltac:(lia)). lia.
  - intros i v Hv. destruct (Hs i v Hv) as (? & ? & _). done.
Qed.

End Invariant.

(** [AddVote] of a vote with a validator index in range and a non-empty
    address never panics, keeps the invariant, and does exactly one of: refuse
    a vote of another step, refuse a wrong address, drop a duplicate, refuse a
    different or a bad signature, add the validator's first vote, or report a
    conflict (adding the vote only to a bucket claimed by a peer). *)
Theorem addVote_outcome `{Crypto} cid h r ty vals s vote i val :
  vals_ok vals -> inv cid h r ty vals None s ->
  v_ValidatorIndex vote = Z.of_nat i -> vals !! i = Some val -> v_ValidatorAddress vote <> [] ->
  exists added err s', addVote s vote = Ok (added, err, s') /\ inv cid h r ty vals None s' /\
    outcome cid h r ty vals s vote i val added err s'.
Proof. intros Hv. by apply addVote_ok. Qed.

(** C4: in every vote set reached from [NewVoteSet] by votes and peer claims,
    [maj23] is backed by valid, correctly signed votes of this height, round
    and type from validators holding more than two thirds of the voting power,
    all for that block key; and every counter and bit array agrees with the
    votes stored. *)
Theorem maj23_has_quorum `{Crypto} cid h r ty vset s0 s B :
  vals_ok (ValidatorSet.Validators vset) -> ValidatorSet.cached vset ->
  NewVoteSet cid h r ty vset = Ok s0 -> rtc step s0 s -> maj23 s = Some B ->
  exists vs, signed_quorum cid h r ty (ValidatorSet.Validators vset) B vs.
Proof.
  intros Hv Hc E0 Hr HB. set (vals := ValidatorSet.Validators vset) in *.
  assert (h <> 0) as Hh by (intros ->; discriminate E0).
  destruct (NewVoteSet_inv cid h r ty vals Hv vset Hh eq_refl Hc) as (s0' & E0' & Hi0).
  assert (s0' = s0) as -> by congruence.
  destruct (maj23_signed cid h r ty vals Hv s B (reach_inv cid h r ty vals Hv _ _ Hi0 Hr) HB) as (vs & _ & Hq).
  eauto.
Qed.

(** Quorum intersection.  If two nodes' vote sets for the same height,
    round, type and validators reach majorities for different block keys, then
    validators with more than a third of the voting power signed valid votes
    for both. *)
Theorem conflicting_majorities_double_sign `{Crypto} cid h r ty vset1 vset2 s1 s1' s2 s2' B1 B2 :
  let vals := ValidatorSet.Validators vset1 in
  ValidatorSet.Validators vset2 = vals ->
  vals_ok vals -> ValidatorSet.cached vset1 -> ValidatorSet.cached vset2 ->
  NewVoteSet cid h r ty vset1 = Ok s1 -> rtc step s1 s1' -> maj23 s1' = Some B1 ->
  NewVoteSet cid h r ty vset2 = Ok s2 -> rtc step s2 s2' -> maj23 s2' = Some B2 ->
  Key B1 <> Key B2 ->
  exists who, ValidatorSet.total vals < 3 * tally vals who /\
    forall i v, who !! i = Some (Some v) -> exists w,
      valid_vote cid h r ty vals i v /\ valid_vote cid h r ty vals i w /\
      Key (v_BlockID v) = Key B1 /\ Key (v_BlockID w) = Key B2 /\ v_BlockID v <> v_BlockID w.
Proof.
  intros vals Ev Hv Hc1 Hc2 E1 R1 M1 E2 R2 M2 Hne.
  assert (h <> 0) as Hh by (intros ->; discriminate E1).
  destruct (NewVoteSet_inv cid h r ty vals Hv vset1 Hh eq_refl Hc1) as (a & Ea & Ia).
  destruct (NewVoteSet_inv cid h r ty vals Hv vset2 Hh Ev Hc2) as (b & Eb & Ib).
  assert (a = s1) as -> by congruence. assert (b = s2) as -> by congruence.
  destruct (maj23_signed _ _ _ _ _ Hv _ _ (reach_inv _ _ _ _ _ Hv _ _ Ia R1) M1) as (va & La & Ta & Va).
  destruct (maj23_signed _ _ _ _ _ Hv _ _ (reach_inv _ _ _ _ _ Hv _ _ Ib R2) M2) as (vb & Lb & Tb & Vb).
  exists (both va vb). split.
  - pose proof (tally_both vals va vb (proj1 Hv) La Lb). lia.
  - intros i v (Hva & w & Hvb)%both_lookup. destruct (Va i v Hva) as [? ?]. destruct (Vb i w Hvb) as [? ?].
    exists w. split_and!; try done. intros E. congruence.
Qed.

(** ** Four validators of power one, and a run *)
Fixpoint run `{Crypto} (s : t) (vs : list Vote) : res t :=
  match vs with
  | [] => Ok s
  | v :: vs' => let! (_, _, s) := addVote s v in run s vs'
  end.

Lemma run_reach `{Crypto} s vs s' : run s vs = Ok s' -> rtc step s s'.
Proof.
  revert s. induction vs as [|v vs IH]; intros s E; simplify_eq/=; [done|].
  destruct (addVote s v) as [[[a e] s1]|] eqn:Ea; simplify_eq/=. eapply rtc_l; [by econstructor|]. by apply IH.
Qed.

Definition sample_key (a : Z) : bytes := replicate 32 a.
Definition sample_val (a : Z) : Validator := mkVal [a] (PubKeyEd25519 (sample_key a)) 1 0 true.
Definition sample_vset : ValidatorSet.t :=
  ValidatorSet.mk [sample_val 1; sample_val 2; sample_val 3; sample_val 4] None 0.
Definition sample_chain : bytes := [99].

(** A prevote of validator [a] at height 1, round 0, signed. *)
Definition sample_vote (a : Z) (B : BlockID) : Vote :=
  let v := mkVote [a] (a - 1) 1 0 1 B None in
  mkVote [a] (a - 1) 1 0 1 B (Some (SignatureEd25519 (sample_key a ++ checksum 32 (SignBytes_vote sample_chain v)))).

Definition sample_new : t :=
  mk sample_chain 1 0 1 sample_vset (Some (BitArray.mk 4 [0])) (replicate 4 None) 0 None ∅ ∅.

Definition sample_run (vs : list Vote) : t :=
  match @run sample_crypto sample_new vs with Ok s => s | Panic => sample_new end.

Lemma sample_vals_ok : vals_ok (ValidatorSet.Validators sample_vset).
Proof. split; [repeat constructor; simpl; lia|]. vm_compute. split; reflexivity. Qed.

Lemma sample_new_ok : NewVoteSet sample_chain 1 0 1 sample_vset = Ok sample_new.
Proof. reflexivity. Qed.

Definition sample_A : BlockID := mkBID [7; 7] (mkPSH 1 [8; 8]).
Definition sample_B : BlockID := mkBID [9; 9] (mkPSH 1 [8; 8]).

Lemma addVote_outcome_witness :
  exists added err s', @addVote sample_crypto sample_new (sample_vote 2 sample_A) = Ok (added, err, s') /\
    @outcome sample_crypto sample_chain 1 0 1 (ValidatorSet.Validators sample_vset) sample_new
      (sample_vote 2 sample_A) 1 (sample_val 2) added err s'.
Proof.
  destruct (@NewVoteSet_inv sample_crypto sample_chain 1 0 1 _ sample_vals_ok sample_vset) as (s0 & E & Hi).
  - discriminate.
  - reflexivity.
  - by left.
  - assert (s0 = sample_new) as -> by (rewrite sample_new_ok in E; congruence).
    destruct (@addVote_outcome sample_crypto sample_chain 1 0 1 _ sample_new (sample_vote 2 sample_A) 1 (sample_val 2)
      sample_vals_ok Hi eq_refl eq_refl ltac:(discriminate)) as (a & e & s' & E' & _ & O).
    exists a, e, s'. split; [exact E'|exact O].
Defined.

Lemma maj23_has_quorum_witness :
  exists vs, @signed_quorum sample_crypto sample_chain 1 0 1 (ValidatorSet.Validators sample_vset) sample_A vs.
Proof.
  apply (@maj23_has_quorum sample_crypto sample_chain 1 0 1 sample_vset sample_new
    (sample_run [sample_vote 1 sample_A; sample_vote 2 sample_A; sample_vote 3 sample_A]) sample_A).
  - exact sample_vals_ok.
  - by left.
  - exact sample_new_ok.
  - apply (@run_reach sample_crypto _ [sample_vote 1 sample_A; sample_vote 2 sample_A; sample_vote 3 sample_A]).
    vm_compute. reflexivity.
  - vm_compute. reflexivity.
Defined.

Lemma conflicting_majorities_double_sign_witness :
  exists who, ValidatorSet.total (ValidatorSet.Validators sample_vset)
    < 3 * tally (ValidatorSet.Validators sample_vset) who.
Proof.
  destruct (@conflicting_majorities_double_sign sample_crypto sample_chain 1 0 1 sample_vset sample_vset
    sample_new (sample_run [sample_vote 1 sample_A; sample_vote 2 sample_A; sample_vote 3 sample_A])
    sample_new (sample_run [sample_vote 2 sample_B; sample_vote 3 sample_B; sample_vote 4 sample_B])
    sample_A sample_B eq_refl sample_vals_ok (or_introl eq_refl) (or_introl eq_refl) sample_new_ok)
    as (who & H & _).
  - apply (@run_reach sample_crypto _ [sample_vote 1 sample_A; sample_vote 2 sample_A; sample_vote 3 sample_A]).
    vm_compute. reflexivity.
  - vm_compute. reflexivity.
  - exact sample_new_ok.
  - apply (@run_reach sample_crypto _ [sample_vote 2 sample_B; sample_vote 3 sample_B; sample_vote 4 sample_B]).
    vm_compute. reflexivity.
  - vm_compute. reflexivity.
  - vm_compute. discriminate.
  - exists who. exact H.
Defined.

(** A vote of the right step whose validator index is beyond the
    validator set panics (in [ValidatorSet.GetByIndex]); the documented error
    [ErrVoteInvalidValidatorIndex] is never returned. *)
Theorem addVote_index_panics `{Crypto} cid h r ty vals s vote :
  inv cid h r ty vals None s -> same_step h r ty vote ->
  Z.of_nat (length vals) <= v_ValidatorIndex vote -> addVote s vote = Panic.
Proof. apply addVote_out_of_range. Qed.

Lemma addVote_index_panics_witness :
  @addVote sample_crypto sample_new (mkVote [1] 4 1 0 1 sample_A None) = Panic.
Proof.
  destruct (@NewVoteSet_inv sample_crypto sample_chain 1 0 1 _ sample_vals_ok sample_vset) as (s0 & E & Hi).
  - discriminate.
  - reflexivity.
  - by left.
  - assert (s0 = sample_new) as -> by (rewrite sample_new_ok in E; congruence).
    apply (@addVote_index_panics sample_crypto sample_chain 1 0 1 (ValidatorSet.Validators sample_vset)).
    + exact Hi.
    + by split_and!.
    + vm_compute. discriminate.
Defined.

(** Two block identifiers with one key: the block hash is not
    length-prefixed. *)
Definition twin_A : BlockID := mkBID [0; 1; 2] (mkPSH 0 []).
Definition twin_B : BlockID := mkBID [] (mkPSH 0 [0; 0]).

(** [BlockID.Key] is not injective, and the vote set counts votes for
    different blocks with the same key together: with four validators of power
    one, two votes for one block and one vote for its twin yield a two-thirds
    majority for the twin, which a single validator voted for. *)
Theorem key_collision_majority :
  twin_A <> twin_B /\ Key twin_A = Key twin_B /\
  exists s, @run sample_crypto sample_new
      [sample_vote 1 twin_A; sample_vote 2 twin_A; sample_vote 3 twin_B] = Ok s /\
    maj23 s = Some twin_B /\
    map (option_map v_BlockID) (votes s) = [Some twin_A; Some twin_A; Some twin_B; None].
Proof.
  split_and!; [discriminate|reflexivity|]. eexists. split; [vm_compute; reflexivity|].
  split; vm_compute; reflexivity.
Qed.

End VoteSet.
