(* ===== verification/HeightVotes.v ===== *)
(** * gemmill/consensus/pbft/height_vote_set.go

    A [HeightVoteSet] holds, for one height, a prevote and a precommit
    [VoteSet] for every round up to [round], and for up to two further rounds
    per peer.  The vote sets share one validator set; a [VoteSet] only fills
    in its cached total, so each model vote set carries its own copy. *)
From S2P Require Import Prelude BitArray Types SimpleTree SignBytes Validators VoteSets.

Module HeightVoteSet.

Record RoundVoteSet := mkRVS {
  Prevotes_ : VoteSet.t;
  Precommits_ : VoteSet.t
}.

Record t := mk {
  chainID : bytes;
  height : Z;
  valSet : ValidatorSet.t;
  round : Z;
  roundVoteSets : gmap Z RoundVoteSet;
  peerCatchupRounds : gmap bytes (list Z)
}.

Definition set_round (r : Z) (s : t) : t :=
  mk (chainID s) (height s) (valSet s) r (roundVoteSets s) (peerCatchupRounds s).
Definition set_sets (m : gmap Z RoundVoteSet) (s : t) : t :=
  mk (chainID s) (height s) (valSet s) (round s) m (peerCatchupRounds s).
Definition set_catchup (m : gmap bytes (list Z)) (s : t) : t :=
  mk (chainID s) (height s) (valSet s) (round s) (roundVoteSets s) m.

Definition addRound (s : t) (r : Z) : res t :=
  match roundVoteSets s !! r with
  | Some _ => Panic
  | None =>
      let! prevotes := VoteSet.NewVoteSet (chainID s) (height s) r VoteTypePrevote (valSet s) in
      let! precommits := VoteSet.NewVoteSet (chainID s) (height s) r VoteTypePrecommit (valSet s) in
      Ok (set_sets (<[r := mkRVS prevotes precommits]> (roundVoteSets s)) s)
  end.

Definition Reset (s : t) (height : Z) (valSet : ValidatorSet.t) : res t :=
  let! s := addRound (mk (chainID s) height valSet (round s) ∅ ∅) 0 in
  Ok (set_round 0 s).

Definition NewHeightVoteSet (chainID : bytes) (height : Z) (valSet : ValidatorSet.t) : res t :=
  Reset (mk chainID 0 (ValidatorSet.mk [] None 0) 0 ∅ ∅) height valSet.

(** The loop [for r := hvs.round + 1; r <= round; r++], [n] iterations from
    [r]. *)
Fixpoint add_rounds (n : nat) (r : Z) (s : t) : res t :=
  match n with
  | O => Ok s
  | S n' =>
      match roundVoteSets s !! r with
      | Some _ => add_rounds n' (r + 1) s
      | None => let! s := addRound s r in add_rounds n' (r + 1) s
      end
  end.

(** With [round] the largest int64 the loop's test is always true: the call
    does not return, which is [Panic] here. *)
Definition SetRound (s : t) (r : Z) : res t :=
  if negb (round s =? 0) && (r <? i64 (round s + 1)) then Panic
  else if r =? 2 ^ 63 - 1 then Panic
  else
    let! s' := add_rounds (Z.to_nat (r - round s)) (round s + 1) s in
    Ok (set_round r s').

Definition getVoteSet (s : t) (r type_ : Z) : res (option VoteSet.t) :=
  match roundVoteSets s !! r with
  | None => Ok None
  | Some rvs =>
      if type_ =? VoteTypePrevote then Ok (Some (Prevotes_ rvs))
      else if type_ =? VoteTypePrecommit then Ok (Some (Precommits_ rvs))
      else Panic
  end.

(** Writing through the pointer [getVoteSet] returns. *)
Definition put_set (s : t) (r type_ : Z) (vs : VoteSet.t) : t :=
  match roundVoteSets s !! r with
  | None => s
  | Some rvs =>
      let rvs := if type_ =? VoteTypePrevote then mkRVS vs (Precommits_ rvs) else mkRVS (Prevotes_ rvs) vs in
      set_sets (<[r := rvs]> (roundVoteSets s)) s
  end.

Definition Prevotes (s : t) (r : Z) : option VoteSet.t := Prevotes_ <$> roundVoteSets s !! r.
Definition Precommits (s : t) (r : Z) : option VoteSet.t := Precommits_ <$> roundVoteSets s !! r.

(** The loop of [POLInfo], [n] rounds down from [n - 1]. *)
Fixpoint pol_loop (s : t) (n : nat) : Z * BlockID :=
  match n with
  | O => (-1, nilBlockID)
  | S n' =>
      let r := Z.of_nat n' in
      let (polBlockID, ok) := VoteSet.TwoThirdsMajority (Prevotes s r) in
      if ok then (r, polBlockID) else pol_loop s n'
  end.

Definition POLInfo (s : t) : Z * BlockID := pol_loop s (Z.to_nat (round s + 1)).

Definition SetPeerMaj23 (s : t) (r type_ : Z) (peerID : bytes) (blockID : BlockID) : res t :=
  if negb (IsVoteTypeValid type_) then Ok s
  else
    let! vs := getVoteSet s r type_ in
    match vs with
    | None => Ok s
    | Some vs => let! vs := VoteSet.SetPeerMaj23 vs peerID blockID in Ok (put_set s r type_ vs)
    end.

Section Ops.
Context `{Crypto}.

(** [voteSet.AddVote(vote)] on the set of the vote's round and type *)
Definition add_to_set (s : t) (vs : option VoteSet.t) (vote : Vote) : res (bool * option vote_err * t) :=
  let! (added, err, vs) := VoteSet.AddVote vs vote in
  Ok (added, err, put_set s (v_Round vote) (v_Type vote) vs).

Definition AddVote (s : t) (vote : Vote) (peerKey : bytes) : res (bool * option vote_err * t) :=
  if negb (IsVoteTypeValid (v_Type vote)) then Ok (false, None, s)
  else
    let! voteSet := getVoteSet s (v_Round vote) (v_Type vote) in
    match voteSet with
    | Some _ => add_to_set s voteSet vote
    | None =>
        let rndz := default [] (peerCatchupRounds s !! peerKey) in
        if (length rndz <? 2)%nat then
          let! s := addRound s (v_Round vote) in
          let! voteSet := getVoteSet s (v_Round vote) (v_Type vote) in
          let s := set_catchup (<[peerKey := rndz ++ [v_Round vote]]> (peerCatchupRounds s)) s in
          add_to_set s voteSet vote
        else Ok (false, None, s)
    end.

End Ops.

(** A round a peer was let to open. *)
Definition catchup (s : t) (r : Z) : Prop :=
  exists p l, peerCatchupRounds s !! p = Some l /\ r ∈ l.

Definition all_catchup (s : t) : list Z := mjoin ((map_to_list (peerCatchupRounds s)).*2).

Lemma catchup_elem s r : catchup s r <-> r ∈ all_catchup s.
Proof.
  unfold catchup, all_catchup. rewrite list_elem_of_join. split.
  - intros (p & l & Hp & Hr). exists l. split; [done|]. apply list_elem_of_fmap. exists (p, l). split; [done|].
    by apply elem_of_map_to_list.
  - intros (l & Hr & ([p l'] & -> & Hp)%list_elem_of_fmap). apply elem_of_map_to_list in Hp. by exists p, l'.
Qed.

(** ** POLInfo *)
Lemma pol_loop_spec s n :
  match pol_loop s n with
  | (r, B) =>
      (exists m, r = Z.of_nat m /\ (m < n)%nat /\ VoteSet.TwoThirdsMajority (Prevotes s r) = (B, true) /\
         forall k, (m < k < n)%nat -> VoteSet.HasTwoThirdsMajority (Prevotes s (Z.of_nat k)) = false) \/
      (r = -1 /\ B = nilBlockID /\
         forall k, (k < n)%nat -> VoteSet.HasTwoThirdsMajority (Prevotes s (Z.of_nat k)) = false)
  end.
Proof.
  induction n as [|n IH]; cbn [pol_loop]; [right; split_and!; [done..|lia]|].
  destruct (VoteSet.TwoThirdsMajority (Prevotes s (Z.of_nat n))) as [B []] eqn:E.
  - left. exists n. split_and!; [done|lia|done|lia].
  - assert (VoteSet.HasTwoThirdsMajority (Prevotes s (Z.of_nat n)) = false) as Hn.
    { unfold VoteSet.TwoThirdsMajority in E. destruct (Prevotes s (Z.of_nat n)) as [vs|]; [|done].
      simpl. destruct (VoteSet.maj23 vs); [done|]. done. }
    destruct (pol_loop s n) as [r B'].
    destruct IH as [(m & -> & Hm & Hmaj & Hk)|(-> & -> & Hk)]; [left; exists m|right]; split_and!; try done; try lia.
    + intros k Hlt. destruct (decide (k = n)) as [->|]; [done|]. apply Hk. lia.
    + intros k Hlt. destruct (decide (k = n)) as [->|]; [done|]. apply Hk. lia.
Qed.

(** ** The invariant *)
Section Invariant.
Context `{Crypto} (cid : bytes) (h : Z) (vals : list Validator).

Definition rvs_ok (r : Z) (rvs : RoundVoteSet) : Prop :=
  VoteSet.inv cid h r VoteTypePrevote vals None (Prevotes_ rvs) /\
  VoteSet.inv cid h r VoteTypePrecommit vals None (Precommits_ rvs).

Record inv (s : t) : Prop := {
  inv_conf : chainID s = cid /\ height s = h;
  inv_vals : ValidatorSet.Validators (valSet s) = vals /\ ValidatorSet.cached (valSet s);
  inv_sets : forall r rvs, roundVoteSets s !! r = Some rvs -> rvs_ok r rvs;
  inv_round : 0 <= round s < 2 ^ 63 - 1;
  inv_upto : forall r, 0 <= r <= round s -> is_Some (roundVoteSets s !! r);
  inv_only : forall r, is_Some (roundVoteSets s !! r) -> 0 <= r <= round s \/ catchup s r;
  inv_two : forall p l, peerCatchupRounds s !! p = Some l -> (length l <= 2)%nat
}.

Hypothesis Hvals : VoteSet.vals_ok vals.
Hypothesis Hh : h <> 0.

(** What [addRound] needs, and does. *)
Definition base (s : t) : Prop :=
  (chainID s = cid /\ height s = h) /\
  (ValidatorSet.Validators (valSet s) = vals /\ ValidatorSet.cached (valSet s)) /\
  (forall r rvs, roundVoteSets s !! r = Some rvs -> rvs_ok r rvs).

Lemma inv_base s : inv s -> base s.
Proof using Type. intros []. unfold base; naive_solver. Qed.

Lemma addRound_ok s r : base s -> roundVoteSets s !! r = None ->
  exists rvs, addRound s r = Ok (set_sets (<[r := rvs]> (roundVoteSets s)) s) /\ rvs_ok r rvs /\
    base (set_sets (<[r := rvs]> (roundVoteSets s)) s).
Proof using Hvals Hh.
  intros ([Hc Hht] & [Hv Hca] & Hs) Hr. unfold addRound. rewrite Hr, Hc, Hht.
  destruct (VoteSet.NewVoteSet_inv cid h r VoteTypePrevote vals Hvals (valSet s) Hh Hv Hca) as (a & -> & Ha).
  destruct (VoteSet.NewVoteSet_inv cid h r VoteTypePrecommit vals Hvals (valSet s) Hh Hv Hca) as (b & -> & Hb).
  cbn [rbind]. eexists. split; [done|]. split; [done|]. split_and!; try done. simpl.
  intros r' rvs'. destruct (decide (r = r')) as [->|Hne].
  - rewrite lookup_insert_eq. intros [= <-]. done.
  - rewrite lookup_insert_ne by done. apply Hs.
Qed.

Lemma add_rounds_ok n r s : base s ->
  exists m, add_rounds n r s = Ok (set_sets m s) /\ base (set_sets m s) /\
    (forall k, is_Some (m !! k) <-> is_Some (roundVoteSets s !! k) \/ r <= k < r + Z.of_nat n).
Proof using Hvals Hh.
  revert r s. induction n as [|n IH]; intros r s Hb; cbn [add_rounds].
  - exists (roundVoteSets s). destruct s as [c hh v rd m pc]. split; [done|]. split; [done|].
    intros k. simpl. split; [by left|]. intros [?|?]; [done|lia].
  - destruct (roundVoteSets s !! r) as [rvs|] eqn:Er.
    + destruct (IH (r + 1) s Hb) as (m & -> & Hm & Hk). exists m. split; [done|]. split; [done|].
      intros k. rewrite Hk. destruct (decide (k = r)) as [->|]; [|intuition lia].
      split; [intros _; right; lia|]. intros _. left. by rewrite Er.
    + destruct (addRound_ok s r Hb Er) as (rvs & -> & _ & Hb'). cbn [rbind].
      destruct (IH (r + 1) _ Hb') as (m & -> & Hm & Hk). exists m. split; [done|]. split; [done|].
      intros k. rewrite Hk. simpl. destruct (decide (k = r)) as [->|Hne].
      * rewrite lookup_insert_eq. split; [intros _; right; lia|]. intros _. left. eauto.
      * rewrite lookup_insert_ne by done. intuition lia.
Qed.

Lemma NewHeightVoteSet_ok vset :
  ValidatorSet.Validators vset = vals -> ValidatorSet.cached vset ->
  exists s, NewHeightVoteSet cid h vset = Ok s /\ inv s /\ round s = 0.
Proof using Hvals Hh.
  intros Hv Hc. unfold NewHeightVoteSet, Reset. simpl.
  destruct (addRound_ok (mk cid h vset 0 ∅ ∅) 0) as (rvs & -> & Hr & Hb); [by split_and!|done|].
  cbn [rbind]. eexists. split; [done|]. split; [|done]. destruct Hb as (? & ? & Hs).
  split; simpl in *; try done.
  - intros r Hr0. assert (r = 0) as -> by lia. rewrite lookup_insert_eq. eauto.
  - intros r [x Hx]. destruct (decide (r = 0)) as [->|]; [left; lia|]. by rewrite lookup_insert_ne in Hx.
Qed.

Lemma SetRound_ok s r : inv s -> 0 <= r < 2 ^ 63 - 1 -> round s = 0 \/ round s < r ->
  exists s', SetRound s r = Ok s' /\ inv s' /\ round s' = r.
Proof using Hvals Hh.
  intros Hi Hr Hinc. pose proof (inv_round _ Hi) as H0. unfold SetRound.
  assert (negb (round s =? 0) && (r <? i64 (round s + 1)) = false) as ->.
  { destruct (Z.eqb_spec (round s) 0); [done|]. simpl. rewrite i64_id by (unfold is_i64; lia). lia. }
  destruct (Z.eqb_spec r (2 ^ 63 - 1)); [lia|].
  destruct (add_rounds_ok (Z.to_nat (r - round s)) (round s + 1) s (inv_base _ Hi)) as (m & -> & Hb & Hm).
  cbn [rbind]. eexists. split; [done|]. split; [|done]. destruct Hb as (? & ? & ?). split; simpl in *; try done.
  - intros k Hk. apply Hm. destruct (decide (k <= round s)); [left; apply (inv_upto _ Hi); lia|right; lia].
  - intros k [Hk|Hk]%Hm; [|left; lia]. destruct (inv_only _ Hi k Hk) as [?|?]; [|by right].
    left. destruct Hinc; lia.
  - apply (inv_two _ Hi).
Qed.

(** [SetRound] that returns was given a larger round, or leaves round 0. *)
Lemma SetRound_inc s r s' : inv s -> SetRound s r = Ok s' -> round s = 0 \/ round s < r.
Proof using Type.
  intros Hi E. pose proof (inv_round _ Hi). unfold SetRound in E. destruct (Z.eqb_spec (round s) 0); [by left|]. simpl in E.
  rewrite i64_id in E by (unfold is_i64; lia). destruct (Z.ltb_spec r (round s + 1)); [done|]. right. lia.
Qed.

Lemma getVoteSet_base s r type_ : IsVoteTypeValid type_ = true -> base s ->
  exists o, getVoteSet s r type_ = Ok o /\
    match o with
    | Some vs => VoteSet.inv cid h r type_ vals None vs
    | None => roundVoteSets s !! r = None
    end.
Proof using Type.
  unfold IsVoteTypeValid, getVoteSet. intros Ht (_ & _ & Hs).
  destruct (roundVoteSets s !! r) as [rvs|] eqn:Er; [|by eexists]. destruct (Hs _ _ Er) as [Hp Hc].
  destruct (Z.eqb_spec type_ VoteTypePrevote) as [E1|]; [rewrite E1; by eexists|].
  destruct (Z.eqb_spec type_ VoteTypePrecommit) as [E2|]; [rewrite E2; by eexists|done].
Qed.

Lemma getVoteSet_ok s r type_ : IsVoteTypeValid type_ = true -> inv s ->
  exists o, getVoteSet s r type_ = Ok o /\
    match o with
    | Some vs => VoteSet.inv cid h r type_ vals None vs
    | None => roundVoteSets s !! r = None
    end.
Proof using Type. intros Ht Hi. apply getVoteSet_base; [done|]. by apply inv_base. Qed.

Lemma put_set_base s r type_ vs vs' :
  IsVoteTypeValid type_ = true -> base s -> getVoteSet s r type_ = Ok (Some vs) ->
  (VoteSet.inv cid h r type_ vals None vs -> VoteSet.inv cid h r type_ vals None vs') ->
  base (put_set s r type_ vs').
Proof using Type.
  intros Ht (Hc & Hv & Hs) E Hstep. unfold put_set, getVoteSet, IsVoteTypeValid in *.
  destruct (roundVoteSets s !! r) as [rvs|] eqn:Er; [|done].
  destruct (Hs _ _ Er) as [Hp Hpc].
  assert (rvs_ok r (if type_ =? VoteTypePrevote then mkRVS vs' (Precommits_ rvs) else mkRVS (Prevotes_ rvs) vs')).
  { destruct (Z.eqb_spec type_ VoteTypePrevote) as [->|]; simplify_eq/=; [split; auto|].
    destruct (Z.eqb_spec type_ VoteTypePrecommit) as [->|]; simplify_eq/=. split; auto. }
  split; [done|]. split; [done|]. simpl. intros k rvs'.
  destruct (decide (r = k)) as [->|]; [rewrite lookup_insert_eq; by intros [= <-]|].
  rewrite lookup_insert_ne by done. auto.
Qed.

(** Replacing a tracked vote set keeps what the rest of the invariant says. *)
Lemma put_set_inv s r type_ vs vs' :
  IsVoteTypeValid type_ = true -> inv s -> getVoteSet s r type_ = Ok (Some vs) ->
  (VoteSet.inv cid h r type_ vals None vs -> VoteSet.inv cid h r type_ vals None vs') ->
  inv (put_set s r type_ vs').
Proof using Type.
  intros Ht Hi E Hstep. destruct (put_set_base s r type_ vs vs' Ht (inv_base _ Hi) E Hstep) as (Hc & Hv & Hs).
  assert (forall k, is_Some (roundVoteSets (put_set s r type_ vs') !! k) <-> is_Some (roundVoteSets s !! k)) as Hdom.
  { intros k. unfold put_set. destruct (roundVoteSets s !! r) as [rvs|] eqn:Er; [|done]. simpl.
    destruct (decide (r = k)) as [->|]; [rewrite lookup_insert_eq, Er; split; eauto|by rewrite lookup_insert_ne]. }
  assert (round (put_set s r type_ vs') = round s /\
    peerCatchupRounds (put_set s r type_ vs') = peerCatchupRounds s) as [Hr Hp].
  { unfold put_set. by destruct (roundVoteSets s !! r). }
  destruct Hi. split; unfold catchup; rewrite ?Hr, ?Hp; try done.
  - intros k Hk. apply Hdom. by apply inv_upto0.
  - intros k Hk. apply inv_only0. by apply Hdom.
Qed.

Lemma hvs_SetPeerMaj23_ok s r type_ p b : inv s -> exists s', SetPeerMaj23 s r type_ p b = Ok s' /\ inv s'.
Proof using Hvals.
  intros Hi. unfold SetPeerMaj23. destruct (IsVoteTypeValid type_) eqn:Ht; simpl; [|by eauto].
  destruct (getVoteSet_ok s r type_ Ht Hi) as ([vs|] & E & Hv); rewrite E; cbn [rbind]; [|by eauto].
  destruct (VoteSet.SetPeerMaj23_ok _ _ _ _ _ Hvals vs p b Hv) as (vs' & -> & Hv'). cbn [rbind].
  eexists. split; [done|]. by eapply put_set_inv.
Qed.

(** ** Adding a vote *)
Lemma inv_open s r p rvs :
  inv s -> roundVoteSets s !! r = None -> (length (default [] (peerCatchupRounds s !! p)) < 2)%nat -> rvs_ok r rvs ->
  inv (set_catchup (<[p := default [] (peerCatchupRounds s !! p) ++ [r]]> (peerCatchupRounds s))
         (set_sets (<[r := rvs]> (roundVoteSets s)) s)).
Proof using Hvals Hh.
  intros Hi Hr Hl Hok. destruct Hi. split; simpl; try done.
  - intros k rvs'. destruct (decide (r = k)) as [->|]; [rewrite lookup_insert_eq; by intros [= <-]|].
    rewrite lookup_insert_ne by done. auto.
  - intros k Hk. destruct (decide (r = k)) as [->|]; [rewrite lookup_insert_eq; eauto|].
    rewrite lookup_insert_ne by done. auto.
  - intros k. destruct (decide (r = k)) as [->|]; [intros _|rewrite lookup_insert_ne by done].
    + right. exists p. eexists. simpl. rewrite lookup_insert_eq. split; [done|]. set_solver.
    + intros [?|(q & l & Hq & Hk)]%inv_only0; [by left|]. right. unfold catchup. simpl.
      destruct (decide (p = q)) as [->|]; [|exists q, l; by rewrite lookup_insert_ne].
      exists q. eexists. rewrite lookup_insert_eq. split; [done|]. rewrite Hq. simpl. set_solver.
  - intros q l. destruct (decide (p = q)) as [->|]; [rewrite lookup_insert_eq|rewrite lookup_insert_ne by done; eauto].
    intros [= <-]. rewrite length_app. simpl. lia.
Qed.

Lemma add_to_set_inv s vs vote added err s' :
  IsVoteTypeValid (v_Type vote) = true -> inv s ->
  getVoteSet s (v_Round vote) (v_Type vote) = Ok (Some vs) ->
  add_to_set s (Some vs) vote = Ok (added, err, s') -> inv s'.
Proof using Hvals Hh.
  intros Ht Hi Eg E. unfold add_to_set in E. simpl in E.
  destruct (VoteSet.addVote vs vote) as [[[a e] vs']|] eqn:Ea; simplify_eq/=.
  eapply put_set_inv; [done..|]. intros Hv. eapply VoteSet.step_inv; [done..|]. by econstructor.
Qed.

(** A vote for an untracked round opens it. *)
Lemma AddVote_open s vote p :
  IsVoteTypeValid (v_Type vote) = true -> inv s -> roundVoteSets s !! v_Round vote = None ->
  (length (default [] (peerCatchupRounds s !! p)) < 2)%nat ->
  exists s1 vs, inv s1 /\ getVoteSet s1 (v_Round vote) (v_Type vote) = Ok (Some vs) /\
    peerCatchupRounds s1 !! p = Some (default [] (peerCatchupRounds s !! p) ++ [v_Round vote]) /\
    VoteSet.inv cid h (v_Round vote) (v_Type vote) vals None vs /\
    AddVote s vote p = add_to_set s1 (Some vs) vote.
Proof using Hvals Hh.
  intros Ht Hi Hr Hl. destruct (addRound_ok s (v_Round vote) (inv_base _ Hi) Hr) as (rvs & Ea & Hok & _).
  pose proof (inv_open s (v_Round vote) p rvs Hi Hr Hl Hok) as Hi1.
  match type of Hi1 with inv ?x => set (s1 := x) in * end.
  destruct (getVoteSet_ok s1 (v_Round vote) (v_Type vote) Ht Hi1) as ([vs|] & Eg & Hv).
  2:{ unfold s1 in Hv. simpl in Hv. by rewrite lookup_insert_eq in Hv. }
  exists s1, vs. split; [done|]. split; [done|]. split; [by simpl; rewrite lookup_insert_eq|]. split; [done|].
  unfold AddVote. rewrite Ht. cbn [negb].
  assert (getVoteSet s (v_Round vote) (v_Type vote) = Ok None) as -> by (unfold getVoteSet; by rewrite Hr).
  cbn [rbind]. destruct (Nat.ltb_spec (length (default [] (peerCatchupRounds s !! p))) 2); [|lia].
  rewrite Ea. cbn [rbind].
  change (getVoteSet (set_sets _ s)) with (getVoteSet s1). rewrite Eg. done.
Qed.

Lemma AddVote_inv s vote p added err s' : inv s -> AddVote s vote p = Ok (added, err, s') -> inv s'.
Proof using Hvals Hh.
  intros Hi E. destruct (IsVoteTypeValid (v_Type vote)) eqn:Ht.
  2:{ unfold AddVote in E. rewrite Ht in E. by simplify_eq/=. }
  destruct (getVoteSet_ok s (v_Round vote) (v_Type vote) Ht Hi) as ([vs|] & Eg & Hv).
  { unfold AddVote in E. rewrite Ht, Eg in E. cbn [negb rbind] in E. by eapply add_to_set_inv. }
  destruct (decide (length (default [] (peerCatchupRounds s !! p)) < 2)%nat) as [Hl|Hl].
  - destruct (AddVote_open s vote p Ht Hi Hv Hl) as (s1 & vs & Hi1 & Eg1 & _ & _ & E1).
    rewrite E1 in E. by eapply add_to_set_inv.
  - unfold AddVote in E. rewrite Ht, Eg in E. cbn [negb rbind] in E.
    destruct (Nat.ltb_spec (length (default [] (peerCatchupRounds s !! p))) 2); [lia|]. by simplify_eq.
Qed.

(** ** What survives any sequence of calls, whatever the rounds are *)
Lemma SetPeerMaj23_base s r type_ p b s' : base s -> SetPeerMaj23 s r type_ p b = Ok s' -> base s'.
Proof using Hvals.
  intros Hi E. unfold SetPeerMaj23 in E. destruct (IsVoteTypeValid type_) eqn:Ht; simpl in E; [|by simplify_eq].
  destruct (getVoteSet_base s r type_ Ht Hi) as ([vs|] & Eg & Hv); rewrite Eg in E; cbn [rbind] in E; [|by simplify_eq].
  destruct (VoteSet.SetPeerMaj23_ok _ _ _ _ _ Hvals vs p b Hv) as (vs' & E' & Hv'). rewrite E' in E. cbn [rbind] in E.
  simplify_eq. by eapply put_set_base.
Qed.

Lemma SetRound_base s r s' : base s -> SetRound s r = Ok s' -> base s'.
Proof using Hvals Hh.
  intros Hi E. unfold SetRound in E. destruct (_ && _); [done|]. destruct (_ =? _); [done|].
  destruct (add_rounds_ok (Z.to_nat (r - round s)) (round s + 1) s Hi) as (m & Em & Hb & _).
  rewrite Em in E. cbn [rbind] in E. by simplify_eq.
Qed.

Lemma AddVote_base s vote p added err s' : base s -> AddVote s vote p = Ok (added, err, s') -> base s'.
Proof using Hvals Hh.
  intros Hi E. unfold AddVote in E. destruct (IsVoteTypeValid (v_Type vote)) eqn:Ht; cbn [negb] in E; [|by simplify_eq].
  assert (forall s1 vs, base s1 -> getVoteSet s1 (v_Round vote) (v_Type vote) = Ok (Some vs) ->
    add_to_set s1 (Some vs) vote = Ok (added, err, s') -> base s') as Hadd.
  { intros s1 vs Hb Eg Ea. unfold add_to_set in Ea. simpl in Ea.
    destruct (VoteSet.addVote vs vote) as [[[a e] vs']|] eqn:Eadd; simplify_eq/=.
    eapply put_set_base; [done..|]. intros Hv. eapply VoteSet.step_inv; [done..|]. by econstructor. }
  destruct (getVoteSet_base s (v_Round vote) (v_Type vote) Ht Hi) as ([vs|] & Eg & Hv); rewrite Eg in E; cbn [rbind] in E.
  { by eapply Hadd. }
  destruct (_ <? _)%nat; [|by simplify_eq].
  destruct (addRound_ok s (v_Round vote) Hi Hv) as (rvs & Ea & Hok & Hb). rewrite Ea in E. cbn [rbind] in E.
  destruct (getVoteSet_base _ (v_Round vote) (v_Type vote) Ht Hb) as ([vs|] & Eg' & Hv').
  2:{ simpl in Hv'. by rewrite lookup_insert_eq in Hv'. }
  rewrite Eg' in E. cbn [rbind] in E. by eapply Hadd; [| |exact E].
Qed.

Lemma NewHeightVoteSet_base vset s :
  ValidatorSet.Validators vset = vals -> ValidatorSet.cached vset -> NewHeightVoteSet cid h vset = Ok s -> base s.
Proof using Hvals Hh.
  intros Hv Hc E. destruct (NewHeightVoteSet_ok vset Hv Hc) as (s' & E' & Hi & _).
  assert (s' = s) as -> by congruence. by apply inv_base.
Qed.

(** ** Reachable states *)
Inductive step : t -> t -> Prop :=
| step_AddVote s vote p added err s' : AddVote s vote p = Ok (added, err, s') -> step s s'
| step_SetPeerMaj23 s r type_ p b s' : SetPeerMaj23 s r type_ p b = Ok s' -> step s s'
| step_SetRound s r s' : 0 <= r < 2 ^ 63 -> SetRound s r = Ok s' -> step s s'.

Lemma hvs_step_inv s s' : inv s -> step s s' -> inv s'.
Proof using Hvals Hh.
  intros Hi Hst. destruct Hst as [s vote p a e s' E|s r ty p b s' E|s r s' Hb E].
  - by eapply AddVote_inv.
  - destruct (hvs_SetPeerMaj23_ok s r ty p b Hi) as (x & Ex & Hx). congruence.
  - assert (r < 2 ^ 63 - 1).
    { unfold SetRound in E. destruct (_ && _); [done|]. destruct (Z.eqb_spec r (2 ^ 63 - 1)); [done|lia]. }
    destruct (SetRound_ok s r Hi ltac:(lia) (SetRound_inc _ _ _ Hi E)) as (x & Ex & Hx & _). congruence.
Qed.

Lemma hvs_reach_inv s s' : inv s -> rtc step s s' -> inv s'.
Proof using Hvals Hh. intros Hi Hr. induction Hr; eauto using hvs_step_inv. Qed.

(** ** How many rounds are tracked *)
Lemma all_catchup_length s : inv s -> (length (all_catchup s) <= 2 * size (peerCatchupRounds s))%nat.
Proof using Hvals Hh.
  intros Hi. unfold all_catchup. rewrite <- length_map_to_list.
  assert (Forall (fun pl => (length pl.2 <= 2)%nat) (map_to_list (peerCatchupRounds s))) as Hf.
  { apply Forall_forall. intros [p l] Hp%elem_of_map_to_list. by apply (inv_two _ Hi p). }
  induction Hf as [|[p l] L Hl Hf IH]; [cbn; lia|]. rewrite fmap_cons.
  change (length (l ++ mjoin L.*2) <= 2 * S (length L))%nat. rewrite length_app. simpl in *. lia.
Qed.

Lemma tracked_size s : inv s ->
  Z.of_nat (size (roundVoteSets s)) <= round s + 1 + 2 * Z.of_nat (size (peerCatchupRounds s)).
Proof using Hvals Hh.
  intros Hi. pose proof (inv_round _ Hi). pose proof (all_catchup_length s Hi) as Hc.
  rewrite <- size_dom.
  assert (dom (roundVoteSets s) ⊆@{gset Z} list_to_set (seqZ 0 (round s + 1) ++ all_catchup s)) as Hsub.
  { intros r Hr%elem_of_dom. apply elem_of_list_to_set, elem_of_app.
    destruct (inv_only _ Hi r Hr) as [?|?%catchup_elem]; [left; apply elem_of_seqZ; lia|by right]. }
  apply subseteq_size in Hsub. pose proof (size_list_to_set_le (seqZ 0 (round s + 1) ++ all_catchup s)).
  rewrite length_app, length_seqZ in *. lia.
Qed.

End Invariant.

(** C33: in every [HeightVoteSet] reached from [NewHeightVoteSet] by votes from
    anyone, peers' claims and calls of [SetRound], every round from 0 to the
    tracked round has a prevote and a precommit set of that height, round and
    type, any further round was opened by a peer that opened at most two, and
    the number of rounds kept is at most [round + 1 + 2 * peers]. *)
Theorem height_votes_bounded `{Crypto} cid h vset s0 s :
  VoteSet.vals_ok (ValidatorSet.Validators vset) -> ValidatorSet.cached vset ->
  NewHeightVoteSet cid h vset = Ok s0 -> rtc step s0 s ->
  inv cid h (ValidatorSet.Validators vset) s /\
  Z.of_nat (size (roundVoteSets s)) <= round s + 1 + 2 * Z.of_nat (size (peerCatchupRounds s)).
Proof.
  intros Hv Hc E Hr. assert (h <> 0) as Hh by (intros ->; discriminate E).
  destruct (NewHeightVoteSet_ok cid h _ Hv Hh vset eq_refl Hc) as (x & Ex & Hi & _).
  assert (x = s0) as -> by congruence.
  pose proof (hvs_reach_inv _ _ _ Hv Hh _ _ Hi Hr) as Hi'. split; [done|]. by eapply tracked_size.
Qed.

(** [POLInfo] returns the last tracked round with a prevote majority: that
    majority is backed by valid prevotes of that round from more than two
    thirds of the power, no later tracked round has one, and -1 means none
    has. *)
Theorem POLInfo_last_polka `{Crypto} cid h vals s r B :
  VoteSet.vals_ok vals -> h <> 0 -> inv cid h vals s -> POLInfo s = (r, B) ->
  (0 <= r <= round s /\
   (exists vs, VoteSet.signed_quorum cid h r VoteTypePrevote vals B vs) /\
   forall k, r < k <= round s -> VoteSet.HasTwoThirdsMajority (Prevotes s k) = false) \/
  (r = -1 /\ B = nilBlockID /\
   forall k, 0 <= k <= round s -> VoteSet.HasTwoThirdsMajority (Prevotes s k) = false).
Proof.
  intros Hv Hh Hi E. pose proof (inv_round _ _ _ _ Hi). unfold POLInfo in E.
  pose proof (pol_loop_spec s (Z.to_nat (round s + 1))) as Hp. rewrite E in Hp.
  destruct Hp as [(m & -> & Hm & Hmaj & Hk)|(-> & -> & Hk)]; [left|right].
  - split_and!; [lia|lia| |].
    + unfold Prevotes in Hmaj. destruct (roundVoteSets s !! Z.of_nat m) as [rvs|] eqn:Er; [|done]. simpl in Hmaj.
      destruct (VoteSet.maj23 (Prevotes_ rvs)) as [B'|] eqn:EB; [|done]. simplify_eq.
      destruct (inv_sets _ _ _ _ Hi _ _ Er) as [Hpv _].
      destruct (VoteSet.maj23_signed _ _ _ _ _ Hv _ _ Hpv EB) as (vs & _ & Hq). eauto.
    + intros k Hlt. replace k with (Z.of_nat (Z.to_nat k)) by lia. apply Hk. lia.
  - split_and!; [done..|]. intros k Hlt. replace k with (Z.of_nat (Z.to_nat k)) by lia. apply Hk. lia.
Qed.

(** ** A run: three prevotes of round 0, from one peer *)
Fixpoint run `{Crypto} (s : t) (p : bytes) (vs : list Vote) : res t :=
  match vs with
  | [] => Ok s
  | v :: vs' => let! (_, _, s) := AddVote s v p in run s p vs'
  end.

Lemma hvs_run_reach `{Crypto} s p vs s' : run s p vs = Ok s' -> rtc step s s'.
Proof.
  revert s. induction vs as [|v vs IH]; intros s E; simplify_eq/=; [done|].
  destruct (AddVote s v p) as [[[a e] s1]|] eqn:Ea; simplify_eq/=. eapply rtc_l; [by econstructor|]. by apply IH.
Qed.

Definition of_res (m : res t) : t :=
  match m with Ok s => s | Panic => mk [] 0 (ValidatorSet.mk [] None 0) 0 ∅ ∅ end.

Definition sample_new : t := of_res (NewHeightVoteSet VoteSet.sample_chain 1 VoteSet.sample_vset).

Definition sample_votes : list Vote :=
  map (fun a => VoteSet.sample_vote a VoteSet.sample_A) [1; 2; 3].

Definition sample_state : t := of_res (@run sample_crypto sample_new [80] sample_votes).

Lemma sample_reach : rtc (@step sample_crypto) sample_new sample_state.
Proof. apply (@hvs_run_reach sample_crypto _ [80] sample_votes). vm_compute. reflexivity. Qed.

Lemma height_votes_bounded_witness :
  @inv sample_crypto VoteSet.sample_chain 1 (ValidatorSet.Validators VoteSet.sample_vset) sample_state /\
  Z.of_nat (size (roundVoteSets sample_state))
    <= round sample_state + 1 + 2 * Z.of_nat (size (peerCatchupRounds sample_state)).
Proof.
  apply (@height_votes_bounded sample_crypto VoteSet.sample_chain 1 VoteSet.sample_vset sample_new sample_state).
  - exact VoteSet.sample_vals_ok.
  - by left.
  - reflexivity.
  - exact sample_reach.
Defined.

Lemma sample_inv :
  @inv sample_crypto VoteSet.sample_chain 1 (ValidatorSet.Validators VoteSet.sample_vset) sample_state.
Proof.
  destruct (@NewHeightVoteSet_ok sample_crypto VoteSet.sample_chain 1 _ VoteSet.sample_vals_ok
    ltac:(discriminate) VoteSet.sample_vset eq_refl (or_introl eq_refl)) as (s0 & E & Hi & _).
  assert (s0 = sample_new) as -> by (unfold sample_new; by rewrite E).
  by apply (@hvs_reach_inv sample_crypto VoteSet.sample_chain 1 _ VoteSet.sample_vals_ok ltac:(discriminate) _ _ Hi sample_reach).
Qed.

Lemma POLInfo_last_polka_witness :
  exists vs, @VoteSet.signed_quorum sample_crypto VoteSet.sample_chain 1 0 VoteTypePrevote
    (ValidatorSet.Validators VoteSet.sample_vset) VoteSet.sample_A vs.
Proof.
  destruct (@POLInfo_last_polka sample_crypto VoteSet.sample_chain 1 _ sample_state 0 VoteSet.sample_A
    VoteSet.sample_vals_ok ltac:(discriminate) sample_inv) as [(_ & Hq & _)|(E & _)].
  - vm_compute. reflexivity.
  - exact Hq.
  - discriminate E.
Defined.

End HeightVoteSet.
