(* ===== verification/PrivVal.v ===== *)
(** * gemmill/types/priv_validator.go

    The validator's signer remembers the height, round, step, bytes and
    signature of what it signed last, writes them to its file, and refuses to
    sign anything older or anything different at the same height, round and
    step.  The file system is a map from paths to contents; the JSON file of a
    [PrivValidator] is represented by the fields it carries, with what reading
    it back changes ([reload]). *)
From S2P Require Import Prelude Types SimpleTree SignBytes.

(** [crypto.PrivKey] *)
Class PrivKeyOps (K : Type) := {
  priv_Sign : K -> bytes -> Signature;
  priv_PubKey : K -> PubKey
}.

(** ** gcmn.WriteFileAtomic *)
Module Files.
Section Files.
Context {C : Type}.

Abbreviation fs := (gmap bytes C).

(** What the operating system may do to the four calls: the read of the old
    file, the write of the backup, the write of the new file (a failed write
    leaves anything behind) and the rename. *)
Record faults := mkFaults {
  read_fails : bool;
  bak_fails : option (option C);
  new_fails : option (option C);
  rename_fails : bool
}.

Definition no_faults : faults := mkFaults false None None false.

Definition bak : bytes := of_string ".bak".
Definition new : bytes := of_string ".new".

Definition WriteFile (o : option (option C)) (m : fs) (path : bytes) (c : C) : bool * fs :=
  match o with
  | None => (true, <[path := c]> m)
  | Some left_behind => (false, partial_alter (fun _ => left_behind) path m)
  end.

Definition Rename (fails : bool) (m : fs) (old new : bytes) : bool * fs :=
  if fails then (false, m)
  else match m !! old with Some c => (true, <[new := c]> (delete old m)) | None => (false, m) end.

(** The part after the backup *)
Definition write_and_move (f : faults) (m : fs) (path : bytes) (c : C) : bool * fs :=
  let (ok, m) := WriteFile (new_fails f) m (path ++ new) c in
  if negb ok then (false, m) else Rename (rename_fails f) m (path ++ new) path.

Definition WriteFileAtomic (f : faults) (m : fs) (path : bytes) (c : C) : bool * fs :=
  match m !! path with
  | Some old =>
      if read_fails f then (false, m)
      else
        let (ok, m) := WriteFile (bak_fails f) m (path ++ bak) old in
        if negb ok then (false, m) else write_and_move f m path c
  | None => write_and_move f m path c
  end.

Lemma suffix_ne (path s : bytes) : s <> [] -> path ++ s <> path.
Proof. intros Hs E. apply (f_equal length) in E. rewrite length_app in E. destruct s; simpl in *; [done|lia]. Qed.

Lemma WriteFile_other o m p q c : p <> q -> (WriteFile o m p c).2 !! q = m !! q.
Proof. intros Hne. destruct o as [o|]; simpl; [by rewrite lookup_partial_alter_ne|by rewrite lookup_insert_ne]. Qed.

Lemma write_and_move_atomic f m path c ok m' :
  write_and_move f m path c = (ok, m') -> m' !! path = if ok then Some c else m !! path.
Proof.
  unfold write_and_move. pose proof (suffix_ne path new ltac:(discriminate)) as Hne.
  pose proof (WriteFile_other (new_fails f) m (path ++ new) path c Hne) as Hw.
  destruct (new_fails f) as [o|]; simpl in *; [intros; by simplify_eq|].
  unfold Rename. destruct (rename_fails f); [intros; by simplify_eq|].
  rewrite lookup_insert_eq. intros; simplify_eq. by rewrite lookup_insert_eq.
Qed.

(** Whatever fails, the file has its old content or its new one, the new one
    exactly when the call succeeds. *)
Lemma WriteFileAtomic_atomic f m path c ok m' :
  WriteFileAtomic f m path c = (ok, m') -> m' !! path = if ok then Some c else m !! path.
Proof.
  unfold WriteFileAtomic. destruct (m !! path) as [old|] eqn:E.
  - destruct (read_fails f); [intros; by simplify_eq|].
    pose proof (WriteFile_other (bak_fails f) m (path ++ bak) path old (suffix_ne path bak ltac:(discriminate))) as Hw.
    destruct (WriteFile (bak_fails f) m (path ++ bak) old) as [b m1]. simpl in Hw.
    destruct b; simpl; [|intros; simplify_eq; congruence].
    intros Hm%write_and_move_atomic. rewrite Hm, Hw. by destruct ok.
  - intros Hm%write_and_move_atomic. rewrite Hm. by destruct ok.
Qed.

Lemma WriteFileAtomic_no_faults m path c : exists m', WriteFileAtomic no_faults m path c = (true, m').
Proof.
  unfold WriteFileAtomic, write_and_move, Rename, no_faults; simpl.
  destruct (m !! path); simpl; rewrite lookup_insert_eq; eauto.
Qed.

End Files.
Arguments faults : clear implicits.
End Files.

Module PrivValidator.
Import Json.

Definition stepNone : Z := 0.
Definition stepPropose : Z := 1.
Definition stepPrevote : Z := 2.
Definition stepPrecommit : Z := 3.

Definition voteToStep (vote : Vote) : res Z :=
  if v_Type vote =? VoteTypePrevote then Ok stepPrevote
  else if v_Type vote =? VoteTypePrecommit then Ok stepPrecommit
  else Panic.

Inductive sign_err := HeightRegression | RoundRegression | StepRegression.

Section Ops.
Context `{Crypto} {K : Type} `{PrivKeyOps K}.

Record t := mk {
  Address_ : bytes;
  PubKey_ : PubKey;
  LastHeight : Z;
  LastRound : Z;
  LastStep : Z;
  LastSignature : option Signature;
  LastSignBytes : option bytes;
  PrivKey_ : K;
  Signer : bytes -> Signature;
  filePath : bytes
}.

Abbreviation disk := (gmap bytes t).

Definition set_last (pv : t) (h r s : Z) (sg : option Signature) (sb : option bytes) : t :=
  mk (Address_ pv) (PubKey_ pv) h r s sg sb (PrivKey_ pv) (Signer pv) (filePath pv).

Definition SetSigner (pv : t) (s : bytes -> Signature) : t :=
  mk (Address_ pv) (PubKey_ pv) (LastHeight pv) (LastRound pv) (LastStep pv) (LastSignature pv)
     (LastSignBytes pv) (PrivKey_ pv) s (filePath pv).

Definition SetFile (pv : t) (path : bytes) : t :=
  mk (Address_ pv) (PubKey_ pv) (LastHeight pv) (LastRound pv) (LastStep pv) (LastSignature pv)
     (LastSignBytes pv) (PrivKey_ pv) (Signer pv) path.

(** [GenPrivValidator] with a key given, or generated by the caller. *)
Definition GenPrivValidator (privKey : K) : t :=
  let pubKey := priv_PubKey privKey in
  mk (Address pubKey) pubKey 0 0 stepNone None None privKey (priv_Sign privKey) [].

(** Reading the file back: numbers pass through float64, a nil byte slice
    reads as an empty one, and the signer is the default one again. *)
Definition float64_round (z : Z) : Z :=
  let a := Z.abs z in
  if a <=? 2 ^ 53 then z
  else
    let e := Z.log2 a - 52 in
    let q := a / 2 ^ e in
    let d := 2 * (a mod 2 ^ e) in
    let q := if (2 ^ e <? d) || ((2 ^ e =? d) && Z.odd q) then q + 1 else q in
    Z.sgn z * (q * 2 ^ e).

Definition reload (pv : t) (path : bytes) : t :=
  mk (Address_ pv) (PubKey_ pv) (i64 (float64_round (LastHeight pv))) (i64 (float64_round (LastRound pv)))
     (i8 (LastStep pv)) (LastSignature pv) (Some (default [] (LastSignBytes pv)))
     (PrivKey_ pv) (priv_Sign (PrivKey_ pv)) path.

Definition LoadPrivValidator (m : disk) (path : bytes) : option t :=
  match m !! path with None => None | Some pv => Some (reload pv path) end.

Definition save (f : Files.faults t) (m : disk) (pv : t) : bool * disk :=
  match filePath pv with
  | [] => (false, m)
  | _ => Files.WriteFileAtomic f m (filePath pv) pv
  end.

Definition Save (f : Files.faults t) (m : disk) (pv : t) : bool * disk := save f m pv.

Definition LoadOrGenPrivValidator (f : Files.faults t) (m : disk) (path : bytes) (privKey : K) : option t * disk :=
  match m !! path with
  | Some _ => (LoadPrivValidator m path, m)
  | None =>
      let pv := SetFile (GenPrivValidator privKey) path in
      let (_, m) := Save f m pv in (Some pv, m)
  end.

Definition Reset (f : Files.faults t) (m : disk) (pv : t) : t * disk :=
  let pv := set_last pv 0 0 0 None None in
  let (_, m) := Save f m pv in (pv, m).

Definition signBytesHRS (f : Files.faults t) (m : disk) (pv : t) (height round step : Z) (signBytes : bytes)
    : res ((Signature + sign_err) * t * disk) :=
  let sign : res ((Signature + sign_err) * t * disk) :=
    let signature := Signer pv signBytes in
    let pv := set_last pv height round step (Some signature) (Some signBytes) in
    let (_, m) := save f m pv in
    Ok (inl signature, pv, m) in
  if height <? LastHeight pv then Ok (inr HeightRegression, pv, m)
  else if LastHeight pv =? height then
    if round <? LastRound pv then Ok (inr RoundRegression, pv, m)
    else if LastRound pv =? round then
      if step <? LastStep pv then Ok (inr StepRegression, pv, m)
      else if LastStep pv =? step then
        match LastSignBytes pv with
        | None => Ok (inr StepRegression, pv, m)
        | Some last =>
            match LastSignature pv with
            | None => Panic
            | Some sg => if bytes_eqb last signBytes then Ok (inl sg, pv, m) else Ok (inr StepRegression, pv, m)
            end
        end
      else sign
    else sign
  else sign.

Definition set_vote_sig (v : Vote) (sg : Signature) : Vote :=
  mkVote (v_ValidatorAddress v) (v_ValidatorIndex v) (v_Height v) (v_Round v) (v_Type v) (v_BlockID v) (Some sg).

Definition SignVote (f : Files.faults t) (m : disk) (pv : t) (chainID : bytes) (vote : Vote)
    : res ((Vote + sign_err) * t * disk) :=
  let! step := voteToStep vote in
  let! (r, pv, m) := signBytesHRS f m pv (v_Height vote) (v_Round vote) step (SignBytes_vote chainID vote) in
  match r with
  | inl sg => Ok (inl (set_vote_sig vote sg), pv, m)
  | inr e => Ok (inr e, pv, m)
  end.

Definition set_proposal_sig (p : Proposal) (sg : Signature) : Proposal :=
  mkProposal (p_Height p) (p_Round p) (p_BlockPartsHeader p) (p_POLRound p) (p_POLBlockID p) (Some sg).

Definition SignProposal (f : Files.faults t) (m : disk) (pv : t) (chainID : bytes) (proposal : Proposal)
    : res ((Proposal + sign_err) * t * disk) :=
  let! (r, pv, m) :=
    signBytesHRS f m pv (p_Height proposal) (p_Round proposal) stepPropose (SignBytes_proposal chainID proposal) in
  match r with
  | inl sg => Ok (inl (set_proposal_sig proposal sg), pv, m)
  | inr e => Ok (inr e, pv, m)
  end.

(** ** Runs of a validator process: requests to sign, and restarts *)
Inductive request :=
| ReqVote (chainID : bytes) (v : Vote)
| ReqProposal (chainID : bytes) (p : Proposal).

Inductive event :=
| Sign (rq : request) (f : Files.faults t)
| Restart.

Definition serve (f : Files.faults t) (m : disk) (pv : t) (rq : request) : res (option request * t * disk) :=
  match rq with
  | ReqVote c v =>
      let! (r, pv, m) := SignVote f m pv c v in
      Ok (match r with inl v => Some (ReqVote c v) | inr _ => None end, pv, m)
  | ReqProposal c p =>
      let! (r, pv, m) := SignProposal f m pv c p in
      Ok (match r with inl p => Some (ReqProposal c p) | inr _ => None end, pv, m)
  end.

(** The signed votes and proposals that leave the process, in order *)
Fixpoint run (m : disk) (pv : t) (evs : list event) : res (list request * t * disk) :=
  match evs with
  | [] => Ok ([], pv, m)
  | Sign rq f :: evs =>
      let! (o, pv, m) := serve f m pv rq in
      let! (out, pv, m) := run m pv evs in
      Ok (match o with Some s => s :: out | None => out end, pv, m)
  | Restart :: evs =>
      let! pv := deref (LoadPrivValidator m (filePath pv)) in run m pv evs
  end.

(** A process that loads or generates its key and then runs *)
Definition session (f : Files.faults t) (m : disk) (path : bytes) (k : K) (evs : list event) : res (list request) :=
  let (o, m) := LoadOrGenPrivValidator f m path k in
  let! pv := deref o in
  let! (out, _, _) := run m pv evs in Ok out.

Definition req_step (rq : request) : Z :=
  match rq with
  | ReqVote _ v => if v_Type v =? VoteTypePrevote then stepPrevote else stepPrecommit
  | ReqProposal _ _ => stepPropose
  end.
Definition req_hrs (rq : request) : Z * Z * Z :=
  match rq with
  | ReqVote _ v => (v_Height v, v_Round v, req_step rq)
  | ReqProposal _ p => (p_Height p, p_Round p, req_step rq)
  end.
Definition req_bytes (rq : request) : bytes :=
  match rq with ReqVote c v => SignBytes_vote c v | ReqProposal c p => SignBytes_proposal c p end.
Definition req_sig (rq : request) : option Signature :=
  match rq with ReqVote _ v => v_Signature v | ReqProposal _ p => p_Signature p end.
Definition req_ok (rq : request) : Prop :=
  match rq with ReqVote _ v => IsVoteTypeValid (v_Type v) = true | ReqProposal _ _ => True end.

(** Lexicographic order on height, round and step *)
Definition hrs_le (a b : Z * Z * Z) : Prop :=
  let '(h, r, s) := a in let '(h', r', s') := b in
  h < h' \/ (h = h' /\ (r < r' \/ (r = r' /\ s <= s'))).

Lemma hrs_le_refl a : hrs_le a a.
Proof using Type. destruct a as [[h r] s]. simpl. lia. Qed.

Lemma hrs_le_trans a b c : hrs_le a b -> hrs_le b c -> hrs_le a c.
Proof using Type. destruct a as [[h r] s], b as [[h' r'] s'], c as [[h2 r2] s2]. simpl. lia. Qed.

Definition last_hrs (pv : t) : Z * Z * Z := (LastHeight pv, LastRound pv, LastStep pv).

(** [signBytesHRS], in one equation per case *)
Lemma signBytesHRS_spec f m pv h r s sb :
  let sg := Signer pv sb in
  let pv' := set_last pv h r s (Some sg) (Some sb) in
  (hrs_le (last_hrs pv) (h, r, s) /\ last_hrs pv <> (h, r, s) /\
     signBytesHRS f m pv h r s sb = Ok (inl sg, pv', (save f m pv').2)) \/
  (last_hrs pv = (h, r, s) /\ exists sg', LastSignBytes pv = Some sb /\ LastSignature pv = Some sg' /\
     signBytesHRS f m pv h r s sb = Ok (inl sg', pv, m)) \/
  (exists e, signBytesHRS f m pv h r s sb = Ok (inr e, pv, m)) \/
  (last_hrs pv = (h, r, s) /\ is_Some (LastSignBytes pv) /\ LastSignature pv = None).
Proof using Type.
  cbv zeta. unfold signBytesHRS, last_hrs, hrs_le. cbv zeta.
  destruct (Z.ltb_spec h (LastHeight pv)); [by eauto 10|].
  set (pv' := set_last pv h r s _ _). destruct (save f m pv') as [ok m'] eqn:Es.
  destruct (Z.eqb_spec (LastHeight pv) h) as [Eh|].
  2:{ left. split; [lia|]. split; [congruence|done]. }
  destruct (Z.ltb_spec r (LastRound pv)); [by eauto 10|].
  destruct (Z.eqb_spec (LastRound pv) r) as [Er|].
  2:{ left. split; [lia|]. split; [congruence|done]. }
  destruct (Z.ltb_spec s (LastStep pv)); [by eauto 10|].
  destruct (Z.eqb_spec (LastStep pv) s) as [Est|].
  2:{ left. split; [lia|]. split; [congruence|done]. }
  destruct (LastSignBytes pv) as [last|]; [|by eauto 10].
  destruct (LastSignature pv) as [sg|]; [|right; right; right; split_and!; [congruence|eauto|done]].
  destruct (bytes_eqb last sb) eqn:Eb; [|by eauto 10]. apply bytes_eqb_eq in Eb as ->.
  right. left. split; [congruence|]. eauto.
Qed.

(** ** No double signing *)
Section Safety.
Context (k : K) (path : bytes).

Definition small (z : Z) : Prop := Z.abs z <= 2 ^ 53.

Definition event_ok (e : event) : Prop :=
  match e with
  | Sign rq f => req_ok rq /\ small (req_hrs rq).1.1 /\ small (req_hrs rq).1.2 /\ f = Files.no_faults
  | Restart => True
  end.

(** The file of [q] is what [pv] would be read back from. *)
Record synced (q pv : t) : Prop := {
  sy_hrs : last_hrs q = last_hrs pv;
  sy_sig : LastSignature q = LastSignature pv;
  sy_bytes : default [] (LastSignBytes q) = default [] (LastSignBytes pv);
  sy_key : PrivKey_ q = k
}.

Record pv_ok (m : disk) (pv : t) : Prop := {
  po_path : filePath pv = path;
  po_signer : Signer pv = priv_Sign k;
  po_key : PrivKey_ pv = k;
  po_small : small (LastHeight pv) /\ small (LastRound pv) /\ 0 <= LastStep pv <= 3;
  po_last : LastStep pv <> 0 -> exists sb, LastSignBytes pv = Some sb /\ LastSignature pv = Some (priv_Sign k sb);
  po_disk : exists q, m !! path = Some q /\ synced q pv
}.

(** What has been signed so far agrees with what the signer remembers. *)
Record remembers (past : list request) (pv : t) : Prop := {
  re_sorted : StronglySorted (fun a b => hrs_le (req_hrs a) (req_hrs b)) past;
  re_same : forall a b, a ∈ past -> b ∈ past -> req_hrs a = req_hrs b -> req_bytes a = req_bytes b;
  re_signed : forall a, a ∈ past -> req_sig a = Some (priv_Sign k (req_bytes a));
  re_last : forall a, a ∈ past -> hrs_le (req_hrs a) (last_hrs pv) /\
      (req_hrs a = last_hrs pv -> LastSignBytes pv = Some (req_bytes a))
}.

Lemma hrs_le_antisym a b : hrs_le a b -> hrs_le b a -> a = b.
Proof using Type.
  destruct a as [[h r] s], b as [[h' r'] s']. simpl. intros. f_equal; [f_equal|]; lia.
Qed.

(** One more signature at [pv']'s position *)
Lemma remembers_snoc past pv pv' d :
  remembers past pv -> hrs_le (last_hrs pv) (last_hrs pv') -> req_hrs d = last_hrs pv' ->
  LastSignBytes pv' = Some (req_bytes d) -> req_sig d = Some (priv_Sign k (req_bytes d)) ->
  (last_hrs pv = last_hrs pv' -> LastSignBytes pv = Some (req_bytes d)) ->
  remembers (past ++ [d]) pv'.
Proof using Type.
  intros Hre Hle Hd Hsb Hsig Heq.
  assert (forall a, a ∈ past -> hrs_le (req_hrs a) (req_hrs d)) as Hup.
  { intros a Ha. rewrite Hd. destruct (re_last _ _ Hre a Ha) as [Hl _]. by eapply hrs_le_trans. }
  assert (forall a, a ∈ past -> req_hrs a = req_hrs d -> req_bytes a = req_bytes d) as Hsame.
  { intros a Ha E. destruct (re_last _ _ Hre a Ha) as [Hl Hb].
    assert (last_hrs pv = last_hrs pv') as El by (apply hrs_le_antisym; [done|]; by rewrite <- Hd, <- E).
    assert (Some (req_bytes a) = Some (req_bytes d)) as [= ?]; [|done].
    rewrite <- Hb by congruence. by apply Heq. }
  split.
  - apply StronglySorted_app. split_and!; [|exact (re_sorted _ _ Hre)|repeat constructor].
    intros a b Ha ->%list_elem_of_singleton. by apply Hup.
  - intros a b [Ha| ->%list_elem_of_singleton]%elem_of_app [Hb| ->%list_elem_of_singleton]%elem_of_app E.
    + by apply (re_same _ _ Hre).
    + by apply Hsame.
    + symmetry. by apply Hsame.
    + done.
  - intros a [Ha| ->%list_elem_of_singleton]%elem_of_app; [by apply (re_signed _ _ Hre)|done].
  - intros a [Ha| ->%list_elem_of_singleton]%elem_of_app.
    + rewrite <- Hd. split; [by apply Hup|]. intros E. rewrite Hsb. f_equal. symmetry. by apply Hsame.
    + rewrite Hd. split; [apply hrs_le_refl|done].
Qed.

Hypothesis Hpath : path <> [].

Lemma save_ok m pv : filePath pv = path -> (save Files.no_faults m pv).2 !! path = Some pv.
Proof using Hpath.
  intros Hf. unfold save. rewrite Hf. destruct path as [|b p] eqn:Ep; [done|].
  destruct (Files.WriteFileAtomic_no_faults m (b :: p) pv) as [m' E]. rewrite E.
  by apply Files.WriteFileAtomic_atomic in E.
Qed.

(** The core step: signing bytes at a position, with [d] the signed request. *)
Lemma signBytesHRS_ok past m pv h r s sb :
  pv_ok m pv -> remembers past pv -> small h -> small r -> 1 <= s <= 3 ->
  exists o pv' m', signBytesHRS Files.no_faults m pv h r s sb = Ok (o, pv', m') /\ pv_ok m' pv' /\
    match o with
    | inr _ => pv' = pv
    | inl sg => sg = priv_Sign k sb /\ forall d, req_hrs d = (h, r, s) -> req_bytes d = sb -> req_sig d = Some sg ->
        remembers (past ++ [d]) pv'
    end.
Proof using Hpath.
  intros Hok Hre Hh Hr Hs.
  destruct (signBytesHRS_spec Files.no_faults m pv h r s sb)
    as [(Hle & Hne & E)|[(El & sg & Hsb & Hsig & E)|[[e E]|(El & Hsb & Hsig)]]].
  - rewrite E, (po_signer _ _ Hok) in *. do 3 eexists. split; [reflexivity|]. split.
    + destruct Hok. split; simpl; try done; [split_and!; try done; lia|eauto|].
      eexists. split; [by apply save_ok|]. by split.
    + split; [done|]. intros d Hd Hb Hsg. eapply (remembers_snoc _ pv); simpl; try done; congruence.
  - rewrite E. do 3 eexists. split; [reflexivity|]. split; [done|].
    destruct (po_last _ _ Hok) as (sb' & Hsb' & Hsig'); [unfold last_hrs in El; simplify_eq; lia|].
    assert (sb' = sb) as -> by congruence. assert (sg = priv_Sign k sb) as -> by congruence.
    split; [done|]. intros d Hd Hb Hsg. eapply (remembers_snoc _ pv); try congruence. apply hrs_le_refl.
  - rewrite E. by do 3 eexists.
  - destruct (po_last _ _ Hok) as (sb' & Hsb' & Hsig'); [unfold last_hrs in El; simplify_eq; lia|]. congruence.
Qed.

Lemma serve_ok past m pv rq :
  pv_ok m pv -> remembers past pv -> event_ok (Sign rq Files.no_faults) ->
  exists o pv' m', serve Files.no_faults m pv rq = Ok (o, pv', m') /\ pv_ok m' pv' /\
    remembers (past ++ option_list o) pv'.
Proof using Hpath.
  intros Hok Hre (Hrq & Hh & Hr & _). destruct rq as [c v|c p]; simpl in *.
  - unfold SignVote, voteToStep.
    assert (exists s, (if v_Type v =? VoteTypePrevote then Ok stepPrevote
        else if v_Type v =? VoteTypePrecommit then Ok stepPrecommit else Panic) = Ok s /\ 1 <= s <= 3 /\
        s = (if v_Type v =? VoteTypePrevote then stepPrevote else stepPrecommit)) as (s & -> & Hs & Es).
    { unfold IsVoteTypeValid in Hrq. destruct (v_Type v =? VoteTypePrevote); [by eexists|].
      simpl in Hrq. rewrite Hrq. by eexists. }
    cbn [rbind].
    destruct (signBytesHRS_ok past m pv (v_Height v) (v_Round v) s (SignBytes_vote c v) Hok Hre Hh Hr Hs)
      as (o & pv' & m' & -> & Hok' & Ho). cbn [rbind].
    destruct o as [sg|e]; cbn [rbind]; do 3 eexists; (split; [reflexivity|]); (split; [done|]); simpl.
    + destruct Ho as [-> Ho]. apply Ho; simpl; [by rewrite Es|done|done].
    + by rewrite (right_id_L [] (++)), Ho.
  - unfold SignProposal.
    destruct (signBytesHRS_ok past m pv (p_Height p) (p_Round p) stepPropose (SignBytes_proposal c p) Hok Hre Hh Hr)
      as (o & pv' & m' & -> & Hok' & Ho); [by unfold stepPropose|]. cbn [rbind].
    destruct o as [sg|e]; cbn [rbind]; do 3 eexists; (split; [reflexivity|]); (split; [done|]); simpl.
    + destruct Ho as [-> Ho]. by apply Ho.
    + by rewrite (right_id_L [] (++)), Ho.
Qed.

Lemma float64_small z : small z -> i64 (float64_round z) = z.
Proof using Type.
  unfold small, float64_round. intros Hz. destruct (Z.leb_spec (Z.abs z) (2 ^ 53)); [|lia].
  apply i64_id. unfold is_i64. lia.
Qed.

Lemma restart_ok past m pv :
  pv_ok m pv -> remembers past pv ->
  exists pv', LoadPrivValidator m (filePath pv) = Some pv' /\ pv_ok m pv' /\ remembers past pv'.
Proof using Type.
  intros Hok Hre. destruct (po_disk _ _ Hok) as (q & Hq & Hsy). destruct (po_small _ _ Hok) as (Hh & Hr & Hs).
  unfold LoadPrivValidator. rewrite (po_path _ _ Hok), Hq. eexists. split; [done|].
  pose proof (sy_hrs _ _ Hsy) as El. unfold last_hrs in El. injection El as E1 E2 E3.
  assert (LastHeight (reload q path) = LastHeight pv) as F1 by (simpl; by rewrite E1, float64_small).
  assert (LastRound (reload q path) = LastRound pv) as F2 by (simpl; by rewrite E2, float64_small).
  assert (LastStep (reload q path) = LastStep pv) as F3
    by (simpl; rewrite E3; unfold i8; rewrite Z.mod_small by lia; lia).
  assert (last_hrs (reload q path) = last_hrs pv) as El by (unfold last_hrs; by rewrite F1, F2, F3).
  assert (LastSignBytes (reload q path) = Some (default [] (LastSignBytes pv))) as Eb
    by (simpl; by rewrite (sy_bytes _ _ Hsy)).
  split.
  - split; try done.
    + simpl. by rewrite (sy_key _ _ Hsy).
    + exact (sy_key _ _ Hsy).
    + by rewrite F1, F2, F3.
    + intros Hne. rewrite F3 in Hne.
      destruct (po_last _ _ Hok Hne) as (sb & Hsb & Hsig). exists sb. rewrite Eb, Hsb. split; [done|].
      simpl. by rewrite (sy_sig _ _ Hsy).
    + exists q. split; [done|]. split; [by rewrite El, (sy_hrs _ _ Hsy)|done|done|exact (sy_key _ _ Hsy)].
  - destruct Hre as [? ? ? Hl]. split; try done. intros a Ha. rewrite El. destruct (Hl a Ha) as [? Hb].
    split; [done|]. intros E. rewrite Eb. by rewrite (Hb E).
Qed.

Lemma run_ok past m pv evs :
  pv_ok m pv -> remembers past pv -> Forall event_ok evs ->
  exists out pv' m', run m pv evs = Ok (out, pv', m') /\ pv_ok m' pv' /\ remembers (past ++ out) pv'.
Proof using Hpath.
  intros Hok Hre Hevs. revert past m pv Hok Hre.
  induction Hevs as [|e evs He _ IH]; intros past m pv Hok Hre; cbn [run].
  - do 3 eexists. split; [done|]. by rewrite (right_id_L [] (++)).
  - destruct e as [rq f|].
    + assert (f = Files.no_faults) as -> by apply He.
      destruct (serve_ok past m pv rq Hok Hre He) as (o & pv1 & m1 & -> & Hok1 & Hre1). cbn [rbind].
      destruct (IH _ _ _ Hok1 Hre1) as (out & pv' & m' & -> & Hok' & Hre'). cbn [rbind].
      do 3 eexists. split; [reflexivity|]. split; [done|]. rewrite <- (assoc_L (++)) in Hre'. by destruct o.
    + destruct (restart_ok past m pv Hok Hre) as (pv1 & -> & Hok1 & Hre1). cbn [deref rbind].
      by apply IH.
Qed.

Lemma gen_ok m pv m' :
  LoadOrGenPrivValidator Files.no_faults m path k = (Some pv, m') -> m !! path = None ->
  pv_ok m' pv /\ remembers [] pv.
Proof using Hpath.
  unfold LoadOrGenPrivValidator. intros E Hm. rewrite Hm in E. unfold Save in E.
  destruct (save Files.no_faults m (SetFile (GenPrivValidator k) path)) as [b m1] eqn:Es. simplify_eq.
  split; [|split; try (intros; set_solver); constructor].
  split; simpl; try done.
  eexists. split; [|by split]. pose proof (save_ok m (SetFile (GenPrivValidator k) path) eq_refl) as Hs.
  by rewrite Es in Hs.
Qed.

End Safety.


End Ops.
Arguments t : clear implicits.
Arguments event : clear implicits.

(** ** A validator with a concrete key *)
#[local] Instance sample_keys : PrivKeyOps Z := {|
  priv_Sign k msg := SignatureEd25519 (replicate 32 k ++ checksum 32 msg);
  priv_PubKey k := PubKeyEd25519 (replicate 32 k)
|}.

Definition sample_path : bytes := of_string "priv_validator.json".
Definition precommit (B : BlockID) : Vote := mkVote [1] 0 5 0 VoteTypePrecommit B None.
Definition block_A : BlockID := mkBID [7; 7] (mkPSH 1 [8; 8]).
Definition block_B : BlockID := mkBID [9; 9] (mkPSH 1 [8; 8]).


(** A rename that fails. *)
Definition full_disk : Files.faults (t Z) := Files.mkFaults false None None true.


End PrivValidator.
