(* ===== verification/PartSets.v ===== *)
(** * gemmill/types/part_set.go

    A block travels as a [PartSet]: chunks of its encoding, each with a merkle
    proof against the root in the [PartSetHeader].  A receiver starts from the
    header, accepts parts in any order from anyone, and reads the block back
    through a [PartSetReader]. *)
From S2P Require Import Prelude BitArray Wire Types SimpleTree.

Inductive part_err := ErrPartSetUnexpectedIndex | ErrPartSetInvalidProof.

Record Part := mkPart {
  pt_Index : Z;
  pt_Bytes : bytes;
  pt_Proof : list bytes
}.

#[export] Instance Part_eq_dec : EqDecision Part.
Proof. solve_decision. Defined.

Module PartSet.
Import SimpleTree.

Record t := mk {
  total : Z;
  hash : bytes;
  parts : list (option Part);
  partsBitArray : option BitArray.t;
  count : Z
}.

Section Ops.
Context `{Crypto}.

Definition Part_Hash (p : Part) : bytes := DoHash (pt_Bytes p).

(** The first loop of [NewPartSetFromData], [n] iterations from [i]. *)
Fixpoint split_loop (n : nat) (i : Z) (data : bytes) (partSize : Z) (ba : option BitArray.t)
    : res (list (Z * bytes) * option BitArray.t) :=
  match n with
  | O => Ok ([], ba)
  | S n' =>
      let! chunk := go_slice data (i64 (i * partSize)) (Z.min (Z.of_nat (length data)) (i64 ((i + 1) * partSize))) in
      let! (ba, _) := BitArray.SetIndex ba i true in
      let! (rest, ba) := split_loop n' (i + 1) data partSize ba in
      Ok ((i, chunk) :: rest, ba)
  end.

Definition NewPartSetFromData (data : bytes) (partSize : Z) : res t :=
  if partSize =? 0 then Panic
  else
    let total := Z.quot (i64 (Z.of_nat (length data) + partSize - 1)) partSize in
    if total <? 0 then Panic
    else
      let! ba := BitArray.NewBitArray total in
      let! (chunks, ba) := split_loop (Z.to_nat total) 0 data partSize ba in
      let! r := SimpleProofsFromHashables (map (fun c => DoHash c.2) chunks) in
      let (root, proofs) := default ([], []) r in
      Ok (mk total root (zip_with (fun c pf => Some (mkPart c.1 c.2 pf)) chunks proofs) ba total).

(** [make([]*Part, n)] panics beyond the address space. *)
Definition NewPartSetFromHeader (header : PartSetHeader) : res t :=
  let n := ps_Total header in
  if (n <? 0) || (Wire.maxAlloc / 8 <? n) then Panic
  else
    let! ba := BitArray.NewBitArray n in
    Ok (mk n (ps_Hash header) (replicate (Z.to_nat n) None) ba 0).

Definition Header (ps : option t) : PartSetHeader :=
  match ps with None => mkPSH 0 [] | Some ps => mkPSH (total ps) (hash ps) end.

Definition HasHeader (ps : option t) (header : PartSetHeader) : bool :=
  match ps with None => false | Some _ => psh_Equals (Header ps) header end.

Definition BitArray_ (ps : t) : option BitArray.t := BitArray.Copy (partsBitArray ps).

Definition Hash (ps : option t) : option bytes := match ps with None => None | Some ps => Some (hash ps) end.
Definition HashesTo (ps : option t) (h : bytes) : bool :=
  match ps with None => false | Some ps => bytes_eqb (hash ps) h end.
Definition Count (ps : option t) : Z := match ps with None => 0 | Some ps => count ps end.
Definition Total (ps : option t) : Z := match ps with None => 0 | Some ps => total ps end.

Definition AddPart (ps : t) (part : Part) (verify : bool) : res (bool * option part_err * t) :=
  if total ps <=? pt_Index part then Ok (false, Some ErrPartSetUnexpectedIndex, ps)
  else
    let! existing := go_index (parts ps) (pt_Index part) in
    match existing with
    | Some _ => Ok (false, None, ps)
    | None =>
        let! ok := if verify then Verify (pt_Proof part) (pt_Index part) (total ps) (Part_Hash part) (hash ps)
                   else Ok true in
        if negb ok then Ok (false, Some ErrPartSetInvalidProof, ps)
        else
          let! parts := go_store (parts ps) (pt_Index part) (Some part) in
          let! (ba, _) := BitArray.SetIndex (partsBitArray ps) (pt_Index part) true in
          Ok (true, None, mk (total ps) (hash ps) parts ba (count ps + 1))
    end.

Definition GetPart (ps : t) (index : Z) : res (option Part) := go_index (parts ps) index.

Definition IsComplete (ps : t) : bool := count ps =? total ps.

(** ** PartSetReader *)
Record reader := mkReader {
  rd_i : Z;
  rd_parts : list (option Part);
  rd_rest : bytes
}.

Definition NewPartSetReader (ps : list (option Part)) : res reader :=
  let! p := go_index ps 0 in
  let! p := deref p in
  Ok (mkReader 0 ps (pt_Bytes p)).

Definition GetReader (ps : t) : res reader :=
  if negb (IsComplete ps) then Panic else NewPartSetReader (parts ps).

(** [bytes.Reader.Read] into [n] bytes: [io.EOF] at the end. *)
Definition read_bytes (r : reader) (n : nat) : bytes * bool * reader :=
  match rd_rest r with
  | [] => ([], true, r)
  | l => (take n l, false, mkReader (rd_i r) (rd_parts r) (drop n l))
  end.

(** [Read] into [n] bytes: what was read, whether the error is [io.EOF], and
    the reader.  The recursion ends because it moves through the parts; see
    [Read_spec] for the fuel. *)
Fixpoint Read (fuel : nat) (r : reader) (n : nat) : res (bytes * bool * reader) :=
  match fuel with
  | O => Panic
  | S fuel' =>
      let readerLen := length (rd_rest r) in
      if (n <=? readerLen)%nat then Ok (read_bytes r n)
      else if (0 <? readerLen)%nat then
        let! (d1, eof, r) := Read fuel' r readerLen in
        if eof then Ok (d1, true, r)
        else
          let! (d2, eof, r) := Read fuel' r (n - readerLen) in
          Ok (d1 ++ d2, eof, r)
      else
        let i := rd_i r + 1 in
        if Z.of_nat (length (rd_parts r)) <=? i then Ok ([], true, mkReader i (rd_parts r) [])
        else
          let! p := go_index (rd_parts r) i in
          let! p := deref p in
          Read fuel' (mkReader i (rd_parts r) (pt_Bytes p)) n
  end.

(** ** Splitting *)
Definition bits_wf (n : Z) (ba : option BitArray.t) (set : Z -> bool) : Prop :=
  match ba with
  | None => n = 0
  | Some b => BitArray.wf b /\ BitArray.Bits b = n /\ forall j, 0 <= j < n -> BitArray.bit b j = set j
  end.

Lemma bits_wf_new n : 0 <= n -> exists ba, BitArray.NewBitArray n = Ok ba /\ bits_wf n ba (fun _ => false).
Proof using Type.
  intros Hn. destruct (decide (n = 0)) as [->|].
  - exists None. by split.
  - destruct (BitArray.NewBitArray_ok n ltac:(lia)) as (b & -> & Hb & Hw & Hbit). exists (Some b). by split.
Qed.

Lemma bits_wf_set n ba set i : bits_wf n ba set -> 0 <= i < n ->
  exists ba', BitArray.SetIndex ba i true = Ok (ba', true) /\ bits_wf n ba' (fun j => (i =? j) || set j).
Proof using Type.
  intros Hb Hi. destruct ba as [b|]; simpl in *; [|lia]. destruct Hb as (Hw & Hn & Hbit).
  destruct (BitArray.setIndex_ok b i true Hw ltac:(lia)) as (b' & -> & Hw' & Hn' & Hbit'). simpl.
  exists (Some b'). split; [done|]. split; [done|]. split; [congruence|]. intros j Hj. rewrite Hbit' by lia.
  rewrite Hbit by done. destruct (Z.eqb_spec i j); case_decide; done.
Qed.

(** The chunk at [i] and what is left after it *)
Lemma chunk_ok (data : bytes) ps i :
  0 < ps -> Z.of_nat (length data) + ps < 2 ^ 63 -> 0 <= i -> i * ps < Z.of_nat (length data) ->
  go_slice data (i64 (i * ps)) (Z.min (Z.of_nat (length data)) (i64 ((i + 1) * ps)))
    = Ok (take (Z.to_nat ps) (drop (Z.to_nat (i * ps)) data)).
Proof using Type.
  intros Hps Hlen Hi Hlt. assert (0 <= i * ps) by nia. assert ((i + 1) * ps = i * ps + ps) as E by lia.
  unfold go_slice. rewrite E, !i64_id by (unfold is_i64; lia).
  destruct (Z.ltb_spec (i * ps) 0); [lia|].
  destruct (Z.ltb_spec (Z.min (Z.of_nat (length data)) (i * ps + ps)) (i * ps)); [lia|].
  destruct (Z.ltb_spec (Z.of_nat (length data)) (Z.min (Z.of_nat (length data)) (i * ps + ps))); [lia|]. simpl.
  f_equal. destruct (decide (i * ps + ps <= Z.of_nat (length data))).
  - f_equal. lia.
  - rewrite !take_ge by (rewrite length_drop; lia). done.
Qed.

Lemma split_loop_ok n i data ps ba tot set :
  0 < ps -> Z.of_nat (length data) + ps < 2 ^ 63 -> 0 <= i -> i + Z.of_nat n <= tot ->
  Z.of_nat (length data) <= (i + Z.of_nat n) * ps ->
  (n <> 0%nat -> (i + Z.of_nat n - 1) * ps < Z.of_nat (length data)) -> bits_wf tot ba set ->
  exists chunks ba' set', split_loop n i data ps ba = Ok (chunks, ba') /\ length chunks = n /\
    (forall j c, chunks !! j = Some c -> c.1 = i + Z.of_nat j) /\
    concat (map snd chunks) = drop (Z.to_nat (i * ps)) data /\
    bits_wf tot ba' set' /\ (forall j, i <= j < i + Z.of_nat n -> set' j = true) /\
    (forall j, set j = true -> set' j = true).
Proof using Type.
  intros Hps Hlen. revert i ba set. induction n as [|n IH]; intros i ba set Hi Htot Hhi Hlo Hba; cbn [split_loop].
  - exists [], ba, set. split_and!; try done; [|lia]. rewrite drop_ge by lia. done.
  - rewrite chunk_ok by (done || nia). cbn [rbind].
    destruct (bits_wf_set tot ba set i Hba ltac:(lia)) as (ba1 & -> & Hba1). cbn [rbind].
    destruct (IH (i + 1) ba1 _ ltac:(lia) ltac:(lia) ltac:(lia)
      ltac:(intros _; specialize (Hlo ltac:(done)); nia) Hba1)
      as (chunks & ba' & set' & -> & Hl & Hidx & Hcat & Hba' & Hset & Hmono). cbn [rbind].
    eexists _, _, set'. split; [reflexivity|]. split_and!; simpl.
    + by rewrite Hl.
    + intros [|j] c Hj; simplify_eq/=; [lia|]. rewrite (Hidx _ _ Hj). lia.
    + rewrite Hcat. replace (Z.to_nat ((i + 1) * ps)) with (Z.to_nat (i * ps) + Z.to_nat ps)%nat by nia.
      rewrite <- drop_drop. apply take_drop.
    + done.
    + intros j Hj. destruct (decide (j = i)) as [->|]; [|apply Hset; lia].
      apply Hmono. by rewrite Z.eqb_refl.
    + intros j Hj. apply Hmono. rewrite Hj. by rewrite orb_true_r.
Qed.

(** ** What a part set holds *)
Definition part_at (root : bytes) (n : Z) (i : nat) (p : Part) : Prop :=
  pt_Index p = Z.of_nat i /\ Verify (pt_Proof p) (Z.of_nat i) n (DoHash (pt_Bytes p)) root = Ok true /\
  Forall short (pt_Proof p).

Definition filled (o : option Part) : bool := match o with Some _ => true | None => false end.
Definition filled_count (l : list (option Part)) : nat := length (filter (fun o => filled o = true) l).

Record inv (ps : t) : Prop := {
  inv_len : Z.of_nat (length (parts ps)) = total ps;
  inv_parts : forall i p, parts ps !! i = Some (Some p) -> part_at (hash ps) (total ps) i p;
  inv_bits : bits_wf (total ps) (partsBitArray ps) (fun j => match parts ps !! Z.to_nat j with Some o => filled o | None => false end);
  inv_count : count ps = Z.of_nat (filled_count (parts ps))
}.

Lemma bits_wf_ext n ba f g : (forall j, 0 <= j < n -> f j = g j) -> bits_wf n ba f -> bits_wf n ba g.
Proof using Type.
  intros E. destruct ba as [b|]; simpl; [|done]. intros (Hw & Hn & Hb). split_and!; try done.
  intros j Hj. rewrite Hb by done. by apply E.
Qed.

Lemma filled_insert (l : list (option Part)) i p :
  l !! i = Some None -> filled_count (<[i := Some p]> l) = S (filled_count l).
Proof using Type.
  revert i. induction l as [|o l IH]; intros [|i] Hi; simplify_eq/=; [done|].
  unfold filled_count in *. rewrite !filter_cons. specialize (IH i Hi).
  case_decide; simpl; lia.
Qed.

Lemma filled_all (l : list (option Part)) : filled_count l = length l -> forall i o, l !! i = Some o -> filled o = true.
Proof using Type.
  intros Hf i o Hi. apply list_elem_of_lookup_2 in Hi. unfold filled_count in Hf. revert o Hi.
  apply Forall_forall. induction l as [|o l IH]; [constructor|]. rewrite filter_cons in Hf. case_decide; simpl in *.
  - constructor; [done|]. apply IH. lia.
  - pose proof (length_filter (fun o => filled o = true) l). lia.
Qed.

Lemma filled_none n : filled_count (replicate n None) = 0%nat.
Proof using Type. unfold filled_count. induction n; simpl; [done|]. rewrite filter_cons. by case_decide. Qed.

Lemma NewPartSetFromHeader_ok header :
  0 <= ps_Total header <= Wire.maxAlloc / 8 ->
  exists ps, NewPartSetFromHeader header = Ok ps /\ inv ps /\ Header (Some ps) = header /\
    parts ps = replicate (Z.to_nat (ps_Total header)) None.
Proof using Type.
  intros Hn. unfold NewPartSetFromHeader. destruct (Z.ltb_spec (ps_Total header) 0); [lia|].
  destruct (Z.ltb_spec (Wire.maxAlloc / 8) (ps_Total header)); [lia|]. cbn [orb].
  destruct (bits_wf_new (ps_Total header) ltac:(lia)) as (ba & -> & Hba). cbn [rbind].
  eexists. split; [done|]. split_and!; [|by destruct header|done]. split; simpl.
  - rewrite length_replicate. lia.
  - intros i p Hi. by apply lookup_replicate in Hi as [? _].
  - eapply bits_wf_ext; [|done]. intros j Hj. simpl. by rewrite lookup_replicate_2 by lia.
  - by rewrite filled_none.
Qed.

(** [AddPart] with verification, on every branch. *)
Inductive add_outcome (ps : t) (p : Part) : bool -> option part_err -> t -> Prop :=
| ao_index : total ps <= pt_Index p -> add_outcome ps p false (Some ErrPartSetUnexpectedIndex) ps
| ao_known q : parts ps !! Z.to_nat (pt_Index p) = Some (Some q) -> add_outcome ps p false None ps
| ao_proof : parts ps !! Z.to_nat (pt_Index p) = Some None ->
    Verify (pt_Proof p) (pt_Index p) (total ps) (DoHash (pt_Bytes p)) (hash ps) = Ok false ->
    add_outcome ps p false (Some ErrPartSetInvalidProof) ps
| ao_added ps' : parts ps !! Z.to_nat (pt_Index p) = Some None ->
    Verify (pt_Proof p) (pt_Index p) (total ps) (DoHash (pt_Bytes p)) (hash ps) = Ok true ->
    parts ps' = <[Z.to_nat (pt_Index p) := Some p]> (parts ps) -> total ps' = total ps -> hash ps' = hash ps ->
    count ps' = count ps + 1 -> add_outcome ps p true None ps'.

Lemma AddPart_ok ps p :
  inv ps -> 0 <= pt_Index p -> Forall short (pt_Proof p) ->
  exists added err ps', AddPart ps p true = Ok (added, err, ps') /\ inv ps' /\ add_outcome ps p added err ps'.
Proof using Type.
  intros Hi Hidx Hsh. unfold AddPart. pose proof (inv_len _ Hi) as Hlen.
  destruct (Z.leb_spec (total ps) (pt_Index p)).
  { do 3 eexists. split; [reflexivity|]. split; [done|]. by constructor. }
  destruct (lookup_lt_is_Some_2 (parts ps) (Z.to_nat (pt_Index p)) ltac:(lia)) as [o Ho].
  assert (go_index (parts ps) (pt_Index p) = Ok o) as ->.
  { unfold go_index. destruct (Z.ltb_spec (pt_Index p) 0); [lia|]. by rewrite Ho. }
  cbn [rbind]. destruct o as [q|].
  { do 3 eexists. split; [reflexivity|]. split; [done|]. by econstructor. }
  destruct (Verify_total (pt_Proof p) (pt_Index p) (total ps) (Part_Hash p) (hash ps) ltac:(lia) Hidx) as [b Eb].
  rewrite Eb. cbn [rbind]. destruct b; cbn [negb].
  2:{ do 3 eexists. split; [reflexivity|]. split; [done|]. by constructor. }
  unfold go_store. destruct (Z.ltb_spec (pt_Index p) 0); [lia|].
  destruct (Z.leb_spec (Z.of_nat (length (parts ps))) (pt_Index p)); [lia|]. cbn [orb rbind].
  destruct (bits_wf_set _ _ _ (pt_Index p) (inv_bits _ Hi) ltac:(lia)) as (ba & -> & Hba). cbn [rbind].
  do 3 eexists. split; [reflexivity|]. split; [|by eapply ao_added].
  split; simpl.
  - by rewrite length_insert.
  - intros i q Hq. destruct (decide (Z.to_nat (pt_Index p) = i)) as [<-|].
    + rewrite list_lookup_insert_eq in Hq by lia. injection Hq as <-. split_and!; [lia| |done]. by rewrite Z2Nat.id.
    + rewrite list_lookup_insert_ne in Hq by done. by apply (inv_parts _ Hi).
  - eapply bits_wf_ext; [|exact Hba]. intros j Hj. simpl. destruct (Z.eqb_spec (pt_Index p) j) as [<-|].
    + by rewrite list_lookup_insert_eq by lia.
    + by rewrite list_lookup_insert_ne by lia.
  - rewrite filled_insert by done. rewrite (inv_count _ Hi). lia.
Qed.

(** ** A receiver: parts from anyone *)
Inductive step : t -> t -> Prop :=
| step_AddPart ps p added err ps' :
    Forall short (pt_Proof p) -> AddPart ps p true = Ok (added, err, ps') -> step ps ps'.

Lemma ps_step_inv ps ps' : inv ps -> step ps ps' -> inv ps' /\ total ps' = total ps /\ hash ps' = hash ps.
Proof using Type.
  intros Hi Hst. destruct Hst as [ps0 p added err ps1 Hsh E]. destruct (decide (0 <= pt_Index p)) as [Hp|Hp].
  - destruct (AddPart_ok ps0 p Hi Hp Hsh) as (a & e & ps2 & E2 & Hi2 & Ho).
    rewrite E in E2. injection E2 as -> -> ->. split; [done|]. by destruct Ho.
  - unfold AddPart in E. pose proof (inv_len _ Hi). destruct (Z.leb_spec (total ps0) (pt_Index p)); [lia|].
    unfold go_index in E. destruct (Z.ltb_spec (pt_Index p) 0); [done|lia].
Qed.

Lemma ps_reach_inv ps ps' : inv ps -> rtc step ps ps' -> inv ps' /\ total ps' = total ps /\ hash ps' = hash ps.
Proof using Type.
  intros Hi Hr. induction Hr as [ps|ps ps1 ps2 Hs _ IH]; [done|].
  destruct (ps_step_inv ps ps1 Hi Hs) as (Hi1 & Et & Eh). destruct (IH Hi1) as (? & ? & ?). split; [done|].
  by rewrite <- Et, <- Eh.
Qed.

(** ** The reader *)
Definition bytes_of (o : option Part) : bytes := match o with Some p => pt_Bytes p | None => [] end.

Definition content (r : reader) : bytes :=
  rd_rest r ++ concat (map bytes_of (drop (Z.to_nat (rd_i r + 1)) (rd_parts r))).

Definition rd_ok (r : reader) : Prop :=
  0 <= rd_i r /\ forall i o, rd_parts r !! i = Some o -> is_Some o.

Definition rd_fuel (r : reader) : nat :=
  (2 * (length (rd_parts r) - Z.to_nat (rd_i r)) + (if decide (rd_rest r = []) then 1 else 2))%nat.

Lemma rd_fuel_nil i ps : rd_fuel (mkReader i ps []) = (2 * (length ps - Z.to_nat i) + 1)%nat.
Proof using Type. done. Qed.

Lemma rd_fuel_le i ps l : (rd_fuel (mkReader i ps l) <= 2 * (length ps - Z.to_nat i) + 2)%nat.
Proof using Type. unfold rd_fuel. cbn [rd_parts rd_i rd_rest]. case_decide; lia. Qed.

Lemma read_within fuel r n : rd_ok r -> (0 < n <= length (rd_rest r))%nat ->
  Read (S fuel) r n = Ok (take n (rd_rest r), false, mkReader (rd_i r) (rd_parts r) (drop n (rd_rest r))).
Proof using Type.
  intros Hok Hn. cbn [Read]. destruct (Nat.leb_spec n (length (rd_rest r))); [|lia].
  unfold read_bytes. destruct (rd_rest r); [simpl in Hn; lia|done].
Qed.

(** [Read] of [n > 0] bytes takes the next [n] bytes of what is left, or all of
    it with [io.EOF] when there is less. *)
Lemma Read_spec fuel r n : (rd_fuel r <= fuel)%nat -> rd_ok r -> (0 < n)%nat ->
  exists r', Read fuel r n = Ok (take n (content r), bool_decide (length (content r) < n)%nat, r') /\
    content r' = drop n (content r) /\ rd_ok r' /\ (rd_fuel r' <= rd_fuel r)%nat.
Proof using Type.
  revert r n. induction fuel as [|fuel IH]; intros r n Hf Hok Hn.
  { unfold rd_fuel in Hf. case_decide; lia. }
  destruct (decide (n <= length (rd_rest r))%nat) as [Hle|Hgt].
  { rewrite read_within by (done || lia). eexists. split.
    - unfold content. rewrite take_app_le by done. do 3 f_equal. rewrite bool_decide_eq_false_2; [done|].
      rewrite length_app. lia.
    - unfold content, rd_fuel. simpl. rewrite drop_app_le by done. split_and!; [done..|].
      repeat case_decide; try lia. destruct (rd_rest r); simpl in *; [lia|done]. }
  cbn [Read]. destruct (Nat.leb_spec n (length (rd_rest r))); [lia|].
  destruct (Nat.ltb_spec 0 (length (rd_rest r))) as [Hpos|Hz].
  - assert (rd_rest r <> []) as Hne by (by destruct (rd_rest r); simpl in *; [lia|]).
    unfold rd_fuel in Hf. rewrite decide_False in Hf by done. destruct fuel as [|fuel]; [lia|].
    rewrite read_within by (done || lia). cbn [rbind]. rewrite take_ge, drop_ge by lia.
    set (r1 := mkReader (rd_i r) (rd_parts r) []).
    destruct (IH r1 (n - length (rd_rest r))%nat) as (r' & -> & Hc & Hok' & Hfl); [unfold r1; rewrite rd_fuel_nil; lia|done|lia|].
    cbn [rbind]. eexists. split; [|split_and!; [|done|]].
    + assert (content r = rd_rest r ++ content r1) as -> by done. rewrite take_app_ge by lia. do 3 f_equal.
      rewrite length_app. apply bool_decide_ext. lia.
    + rewrite Hc. assert (content r = rd_rest r ++ content r1) as -> by done. by rewrite drop_app_ge by lia.
    + unfold r1 in Hfl. rewrite rd_fuel_nil in Hfl. unfold rd_fuel at 2. rewrite decide_False by done. lia.
  - assert (rd_rest r = []) as Hnil by (by destruct (rd_rest r); simpl in *; [|lia]).
    destruct Hok as [Hi Hall]. unfold rd_fuel in Hf. rewrite decide_True in Hf by done.
    destruct (Z.leb_spec (Z.of_nat (length (rd_parts r))) (rd_i r + 1)).
    + eexists. unfold content. rewrite Hnil, drop_ge by lia. simpl. rewrite take_nil, drop_nil.
      rewrite bool_decide_eq_true_2 by (simpl; lia). split; [done|]. cbn [rd_i rd_parts rd_rest].
      rewrite drop_ge by lia. split_and!; [done| |].
      * split; simpl; [lia|done].
      * rewrite rd_fuel_nil. unfold rd_fuel. rewrite decide_True by done. lia.
    + destruct (lookup_lt_is_Some_2 (rd_parts r) (Z.to_nat (rd_i r + 1)) ltac:(lia)) as [o Ho].
      destruct (Hall _ _ Ho) as [p ->]. unfold go_index. destruct (Z.ltb_spec (rd_i r + 1) 0); [lia|].
      rewrite Ho. cbn [deref rbind]. set (r1 := mkReader (rd_i r + 1) (rd_parts r) (pt_Bytes p)).
      assert (content r = content r1) as Ec.
      { unfold content, r1. simpl. rewrite Hnil. rewrite (drop_S _ _ _ Ho). simpl. do 3 f_equal. f_equal. lia. }
      rewrite Ec. destruct (IH r1 n) as (r' & -> & Hc & Hok' & Hfl);
        [pose proof (rd_fuel_le (rd_i r + 1) (rd_parts r) (pt_Bytes p)); unfold r1; lia|split; simpl; [lia|done]|done|].
      exists r'. split_and!; try done. pose proof (rd_fuel_le (rd_i r + 1) (rd_parts r) (pt_Bytes p)).
      unfold r1 in Hfl. unfold rd_fuel at 2. rewrite decide_True by done. lia.
Qed.

(** ** The sender's part set *)
Definition chunks_of (ps : t) : list bytes := map bytes_of (parts ps).

Lemma zip_parts (chunks : list (Z * bytes)) (proofs : list (list bytes)) :
  length proofs = length chunks ->
  let l := zip_with (fun c pf => Some (mkPart c.1 c.2 pf)) chunks proofs in
  map bytes_of l = map snd chunks /\ filled_count l = length l /\ length l = length chunks /\
  forall i p, l !! i = Some (Some p) -> exists c pf, chunks !! i = Some c /\ proofs !! i = Some pf /\ p = mkPart c.1 c.2 pf.
Proof using Type.
  cbv zeta. revert proofs. induction chunks as [|c chunks IH]; intros [|pf proofs] Hl; simplify_eq/=; [done|].
  destruct (IH proofs Hl) as (E1 & E2 & E3 & E4). split_and!.
  - by rewrite E1.
  - unfold filled_count in *. rewrite filter_cons. case_decide; [|done]. simpl. lia.
  - by rewrite E3.
  - intros [|i] p Hi; simplify_eq/=; [by eauto|]. by apply E4.
Qed.

Context {Hlaws : CryptoLaws}.

Lemma hashes_short_map (l : list bytes) : Forall short (map DoHash l).
Proof using Hlaws. induction l; simpl; constructor; [apply DoHash_short|done]. Qed.

Lemma NewPartSetFromData_ok data partSize :
  0 < partSize -> data <> [] -> Z.of_nat (length data) + partSize < 2 ^ 63 ->
  exists ps, NewPartSetFromData data partSize = Ok ps /\ inv ps /\ IsComplete ps = true /\
    concat (chunks_of ps) = data /\ hash ps = SimpleHashFromHashes (map DoHash (chunks_of ps)) /\ 0 < total ps.
Proof using Hlaws.
  intros Hps Hne Hlen. assert (0 < Z.of_nat (length data)) as Hpos by (destruct data; simpl in *; [done|lia]).
  unfold NewPartSetFromData. destruct (Z.eqb_spec partSize 0) as [|_]; [lia|]. rewrite i64_id by (unfold is_i64; lia).
  rewrite Z.quot_div_nonneg by lia. set (n := (Z.of_nat (length data) + partSize - 1) / partSize).
  pose proof (Z.div_mod (Z.of_nat (length data) + partSize - 1) partSize ltac:(lia)) as Hdm. fold n in Hdm.
  pose proof (Z.mod_pos_bound (Z.of_nat (length data) + partSize - 1) partSize ltac:(lia)).
  assert (0 < n) as Hn by nia. destruct (Z.ltb_spec n 0); [lia|].
  destruct (bits_wf_new n ltac:(lia)) as (ba & -> & Hba). cbn [rbind].
  destruct (split_loop_ok (Z.to_nat n) 0 data partSize ba n _ Hps Hlen ltac:(lia) ltac:(lia) ltac:(nia) ltac:(nia) Hba)
    as (chunks & ba' & set' & -> & Hl & Hidx & Hcat & Hba' & Hset & _). cbn [rbind].
  set (hs := map (fun c : Z * bytes => DoHash c.2) chunks).
  assert (hs <> []) as Hhs by (unfold hs; destruct chunks; simpl in *; [lia|done]).
  destruct (SimpleProofs_spec hs Hhs) as (proofs & -> & Hlp & Hau). cbn [rbind default].
  assert (length hs = length chunks) as Hlh by (unfold hs; by rewrite length_map).
  destruct (zip_parts chunks proofs ltac:(congruence)) as (Eb & Ef & El & Ep). cbv zeta in *.
  set (l := zip_with _ chunks proofs) in *. exists (mk n (SimpleHashFromHashes hs) l ba' n).
  assert (map DoHash (map bytes_of l) = hs) as Eh by (rewrite Eb; unfold hs; by rewrite map_map).
  split; [done|]. split_and!; [split; simpl| | |unfold chunks_of; simpl; by rewrite Eh|done].
  - rewrite El, Hl. lia.
  - intros i p Hi. destruct (Ep i p Hi) as (c & pf & Hc & Hpf & ->). unfold part_at. simpl.
    assert (hs !! i = Some (DoHash c.2)) as Hh.
    { unfold hs. change (@map (Z * bytes) bytes) with (@fmap list list_fmap (Z * bytes) bytes).
      by rewrite list_lookup_fmap, Hc. }
    pose proof (aunts_verify hs i _ Hh) as Hv.
    assert (Z.of_nat (length hs) = n) as En by (rewrite Hlh, Hl; lia). rewrite En in Hv.
    rewrite (Hau i pf Hpf). split_and!; [rewrite (Hidx i c Hc); lia| |].
    + exact Hv.
    + apply aunts_short. rewrite <- Eh. apply hashes_short_map.
  - eapply bits_wf_ext; [|exact Hba']. intros j Hj. rewrite Hset by lia.
    destruct (lookup_lt_is_Some_2 l (Z.to_nat j) ltac:(lia)) as [o Ho]. rewrite Ho. symmetry.
    by apply (filled_all l Ef (Z.to_nat j)).
  - rewrite Ef, El, Hl. lia.
  - unfold IsComplete. simpl. by rewrite Z.eqb_refl.
  - unfold chunks_of. simpl. by rewrite Eb, Hcat.
Qed.

(** ** Reassembly *)
Lemma complete_parts ps : inv ps -> IsComplete ps = true -> forall i o, parts ps !! i = Some o -> is_Some o.
Proof using Type.
  intros Hi Hc%Z.eqb_eq i o Ho. pose proof (inv_len _ Hi). pose proof (inv_count _ Hi).
  assert (filled o = true) as Hf by (apply (filled_all (parts ps) ltac:(lia) i o Ho)). destruct o; [by eauto|done].
Qed.

Lemma GetReader_ok ps : inv ps -> IsComplete ps = true -> 0 < total ps ->
  exists r, GetReader ps = Ok r /\ content r = concat (chunks_of ps) /\ rd_ok r /\ (rd_fuel r <= 2 * length (parts ps) + 2)%nat.
Proof using Type.
  intros Hi Hc Ht. pose proof (complete_parts ps Hi Hc) as Hall. unfold GetReader. rewrite Hc. simpl.
  unfold NewPartSetReader, chunks_of. pose proof (inv_len _ Hi) as Hlen.
  destruct (parts ps) as [|o l] eqn:Ep; [simpl in Hlen; lia|]. destruct (Hall 0%nat o eq_refl) as [p ->].
  change (go_index (Some p :: l) 0) with (Ok (Some p)). cbn [rbind deref].
  eexists. split; [done|]. split_and!; [done| |].
  - split; [done|]. intros i o Ho. by apply (Hall i).
  - pose proof (rd_fuel_le 0 (Some p :: l) (pt_Bytes p)). lia.
Qed.

(** The parts of a receiver with the sender's header, up to a collision *)
Lemma same_chunks snd rcv :
  inv snd -> hash snd = SimpleHashFromHashes (map DoHash (chunks_of snd)) ->
  inv rcv -> IsComplete rcv = true -> total rcv = total snd -> hash rcv = hash snd ->
  chunks_of rcv = chunks_of snd \/ collision.
Proof using Hlaws.
  intros Hs Hroot Hr Hc Et Eh. pose proof (inv_len _ Hs) as Ls. pose proof (inv_len _ Hr) as Lr.
  pose proof (complete_parts rcv Hr Hc) as Hall.
  assert (forall i b, chunks_of rcv !! i = Some b -> chunks_of snd !! i = Some b \/ collision) as Hsame.
  { intros i b Hb. unfold chunks_of in Hb. change (@map (option Part) bytes) with (@fmap list list_fmap (option Part) bytes) in Hb.
    rewrite list_lookup_fmap in Hb. destruct (parts rcv !! i) as [o|] eqn:Ho; simplify_eq/=.
    destruct (Hall i o Ho) as [p ->]. destruct (inv_parts _ Hr i p Ho) as (_ & Hv & Hsh).
    pose proof (lookup_lt_Some _ _ _ Ho) as Hlt.
    rewrite Eh, Hroot, Et in Hv. rewrite <- Ls in Hv.
    replace (length (parts snd)) with (length (map DoHash (chunks_of snd))) in Hv
      by (unfold chunks_of; by rewrite !length_map).
    destruct (verify_item _ _ (Z.of_nat i) _ (hashes_short_map _) (DoHash_short _) Hsh ltac:(lia) Hv) as [Hi|]; [|by right]. rewrite Nat2Z.id in Hi.
    change (@map bytes bytes) with (@fmap list list_fmap bytes bytes) in Hi. rewrite list_lookup_fmap in Hi.
    destruct (chunks_of snd !! i) as [c|]; simplify_eq/=. destruct (decide (c = pt_Bytes p)) as [->|]; [by left|].
    right. by exists c, (pt_Bytes p). }
  apply list_eq_or; [unfold chunks_of; rewrite !length_map; lia|exact Hsame].
Qed.

(** Reading the whole set in one call. *)
Definition ReadAll (ps : t) (n : nat) : res (bytes * bool) :=
  let! r := GetReader ps in
  let! (d, eof, _) := Read (2 * length (parts ps) + 2) r n in
  Ok (d, eof).

(** What a complete receiver reads is what the sender split. *)
Lemma reassemble data partSize ps rcv0 rcv :
  0 < partSize -> data <> [] -> Z.of_nat (length data) + partSize < 2 ^ 63 ->
  NewPartSetFromData data partSize = Ok ps ->
  NewPartSetFromHeader (Header (Some ps)) = Ok rcv0 -> rtc step rcv0 rcv -> IsComplete rcv = true ->
  ReadAll rcv (length data) = Ok (data, false) \/ collision.
Proof using Hlaws.
  intros Hp Hne Hlen E E0 Hr Hc.
  destruct (NewPartSetFromData_ok data partSize Hp Hne Hlen) as (ps' & E' & Hi & _ & Hcat & Hroot & Hpos).
  rewrite E in E'. injection E' as <-.
  assert (0 <= ps_Total (Header (Some ps)) <= Wire.maxAlloc / 8) as Hb.
  { unfold NewPartSetFromHeader in E0. simpl in *. destruct (Z.ltb_spec (total ps) 0); [done|].
    destruct (Z.ltb_spec (Wire.maxAlloc / 8) (total ps)); [done|lia]. }
  destruct (NewPartSetFromHeader_ok (Header (Some ps)) Hb) as (r0 & Er0 & Hi0 & Eh & _).
  rewrite E0 in Er0. injection Er0 as <-. simpl in Eh. injection Eh as Et Ehh.
  destruct (ps_reach_inv _ _ Hi0 Hr) as (Hir & Et' & Eh').
  destruct (same_chunks ps rcv Hi Hroot Hir Hc ltac:(congruence) ltac:(congruence)) as [Ech|]; [left|by right].
  destruct (GetReader_ok rcv Hir Hc ltac:(lia)) as (rd & Erd & Hcont & Hok & Hf).
  unfold ReadAll. rewrite Erd. cbn [rbind].
  destruct (Read_spec _ rd (length data) Hf Hok) as (rd' & -> & _); [destruct data; simpl; [done|lia]|].
  cbn [rbind]. rewrite Hcont, Ech, Hcat, take_ge by lia. by rewrite bool_decide_eq_false_2 by lia.
Qed.

(** Blocks survive the network.  A sender splits [data] with
    [NewPartSetFromData]; a receiver starts from the sender's header and adds
    parts, genuine or forged, in any order, with verification.  When its set
    is complete, reading it returns exactly [data], or the hash function has a
    collision. *)
Theorem reassembly data partSize ps rcv0 rcv :
  0 < partSize -> data <> [] -> Z.of_nat (length data) + partSize < 2 ^ 63 ->
  NewPartSetFromData data partSize = Ok ps ->
  NewPartSetFromHeader (Header (Some ps)) = Ok rcv0 -> rtc step rcv0 rcv -> IsComplete rcv = true ->
  ReadAll rcv (length data) = Ok (data, false) \/ collision.
Proof using Hlaws. apply reassemble. Qed.

(** [AddPart] with verification never panics on a non-negative index,
    keeps the counters and the bit array in step with the parts, and does
    exactly one of: refuse the index, ignore a known part, refuse the proof,
    or store the part whose proof verifies. *)
Theorem AddPart_outcome ps p :
  inv ps -> 0 <= pt_Index p -> Forall short (pt_Proof p) ->
  exists added err ps', AddPart ps p true = Ok (added, err, ps') /\ inv ps' /\ add_outcome ps p added err ps'.
Proof using Type. apply AddPart_ok. Qed.

End Ops.

(** ** A block of seven bytes in parts of three *)
Definition sample_data : bytes := [1; 2; 3; 4; 5; 6; 7].
Definition of_res (m : res t) : t := match m with Ok ps => ps | Panic => mk 0 [] [] None 0 end.
Definition sample_ps : t := of_res (@NewPartSetFromData sample_crypto sample_data 3).
Definition sample_rcv : t := of_res (NewPartSetFromHeader (Header (Some sample_ps))).
Definition part_of (o : option (option Part)) : Part :=
  match o with Some (Some p) => p | _ => mkPart 0 [] [] end.
Definition sample_part (i : nat) : Part := part_of (parts sample_ps !! i).
Definition add (ps : t) (p : Part) : t :=
  match @AddPart sample_crypto ps p true with Ok (_, _, ps) => ps | Panic => ps end.
Definition sample_full : t := add (add (add sample_rcv (sample_part 2)) (sample_part 0)) (sample_part 1).

Lemma sample_step ps p : Forall short (pt_Proof p) -> rtc (@step sample_crypto) ps (add ps p).
Proof.
  intros Hs. unfold add. destruct (AddPart ps p true) as [[[a e] ps']|] eqn:E; [|done].
  apply rtc_once. by econstructor.
Qed.

Lemma sample_short i : Forall short (pt_Proof (sample_part i)).
Proof.
  destruct i as [|[|[|i]]]; [repeat constructor; vm_compute; discriminate..|].
  unfold sample_part. rewrite lookup_ge_None_2; [constructor|]. vm_compute. lia.
Qed.

Lemma reassembly_witness :
  @ReadAll sample_full 7 = Ok (sample_data, false) \/ @collision sample_crypto.
Proof.
  apply (@reassembly sample_crypto sample_crypto_laws sample_data 3 sample_ps sample_rcv sample_full).
  - lia.
  - discriminate.
  - vm_compute. reflexivity.
  - vm_compute. reflexivity.
  - vm_compute. reflexivity.
  - unfold sample_full. repeat (etrans; [|apply sample_step, sample_short]). done.
  - vm_compute. reflexivity.
Defined.

Lemma AddPart_outcome_witness :
  exists added err ps', @AddPart sample_crypto sample_rcv (sample_part 1) true = Ok (added, err, ps') /\
    @add_outcome sample_crypto sample_rcv (sample_part 1) added err ps'.
Proof.
  destruct (@NewPartSetFromHeader_ok sample_crypto (Header (Some sample_ps))) as (r0 & E & Hi & _).
  - vm_compute. split; discriminate.
  - assert (r0 = sample_rcv) as -> by (unfold sample_rcv; by rewrite E).
    destruct (@AddPart_outcome sample_crypto sample_rcv (sample_part 1) Hi) as (a & e & ps' & E' & _ & Ho).
    + vm_compute. discriminate.
    + apply sample_short.
    + exists a, e, ps'. split; [exact E'|exact Ho].
Defined.

End PartSet.
