(* ===== verification/Blocks.v ===== *)
(** * gemmill/types/block.go, tx.go, and the commits of vote_set.go and
    validator_set.go

    A block has a header, its transactions and the commit of the previous
    block.  The header is hashed as a merkle map, the transactions as a merkle
    tree.  The hashes cached in [Commit] and [Data] are functions of fields
    that do not change, so the model recomputes them. *)
From S2P Require Import Prelude BitArray Wire WireReflect Types SimpleTree SignBytes Validators VoteSets PartSets.
Import Wire.

(** ** tx.go *)
Definition Tx_Hash `{Crypto} (tx : bytes) : bytes := Keccak256Func tx.

Fixpoint txs_hash `{Crypto} (fuel : nat) (txs : list bytes) : bytes :=
  match txs with
  | [] => []
  | [tx] => Tx_Hash tx
  | _ =>
      match fuel with
      | O => []
      | S fuel' =>
          let k := ((length txs + 1) / 2)%nat in
          SimpleTree.SimpleHashFromTwoHashes (txs_hash fuel' (take k txs)) (txs_hash fuel' (drop k txs))
      end
  end.

(** The recursion halves the list: [length txs] is enough fuel. *)
Definition Txs_Hash `{Crypto} (txs : list bytes) : bytes := txs_hash (length txs) txs.

Definition WrapTx (prefix tx : bytes) : bytes := prefix ++ tx.
Definition UnwrapTx (tx : bytes) : bytes := if (4 <? length tx)%nat then drop 4 tx else tx.

(** ** Commit *)
Record Commit := mkCommit {
  c_BlockID : BlockID;
  c_Precommits : list (option Vote)
}.

#[export] Instance Commit_eq_dec : EqDecision Commit.
Proof. solve_decision. Defined.

Inductive commit_err :=
| ErrCommitNilBlock | ErrCommitNoPrecommits | ErrCommitType | ErrCommitHeight | ErrCommitRound.

Inductive verify_err :=
| ErrVerifySize | ErrVerifyHeight | ErrVerifyRound | ErrVerifyType | ErrVerifySignature | ErrVerifyPower.

Module Commit_.
Section Ops.
Context `{Crypto}.

Fixpoint first_vote (l : list (option Vote)) : option Vote :=
  match l with [] => None | Some v :: _ => Some v | None :: l' => first_vote l' end.

Definition FirstPrecommit (c : Commit) : option Vote := first_vote (c_Precommits c).

(** [Height] and [Round] dereference the first precommit. *)
Definition Height (c : Commit) : res Z :=
  match c_Precommits c with [] => Ok 0 | _ => let! v := deref (FirstPrecommit c) in Ok (v_Height v) end.
Definition Round (c : Commit) : res Z :=
  match c_Precommits c with [] => Ok 0 | _ => let! v := deref (FirstPrecommit c) in Ok (v_Round v) end.
Definition Type_ (c : Commit) : Z := VoteTypePrecommit.
Definition Size (c : option Commit) : Z :=
  match c with None => 0 | Some c => Z.of_nat (length (c_Precommits c)) end.

Fixpoint set_bits (i : Z) (l : list (option Vote)) (ba : option BitArray.t) : res (option BitArray.t) :=
  match l with
  | [] => Ok ba
  | o :: l' =>
      let! (ba, _) := BitArray.SetIndex ba i (bool_decide (is_Some o)) in set_bits (i + 1) l' ba
  end.

Definition BitArray_ (c : Commit) : res (option BitArray.t) :=
  let! ba := BitArray.NewBitArray (Z.of_nat (length (c_Precommits c))) in
  set_bits 0 (c_Precommits c) ba.

Definition GetByIndex (c : Commit) (index : Z) : res (option Vote) := go_index (c_Precommits c) index.

Definition IsCommit (c : Commit) : bool := match c_Precommits c with [] => false | _ => true end.

Fixpoint validate_loop (height round : Z) (l : list (option Vote)) : option commit_err :=
  match l with
  | [] => None
  | None :: l' => validate_loop height round l'
  | Some v :: l' =>
      if negb (v_Type v =? VoteTypePrecommit) then Some ErrCommitType
      else if negb (v_Height v =? height) then Some ErrCommitHeight
      else if negb (v_Round v =? round) then Some ErrCommitRound
      else validate_loop height round l'
  end.

Definition ValidateBasic (c : Commit) : res (option commit_err) :=
  if bid_IsZero (c_BlockID c) then Ok (Some ErrCommitNilBlock)
  else match c_Precommits c with
  | [] => Ok (Some ErrCommitNoPrecommits)
  | _ =>
      let! height := Height c in
      let! round := Round c in
      Ok (validate_loop height round (c_Precommits c))
  end.

(** A precommit is hashed as the pointer it is. *)
Definition vote_ptr_val (o : option Vote) : gval := match o with None => VNil | Some v => VPtr (vote_val v) end.

Definition Hash (c : Commit) : res bytes :=
  SimpleTree.SimpleHashFromBinaries (map (fun o => (vote_ptr_val o, TPtr T_Vote)) (c_Precommits c)).

End Ops.
End Commit_.

(** ** VoteSet.MakeCommit *)
Definition MakeCommit (s : VoteSet.t) : res Commit :=
  if negb (VoteSet.type_ s =? VoteTypePrecommit) then Panic
  else
    let! b := deref (VoteSet.maj23 s) in
    Ok (mkCommit b (VoteSet.votes s)).

(** ** ValidatorSet.VerifyCommit *)
Section VerifyCommit.
Context `{Crypto}.

Fixpoint verify_loop (vset : ValidatorSet.t) (chainID : bytes) (blockID : BlockID) (height round : Z)
    (idx : Z) (l : list (option Vote)) (tallied : Z) : res (Z + verify_err) :=
  match l with
  | [] => Ok (inl tallied)
  | None :: l' => verify_loop vset chainID blockID height round (idx + 1) l' tallied
  | Some precommit :: l' =>
      if negb (v_Height precommit =? height) then Ok (inr ErrVerifyHeight)
      else if negb (v_Round precommit =? round) then Ok (inr ErrVerifyRound)
      else if negb (v_Type precommit =? VoteTypePrecommit) then Ok (inr ErrVerifyType)
      else
        let! (_, val) := ValidatorSet.GetByIndex vset idx in
        if negb (VerifyBytes (val_PubKey val) (Json.SignBytes_vote chainID precommit) (v_Signature precommit))
        then Ok (inr ErrVerifySignature)
        else if negb (bid_Equals blockID (v_BlockID precommit))
        then verify_loop vset chainID blockID height round (idx + 1) l' tallied
        else verify_loop vset chainID blockID height round (idx + 1) l' (i64 (tallied + val_VotingPower val))
  end.

Definition VerifyCommit (vset : ValidatorSet.t) (chainID : bytes) (blockID : BlockID) (height : Z) (commit : Commit)
    : res (option verify_err) :=
  if negb (ValidatorSet.Size vset =? Z.of_nat (length (c_Precommits commit))) then Ok (Some ErrVerifySize)
  else
    let! h := Commit_.Height commit in
    if negb (height =? h) then Ok (Some ErrVerifyHeight)
    else
      let! round := Commit_.Round commit in
      let! r := verify_loop vset chainID blockID height round 0 (c_Precommits commit) 0 in
      match r with
      | inr e => Ok (Some e)
      | inl tallied =>
          if VoteSet.two_thirds (ValidatorSet.TotalVotingPower vset).1 <? tallied then Ok None
          else Ok (Some ErrVerifyPower)
      end.

End VerifyCommit.

(** ** What [VerifyCommit] accepts *)
Section VerifyProofs.
Context `{Crypto} (cid : bytes) (h : Z) (vals : list Validator).

(** A precommit of this height and round signed by the [i]-th validator; its
    own index and address fields are not looked at. *)
Definition signed_precommit (r : Z) (i : nat) (v : Vote) : Prop :=
  exists val, vals !! i = Some val /\ v_Height v = h /\ v_Round v = r /\ v_Type v = VoteTypePrecommit /\
    VerifyBytes (val_PubKey val) (Json.SignBytes_vote cid v) (v_Signature v) = true.

Definition all_signed (r : Z) (i : nat) (l : list (option Vote)) : Prop :=
  forall j v, l !! j = Some (Some v) -> signed_precommit r (i + j) v.

Definition for_block (B : BlockID) (l : list (option Vote)) : list (option Vote) :=
  map (fun o => match o with Some v => if bid_Equals B (v_BlockID v) then Some v else None | None => None end) l.

Lemma all_signed_cons r i o l :
  all_signed r i (o :: l) <-> (forall v, o = Some v -> signed_precommit r i v) /\ all_signed r (S i) l.
Proof using Type.
  unfold all_signed. split.
  - intros Ha. split.
    + intros v ->. specialize (Ha 0%nat v eq_refl). by rewrite Nat.add_0_r in Ha.
    + intros j v Hj. specialize (Ha (S j) v Hj). by rewrite <- plus_n_Sm in Ha.
  - intros [H0 Hs] [|j] v Hj; simplify_eq/=.
    + rewrite Nat.add_0_r. by apply H0.
    + specialize (Hs j v Hj). by rewrite <- plus_n_Sm.
Qed.

Context (vset : ValidatorSet.t) (Hvset : ValidatorSet.Validators vset = vals) (Hvals : VoteSet.vals_ok vals).

Lemma verify_loop_ok B r l i acc :
  (i + length l <= length vals)%nat -> 0 <= acc -> acc + ValidatorSet.total (drop i vals) < 2 ^ 62 ->
  (all_signed r i l /\
     verify_loop vset cid B h r (Z.of_nat i) l acc = Ok (inl (acc + VoteSet.tally (drop i vals) (for_block B l)))) \/
  (~ all_signed r i l /\ exists e, verify_loop vset cid B h r (Z.of_nat i) l acc = Ok (inr e)).
Proof using Hvset Hvals.
  revert i acc. induction l as [|o l IH]; intros i acc Hl Hacc Hsum; cbn [verify_loop for_block map].
  { left. split; [intros ? ? [=]|]. destruct (drop i vals); simpl; do 2 f_equal; lia. }
  simpl in Hl. destruct (lookup_lt_is_Some_2 vals i ltac:(lia)) as [val Hval].
  rewrite (drop_S _ _ _ Hval) in Hsum |- *. unfold ValidatorSet.total, ValidatorSet.powers in Hsum. simpl in Hsum.
  assert (0 <= val_VotingPower val) as Hpw.
  { destruct Hvals as [Hn _]. by apply (proj1 (Forall_lookup _ _) Hn i val). }
  replace (Z.of_nat i + 1) with (Z.of_nat (S i)) by lia. rewrite all_signed_cons.
  destruct o as [v|]; cbn [VoteSet.tally].
  2:{ destruct (IH (S i) acc ltac:(lia) Hacc) as [[Ha ->]|[Hn He]];
      [unfold ValidatorSet.total, ValidatorSet.powers; lia|left|right]; [split; [by split|done]|split; [tauto|done]]. }
  assert (forall P : Prop, ~ signed_precommit r i v -> ~ ((forall w, Some v = Some w -> signed_precommit r i w) /\ P)) as Hbad.
  { intros P Hn [Hv _]. by apply Hn, Hv. }
  destruct (Z.eqb_spec (v_Height v) h) as [Eh|]; [|right; split; [|by eauto]; apply Hbad; intros (? & ? & ? & _); congruence].
  destruct (Z.eqb_spec (v_Round v) r) as [Er|]; [|right; split; [|by eauto]; apply Hbad; intros (? & ? & ? & ? & _); congruence].
  destruct (Z.eqb_spec (v_Type v) VoteTypePrecommit) as [Et|];
    [|right; split; [|by eauto]; apply Hbad; intros (? & ? & ? & ? & ? & _); congruence].
  cbn [negb]. unfold ValidatorSet.GetByIndex. rewrite Hvset, (VoteSet.go_index_nat _ _ _ Hval). cbn [rbind].
  destruct (VerifyBytes (val_PubKey val) (Json.SignBytes_vote cid v) (v_Signature v)) eqn:Ev; cbn [negb].
  2:{ right. split; [|by eauto]. apply Hbad. intros (val' & Hval' & _ & _ & _ & Ev'). congruence. }
  assert (forall w, Some v = Some w -> signed_precommit r i w) as Hv by (intros w [= <-]; exists val; by split_and!).
  destruct (bid_Equals B (v_BlockID v)); cbn [negb VoteSet.tally].
  - rewrite i64_id by (unfold is_i64; assert (0 <= zsum (map val_VotingPower (drop (S i) vals)));
      [apply zsum_nonneg, Forall_map, Forall_drop, Hvals|lia]).
    destruct (IH (S i) (acc + val_VotingPower val) ltac:(lia) ltac:(lia)) as [[Ha ->]|[Hn He]];
      [unfold ValidatorSet.total, ValidatorSet.powers; lia|left|right]; [|split; [tauto|done]].
    split; [by split|]. unfold for_block. do 2 f_equal. lia.
  - destruct (IH (S i) acc ltac:(lia) Hacc) as [[Ha ->]|[Hn He]];
      [unfold ValidatorSet.total, ValidatorSet.powers; lia|left|right]; [split; [by split|done]|split; [tauto|done]].
Qed.

Hypothesis Hcached : ValidatorSet.cached vset.

(** [VerifyCommit] succeeds exactly on a commit of one slot per validator whose
    precommits are all signed for its height and round and which gives the
    block more than two thirds of the power. *)
Lemma VerifyCommit_iff B c :
  VerifyCommit vset cid B h c = Ok None <->
  exists r v, length (c_Precommits c) = length vals /\ Commit_.FirstPrecommit c = Some v /\
    v_Height v = h /\ v_Round v = r /\
    all_signed r 0 (c_Precommits c) /\
    2 * ValidatorSet.total vals < 3 * VoteSet.tally vals (for_block B (c_Precommits c)).
Proof using Hvset Hvals Hcached.
  unfold VerifyCommit, ValidatorSet.Size. rewrite Hvset.
  destruct (VoteSet.quorum_ok vals Hvals) as (E23 & Hq & _). destruct Hvals as [Hn HT].
  assert (vals <> []) as Hne by (intros E; rewrite E in HT; simpl in HT; unfold ValidatorSet.total in HT; simpl in HT; lia).
  destruct (Z.eqb_spec (Z.of_nat (length vals)) (Z.of_nat (length (c_Precommits c)))) as [El|El]; cbn [negb].
  2:{ split; [done|]. intros (r & v & Hl & _). lia. }
  unfold Commit_.Height, Commit_.Round. destruct (c_Precommits c) as [|o l] eqn:Ec.
  { destruct vals; simpl in *; [done|lia]. }
  destruct (Commit_.FirstPrecommit c) as [v|] eqn:Ef; cbn [deref rbind].
  2:{ split; [done|]. intros (r & v & _ & [=] & _). }
  destruct (Z.eqb_spec h (v_Height v)) as [Eh|Eh]; cbn [negb].
  2:{ split; [done|]. intros (r & v' & _ & [= <-] & E & _). by subst h. }
  rewrite ValidatorSet.TotalVotingPower_ok; rewrite ?Hvset; [|done|lia|done]. cbn [fst].
  assert (forall x, (VoteSet.two_thirds (ValidatorSet.total vals) <? x) = true <-> 2 * ValidatorSet.total vals < 3 * x) as Hx.
  { intros x. rewrite E23, Z.quot_div_nonneg by lia. rewrite Z.ltb_lt.
    pose proof (Z.div_mod (ValidatorSet.total vals * 2) 3 ltac:(lia)).
    pose proof (Z.mod_pos_bound (ValidatorSet.total vals * 2) 3 ltac:(lia)). lia. }
  destruct (verify_loop_ok B (v_Round v) (o :: l) 0 0) as [[Ha E]|[Hna [e E]]]; [lia|lia|rewrite drop_0; lia|..];
    change (Z.of_nat 0) with 0 in E; rewrite E; cbn [rbind].
  - rewrite drop_0, Z.add_0_l in *. specialize (Hx (VoteSet.tally vals (for_block B (o :: l)))).
    destruct (VoteSet.two_thirds _ <? _); split; [|done| |].
    + intros _. exists (v_Round v), v. split_and!; try done; [lia|]. by apply Hx.
    + done.
    + intros (r & v' & _ & _ & _ & _ & _ & Ht). by apply Hx in Ht.
  - split; [done|]. intros (r & v' & _ & [= <-] & _ & <- & Ha & _). done.
Qed.

End VerifyProofs.

Lemma tally_mono vals a b :
  ValidatorSet.nonneg vals -> length a = length b ->
  (forall i v, a !! i = Some (Some v) -> exists w, b !! i = Some (Some w)) ->
  VoteSet.tally vals a <= VoteSet.tally vals b.
Proof.
  intros Hn. revert a b. induction Hn as [|val vals Hv Hn IH]; intros [|x a] [|y b] Hl Hs; simplify_eq/=; try lia.
  assert (VoteSet.tally vals a <= VoteSet.tally vals b) by (apply IH; [done|]; intros i v Hi; by apply (Hs (S i) v)).
  destruct x as [x|]; [destruct (Hs 0%nat x eq_refl) as [w Hw]; simplify_eq/=; lia|]. destruct y; lia.
Qed.

Lemma for_block_lookup B l i v : for_block B l !! i = Some (Some v) <-> l !! i = Some (Some v) /\ v_BlockID v = B.
Proof.
  unfold for_block. change (@map (option Vote) (option Vote)) with (@fmap list list_fmap (option Vote) (option Vote)).
  rewrite list_lookup_fmap. destruct (l !! i) as [[w|]|]; simpl; try naive_solver.
  destruct (bid_Equals B (v_BlockID w)) eqn:E; [apply bid_Equals_eq in E; naive_solver|].
  split; [done|]. intros [[= ->] <-]. by rewrite (proj2 (bid_Equals_eq _ _) eq_refl) in E.
Qed.

Lemma first_vote_some l w : Commit_.first_vote l = Some w -> exists j, l !! j = Some (Some w).
Proof.
  induction l as [|[v|] l IH]; intros E; simplify_eq/=; [by exists 0%nat|].
  destruct (IH E) as [j Hj]. by exists (S j).
Qed.

Lemma first_vote_none vals l B : Commit_.first_vote l = None -> VoteSet.tally vals (for_block B l) = 0.
Proof.
  revert vals. induction l as [|[v|] l IH]; intros [|val vals] E; simplify_eq/=; try done. by apply IH.
Qed.

(** C6: [VerifyCommit] accepts exactly the commits with one slot per validator
    in which every precommit is signed by its validator for this height and one
    common round, and the precommits for the block carry more than two thirds
    of the voting power (of a total below 2^62). *)
Theorem verify_commit_iff `{Crypto} vset cid B h c :
  VoteSet.vals_ok (ValidatorSet.Validators vset) -> ValidatorSet.cached vset ->
  let vals := ValidatorSet.Validators vset in
  VerifyCommit vset cid B h c = Ok None <->
  exists r v, length (c_Precommits c) = length vals /\ Commit_.FirstPrecommit c = Some v /\
    v_Height v = h /\ v_Round v = r /\
    all_signed cid h vals r 0 (c_Precommits c) /\
    2 * ValidatorSet.total vals < 3 * VoteSet.tally vals (for_block B (c_Precommits c)).
Proof. intros Hv Hc. by apply VerifyCommit_iff. Qed.

(** The commit a node makes from its precommits passes verification.  When
    a precommit [VoteSet] has a majority for [B], and no other block stored in
    it has [B]'s key, [MakeCommit] does not panic and [VerifyCommit] accepts
    its result for [B] at that height. *)
Theorem make_commit_verifies `{Crypto} cid h r vset s B :
  let vals := ValidatorSet.Validators vset in
  VoteSet.vals_ok vals -> ValidatorSet.cached vset ->
  VoteSet.inv cid h r VoteTypePrecommit vals None s -> VoteSet.maj23 s = Some B ->
  (forall i v, VoteSet.votes s !! i = Some (Some v) -> Key (v_BlockID v) = Key B -> v_BlockID v = B) ->
  exists c, MakeCommit s = Ok c /\ c_BlockID c = B /\ VerifyCommit vset cid B h c = Ok None.
Proof.
  intros vals Hv Hc Hi HB Hkey. destruct (VoteSet.inv_conf _ _ _ _ _ _ _ Hi) as (_ & _ & _ & Et).
  unfold MakeCommit. rewrite Et, HB. cbn. eexists. split; [done|]. split; [done|].
  apply (VerifyCommit_iff cid h vals vset eq_refl Hv Hc). simpl.
  destruct (VoteSet.inv_maj23 _ _ _ _ _ _ _ Hi B HB) as (b & Hb & Hq).
  destruct (VoteSet.inv_buckets _ _ _ _ _ _ _ Hi _ _ Hb) as ([Hl Hs] & _ & Hsum).
  destruct (VoteSet.inv_votes _ _ _ _ _ _ _ Hi) as [Hlen Hval].
  assert (VoteSet.tally vals (VoteSet.bv_votes b) <= VoteSet.tally vals (for_block B (VoteSet.votes s))) as Hm.
  { apply tally_mono; [apply Hv|unfold for_block; rewrite length_map; congruence|].
    intros i v Hiv. destruct (VoteSet.inv_commit _ _ _ _ _ _ _ Hi B b i v HB Hb Hiv) as (w & Hw & Hkw).
    exists w. apply for_block_lookup. split; [done|]. by apply (Hkey i). }
  destruct (VoteSet.quorum_ok vals Hv) as (_ & Hpos & _).
  destruct (Commit_.first_vote (VoteSet.votes s)) as [w|] eqn:Ew.
  2:{ rewrite (first_vote_none vals _ B Ew) in Hm. lia. }
  destruct (first_vote_some _ w Ew) as [j Hj].
  destruct (Hval j w Hj) as (val & _ & _ & _ & Hh & Hr & _).
  exists r, w. split_and!; try done.
  - intros k u Hu. destruct (Hval k u Hu) as (val' & Hval' & _ & _ & ? & ? & ? & ?). exists val'. by split_and!.
  - unfold VoteSet.quorum in Hq. rewrite Z.quot_div_nonneg in Hq by (destruct Hv as [_ HT]; lia).
    pose proof (Z.div_mod (ValidatorSet.total vals * 2) 3 ltac:(lia)).
    pose proof (Z.mod_pos_bound (ValidatorSet.total vals * 2) 3 ltac:(lia)). lia.
Qed.

(** Two commits of one height and round that verify for different blocks
    prove that validators with more than a third of the power signed
    precommits for both. *)
Theorem conflicting_commits_double_sign `{Crypto} vset cid h B1 B2 c1 c2 v1 v2 :
  let vals := ValidatorSet.Validators vset in
  VoteSet.vals_ok vals -> ValidatorSet.cached vset ->
  VerifyCommit vset cid B1 h c1 = Ok None -> VerifyCommit vset cid B2 h c2 = Ok None ->
  Commit_.FirstPrecommit c1 = Some v1 -> Commit_.FirstPrecommit c2 = Some v2 -> v_Round v1 = v_Round v2 ->
  B1 <> B2 ->
  exists who, ValidatorSet.total vals < 3 * VoteSet.tally vals who /\
    forall i v, who !! i = Some (Some v) -> exists w,
      signed_precommit cid h vals (v_Round v1) i v /\ signed_precommit cid h vals (v_Round v1) i w /\
      v_BlockID v = B1 /\ v_BlockID w = B2.
Proof.
  intros vals Hv Hc H1 H2 F1 F2 Er Hne.
  apply (VerifyCommit_iff cid h vals vset eq_refl Hv Hc) in H1 as (r1 & w1 & L1 & G1 & _ & R1 & S1 & T1).
  apply (VerifyCommit_iff cid h vals vset eq_refl Hv Hc) in H2 as (r2 & w2 & L2 & G2 & _ & R2 & S2 & T2).
  assert (w1 = v1) as -> by congruence. assert (w2 = v2) as -> by congruence. subst r1 r2.
  exists (VoteSet.both (for_block B1 (c_Precommits c1)) (for_block B2 (c_Precommits c2))). split.
  - pose proof (VoteSet.tally_both vals (for_block B1 (c_Precommits c1)) (for_block B2 (c_Precommits c2)) (proj1 Hv)
      ltac:(unfold for_block; by rewrite length_map) ltac:(unfold for_block; by rewrite length_map)). lia.
  - intros i v (Hi1%for_block_lookup & w & Hi2%for_block_lookup)%VoteSet.both_lookup.
    destruct Hi1 as [Hi1 E1], Hi2 as [Hi2 E2]. exists w. rewrite <- Er in S2.
    split_and!; [apply (S1 i v Hi1)|apply (S2 i w Hi2)|done|done].
Qed.

(** ** Precommits of four validators *)
Definition sample_precommit (a : Z) (B : BlockID) : Vote :=
  let v := mkVote [a] (a - 1) 1 0 VoteTypePrecommit B None in
  mkVote [a] (a - 1) 1 0 VoteTypePrecommit B
    (Some (SignatureEd25519 (VoteSet.sample_key a ++ checksum 32 (Json.SignBytes_vote VoteSet.sample_chain v)))).

Definition sample_pc_new : VoteSet.t :=
  VoteSet.mk VoteSet.sample_chain 1 0 VoteTypePrecommit VoteSet.sample_vset (Some (BitArray.mk 4 [0]))
    (replicate 4 None) 0 None ∅ ∅.

Definition sample_pcs (B : BlockID) : list Vote := map (fun a => sample_precommit a B) [1; 2; 3].
Definition sample_pc_set : VoteSet.t :=
  match @VoteSet.run sample_crypto sample_pc_new (sample_pcs VoteSet.sample_A) with Ok s => s | Panic => sample_pc_new end.

Definition sample_commit (B : BlockID) : Commit := mkCommit B (map Some (sample_pcs B) ++ [None]).
Definition sample_commit_B : Commit :=
  mkCommit VoteSet.sample_B (None :: map (fun a => Some (sample_precommit a VoteSet.sample_B)) [2; 3; 4]).

Lemma verify_commit_iff_witness :
  @VerifyCommit sample_crypto VoteSet.sample_vset VoteSet.sample_chain VoteSet.sample_A 1
    (sample_commit VoteSet.sample_A) = Ok None <->
  exists r v, length (c_Precommits (sample_commit VoteSet.sample_A)) = 4%nat /\
    Commit_.FirstPrecommit (sample_commit VoteSet.sample_A) = Some v /\ v_Height v = 1 /\ v_Round v = r /\
    @all_signed sample_crypto VoteSet.sample_chain 1 (ValidatorSet.Validators VoteSet.sample_vset) r 0
      (c_Precommits (sample_commit VoteSet.sample_A)) /\
    2 * ValidatorSet.total (ValidatorSet.Validators VoteSet.sample_vset) <
    3 * VoteSet.tally (ValidatorSet.Validators VoteSet.sample_vset)
          (for_block VoteSet.sample_A (c_Precommits (sample_commit VoteSet.sample_A))).
Proof.
  apply (@verify_commit_iff sample_crypto VoteSet.sample_vset).
  - exact VoteSet.sample_vals_ok.
  - by left.
Defined.

Lemma sample_pc_inv :
  @VoteSet.inv sample_crypto VoteSet.sample_chain 1 0 VoteTypePrecommit
    (ValidatorSet.Validators VoteSet.sample_vset) None sample_pc_set.
Proof.
  destruct (@VoteSet.NewVoteSet_inv sample_crypto VoteSet.sample_chain 1 0 VoteTypePrecommit _
    VoteSet.sample_vals_ok VoteSet.sample_vset ltac:(discriminate) eq_refl (or_introl eq_refl)) as (s0 & E & Hi).
  assert (s0 = sample_pc_new) as -> by (vm_compute in E; injection E as <-; done).
  apply (VoteSet.reach_inv _ _ _ _ _ VoteSet.sample_vals_ok _ _ Hi).
  apply (VoteSet.run_reach _ (sample_pcs VoteSet.sample_A)). vm_compute. reflexivity.
Qed.

Lemma make_commit_verifies_witness :
  exists c, MakeCommit sample_pc_set = Ok c /\ c_BlockID c = VoteSet.sample_A /\
    @VerifyCommit sample_crypto VoteSet.sample_vset VoteSet.sample_chain VoteSet.sample_A 1 c = Ok None.
Proof.
  apply (@make_commit_verifies sample_crypto VoteSet.sample_chain 1 0 VoteSet.sample_vset sample_pc_set VoteSet.sample_A).
  - exact VoteSet.sample_vals_ok.
  - by left.
  - exact sample_pc_inv.
  - vm_compute. reflexivity.
  - intros i v Hv _. assert (VoteSet.votes sample_pc_set = map Some (sample_pcs VoteSet.sample_A) ++ [None]) as E
      by (vm_compute; reflexivity).
    rewrite E in Hv. do 4 (destruct i as [|i]; [cbn in Hv; injection Hv as <- || discriminate Hv; reflexivity|]).
    discriminate Hv.
Defined.

Lemma conflicting_commits_double_sign_witness :
  exists who, ValidatorSet.total (ValidatorSet.Validators VoteSet.sample_vset)
    < 3 * VoteSet.tally (ValidatorSet.Validators VoteSet.sample_vset) who.
Proof.
  destruct (@conflicting_commits_double_sign sample_crypto VoteSet.sample_vset VoteSet.sample_chain 1
    VoteSet.sample_A VoteSet.sample_B (sample_commit VoteSet.sample_A) sample_commit_B
    (sample_precommit 1 VoteSet.sample_A) (sample_precommit 2 VoteSet.sample_B)
    VoteSet.sample_vals_ok (or_introl eq_refl)) as (who & Hw & _).
  - vm_compute. reflexivity.
  - vm_compute. reflexivity.
  - reflexivity.
  - reflexivity.
  - reflexivity.
  - discriminate.
  - exists who. exact Hw.
Defined.

(** One validator with power 2^62. *)
Definition heavy_vset : ValidatorSet.t :=
  ValidatorSet.mk [mkVal [1] (PubKeyEd25519 (VoteSet.sample_key 1)) (2 ^ 62) 0 true] None 0.

(** The voting power bound is needed.  With a total of 2^62 the product
    [TotalVotingPower()*2] overflows, and [VerifyCommit] accepts for block [A] a
    commit whose only precommit is for block [B]. *)
Theorem verify_commit_overflow :
  @VerifyCommit sample_crypto heavy_vset VoteSet.sample_chain VoteSet.sample_A 1
    (mkCommit VoteSet.sample_A [Some (sample_precommit 1 VoteSet.sample_B)]) = Ok None /\
  VoteSet.tally (ValidatorSet.Validators heavy_vset)
    (for_block VoteSet.sample_A [Some (sample_precommit 1 VoteSet.sample_B)]) = 0.
Proof. split; vm_compute; reflexivity. Qed.

(** ** Header, Data and Block *)
Record Header := mkHeader {
  h_ChainID : bytes;
  h_Height : Z;
  h_Time : Z;
  h_NumTxs : Z;
  h_LastBlockID : BlockID;
  h_LastCommitHash : option bytes;
  h_DataHash : option bytes;
  h_ValidatorsHash : bytes;
  h_AppHash : bytes;
  h_ReceiptsHash : bytes;
  h_ProposerAddress : bytes;
  h_Extra : bytes
}.

Record Data := mkData {
  d_Txs : list bytes;
  d_ExTxs : list bytes
}.

(** The three pointers of a decoded block may be nil. *)
Record Block := mkBlock {
  b_Header : option Header;
  b_Data : option Data;
  b_LastCommit : option Commit
}.

#[export] Instance Header_eq_dec : EqDecision Header.
Proof. solve_decision. Defined.
#[export] Instance Data_eq_dec : EqDecision Data.
Proof. solve_decision. Defined.
#[export] Instance Block_eq_dec : EqDecision Block.
Proof. solve_decision. Defined.

Inductive block_err :=
| ErrChainID | ErrHeight | ErrNumTxs | ErrLastBlockID | ErrDataHash | ErrAppHash | ErrReceiptsHash
| ErrLastCommitHash | ErrLastCommit (e : commit_err).

Definition MaxBlockSize : Z := 22020096.

(** An empty hash is the nil slice. *)
Definition nilable (bz : bytes) : option bytes := match bz with [] => None | _ => Some bz end.

Module Block_.
Section Ops.
Context `{Crypto}.

Definition header_map (h : Header) : list (bytes * (gval * rtype)) :=
  let bs b := (VBytes b, T_bytes) in
  [ (of_string "ChainID", (VBytes (h_ChainID h), TString));
    (of_string "Height", (VInt (h_Height h), TInt64));
    (of_string "Time", (VInt (h_Time h), TTime));
    (of_string "NumTxs", (VInt (h_NumTxs h), TInt64));
    (of_string "LastBlockID", (bid_val (h_LastBlockID h), T_BlockID));
    (of_string "LastCommit", bs (default [] (h_LastCommitHash h)));
    (of_string "Data", bs (default [] (h_DataHash h)));
    (of_string "Validators", bs (h_ValidatorsHash h));
    (of_string "App", bs (h_AppHash h));
    (of_string "Receipts", bs (h_ReceiptsHash h));
    (of_string "ProposerAddress", bs (h_ProposerAddress h)) ].

Definition header_hash (h : Header) : res bytes :=
  match h_ValidatorsHash h with
  | [] => Ok []
  | _ => SimpleTree.SimpleHashFromMap (header_map h)
  end.

Definition data_hash (d : Data) : bytes :=
  SimpleTree.SimpleHashFromTwoHashes (Txs_Hash (d_Txs d)) (Txs_Hash (d_ExTxs d)).

Definition TxsIsNil (b : Block) : bool :=
  match b_Data b with
  | None => true
  | Some d => (length (d_Txs d) =? 0)%nat && (length (d_ExTxs d) =? 0)%nat
  end.

Definition num_txs (d : Data) : Z := Z.of_nat (length (d_Txs d) + length (d_ExTxs d)).

(** [lastBlockTime] is not used. *)
Definition ValidateBasic (b : Block) (chainID : bytes) (lastBlockHeight : Z) (lastBlockID : BlockID)
    (appHash receiptsHash : bytes) : res (option block_err) :=
  let! h := deref (b_Header b) in
  if negb (bytes_eqb (h_ChainID h) chainID) then Ok (Some ErrChainID)
  else if negb (h_Height h =? i64 (lastBlockHeight + 1)) then Ok (Some ErrHeight)
  else
    let! d := deref (b_Data b) in
    if negb (h_NumTxs h =? num_txs d) then Ok (Some ErrNumTxs)
    else if negb (bid_Equals (h_LastBlockID h) lastBlockID) then Ok (Some ErrLastBlockID)
    else if negb (bytes_eqb (default [] (h_DataHash h)) (data_hash d)) then Ok (Some ErrDataHash)
    else if negb (bytes_eqb (h_AppHash h) appHash) then Ok (Some ErrAppHash)
    else if negb (bytes_eqb (h_ReceiptsHash h) receiptsHash) then Ok (Some ErrReceiptsHash)
    else Ok None.

Definition ValidateCommit (b : Block) : res (option block_err) :=
  let! h := deref (b_Header b) in
  let! c := deref (b_LastCommit b) in
  let! ch := Commit_.Hash c in
  if negb (bytes_eqb (default [] (h_LastCommitHash h)) ch) then Ok (Some ErrLastCommitHash)
  else if negb (h_Height h =? 1) then
    let! e := Commit_.ValidateBasic c in
    Ok (match e with Some e => Some (ErrLastCommit e) | None => None end)
  else Ok None.

Definition set_hashes (h : Header) (lc dh : option bytes) : Header :=
  mkHeader (h_ChainID h) (h_Height h) (h_Time h) (h_NumTxs h) (h_LastBlockID h) lc dh (h_ValidatorsHash h)
    (h_AppHash h) (h_ReceiptsHash h) (h_ProposerAddress h) (h_Extra h).

Definition FillHeader (b : Block) : res Block :=
  let! h := deref (b_Header b) in
  let! lc := match h_LastCommitHash h with
             | Some x => Ok (Some x)
             | None =>
                 let! c := deref (b_LastCommit b) in
                 let! ch := Commit_.Hash c in Ok (nilable ch)
             end in
  let! dh := match h_DataHash h with
             | Some x => Ok (Some x)
             | None => let! d := deref (b_Data b) in Ok (Some (data_hash d))
             end in
  Ok (mkBlock (Some (set_hashes h lc dh)) (b_Data b) (b_LastCommit b)).

(** [Hash] returns the hash and fills the header in place. *)
Definition Hash (b : option Block) : res (bytes * option Block) :=
  match b with
  | Some (mkBlock (Some _) (Some _) (Some _) as b) =>
      let! b := FillHeader b in
      let! h := deref (b_Header b) in
      let! bz := header_hash h in
      Ok (bz, Some b)
  | _ => Ok ([], b)
  end.

Definition HashesTo (b : option Block) (hash : bytes) : res bool :=
  match hash, b with
  | [], _ => Ok false
  | _, None => Ok false
  | _, _ => let! (bz, _) := Hash b in Ok (bytes_eqb bz hash)
  end.

(** ** The encoding of a block *)
Definition T_Commit : rtype := TStruct [field T_BlockID; field (TSlice (TPtr T_Vote))].
Definition commit_val (c : Commit) : gval :=
  VStruct [bid_val (c_BlockID c); VList (map Commit_.vote_ptr_val (c_Precommits c))].

Definition T_Header : rtype :=
  TStruct [field TString; field TInt64; field TTime; field TInt64; field T_BlockID; field T_bytes; field T_bytes;
           field T_bytes; field T_bytes; field T_bytes; field T_bytes; field T_bytes].
Definition header_val (h : Header) : gval :=
  VStruct [VBytes (h_ChainID h); VInt (h_Height h); VInt (h_Time h); VInt (h_NumTxs h); bid_val (h_LastBlockID h);
           VBytes (default [] (h_LastCommitHash h)); VBytes (default [] (h_DataHash h)); VBytes (h_ValidatorsHash h);
           VBytes (h_AppHash h); VBytes (h_ReceiptsHash h); VBytes (h_ProposerAddress h); VBytes (h_Extra h)].

Definition T_Data : rtype := TStruct [field (TSlice T_bytes); field (TSlice T_bytes)].
Definition data_val (d : Data) : gval := VStruct [VList (map VBytes (d_Txs d)); VList (map VBytes (d_ExTxs d))].

Definition ptr_val {A} (f : A -> gval) (o : option A) : gval := match o with None => VNil | Some a => VPtr (f a) end.

Definition T_Block : rtype := TStruct [field (TPtr T_Header); field (TPtr T_Data); field (TPtr T_Commit)].
Definition block_val (b : Block) : gval :=
  VStruct [ptr_val header_val (b_Header b); ptr_val data_val (b_Data b); ptr_val commit_val (b_LastCommit b)].

Definition block_bytes (b : Block) : res bytes := WireReflect.BinaryBytes (VPtr (block_val b)) (TPtr T_Block).

Definition MakePartSet (b : Block) (partSize : Z) : res PartSet.t :=
  let! bz := block_bytes b in PartSet.NewPartSetFromData bz partSize.

Definition MakeBlock (now : Z) (height : Z) (chainID : bytes) (txs extxs : list bytes) (commit : option Commit)
    (proposer : bytes) (prevBlockID : BlockID) (valHash appHash receiptsHash : bytes) (partSize : Z)
    : res (Block * PartSet.t) :=
  let h := mkHeader chainID height now (Z.of_nat (length txs + length extxs)) prevBlockID None None valHash
             appHash receiptsHash proposer [] in
  let! b := FillHeader (mkBlock (Some h) (Some (mkData txs extxs)) commit) in
  let! ps := MakePartSet b partSize in
  Ok (b, ps).

(** Reading a block back from the value on the wire *)
Definition of_ptr {A} (f : gval -> option A) (v : gval) : option (option A) :=
  match v with VNil => Some None | VPtr v => Some <$> f v | _ => None end.

Definition bid_of (v : gval) : option BlockID :=
  match v with
  | VStruct [VBytes h; VStruct [VInt n; VBytes ph]] => Some (mkBID h (mkPSH n ph))
  | _ => None
  end.

Definition sig_of (v : gval) : option (option Signature) :=
  match v with
  | VNil => Some None
  | VIface 1 _ (VBytes bz) => Some (Some (SignatureEd25519 bz))
  | VIface 2 _ (VBytes bz) => Some (Some (SignatureSecp256k1 bz))
  | _ => None
  end.

Definition vote_of (v : gval) : option Vote :=
  match v with
  | VStruct [VBytes addr; VInt i; VInt h; VInt r; VInt t; b; sg] =>
      b ← bid_of b; sg ← sig_of sg; Some (mkVote addr i h r t b sg)
  | _ => None
  end.

Definition commit_of (v : gval) : option Commit :=
  match v with
  | VStruct [b; VList vs] => b ← bid_of b; vs ← mapM (of_ptr vote_of) vs; Some (mkCommit b vs)
  | _ => None
  end.

Definition bytes_of_val (v : gval) : option bytes := match v with VBytes bz => Some bz | _ => None end.

Definition data_of (v : gval) : option Data :=
  match v with
  | VStruct [VList txs; VList extxs] =>
      txs ← mapM bytes_of_val txs; extxs ← mapM bytes_of_val extxs; Some (mkData txs extxs)
  | _ => None
  end.

Definition header_of (v : gval) : option Header :=
  match v with
  | VStruct [VBytes cid; VInt h; VInt t; VInt n; b; VBytes lc; VBytes dh; VBytes vh; VBytes ah; VBytes rh;
             VBytes pa; VBytes ex] =>
      b ← bid_of b; Some (mkHeader cid h t n b (Some lc) (Some dh) vh ah rh pa ex)
  | _ => None
  end.

Definition block_of (v : gval) : option Block :=
  match v with
  | VStruct [h; d; c] =>
      h ← of_ptr header_of h; d ← of_ptr data_of d; c ← of_ptr commit_of c; Some (mkBlock h d c)
  | _ => None
  end.

(** A decoded byte slice is never nil. *)
Definition normal_header (h : Header) : Header :=
  set_hashes h (Some (default [] (h_LastCommitHash h))) (Some (default [] (h_DataHash h))).
Definition normal (b : Block) : Block := mkBlock (normal_header <$> b_Header b) (b_Data b) (b_LastCommit b).

(** [wire.ReadBinary(&types.Block{}, r, types.MaxBlockSize, &n, &err)]: the
    block and whether an error was set. *)
Definition read_block (data : bytes) : res (option Block * bool) :=
  let! (v, r) := WireReflect.ReadBinary T_Block MaxBlockSize (mkR data 0 None) in
  Ok (match v with VPtr v => block_of v | _ => None end, bool_decide (is_Some (re r))).

(** ** Typing *)
Definition small_bytes (bz : bytes) : Prop := Z.of_nat (length bz) <= maxAlloc.

Definition header_ok (h : Header) : Prop :=
  small_bytes (h_ChainID h) /\ is_i64 (h_Height h) /\ (is_i64 (h_Time h) /\ Z.rem (h_Time h) 1000000 = 0) /\
  is_i64 (h_NumTxs h) /\ bid_ok (h_LastBlockID h) /\ small_bytes (default [] (h_LastCommitHash h)) /\
  small_bytes (default [] (h_DataHash h)) /\ small_bytes (h_ValidatorsHash h) /\ small_bytes (h_AppHash h) /\
  small_bytes (h_ReceiptsHash h) /\ small_bytes (h_ProposerAddress h) /\ small_bytes (h_Extra h).

Definition txs_ok (txs : list bytes) : Prop := Z.of_nat (length txs) < 2 ^ 63 /\ Forall small_bytes txs.
Definition data_ok (d : Data) : Prop := txs_ok (d_Txs d) /\ txs_ok (d_ExTxs d).
Definition commit_ok (c : Commit) : Prop :=
  bid_ok (c_BlockID c) /\ Z.of_nat (length (c_Precommits c)) < 2 ^ 63 /\
  forall v, Some v ∈ c_Precommits c -> vote_ok v.

Definition if_some {A} (P : A -> Prop) (o : option A) : Prop := match o with Some a => P a | None => True end.
Definition block_ok (b : Block) : Prop :=
  if_some header_ok (b_Header b) /\ if_some data_ok (b_Data b) /\ if_some commit_ok (b_LastCommit b).

Lemma all_of_Forall (P : gval -> Prop) vs : WireReflect.all_of P vs <-> Forall P vs.
Proof using Type.
  induction vs as [|v vs IH]; simpl; [split; auto|]. rewrite IH, Forall_cons. done.
Qed.

Lemma txs_wt txs o : txs_ok txs -> WireReflect.wt (VList (map VBytes txs)) (TSlice T_bytes) o false.
Proof using Type.
  intros [Hl Hs]. split; [done|]. split; [by rewrite length_map|]. apply all_of_Forall, Forall_map.
  eapply Forall_impl; [exact Hs|]. intros bz Hbz. by split.
Qed.

Lemma header_wt h o : header_ok h -> WireReflect.wt (header_val h) T_Header o false.
Proof using Type.
  intros (? & ? & ? & ? & Hb & ? & ? & ? & ? & ? & ? & ?). pose proof (bid_wt _ noOpts Hb). by split_and!.
Qed.

Lemma vote_ptr_wt o op : if_some vote_ok o -> WireReflect.wt (Commit_.vote_ptr_val o) (TPtr T_Vote) op false.
Proof using Type.
  destruct o as [v|]; simpl; [|done]. intros Hv. split; [done|]. exact (vote_wt v op Hv).
Qed.

Lemma commit_wt c o : commit_ok c -> WireReflect.wt (commit_val c) T_Commit o false.
Proof using Type.
  intros (Hb & Hl & Hv). split; [exact (bid_wt _ noOpts Hb)|]. split; [|done].
  split; [done|]. split; [by rewrite length_map|].
  apply all_of_Forall, Forall_map, Forall_forall. intros [v|] Hin; apply vote_ptr_wt; simpl; auto.
Qed.

(** Pointers do not nest in the types of a block. *)
Lemma ptr_wt {A} (f : A -> gval) t (P : A -> Prop) a o :
  (forall a o, P a -> WireReflect.wt (f a) t o true) -> if_some P a -> WireReflect.wt (ptr_val f a) (TPtr t) o false.
Proof using Type. intros Hf Ha. destruct a as [a|]; simpl in *; [split; auto|done]. Qed.

Lemma block_wt b o : block_ok b -> WireReflect.wt (VPtr (block_val b)) (TPtr T_Block) o false.
Proof using Type.
  intros (Hh & Hd & Hc). split; [done|]. split; [|split; [|split; [|done]]].
  - apply (ptr_wt _ _ header_ok); [|done]. apply header_wt.
  - apply (ptr_wt _ _ data_ok); [|done]. intros d o' [H1 H2].
    split; [exact (txs_wt _ noOpts H1)|]. split; [exact (txs_wt _ noOpts H2)|done].
  - apply (ptr_wt _ _ commit_ok); [|done]. apply commit_wt.
Qed.

(** ** Decoding *)
Lemma bid_of_val b : bid_of (bid_val b) = Some b.
Proof using Type. by destruct b as [h [n ph]]. Qed.

Lemma sig_of_val sg : sig_of (sig_val sg) = Some sg.
Proof using Type. by destruct sg as [[]|]. Qed.

Lemma vote_of_val v : vote_of (vote_val v) = Some v.
Proof using Type. unfold vote_of, vote_val. rewrite bid_of_val, sig_of_val. by destruct v. Qed.

Lemma mapM_map {A} (f : gval -> option A) (g : A -> gval) l :
  (forall a, f (g a) = Some a) -> mapM f (map g l) = Some l.
Proof using Type. intros Hf. induction l as [|a l IH]; simpl; [done|]. by rewrite Hf, IH. Qed.

Lemma block_of_val b : block_of (block_val b) = Some (normal b).
Proof using Type.
  destruct b as [h d c]. unfold block_of, block_val, normal. cbn [b_Header b_Data b_LastCommit].
  assert (of_ptr header_of (ptr_val header_val h) = Some (normal_header <$> h)) as ->.
  { destruct h as [h|]; [|done]. cbn [ptr_val of_ptr]. unfold header_of, header_val. by rewrite bid_of_val. }
  assert (of_ptr data_of (ptr_val data_val d) = Some d) as ->.
  { destruct d as [[txs extxs]|]; [|done]. cbn [ptr_val of_ptr]. unfold data_of, data_val. by rewrite !mapM_map. }
  assert (of_ptr commit_of (ptr_val commit_val c) = Some c) as ->; [|done].
  destruct c as [[b vs]|]; [|done]. cbn [ptr_val of_ptr]. unfold commit_of, commit_val. cbn [c_BlockID c_Precommits].
  rewrite bid_of_val. cbn [mbind option_bind]. rewrite mapM_map; [done|].
  intros [v|]; [|done]. cbn [Commit_.vote_ptr_val of_ptr]. by rewrite vote_of_val.
Qed.

Lemma read_block_bytes b data :
  block_ok b -> block_bytes b = Ok data -> Z.of_nat (length data) <= MaxBlockSize ->
  read_block data = Ok (Some (normal b), false).
Proof using Type.
  intros Hb E Hl. pose proof (block_wt b noOpts Hb) as Hwt.
  destruct (WireReflect.BinaryBytes_codes _ _ Hwt) as (bz & E' & Hr). unfold block_bytes in E.
  rewrite E in E'. injection E' as <-.
  unfold read_block, WireReflect.ReadBinary. specialize (Hr MaxBlockSize [] 0). rewrite app_nil_r in Hr.
  rewrite Hr by (right; unfold MaxBlockSize in *; lia). cbn [rbind rn re failed].
  assert ((MaxBlockSize <? 0 + Z.of_nat (length data)) = false) as -> by (apply Z.ltb_ge; lia).
  rewrite andb_false_r. cbn [andb rbind re]. by rewrite block_of_val.
Qed.

(** ** Binding of the hashes *)
Context {Hlaws : CryptoLaws}.

Definition keccak_collision : Prop := exists x y, x <> y /\ keccak256 x = keccak256 y.

Lemma txs_hash_length fuel txs : (length txs <= fuel)%nat -> configured_sha256 = false ->
  length (txs_hash fuel txs) = match txs with [] => 0%nat | [_] => 32%nat | _ => 20%nat end.
Proof using Hlaws.
  intros Hf Hc. destruct txs as [|a [|b txs]]; [by destruct fuel|destruct fuel; apply keccak256_length|].
  destruct fuel as [|fuel]; [simpl in Hf; lia|]. cbn [txs_hash]. unfold SimpleTree.SimpleHashFromTwoHashes, DoHash.
  rewrite Hc. apply ripemd160_length.
Qed.

Lemma txs_hash_inj f1 f2 a b :
  (length a <= f1)%nat -> (length b <= f2)%nat -> configured_sha256 = false ->
  txs_hash f1 a = txs_hash f2 b -> a = b \/ SimpleTree.collision \/ keccak_collision.
Proof using Hlaws.
  intros Ha Hb Hc E. pose proof (txs_hash_length f1 a Ha Hc) as La. pose proof (txs_hash_length f2 b Hb Hc) as Lb.
  rewrite E in La. rewrite La in Lb. clear La. revert f2 a b Ha Hb Lb E.
  induction f1 as [f1 IH] using lt_wf_ind; intros f2 a b Ha Hb Lb E.
  destruct a as [|x [|x' a]], b as [|y [|y' b]]; try done; [by left| |].
  - assert (keccak256 x = keccak256 y) as Ek by (destruct f1, f2; exact E).
    destruct (decide (x = y)) as [->|]; [by left|]. right; right. by exists x, y.
  - destruct f1 as [|f1]; [simpl in Ha; lia|]. destruct f2 as [|f2]; [simpl in Hb; lia|]. cbn [txs_hash] in E.
    set (l1 := x :: x' :: a) in *. set (l2 := y :: y' :: b) in *.
    set (k1 := ((length l1 + 1) / 2)%nat) in *. set (k2 := ((length l2 + 1) / 2)%nat) in *.
    destruct (SimpleTree.half_bounds (length l1) ltac:(simpl; lia)) as [Hk1 _].
    destruct (SimpleTree.half_bounds (length l2) ltac:(simpl; lia)) as [Hk2 _].
    change (SimpleTree.half (length l1)) with k1 in Hk1. change (SimpleTree.half (length l2)) with k2 in Hk2.
    assert (forall f l, (length l <= f)%nat -> SimpleTree.short (txs_hash f l)) as Hsh.
    { intros f l Hl. unfold SimpleTree.short. rewrite txs_hash_length by done. unfold maxAlloc.
      destruct l as [|? [|]]; lia. }
    assert (length (take k1 l1) <= f1)%nat by (rewrite length_take; lia).
    assert (length (drop k1 l1) <= f1)%nat by (rewrite length_drop; lia).
    assert (length (take k2 l2) <= f2)%nat by (rewrite length_take; lia).
    assert (length (drop k2 l2) <= f2)%nat by (rewrite length_drop; lia).
    apply SimpleTree.two_hashes_inj in E; [|by apply Hsh..]. destruct E as [[El Er]|]; [|by auto].
    assert (forall m1 m2, (length m1 <= f1)%nat -> (length m2 <= f2)%nat -> txs_hash f1 m1 = txs_hash f2 m2 ->
      m1 = m2 \/ SimpleTree.collision \/ keccak_collision) as Hrec.
    { intros m1 m2 L1 L2 Em. apply (IH f1 ltac:(lia) f2); try done.
      pose proof (txs_hash_length f1 m1 L1 Hc) as Q1. pose proof (txs_hash_length f2 m2 L2 Hc) as Q2. congruence. }
    destruct (Hrec (take k1 l1) (take k2 l2) ltac:(done) ltac:(done) El) as [Et|]; [|by auto].
    destruct (Hrec (drop k1 l1) (drop k2 l2) ltac:(done) ltac:(done) Er) as [Ed|]; [|by auto].
    left. rewrite <- (take_drop k1 l1), <- (take_drop k2 l2). congruence.
Qed.

Lemma data_hash_inj d1 d2 : configured_sha256 = false -> data_hash d1 = data_hash d2 ->
  d1 = d2 \/ SimpleTree.collision \/ keccak_collision.
Proof using Hlaws.
  intros Hc E. destruct d1 as [t1 e1], d2 as [t2 e2]. unfold data_hash in E. simpl in E.
  assert (forall l, SimpleTree.short (Txs_Hash l)) as Hsh.
  { intros l. unfold SimpleTree.short, Txs_Hash. rewrite txs_hash_length by done. unfold maxAlloc.
    destruct l as [|? [|]]; lia. }
  apply SimpleTree.two_hashes_inj in E; [|by apply Hsh..]. destruct E as [[Et Ee]|]; [|by auto].
  destruct (txs_hash_inj (length t1) (length t2) t1 t2 ltac:(done) ltac:(done) Hc Et) as [->|]; [|by auto].
  destruct (txs_hash_inj (length e1) (length e2) e1 e2 ltac:(done) ltac:(done) Hc Ee) as [->|]; by auto.
Qed.

(** The fields of a header that its hash covers: all but [Extra]. *)
Definition covered (h : Header) :=
  (h_ChainID h, h_Height h, h_Time h, h_NumTxs h, h_LastBlockID h, default [] (h_LastCommitHash h),
   default [] (h_DataHash h), h_ValidatorsHash h, h_AppHash h, h_ReceiptsHash h, h_ProposerAddress h).

Lemma header_map_same h1 h2 : header_ok h1 -> header_ok h2 ->
  Forall2 SimpleTree.same_entry (header_map h1) (header_map h2).
Proof using Type.
  intros (? & ? & ? & ? & B1 & ? & ? & ? & ? & ? & ? & ?) (? & ? & ? & ? & B2 & ? & ? & ? & ? & ? & ? & ?).
  pose proof (bid_wt _ noOpts B1) as W1. pose proof (bid_wt _ noOpts B2) as W2.
  unfold header_map. repeat (constructor; [split; [done|split; [done|split; [by vm_compute|split]]]; by (simpl in *)|]).
  constructor.
Qed.

Lemma header_hash_inj h1 h2 x : header_ok h1 -> header_ok h2 -> x <> [] ->
  header_hash h1 = Ok x -> header_hash h2 = Ok x -> covered h1 = covered h2 \/ SimpleTree.collision.
Proof using Hlaws.
  intros H1 H2 Hx E1 E2. unfold header_hash in *.
  destruct (SimpleTree.SimpleHashFromMap_inj _ _ (header_map_same h1 h2 H1 H2)) as (y1 & y2 & F1 & F2 & Hinj).
  destruct (h_ValidatorsHash h1) eqn:V1 in E1; [congruence|]. destruct (h_ValidatorsHash h2) eqn:V2 in E2; [congruence|].
  rewrite F1 in E1. rewrite F2 in E2. injection E1 as ->. injection E2 as ->.
  destruct (Hinj eq_refl) as [E|]; [left|by right]. unfold header_map in E. clear Hinj F1 F2 H1 H2. injection E. intros.
  assert (h_LastBlockID h1 = h_LastBlockID h2)
    by (destruct (h_LastBlockID h1) as [? []], (h_LastBlockID h2) as [? []]; simpl in *; congruence).
  unfold covered. congruence.
Qed.

(** ** Validation *)
Lemma ValidateBasic_iff b cid lastHeight lastID appHash receiptsHash :
  ValidateBasic b cid lastHeight lastID appHash receiptsHash = Ok None <->
  exists h d, b_Header b = Some h /\ b_Data b = Some d /\ h_ChainID h = cid /\ h_Height h = i64 (lastHeight + 1) /\
    h_NumTxs h = num_txs d /\ h_LastBlockID h = lastID /\ default [] (h_DataHash h) = data_hash d /\
    h_AppHash h = appHash /\ h_ReceiptsHash h = receiptsHash.
Proof using Type.
  unfold ValidateBasic. destruct (b_Header b) as [h|]; cbn [deref rbind].
  2:{ split; [done|]. naive_solver. }
  destruct (bytes_eqb (h_ChainID h) cid) eqn:E1; cbn [negb].
  2:{ apply bytes_eqb_neq in E1. split; [done|]. naive_solver. }
  destruct (Z.eqb_spec (h_Height h) (i64 (lastHeight + 1))) as [E2|E2]; cbn [negb].
  2:{ split; [done|]. naive_solver. }
  destruct (b_Data b) as [d|]; cbn [deref rbind].
  2:{ split; [done|]. naive_solver. }
  destruct (Z.eqb_spec (h_NumTxs h) (num_txs d)) as [E3|E3]; cbn [negb].
  2:{ split; [done|]. naive_solver. }
  destruct (bid_Equals (h_LastBlockID h) lastID) eqn:E4; cbn [negb].
  2:{ split; [done|]. intros (h' & d' & [= <-] & _ & _ & _ & _ & E & _).
      by rewrite (proj2 (bid_Equals_eq _ _) E) in E4. }
  destruct (bytes_eqb (default [] (h_DataHash h)) (data_hash d)) eqn:E5; cbn [negb].
  2:{ apply bytes_eqb_neq in E5. split; [done|]. naive_solver. }
  destruct (bytes_eqb (h_AppHash h) appHash) eqn:E6; cbn [negb].
  2:{ apply bytes_eqb_neq in E6. split; [done|]. naive_solver. }
  destruct (bytes_eqb (h_ReceiptsHash h) receiptsHash) eqn:E7; cbn [negb].
  2:{ apply bytes_eqb_neq in E7. split; [done|]. naive_solver. }
  apply bytes_eqb_eq in E1, E5, E6, E7. apply bid_Equals_eq in E4.
  split; [|done]. intros _. exists h, d. by split_and!.
Qed.

Lemma default_nilable bz : default [] (nilable bz) = bz.
Proof using Type. by destruct bz. Qed.

(** A block made by [MakeBlock] on top of the last block passes
    [ValidateBasic], and passes [ValidateCommit] too when it is the first block
    or carries a well-formed commit. *)
Theorem make_block_valid now height cid txs extxs c proposer prev vh ah rh partSize b ps :
  is_i64 height -> MakeBlock now height cid txs extxs (Some c) proposer prev vh ah rh partSize = Ok (b, ps) ->
  ValidateBasic b cid (height - 1) prev ah rh = Ok None /\
  (height = 1 \/ Commit_.ValidateBasic c = Ok None -> ValidateCommit b = Ok None).
Proof using Type.
  intros Hh E. unfold MakeBlock, FillHeader in E. cbn [b_Header b_Data b_LastCommit deref rbind h_LastCommitHash h_DataHash] in E.
  destruct (Commit_.Hash c) as [ch|] eqn:Ec; cbn [rbind] in E; [|done].
  destruct (MakePartSet _ _) as [ps'|]; cbn [rbind] in E; [|done]. injection E as <- <-. split.
  - apply ValidateBasic_iff. eexists _, _. split; [reflexivity|]. split; [reflexivity|]. simpl.
    split_and!; try done. replace (height - 1 + 1) with height by lia. by rewrite i64_id.
  - unfold ValidateCommit. cbn [b_Header b_LastCommit deref rbind]. rewrite Ec. cbn [rbind].
    simpl h_LastCommitHash. rewrite default_nilable, bytes_eqb_refl. simpl. intros [->|Hv]; [done|].
    destruct (height =? 1); [done|]. simpl. by rewrite Hv.
Qed.

Lemma hash_binaries_short items hs : SimpleTree.hash_binaries items = Ok hs -> Forall SimpleTree.short hs.
Proof using Hlaws.
  revert hs. induction items as [|[v t] items IH]; intros hs E; simpl in E; [by simplify_eq|].
  destruct (SimpleTree.SimpleHashFromBinary v t) as [h|] eqn:Eh; simpl in E; [|done].
  destruct (SimpleTree.hash_binaries items) as [hs'|]; simpl in E; [|done]. injection E as <-.
  constructor; [|by apply IH]. unfold SimpleTree.SimpleHashFromBinary in Eh.
  destruct (WireReflect.BinaryBytes v t); simpl in Eh; [|done]. injection Eh as <-. apply SimpleTree.DoHash_short.
Qed.

Lemma commit_hash_short c ch : Commit_.Hash c = Ok ch -> small_bytes ch.
Proof using Hlaws.
  unfold Commit_.Hash, SimpleTree.SimpleHashFromBinaries. intros E.
  destruct (SimpleTree.hash_binaries _) as [hs|] eqn:Eh; simpl in E; [|done]. injection E as <-.
  by apply SimpleTree.hashes_short, (hash_binaries_short _ _ Eh).
Qed.

(** The header [Hash] hashes *)
Lemma Hash_header b h d x b' :
  block_ok b -> b_Header b = Some h -> b_Data b = Some d -> default [] (h_DataHash h) = data_hash d ->
  configured_sha256 = false -> Hash (Some b) = Ok (x, b') -> x <> [] ->
  exists h' c, b' = Some (mkBlock (Some h') (Some d) c) /\ header_ok h' /\ header_hash h' = Ok x /\
    default [] (h_DataHash h') = data_hash d.
Proof using Hlaws.
  intros (Hh & _ & _) Eh Ed Edh Hc E Hx. destruct b as [bh bd bc]. simpl in *. subst bh bd.
  destruct bc as [c|]; [|simplify_eq]. unfold FillHeader in E. cbn [b_Header b_Data b_LastCommit deref rbind] in E.
  assert (exists lc, (match h_LastCommitHash h with
      | Some x0 => Ok (Some x0)
      | None => let! ch := Commit_.Hash c in Ok (nilable ch) end) = Ok lc /\ small_bytes (default [] lc)) as (lc & Elc & Slc).
  { destruct Hh as (_ & _ & _ & _ & _ & Hlc & _). destruct (h_LastCommitHash h) as [l|]; [by eexists|].
    cbn [rbind] in E. destruct (Commit_.Hash c) as [ch|] eqn:Ech; [|done]. cbn [rbind].
    eexists. split; [done|]. rewrite default_nilable. by eapply commit_hash_short. }
  cbn [rbind] in E. rewrite Elc in E. cbn [rbind] in E.
  destruct (h_DataHash h) as [dh|] eqn:Edd; cbn [rbind] in E.
  2:{ simpl in Edh. exfalso. unfold data_hash in Edh.
      unfold SimpleTree.SimpleHashFromTwoHashes, DoHash in Edh. rewrite Hc in Edh.
      apply (f_equal length) in Edh. rewrite ripemd160_length in Edh. done. }
  cbn [b_Header deref rbind] in E. destruct (header_hash _) as [y|] eqn:Ey; cbn [rbind] in E; [|done].
  injection E as -> <-. eexists _, _. split; [reflexivity|]. split; [|split; [exact Ey|done]].
  destruct Hh as (? & ? & ? & ? & ? & _ & Hdh & Hr). rewrite Edd in Hdh. unfold header_ok, set_hashes. cbn in *. tauto.
Qed.



(** A decoded block is not changed by [Hash]. *)
Lemma Hash_decoded h d c : header_ok h -> normal_header h = h ->
  exists x, Hash (Some (mkBlock (Some h) (Some d) (Some c))) = Ok (x, Some (mkBlock (Some h) (Some d) (Some c))) /\
    small_bytes x.
Proof using Hlaws.
  intros Hok Hn. assert (exists lc dh, h_LastCommitHash h = Some lc /\ h_DataHash h = Some dh) as (lc & dh & El & Ed).
  { rewrite <- Hn. simpl. eauto. }
  unfold Hash, FillHeader. cbn [b_Header b_Data b_LastCommit deref rbind]. rewrite El, Ed. cbn [rbind b_Header deref].
  assert (set_hashes h (Some lc) (Some dh) = h) as -> by (destruct h; simpl in *; by subst).
  assert (exists x, header_hash h = Ok x /\ small_bytes x) as (x & -> & Hx); [|cbn [rbind]; eauto].
  unfold header_hash. destruct (h_ValidatorsHash h); [by eexists|].
  destruct (SimpleTree.SimpleHashFromMap_inj _ _ (header_map_same h h Hok Hok)) as (y & _ & E & _).
  exists y. split; [done|]. by apply SimpleTree.SimpleHashFromMap_short in E.
Qed.

End Ops.

(** ** A first block with two transactions *)
Definition sample_commit0 : Commit := mkCommit nilBlockID [].
Definition sample_made : res (Block * PartSet.t) :=
  @MakeBlock sample_crypto 5000000 1 [99] [[1; 2]; [3]] [[4]] (Some sample_commit0) [7] nilBlockID [8] [9] [10] 40.
Definition sample_block : Block :=
  match sample_made with Ok (b, _) => b | Panic => mkBlock None None None end.
Definition sample_parts : PartSet.t :=
  match sample_made with Ok (_, ps) => ps | Panic => PartSet.mk 0 [] [] None 0 end.

Lemma make_block_valid_witness :
  @ValidateBasic sample_crypto sample_block [99] 0 nilBlockID [9] [10] = Ok None /\
  @ValidateCommit sample_crypto sample_block = Ok None.
Proof.
  destruct (@make_block_valid sample_crypto 5000000 1 [99] [[1; 2]; [3]] [[4]] sample_commit0 [7] nilBlockID [8] [9] [10] 40
    sample_block sample_parts) as [Hb Hc].
  - unfold is_i64. lia.
  - vm_compute. reflexivity.
  - split; [exact Hb|]. apply Hc. by left.
Defined.

Lemma sample_block_ok : block_ok sample_block.
Proof.
  split; [|split].
  - vm_compute. repeat split; discriminate.
  - assert (b_Data sample_block = Some (mkData [[1; 2]; [3]] [[4]])) as -> by (vm_compute; reflexivity).
    split; (split; [simpl; lia|]); repeat constructor; discriminate.
  - assert (b_LastCommit sample_block = Some sample_commit0) as -> by (vm_compute; reflexivity).
    split; [|split].
    + vm_compute. repeat split; discriminate.
    + done.
    + intros v Hv. inversion Hv.
Qed.

Definition sample_hash : bytes :=
  match @Hash sample_crypto (Some sample_block) with Ok (x, _) => x | Panic => [] end.


Definition sample_bytes : bytes := match block_bytes sample_block with Ok bz => bz | Panic => [] end.
Definition sample_rcv0 : PartSet.t :=
  PartSet.of_res (PartSet.NewPartSetFromHeader (PartSet.Header (Some sample_parts))).
Definition sample_rcv : PartSet.t :=
  foldl PartSet.add sample_rcv0 (map (fun o => PartSet.part_of (Some o)) (PartSet.parts sample_parts)).

Lemma foldl_reach ps l :
  Forall (fun p => Forall SimpleTree.short (pt_Proof p)) l -> rtc (@PartSet.step sample_crypto) ps (foldl PartSet.add ps l).
Proof.
  intros Hl. revert ps. induction Hl as [|p l Hp _ IH]; intros ps; simpl; [done|].
  etrans; [by apply PartSet.sample_step|]. apply IH.
Qed.

Lemma parts_short l :
  forallb (fun p => forallb (fun a => Z.of_nat (length a) <=? maxAlloc) (pt_Proof p)) l = true ->
  Forall (fun p => Forall SimpleTree.short (pt_Proof p)) l.
Proof.
  rewrite forallb_forall. intros Hl. apply Forall_forall. intros p Hp%list_elem_of_In%Hl.
  rewrite forallb_forall in Hp. apply Forall_forall. intros a Ha%list_elem_of_In%Hp. by apply Z.leb_le.
Qed.


End Block_.
