(* ===== verification/Store.v ===== *)
(** * gemmill/blockchain/store.go and gemmill/types/block_meta.go

    The block store writes, for each height, the block's meta data, its parts,
    the commit it carries for the previous height and the commit seen for it,
    under textual keys of a key-value database.  The database is a finite map
    on byte strings; the JSON descriptor under the key "blockStore" is kept as
    the two numbers it holds. *)
From S2P Require Import Prelude BitArray Wire WireReflect Types SimpleTree SignBytes Validators VoteSets PartSets Blocks.
Import Wire.

(** ** The wire types of parts and block meta data *)
Definition T_Part : rtype := TStruct [field TInt; field T_bytes; field (TStruct [field (TSlice T_bytes)])].
Definition part_val (p : Part) : gval :=
  VStruct [VInt (pt_Index p); VBytes (pt_Bytes p); VStruct [VList (map VBytes (pt_Proof p))]].
Definition part_of_val (v : gval) : option Part :=
  match v with
  | VStruct [VInt i; VBytes bz; VStruct [VList aunts]] =>
      aunts ← mapM Block_.bytes_of_val aunts; Some (mkPart i bz aunts)
  | _ => None
  end.

Record BlockMeta := mkMeta {
  m_Hash : bytes;
  m_Header : option Header;
  m_PartsHeader : PartSetHeader
}.

Definition T_BlockMeta : rtype := TStruct [field T_bytes; field (TPtr Block_.T_Header); field T_PartSetHeader].
Definition meta_val (m : BlockMeta) : gval :=
  VStruct [VBytes (m_Hash m); Block_.ptr_val Block_.header_val (m_Header m); psh_val (m_PartsHeader m)].
Definition meta_of_val (v : gval) : option BlockMeta :=
  match v with
  | VStruct [VBytes hash; h; VStruct [VInt n; VBytes ph]] =>
      h ← Block_.of_ptr Block_.header_of h; Some (mkMeta hash h (mkPSH n ph))
  | _ => None
  end.

Module BlockStore.
Section Ops.
Context `{Crypto}.

Abbreviation DB := (gmap bytes bytes).

Record t := mk {
  db : DB;
  archiveDB : DB;
  descriptor : option (Z * Z);
  height : Z;
  originHeight : Z
}.

Definition set_db (d : DB) (s : t) : t := mk d (archiveDB s) (descriptor s) (height s) (originHeight s).
Definition set_archive (d : DB) (s : t) : t := mk (db s) d (descriptor s) (height s) (originHeight s).

Definition calcBlockMetaKey (h : Z) : bytes := of_string "H:" ++ Json.dec h.
Definition calcBlockPartKey (h i : Z) : bytes := of_string "P:" ++ Json.dec h ++ of_string ":" ++ Json.dec i.
Definition calcBlockCommitKey (h : Z) : bytes := of_string "C:" ++ Json.dec h.
Definition calcSeenCommitKey (h : Z) : bytes := of_string "SC:" ++ Json.dec h.

(** [LoadBlockStoreStateJSON] *)
Definition NewBlockStore (d archive : DB) (desc : option (Z * Z)) : t :=
  let (h, o) := default (0, 0) desc in mk d archive desc h o.

Definition Height (s : t) : Z := height s.
Definition OriginHeight (s : t) : Z := originHeight s.
Definition SetOriginHeight (s : t) (h : Z) : t := mk (db s) (archiveDB s) (descriptor s) (height s) h.

(** [GetReader(key)], then [wire.ReadBinary(&T{}, r, 0, &n, &err)], which must
    not fail. *)
Definition load {A : Type} (d : DB) (key : bytes) (rt : rtype) (of_val : gval -> option A) : res (option A) :=
  match d !! key with
  | None => Ok None
  | Some bz =>
      let! (v, r) := WireReflect.ReadBinary rt 0 (mkR bz 0 None) in
      match re r with
      | Some _ => Panic
      | None => let! a := deref (match v with VPtr v => of_val v | _ => None end) in Ok (Some a)
      end
  end.

Definition LoadBlockPart (s : t) (h i : Z) : res (option Part) := load (db s) (calcBlockPartKey h i) T_Part part_of_val.
Definition LoadBlockMeta (s : t) (h : Z) : res (option BlockMeta) := load (db s) (calcBlockMetaKey h) T_BlockMeta meta_of_val.
Definition LoadBlockCommit (s : t) (h : Z) : res (option Commit) :=
  load (db s) (calcBlockCommitKey h) Block_.T_Commit Block_.commit_of.
Definition LoadSeenCommit (s : t) (h : Z) : res (option Commit) :=
  load (db s) (calcSeenCommitKey h) Block_.T_Commit Block_.commit_of.

Fixpoint load_parts (s : t) (h : Z) (n : nat) (i : Z) : res bytes :=
  match n with
  | O => Ok []
  | S n' =>
      let! p := LoadBlockPart s h i in
      let! p := deref p in
      let! rest := load_parts s h n' (i + 1) in
      Ok (pt_Bytes p ++ rest)
  end.

Definition LoadBlock (s : t) (h : Z) : res (option Block) :=
  let! meta := LoadBlockMeta s h in
  match meta with
  | None => Ok None
  | Some meta =>
      let! bytez := load_parts s h (Z.to_nat (ps_Total (m_PartsHeader meta))) 0 in
      let! (v, r) := WireReflect.ReadBinary Block_.T_Block 0 (mkR bytez 0 None) in
      match re r with
      | Some _ => Panic
      | None => let! b := deref (match v with VPtr v => Block_.block_of v | _ => None end) in Ok (Some b)
      end
  end.

(** [NewBlockMeta] fills the block's header in place. *)
Definition NewBlockMeta (b : Block) (ps : PartSet.t) : res (BlockMeta * Block) :=
  let! (hash, b') := Block_.Hash (Some b) in
  let b := default b b' in
  Ok (mkMeta hash (b_Header b) (PartSet.Header (Some ps)), b).

Definition set_bytes (d : DB) (key : bytes) (v : gval) (rt : rtype) : res DB :=
  let! bz := WireReflect.BinaryBytes v (TPtr rt) in Ok (<[key := bz]> d).

Fixpoint save_parts (d : DB) (h : Z) (ps : PartSet.t) (n : nat) (i : Z) : res DB :=
  match n with
  | O => Ok d
  | S n' =>
      let! p := PartSet.GetPart ps i in
      let! d := set_bytes d (calcBlockPartKey h i) (Block_.ptr_val part_val p) T_Part in
      save_parts d h ps n' (i + 1)
  end.

(** The writes [SaveBlock] and [SaveBlockToArchive] share *)
Definition save_all (d : DB) (h : Z) (b : Block) (ps : PartSet.t) (seenCommit : Commit) : res DB :=
  let! (meta, b) := NewBlockMeta b ps in
  let! d := set_bytes d (calcBlockMetaKey h) (VPtr (meta_val meta)) T_BlockMeta in
  let! d := save_parts d h ps (Z.to_nat (PartSet.total ps)) 0 in
  let! d := set_bytes d (calcBlockCommitKey (h - 1)) (Block_.ptr_val Block_.commit_val (b_LastCommit b)) Block_.T_Commit in
  set_bytes d (calcSeenCommitKey h) (VPtr (Block_.commit_val seenCommit)) Block_.T_Commit.

(** [bs.db.SetSync(nil, nil)] flushes by writing an empty key. *)
Definition SaveBlock (s : t) (b : Block) (ps : PartSet.t) (seenCommit : Commit) : res t :=
  let! hd := deref (b_Header b) in
  let h := h_Height hd in
  if negb (h =? i64 (height s + 1)) then Panic
  else if negb (PartSet.IsComplete ps) then Panic
  else
    let! d := save_all (db s) h b ps seenCommit in
    Ok (mk (<[[] := []]> d) (archiveDB s) (Some (h, originHeight s)) h (originHeight s)).

Definition SaveBlockToArchive (s : t) (h : Z) (b : Block) (ps : PartSet.t) (seenCommit : Commit) : res t :=
  let! d := save_all (archiveDB s) h b ps seenCommit in Ok (set_archive d s).

Definition delete_parts (d : DB) (h : Z) (n : nat) : DB :=
  foldl (fun d i => delete (calcBlockPartKey h i) d) d (seqZ 0 (Z.of_nat n)).

Inductive delete_status := Deleted | NoMeta | BadMeta.

(** The deletions [DeleteBlock] makes in each of the two databases *)
Definition delete_from (d : DB) (h : Z) : res (delete_status * DB) :=
  let d := delete (calcSeenCommitKey h) (delete (calcBlockCommitKey (h - 1)) d) in
  match d !! calcBlockMetaKey h with
  | None => Ok (NoMeta, d)
  | Some bz =>
      let! (v, r) := WireReflect.ReadBinary T_BlockMeta 0 (mkR bz 0 None) in
      match re r with
      | Some _ => Ok (BadMeta, d)
      | None =>
          let! meta := deref (match v with VPtr v => meta_of_val v | _ => None end) in
          let d := delete_parts d h (Z.to_nat (ps_Total (m_PartsHeader meta))) in
          Ok (Deleted, delete [] (delete (calcBlockMetaKey h) d))
      end
  end.

(** [DeleteBlock]: whether it returned an error, and the store.  It stops
    early, without error, when the meta data is missing. *)
Definition DeleteBlock (s : t) (h : Z) : res (bool * t) :=
  match db s !! calcBlockCommitKey h with
  | None => Ok (true, s)
  | Some _ =>
      let! (st, d) := delete_from (db s) h in
      let s := set_db d s in
      match st with
      | NoMeta => Ok (false, s)
      | BadMeta => Ok (true, s)
      | Deleted =>
          let! (st, a) := delete_from (archiveDB s) h in
          Ok (match st with BadMeta => true | _ => false end, set_archive a s)
      end
  end.

Definition RevertToHeight (s : t) (h : Z) : t :=
  mk (db s) (archiveDB s) (Some (h, originHeight s)) (height s) (originHeight s).

(** ** Keys *)
Lemma dec_app_inj a b (r r' : bytes) : Json.dec a ++ (58 :: r) = Json.dec b ++ (58 :: r') -> a = b /\ r = r'.
Proof using Type.
  intros E. assert ((58 ∉ Json.dec a) /\ (58 ∉ Json.dec b)) as [Ha Hb]
    by (split; apply Json.dec_not_in; unfold Json.dec_char; lia).
  destruct (Json.split_at _ _ _ _ _ Ha Hb E) as [Ed ->]. split; [by apply Json.dec_inj|done].
Qed.

Lemma meta_key_inj a b : calcBlockMetaKey a = calcBlockMetaKey b -> a = b.
Proof using Type. intros E%app_inv_head. by apply Json.dec_inj. Qed.
Lemma commit_key_inj a b : calcBlockCommitKey a = calcBlockCommitKey b -> a = b.
Proof using Type. intros E%app_inv_head. by apply Json.dec_inj. Qed.
Lemma seen_key_inj a b : calcSeenCommitKey a = calcSeenCommitKey b -> a = b.
Proof using Type. intros E%app_inv_head. by apply Json.dec_inj. Qed.
Lemma part_key_inj a i b j : calcBlockPartKey a i = calcBlockPartKey b j -> a = b /\ i = j.
Proof using Type.
  intros E%app_inv_head. apply dec_app_inj in E as [-> E]. split; [done|]. by apply Json.dec_inj.
Qed.

(** Keys of different kinds differ in their first letters. *)
Ltac key_ne := let E := fresh in intros E; discriminate E.

(** ** Writing and reading one entry *)
Lemma ReadBinary_ok v rt bz :
  WireReflect.wt (VPtr v) (TPtr rt) noOpts false -> WireReflect.BinaryBytes (VPtr v) (TPtr rt) = Ok bz ->
  exists n, WireReflect.ReadBinary rt 0 (mkR bz 0 None) = Ok (VPtr v, mkR [] n None).
Proof using Type.
  intros Hwt E. destruct (WireReflect.BinaryBytes_codes _ _ Hwt) as (bz' & E' & Hr).
  rewrite E in E'. injection E' as <-. specialize (Hr 0 [] 0 (or_introl eq_refl)). rewrite app_nil_r in Hr.
  unfold WireReflect.ReadBinary. rewrite Hr. cbn. eauto.
Qed.

Lemma load_ext {A : Type} (d d' : DB) key rt (f : gval -> option A) :
  d !! key = d' !! key -> load d key rt f = load d' key rt f.
Proof using Type. unfold load. by intros ->. Qed.

Lemma set_bytes_load {A : Type} d key v rt (f : gval -> option A) a :
  WireReflect.wt (VPtr v) (TPtr rt) noOpts false -> f v = Some a ->
  exists bz, set_bytes d key (VPtr v) rt = Ok (<[key := bz]> d) /\
    forall d' : DB, d' !! key = Some bz -> load d' key rt f = Ok (Some a).
Proof using Type.
  intros Hwt Hf. destruct (WireReflect.BinaryBytes_codes _ _ Hwt) as (bz & E & _).
  exists bz. unfold set_bytes. rewrite E. split; [done|]. intros d' Hd. unfold load. rewrite Hd.
  destruct (ReadBinary_ok v rt bz Hwt E) as [n ->]. cbn. by rewrite Hf.
Qed.

Definition part_ok (p : Part) : Prop :=
  is_i64 (pt_Index p) /\ Block_.small_bytes (pt_Bytes p) /\ Block_.txs_ok (pt_Proof p).

Lemma part_wt p : part_ok p -> WireReflect.wt (VPtr (part_val p)) (TPtr T_Part) noOpts false.
Proof using Type.
  intros (Hi & Hb & Hp). split; [done|]. split; [exact Hi|]. split; [by split|]. split; [|done].
  split; [|done]. exact (Block_.txs_wt _ noOpts Hp).
Qed.

Lemma part_of_part_val p : part_of_val (part_val p) = Some p.
Proof using Type. unfold part_of_val, part_val. rewrite Block_.mapM_map by done. by destruct p. Qed.

Lemma save_parts_ok d h ps n i :
  0 <= i -> (Z.to_nat i + n <= length (PartSet.parts ps))%nat ->
  (forall j o, PartSet.parts ps !! j = Some o -> exists p, o = Some p /\ part_ok p) ->
  exists d', save_parts d h ps n i = Ok d' /\
    (forall k, (forall j, i <= j < i + Z.of_nat n -> k <> calcBlockPartKey h j) -> d' !! k = d !! k) /\
    (forall j p d2, i <= j < i + Z.of_nat n -> PartSet.parts ps !! Z.to_nat j = Some (Some p) ->
       d2 !! calcBlockPartKey h j = d' !! calcBlockPartKey h j ->
       load d2 (calcBlockPartKey h j) T_Part part_of_val = Ok (Some p)).
Proof using Type.
  intros Hi Hn Hall. revert d i Hi Hn. induction n as [|n IH]; intros d i Hi Hn; cbn [save_parts].
  { exists d. split_and!; [done|done|lia]. }
  destruct (lookup_lt_is_Some_2 (PartSet.parts ps) (Z.to_nat i) ltac:(lia)) as [o Ho].
  destruct (Hall _ _ Ho) as (p & -> & Hp).
  assert (PartSet.GetPart ps i = Ok (Some p)) as ->.
  { unfold PartSet.GetPart. rewrite <- (Z2Nat.id i) by lia. by apply VoteSet.go_index_nat. }
  cbn [rbind Block_.ptr_val].
  destruct (set_bytes_load d (calcBlockPartKey h i) (part_val p) T_Part part_of_val p (part_wt p Hp) (part_of_part_val p))
    as (bz & -> & Hload). cbn [rbind].
  destruct (IH (<[calcBlockPartKey h i := bz]> d) (i + 1) ltac:(lia) ltac:(lia)) as (d' & -> & Hother & Hin).
  exists d'. split; [done|]. split.
  - intros k Hk. rewrite Hother by (intros; apply Hk; lia). rewrite lookup_insert_ne; [done|].
    intros E. apply (Hk i); [lia|done].
  - intros j q d2 Hj Hq Hd2. destruct (decide (j = i)) as [->|Hne]; [|apply (Hin j q); [lia|done..]].
    assert (q = p) as -> by congruence. apply Hload. rewrite Hd2, Hother.
    + by rewrite lookup_insert_eq.
    + intros k Hk E. apply part_key_inj in E as [_ E]. lia.
Qed.

Lemma load_parts_ok s h (l : list (option Part)) n i :
  0 <= i -> (Z.to_nat i + n = length l)%nat ->
  (forall j o, l !! j = Some o -> is_Some o) ->
  (forall j p, (Z.to_nat i <= j)%nat -> l !! j = Some (Some p) -> LoadBlockPart s h (Z.of_nat j) = Ok (Some p)) ->
  load_parts s h n i = Ok (concat (map PartSet.bytes_of (drop (Z.to_nat i) l))).
Proof using Type.
  intros Hi Hn Hall Hload. revert i Hi Hn Hload. induction n as [|n IH]; intros i Hi Hn Hload; cbn [load_parts].
  { by rewrite drop_ge by lia. }
  destruct (lookup_lt_is_Some_2 l (Z.to_nat i) ltac:(lia)) as [o Ho]. destruct (Hall _ _ Ho) as [p ->].
  assert (LoadBlockPart s h i = Ok (Some p)) as ->.
  { rewrite <- (Z2Nat.id i) by lia. by apply Hload. }
  cbn [rbind deref]. rewrite IH; [|lia|lia|intros; apply Hload; [lia|done]]. cbn [rbind].
  rewrite (drop_S _ _ _ Ho). simpl. do 5 f_equal. lia.
Qed.

Definition meta_ok (m : BlockMeta) : Prop :=
  Block_.small_bytes (m_Hash m) /\ Block_.if_some Block_.header_ok (m_Header m) /\ psh_ok (m_PartsHeader m).

Lemma meta_wt m : meta_ok m -> WireReflect.wt (VPtr (meta_val m)) (TPtr T_BlockMeta) noOpts false.
Proof using Type.
  intros (Hb & Hh & Hp). split; [done|]. split; [by split|]. split; [|split; [|done]].
  - apply (Block_.ptr_wt _ _ Block_.header_ok); [|done]. apply Block_.header_wt.
  - exact (psh_wt _ noOpts Hp).
Qed.

Lemma meta_of_meta_val m :
  meta_of_val (meta_val m) = Some (mkMeta (m_Hash m) (Block_.normal_header <$> m_Header m) (m_PartsHeader m)).
Proof using Type.
  destruct m as [hash h [n ph]]. unfold meta_of_val, meta_val. cbn [m_Hash m_Header m_PartsHeader psh_val ps_Total ps_Hash].
  destruct h as [h|]; [|done]. cbn [Block_.ptr_val Block_.of_ptr]. unfold Block_.header_of, Block_.header_val.
  by rewrite Block_.bid_of_val.
Qed.

Lemma commit_ptr_wt c : Block_.commit_ok c -> WireReflect.wt (VPtr (Block_.commit_val c)) (TPtr Block_.T_Commit) noOpts false.
Proof using Type. intros Hc. split; [done|]. exact (Block_.commit_wt c noOpts Hc). Qed.

Lemma commit_of_commit_val c : Block_.commit_of (Block_.commit_val c) = Some c.
Proof using Type.
  destruct c as [b vs]. unfold Block_.commit_of, Block_.commit_val. cbn [c_BlockID c_Precommits].
  rewrite Block_.bid_of_val. cbn [mbind option_bind]. rewrite Block_.mapM_map; [done|].
  intros [v|]; [|done]. cbn [Commit_.vote_ptr_val Block_.of_ptr]. by rewrite Block_.vote_of_val.
Qed.

Context {Hlaws : CryptoLaws}.

(** What is stored for a height: the writes of [save_all], and nothing else
    changes. *)
Lemma save_all_ok d h hd dt c ps sc :
  let b := mkBlock (Some hd) (Some dt) (Some c) in
  Block_.header_ok hd -> Block_.normal_header hd = hd -> Block_.commit_ok c -> Block_.commit_ok sc ->
  psh_ok (PartSet.Header (Some ps)) -> Z.of_nat (length (PartSet.parts ps)) = PartSet.total ps ->
  (forall j o, PartSet.parts ps !! j = Some o -> exists p, o = Some p /\ part_ok p) ->
  exists d' x, save_all d h b ps sc = Ok d' /\
    load d' (calcBlockMetaKey h) T_BlockMeta meta_of_val = Ok (Some (mkMeta x (Some hd) (PartSet.Header (Some ps)))) /\
    (forall j p, PartSet.parts ps !! j = Some (Some p) ->
       load d' (calcBlockPartKey h (Z.of_nat j)) T_Part part_of_val = Ok (Some p)) /\
    load d' (calcBlockCommitKey (h - 1)) Block_.T_Commit Block_.commit_of = Ok (Some c) /\
    load d' (calcSeenCommitKey h) Block_.T_Commit Block_.commit_of = Ok (Some sc) /\
    (forall k, k <> calcBlockMetaKey h -> (forall j, k <> calcBlockPartKey h j) -> k <> calcBlockCommitKey (h - 1) ->
       k <> calcSeenCommitKey h -> d' !! k = d !! k).
Proof using Hlaws.
  intros b Hhd Hn Hc Hsc Hpsh Hlen Hall. unfold save_all.
  destruct (Block_.Hash_decoded hd dt c Hhd Hn) as (x & Ex & Hx).
  set (meta := mkMeta x (Some hd) (PartSet.Header (Some ps))).
  assert (NewBlockMeta b ps = Ok (meta, b)) as -> by (unfold NewBlockMeta, b; by rewrite Ex).
  cbn [rbind b_LastCommit b].
  assert (meta_of_val (meta_val meta) = Some meta) as Em by (rewrite meta_of_meta_val; simpl; by rewrite Hn).
  destruct (set_bytes_load d (calcBlockMetaKey h) (meta_val meta) T_BlockMeta meta_of_val meta
    (meta_wt meta ltac:(by split_and!)) Em) as (bz & -> & Hlm). cbn [rbind].
  destruct (save_parts_ok (<[calcBlockMetaKey h := bz]> d) h ps (Z.to_nat (PartSet.total ps)) 0 ltac:(lia) ltac:(lia) Hall)
    as (d1 & -> & Hother & Hparts). cbn [rbind].
  destruct (set_bytes_load d1 (calcBlockCommitKey (h - 1)) (Block_.commit_val c) Block_.T_Commit Block_.commit_of c
    (commit_ptr_wt c Hc) (commit_of_commit_val c)) as (bc & Ec & Hlc). cbn [Block_.ptr_val]. rewrite Ec. cbn [rbind].
  destruct (set_bytes_load (<[calcBlockCommitKey (h - 1) := bc]> d1) (calcSeenCommitKey h) (Block_.commit_val sc)
    Block_.T_Commit Block_.commit_of sc (commit_ptr_wt sc Hsc) (commit_of_commit_val sc)) as (bs & Es & Hls).
  rewrite Es. eexists _, x. split; [reflexivity|].
  split_and!.
  - apply Hlm. rewrite !lookup_insert_ne by key_ne. rewrite Hother; [by rewrite lookup_insert_eq|]. intros j _. key_ne.
  - intros j p Hp. apply lookup_lt_Some in Hp as Hlt. apply (Hparts (Z.of_nat j) p); [lia|by rewrite Nat2Z.id|].
    by rewrite !lookup_insert_ne by key_ne.
  - apply Hlc. rewrite lookup_insert_ne by key_ne. by rewrite lookup_insert_eq.
  - apply Hls. by rewrite lookup_insert_eq.
  - intros k K1 K2 K3 K4. rewrite !lookup_insert_ne by done. rewrite Hother by (intros; apply K2).
    by rewrite lookup_insert_ne.
Qed.

(** [LoadBlock] only looks at the meta data and the parts of its height. *)
Lemma LoadBlock_ext s s' k :
  (forall key, key = calcBlockMetaKey k \/ (exists j, key = calcBlockPartKey k j) \/ key = calcSeenCommitKey k ->
     db s' !! key = db s !! key) ->
  LoadBlock s' k = LoadBlock s k.
Proof using Type.
  intros Hsame. unfold LoadBlock, LoadBlockMeta. rewrite (load_ext (db s') (db s)) by (apply Hsame; by left).
  destruct (load (db s) (calcBlockMetaKey k) T_BlockMeta meta_of_val) as [[meta|]|]; cbn [rbind]; [|done..].
  f_equal. generalize 0 as i. induction (Z.to_nat (ps_Total (m_PartsHeader meta))) as [|m IH]; intros i; [done|].
  cbn [load_parts]. unfold LoadBlockPart. rewrite (load_ext (db s') (db s)) by (apply Hsame; right; left; eauto).
  destruct (load (db s) _ T_Part part_of_val) as [[p|]|]; cbn [rbind deref]; [|done..]. by rewrite IH.
Qed.


End Ops.

(** ** Saving the sample block in an empty store *)
Definition sample_header : Header := Block_.normal_header (default (mkHeader [] 0 0 0 nilBlockID None None [] [] [] [] []) (b_Header Block_.sample_block)).
Definition sample_data : Data := mkData [[1; 2]; [3]] [[4]].
Definition sample_stored : Block := mkBlock (Some sample_header) (Some sample_data) (Some Block_.sample_commit0).
Definition empty_store : t := NewBlockStore ∅ ∅ None.

Lemma sample_header_ok : Block_.header_ok sample_header.
Proof. vm_compute. repeat split; discriminate. Qed.

Lemma sample_stored_ok : Block_.block_ok sample_stored.
Proof.
  pose proof Block_.sample_block_ok as (_ & Hd & Hc).
  assert (b_Data Block_.sample_block = Some sample_data) as Ed by (vm_compute; reflexivity).
  assert (b_LastCommit Block_.sample_block = Some Block_.sample_commit0) as Ec by (vm_compute; reflexivity).
  rewrite Ed in Hd. rewrite Ec in Hc. split; [exact sample_header_ok|]. by split.
Qed.

Definition part_okb (p : Part) : bool :=
  (- 2 ^ 63 <=? pt_Index p) && (pt_Index p <? 2 ^ 63) && (Z.of_nat (length (pt_Bytes p)) <=? maxAlloc) &&
  (Z.of_nat (length (pt_Proof p)) <? 2 ^ 63) && forallb (fun a => Z.of_nat (length a) <=? maxAlloc) (pt_Proof p).

Lemma part_okb_ok p : part_okb p = true -> part_ok p.
Proof.
  unfold part_okb. rewrite !andb_true_iff, !Z.leb_le, !Z.ltb_lt, forallb_forall.
  intros ((((? & ?) & ?) & ?) & Hf). split; [by split|]. split; [done|]. split; [done|].
  apply Forall_forall. intros a Ha%list_elem_of_In%Hf. by apply Z.leb_le.
Qed.

Lemma sample_parts_ok j p : PartSet.parts Block_.sample_parts !! j = Some (Some p) -> part_ok p.
Proof.
  intros Hp. apply part_okb_ok.
  assert (forallb (fun o => match o with Some p => part_okb p | None => true end) (PartSet.parts Block_.sample_parts) = true) as Hf
    by (vm_compute; reflexivity).
  rewrite forallb_forall in Hf. apply list_elem_of_lookup_2, list_elem_of_In, Hf in Hp. exact Hp.
Qed.


End BlockStore.
