(* ===== verification/ChainState.v ===== *)
(** * gemmill/state/state.go and execution.go

    The replicated chain state after the last block, how a block is executed
    on it, and how it is saved.  The application and its plugins are reached
    through [IBlockExecutable] and the execute and commit hooks; they are the
    interface [BlockExecutable]. *)
From S2P Require Import Prelude BitArray Wire WireReflect Types SimpleTree SignBytes Validators VoteSets PartSets Blocks.
Import Wire WireReflect.

(** What the engine calls on the application and its plugins, and on the
    mempool; [A] is their own state and a [bool] tells that an error was
    returned. *)
Class BlockExecutable (A : Type) := {
  be_BeginBlock : A -> Block -> PartSetHeader -> A * bool;
  be_HookExecute : A -> Block -> A * bool;
  be_ExecBlock : A -> Block -> A * bool;
  be_EndBlock : A -> Block -> PartSetHeader -> ValidatorSet.t -> A * ValidatorSet.t * bool;
  be_MempoolUpdate : A -> Z -> list bytes -> A;
  be_HookCommit : A -> Block -> A * bytes * bytes
}.

Record GenesisValidator := mkGV {
  gv_PubKey : PubKey;
  gv_Amount : Z;
  gv_Name : bytes;
  gv_IsCA : bool;
  gv_RPCAddress : bytes
}.

Record GenesisDoc := mkGen {
  g_GenesisTime : Z;
  g_ChainID : bytes;
  g_Validators : list GenesisValidator;
  g_AppHash : bytes;
  g_Plugins : bytes
}.

Record State := mkState {
  st_GenesisDoc : GenesisDoc;
  st_ChainID : bytes;
  st_LastBlockHeight : Z;
  st_LastBlockID : BlockID;
  st_LastBlockTime : Z;
  st_Validators : ValidatorSet.t;
  st_LastValidators : ValidatorSet.t;
  st_LastNonEmptyHeight : Z;
  st_AppHash : bytes;
  st_ReceiptsHash : bytes
}.

(** The values under [stateKey] and [stateIntermediateKey]; a missing key is
    the empty string. *)
Record StateDB := mkSDB { sdb_state : bytes; sdb_intermediate : bytes }.

Inductive exec_err := ErrInvalidBlock | ErrApp.

Module ChainState.

(** ** The encoding of a state: its exported fields *)
Definition T_GenesisValidator : rtype :=
  TStruct [field T_PubKey; field TInt64; field TString; field TBool; field TString].
Definition gv_val (g : GenesisValidator) : gval :=
  VStruct [pk_val (gv_PubKey g); VInt (gv_Amount g); VBytes (gv_Name g); VBool (gv_IsCA g); VBytes (gv_RPCAddress g)].

Definition T_GenesisDoc : rtype :=
  TStruct [field TTime; field TString; field (TSlice T_GenesisValidator); field T_bytes; field TString].
Definition gen_val (g : GenesisDoc) : gval :=
  VStruct [VInt (g_GenesisTime g); VBytes (g_ChainID g); VList (map gv_val (g_Validators g)); VBytes (g_AppHash g);
           VBytes (g_Plugins g)].

Definition T_ValidatorSet : rtype := TStruct [field (TSlice (TPtr T_Validator))].
Definition vset_val (vs : ValidatorSet.t) : gval :=
  VStruct [VList (map (fun v => VPtr (val_val v)) (ValidatorSet.Validators vs))].

Definition T_State : rtype :=
  TStruct [field (TPtr T_GenesisDoc); field TString; field TInt64; field T_BlockID; field TTime;
           field (TPtr T_ValidatorSet); field (TPtr T_ValidatorSet); field TInt64; field T_bytes; field T_bytes].
Definition state_val (s : State) : gval :=
  VStruct [VPtr (gen_val (st_GenesisDoc s)); VBytes (st_ChainID s); VInt (st_LastBlockHeight s);
           bid_val (st_LastBlockID s); VInt (st_LastBlockTime s); VPtr (vset_val (st_Validators s));
           VPtr (vset_val (st_LastValidators s)); VInt (st_LastNonEmptyHeight s); VBytes (st_AppHash s);
           VBytes (st_ReceiptsHash s)].

Definition pk_of (v : gval) : option PubKey :=
  match v with
  | VIface 3 _ (VBytes bz) => Some (PubKeyEd25519 bz)
  | VIface 4 _ (VBytes bz) => Some (PubKeySecp256k1 bz)
  | _ => None
  end.

Definition gv_of (v : gval) : option GenesisValidator :=
  match v with
  | VStruct [pk; VInt a; VBytes n; VBool ca; VBytes rpc] => pk ← pk_of pk; Some (mkGV pk a n ca rpc)
  | _ => None
  end.

Definition gen_of (v : gval) : option GenesisDoc :=
  match v with
  | VStruct [VInt t; VBytes cid; VList gvs; VBytes ah; VBytes pl] =>
      gvs ← mapM gv_of gvs; Some (mkGen t cid gvs ah pl)
  | _ => None
  end.

Definition validator_of (v : gval) : option Validator :=
  match v with
  | VPtr (VStruct [VBytes a; pk; VInt p; VInt acc; VBool ca]) => pk ← pk_of pk; Some (mkVal a pk p acc ca)
  | _ => None
  end.

Definition vset_of (v : gval) : option ValidatorSet.t :=
  match v with
  | VPtr (VStruct [VList vs]) => vs ← mapM validator_of vs; Some (ValidatorSet.mk vs None 0)
  | _ => None
  end.

Definition state_of (v : gval) : option State :=
  match v with
  | VPtr (VStruct [VPtr g; VBytes cid; VInt h; bid; VInt t; v; lv; VInt ne; VBytes ah; VBytes rh]) =>
      g ← gen_of g; bid ← Block_.bid_of bid; v ← vset_of v; lv ← vset_of lv;
      Some (mkState g cid h bid t v lv ne ah rh)
  | _ => None
  end.

(** [Bytes] of a state *)
Definition state_bytes (s : State) : res bytes := BinaryBytes (VPtr (state_val s)) (TPtr T_State).

(** A value that does not decode ends the process.  A decoded state with a
    nil genesis, validator set or key is one that the program never writes;
    it is not represented, and reads as [Panic]. *)
Definition loadState (buf : bytes) : res (option State) :=
  match buf with
  | [] => Ok None
  | _ =>
      let! (v, err) := ReadBinaryBytes buf (TPtr T_State) in
      match err, v with
      | Some _, _ => Panic
      | None, VNil => Ok None
      | None, v => let! s := deref (state_of v) in Ok (Some s)
      end
  end.

Definition LoadState (db : StateDB) : res (option State) := loadState (sdb_state db).

Definition Save (db : StateDB) (s : State) : res StateDB :=
  let! bz := state_bytes s in Ok (mkSDB bz (sdb_intermediate db)).
Definition SaveIntermediate (db : StateDB) (s : State) : res StateDB :=
  let! bz := state_bytes s in Ok (mkSDB (sdb_state db) bz).

Definition Equals (s s2 : State) : res bool :=
  let! b1 := state_bytes s in let! b2 := state_bytes s2 in Ok (bytes_eqb b1 b2).

Definition Copy (s : State) : res State :=
  let! v := ValidatorSet.Copy (st_Validators s) in
  let! lv := ValidatorSet.Copy (st_LastValidators s) in
  Ok (mkState (st_GenesisDoc s) (st_ChainID s) (st_LastBlockHeight s) (st_LastBlockID s) (st_LastBlockTime s) v lv
        (st_LastNonEmptyHeight s) (st_AppHash s) (st_ReceiptsHash s)).

Definition setBlockAndValidators (s : State) (height nonEmptyHeight : Z) (blockID : BlockID) (blockTime : Z)
    (prevValSet nextValSet : ValidatorSet.t) : State :=
  mkState (st_GenesisDoc s) (st_ChainID s) height blockID blockTime nextValSet prevValSet nonEmptyHeight
    (st_AppHash s) (st_ReceiptsHash s).

(** What a saved state reads back as: a validator set loses its cached
    proposer and total. *)
Definition stored_vset (v : ValidatorSet.t) : ValidatorSet.t := ValidatorSet.mk (ValidatorSet.Validators v) None 0.
Definition stored (s : State) : State :=
  mkState (st_GenesisDoc s) (st_ChainID s) (st_LastBlockHeight s) (st_LastBlockID s) (st_LastBlockTime s)
    (stored_vset (st_Validators s)) (stored_vset (st_LastValidators s)) (st_LastNonEmptyHeight s) (st_AppHash s)
    (st_ReceiptsHash s).

(** ** Typing and decoding *)
Definition pk_ok (pk : PubKey) : Prop :=
  match pk with PubKeyEd25519 bz => length bz = 32%nat | PubKeySecp256k1 bz => length bz = 64%nat end.
Definition time_ok (t : Z) : Prop := is_i64 t /\ Z.rem t 1000000 = 0.
Definition gv_ok (g : GenesisValidator) : Prop :=
  pk_ok (gv_PubKey g) /\ is_i64 (gv_Amount g) /\ Block_.small_bytes (gv_Name g) /\ Block_.small_bytes (gv_RPCAddress g).
Definition gen_ok (g : GenesisDoc) : Prop :=
  time_ok (g_GenesisTime g) /\ Block_.small_bytes (g_ChainID g) /\ Z.of_nat (length (g_Validators g)) < 2 ^ 63 /\
  Forall gv_ok (g_Validators g) /\ Block_.small_bytes (g_AppHash g) /\ Block_.small_bytes (g_Plugins g).
Definition validator_ok (v : Validator) : Prop :=
  Block_.small_bytes (val_Address v) /\ pk_ok (val_PubKey v) /\ is_i64 (val_VotingPower v) /\ is_i64 (val_Accum v).
Definition vset_ok (vs : ValidatorSet.t) : Prop :=
  Z.of_nat (length (ValidatorSet.Validators vs)) < 2 ^ 63 /\ Forall validator_ok (ValidatorSet.Validators vs).
Definition state_ok (s : State) : Prop :=
  gen_ok (st_GenesisDoc s) /\ Block_.small_bytes (st_ChainID s) /\ is_i64 (st_LastBlockHeight s) /\
  bid_ok (st_LastBlockID s) /\ time_ok (st_LastBlockTime s) /\ vset_ok (st_Validators s) /\
  vset_ok (st_LastValidators s) /\ is_i64 (st_LastNonEmptyHeight s) /\ Block_.small_bytes (st_AppHash s) /\
  Block_.small_bytes (st_ReceiptsHash s).

#[global] Instance pk_ok_dec pk : Decision (pk_ok pk).
Proof. destruct pk; simpl; apply _. Defined.
#[global] Instance gv_ok_dec g : Decision (gv_ok g).
Proof. unfold gv_ok, Block_.small_bytes, is_i64. apply _. Defined.
#[global] Instance validator_ok_dec v : Decision (validator_ok v).
Proof. unfold validator_ok, Block_.small_bytes, is_i64. apply _. Defined.
#[global] Instance state_ok_dec s : Decision (state_ok s).
Proof. unfold state_ok, gen_ok, vset_ok, time_ok, bid_ok, Block_.small_bytes, is_i64. apply _. Defined.

Lemma pk_wt pk o : pk_ok pk -> wt (pk_val pk) T_PubKey o false.
Proof.
  destruct pk as [bz|bz]; intros Hl; (split; [done|]); (split; [|by split]).
  - exists 1. done.
  - exists 2. done.
Qed.

Lemma slice_wt {B} (f : B -> gval) t (P : B -> Prop) l o :
  isUint8 t = false -> Z.of_nat (length l) < 2 ^ 63 -> Forall P l ->
  (forall b, P b -> wt (f b) t o false) -> wt (VList (map f l)) (TSlice t) o false.
Proof.
  intros Ht Hl Hp Hw. split; [done|]. split; [by rewrite length_map|].
  apply Block_.all_of_Forall, Forall_map. eapply Forall_impl; [exact Hp|exact Hw].
Qed.

Lemma gv_wt g o : gv_ok g -> wt (gv_val g) T_GenesisValidator o false.
Proof. intros (Hp & ? & ? & ?). pose proof (pk_wt _ noOpts Hp). by split_and!. Qed.

Lemma gen_wt g o : gen_ok g -> wt (gen_val g) T_GenesisDoc o true.
Proof.
  intros (? & ? & Hl & Hv & ? & ?).
  pose proof (slice_wt gv_val T_GenesisValidator gv_ok _ noOpts eq_refl Hl Hv (fun b => gv_wt b noOpts)).
  by split_and!.
Qed.

Lemma validator_wt v o : validator_ok v -> wt (VPtr (val_val v)) (TPtr T_Validator) o false.
Proof. intros (? & Hp & ? & ?). pose proof (pk_wt _ noOpts Hp). split; [done|]. by split_and!. Qed.

Lemma vset_wt vs o : vset_ok vs -> wt (VPtr (vset_val vs)) (TPtr T_ValidatorSet) o false.
Proof.
  intros [Hl Hv]. split; [done|]. split; [|done].
  exact (slice_wt (fun v => VPtr (val_val v)) (TPtr T_Validator) validator_ok _ noOpts eq_refl Hl Hv (fun b => validator_wt b noOpts)).
Qed.

Lemma state_wt s o : state_ok s -> wt (VPtr (state_val s)) (TPtr T_State) o false.
Proof.
  intros (Hg & ? & ? & Hb & ? & Hv & Hlv & ? & ? & ?). split; [done|].
  pose proof (bid_wt _ noOpts Hb). pose proof (vset_wt _ noOpts Hv). pose proof (vset_wt _ noOpts Hlv).
  assert (wt (VPtr (gen_val (st_GenesisDoc s))) (TPtr T_GenesisDoc) noOpts false) by (split; [done|]; by apply gen_wt).
  by split_and!.
Qed.

Lemma pk_of_val pk : pk_of (pk_val pk) = Some pk.
Proof. by destruct pk. Qed.

Lemma gen_of_val g : gen_of (gen_val g) = Some g.
Proof.
  destruct g as [t cid gvs ah pl]. unfold gen_of, gen_val. cbn [g_GenesisTime g_ChainID g_Validators g_AppHash g_Plugins].
  rewrite Block_.mapM_map; [done|]. intros []. unfold gv_of, gv_val. by rewrite pk_of_val.
Qed.

Lemma vset_of_val vs : vset_of (VPtr (vset_val vs)) = Some (stored_vset vs).
Proof.
  unfold vset_of, vset_val. rewrite Block_.mapM_map; [done|]. intros []. unfold validator_of, val_val.
  by rewrite pk_of_val.
Qed.

Lemma state_of_val s : state_of (VPtr (state_val s)) = Some (stored s).
Proof. unfold state_of, state_val. by rewrite gen_of_val, Block_.bid_of_val, !vset_of_val. Qed.

Lemma loadState_bytes s : state_ok s -> exists bz, state_bytes s = Ok bz /\ loadState bz = Ok (Some (stored s)).
Proof.
  intros Hs. destruct (BinaryBytes_codes _ _ (state_wt s noOpts Hs)) as (bz & E & Hr).
  exists bz. split; [exact E|]. specialize (Hr 0 [] 0 (or_introl eq_refl)). rewrite app_nil_r in Hr.
  unfold loadState. destruct bz as [|b0 bz].
  { unfold BinaryBytes, WriteBinary in E. cbn in Hr. done. }
  unfold ReadBinaryBytes, ReadBinaryPtr. rewrite Hr. cbn [rbind rn re failed Z.eqb negb andb].
  by rewrite state_of_val.
Qed.

Section Ops.
Context `{Crypto}.

Definition SetBlockAndValidators (s : State) (header : Header) (blockPartsHeader : PartSetHeader)
    (prevValSet nextValSet : ValidatorSet.t) : res State :=
  let nonEmptyHeight := if 0 <? h_NumTxs header then h_Height header else st_LastNonEmptyHeight s in
  let! hash := Block_.header_hash header in
  Ok (setBlockAndValidators s (h_Height header) nonEmptyHeight (mkBID hash blockPartsHeader) (h_Time header)
        prevValSet nextValSet).

(** The last call passes [s2.Validators.Copy()] and [s2.LastValidators.Copy()]
    in the places of [prevValSet] and [nextValSet]. *)
Definition LoadIntermediate (db : StateDB) (s : State) : res State :=
  let! s2 := loadState (sdb_intermediate db) in
  let! s2 := deref s2 in
  if negb (bytes_eqb (st_ChainID s) (st_ChainID s2)) then Panic
  else if negb (i64 (st_LastBlockHeight s + 1) =? st_LastBlockHeight s2) then Panic
  else
    let! h1 := ValidatorSet.Hash (st_Validators s) in
    let! h2 := ValidatorSet.Hash (st_LastValidators s2) in
    if negb (bytes_eqb h1 h2) then Panic
    else if negb (bytes_eqb (st_AppHash s) (st_AppHash s2)) then Panic
    else if negb (bytes_eqb (st_ReceiptsHash s) (st_ReceiptsHash s2)) then Panic
    else
      let! v := ValidatorSet.Copy (st_Validators s2) in
      let! lv := ValidatorSet.Copy (st_LastValidators s2) in
      Ok (setBlockAndValidators s (st_LastBlockHeight s2) (st_LastNonEmptyHeight s2) (st_LastBlockID s2)
            (st_LastBlockTime s2) v lv).

(** [time.Time{}.UnixNano()] *)
Definition zero_time : Z := -6795364578871345152.

(** A genesis document without validators ends the process. *)
Definition MakeGenesisState (now : Z) (g : GenesisDoc) : res State :=
  match g_Validators g with
  | [] => Panic
  | gvs =>
      let g := if g_GenesisTime g =? zero_time
               then mkGen now (g_ChainID g) (g_Validators g) (g_AppHash g) (g_Plugins g) else g in
      let vals := map (fun gv => mkVal (Address (gv_PubKey gv)) (gv_PubKey gv) (gv_Amount gv) 0 (gv_IsCA gv)) gvs in
      let! validatorSet := ValidatorSet.NewValidatorSet (Some vals) in
      let! lastValidatorSet := ValidatorSet.NewValidatorSet None in
      Ok (mkState g (g_ChainID g) 0 nilBlockID (g_GenesisTime g) validatorSet lastValidatorSet 0 (g_AppHash g) [])
  end.

(** [commitBitArrayFromBlock] *)
Fixpoint signed_bits (i : Z) (l : list (option Vote)) (ba : option BitArray.t) : res (option BitArray.t) :=
  match l with
  | [] => Ok ba
  | None :: l' => signed_bits (i + 1) l' ba
  | Some _ :: l' => let! (ba, _) := BitArray.SetIndex ba i true in signed_bits (i + 1) l' ba
  end.

Definition commitBitArrayFromBlock (b : Block) : res (option BitArray.t) :=
  let! c := deref (b_LastCommit b) in
  let! ba := BitArray.NewBitArray (Z.of_nat (length (c_Precommits c))) in
  signed_bits 0 (c_Precommits c) ba.

Section Exec.
Context {A : Type} `{BlockExecutable A}.

(** [blockVerifier.ValidateBlock]: [Ok false] is an error. *)
Variable verify : Block -> res bool.

(** The hook event carries the block's height; the log line after it reads
    [block.Data]. *)
Definition execBlockOnApp (app : A) (b : Block) : res (A * bool) :=
  let! _ := deref (b_Header b) in
  let (app, resErr) := be_HookExecute app b in
  let (app, err) := be_ExecBlock app b in
  if err || resErr then Ok (app, true)
  else let! _ := deref (b_Data b) in Ok (app, false).

Definition ExecBlock (app : A) (db : StateDB) (s : State) (b : Block) (blockPartsHeader : PartSetHeader)
    : res (option exec_err * A * StateDB * State) :=
  let! valid := verify b in
  if negb valid then Ok (Some ErrInvalidBlock, app, db, s)
  else
    let! _ := commitBitArrayFromBlock b in
    let! valSet := ValidatorSet.Copy (st_Validators s) in
    let! nextValSet := ValidatorSet.Copy valSet in
    let (app, err) := be_BeginBlock app b blockPartsHeader in
    if err then Ok (Some ErrApp, app, db, s)
    else
      let! (app, err) := execBlockOnApp app b in
      if err then Ok (Some ErrApp, app, db, s)
      else
        let '(app, nextValSet, err) := be_EndBlock app b blockPartsHeader nextValSet in
        if err then Ok (Some ErrApp, app, db, s)
        else
          let! nextValSet := ValidatorSet.IncrementAccum 1 nextValSet in
          let! header := deref (b_Header b) in
          let! s := SetBlockAndValidators s header blockPartsHeader valSet nextValSet in
          let! db := SaveIntermediate db s in
          Ok (None, app, db, s).

Definition CommitStateUpdateMempool (app : A) (s : State) (b : Block) : res (A * State) :=
  let! header := deref (b_Header b) in
  let! data := deref (b_Data b) in
  let app := be_MempoolUpdate app (h_Height header) (d_Txs data ++ d_ExTxs data) in
  let '(app, appHash, receiptsHash) := be_HookCommit app b in
  Ok (app, mkState (st_GenesisDoc s) (st_ChainID s) (st_LastBlockHeight s) (st_LastBlockID s) (st_LastBlockTime s)
             (st_Validators s) (st_LastValidators s) (st_LastNonEmptyHeight s) appHash receiptsHash).

Definition ApplyBlock (app : A) (db : StateDB) (s : State) (b : Block) (partsHeader : PartSetHeader)
    : res (option exec_err * A * StateDB * State) :=
  let! (err, app, db, s) := ExecBlock app db s b partsHeader in
  match err with
  | Some e => Ok (Some e, app, db, s)
  | None => let! (app, s) := CommitStateUpdateMempool app s b in Ok (None, app, db, s)
  end.

(** A block that was applied: the verifier accepted it, the application
    reported no error, and the state follows the block's header. *)
Lemma ApplyBlock_spec app db s b ph err app' db' s' :
  ApplyBlock app db s b ph = Ok (err, app', db', s') ->
  match err with
  | Some _ => s' = s /\ db' = db
  | None => verify b = Ok true /\
      exists h hash valSet nextValSet app1 app2 nvs si,
        b_Header b = Some h /\ Block_.header_hash h = Ok hash /\
        ValidatorSet.Copy (st_Validators s) = Ok valSet /\ ValidatorSet.Copy valSet = Ok nextValSet /\
        be_EndBlock app1 b ph nextValSet = (app2, nvs, false) /\
        ValidatorSet.IncrementAccum 1 nvs = Ok (st_Validators s') /\
        si = setBlockAndValidators s (h_Height h)
               (if 0 <? h_NumTxs h then h_Height h else st_LastNonEmptyHeight s) (mkBID hash ph) (h_Time h)
               valSet (st_Validators s') /\
        SaveIntermediate db si = Ok db' /\
        s' = mkState (st_GenesisDoc si) (st_ChainID si) (st_LastBlockHeight si) (st_LastBlockID si) (st_LastBlockTime si)
               (st_Validators si) (st_LastValidators si) (st_LastNonEmptyHeight si) (st_AppHash s') (st_ReceiptsHash s')
  end.
Proof using Type.
  unfold ApplyBlock, ExecBlock. intros E. destruct (verify b) as [[]|]; cbn [rbind negb] in E; [|by simplify_eq|done].
  destruct (commitBitArrayFromBlock b); cbn [rbind] in E; [|done].
  destruct (ValidatorSet.Copy (st_Validators s)) as [vs|] eqn:Ev; cbn [rbind] in E; [|done].
  destruct (ValidatorSet.Copy vs) as [nvs|] eqn:En; cbn [rbind] in E; [|done].
  destruct (be_BeginBlock app b ph) as [app1 [|]]; cbn [rbind] in E; [by simplify_eq|].
  destruct (execBlockOnApp app1 b) as [[app2 [|]]|]; cbn [rbind] in E; [by simplify_eq| |done].
  destruct (be_EndBlock app2 b ph nvs) as [[app3 nvs'] [|]] eqn:Ee; cbn [rbind] in E; [by simplify_eq|].
  destruct (ValidatorSet.IncrementAccum 1 nvs') as [nvs2|] eqn:Ei; cbn [rbind] in E; [|done].
  destruct (b_Header b) as [h|] eqn:Eh; cbn [rbind deref] in E; [|done].
  unfold SetBlockAndValidators in E. destruct (Block_.header_hash h) as [hash|] eqn:Ehash; cbn [rbind] in E; [|done].
  destruct (SaveIntermediate db _) as [db1|] eqn:Es in E; cbn [rbind] in E; [|done].
  unfold CommitStateUpdateMempool in E. rewrite Eh in E. cbn [rbind deref] in E.
  destruct (b_Data b); cbn [rbind deref] in E; [|done].
  destruct (be_HookCommit _ b) as [[app4 ah] rh]. cbn [rbind] in E. simplify_eq.
  split; [done|]. by eexists h, hash, vs, nvs, app2, app3, nvs', _.
Qed.

End Exec.


(** After a block was applied and the process stopped before the state was
    saved, [LoadIntermediate] restores the height and the block but swaps the
    validator sets: the current validators become those that were to be the
    last ones, and the validators of the next height become the last ones. *)
Theorem load_intermediate_swaps {A : Type} `{BlockExecutable A} verify app db s b ph app' db' s1 s' :
  ApplyBlock verify app db s b ph = Ok (None, app', db', s1) ->
  state_ok s -> state_ok s1 ->
  LoadIntermediate db' s = Ok s' ->
  st_LastBlockHeight s' = st_LastBlockHeight s1 /\ st_LastBlockID s' = st_LastBlockID s1 /\
  ValidatorSet.Validators (st_Validators s') = ValidatorSet.Validators (st_LastValidators s1) /\
  ValidatorSet.Validators (st_LastValidators s') = ValidatorSet.Validators (st_Validators s1).
Proof using Type.
  intros Happ Hok Hok1 E. apply ApplyBlock_spec in Happ.
  destruct Happ as (_ & h & hash & vs & nvs & app1 & app2 & nv & si & _ & _ & _ & _ & _ & _ & Hsi & Hsave & Hs1).
  assert (state_ok si) as Hoki by (rewrite Hs1 in Hok1; subst si; unfold state_ok in *; naive_solver).
  unfold SaveIntermediate in Hsave. destruct (state_bytes si) as [bz|] eqn:Eb; cbn [rbind] in Hsave; [|done].
  injection Hsave as <-. destruct (loadState_bytes si Hoki) as (bz' & Eb' & Hl).
  rewrite Eb in Eb'. injection Eb' as <-.
  unfold LoadIntermediate in E. cbn [sdb_intermediate] in E. rewrite Hl in E. cbn [rbind deref] in E.
  destruct (negb _); [done|]. destruct (negb _); [done|].
  destruct (ValidatorSet.Hash (st_Validators s)); cbn [rbind] in E; [|done].
  destruct (ValidatorSet.Hash (st_LastValidators (stored si))); cbn [rbind] in E; [|done].
  destruct (negb _); [done|]. destruct (negb _); [done|]. destruct (negb _); [done|].
  cbn in E. injection E as <-. rewrite Hs1. done.
Qed.

End Ops.
End ChainState.

(** ** A sample chain *)
#[local] Instance quiet_app : BlockExecutable unit := {
  be_BeginBlock _ _ _ := (tt, false);
  be_HookExecute _ _ := (tt, false);
  be_ExecBlock _ _ := (tt, false);
  be_EndBlock _ _ _ vs := (tt, vs, false);
  be_MempoolUpdate _ _ _ := tt;
  be_HookCommit _ _ := (tt, [21], [22])
}.

Definition sample_genesis : GenesisDoc :=
  mkGen 7000000 VoteSet.sample_chain [mkGV (PubKeyEd25519 (VoteSet.sample_key 1)) 10 [65] true []] [9] [].
Definition sample_state : State :=
  mkState sample_genesis VoteSet.sample_chain 0 nilBlockID 7000000 VoteSet.sample_vset (ValidatorSet.mk [] None 0)
    0 [9] [10].

Definition sample_applied : res (option exec_err * unit * StateDB * State) :=
  @ChainState.ApplyBlock sample_crypto unit quiet_app (fun _ => Ok true) tt (mkSDB [] []) sample_state
    Block_.sample_block (mkPSH 1 [5]).
Definition sample_db : StateDB := match sample_applied with Ok (_, _, db, _) => db | Panic => mkSDB [] [] end.
Definition sample_state1 : State := match sample_applied with Ok (_, _, _, s) => s | Panic => sample_state end.
Definition sample_loaded : State :=
  match @ChainState.LoadIntermediate sample_crypto sample_db sample_state with Ok s => s | Panic => sample_state end.

Lemma sample_state_ok : ChainState.state_ok sample_state /\ ChainState.state_ok sample_state1.
Proof.
  split.
  - apply (bool_decide_eq_true_1 (ChainState.state_ok sample_state)). vm_compute. reflexivity.
  - apply (bool_decide_eq_true_1 (ChainState.state_ok sample_state1)). vm_compute. reflexivity.
Qed.


Lemma load_intermediate_swaps_witness :
  st_LastBlockHeight sample_loaded = 1 /\
  map val_Accum (ValidatorSet.Validators (st_Validators sample_state1)) = [-3; 1; 1; 1] /\
  map val_Accum (ValidatorSet.Validators (st_Validators sample_loaded)) = [0; 0; 0; 0].
Proof.
  destruct (@ChainState.load_intermediate_swaps sample_crypto unit quiet_app (fun _ => Ok true) tt (mkSDB [] [])
    sample_state Block_.sample_block (mkPSH 1 [5]) tt sample_db sample_state1 sample_loaded) as (Hh & _ & Hv & _).
  - vm_compute. reflexivity.
  - exact (proj1 sample_state_ok).
  - exact (proj2 sample_state_ok).
  - vm_compute. reflexivity.
  - rewrite Hh, Hv. split_and!; vm_compute; reflexivity.
Defined.
