(* ===== verification/Locking.v ===== *)
(** * The locking discipline of a validator, at one height

    The specification that the consensus state machine implements: where a
    validator is in a height, what it is locked on, which votes it sent and
    what it decided.  [polka r B] and [commit_quorum r B] stand for a signed
    majority of the prevotes and of the precommits of round [r] for [B].  The
    invariant below is all that agreement needs of a correct validator. *)
From S2P Require Import Prelude Types.

Module Locking.

Record avote := mkAV { av_Round : Z; av_Type : Z; av_BlockID : BlockID }.

Record t := mk {
  round : Z;
  step : Z;
  lock : option (Z * bytes);
  sent : list avote;
  decided : option BlockID
}.

(** The steps from which a prevote and a precommit can still be sent; the
    numbers are those of the round steps of the code. *)
Definition prevoted : Z := 4.
Definition no_prevote : Z := 5.
Definition precommitted : Z := 6.

Section Machine.
Context (polka commit_quorum : Z -> BlockID -> Prop).

Inductive astep : t -> t -> Prop :=
| a_advance r s r' s' lk sent :
    r < r' \/ (r = r' /\ s <= s') -> astep (mk r s lk sent None) (mk r' s' lk sent None)
| a_prevote r s lk sent B :
    s < prevoted -> (forall lr x, lk = Some (lr, x) -> bid_Hash B = x) ->
    astep (mk r s lk sent None) (mk r prevoted lk (sent ++ [mkAV r VoteTypePrevote B]) None)
| a_precommit_nil r s lk sent B :
    s < precommitted -> bid_Hash B = [] ->
    astep (mk r s lk sent None) (mk r precommitted lk (sent ++ [mkAV r VoteTypePrecommit B]) None)
| a_precommit_lock r s lk sent B (voted : bool) :
    s < precommitted -> polka r B -> bid_Hash B <> [] ->
    astep (mk r s lk sent None)
      (mk r precommitted (Some (r, bid_Hash B))
         (if voted then sent ++ [mkAV r VoteTypePrecommit B] else sent) None)
| a_unlock r s lr x sent r' C :
    polka r' C -> bid_Hash C <> x -> lr < r' <= r ->
    astep (mk r s (Some (lr, x)) sent None)
      (mk r (if r' =? r then Z.max s no_prevote else s) None sent None)
| a_decide r s lk sent rc B :
    commit_quorum rc B -> bid_Hash B <> [] -> astep (mk r s lk sent None) (mk r s lk sent (Some B)).

(** ** The invariant *)
(** A polka for another block than [hash], after round [r] and before [r']. *)
Definition released (r r' : Z) (hash : bytes) : Prop :=
  exists k C, r < k < r' /\ polka k C /\ bid_Hash C <> hash.

(** The first round in which no prevote can be sent any more. *)
Definition bar (a : t) : Z := if step a <? no_prevote then round a else round a + 1.

Definition sent_at (a : t) (v : avote) : Prop :=
  av_Round v < round a \/
  (av_Round v = round a /\
   (av_Type v = VoteTypePrevote /\ prevoted <= step a \/ av_Type v = VoteTypePrecommit /\ precommitted <= step a)).

Record inv (a : t) : Prop := {
  inv_sent : forall v, v ∈ sent a -> sent_at a v;
  inv_once : forall v w, v ∈ sent a -> w ∈ sent a -> av_Round v = av_Round w -> av_Type v = av_Type w -> v = w;
  inv_lock : forall lr x, lock a = Some (lr, x) -> lr < round a \/ (lr = round a /\ precommitted <= step a);
  inv_precommit : forall v, v ∈ sent a -> av_Type v = VoteTypePrecommit -> bid_Hash (av_BlockID v) <> [] ->
    polka (av_Round v) (av_BlockID v);
  inv_held : forall v, v ∈ sent a -> av_Type v = VoteTypePrecommit -> bid_Hash (av_BlockID v) <> [] ->
    (exists lr, lock a = Some (lr, bid_Hash (av_BlockID v)) /\ av_Round v <= lr) \/
    released (av_Round v) (bar a) (bid_Hash (av_BlockID v));
  inv_prevote : forall v w, v ∈ sent a -> w ∈ sent a ->
    av_Type v = VoteTypePrecommit -> av_Type w = VoteTypePrevote -> bid_Hash (av_BlockID v) <> [] ->
    av_Round v < av_Round w ->
    bid_Hash (av_BlockID w) = bid_Hash (av_BlockID v) \/
    released (av_Round v) (av_Round w) (bid_Hash (av_BlockID v));
  inv_decided : forall B, decided a = Some B -> bid_Hash B <> [] /\ exists r, commit_quorum r B
}.

Lemma inv_init : inv (mk 0 1 None [] None).
Proof using Type. split; simpl; try done; intros; set_solver. Qed.

Lemma released_le r r1 r2 x : r1 <= r2 -> released r r1 x -> released r r2 x.
Proof using Type. intros Hr (k & C & ? & ? & ?). exists k, C. split; [lia|done]. Qed.

(** *** One more vote *)
Ltac votes := repeat match goal with
  | H : _ ∈ ?l ++ [_] |- _ => apply elem_of_app in H as [H|H]; [|apply list_elem_of_singleton in H; subst]
  end.

Lemma advance_inv r s r' s' lk l :
  r < r' \/ (r = r' /\ s <= s') -> inv (mk r s lk l None) -> inv (mk r' s' lk l None).
Proof using Type.
  intros Hadv [Hs Ho Hl Hp Hh Hv _]. split; simpl in *; try done.
  - intros v Hin. specialize (Hs v Hin). unfold sent_at in *. simpl in *. lia.
  - intros lr x E. specialize (Hl lr x E). lia.
  - intros v Hin Ht Hn. destruct (Hh v Hin Ht Hn) as [?|Hr]; [by left|right]. eapply released_le; [|exact Hr].
    unfold bar. simpl. destruct (Z.ltb_spec s no_prevote), (Z.ltb_spec s' no_prevote); lia.
Qed.

(** A vote of the current round is a new one. *)
Lemma fresh_once r s lk l v :
  inv (mk r s lk l None) -> ~ sent_at (mk r s lk l None) v ->
  forall x y, x ∈ l ++ [v] -> y ∈ l ++ [v] -> av_Round x = av_Round y -> av_Type x = av_Type y -> x = y.
Proof using Type.
  intros Hi Hf x y [Hx|Hx]%elem_of_app [Hy|Hy]%elem_of_app Er Et;
    rewrite ?list_elem_of_singleton in *; subst; try done; [by apply (inv_once _ Hi)|exfalso; apply Hf..].
  - pose proof (inv_sent _ Hi x Hx) as Hsx. unfold sent_at in *. by rewrite <- Er, <- Et.
  - pose proof (inv_sent _ Hi y Hy) as Hsx. unfold sent_at in *. by rewrite Er, Et.
Qed.

Lemma prevote_inv r s lk l B :
  s < prevoted -> (forall lr x, lk = Some (lr, x) -> bid_Hash B = x) ->
  inv (mk r s lk l None) -> inv (mk r prevoted lk (l ++ [mkAV r VoteTypePrevote B]) None).
Proof using Type.
  intros Hs Hlock Hi. pose proof (advance_inv r s r prevoted lk l ltac:(lia) Hi) as Ha.
  assert (~ sent_at (mk r s lk l None) (mkAV r VoteTypePrevote B)) as Hf.
  { unfold sent_at, prevoted, precommitted, VoteTypePrevote, VoteTypePrecommit in *. simpl. lia. }
  split; simpl; [| |by apply Ha| | | |done].
  - intros v Hv. votes; [by apply (inv_sent _ Ha)|]. right. simpl. auto with lia.
  - eapply fresh_once; [exact Hi|exact Hf].
  - intros v Hv Ht Hn. votes; [by apply (inv_precommit _ Ha)|done].
  - intros v Hv Ht Hn. votes; [by apply (inv_held _ Ha)|done].
  - intros v w Hv Hw Htv Htw Hn Hlt. votes; try done; [by apply (inv_prevote _ Ha)|]. simpl in *.
    destruct (inv_held _ Hi v Hv Htv Hn) as [(lr & E & _)|Hr]; simpl in *.
    + left. by apply (Hlock lr).
    + right. unfold bar in Hr. simpl in Hr. unfold prevoted, no_prevote in *.
      destruct (Z.ltb_spec s 5); [done|lia].
Qed.

(** A precommit, with the lock it leaves. *)
Lemma precommit_inv r s lk lk' l B (voted : bool) :
  s < precommitted -> inv (mk r s lk l None) ->
  (bid_Hash B <> [] -> polka r B /\ lk' = Some (r, bid_Hash B)) ->
  (forall lr x, lk' = Some (lr, x) -> lk' = lk \/ lr = r) ->
  (forall lr x, lk = Some (lr, x) -> lk' = lk \/ lk' = Some (r, x) \/ exists C, polka r C /\ bid_Hash C <> x) ->
  inv (mk r precommitted lk' (if voted then l ++ [mkAV r VoteTypePrecommit B] else l) None).
Proof using Type.
  intros Hs Hi HB Hlk' Hlk. pose proof (advance_inv r s r precommitted lk l ltac:(lia) Hi) as Ha.
  assert (~ sent_at (mk r s lk l None) (mkAV r VoteTypePrecommit B)) as Hf.
  { unfold sent_at, prevoted, precommitted, VoteTypePrevote, VoteTypePrecommit in *. simpl. lia. }
  set (l' := if voted then l ++ [mkAV r VoteTypePrecommit B] else l).
  assert (forall v, v ∈ l' -> v ∈ l \/ v = mkAV r VoteTypePrecommit B) as Hl'.
  { intros v. unfold l'. destruct voted; [rewrite elem_of_app, list_elem_of_singleton; tauto|by left]. }
  split; simpl; try done.
  - intros v [Hv| ->]%Hl'; [by apply (inv_sent _ Ha)|]. right. simpl. auto with lia.
  - intros v w Hv Hw. unfold l' in *. destruct voted; [|by apply (inv_once _ Hi)]. by apply (fresh_once r s lk l _ Hi Hf).
  - intros lr x E. destruct (Hlk' lr x E) as [->| ->]; [by apply (inv_lock _ Ha) in E|right; lia].
  - intros v [Hv| ->]%Hl' Ht Hn; [by apply (inv_precommit _ Ha)|]. by apply HB.
  - intros v [Hv| ->]%Hl' Ht Hn; [|left; exists r; destruct (HB Hn) as [_ ->]; split; [done|simpl; lia]].
    unfold bar. simpl. assert (av_Round v <= r) as Hle.
    { pose proof (inv_sent _ Hi v Hv) as Hsv. unfold sent_at in Hsv. simpl in Hsv. lia. }
    destruct (inv_held _ Ha v Hv Ht Hn) as [(lr & E & Hge)|Hr]; [|by right]. simpl in E.
    pose proof (inv_lock _ Hi lr _ E) as Hlr. simpl in Hlr.
    destruct (Hlk lr _ E) as [->|[->|(C & HC & Hne)]]; [left; eauto..|right].
    exists r, C. split; [lia|done].
  - intros v w [Hv| ->]%Hl' [Hw| ->]%Hl' Htv Htw Hn Hlt; try done; [by apply (inv_prevote _ Ha)|]. exfalso.
    pose proof (inv_sent _ Hi w Hw) as Hsw. unfold sent_at in Hsw. simpl in *. lia.
Qed.

Lemma unlock_inv r s lr x l r' C :
  polka r' C -> bid_Hash C <> x -> lr < r' <= r -> inv (mk r s (Some (lr, x)) l None) ->
  inv (mk r (if r' =? r then Z.max s no_prevote else s) None l None).
Proof using Type.
  intros HC Hx Hr Hi. set (s' := if r' =? r then Z.max s no_prevote else s).
  assert (s <= s') as Hs' by (unfold s'; destruct (_ =? _); lia).
  pose proof (advance_inv r s r s' _ l ltac:(lia) Hi) as Ha.
  split; simpl; try done; try apply Ha.
  intros v Hv Ht Hn. right. destruct (inv_held _ Ha v Hv Ht Hn) as [(lr' & E & Hge)|Hrel]; [|done].
  simpl in E. injection E as <- <-. exists r', C. split; [|done]. unfold bar, s', no_prevote. simpl.
  destruct (Z.eqb_spec r' r), (Z.ltb_spec s 5), (Z.ltb_spec (Z.max s 5) 5); lia.
Qed.

Lemma astep_inv a a' : astep a a' -> inv a -> inv a'.
Proof using Type.
  destruct 1 as [r s r' s' lk l Hadv|r s lk l B Hs Hl|r s lk l B Hs HB|r s lk l B voted Hs HP HB
                |r s lr x l r' C HP Hx Hr|r s lk l rc B HC HB]; intros Hi.
  - by eapply advance_inv.
  - by eapply prevote_inv.
  - apply (precommit_inv r s lk lk l B true); auto. done.
  - apply (precommit_inv r s lk _ l B voted); auto; [naive_solver|].
    intros lr x ->. destruct (decide (bid_Hash B = x)) as [->|]; [auto|]. right. right. eauto.
  - by eapply unlock_inv.
  - destruct Hi. split; simpl in *; try done. intros ? [= <-]. eauto.
Qed.

Lemma rtc_inv a a' : rtc astep a a' -> inv a -> inv a'.
Proof using Type. induction 1; eauto using astep_inv. Qed.

End Machine.
End Locking.
