(* ===== verification/Consensus.v ===== *)
(** * gemmill/consensus/pbft/state.go and ticker.go: the consensus state machine

    [ConsensusState] is driven by one goroutine: a message from a peer, one of
    its own messages, or a timeout is handled to the end before the next one,
    so each handler is a function from a state to a state, and [Panic] where
    the process stops.  What a handler sends to itself and the timeouts it
    schedules are appended to the state; the write-ahead log, the events for
    other goroutines and the log lines are not modelled. *)
From S2P Require Import Prelude BitArray Wire WireReflect Types SimpleTree SignBytes Validators VoteSets HeightVotes.
From S2P Require Import PrivVal PartSets Blocks Store ChainState.

(** ** Timeouts *)
Record TimeoutParams := mkTP {
  Propose0 : Z;
  ProposeDelta : Z;
  Prevote0 : Z;
  PrevoteDelta : Z;
  Precommit0 : Z;
  PrecommitDelta : Z;
  Commit0 : Z;
  SkipTimeoutCommit : bool
}.

(** A [time.Duration] is an int64 of nanoseconds. *)
Definition milliseconds (z : Z) : Z := i64 (z * 1000000).
Definition tp_Propose (tp : TimeoutParams) (round : Z) : Z :=
  milliseconds (i64 (Propose0 tp + i64 (ProposeDelta tp * round))).
Definition tp_Prevote (tp : TimeoutParams) (round : Z) : Z :=
  milliseconds (i64 (Prevote0 tp + i64 (PrevoteDelta tp * round))).
Definition tp_Precommit (tp : TimeoutParams) (round : Z) : Z :=
  milliseconds (i64 (Precommit0 tp + i64 (PrecommitDelta tp * round))).
Definition tp_Commit (tp : TimeoutParams) (t : Z) : Z := t + milliseconds (Commit0 tp).

(** [Time.Sub] saturates. *)
Definition time_Sub (t u : Z) : Z := Z.max (- 2 ^ 63) (Z.min (2 ^ 63 - 1) (t - u)).

(** ** Steps of a round *)
Definition RoundStepNewHeight : Z := 1.
Definition RoundStepNewRound : Z := 2.
Definition RoundStepPropose : Z := 3.
Definition RoundStepPrevote : Z := 4.
Definition RoundStepPrevoteWait : Z := 5.
Definition RoundStepPrecommit : Z := 6.
Definition RoundStepPrecommitWait : Z := 7.
Definition RoundStepCommit : Z := 8.

Definition CompareHRS (h1 r1 s1 h2 r2 s2 : Z) : Z :=
  if h1 <? h2 then -1 else if h2 <? h1 then 1
  else if r1 <? r2 then -1 else if r2 <? r1 then 1
  else if s1 <? s2 then -1 else if s2 <? s1 then 1
  else 0.

(** ** Messages *)
(** The pointers in a message may be nil. *)
Inductive ConsensusMessage :=
| ProposalMessage (p : option Proposal)
| BlockPartMessage (height round : Z) (part : option Part)
| VoteMessage (v : option Vote).

Record msgInfo := mkMsg { mi_Msg : ConsensusMessage; mi_PeerKey : bytes }.

Record timeoutInfo := mkTI { ti_Duration : Z; ti_Height : Z; ti_Round : Z; ti_Step : Z }.

(** ** ticker.go: whether [timeoutRoutine] replaces the running timer *)
Definition ticker_accepts (ti newti : timeoutInfo) : bool :=
  if ti_Height newti <? ti_Height ti then false
  else if ti_Height newti =? ti_Height ti then
    if ti_Round newti <? ti_Round ti then false
    else if ti_Round newti =? ti_Round ti then negb ((0 <? ti_Step ti) && (ti_Step newti <=? ti_Step ti))
    else true
  else true.

(** ** What the state machine calls *)
(** The [PrivValidator] interface: [None] is an error. *)
Class PrivValidatorOps (PV : Type) := {
  pv_GetAddress : PV -> bytes;
  pv_SignVote : PV -> bytes -> Vote -> res (option Vote * PV);
  pv_SignProposal : PV -> bytes -> Proposal -> res (option Proposal * PV)
}.

(** The application, its plugins and the mempool. *)
Class ConsensusApp (A : Type) := {
  ca_exec :: BlockExecutable A;
  ca_Reap : A -> Z -> A * list bytes;
  ca_HookNewRound : A -> Z -> Z -> A;
  ca_HookPrevote : A -> Z -> Z -> option Block -> A;
  ca_HookPrecommit : A -> Z -> Z -> option Block -> A
}.

Record Config := mkConfig {
  cfg_chain_id : bytes;
  cfg_block_size : Z;
  cfg_block_part_size : Z;
  cfg_timeouts : TimeoutParams
}.

(** admin_op.go: [IsAdminOP] *)
Definition AdminTag : bytes := of_string "zaop".
Definition IsAdminOP (tx : bytes) : bool := bytes_eqb (take (length AdminTag) tx) AdminTag.

(** ** The state *)
(** A part set is shared by the proposal and the lock: it is an index into
    the heap [partsHeap] below. *)
Record RoundState := mkRS {
  Height : Z;
  Round : Z;
  Step : Z;
  StartTime : Z;
  CommitTime : Z;
  Validators : ValidatorSet.t;
  Proposal_ : option Proposal;
  ProposalBlock : option Block;
  ProposalBlockParts : option nat;
  LockedRound : Z;
  LockedBlock : option Block;
  LockedBlockParts : option nat;
  Votes : HeightVoteSet.t;
  CommitRound : Z;
  LastCommit : option VoteSet.t;
  LastValidators : ValidatorSet.t
}.

Definition rs_step (round step : Z) (r : RoundState) : RoundState :=
  mkRS (Height r) round step (StartTime r) (CommitTime r) (Validators r) (Proposal_ r) (ProposalBlock r)
    (ProposalBlockParts r) (LockedRound r) (LockedBlock r) (LockedBlockParts r) (Votes r) (CommitRound r)
    (LastCommit r) (LastValidators r).
Definition rs_validators (v : ValidatorSet.t) (r : RoundState) : RoundState :=
  mkRS (Height r) (Round r) (Step r) (StartTime r) (CommitTime r) v (Proposal_ r) (ProposalBlock r)
    (ProposalBlockParts r) (LockedRound r) (LockedBlock r) (LockedBlockParts r) (Votes r) (CommitRound r)
    (LastCommit r) (LastValidators r).
Definition rs_proposal (p : option Proposal) (b : option Block) (ps : option nat) (r : RoundState) : RoundState :=
  mkRS (Height r) (Round r) (Step r) (StartTime r) (CommitTime r) (Validators r) p b ps (LockedRound r)
    (LockedBlock r) (LockedBlockParts r) (Votes r) (CommitRound r) (LastCommit r) (LastValidators r).
Definition rs_locked (round : Z) (b : option Block) (ps : option nat) (r : RoundState) : RoundState :=
  mkRS (Height r) (Round r) (Step r) (StartTime r) (CommitTime r) (Validators r) (Proposal_ r) (ProposalBlock r)
    (ProposalBlockParts r) round b ps (Votes r) (CommitRound r) (LastCommit r) (LastValidators r).
Definition rs_votes (v : HeightVoteSet.t) (r : RoundState) : RoundState :=
  mkRS (Height r) (Round r) (Step r) (StartTime r) (CommitTime r) (Validators r) (Proposal_ r) (ProposalBlock r)
    (ProposalBlockParts r) (LockedRound r) (LockedBlock r) (LockedBlockParts r) v (CommitRound r) (LastCommit r)
    (LastValidators r).
Definition rs_commit (round time : Z) (r : RoundState) : RoundState :=
  mkRS (Height r) (Round r) (Step r) (StartTime r) time (Validators r) (Proposal_ r) (ProposalBlock r)
    (ProposalBlockParts r) (LockedRound r) (LockedBlock r) (LockedBlockParts r) (Votes r) round (LastCommit r)
    (LastValidators r).
Definition rs_lastCommit (v : option VoteSet.t) (r : RoundState) : RoundState :=
  mkRS (Height r) (Round r) (Step r) (StartTime r) (CommitTime r) (Validators r) (Proposal_ r) (ProposalBlock r)
    (ProposalBlockParts r) (LockedRound r) (LockedBlock r) (LockedBlockParts r) (Votes r) (CommitRound r) v
    (LastValidators r).

Inductive validate_err :=
| VErrBasic (e : block_err)
| VErrCommit (e : block_err)
| VErrProposer
| VErrFirstCommit
| VErrCommitSize
| VErrVerify (e : verify_err).

Inductive msg_err :=
| ErrInvalidProposalSignature
| ErrInvalidProposalPOLRound
| ErrVoteHeightMismatch
| ErrVote (e : vote_err)
| ErrAddingVote
| ErrPart (e : part_err).

Module Consensus.
Section Ops.
Context `{Crypto} {A PV : Type} `{ConsensusApp A} `{PrivValidatorOps PV} (cfg : Config).

(** [internalMsgs] and [timeouts] are all the messages sent and all the
    timeouts scheduled so far, oldest first. *)
Record CS := mkCS {
  rs : RoundState;
  state : State;
  blockStore : BlockStore.t;
  stateDB : StateDB;
  app : A;
  privValidator : option PV;
  partsHeap : list PartSet.t;
  internalMsgs : list msgInfo;
  timeouts : list timeoutInfo;
  nSteps : Z
}.

Definition with_rs (f : RoundState -> RoundState) (cs : CS) : CS :=
  mkCS (f (rs cs)) (state cs) (blockStore cs) (stateDB cs) (app cs) (privValidator cs) (partsHeap cs)
    (internalMsgs cs) (timeouts cs) (nSteps cs).
Definition with_app (a : A) (cs : CS) : CS :=
  mkCS (rs cs) (state cs) (blockStore cs) (stateDB cs) a (privValidator cs) (partsHeap cs) (internalMsgs cs)
    (timeouts cs) (nSteps cs).
Definition with_pv (pv : option PV) (cs : CS) : CS :=
  mkCS (rs cs) (state cs) (blockStore cs) (stateDB cs) (app cs) pv (partsHeap cs) (internalMsgs cs) (timeouts cs)
    (nSteps cs).
Definition with_heap (hp : list PartSet.t) (cs : CS) : CS :=
  mkCS (rs cs) (state cs) (blockStore cs) (stateDB cs) (app cs) (privValidator cs) hp (internalMsgs cs) (timeouts
    cs) (nSteps cs).
Definition sendInternalMessage (mi : msgInfo) (cs : CS) : CS :=
  mkCS (rs cs) (state cs) (blockStore cs) (stateDB cs) (app cs) (privValidator cs) (partsHeap cs) (internalMsgs cs
    ++ [mi]) (timeouts cs) (nSteps cs).
Definition schedule (ti : timeoutInfo) (cs : CS) : CS :=
  mkCS (rs cs) (state cs) (blockStore cs) (stateDB cs) (app cs) (privValidator cs) (partsHeap cs) (internalMsgs
    cs) (timeouts cs ++ [ti]) (nSteps cs).
Definition newStep (cs : CS) : CS :=
  mkCS (rs cs) (state cs) (blockStore cs) (stateDB cs) (app cs) (privValidator cs) (partsHeap cs) (internalMsgs
    cs) (timeouts cs) (nSteps cs + 1).
Definition with_storage (st : BlockStore.t) (db : StateDB) (cs : CS) : CS :=
  mkCS (rs cs) (state cs) st db (app cs) (privValidator cs) (partsHeap cs) (internalMsgs cs) (timeouts cs) (nSteps
    cs).
Definition with_state (s : State) (cs : CS) : CS :=
  mkCS (rs cs) s (blockStore cs) (stateDB cs) (app cs) (privValidator cs) (partsHeap cs) (internalMsgs cs)
    (timeouts cs) (nSteps cs).
Definition set_rs (r : RoundState) (cs : CS) : CS := with_rs (fun _ => r) cs.

(** ** The parts behind a pointer *)
Definition parts_at (cs : CS) (p : option nat) : option PartSet.t :=
  match p with None => None | Some i => partsHeap cs !! i end.
Definition new_parts (ps : PartSet.t) (cs : CS) : nat * CS :=
  (length (partsHeap cs), with_heap (partsHeap cs ++ [ps]) cs).

Definition updateRoundStep (round step : Z) (cs : CS) : CS := with_rs (rs_step round step) cs.

Definition scheduleTimeout (duration height round step : Z) (cs : CS) : CS :=
  schedule (mkTI duration height round step) cs.
Definition scheduleRound0 (now : Z) (cs : CS) : CS :=
  scheduleTimeout (time_Sub (StartTime (rs cs)) now) (Height (rs cs)) 0 RoundStepNewHeight cs.

(** ** Validation of a block, against the state below the height *)
Definition ValidateBlock (s : State) (b : Block) : res (option validate_err) :=
  let! e := Block_.ValidateBasic b (st_ChainID s) (st_LastBlockHeight s) (st_LastBlockID s) (st_AppHash s)
              (st_ReceiptsHash s) in
  match e with
  | Some e => Ok (Some (VErrBasic e))
  | None =>
      let! e := Block_.ValidateCommit b in
      match e with
      | Some e => Ok (Some (VErrCommit e))
      | None =>
          let! h := deref (b_Header b) in
          let! c := deref (b_LastCommit b) in
          if negb (ValidatorSet.HasAddress (st_Validators s) (h_ProposerAddress h)) then Ok (Some VErrProposer)
          else if h_Height h =? 1 then
            if negb (length (c_Precommits c) =? 0)%nat then Ok (Some VErrFirstCommit) else Ok None
          else if negb (Z.of_nat (length (c_Precommits c)) =? ValidatorSet.Size (st_LastValidators s))
          then Ok (Some VErrCommitSize)
          else
            let! e := VerifyCommit (st_LastValidators s) (st_ChainID s) (st_LastBlockID s) (i64 (h_Height h - 1)) c in
            Ok (match e with Some e => Some (VErrVerify e) | None => None end)
      end
  end.

(** [cs.state.ValidateBlock]: the state's verifier is the consensus state. *)
Definition block_valid (cs : CS) (b : Block) : res bool :=
  let! e := ValidateBlock (state cs) b in Ok (match e with None => true | Some _ => false end).

(** ** Signing *)
Definition signVote (pv : PV) (type_ : Z) (hash : bytes) (header : PartSetHeader) (cs : CS)
    : res (option Vote * CS) :=
  let addr := pv_GetAddress pv in
  let (valIndex, _) := ValidatorSet.GetByAddress (Validators (rs cs)) addr in
  let vote := mkVote addr valIndex (Height (rs cs)) (Round (rs cs)) type_ (mkBID hash header) None in
  let! (vote, pv) := pv_SignVote pv (st_ChainID (state cs)) vote in
  Ok (vote, with_pv (Some pv) cs).

Definition signAddVote (type_ : Z) (hash : bytes) (header : PartSetHeader) (cs : CS) : res CS :=
  match privValidator cs with
  | None => Ok cs
  | Some pv =>
      if negb (ValidatorSet.HasAddress (Validators (rs cs)) (pv_GetAddress pv)) then Ok cs
      else
        let! (vote, cs) := signVote pv type_ hash header cs in
        match vote with
        | Some v => Ok (sendInternalMessage (mkMsg (VoteMessage (Some v)) []) cs)
        | None => Ok cs
        end
  end.

(** ** Proposing *)
Definition isProposalComplete (cs : CS) : bool :=
  match Proposal_ (rs cs), ProposalBlock (rs cs) with
  | Some p, Some _ =>
      if p_POLRound p <? 0 then true
      else VoteSet.HasTwoThirdsMajority (HeightVoteSet.Prevotes (Votes (rs cs)) (p_POLRound p))
  | _, _ => false
  end.

Definition createProposalBlock (now : Z) (pv : PV) (cs : CS) : res (option (Block * PartSet.t) * CS) :=
  let! commit :=
    if Height (rs cs) =? 1 then Ok (Some (mkCommit nilBlockID []))
    else if VoteSet.HasTwoThirdsMajority (LastCommit (rs cs)) then
      let! lc := deref (LastCommit (rs cs)) in let! c := MakeCommit lc in Ok (Some c)
    else Ok None in
  match commit with
  | None => Ok (None, cs)
  | Some commit =>
      let (app, alltxs) := ca_Reap (app cs) (cfg_block_size cfg) in
      let cs := with_app app cs in
      let extxs := List.filter IsAdminOP alltxs in
      let txs := List.filter (fun tx => negb (IsAdminOP tx)) alltxs in
      let s := state cs in
      let! valHash := ValidatorSet.Hash (st_Validators s) in
      let! bp := Block_.MakeBlock now (Height (rs cs)) (st_ChainID s) txs extxs (Some commit) (pv_GetAddress pv)
                   (st_LastBlockID s) valHash (st_AppHash s) (st_ReceiptsHash s) (cfg_block_part_size cfg) in
      Ok (Some bp, cs)
  end.

(** The loop that sends the parts of the proposal to oneself. *)
Fixpoint send_parts (n : nat) (i : Z) (ps : PartSet.t) (cs : CS) : res CS :=
  match n with
  | O => Ok cs
  | S n' =>
      let! part := PartSet.GetPart ps i in
      send_parts n' (i + 1) ps
        (sendInternalMessage (mkMsg (BlockPartMessage (Height (rs cs)) (Round (rs cs)) part) []) cs)
  end.

Definition send_all_parts (ps : option PartSet.t) (cs : CS) : res CS :=
  match ps with
  | None => Ok cs
  | Some ps => send_parts (Z.to_nat (PartSet.total ps)) 0 ps cs
  end.

Definition defaultDecideProposal (now height round : Z) (pv : PV) (cs : CS) : res CS :=
  let! (blockParts, cs) :=
    match LockedBlock (rs cs) with
    | Some _ => Ok (Some (parts_at cs (LockedBlockParts (rs cs))), cs)
    | None =>
        let! (bp, cs) := createProposalBlock now pv cs in
        Ok (match bp with None => None | Some (_, ps) => Some (Some ps) end, cs)
    end in
  match blockParts with
  | None => Ok cs
  | Some blockParts =>
      let (polRound, polBlockID) := HeightVoteSet.POLInfo (Votes (rs cs)) in
      let proposal := NewProposal height round (PartSet.Header blockParts) polRound polBlockID in
      let! (signed, pv) := pv_SignProposal pv (st_ChainID (state cs)) proposal in
      let cs := with_pv (Some pv) cs in
      match signed with
      | None => Ok cs
      | Some proposal =>
          send_all_parts blockParts (sendInternalMessage (mkMsg (ProposalMessage (Some proposal)) []) cs)
      end
  end.

(** ** Prevote *)
Definition block_hash (b : option Block) : res bytes := let! (hash, _) := Block_.Hash b in Ok hash.

Definition prevote_hook (height round : Z) (b : option Block) (cs : CS) : CS :=
  with_app (ca_HookPrevote (app cs) height round b) cs.

Definition defaultDoPrevote (height round : Z) (cs : CS) : res CS :=
  match LockedBlock (rs cs) with
  | Some b =>
      let! hash := block_hash (Some b) in
      let! cs := signAddVote VoteTypePrevote hash (PartSet.Header (parts_at cs (LockedBlockParts (rs cs)))) cs in
      Ok (prevote_hook height round (Some b) cs)
  | None =>
      match ProposalBlock (rs cs) with
      | None =>
          let! cs := signAddVote VoteTypePrevote [] (mkPSH 0 []) cs in
          Ok (prevote_hook height round None cs)
      | Some b =>
          let! valid := block_valid cs b in
          if negb valid then
            let! cs := signAddVote VoteTypePrevote [] (mkPSH 0 []) cs in
            Ok (prevote_hook height round None cs)
          else
            let! hash := block_hash (Some b) in
            let! cs := signAddVote VoteTypePrevote hash
                         (PartSet.Header (parts_at cs (ProposalBlockParts (rs cs)))) cs in
            Ok (prevote_hook height round (Some b) cs)
      end
  end.

(** The guard of the [enter] functions: another height, or at or beyond the
    step. *)
Definition past (height round step : Z) (r : RoundState) : bool :=
  negb (Height r =? height) || (round <? Round r) || ((Round r =? round) && (step <=? Step r)).

Definition enterPrevote (height round : Z) (cs : CS) : res CS :=
  if past height round RoundStepPrevote (rs cs) then Ok cs
  else
    let! cs := defaultDoPrevote height round cs in
    Ok (newStep (updateRoundStep round RoundStepPrevote cs)).

(** ** Propose *)
Definition enterPropose (now height round : Z) (cs : CS) : res CS :=
  if past height round RoundStepPropose (rs cs) then Ok cs
  else
    let cs := scheduleTimeout (tp_Propose (cfg_timeouts cfg) round) height round RoundStepPropose cs in
    let! cs :=
      match privValidator cs with
      | None => Ok cs
      | Some pv =>
          let! (proposer, vset) := ValidatorSet.Proposer (Validators (rs cs)) in
          let! proposer := deref proposer in
          let cs := with_rs (rs_validators vset) cs in
          if negb (bytes_eqb (val_Address proposer) (pv_GetAddress pv)) then Ok cs
          else defaultDecideProposal now height round pv cs
      end in
    let cs := newStep (updateRoundStep round RoundStepPropose cs) in
    if isProposalComplete cs then enterPrevote height (Round (rs cs)) cs else Ok cs.

(** ** New round *)
Definition enterNewRound (now height round : Z) (cs : CS) : res CS :=
  let r := rs cs in
  if negb (Height r =? height) || (round <? Round r) || ((Round r =? round) && negb (Step r =? RoundStepNewHeight))
  then Ok cs
  else
    let! validators :=
      if Round r <? round then
        let! v := ValidatorSet.Copy (Validators r) in
        ValidatorSet.IncrementAccum (i64 (round - Round r)) v
      else Ok (Validators r) in
    let cs := with_rs (rs_validators validators) (updateRoundStep round RoundStepNewRound cs) in
    let cs := if round =? 0 then cs else with_rs (rs_proposal None None None) cs in
    let! votes := HeightVoteSet.SetRound (Votes (rs cs)) (i64 (round + 1)) in
    let cs := with_rs (rs_votes votes) cs in
    let cs := with_app (ca_HookNewRound (app cs) (Height (rs cs)) (Round (rs cs))) cs in
    enterPropose now height round cs.

Definition enterPrevoteWait (height round : Z) (cs : CS) : res CS :=
  if past height round RoundStepPrevoteWait (rs cs) then Ok cs
  else if negb (VoteSet.HasTwoThirdsAny (HeightVoteSet.Prevotes (Votes (rs cs)) round)) then Panic
  else
    let cs := scheduleTimeout (tp_Prevote (cfg_timeouts cfg) round) height round RoundStepPrevoteWait cs in
    Ok (newStep (updateRoundStep round RoundStepPrevoteWait cs)).

(** ** Precommit *)
Definition precommit_done (height round : Z) (b : option Block) (cs : CS) : CS :=
  let cs := newStep (updateRoundStep round RoundStepPrecommit cs) in
  with_app (ca_HookPrecommit (app cs) height round b) cs.

Definition precommit_nil (height round : Z) (cs : CS) : res CS :=
  let! cs := signAddVote VoteTypePrecommit [] (mkPSH 0 []) cs in Ok (precommit_done height round None cs).

Definition precommit_block (height round : Z) (blockID : BlockID) (b : option Block) (cs : CS) : res CS :=
  let! cs := signAddVote VoteTypePrecommit (bid_Hash blockID) (bid_PartsHeader blockID) cs in
  Ok (precommit_done height round b cs).

Definition unlock (cs : CS) : CS := with_rs (rs_locked 0 None None) cs.

(** Start collecting the parts of a block, unless they are being collected:
    [cs.ProposalBlock = nil; cs.ProposalBlockParts = NewPartSetFromHeader(...)] *)
Definition expect_parts (header : PartSetHeader) (cs : CS) : res CS :=
  if PartSet.HasHeader (parts_at cs (ProposalBlockParts (rs cs))) header then Ok cs
  else
    let! ps := PartSet.NewPartSetFromHeader header in
    let (p, cs) := new_parts ps cs in
    Ok (with_rs (rs_proposal (Proposal_ (rs cs)) None (Some p)) cs).

Definition enterPrecommit (height round : Z) (cs : CS) : res CS :=
  if past height round RoundStepPrecommit (rs cs) then Ok cs
  else
    let (blockID, ok) := VoteSet.TwoThirdsMajority (HeightVoteSet.Prevotes (Votes (rs cs)) round) in
    if negb ok then precommit_nil height round cs
    else
      let (polRound, _) := HeightVoteSet.POLInfo (Votes (rs cs)) in
      if polRound <? round then Panic
      else if (length (bid_Hash blockID) =? 0)%nat then
        precommit_nil height round (match LockedBlock (rs cs) with None => cs | Some _ => unlock cs end)
      else
        let! relock := Block_.HashesTo (LockedBlock (rs cs)) (bid_Hash blockID) in
        if relock then
          let r := rs cs in
          precommit_block height round blockID (LockedBlock r)
            (with_rs (rs_locked round (LockedBlock r) (LockedBlockParts r)) cs)
        else
          let! have := Block_.HashesTo (ProposalBlock (rs cs)) (bid_Hash blockID) in
          if have then
            let! b := deref (ProposalBlock (rs cs)) in
            let! valid := block_valid cs b in
            if negb valid then Panic
            else precommit_block height round blockID (Some b)
                   (with_rs (rs_locked round (Some b) (ProposalBlockParts (rs cs))) cs)
          else
            let! cs := expect_parts (bid_PartsHeader blockID) (unlock cs) in
            precommit_nil height round cs.

Definition enterPrecommitWait (height round : Z) (cs : CS) : res CS :=
  if past height round RoundStepPrecommitWait (rs cs) then Ok cs
  else if negb (VoteSet.HasTwoThirdsAny (HeightVoteSet.Precommits (Votes (rs cs)) round)) then Panic
  else
    let cs := scheduleTimeout (tp_Precommit (cfg_timeouts cfg) round) height round RoundStepPrecommitWait cs in
    Ok (newStep (updateRoundStep round RoundStepPrecommitWait cs)).

(** ** New height *)
(** The second half of [updateToState]: the fields of the round state are
    reset from [s]. *)
Definition new_height (now : Z) (s : State) (lastPrecommits : option VoteSet.t) (cs : CS) : res CS :=
  let height := i64 (st_LastBlockHeight s + 1) in
  let commitTime := CommitTime (rs cs) in
  let startTime := tp_Commit (cfg_timeouts cfg) (if commitTime =? ChainState.zero_time then now else commitTime) in
  let! votes := HeightVoteSet.NewHeightVoteSet (cfg_chain_id cfg) height (st_Validators s) in
  Ok (newStep (with_state s (set_rs
    (mkRS height 0 RoundStepNewHeight startTime commitTime (st_Validators s) None None None 0 None None votes (-1)
       lastPrecommits (st_LastValidators s)) cs))).

Definition updateToState (now : Z) (s : State) (cs : CS) : res CS :=
  let r := rs cs in
  if (-1 <? CommitRound r) && (0 <? Height r) && negb (Height r =? st_LastBlockHeight s) then Panic
  else if negb (i64 (st_LastBlockHeight (state cs) + 1) =? Height r) then Panic
  else if st_LastBlockHeight s <=? st_LastBlockHeight (state cs) then Ok cs
  else
    let! lastPrecommits :=
      if -1 <? CommitRound r then
        let precommits := HeightVoteSet.Precommits (Votes r) (CommitRound r) in
        if VoteSet.HasTwoThirdsMajority precommits then Ok precommits else Panic
      else Ok None in
    new_height now s lastPrecommits cs.

(** ** Commit *)
Definition finalizeCommit (now height : Z) (cs : CS) : res CS :=
  let r := rs cs in
  if negb (Height r =? height) || negb (Step r =? RoundStepCommit) then Ok cs
  else
    let precommits := HeightVoteSet.Precommits (Votes r) (CommitRound r) in
    let (blockID, ok) := VoteSet.TwoThirdsMajority precommits in
    let blockParts := parts_at cs (ProposalBlockParts r) in
    if negb ok then Panic
    else if negb (PartSet.HasHeader blockParts (bid_PartsHeader blockID)) then Panic
    else
      let! hashes := Block_.HashesTo (ProposalBlock r) (bid_Hash blockID) in
      if negb hashes then Panic
      else
        let! block := deref (ProposalBlock r) in
        let! valid := block_valid cs block in
        if negb valid then Panic
        else
          let! header := deref (b_Header block) in
          let! ps := deref blockParts in
          let! store :=
            if BlockStore.Height (blockStore cs) <? h_Height header then
              let! pc := deref precommits in
              let! seenCommit := MakeCommit pc in
              BlockStore.SaveBlock (blockStore cs) block ps seenCommit
            else Ok (blockStore cs) in
          let! stateCopy := ChainState.Copy (state cs) in
          let! (err, app, db, stateCopy) :=
            ChainState.ApplyBlock (block_valid cs) (app cs) (stateDB cs) stateCopy block (PartSet.Header blockParts) in
          let! db := ChainState.Save db stateCopy in
          let! cs := updateToState now stateCopy (with_storage store db (with_app app cs)) in
          Ok (scheduleRound0 now cs).

Definition tryFinalizeCommit (now height : Z) (cs : CS) : res CS :=
  let r := rs cs in
  if negb (Height r =? height) then Panic
  else
    let (blockID, ok) := VoteSet.TwoThirdsMajority (HeightVoteSet.Precommits (Votes r) (CommitRound r)) in
    if negb ok || (length (bid_Hash blockID) =? 0)%nat then Ok cs
    else
      let! hashes := Block_.HashesTo (ProposalBlock r) (bid_Hash blockID) in
      if negb hashes then let! _ := block_hash (ProposalBlock r) in Ok cs
      else finalizeCommit now height cs.

Definition enterCommit (now height commitRound : Z) (cs : CS) : res CS :=
  if negb (Height (rs cs) =? height) || (RoundStepCommit <=? Step (rs cs)) then Ok cs
  else
    let (blockID, ok) := VoteSet.TwoThirdsMajority (HeightVoteSet.Precommits (Votes (rs cs)) commitRound) in
    if negb ok then Panic
    else
      let! locked := Block_.HashesTo (LockedBlock (rs cs)) (bid_Hash blockID) in
      let cs := if locked
                then with_rs (rs_proposal (Proposal_ (rs cs)) (LockedBlock (rs cs)) (LockedBlockParts (rs cs))) cs
                else cs in
      let! have := Block_.HashesTo (ProposalBlock (rs cs)) (bid_Hash blockID) in
      let! cs := if have then Ok cs else expect_parts (bid_PartsHeader blockID) cs in
      let cs := updateRoundStep (Round (rs cs)) RoundStepCommit cs in
      let cs := newStep (with_rs (rs_commit commitRound now) cs) in
      tryFinalizeCommit now height cs.

(** ** Messages *)
Definition defaultSetProposal (proposal : option Proposal) (cs : CS) : res (option msg_err * CS) :=
  let r := rs cs in
  match Proposal_ r with
  | Some _ => Ok (None, cs)
  | None =>
      let! p := deref proposal in
      if negb (p_Height p =? Height r) || negb (p_Round p =? Round r) then Ok (None, cs)
      else if RoundStepCommit <=? Step r then Ok (None, cs)
      else if negb (p_POLRound p =? -1) && ((p_POLRound p <? 0) || (p_Round p <=? p_POLRound p))
      then Ok (Some ErrInvalidProposalPOLRound, cs)
      else
        let! (proposer, vset) := ValidatorSet.Proposer (Validators r) in
        let! proposer := deref proposer in
        let cs := with_rs (rs_validators vset) cs in
        if negb (VerifyBytes (val_PubKey proposer) (Json.SignBytes_proposal (st_ChainID (state cs)) p) (p_Signature p))
        then Ok (Some ErrInvalidProposalSignature, cs)
        else
          let! ps := PartSet.NewPartSetFromHeader (p_BlockPartsHeader p) in
          let (ptr, cs) := new_parts ps cs in
          Ok (None, with_rs (rs_proposal (Some p) (ProposalBlock r) (Some ptr)) cs)
  end.

(** The block is stored even when decoding it failed: the error variable is a
    new one. *)
Definition complete_block (now height : Z) (ps : PartSet.t) (cs : CS) : res CS :=
  let! reader := PartSet.GetReader ps in
  let! (block, _) := Block_.read_block (PartSet.content reader) in
  let! block := deref block in
  let cs := with_rs (rs_proposal (Proposal_ (rs cs)) (Some block) (ProposalBlockParts (rs cs))) cs in
  if (Step (rs cs) =? RoundStepPropose) && isProposalComplete cs then enterPrevote height (Round (rs cs)) cs
  else if Step (rs cs) =? RoundStepCommit then tryFinalizeCommit now height cs
  else Ok cs.

Definition addProposalBlockPart (now height : Z) (part : option Part) (verify : bool) (cs : CS)
    : res (bool * option msg_err * CS) :=
  if negb (Height (rs cs) =? height) then Ok (false, None, cs)
  else
    match ProposalBlockParts (rs cs) with
    | None => Ok (false, None, cs)
    | Some ptr =>
        let! ps := deref (partsHeap cs !! ptr) in
        let! part := deref part in
        let! (added, err, ps) := PartSet.AddPart ps part verify in
        let cs := with_heap (<[ptr := ps]> (partsHeap cs)) cs in
        match err with
        | Some e => Ok (added, Some (ErrPart e), cs)
        | None =>
            if added && PartSet.IsComplete ps then
              let! cs := complete_block now height ps cs in Ok (true, None, cs)
            else Ok (added, None, cs)
        end
    end.

(** The locked block is released by a polka of a later round that is for
    another block. *)
Definition unlock_on_polka (vote : Vote) (prevotes : option VoteSet.t) (cs : CS) : res CS :=
  let r := rs cs in
  match LockedBlock r with
  | Some b =>
      if (LockedRound r <? v_Round vote) && (v_Round vote <=? Round r) then
        let (blockID, ok) := VoteSet.TwoThirdsMajority prevotes in
        let! same := if ok then Block_.HashesTo (Some b) (bid_Hash blockID) else Ok true in
        if ok && negb same then Ok (unlock cs) else Ok cs
      else Ok cs
  | None => Ok cs
  end.

Definition added_prevote (now : Z) (vote : Vote) (cs : CS) : res CS :=
  let height := Height (rs cs) in
  let prevotes := HeightVoteSet.Prevotes (Votes (rs cs)) (v_Round vote) in
  let! cs := unlock_on_polka vote prevotes cs in
  if (Round (rs cs) <=? v_Round vote) && VoteSet.HasTwoThirdsAny prevotes then
    let! cs := enterNewRound now height (v_Round vote) cs in
    if VoteSet.HasTwoThirdsMajority prevotes then enterPrecommit height (v_Round vote) cs
    else
      let! cs := enterPrevote height (v_Round vote) cs in
      enterPrevoteWait height (v_Round vote) cs
  else
    match Proposal_ (rs cs) with
    | Some p =>
        if (0 <=? p_POLRound p) && (p_POLRound p =? v_Round vote) && isProposalComplete cs
        then enterPrevote height (Round (rs cs)) cs
        else Ok cs
    | None => Ok cs
    end.

Definition added_precommit (now : Z) (vote : Vote) (cs : CS) : res CS :=
  let height := Height (rs cs) in
  let precommits := HeightVoteSet.Precommits (Votes (rs cs)) (v_Round vote) in
  let (blockID, ok) := VoteSet.TwoThirdsMajority precommits in
  if ok then
    if (length (bid_Hash blockID) =? 0)%nat then enterNewRound now height (i64 (v_Round vote + 1)) cs
    else
      let! cs := enterNewRound now height (v_Round vote) cs in
      let! cs := enterPrecommit height (v_Round vote) cs in
      let! cs := enterCommit now height (v_Round vote) cs in
      let! pc := deref precommits in
      if SkipTimeoutCommit (cfg_timeouts cfg) && VoteSet.HasAll pc then enterNewRound now (Height (rs cs)) 0 cs
      else Ok cs
  else if (Round (rs cs) <=? v_Round vote) && VoteSet.HasTwoThirdsAny precommits then
    let! cs := enterNewRound now height (v_Round vote) cs in
    let! cs := enterPrecommit height (v_Round vote) cs in
    enterPrecommitWait height (v_Round vote) cs
  else Ok cs.

Definition opt_vote_err (e : option vote_err) : option msg_err := match e with Some e => Some (ErrVote e) | None => None end.

Definition addVote (now : Z) (vote : option Vote) (peerKey : bytes) (cs : CS) : res (bool * option msg_err * CS) :=
  let! vote := deref vote in
  let r := rs cs in
  if i64 (v_Height vote + 1) =? Height r then
    if negb ((Step r =? RoundStepNewHeight) && (v_Type vote =? VoteTypePrecommit))
    then Ok (false, Some ErrVoteHeightMismatch, cs)
    else
      let! (added, err, lc) := VoteSet.AddVote (LastCommit r) vote in
      let cs := with_rs (rs_lastCommit (Some lc)) cs in
      let! cs := if added && SkipTimeoutCommit (cfg_timeouts cfg) && VoteSet.HasAll lc
                 then enterNewRound now (Height r) 0 cs else Ok cs in
      Ok (added, opt_vote_err err, cs)
  else if v_Height vote =? Height r then
    let! (added, err, votes) := HeightVoteSet.AddVote (Votes r) vote peerKey in
    let cs := with_rs (rs_votes votes) cs in
    let! cs :=
      if negb added then Ok cs
      else if v_Type vote =? VoteTypePrevote then added_prevote now vote cs
      else if v_Type vote =? VoteTypePrecommit then added_precommit now vote cs
      else Panic in
    Ok (added, opt_vote_err err, cs)
  else Ok (false, Some ErrVoteHeightMismatch, cs).

(** Errors other than a height mismatch or a conflict are reported as
    [ErrAddingVote]. *)
Definition tryAddVote (now : Z) (vote : option Vote) (peerKey : bytes) (cs : CS) : res (bool * option msg_err * CS) :=
  let! (added, err, cs) := addVote now vote peerKey cs in
  let err := match err with
             | None => None
             | Some ErrVoteHeightMismatch => Some ErrVoteHeightMismatch
             | Some (ErrVote (ErrVoteConflictingVotes a b)) => Some (ErrVote (ErrVoteConflictingVotes a b))
             | Some _ => Some ErrAddingVote
             end in
  Ok (added, err, cs).

(** The errors are only logged. *)
Definition handleMsg (now : Z) (mi : msgInfo) (cs : CS) : res CS :=
  match mi_Msg mi with
  | ProposalMessage p => let! (_, cs) := defaultSetProposal p cs in Ok cs
  | BlockPartMessage height _ part =>
      let! (_, _, cs) := addProposalBlockPart now height part (negb (length (mi_PeerKey mi) =? 0)%nat) cs in Ok cs
  | VoteMessage v => let! (_, _, cs) := tryAddVote now v (mi_PeerKey mi) cs in Ok cs
  end.

Definition handleTimeout (now : Z) (ti : timeoutInfo) (cs : CS) : res CS :=
  let r := rs cs in
  if negb (ti_Height ti =? Height r) || (ti_Round ti <? Round r) ||
     ((ti_Round ti =? Round r) && (ti_Step ti <? Step r)) then Ok cs
  else if ti_Step ti =? RoundStepNewHeight then enterNewRound now (ti_Height ti) 0 cs
  else if ti_Step ti =? RoundStepPropose then enterPrevote (ti_Height ti) (ti_Round ti) cs
  else if ti_Step ti =? RoundStepPrevoteWait then enterPrecommit (ti_Height ti) (ti_Round ti) cs
  else if ti_Step ti =? RoundStepPrecommitWait then enterNewRound now (ti_Height ti) (i64 (ti_Round ti + 1)) cs
  else Panic.

(** reactor.go: a peer's claim of a majority, [VoteSetMaj23Message] *)
Definition peerMaj23 (height round type_ : Z) (peerKey : bytes) (blockID : BlockID) (cs : CS) : res CS :=
  if negb (Height (rs cs) =? height) then Ok cs
  else
    let! votes := HeightVoteSet.SetPeerMaj23 (Votes (rs cs)) round type_ peerKey blockID in
    Ok (with_rs (rs_votes votes) cs).

(** ** Starting *)
(** [reconstructLastCommit] *)
Fixpoint add_precommits (vs : VoteSet.t) (l : list (option Vote)) : res VoteSet.t :=
  match l with
  | [] => Ok vs
  | None :: l' => add_precommits vs l'
  | Some v :: l' =>
      let! (added, err, vs) := VoteSet.AddVote (Some vs) v in
      match added, err with true, None => add_precommits vs l' | _, _ => Panic end
  end.

Definition reconstructLastCommit (s : State) (cs : CS) : res CS :=
  if st_LastBlockHeight s =? 0 then Ok cs
  else
    let! seenCommit := BlockStore.LoadSeenCommit (blockStore cs) (st_LastBlockHeight s) in
    let! seenCommit := deref seenCommit in
    let! round := Commit_.Round seenCommit in
    let! vs := VoteSet.NewVoteSet (cfg_chain_id cfg) (st_LastBlockHeight s) round VoteTypePrecommit (st_LastValidators s) in
    let! vs := add_precommits vs (c_Precommits seenCommit) in
    if negb (VoteSet.HasTwoThirdsMajority (Some vs)) then Panic
    else Ok (with_rs (rs_lastCommit (Some vs)) cs).

(** [NewConsensusState]: [updateToState] on the zero value skips its checks,
    since [cs.state] and [cs.Votes] are nil and the height is 0.  The zero
    value's votes and validators are never read. *)
Definition no_vset : ValidatorSet.t := ValidatorSet.mk [] None 0.
Definition zero_rs : RoundState :=
  mkRS 0 0 0 ChainState.zero_time ChainState.zero_time no_vset None None None 0 None None
    (HeightVoteSet.mk [] 0 no_vset 0 ∅ ∅) 0 None no_vset.

Definition NewConsensusState (now : Z) (s : State) (store : BlockStore.t) (db : StateDB) (app : A) : res CS :=
  let! cs := new_height now s None (mkCS zero_rs s store db app None [] [] [] 0) in
  reconstructLastCommit s cs.

Definition SetPrivValidator (pv : PV) (cs : CS) : CS := with_pv (Some pv) cs.

(** [OnStart] schedules round 0 once the routines run; the replay of the
    write-ahead log is not modelled. *)
Definition start (now : Z) (cs : CS) : CS := scheduleRound0 now cs.

Definition LoadCommit (height : Z) (cs : CS) : res (option Commit) :=
  if height =? BlockStore.Height (blockStore cs) then BlockStore.LoadSeenCommit (blockStore cs) height
  else BlockStore.LoadBlockCommit (blockStore cs) height.

End Ops.
End Consensus.
