(* ===== verification/ConsensusSteps.v ===== *)
(** * Runs of the consensus state machine

    The events a node handles, and what holds of every one of them whatever
    the state is: the height, round and step only move forward, own votes are
    for the current height or a later one, and the chain state changes only
    with the height. *)
From S2P Require Import Prelude BitArray Wire WireReflect Types SimpleTree SignBytes Validators VoteSets HeightVotes.
From S2P Require Import PrivVal PartSets Blocks Store ChainState Consensus.
Import Consensus.

(** What the state machine relies on of its signer: a signed vote is the vote
    it was given. *)
Class PrivValidatorLaws (PV : Type) `{PrivValidatorOps PV} : Prop :=
  pv_SignVote_vote : forall pv c v v' pv', pv_SignVote pv c v = Ok (Some v', pv') ->
    v_Height v' = v_Height v /\ v_Round v' = v_Round v /\ v_Type v' = v_Type v /\ v_BlockID v' = v_BlockID v.

(** The signer of priv_validator.go, with its file. *)
#[export] Instance file_signer `{Crypto} {K : Type} `{PrivKeyOps K} :
    PrivValidatorOps (PrivValidator.t K * gmap bytes (PrivValidator.t K)) := {
  pv_GetAddress pv := PrivValidator.Address_ pv.1;
  pv_SignVote pv c v :=
    let! (r, p, m) := PrivValidator.SignVote Files.no_faults pv.2 pv.1 c v in
    Ok (match r with inl v => Some v | inr _ => None end, (p, m));
  pv_SignProposal pv c v :=
    let! (r, p, m) := PrivValidator.SignProposal Files.no_faults pv.2 pv.1 c v in
    Ok (match r with inl v => Some v | inr _ => None end, (p, m))
}.

#[export] Instance file_signer_laws `{Crypto} {K : Type} `{PrivKeyOps K} :
  PrivValidatorLaws (PrivValidator.t K * gmap bytes (PrivValidator.t K)).
Proof.
  intros pv c v v' pv' E. simpl in E. ok E as [[r p] m] E1. injection E as E2 _.
  unfold PrivValidator.SignVote in E1. ok E1 as st E3. ok E1 as [[r1 p1] m1] E4.
  destruct r1; injection E1 as <- _ _; [|done]. by injection E2 as <-.
Qed.

Section Steps.
Context `{Crypto} {A PV : Type} `{ConsensusApp A} `{PrivValidatorLaws PV} (cfg : Config).
Implicit Types cs : CS (A := A) (PV := PV).

(** A peer's message, one of the node's own messages, a scheduled timeout, or a
    peer's claim of a majority, at some time.  Own messages and timeouts may
    come late, out of order or again; heights stay below the largest int64. *)
Inductive event : Type :=
| EvPeer (mi : msgInfo)
| EvInternal (mi : msgInfo)
| EvTimeout (ti : timeoutInfo)
| EvMaj23 (height round type_ : Z) (peerKey : bytes) (blockID : BlockID).

Definition enabled cs (e : event) : Prop :=
  match e with
  | EvPeer mi => mi_PeerKey mi <> []
  | EvInternal mi => mi ∈ internalMsgs cs
  | EvTimeout ti => ti ∈ timeouts cs
  | EvMaj23 _ _ _ _ _ => True
  end.

Definition handle (now : Z) (e : event) cs : res CS :=
  match e with
  | EvPeer mi | EvInternal mi => handleMsg cfg now mi cs
  | EvTimeout ti => handleTimeout cfg now ti cs
  | EvMaj23 h r ty p b => peerMaj23 h r ty p b cs
  end.

Inductive step cs cs' : Prop :=
| step_event now e :
    enabled cs e -> Height (rs cs) < 2 ^ 63 - 1 -> handle now e cs = Ok cs' -> step cs cs'.

(** ** Forward *)
Definition hrs_le (r r' : RoundState) : Prop :=
  Height r < Height r' \/
  (Height r = Height r' /\ (Round r < Round r' \/ (Round r = Round r' /\ Step r <= Step r'))).

(** Votes for heights between [lo] and [hi]. *)
Definition votes_in (lo hi : Z) (l : list msgInfo) : Prop :=
  forall v k, mkMsg (VoteMessage (Some v)) k ∈ l -> lo <= v_Height v <= hi.

Record evolves cs cs' : Prop := {
  ev_pos : hrs_le (rs cs) (rs cs');
  ev_msgs : exists l, internalMsgs cs' = internalMsgs cs ++ l /\ votes_in (Height (rs cs)) (Height (rs cs')) l;
  ev_timeouts : forall ti, ti ∈ timeouts cs' -> ti ∈ timeouts cs \/ ti_Height ti <= Height (rs cs');
  ev_state : Height (rs cs') = Height (rs cs) -> state cs' = state cs
}.

(** A change within the height. *)
Definition moves cs cs' : Prop := evolves cs cs' /\ Height (rs cs') = Height (rs cs).

Lemma moves_frame cs cs' :
  Height (rs cs') = Height (rs cs) ->
  Round (rs cs) < Round (rs cs') \/ (Round (rs cs) = Round (rs cs') /\ Step (rs cs) <= Step (rs cs')) ->
  internalMsgs cs' = internalMsgs cs -> state cs' = state cs ->
  (forall ti, ti ∈ timeouts cs' -> ti ∈ timeouts cs \/ ti_Height ti <= Height (rs cs')) -> moves cs cs'.
Proof.
  intros Hh Hp Hm Hs Ht. split; [|done]. split; [right; split; [done|lia]| |done|done].
  exists []. rewrite app_nil_r. split; [done|]. intros v k Hin. set_solver.
Qed.

Lemma evolves_trans cs1 cs2 cs3 : evolves cs1 cs2 -> evolves cs2 cs3 -> evolves cs1 cs3.
Proof.
  intros [P1 (l1 & M1 & V1) T1 S1] [P2 (l2 & M2 & V2) T2 S2]. split.
  - unfold hrs_le in *. lia.
  - exists (l1 ++ l2). rewrite M2, M1, <- app_assoc. split; [done|].
    unfold hrs_le in *. intros v k [Hv|Hv]%elem_of_app; [specialize (V1 v k Hv)|specialize (V2 v k Hv)]; lia.
  - intros ti Hti. destruct (T2 ti Hti) as [Hin|]; [|by right]. destruct (T1 ti Hin); [by left|right].
    unfold hrs_le in *. lia.
  - intros E. unfold hrs_le in *. rewrite S2, S1; [done|lia..].
Qed.

#[local] Instance moves_preorder : PreOrder moves.
Proof.
  split; [intros cs; apply moves_frame; auto with lia|].
  intros cs1 cs2 cs3 [E1 H1'] [E2 H2']. split; [by eapply evolves_trans|congruence].
Qed.

#[local] Instance evolves_preorder : PreOrder evolves.
Proof. split; [intros cs; apply (reflexivity (R := moves) cs)|exact evolves_trans]. Qed.

Lemma moves_evolves cs cs' : moves cs cs' -> evolves cs cs'.
Proof. by intros []. Qed.

(** The updates that no one votes in. *)
Ltac frame := apply moves_frame; simpl; [done|lia|done|done|by left].

Lemma ev_scheduleTimeout d height round st cs :
  height <= Height (rs cs) -> moves cs (scheduleTimeout d height round st cs).
Proof.
  intros Hh. apply moves_frame; simpl; auto with lia. intros ti [?|Hti]%elem_of_app; [by left|].
  apply list_elem_of_singleton in Hti as ->. by right.
Qed.

Lemma ev_send mi cs : votes_in (Height (rs cs)) (Height (rs cs)) [mi] -> moves cs (sendInternalMessage mi cs).
Proof. intros Hv. split; [|done]. split; [unfold hrs_le; simpl; lia|by exists [mi]|by left|done]. Qed.

(** What [signAddVote] does: nothing but sign, and send the vote. *)
Lemma signAddVote_spec ty hash hd cs cs' :
  signAddVote ty hash hd cs = Ok cs' ->
  exists pv, cs' = with_pv pv cs \/
    exists v, cs' = sendInternalMessage (mkMsg (VoteMessage (Some v)) []) (with_pv pv cs) /\
      v_Height v = Height (rs cs) /\ v_Round v = Round (rs cs) /\ v_Type v = ty /\ v_BlockID v = mkBID hash hd.
Proof.
  unfold signAddVote. destruct (privValidator cs) as [pv|] eqn:Epv.
  2:{ intros [= <-]. exists None. left. destruct cs. simpl in *. by subst. }
  destruct (negb _).
  { intros [= <-]. exists (Some pv). left. destruct cs. simpl in *. by subst. }
  intros E. unfold signVote in E. destruct (ValidatorSet.GetByAddress _ _) as [i o]. ok E as [vo cs1] E1.
  ok E1 as [v' pv'] Es. injection E1 as <- <-. exists (Some pv'). destruct v' as [v'|]; injection E as <-; [right|by left].
  exists v'. split; [done|]. by destruct (pv_SignVote_vote _ _ _ _ _ Es) as (-> & -> & -> & ->).
Qed.

Lemma ev_signAddVote ty hash hd cs cs' : signAddVote ty hash hd cs = Ok cs' -> moves cs cs'.
Proof.
  intros (pv & [->|(v & -> & Hh & _)])%signAddVote_spec; [frame|].
  transitivity (with_pv pv cs); [frame|]. apply ev_send. intros w k Hin%list_elem_of_singleton. injection Hin as <-.
  simpl. lia.
Qed.

Lemma past_false height round st r :
  past height round st r = false -> Height r = height /\ (Round r < round \/ (Round r = round /\ Step r < st)).
Proof. unfold past. lia. Qed.

(** *** Proposing sends a proposal and parts, and changes nothing else. *)
Record only_sends cs cs' : Prop := {
  os_rs : rs cs' = rs cs;
  os_state : state cs' = state cs;
  os_timeouts : timeouts cs' = timeouts cs;
  os_msgs : exists l, internalMsgs cs' = internalMsgs cs ++ l /\ forall v k, mkMsg (VoteMessage v) k ∉ l
}.

Lemma only_sends_trans cs1 cs2 cs3 : only_sends cs1 cs2 -> only_sends cs2 cs3 -> only_sends cs1 cs3.
Proof.
  intros [R1 S1 T1 (l1 & M1 & V1)] [R2 S2 T2 (l2 & M2 & V2)]. split; [congruence..|].
  exists (l1 ++ l2). rewrite M2, M1, <- app_assoc. split; [done|]. intros v k. rewrite elem_of_app.
  intros [?|?]; [by eapply V1|by eapply V2].
Qed.

Lemma only_sends_quiet cs cs' :
  rs cs' = rs cs -> state cs' = state cs -> timeouts cs' = timeouts cs -> internalMsgs cs' = internalMsgs cs ->
  only_sends cs cs'.
Proof. intros ? ? ? E. split; [done..|]. exists []. rewrite app_nil_r. split; [done|]. set_solver. Qed.

Lemma only_sends_one m cs : (forall v k, m <> mkMsg (VoteMessage v) k) -> only_sends cs (sendInternalMessage m cs).
Proof.
  intros Hm. split; [done..|]. exists [m]. split; [done|]. intros v k Hin%list_elem_of_singleton. by eapply Hm.
Qed.

Lemma only_sends_moves cs cs' : only_sends cs cs' -> moves cs cs'.
Proof.
  intros [R S T (l & M & V)]. split; [|by rewrite R]. split; [rewrite R; unfold hrs_le; lia| |rewrite T; by left|by intros _].
  exists l. split; [done|]. intros v k Hin. by destruct (V (Some v) k).
Qed.

Lemma send_parts_sends n i ps cs cs' : send_parts n i ps cs = Ok cs' -> only_sends cs cs'.
Proof.
  revert i cs. induction n as [|n IH]; intros i cs E; cbn [send_parts] in E.
  { injection E as <-. by apply only_sends_quiet. }
  ok E as part Ep. eapply only_sends_trans; [|by eapply IH]. by apply only_sends_one.
Qed.

Lemma createProposalBlock_sends now pv cs o cs' : createProposalBlock cfg now pv cs = Ok (o, cs') -> only_sends cs cs'.
Proof.
  unfold createProposalBlock. intros E. ok E as commit Ec.
  destruct commit as [commit|]; [|injection E as _ <-; by apply only_sends_quiet].
  destruct (ca_Reap _ _) as [app' alltxs]. ok E as vh Evh. ok E as mb Emb. injection E as _ <-. by apply only_sends_quiet.
Qed.

Lemma decideProposal_sends now height round pv cs cs' :
  defaultDecideProposal cfg now height round pv cs = Ok cs' -> only_sends cs cs'.
Proof.
  unfold defaultDecideProposal. intros E. ok E as [bp cs1] E1.
  assert (only_sends cs cs1) as H1'.
  { destruct (LockedBlock (rs cs)); [injection E1 as _ <-; by apply only_sends_quiet|].
    ok E1 as [bp' cs2] E2. injection E1 as _ <-. by eapply createProposalBlock_sends. }
  destruct bp as [bp|]; [|by injection E as <-]. destruct (HeightVoteSet.POLInfo _) as [pr pb].
  ok E as [signed pv'] Es. eapply only_sends_trans; [exact H1'|].
  apply (only_sends_trans _ (with_pv (Some pv') cs1)); [by apply only_sends_quiet|].
  destruct signed as [p|]; [|injection E as <-; by apply only_sends_quiet].
  eapply only_sends_trans; [by apply (only_sends_one (mkMsg (ProposalMessage (Some p)) []))|].
  unfold send_all_parts in E. destruct bp as [ps|]; [by eapply send_parts_sends|].
  injection E as <-. by apply only_sends_quiet.
Qed.

Lemma ev_doPrevote height round cs cs' : defaultDoPrevote height round cs = Ok cs' ->
  moves cs cs' /\ Height (rs cs') = Height (rs cs) /\ Round (rs cs') = Round (rs cs) /\ Step (rs cs') = Step (rs cs).
Proof.
  assert (forall ty x hd b cs', (let! cs1 := signAddVote ty x hd cs in Ok (prevote_hook height round b cs1)) = Ok cs' ->
    moves cs cs' /\ Height (rs cs') = Height (rs cs) /\ Round (rs cs') = Round (rs cs) /\ Step (rs cs') = Step (rs cs))
    as Hv.
  { intros ty x hd b cs2 E. ok E as cs1 E1. injection E as <-. split.
    - etransitivity; [by eapply ev_signAddVote|]. frame.
    - apply signAddVote_spec in E1 as (pv & [->|(v & -> & _)]); done. }
  unfold defaultDoPrevote. intros E. destruct (LockedBlock (rs cs)).
  { ok E as x Ex. by eapply Hv. }
  destruct (ProposalBlock (rs cs)); [|by eapply Hv]. ok E as valid Ev. destruct valid; cbn [negb] in E.
  - ok E as x Ex. by eapply Hv.
  - by eapply Hv.
Qed.

Lemma ev_step round st cs :
  (Round (rs cs) < round \/ (Round (rs cs) = round /\ Step (rs cs) <= st)) ->
  moves cs (newStep (updateRoundStep round st cs)).
Proof. intros Hs. apply moves_frame; simpl; auto with lia. Qed.

Lemma ev_enterPrevote height round cs cs' : enterPrevote height round cs = Ok cs' -> moves cs cs'.
Proof.
  unfold enterPrevote. destruct (past _ _ _ _) eqn:Hp; intros E; [by injection E as <-|].
  apply past_false in Hp as [Hh Hr]. ok E as cs1 E1. injection E as <-.
  apply ev_doPrevote in E1 as (He & E2 & E3 & E4). etransitivity; [exact He|]. apply ev_step. lia.
Qed.

(** [enterPropose] up to the step change. *)
Definition propose (now height round : Z) cs : res CS :=
  match privValidator cs with
  | None => Ok cs
  | Some pv =>
      let! (proposer, vset) := ValidatorSet.Proposer (Validators (rs cs)) in
      let! proposer := deref proposer in
      let cs := with_rs (rs_validators vset) cs in
      if negb (bytes_eqb (val_Address proposer) (pv_GetAddress pv)) then Ok cs
      else defaultDecideProposal cfg now height round pv cs
  end.

Lemma propose_sends now height round cs cs' :
  propose now height round cs = Ok cs' -> exists vset, only_sends (with_rs (rs_validators vset) cs) cs'.
Proof.
  unfold propose. intros E. destruct (privValidator cs) as [pv|].
  - ok E as [p vset] Ep. ok E as p' Ep'. exists vset.
    destruct (negb _); [injection E as <-; by apply only_sends_quiet|by eapply decideProposal_sends].
  - injection E as <-. exists (Validators (rs cs)). apply only_sends_quiet; try done. destruct cs as [[]]. done.
Qed.

Lemma ev_enterPropose now height round cs cs' : enterPropose cfg now height round cs = Ok cs' -> moves cs cs'.
Proof.
  unfold enterPropose. destruct (past _ _ _ _) eqn:Hp; intros E; [by injection E as <-|].
  apply past_false in Hp as [Hh Hr]. ok E as cs1 E1. set (cs0 := scheduleTimeout _ _ _ _ _) in E1.
  apply propose_sends in E1 as [vset Hs].
  transitivity cs0; [apply ev_scheduleTimeout; lia|]. transitivity (with_rs (rs_validators vset) cs0); [frame|].
  transitivity cs1; [by apply only_sends_moves|].
  transitivity (newStep (updateRoundStep round RoundStepPropose cs1)).
  - apply ev_step. rewrite (os_rs _ _ Hs). simpl. lia.
  - destruct (isProposalComplete _); [by eapply ev_enterPrevote|by injection E as <-].
Qed.

Lemma ev_enterNewRound now height round cs cs' : enterNewRound cfg now height round cs = Ok cs' -> moves cs cs'.
Proof.
  unfold enterNewRound. intros E. destruct (_ || _) eqn:Hg; [by injection E as <-|].
  ok E as vset Ev. ok E as votes Evo. etransitivity; [|by eapply ev_enterPropose].
  unfold RoundStepNewHeight, RoundStepNewRound in *. apply moves_frame; destruct (round =? 0); simpl; try done; try lia; by left.
Qed.

Lemma ev_enterPrevoteWait height round cs cs' : enterPrevoteWait cfg height round cs = Ok cs' -> moves cs cs'.
Proof.
  unfold enterPrevoteWait. destruct (past _ _ _ _) eqn:Hp; intros E; [by injection E as <-|].
  apply past_false in Hp as [Hh Hr]. destruct (negb _); [done|]. injection E as <-.
  etransitivity; [|apply ev_step; simpl; lia]. apply ev_scheduleTimeout. lia.
Qed.

Lemma ev_enterPrecommitWait height round cs cs' : enterPrecommitWait cfg height round cs = Ok cs' -> moves cs cs'.
Proof.
  unfold enterPrecommitWait. destruct (past _ _ _ _) eqn:Hp; intros E; [by injection E as <-|].
  apply past_false in Hp as [Hh Hr]. destruct (negb _); [done|]. injection E as <-.
  etransitivity; [|apply ev_step; simpl; lia]. apply ev_scheduleTimeout. lia.
Qed.

Lemma expect_parts_spec hd cs cs' : expect_parts hd cs = Ok cs' ->
  exists b p hp, cs' = with_rs (rs_proposal (Proposal_ (rs cs)) b p) (with_heap hp cs) /\
    (b = ProposalBlock (rs cs) \/ b = None).
Proof.
  unfold expect_parts. destruct (PartSet.HasHeader _ _).
  - intros [= <-]. exists (ProposalBlock (rs cs)), (ProposalBlockParts (rs cs)), (partsHeap cs).
    split; [|by left]. by destruct cs as [[]].
  - intros E. ok E as ps Eps. injection E as <-. eexists _, _, _. split; [reflexivity|by right].
Qed.

Lemma ev_expect_parts hd cs cs' : expect_parts hd cs = Ok cs' -> moves cs cs'.
Proof. intros (b & p & hp & -> & _)%expect_parts_spec. frame. Qed.

Lemma ev_precommit height round ty x hd b cs cs' :
  (let! cs1 := signAddVote ty x hd cs in Ok (precommit_done height round b cs1)) = Ok cs' ->
  Round (rs cs) < round \/ (Round (rs cs) = round /\ Step (rs cs) < RoundStepPrecommit) -> moves cs cs'.
Proof.
  intros E Hr. ok E as cs1 E1. injection E as <-. pose proof (ev_signAddVote _ _ _ _ _ E1) as He.
  apply signAddVote_spec in E1 as (pv & E1).
  assert (Round (rs cs1) = Round (rs cs) /\ Step (rs cs1) = Step (rs cs)) as [E2 E3].
  { destruct E1 as [->|(v & -> & _)]; done. }
  etransitivity; [exact He|]. etransitivity; [apply (ev_step round RoundStepPrecommit); lia|]. frame.
Qed.

Lemma ev_enterPrecommit height round cs cs' : enterPrecommit height round cs = Ok cs' -> moves cs cs'.
Proof.
  unfold enterPrecommit. destruct (past _ _ _ _) eqn:Hp; intros E; [by injection E as <-|].
  apply past_false in Hp as [Hh Hr]. destruct (VoteSet.TwoThirdsMajority _) as [B []]; cbn [negb] in E.
  2:{ by eapply ev_precommit. }
  destruct (HeightVoteSet.POLInfo _) as [pr pb]. destruct (_ <? _); [done|]. destruct (_ =? _)%nat.
  { destruct (LockedBlock (rs cs)); [transitivity (unlock cs); [frame|]|]; by eapply ev_precommit. }
  ok E as relock El. destruct relock.
  { etransitivity; [|eapply ev_precommit; [exact E|done]]. frame. }
  ok E as have Eh. destruct have.
  - ok E as b Eb. ok E as valid Ev. destruct valid; [|done]. cbn [negb] in E.
    etransitivity; [|eapply ev_precommit; [exact E|done]]. frame.
  - ok E as cs1 E1. transitivity (unlock cs); [frame|]. etransitivity; [by eapply ev_expect_parts|].
    apply expect_parts_spec in E1 as (b & q & hp & -> & _). by eapply ev_precommit.
Qed.

(** *** The new height *)
Record at_new_height (s : State) cs cs' : Prop := {
  nh_pos : Height (rs cs') = i64 (st_LastBlockHeight s + 1) /\ Round (rs cs') = 0 /\ Step (rs cs') = RoundStepNewHeight;
  nh_msgs : internalMsgs cs' = internalMsgs cs;
  nh_timeouts : timeouts cs' = timeouts cs;
  nh_unlocked : LockedBlock (rs cs') = None /\ ProposalBlock (rs cs') = None;
  nh_votes : HeightVoteSet.NewHeightVoteSet (cfg_chain_id cfg) (Height (rs cs')) (st_Validators s) = Ok (Votes (rs cs'));
  nh_state : state cs' = s
}.

Lemma updateToState_spec now s cs cs' : updateToState cfg now s cs = Ok cs' ->
  i64 (st_LastBlockHeight (state cs) + 1) = Height (rs cs) /\
  ((st_LastBlockHeight s <= st_LastBlockHeight (state cs) /\ cs' = cs) \/
   (st_LastBlockHeight (state cs) < st_LastBlockHeight s /\ at_new_height s cs cs')).
Proof.
  unfold updateToState. intros E. destruct (_ && _ && _); [done|].
  destruct (Z.eqb_spec (i64 (st_LastBlockHeight (state cs) + 1)) (Height (rs cs))) as [Eh|]; [|done]. cbn [negb] in E.
  split; [done|]. destruct (Z.leb_spec (st_LastBlockHeight s) (st_LastBlockHeight (state cs))); [left; by simplify_eq|right].
  split; [done|]. ok E as lp El. unfold new_height in E. ok E as votes Ev. injection E as <-. by split.
Qed.

Lemma ValidateBlock_height s b h : ValidateBlock s b = Ok None -> b_Header b = Some h ->
  h_Height h = i64 (st_LastBlockHeight s + 1).
Proof.
  unfold ValidateBlock. intros E Eh. ok E as e Eb. destruct e; [done|].
  apply Block_.ValidateBasic_iff in Eb as (h' & d & Eh' & _ & _ & Hh & _). congruence.
Qed.

Lemma block_valid_spec cs b : block_valid cs b = Ok true -> ValidateBlock (state cs) b = Ok None.
Proof. unfold block_valid. intros E. ok E as e Ev. by destruct e. Qed.

(** A finalized commit: the majority's block was valid, and was applied. *)
Record finalized cs cs' : Prop := {
  fin_height : Height (rs cs') = Height (rs cs) + 1 /\ Round (rs cs') = 0 /\ Step (rs cs') = RoundStepNewHeight;
  fin_msgs : internalMsgs cs' = internalMsgs cs;
  fin_timeouts : forall ti, ti ∈ timeouts cs' -> ti ∈ timeouts cs \/ (ti_Height ti = Height (rs cs') /\ ti_Round ti = 0);
  fin_unlocked : LockedBlock (rs cs') = None /\ ProposalBlock (rs cs') = None;
  fin_votes : HeightVoteSet.NewHeightVoteSet (cfg_chain_id cfg) (Height (rs cs')) (st_Validators (state cs')) =
    Ok (Votes (rs cs'));
  fin_block : exists B b h x,
    VoteSet.TwoThirdsMajority (HeightVoteSet.Precommits (Votes (rs cs)) (CommitRound (rs cs))) = (B, true) /\
    ProposalBlock (rs cs) = Some b /\ Block_.HashesTo (Some b) (bid_Hash B) = Ok true /\
    ValidateBlock (state cs) b = Ok None /\ b_Header b = Some h /\ Block_.header_hash h = Ok x /\
    st_LastBlockID (state cs') = mkBID x (bid_PartsHeader B) /\ st_LastBlockHeight (state cs') = Height (rs cs)
}.

(** Otherwise the block was not applied, and the round state is as it was. *)
Record not_final cs cs' : Prop := {
  nf_rs : rs cs' = rs cs;
  nf_state : state cs' = state cs;
  nf_msgs : internalMsgs cs' = internalMsgs cs;
  nf_timeouts : forall ti, ti ∈ timeouts cs' -> ti ∈ timeouts cs \/ (ti_Height ti = Height (rs cs) /\ ti_Round ti = 0)
}.

Lemma not_final_refl cs : not_final cs cs.
Proof. split; auto. Qed.

Lemma i64_succ z h : i64 (z + 1) = h -> h < 2 ^ 63 - 1 -> i64 (h + 1) = h + 1.
Proof. intros <- Hh. pose proof (i64_range (z + 1)). apply i64_id. unfold is_i64 in *. lia. Qed.

Lemma finalizeCommit_spec now height cs cs' : finalizeCommit cfg now height cs = Ok cs' ->
  Height (rs cs) < 2 ^ 63 - 1 -> not_final cs cs' \/ finalized cs cs'.
Proof.
  unfold finalizeCommit. intros E Hlt. destruct (_ || _); [injection E as <-; left; apply not_final_refl|].
  destruct (VoteSet.TwoThirdsMajority _) as [B []] eqn:Em; cbn [negb] in E; [|done].
  destruct (PartSet.HasHeader _ _) eqn:Ehd; cbn [negb] in E; [|done].
  ok E as hashes Ehs. destruct hashes; [|done]. cbn [negb] in E. ok E as b Eb. apply deref_Ok in Eb.
  ok E as valid Ev. destruct valid; [|done]. cbn [negb] in E. apply block_valid_spec in Ev as Hval.
  ok E as hd Eh. apply deref_Ok in Eh. ok E as ps Eps. ok E as store Est. ok E as sc Esc.
  ok E as [[[err app'] db] sc'] Eap. ok E as db' Esv. ok E as cs1 Eup. injection E as <-.
  apply updateToState_spec in Eup as [Ehh Hup]. simpl in Ehh, Hup.
  destruct Hup as [[_ ->]|[Hlt' Hnew]].
  { left. split; try done. simpl. intros ti [?|Hti]%elem_of_app; [by left|].
    apply list_elem_of_singleton in Hti as ->. by right. }
  right. apply ChainState.ApplyBlock_spec in Eap. destruct err as [err|].
  { destruct Eap as [-> _]. unfold ChainState.Copy in Esc. ok Esc as v1 Ev1. ok Esc as v2 Ev2. injection Esc as <-.
    simpl in Hlt'. lia. }
  destruct Eap as (_ & h' & x & vs & nvs & app1 & app2 & nv & si & Eh' & Ex & _ & _ & _ & _ & Hsi & _ & Hs).
  assert (h' = hd) as -> by congruence. destruct Hnew as [(Hp1 & Hp2 & Hp3) Hm Htm Hul Hvo Hst].
  assert (st_LastBlockHeight sc' = Height (rs cs)) as Hsc.
  { rewrite Hs, Hsi. simpl. rewrite (ValidateBlock_height _ _ _ Hval Eh). done. }
  split.
  - simpl. rewrite Hp1, Hsc. split; [by eapply i64_succ|done].
  - exact Hm.
  - simpl. rewrite Htm. intros ti [?|Hti]%elem_of_app; [by left|].
    apply list_elem_of_singleton in Hti as ->. by right.
  - exact Hul.
  - simpl. rewrite Hst. exact Hvo.
  - exists B, b, hd, x. rewrite Eb in Ehs. split_and!; try done.
    + simpl. rewrite Hst, Hs, Hsi. simpl. unfold PartSet.HasHeader in Ehd. destruct (parts_at _ _); [|done].
      by apply psh_Equals_eq in Ehd as ->.
    + simpl. by rewrite Hst.
Qed.

Lemma tryFinalizeCommit_spec now height cs cs' : tryFinalizeCommit cfg now height cs = Ok cs' ->
  Height (rs cs) < 2 ^ 63 - 1 -> not_final cs cs' \/ finalized cs cs'.
Proof.
  unfold tryFinalizeCommit. intros E Hlt. destruct (negb _); [done|].
  destruct (VoteSet.TwoThirdsMajority _) as [B ok]. destruct (_ || _); [injection E as <-; left; apply not_final_refl|].
  ok E as hs Ehs. destruct hs; cbn [negb] in E; [exact (finalizeCommit_spec _ _ _ _ E Hlt)|]. ok E as y Ey. injection E as <-. left. apply not_final_refl.
Qed.

(** The handling of an event: a change within the height, a finalized commit
    in its course, and perhaps the first round of the next height. *)
Definition crosses cs cs' : Prop :=
  exists cs1 cs2, moves cs cs1 /\ finalized cs1 cs2 /\
    (cs' = cs2 \/ exists now, enterNewRound cfg now (Height (rs cs2)) 0 cs2 = Ok cs').

Definition proceeds cs cs' : Prop := moves cs cs' \/ crosses cs cs'.

Lemma moves_proceeds cs1 cs2 cs3 : moves cs1 cs2 -> proceeds cs2 cs3 -> proceeds cs1 cs3.
Proof.
  intros Hm [Hm'|(a & b & Ha & Hf & Hb)]; [left; by etransitivity|right].
  exists a, b. split; [by etransitivity|done].
Qed.

Lemma not_final_moves cs cs' : not_final cs cs' -> moves cs cs'.
Proof.
  intros [R S M T]. apply moves_frame; rewrite ?R; auto with lia.
  intros ti Hti. destruct (T ti Hti) as [|[-> _]]; [by left|by right].
Qed.

Lemma ev_final cs cs' : not_final cs cs' \/ finalized cs cs' -> proceeds cs cs'.
Proof.
  intros [Hn|Hf]; [left; by apply not_final_moves|right]. exists cs, cs'. by split_and!; [|done|left].
Qed.

Lemma proceeds_evolves cs cs' : proceeds cs cs' -> evolves cs cs'.
Proof.
  intros [[? _]|(cs1 & cs2 & [Hm _] & [(Hh & _) M T _ _ _] & Hn)]; [done|]. transitivity cs1; [done|].
  transitivity cs2.
  - split; [left; lia| | |lia].
    + exists []. rewrite M, app_nil_r. split; [done|]. intros v k Hin. set_solver.
    + intros ti Hti. destruct (T ti Hti) as [|[-> _]]; [by left|by right].
  - destruct Hn as [->|(now & E)]; [done|]. by apply ev_enterNewRound in E as [? _].
Qed.

(** [enterCommit] before it tries to finalize. *)
Record at_commit (commitRound : Z) cs cs1 : Prop := {
  ac_pos : Height (rs cs1) = Height (rs cs) /\ Round (rs cs1) = Round (rs cs) /\ Step (rs cs1) = RoundStepCommit;
  ac_votes : Votes (rs cs1) = Votes (rs cs);
  ac_lock : LockedRound (rs cs1) = LockedRound (rs cs) /\ LockedBlock (rs cs1) = LockedBlock (rs cs);
  ac_block : ProposalBlock (rs cs1) = ProposalBlock (rs cs) \/ ProposalBlock (rs cs1) = LockedBlock (rs cs) \/
             ProposalBlock (rs cs1) = None;
  ac_rest : state cs1 = state cs /\ internalMsgs cs1 = internalMsgs cs /\ timeouts cs1 = timeouts cs
}.

Lemma enterCommit_spec now height commitRound cs cs' : enterCommit cfg now height commitRound cs = Ok cs' ->
  Height (rs cs) < 2 ^ 63 - 1 ->
  cs' = cs \/
  exists cs1, Step (rs cs) < RoundStepCommit /\ at_commit commitRound cs cs1 /\ (not_final cs1 cs' \/ finalized cs1 cs').
Proof.
  unfold enterCommit. intros E Hlt. destruct (_ || _) eqn:Hg; [injection E as <-; by left|right].
  destruct (VoteSet.TwoThirdsMajority _) as [B []]; cbn [negb] in E; [|done]. ok E as locked El.
  set (cs0 := if locked then _ else _) in E. ok E as have Eh. ok E as cs2 E2.
  assert (exists b p hp, cs2 = with_rs (rs_proposal (Proposal_ (rs cs0)) b p) (with_heap hp cs0) /\
    (b = ProposalBlock (rs cs0) \/ b = None)) as (b & p & hp & -> & Hb).
  { destruct have; [|by eapply expect_parts_spec]. injection E2 as <-.
    exists (ProposalBlock (rs cs0)), (ProposalBlockParts (rs cs0)), (partsHeap cs0). split; [|by left]. by destruct cs0 as [[]]. }
  match type of E with tryFinalizeCommit _ _ _ ?x = _ => set (cs3 := x) in E end.
  assert (at_commit commitRound cs cs3) as Hc.
  { split; unfold cs3, cs0; destruct locked; simpl; try done; destruct Hb as [->| ->]; unfold cs0; auto. }
  exists cs3. split; [lia|]. split; [exact Hc|]. apply (tryFinalizeCommit_spec _ _ _ _ E).
  by destruct (ac_pos _ _ _ Hc) as [-> _].
Qed.

Lemma ev_enterCommit now height commitRound cs cs' : enterCommit cfg now height commitRound cs = Ok cs' ->
  Height (rs cs) < 2 ^ 63 - 1 -> moves cs cs' \/ exists cs1, moves cs cs1 /\ finalized cs1 cs'.
Proof.
  intros E Hlt. destruct (enterCommit_spec _ _ _ _ _ E Hlt) as [->|(cs1 & Hs & Hc & Hf)]; [by left|].
  assert (moves cs cs1) as Hm.
  { destruct Hc as [(P1 & P2 & P3) _ _ _ (S & M & T)]. apply moves_frame; auto with lia. rewrite T. by left. }
  destruct Hf as [Hf|Hf]; [left|right; by exists cs1]. etransitivity; [exact Hm|by apply not_final_moves].
Qed.

(** *** Messages *)
Lemma ev_setProposal p cs o cs' : defaultSetProposal p cs = Ok (o, cs') -> moves cs cs'.
Proof.
  unfold defaultSetProposal. intros E. destruct (Proposal_ (rs cs)); [by injection E as _ <-|].
  ok E as p' Ep. destruct (_ || _); [by injection E as _ <-|]. destruct (_ <=? _); [by injection E as _ <-|].
  destruct (_ && _); [by injection E as _ <-|]. ok E as [pr vset] Epr. ok E as pr' Epr'.
  destruct (negb _); [injection E as _ <-; frame|]. ok E as ps Eps. injection E as _ <-. frame.
Qed.

Lemma ev_complete_block now height ps cs cs' : complete_block cfg now height ps cs = Ok cs' ->
  Height (rs cs) < 2 ^ 63 - 1 -> proceeds cs cs'.
Proof.
  unfold complete_block. intros E Hlt. ok E as rd Erd. ok E as [ob err] Eob. ok E as b Eb.
  match type of E with (if _ then enterPrevote _ _ ?x else _) = _ => set (cs1 := x) in E end.
  apply (moves_proceeds _ cs1); [frame|]. destruct (_ && _); [left; by eapply ev_enterPrevote|].
  destruct (_ =? _); [|injection E as <-; by left]. apply ev_final. by eapply tryFinalizeCommit_spec.
Qed.

Lemma ev_addProposalBlockPart now height part verify cs o cs' :
  addProposalBlockPart cfg now height part verify cs = Ok (o, cs') -> Height (rs cs) < 2 ^ 63 - 1 -> proceeds cs cs'.
Proof.
  unfold addProposalBlockPart. intros E Hlt. destruct (negb _); [injection E as _ <-; by left|].
  destruct (ProposalBlockParts (rs cs)) as [ptr|]; [|injection E as _ <-; by left].
  ok E as ps Eps. ok E as pt Ept. ok E as [[added err] ps'] Ea.
  set (cs1 := with_heap _ cs) in E. apply (moves_proceeds _ cs1); [frame|].
  destruct err; [injection E as _ <-; by left|]. destruct (_ && _); [|injection E as _ <-; by left].
  ok E as cs2 E2. injection E as _ <-. by eapply ev_complete_block.
Qed.

Lemma unlock_on_polka_spec vote prevotes cs cs' : unlock_on_polka vote prevotes cs = Ok cs' ->
  cs' = cs \/
  exists b B, cs' = unlock cs /\ LockedBlock (rs cs) = Some b /\
    LockedRound (rs cs) < v_Round vote <= Round (rs cs) /\ VoteSet.TwoThirdsMajority prevotes = (B, true) /\
    Block_.HashesTo (Some b) (bid_Hash B) = Ok false.
Proof.
  unfold unlock_on_polka. intros E. destruct (LockedBlock (rs cs)) as [b|] eqn:El; [|by injection E as <-; left].
  destruct (_ && _) eqn:Hg; [|by injection E as <-; left].
  destruct (VoteSet.TwoThirdsMajority prevotes) as [B []] eqn:Em; ok E as same Es.
  - destruct same; injection E as <-; [by left|]. right. exists b, B. split_and!; try done; lia.
  - injection Es as <-. injection E as <-. by left.
Qed.

Lemma ev_added_prevote now vote cs cs' : added_prevote cfg now vote cs = Ok cs' -> moves cs cs'.
Proof.
  unfold added_prevote. intros E. ok E as cs1 E1.
  assert (moves cs cs1) as He by (apply unlock_on_polka_spec in E1 as [->|(b & B & -> & _)]; [done|frame]).
  etransitivity; [exact He|]. destruct (_ && _).
  - ok E as cs2 E2. transitivity cs2; [by eapply ev_enterNewRound|].
    destruct (VoteSet.HasTwoThirdsMajority _); [by eapply ev_enterPrecommit|].
    ok E as cs3 E3. transitivity cs3; [by eapply ev_enterPrevote|by eapply ev_enterPrevoteWait].
  - destruct (Proposal_ (rs cs1)); [|by injection E as <-].
    destruct (_ && _); [by eapply ev_enterPrevote|by injection E as <-].
Qed.

Lemma ev_added_precommit now vote cs cs' : added_precommit cfg now vote cs = Ok cs' ->
  Height (rs cs) < 2 ^ 63 - 1 -> proceeds cs cs'.
Proof.
  unfold added_precommit. intros E Hlt. destruct (VoteSet.TwoThirdsMajority _) as [B []].
  - destruct (_ =? _)%nat; [left; by eapply ev_enterNewRound|].
    ok E as cs1 E1. ok E as cs2 E2. ok E as cs3 E3. ok E as pc Epc.
    apply ev_enterNewRound in E1. apply ev_enterPrecommit in E2.
    apply (moves_proceeds _ cs1); [done|]. apply (moves_proceeds _ cs2); [done|].
    apply ev_enterCommit in E3; [|by destruct E2 as [_ ->], E1 as [_ ->]].
    destruct (_ && _).
    2:{ injection E as <-. destruct E3 as [?|(a & Ha & Hf)]; [by left|right]. exists a, cs3. by split_and!; [..|left]. }
    destruct E3 as [Hm|(a & Ha & Hf)].
    + left. transitivity cs3; [done|by eapply ev_enterNewRound].
    + right. exists a, cs3. split_and!; [done..|right]. by exists now.
  - left. destruct (_ && _); [|by injection E as <-]. ok E as cs1 E1. ok E as cs2 E2.
    transitivity cs1; [by eapply ev_enterNewRound|]. transitivity cs2; [by eapply ev_enterPrecommit|].
    by eapply ev_enterPrecommitWait.
Qed.

Lemma ev_addVote now vote k cs o cs' : addVote cfg now vote k cs = Ok (o, cs') ->
  Height (rs cs) < 2 ^ 63 - 1 -> proceeds cs cs'.
Proof.
  unfold addVote. intros E Hlt. ok E as v Ev. destruct (_ =? _).
  { destruct (negb _); [injection E as _ <-; by left|]. ok E as [[added err] lc] Ea. ok E as cs1 E1. injection E as _ <-.
    left. transitivity (with_rs (rs_lastCommit (Some lc)) cs); [frame|].
    destruct (_ && _); [by eapply ev_enterNewRound|by injection E1 as <-]. }
  destruct (_ =? _); [|injection E as _ <-; by left]. ok E as [[added err] votes] Ea. ok E as cs1 E1. injection E as _ <-.
  apply (moves_proceeds _ (with_rs (rs_votes votes) cs)); [frame|].
  destruct (negb added); [injection E1 as <-; by left|]. destruct (_ =? _); [left; by eapply ev_added_prevote|].
  destruct (_ =? _); [by eapply ev_added_precommit|done].
Qed.

Lemma ev_handleTimeout now ti cs cs' : handleTimeout cfg now ti cs = Ok cs' -> moves cs cs'.
Proof.
  unfold handleTimeout. intros E. destruct (_ || _); [by injection E as <-|].
  destruct (_ =? _); [by eapply ev_enterNewRound|]. destruct (_ =? _); [by eapply ev_enterPrevote|].
  destruct (_ =? _); [by eapply ev_enterPrecommit|]. destruct (_ =? _); [by eapply ev_enterNewRound|done].
Qed.

Lemma ev_handleMsg now mi cs cs' : handleMsg cfg now mi cs = Ok cs' -> Height (rs cs) < 2 ^ 63 - 1 -> proceeds cs cs'.
Proof.
  unfold handleMsg. intros E Hlt. destruct (mi_Msg mi).
  - ok E as [o cs1] E1. injection E as <-. left. by eapply ev_setProposal.
  - ok E as [[a e] cs1] E1. injection E as <-. by eapply ev_addProposalBlockPart.
  - ok E as [[a e] cs1] E1. injection E as <-. unfold tryAddVote in E1. ok E1 as [[a1 e1] cs2] E2. injection E1 as _ _ <-.
    by eapply ev_addVote.
Qed.

Lemma step_proceeds cs cs' : step cs cs' -> proceeds cs cs'.
Proof.
  intros [now e _ Hlt E]. destruct e; simpl in E; [by eapply ev_handleMsg..|left|left].
  - by eapply ev_handleTimeout.
  - unfold peerMaj23 in E. destruct (negb _); [by injection E as <-|]. ok E as votes Ev. injection E as <-. frame.
Qed.

Lemma step_evolves cs cs' : step cs cs' -> evolves cs cs'.
Proof. intros Hs. by apply proceeds_evolves, step_proceeds. Qed.

Lemma run_evolves cs cs' : rtc step cs cs' -> evolves cs cs'.
Proof. induction 1; [done|]. etransitivity; [by apply step_evolves|done]. Qed.

(** C28: height, round and step never go back: whatever a node handles, the
    state it reaches compares as later or equal ([CompareHRS]), what it sent
    stays sent, its new votes are for the heights it went through, and the
    chain state changes only with the height. *)
Theorem consensus_monotone cs cs' :
  rtc step cs cs' ->
  CompareHRS (Height (rs cs)) (Round (rs cs)) (Step (rs cs)) (Height (rs cs')) (Round (rs cs')) (Step (rs cs')) <= 0 /\
  (exists l, internalMsgs cs' = internalMsgs cs ++ l /\ votes_in (Height (rs cs)) (Height (rs cs')) l) /\
  (Height (rs cs') = Height (rs cs) -> state cs' = state cs).
Proof.
  intros [P M _ S]%run_evolves. split_and!; [|done..]. unfold hrs_le in P. unfold CompareHRS.
  repeat case_match; lia.
Qed.

(** ** The chain of committed blocks *)
(** Headers from the block after [prev], at [height], to [last]: each names its
    predecessor, and is named by its hash. *)
Fixpoint linked (height : Z) (prev : BlockID) (hs : list Header) (last : BlockID) : Prop :=
  match hs with
  | [] => prev = last
  | hd :: hs' =>
      h_Height hd = height /\ h_LastBlockID hd = prev /\
      exists id, Block_.header_hash hd = Ok (bid_Hash id) /\ linked (height + 1) id hs' last
  end.

Lemma linked_snoc height prev hs id hd last :
  linked height prev hs id -> h_Height hd = height + Z.of_nat (length hs) -> h_LastBlockID hd = id ->
  Block_.header_hash hd = Ok (bid_Hash last) -> linked height prev (hs ++ [hd]) last.
Proof.
  revert height prev. induction hs as [|hd' hs IH]; intros height prev Hl Hh Hid Hx; simpl in *.
  - subst. split_and!; [lia|done|by exists last].
  - destruct Hl as (H1' & H2' & id' & Hx' & Hl). split_and!; [done..|]. exists id'. split; [done|]. apply IH; try done. lia.
Qed.

(** The state a node works from is that of the previous height. *)
Definition at_state cs : Prop := 0 <= st_LastBlockHeight (state cs) /\ st_LastBlockHeight (state cs) + 1 = Height (rs cs).

Lemma ValidateBlock_link s b hd : ValidateBlock s b = Ok None -> b_Header b = Some hd ->
  h_LastBlockID hd = st_LastBlockID s.
Proof.
  unfold ValidateBlock. intros E Eh. ok E as e Eb. destruct e; [done|].
  apply Block_.ValidateBasic_iff in Eb as (h' & d & Eh' & _ & _ & _ & _ & Hl & _). congruence.
Qed.

Lemma moves_state cs cs' : moves cs cs' -> at_state cs -> state cs' = state cs /\ at_state cs'.
Proof. unfold at_state. intros [[_ _ _ S] Hh] Ha. rewrite (S Hh), Hh. done. Qed.

(** A step stays in the height, or commits a valid block. *)
Lemma step_commits cs cs' : step cs cs' -> at_state cs ->
  at_state cs' /\
  ((Height (rs cs') = Height (rs cs) /\ state cs' = state cs) \/
   exists b hd, Height (rs cs') = Height (rs cs) + 1 /\ ValidateBlock (state cs) b = Ok None /\ b_Header b = Some hd /\
     h_Height hd = Height (rs cs) /\ h_LastBlockID hd = st_LastBlockID (state cs) /\
     Block_.header_hash hd = Ok (bid_Hash (st_LastBlockID (state cs')))).
Proof.
  intros Hst Ha. assert (Height (rs cs) < 2 ^ 63 - 1) as Hlt by (by destruct Hst).
  destruct (step_proceeds _ _ Hst) as [Hm|(cs1 & cs2 & Hm & Hf & Hn)].
  { destruct (moves_state _ _ Hm Ha). split; [done|]. left. by destruct Hm. }
  destruct (moves_state _ _ Hm Ha) as [S1 A1]. destruct Hm as [_ Hh1].
  destruct Hf as [(P & _) _ _ _ _ (B & b & hd & x & _ & _ & _ & Hv & Eh & Ex & Eid & El)].
  assert (Height (rs cs') = Height (rs cs2) /\ state cs' = state cs2) as [Hh' Hs'].
  { destruct Hn as [->|(now & [[_ _ _ S2] Hh2]%ev_enterNewRound)]; [done|]. by rewrite (S2 Hh2). }
  unfold at_state in *. split; [rewrite Hh', Hs'; lia|right]. rewrite Hs', <- S1. exists b, hd.
  split_and!; [lia|done..| |by apply (ValidateBlock_link _ b)|by rewrite Eid].
  rewrite (ValidateBlock_height _ _ _ Hv Eh), <- Hh1, <- (proj2 A1). apply i64_id. unfold is_i64. lia.
Qed.

(** C5: the blocks a node commits form a chain: after any run, the headers of
    the blocks committed in it, one for each height, each passed
    [ValidateBlock], name each other from the block the node started after,
    and end with the node's last block. *)
Theorem committed_chain cs cs' :
  rtc step cs cs' -> at_state cs ->
  at_state cs' /\
  exists hs, Height (rs cs') = Height (rs cs) + Z.of_nat (length hs) /\
    linked (Height (rs cs)) (st_LastBlockID (state cs)) hs (st_LastBlockID (state cs')) /\
    Forall (fun hd => exists s b, ValidateBlock s b = Ok None /\ b_Header b = Some hd) hs.
Proof.
  intros Hr Ha. revert cs' Hr. apply rtc_ind_r.
  { split; [done|]. exists []. split_and!; simpl; [lia|done|constructor]. }
  intros cs1 cs2 _ Hst IH.
  destruct IH as (A1 & hs & Hh & Hl & HF). destruct (step_commits _ _ Hst A1) as [A2 [[Hh2 Hs2]|Hc]].
  - split; [done|]. exists hs. rewrite Hs2, Hh2. done.
  - destruct Hc as (b & hd & Hh2 & Hv & Eh & Eht & Elk & Ex). split; [done|]. exists (hs ++ [hd]). split_and!.
    + rewrite length_app. simpl. lia.
    + eapply linked_snoc; [exact Hl|congruence|exact Elk|exact Ex].
    + apply Forall_app. split; [done|]. constructor; [|constructor]. by exists (state cs1), b.
Qed.

End Steps.
