(* ===== verification/ConsensusSim.v ===== *)
(** * The consensus state machine implements the locking discipline

    At a height [h] with validators [vals], every event a node handles is a
    sequence of steps of [Locking]: prevotes follow the lock, a precommit for
    a block comes with a polka of its round and a lock, a lock is given up
    only for a later polka of another block, and a block is decided on a
    majority of precommits. *)
From S2P Require Import Prelude BitArray Wire WireReflect Types SimpleTree SignBytes Validators VoteSets HeightVotes.
From S2P Require Import PrivVal PartSets Blocks Store ChainState Locking Consensus ConsensusSteps.
Import Consensus.

Section Sim.
Context `{Crypto} {A PV : Type} `{ConsensusApp A} `{PrivValidatorLaws PV} (cfg : Config).
Context (h : Z) (vals : list Validator) (Hvals : VoteSet.vals_ok vals) (Hh : h <> 0).
Implicit Types cs : CS (A := A) (PV := PV).

Let cid : bytes := cfg_chain_id cfg.

(** A majority: votes of more than two thirds of the power, with valid
    signatures, one of them for [B] itself. *)
Definition backed (ty r : Z) (B : BlockID) : Prop :=
  (exists vs, length vs = length vals /\ VoteSet.signed_quorum cid h r ty vals B vs) /\
  exists i v, VoteSet.valid_vote cid h r ty vals i v /\ v_BlockID v = B.

Let astep := Locking.astep (backed VoteTypePrevote) (backed VoteTypePrecommit).
Let ainv := Locking.inv (backed VoteTypePrevote) (backed VoteTypePrecommit).

Lemma backed_maj ty r vs B : IsVoteTypeValid ty = true ->
  VoteSet.inv cid h r ty vals None vs -> VoteSet.maj23 vs = Some B -> backed ty r B.
Proof using Hvals.
  intros Hty Hi HB. split.
  - by eapply VoteSet.maj23_signed.
  - by apply (VoteSet.inv_voted _ _ _ _ _ _ _ Hi).
Qed.

Lemma polka_backed votes r B : HeightVoteSet.base cid h vals votes ->
  VoteSet.TwoThirdsMajority (HeightVoteSet.Prevotes votes r) = (B, true) -> backed VoteTypePrevote r B.
Proof using Hvals.
  intros (_ & _ & Hs) E. unfold HeightVoteSet.Prevotes in E.
  destruct (HeightVoteSet.roundVoteSets votes !! r) as [rvs|] eqn:Er; [|done]. simpl in E.
  destruct (VoteSet.maj23 _) eqn:Em; [|done]. injection E as ->. destruct (Hs _ _ Er) as [Hp _].
  by eapply backed_maj.
Qed.

Lemma commit_backed votes r B : HeightVoteSet.base cid h vals votes ->
  VoteSet.TwoThirdsMajority (HeightVoteSet.Precommits votes r) = (B, true) -> backed VoteTypePrecommit r B.
Proof using Hvals.
  intros (_ & _ & Hs) E. unfold HeightVoteSet.Precommits in E.
  destruct (HeightVoteSet.roundVoteSets votes !! r) as [rvs|] eqn:Er; [|done]. simpl in E.
  destruct (VoteSet.maj23 _) eqn:Em; [|done]. injection E as ->. destruct (Hs _ _ Er) as [_ Hp].
  by eapply backed_maj.
Qed.

(** ** Blocks and their hashes *)
(** A decoded block carries the hashes that [FillHeader] would fill in. *)
Definition decoded (b : Block) : Prop :=
  forall hd, b_Header b = Some hd -> is_Some (h_LastCommitHash hd) /\ is_Some (h_DataHash hd).

Definition hash_of (b : Block) : bytes := match block_hash (Some b) with Ok x => x | Panic => [] end.

Lemma header_of_decoded v hd : Block_.header_of v = Some hd -> is_Some (h_LastCommitHash hd) /\ is_Some (h_DataHash hd).
Proof using Type.
  unfold Block_.header_of. repeat case_match; try done. intros E.
  destruct (Block_.bid_of _); [|done]. simpl in E. injection E as <-. simpl. eauto.
Qed.

Lemma read_block_decoded data b err : Block_.read_block data = Ok (Some b, err) -> decoded b.
Proof using Type.
  unfold Block_.read_block. intros E. ok E as [v r] Ev. injection E as Eb _.
  destruct v as [| |v| | | | |]; try done. unfold Block_.block_of in Eb.
  destruct v as [| | | |vs| | |]; try done. destruct vs as [|hv [|dv [|cv [|]]]]; try done.
  destruct (Block_.of_ptr Block_.header_of hv) as [ho|] eqn:Eh; [|done]. simpl in Eb.
  destruct (Block_.of_ptr Block_.data_of dv); [|done]. simpl in Eb.
  destruct (Block_.of_ptr Block_.commit_of cv); [|done]. simpl in Eb. injection Eb as <-.
  intros hd Ehd. simpl in Ehd. subst ho. unfold Block_.of_ptr in Eh. destruct hv as [| |hv| | | | |]; try done.
  destruct (Block_.header_of hv) eqn:Ehv; [|done]. simpl in Eh. injection Eh as ->. by eapply header_of_decoded.
Qed.

Lemma HashesTo_true b x : Block_.HashesTo (Some b) x = Ok true -> x <> [] /\ block_hash (Some b) = Ok x.
Proof using Type.
  unfold Block_.HashesTo, block_hash. destruct x as [|x0 x]; [done|]. intros E. ok E as [y b'] Ey. rewrite Ey.
  injection E as E%bytes_eqb_eq. subst y. done.
Qed.

Lemma HashesTo_hash b x : Block_.HashesTo (Some b) x = Ok true -> hash_of b = x /\ x <> [].
Proof using Type. intros [Hx E]%HashesTo_true. unfold hash_of. by rewrite E. Qed.

Lemma HashesTo_other b x : Block_.HashesTo (Some b) x = Ok false -> hash_of b <> [] -> x <> hash_of b.
Proof using Type.
  unfold Block_.HashesTo, hash_of, block_hash. destruct x as [|x0 x]; [done|]. intros E. ok E as [y b'] Ey. rewrite Ey.
  injection E as E%bytes_eqb_neq. simpl. congruence.
Qed.

(** The hash of a decoded block is its header's. *)
Lemma decoded_hash b hd x : decoded b -> b_Header b = Some hd -> Block_.HashesTo (Some b) x = Ok true ->
  Block_.header_hash hd = Ok x.
Proof using Type.
  intros Hd Eh [Hx E]%HashesTo_true. destruct (Hd hd Eh) as [[lc El] [dh Edh]].
  unfold block_hash in E. ok E as [y b'] Ey. injection E as ->. destruct b as [bh bd bc]. simpl in Eh. subst bh.
  destruct bd as [bd|], bc as [bc|]; simpl in Ey; try (injection Ey as <- _; done).
  unfold Block_.FillHeader in Ey. cbn [b_Header b_Data b_LastCommit deref rbind] in Ey. rewrite El, Edh in Ey.
  cbn [b_Header deref rbind] in Ey.
  assert (Block_.set_hashes hd (Some lc) (Some dh) = hd) as Es by (destruct hd; simpl in *; by subst).
  rewrite Es in Ey. ok Ey as z Ez. by injection Ey as -> _.
Qed.

(** ** The abstraction *)
Definition lock_of (r : RoundState) : option (Z * bytes) :=
  match LockedBlock r with None => None | Some b => Some (LockedRound r, hash_of b) end.

Definition vote_of (mi : msgInfo) : option Locking.avote :=
  match mi_Msg mi with
  | VoteMessage (Some v) =>
      if v_Height v =? h then Some (Locking.mkAV (v_Round v) (v_Type v) (v_BlockID v)) else None
  | _ => None
  end.
Definition sent_of cs : list Locking.avote := omap vote_of (internalMsgs cs).

Definition abs_at (s : Z) cs : Locking.t := Locking.mk (Round (rs cs)) s (lock_of (rs cs)) (sent_of cs) None.
Definition abs cs : Locking.t := abs_at (Step (rs cs)) cs.

Record cinv cs : Prop := {
  c_height : Height (rs cs) = h;
  c_votes : HeightVoteSet.base cid h vals (Votes (rs cs));
  c_round : 0 <= Round (rs cs);
  c_timeouts : forall ti, ti ∈ timeouts cs -> ti_Height ti = h -> ti_Round ti <= Round (rs cs);
  c_locked : forall b, LockedBlock (rs cs) = Some b -> hash_of b <> [] /\ decoded b;
  c_block : forall b, ProposalBlock (rs cs) = Some b -> decoded b;
  c_new : Step (rs cs) = RoundStepNewHeight -> LockedBlock (rs cs) = None
}.

Definition sim cs cs' : Prop := cinv cs' /\ rtc astep (abs cs) (abs cs').

#[local] Instance sim_trans : Transitive sim.
Proof using Type. intros cs1 cs2 cs3 [_ R1] [C2 R2]. split; [done|]. by etransitivity. Qed.

Lemma sim_refl cs : cinv cs -> sim cs cs.
Proof using Type. by split. Qed.

(** What an update may change without voting or locking. *)
Record quiet cs cs' : Prop := {
  q_height : Height (rs cs') = Height (rs cs);
  q_pos : Round (rs cs) < Round (rs cs') \/ (Round (rs cs) = Round (rs cs') /\ Step (rs cs) <= Step (rs cs'));
  q_new : Step (rs cs') = RoundStepNewHeight -> Step (rs cs) = RoundStepNewHeight;
  q_votes : Votes (rs cs') = Votes (rs cs) \/ HeightVoteSet.base cid h vals (Votes (rs cs'));
  q_lock : LockedRound (rs cs') = LockedRound (rs cs) /\ LockedBlock (rs cs') = LockedBlock (rs cs);
  q_block : forall b, ProposalBlock (rs cs') = Some b ->
    ProposalBlock (rs cs) = Some b \/ LockedBlock (rs cs) = Some b \/ decoded b;
  q_sent : sent_of cs' = sent_of cs;
  q_timeouts : forall ti, ti ∈ timeouts cs' -> ti ∈ timeouts cs \/ ti_Round ti <= Round (rs cs')
}.

Lemma quiet_cinv cs cs' : quiet cs cs' -> cinv cs -> cinv cs'.
Proof using Type.
  intros [Q1 Q2 Q3 Q4 [Q5 Q6] Q7 Q8 Q9] [C1 C2 C3 C4 C5 C6 C7]. split; rewrite ?Q6; try done; try congruence.
  - destruct Q4 as [->|?]; done.
  - lia.
  - intros ti Hti Hht. destruct (Q9 ti Hti) as [Hin|]; [|done]. specialize (C4 ti Hin Hht). lia.
  - intros b Eb. destruct (Q7 b Eb) as [?|[?|?]]; [by apply C6|by apply C5|done].
  - auto.
Qed.

Lemma quiet_abs cs cs' s s' : quiet cs cs' -> Round (rs cs) < Round (rs cs') \/ s <= s' ->
  rtc astep (abs_at s cs) (abs_at s' cs').
Proof using Type.
  intros Hq Hs. unfold abs_at, lock_of. rewrite (q_sent _ _ Hq). destruct (q_lock _ _ Hq) as [-> ->].
  apply rtc_once. constructor. pose proof (q_pos _ _ Hq). lia.
Qed.

Lemma quiet_sim cs cs' : quiet cs cs' -> cinv cs -> sim cs cs'.
Proof using Type.
  intros Hq Hc. split; [by eapply quiet_cinv|]. apply quiet_abs; [done|]. pose proof (q_pos _ _ Hq). lia.
Qed.

(** ** Voting *)
Definition may_send (v : Locking.avote) cs cs' : Prop :=
  sent_of cs' = sent_of cs \/ sent_of cs' = sent_of cs ++ [v].

Lemma sent_of_app l1 l2 : omap vote_of (l1 ++ l2) = omap vote_of l1 ++ omap vote_of l2.
Proof using Type. apply omap_app. Qed.

Lemma signAddVote_sent ty x hd cs cs' : Height (rs cs) = h -> signAddVote ty x hd cs = Ok cs' ->
  rs cs' = rs cs /\ timeouts cs' = timeouts cs /\ partsHeap cs' = partsHeap cs /\
  may_send (Locking.mkAV (Round (rs cs)) ty (mkBID x hd)) cs cs'.
Proof using H1 H2.
  intros Hc (pv & [->|(v & -> & E1 & E2 & E3 & E4)])%signAddVote_spec; split_and!; try done; [by left|right].
  unfold sent_of. simpl. rewrite sent_of_app. f_equal. cbn. unfold vote_of. simpl. rewrite E1, Hc, Z.eqb_refl. by rewrite E2, E3, E4.
Qed.

(** [cinv] looks at the round state and the timeouts. *)
Lemma cinv_step cs cs' round st : cinv cs -> rs cs' = rs_step round st (rs cs) -> timeouts cs' = timeouts cs ->
  Round (rs cs) <= round -> st <> RoundStepNewHeight -> cinv cs'.
Proof using Type.
  intros [C1 C2 C3 C4 C5 C6 C7] E T Hr Hs. split; rewrite ?T, E; simpl; try done; [lia|].
  intros ti Hti Hht. specialize (C4 ti Hti Hht). lia.
Qed.

Lemma enter_equal height round st cs :
  past height round st (rs cs) = false -> round <= Round (rs cs) ->
  Height (rs cs) = height /\ round = Round (rs cs) /\ Step (rs cs) < st.
Proof using Type. intros [? ?]%past_false ?. lia. Qed.

(** The prevote is for the locked block, if there is one. *)
Lemma doPrevote_sent height round cs cs' : cinv cs -> defaultDoPrevote height round cs = Ok cs' ->
  rs cs' = rs cs /\ timeouts cs' = timeouts cs /\
  exists B, may_send (Locking.mkAV (Round (rs cs)) VoteTypePrevote B) cs cs' /\
    forall lr x, lock_of (rs cs) = Some (lr, x) -> bid_Hash B = x.
Proof using H1 H2.
  intros Hc.
  assert (forall x hd b cs', (let! cs1 := signAddVote VoteTypePrevote x hd cs in Ok (prevote_hook height round b cs1)) = Ok cs' ->
    rs cs' = rs cs /\ timeouts cs' = timeouts cs /\
    may_send (Locking.mkAV (Round (rs cs)) VoteTypePrevote (mkBID x hd)) cs cs') as Hv.
  { intros x hd b cs2 E. ok E as cs1 E1. injection E as <-.
    by destruct (signAddVote_sent _ _ _ _ _ (c_height _ Hc) E1) as (? & ? & _ & ?). }
  unfold defaultDoPrevote. intros E. unfold lock_of. destruct (LockedBlock (rs cs)) as [b|].
  { ok E as x Ex. apply Hv in E as (? & ? & ?). split_and!; try done. eexists. split; [done|].
    intros lr y [= <- <-]. unfold hash_of. by rewrite Ex. }
  assert (exists x hd b, (let! cs1 := signAddVote VoteTypePrevote x hd cs in Ok (prevote_hook height round b cs1)) = Ok cs')
    as (x & hd & b & E').
  { destruct (ProposalBlock (rs cs)) as [b|]; [|eauto]. ok E as valid Ev. destruct valid; cbn [negb] in E; [|eauto].
    ok E as x Ex. eauto. }
  apply Hv in E' as (? & ? & ?). split_and!; try done. by eexists.
Qed.

Lemma enterPrevote_sim height round cs cs' : cinv cs -> round <= Round (rs cs) ->
  enterPrevote height round cs = Ok cs' -> sim cs cs'.
Proof using H1 H2.
  intros Hc Hr E. unfold enterPrevote in E. destruct (past _ _ _ _) eqn:Hp; [injection E as <-; by apply sim_refl|].
  destruct (enter_equal _ _ _ _ Hp Hr) as (_ & -> & Hs). ok E as cs1 E1. injection E as <-.
  destruct (doPrevote_sent _ _ _ _ Hc E1) as (R & T & B & Hm & Hl). split.
  - eapply (cinv_step cs); [done|simpl; by rewrite R|done|lia|done].
  - apply rtc_once. unfold abs, abs_at, lock_of. simpl. rewrite R. destruct Hm as [Hm|Hm].
    + unfold sent_of in *. simpl. rewrite Hm. apply Locking.a_advance. unfold RoundStepPrevote in *. lia.
    + unfold sent_of in *. simpl. rewrite Hm. apply Locking.a_prevote; [done|exact Hl].
Qed.

(** ** Precommits *)
Lemma precommit_nil_sim s height round cs cs' :
  cinv cs -> round = Round (rs cs) -> s < RoundStepPrecommit -> precommit_nil height round cs = Ok cs' ->
  cinv cs' /\ rtc astep (abs_at s cs) (abs cs').
Proof using H1 H2.
  intros Hc -> Hs E. unfold precommit_nil in E. ok E as cs1 E1. injection E as <-.
  destruct (signAddVote_sent _ _ _ _ _ (c_height _ Hc) E1) as (R & T & _ & Hm). split.
  - eapply (cinv_step cs); [done|simpl; by rewrite R|done|lia|done].
  - apply rtc_once. unfold abs, abs_at, lock_of. simpl. rewrite R. destruct Hm as [Hm|Hm].
    + unfold sent_of in *. simpl. rewrite Hm. apply Locking.a_advance. unfold RoundStepPrecommit in *. lia.
    + unfold sent_of in *. simpl. rewrite Hm. by apply Locking.a_precommit_nil.
Qed.

(** Locking [b], which is the block of a polka of this round. *)
Lemma precommit_block_sim s height round B b p cs cs' :
  cinv cs -> round = Round (rs cs) -> s < RoundStepPrecommit -> backed VoteTypePrevote round B ->
  Block_.HashesTo (Some b) (bid_Hash B) = Ok true -> decoded b ->
  precommit_block height round B (Some b) (with_rs (rs_locked round (Some b) p) cs) = Ok cs' ->
  cinv cs' /\ rtc astep (abs_at s cs) (abs cs').
Proof using H1 H2.
  intros Hc -> Hs HB Hb Hd E. unfold precommit_block in E. ok E as cs1 E1. injection E as <-.
  destruct (HashesTo_hash _ _ Hb) as [Hx Hne].
  destruct (signAddVote_sent _ _ _ (with_rs (rs_locked (Round (rs cs)) (Some b) p) cs) _ (c_height _ Hc) E1)
    as (R & T & _ & Hm).
  simpl in R, T, Hm. split.
  - destruct Hc as [C1 C2 C3 C4 C5 C6 C7]. split; simpl; rewrite ?R, ?T; simpl; try done.
    intros b' [= <-]. rewrite Hx. done.
  - apply rtc_once. unfold abs, abs_at, lock_of. simpl. rewrite R. simpl. rewrite Hx.
    assert (B = mkBID (bid_Hash B) (bid_PartsHeader B)) as EB by (by destruct B). rewrite <- EB in Hm.
    destruct Hm as [Hm|Hm]; unfold sent_of in *; simpl in *; rewrite Hm.
    + by apply (Locking.a_precommit_lock _ _ _ _ _ _ B false).
    + by apply (Locking.a_precommit_lock _ _ _ _ _ _ B true).
Qed.

Lemma unlock_cinv cs : cinv cs -> cinv (unlock cs).
Proof using Type. intros []. by split. Qed.

(** Unlocking for a polka of this round that is for another block. *)
Lemma unlock_sim s B cs :
  cinv cs -> ainv (abs_at s cs) -> s < RoundStepPrecommit -> backed VoteTypePrevote (Round (rs cs)) B ->
  (forall b, LockedBlock (rs cs) = Some b -> bid_Hash B <> hash_of b) ->
  exists s', s <= s' < RoundStepPrecommit /\ rtc astep (abs_at s cs) (abs_at s' (unlock cs)).
Proof using Type.
  intros Hc Hi Hs HB Hne. unfold abs_at, lock_of. simpl. destruct (LockedBlock (rs cs)) as [b|] eqn:Eb.
  2:{ exists s. split; [lia|done]. }
  exists (if Round (rs cs) =? Round (rs cs) then Z.max s Locking.no_prevote else s).
  unfold RoundStepPrecommit, Locking.no_prevote in *. split; [rewrite Z.eqb_refl; lia|]. apply rtc_once.
  apply (Locking.a_unlock _ _ _ _ _ _ _ (Round (rs cs)) B); [done|by apply Hne|]. split; [|lia].
  destruct (Locking.inv_lock _ _ _ Hi (LockedRound (rs cs)) (hash_of b)) as [?|[_ ?]]; simpl in *; [|lia|].
  - unfold lock_of. by rewrite Eb.
  - unfold Locking.precommitted in *. lia.
Qed.

(** An update of the fields the abstraction does not see. *)
Ltac quiet := split; simpl; auto; try done; try lia.

Lemma expect_parts_quiet hd cs cs' : expect_parts hd cs = Ok cs' -> quiet cs cs'.
Proof using Type. intros (b & p & hp & -> & Hb)%expect_parts_spec. quiet. intros b' ->. destruct Hb as [->|]; auto. done. Qed.

Lemma enterPrecommit_at s height round cs cs' :
  cinv cs -> ainv (abs_at s cs) -> past height round RoundStepPrecommit (rs cs) = false -> round <= Round (rs cs) ->
  s < RoundStepPrecommit -> enterPrecommit height round cs = Ok cs' ->
  cinv cs' /\ rtc astep (abs_at s cs) (abs cs').
Proof using H1 H2 Hvals.
  intros Hc Hi Hp Hr Hs E. destruct (enter_equal _ _ _ _ Hp Hr) as (_ & Er & _). unfold enterPrecommit in E.
  rewrite Hp in E. destruct (VoteSet.TwoThirdsMajority _) as [B []] eqn:Em; cbn [negb] in E.
  2:{ by eapply precommit_nil_sim. }
  pose proof (polka_backed _ _ _ (c_votes _ Hc) Em) as HB. rewrite Er in HB.
  destruct (HeightVoteSet.POLInfo _) as [pr pb]. destruct (_ <? _); [done|].
  destruct (Nat.eqb_spec (length (bid_Hash B)) 0) as [E0|E0].
  { apply nil_length_inv in E0. destruct (LockedBlock (rs cs)) as [b|] eqn:Eb; [|by eapply precommit_nil_sim].
    destruct (unlock_sim s B cs Hc Hi Hs HB) as (s' & Hs' & R1).
    { intros b' Eb'. rewrite E0. by destruct (c_locked _ Hc b' Eb') as [? _]. }
    destruct (precommit_nil_sim s' height round (unlock cs) cs' (unlock_cinv _ Hc)) as [Hc' R2]; [done|lia|done|].
    split; [done|]. by etransitivity. }
  ok E as relock El. destruct relock.
  { destruct (LockedBlock (rs cs)) as [b|] eqn:Eb; [|destruct (bid_Hash B); discriminate].
    rewrite Er in E. eapply (precommit_block_sim s height (Round (rs cs))); [done|done|done|exact HB|exact El| |exact E].
    by destruct (c_locked _ Hc b Eb). }
  ok E as have Eh. destruct have.
  { ok E as b Eb. apply deref_Ok in Eb. rewrite Eb in Eh. ok E as valid Ev. destruct valid; [|done]. cbn [negb] in E.
    rewrite Er in E. eapply (precommit_block_sim s height (Round (rs cs))); [done|done|done|exact HB|exact Eh| |exact E]. by apply (c_block _ Hc). }
  ok E as cs1 E1. destruct (unlock_sim s B cs Hc Hi Hs HB) as (s' & Hs' & R1).
  { intros b Eb. rewrite Eb in El. apply HashesTo_other; [done|]. by destruct (c_locked _ Hc b Eb). }
  pose proof (expect_parts_quiet _ _ _ E1) as Hq. pose proof (quiet_cinv _ _ Hq (unlock_cinv _ Hc)) as Hc1.
  destruct (precommit_nil_sim s' height round cs1 cs' Hc1) as [Hc' R2]; [|lia|done|].
  { apply expect_parts_spec in E1 as (? & ? & ? & -> & _). done. }
  split; [done|]. etransitivity; [exact R1|]. etransitivity; [|exact R2]. apply quiet_abs; [done|]. lia.
Qed.

Lemma enterPrecommit_sim height round cs cs' : cinv cs -> ainv (abs cs) -> round <= Round (rs cs) ->
  enterPrecommit height round cs = Ok cs' -> sim cs cs'.
Proof using H1 H2 Hvals.
  intros Hc Hi Hr E. destruct (past height round RoundStepPrecommit (rs cs)) eqn:Hp.
  - unfold enterPrecommit in E. rewrite Hp in E. injection E as <-. by apply sim_refl.
  - destruct (enter_equal _ _ _ _ Hp Hr) as (_ & _ & Hs). by eapply enterPrecommit_at.
Qed.

(** ** Rounds *)
Lemma no_votes_sent l : (forall v k, mkMsg (VoteMessage v) k ∉ l) -> omap vote_of l = [].
Proof using Type.
  intros Hl. induction l as [|m l IH]; [done|]. simpl.
  assert (vote_of m = None) as ->.
  { destruct m as [m k]. unfold vote_of. simpl. destruct m as [| |v]; try done. destruct (Hl v k). by left. }
  apply IH. intros v k Hin. apply (Hl v k). by right.
Qed.

Lemma only_sends_quiet_sim cs cs' : only_sends cs cs' -> quiet cs cs'.
Proof using Type.
  intros [R S T (l & M & V)]. split; rewrite ?R; auto with lia.
  - unfold sent_of. rewrite M, sent_of_app, (no_votes_sent l V). apply app_nil_r.
  - intros ti. rewrite T. auto.
Qed.

Lemma quiet_trans cs1 cs2 cs3 : quiet cs1 cs2 -> quiet cs2 cs3 -> quiet cs1 cs3.
Proof using Type.
  intros [Q1 Q2 Q3 Q4 [Q5 Q5'] Q6 Q7 Q8] [P1 P2 P3 P4 [P5 P5'] P6 P7 P8]. split; try congruence; try lia; auto.
  - destruct P4 as [->|?]; [done|by right].
  - split; congruence.
  - intros b Hb. destruct (P6 b Hb) as [?|[?|?]]; [by apply Q6|rewrite Q5' in *; auto|auto].
  - intros ti Hti. destruct (P8 ti Hti) as [Hin|?]; [|by right]. destruct (Q8 ti Hin); [by left|right; lia].
Qed.

Lemma quiet_step round st cs : Round (rs cs) = round -> Step (rs cs) <= st -> st <> RoundStepNewHeight ->
  quiet cs (newStep (updateRoundStep round st cs)).
Proof using Type. intros. quiet. Qed.

Lemma enterPropose_sim now height round cs cs' : cinv cs -> round = Round (rs cs) ->
  enterPropose cfg now height round cs = Ok cs' -> sim cs cs'.
Proof using H1 H2.
  intros Hc Er E. unfold enterPropose in E. destruct (past _ _ _ _) eqn:Hp; [injection E as <-; by apply sim_refl|].
  destruct (enter_equal _ _ _ _ Hp) as (_ & _ & Hs); [lia|]. ok E as cs1 E1. set (cs0 := scheduleTimeout _ _ _ _ _) in E1.
  apply propose_sends in E1 as [vset Hos].
  assert (quiet cs (newStep (updateRoundStep round RoundStepPropose cs1))) as Hq.
  { apply (quiet_trans _ cs1); [|apply quiet_step; [rewrite (os_rs _ _ Hos); done|rewrite (os_rs _ _ Hos); simpl; lia|done]].
    eapply quiet_trans; [|by apply only_sends_quiet_sim]. unfold cs0. quiet.
    intros ti [?|Hti]%elem_of_app; [by left|]. apply list_elem_of_singleton in Hti as ->. right. simpl. lia. }
  pose proof (quiet_sim _ _ Hq Hc) as Hsim. destruct (isProposalComplete _); [|by injection E as <-].
  etransitivity; [exact Hsim|]. eapply enterPrevote_sim; [apply Hsim| |exact E]. simpl. lia.
Qed.

Lemma enterNewRound_sim now height round cs cs' : cinv cs -> enterNewRound cfg now height round cs = Ok cs' ->
  sim cs cs' /\ (height = h -> round <= Round (rs cs')).
Proof using H1 H2 Hvals Hh.
  intros Hc E. pose proof (ev_enterNewRound _ _ _ _ _ _ E) as [Hev Hhe]. unfold enterNewRound in E.
  destruct (_ || _) eqn:Hg.
  { injection E as <-. split; [by apply sim_refl|]. intros ->. rewrite (c_height _ Hc) in Hg. lia. }
  ok E as vset Ev. ok E as votes Evo. pose proof (c_round _ Hc) as Hr0.
  match type of E with enterPropose _ _ _ _ ?x = _ => set (cs1 := x) in E end.
  assert (Round (rs cs1) = round) as Er1 by (unfold cs1; by destruct (round =? 0)).
  assert (quiet cs cs1) as Hq.
  { unfold cs1, RoundStepNewHeight, RoundStepNewRound in *. destruct (round =? 0); quiet.
    - right. eapply HeightVoteSet.SetRound_base; [done|done| |exact Evo]. apply Hc.
    - right. eapply HeightVoteSet.SetRound_base; [done|done| |exact Evo]. apply Hc. }
  pose proof (quiet_sim _ _ Hq Hc) as Hsim. split.
  - etransitivity; [exact Hsim|]. eapply enterPropose_sim; [apply Hsim| |exact E]. done.
  - intros _. pose proof (ev_enterPropose _ _ _ _ _ _ E) as [[He _ _] Hhe2]. unfold hrs_le in He. lia.
Qed.

Lemma enterPrevoteWait_sim height round cs cs' : cinv cs -> round <= Round (rs cs) ->
  enterPrevoteWait cfg height round cs = Ok cs' -> sim cs cs'.
Proof using Type.
  intros Hc Hr E. unfold enterPrevoteWait in E. destruct (past _ _ _ _) eqn:Hp; [injection E as <-; by apply sim_refl|].
  destruct (enter_equal _ _ _ _ Hp Hr) as (_ & Er & Hs). destruct (negb _); [done|]. injection E as <-.
  apply quiet_sim; [|done]. quiet. intros ti [?|Hti]%elem_of_app; [by left|].
  apply list_elem_of_singleton in Hti as ->. right. simpl. lia.
Qed.

Lemma enterPrecommitWait_sim height round cs cs' : cinv cs -> round <= Round (rs cs) ->
  enterPrecommitWait cfg height round cs = Ok cs' -> sim cs cs'.
Proof using Type.
  intros Hc Hr E. unfold enterPrecommitWait in E. destruct (past _ _ _ _) eqn:Hp; [injection E as <-; by apply sim_refl|].
  destruct (enter_equal _ _ _ _ Hp Hr) as (_ & Er & Hs). destruct (negb _); [done|]. injection E as <-.
  apply quiet_sim; [|done]. quiet. intros ti [?|Hti]%elem_of_app; [by left|].
  apply list_elem_of_singleton in Hti as ->. right. simpl. lia.
Qed.

(** ** Deciding *)
Definition leaves cs cs' : Prop :=
  Height (rs cs') = h + 1 /\
  exists a', rtc astep (abs cs) a' /\ Locking.decided a' = Some (st_LastBlockID (state cs')) /\
    Locking.sent a' = sent_of cs'.

Definition outcome cs cs' : Prop := sim cs cs' \/ leaves cs cs'.

Lemma sim_outcome cs1 cs2 cs3 : sim cs1 cs2 -> outcome cs2 cs3 -> outcome cs1 cs3.
Proof using Type.
  intros Hs [Ho|(Hh' & a' & R & D & S)]; [left; by etransitivity|right]. split; [done|]. exists a'.
  split; [|done]. etransitivity; [apply Hs|done].
Qed.

Lemma final_outcome cs cs' : cinv cs -> not_final cs cs' \/ finalized cfg cs cs' -> outcome cs cs'.
Proof using Hvals.
  intros Hc [[R S M T]|[(Hp & _) M _ _ _ (B & b & hd & x & Em & Eb & Ehs & _ & Eh & Ex & Eid & _)]].
  - left. apply quiet_sim; [|done]. split; rewrite ?R; auto with lia.
    + unfold sent_of. by rewrite M.
    + intros ti Hti. destruct (T ti Hti) as [?|[_ ->]]; [by left|]. right. apply Hc.
  - right. split; [by rewrite Hp, (c_height _ Hc)|].
    pose proof (decoded_hash b hd (bid_Hash B) (c_block _ Hc b Eb) Eh Ehs) as Ex'. rewrite Ex in Ex'. injection Ex' as ->.
    assert (st_LastBlockID (state cs') = B) as -> by (rewrite Eid; by destruct B).
    exists (Locking.mk (Round (rs cs)) (Step (rs cs)) (lock_of (rs cs)) (sent_of cs) (Some B)).
    split_and!; [|done|unfold sent_of; by rewrite M]. apply rtc_once. eapply Locking.a_decide.
    + eapply commit_backed; [apply Hc|exact Em].
    + by destruct (HashesTo_hash _ _ Ehs).
Qed.

Lemma enterCommit_outcome now height commitRound cs cs' : cinv cs -> Height (rs cs) < 2 ^ 63 - 1 ->
  enterCommit cfg now height commitRound cs = Ok cs' -> outcome cs cs'.
Proof using Hvals.
  intros Hc Hlt E. destruct (enterCommit_spec _ _ _ _ _ _ E Hlt) as [->|(cs1 & Hs & Hac & Hf)]; [left; by apply sim_refl|].
  assert (quiet cs cs1) as Hq.
  { destruct Hac as [(P1 & P2 & P3) V [L1 L2] B (S & M & T)]. split; auto with lia.
    - rewrite P3. done.
    - intros b Eb. destruct B as [B|[B|B]]; rewrite B in Eb; auto. done.
    - unfold sent_of. by rewrite M.
    - intros ti. rewrite T. auto. }
  pose proof (quiet_sim _ _ Hq Hc) as Hsim. eapply sim_outcome; [exact Hsim|]. apply final_outcome; [apply Hsim|done].
Qed.

(** ** Votes *)
Lemma maj_any ty r vs B : VoteSet.inv cid h r ty vals None vs -> VoteSet.maj23 vs = Some B ->
  VoteSet.HasTwoThirdsAny (Some vs) = true.
Proof using Hvals.
  intros Hi HB. destruct (VoteSet.inv_maj23 _ _ _ _ _ _ _ Hi B HB) as (bk & Hbk & Hq).
  destruct (VoteSet.inv_buckets _ _ _ _ _ _ _ Hi _ _ Hbk) as ([Hl Hs] & _ & Hsum).
  destruct (VoteSet.inv_votes _ _ _ _ _ _ _ Hi) as [Hl' _].
  assert (VoteSet.tally vals (VoteSet.bv_votes bk) <= VoteSet.tally vals (VoteSet.votes vs)) as Hle.
  { apply tally_mono; [apply Hvals|congruence|]. intros i v Hv. by destruct (Hs i v Hv) as (_ & _ & ?). }
  simpl. rewrite (VoteSet.total_ok _ _ _ _ _ Hvals _ _ Hi). destruct (VoteSet.quorum_ok vals Hvals) as (E & _ & _).
  rewrite (VoteSet.inv_sum _ _ _ _ _ _ _ Hi). simpl. rewrite E. unfold VoteSet.quorum in Hq. lia.
Qed.

Lemma prevotes_maj_any votes r B : HeightVoteSet.base cid h vals votes ->
  VoteSet.TwoThirdsMajority (HeightVoteSet.Prevotes votes r) = (B, true) ->
  VoteSet.HasTwoThirdsAny (HeightVoteSet.Prevotes votes r) = true /\
  VoteSet.HasTwoThirdsMajority (HeightVoteSet.Prevotes votes r) = true.
Proof using Hvals.
  intros (_ & _ & Hs) E. unfold HeightVoteSet.Prevotes in *.
  destruct (HeightVoteSet.roundVoteSets votes !! r) as [rvs|] eqn:Er; [|done]. simpl fmap in *.
  destruct (Hs _ _ Er) as [Hp _]. simpl in E. destruct (VoteSet.maj23 _) as [B'|] eqn:Em; [|done].
  split; [by eapply maj_any|]. simpl. by rewrite Em.
Qed.

(** The rest of a prevote's handling, when nothing was unlocked or the polka
    was of an earlier round. *)
Definition after_prevote (now : Z) (vote : Vote) cs : res CS :=
  let height := Height (rs cs) in
  let prevotes := HeightVoteSet.Prevotes (Votes (rs cs)) (v_Round vote) in
  if (Round (rs cs) <=? v_Round vote) && VoteSet.HasTwoThirdsAny prevotes then
    let! cs := enterNewRound cfg now height (v_Round vote) cs in
    if VoteSet.HasTwoThirdsMajority prevotes then enterPrecommit height (v_Round vote) cs
    else
      let! cs := enterPrevote height (v_Round vote) cs in
      enterPrevoteWait cfg height (v_Round vote) cs
  else
    match Proposal_ (rs cs) with
    | Some p =>
        if (0 <=? p_POLRound p) && (p_POLRound p =? v_Round vote) && isProposalComplete cs
        then enterPrevote height (Round (rs cs)) cs
        else Ok cs
    | None => Ok cs
    end.

Lemma sim_ainv cs cs' : sim cs cs' -> ainv (abs cs) -> ainv (abs cs').
Proof using Type. intros [_ R]. by apply Locking.rtc_inv. Qed.

Lemma after_prevote_sim now vote cs cs' : cinv cs -> ainv (abs cs) -> after_prevote now vote cs = Ok cs' -> sim cs cs'.
Proof using H1 H2 Hvals Hh.
  intros Hc Hi E. unfold after_prevote in E. destruct (_ && _).
  - ok E as cs1 E1. destruct (enterNewRound_sim _ _ _ _ _ Hc E1) as [Hs1 Hr]. specialize (Hr (c_height _ Hc)).
    etransitivity; [exact Hs1|]. destruct (VoteSet.HasTwoThirdsMajority _).
    + eapply enterPrecommit_sim; [apply Hs1|by eapply sim_ainv|exact Hr|exact E].
    + ok E as cs2 E2. pose proof (ev_enterPrevote _ _ _ _ E2) as [[He _ _] He2].
      assert (v_Round vote <= Round (rs cs2)) as Hr2 by (unfold hrs_le in He; lia).
      apply enterPrevote_sim in E2 as Hs2; [|apply Hs1|done]. etransitivity; [exact Hs2|].
      eapply enterPrevoteWait_sim; [apply Hs2|exact Hr2|exact E].
  - destruct (Proposal_ (rs cs)); [|injection E as <-; by apply sim_refl].
    destruct (_ && _); [|injection E as <-; by apply sim_refl]. eapply enterPrevote_sim; [done| |exact E]. lia.
Qed.

(** A lock given up for a later polka; when the polka is of this round, no
    prevote of the round follows. *)
Lemma unlock_polka_astep b B r' cs :
  cinv cs -> LockedBlock (rs cs) = Some b -> backed VoteTypePrevote r' B ->
  Block_.HashesTo (Some b) (bid_Hash B) = Ok false -> LockedRound (rs cs) < r' <= Round (rs cs) ->
  rtc astep (abs cs)
    (abs_at (if r' =? Round (rs cs) then Z.max (Step (rs cs)) Locking.no_prevote else Step (rs cs)) (unlock cs)).
Proof using Type.
  intros Hc Eb HB Hx Hr. apply rtc_once. unfold abs, abs_at, lock_of. simpl. rewrite Eb.
  apply (Locking.a_unlock _ _ _ _ _ _ _ r' B); [done| |done]. apply HashesTo_other; [done|].
  by destruct (c_locked _ Hc b Eb).
Qed.

Lemma added_prevote_sim now vote cs cs' : cinv cs -> ainv (abs cs) -> added_prevote cfg now vote cs = Ok cs' -> sim cs cs'.
Proof using H1 H2 Hvals Hh.
  intros Hc Hi E. unfold added_prevote in E. ok E as cs1 E1.
  apply unlock_on_polka_spec in E1 as [->|(b & B & -> & Eb & Hr & Em & Hx)]; [by eapply after_prevote_sim|].
  pose proof (polka_backed _ _ _ (c_votes _ Hc) Em) as HB.
  pose proof (unlock_polka_astep b B _ cs Hc Eb HB Hx Hr) as Hst. pose proof (unlock_cinv _ Hc) as Hcu.
  destruct (Z.eqb_spec (v_Round vote) (Round (rs cs))) as [Er|Hne].
  2:{ assert (sim cs (unlock cs)) as Hsu by (by split). etransitivity; [exact Hsu|].
      eapply after_prevote_sim; [done|by eapply sim_ainv|exact E]. }
  destruct (prevotes_maj_any _ _ _ (c_votes _ Hc) Em) as [Hany Hmaj].
  rewrite Hany, Hmaj in E. simpl Round in E. destruct (Z.leb_spec (Round (rs cs)) (v_Round vote)); [|lia].
  cbn [andb] in E. ok E as cs2 E2.
  assert (cs2 = unlock cs) as ->.
  { unfold enterNewRound in E2. simpl in E2. rewrite Er, Z.eqb_refl, Z.ltb_irrefl, Z.eqb_refl in E2. simpl in E2.
    destruct (Z.eqb_spec (Step (rs cs)) RoundStepNewHeight) as [Es|]; [|by injection E2 as <-].
    rewrite (c_new _ Hc Es) in Eb. done. }
  unfold RoundStepPrecommit, Locking.no_prevote in *.
  destruct (past (Height (rs cs)) (v_Round vote) RoundStepPrecommit (rs (unlock cs))) eqn:Hp.
  - unfold enterPrecommit in E. rewrite Hp in E. injection E as <-. split; [done|].
    assert (6 <= Step (rs cs)) as H6.
    { unfold past, RoundStepPrecommit in Hp. simpl in Hp. rewrite Z.eqb_refl in Hp. lia. }
    replace (Z.max (Step (rs cs)) 5) with (Step (rs cs)) in Hst by lia. exact Hst.
  - destruct (enter_equal _ _ _ _ Hp) as (_ & _ & Hs6); [simpl; lia|]. simpl in Hs6. unfold RoundStepPrecommit in Hs6.
    eapply enterPrecommit_at in E as [Hc' R]; [|done| |exact Hp|simpl; lia|].
    + split; [exact Hc'|]. etransitivity; [exact Hst|exact R].
    + eapply Locking.rtc_inv; [exact Hst|done].
    + unfold RoundStepPrecommit. lia.
Qed.

(** Votes for later heights are not seen. *)
Lemma later_votes hi l : votes_in (h + 1) hi l -> omap vote_of l = [].
Proof using Type.
  induction l as [|[m k] l IH]; intros V; [done|]. simpl.
  assert (vote_of (mkMsg m k) = None) as ->.
  { unfold vote_of. simpl. destruct m as [| |[v|]]; try done. specialize (V v k ltac:(by left)).
    destruct (Z.eqb_spec (v_Height v) h); [lia|done]. }
  apply IH. intros v k' Hin. apply (V v k'). by right.
Qed.

Lemma gone_new_round now cs cs1 cs2 :
  leaves cs cs1 -> enterNewRound cfg now (Height (rs cs1)) 0 cs1 = Ok cs2 -> leaves cs cs2.
Proof using H1 H2.
  intros (Hh1 & a' & R & D & S) E. destruct (ev_enterNewRound _ _ _ _ _ _ E) as [[_ (l & M & V) _ St] Hh2].
  split; [lia|]. exists a'. rewrite (St Hh2). split_and!; try done. rewrite S. unfold sent_of. rewrite M, sent_of_app.
  rewrite (later_votes (Height (rs cs2)) l), app_nil_r; [done|]. by rewrite <- Hh1.
Qed.

Lemma added_precommit_outcome now vote cs cs' : cinv cs -> ainv (abs cs) -> Height (rs cs) < 2 ^ 63 - 1 ->
  added_precommit cfg now vote cs = Ok cs' -> outcome cs cs'.
Proof using H1 H2 Hvals Hh.
  intros Hc Hi Hlt E. unfold added_precommit in E. destruct (VoteSet.TwoThirdsMajority _) as [B []].
  - destruct (_ =? _)%nat; [left; by eapply enterNewRound_sim|].
    ok E as cs1 E1. ok E as cs2 E2. ok E as cs3 E3. ok E as pc Epc.
    destruct (enterNewRound_sim _ _ _ _ _ Hc E1) as [Hs1 Hr]. specialize (Hr (c_height _ Hc)).
    pose proof (enterPrecommit_sim _ _ _ _ (proj1 Hs1) (sim_ainv _ _ Hs1 Hi) Hr E2) as Hs2.
    eapply sim_outcome; [exact Hs1|]. eapply sim_outcome; [exact Hs2|].
    assert (outcome cs2 cs3) as Ho.
    { eapply enterCommit_outcome; [apply Hs2| |exact E3]. rewrite (c_height _ (proj1 Hs2)), <- (c_height _ Hc). done. }
    destruct (_ && _); [|by injection E as <-]. destruct Ho as [Ho|Ho]; [|right; by eapply gone_new_round].
    left. etransitivity; [exact Ho|]. by eapply enterNewRound_sim in E as [? _]; [|apply Ho].
  - left. destruct (_ && _); [|injection E as <-; by apply sim_refl]. ok E as cs1 E1. ok E as cs2 E2.
    destruct (enterNewRound_sim _ _ _ _ _ Hc E1) as [Hs1 Hr]. specialize (Hr (c_height _ Hc)).
    pose proof (enterPrecommit_sim _ _ _ _ (proj1 Hs1) (sim_ainv _ _ Hs1 Hi) Hr E2) as Hs2.
    etransitivity; [exact Hs1|]. etransitivity; [exact Hs2|].
    eapply enterPrecommitWait_sim; [apply Hs2| |exact E].
    apply ev_enterPrecommit in E2 as [[He _ _] He2]. unfold hrs_le in He. lia.
Qed.

Lemma addVote_outcome_sim now vote k cs o cs' : cinv cs -> ainv (abs cs) -> Height (rs cs) < 2 ^ 63 - 1 ->
  addVote cfg now vote k cs = Ok (o, cs') -> outcome cs cs'.
Proof using H1 H2 Hvals Hh.
  intros Hc Hi Hlt E. unfold addVote in E. ok E as v Ev. destruct (_ =? _).
  { left. destruct (negb _); [injection E as _ <-; by apply sim_refl|]. ok E as [[added err] lc] Ea. ok E as cs1 E1.
    injection E as _ <-. assert (sim cs (with_rs (rs_lastCommit (Some lc)) cs)) as Hs by (apply quiet_sim; [quiet|done]).
    destruct (_ && _); [|by injection E1 as <-]. etransitivity; [exact Hs|]. by eapply enterNewRound_sim in E1 as [? _]; [|apply Hs]. }
  destruct (_ =? _); [|injection E as _ <-; left; by apply sim_refl].
  ok E as [[added err] votes] Ea. ok E as cs1 E1. injection E as _ <-.
  assert (sim cs (with_rs (rs_votes votes) cs)) as Hs.
  { apply quiet_sim; [|done]. quiet. right. eapply HeightVoteSet.AddVote_base; [done|done|apply Hc|exact Ea]. }
  eapply sim_outcome; [exact Hs|]. pose proof (sim_ainv _ _ Hs Hi) as Hi'.
  destruct (negb added); [injection E1 as <-; left; apply sim_refl, Hs|].
  destruct (_ =? _); [left; eapply added_prevote_sim; [apply Hs|done|exact E1]|].
  destruct (_ =? _); [|done]. eapply added_precommit_outcome; [apply Hs|done|done|exact E1].
Qed.

(** ** Proposals and parts *)
Lemma setProposal_sim p cs o cs' : cinv cs -> defaultSetProposal p cs = Ok (o, cs') -> sim cs cs'.
Proof using Type.
  intros Hc E. apply quiet_sim; [|done]. unfold defaultSetProposal in E.
  assert (quiet cs cs) as Hq by quiet.
  destruct (Proposal_ (rs cs)); [by injection E as _ <-|]. ok E as p' Ep. destruct (_ || _); [by injection E as _ <-|].
  destruct (_ <=? _); [by injection E as _ <-|]. destruct (_ && _); [by injection E as _ <-|].
  ok E as [pr vset] Epr. ok E as pr' Epr'. destruct (negb _); [injection E as _ <-; quiet|].
  ok E as ps Eps. injection E as _ <-. quiet.
Qed.

Lemma complete_block_outcome now height ps cs cs' : cinv cs -> Height (rs cs) < 2 ^ 63 - 1 ->
  complete_block cfg now height ps cs = Ok cs' -> outcome cs cs'.
Proof using H1 H2 Hvals.
  intros Hc Hlt E. unfold complete_block in E. ok E as rd Erd. ok E as [ob err] Eob. ok E as b Eb. apply deref_Ok in Eb.
  subst ob. apply read_block_decoded in Eob.
  match type of E with (if _ then enterPrevote _ _ ?x else _) = _ => set (cs1 := x) in E end.
  assert (sim cs cs1) as Hs.
  { apply quiet_sim; [|done]. unfold cs1. quiet. intros b' [= <-]. auto. }
  eapply sim_outcome; [exact Hs|]. destruct (_ && _).
  - left. eapply enterPrevote_sim; [apply Hs| |exact E]. simpl. lia.
  - destruct (_ =? _); [|injection E as <-; left; apply sim_refl, Hs]. apply final_outcome; [apply Hs|].
    by eapply tryFinalizeCommit_spec.
Qed.

Lemma addProposalBlockPart_outcome now height part verify cs o cs' : cinv cs -> Height (rs cs) < 2 ^ 63 - 1 ->
  addProposalBlockPart cfg now height part verify cs = Ok (o, cs') -> outcome cs cs'.
Proof using H1 H2 Hvals.
  intros Hc Hlt E. unfold addProposalBlockPart in E. assert (outcome cs cs) as Hrefl by (left; by apply sim_refl).
  destruct (negb _); [by injection E as _ <-|].
  destruct (ProposalBlockParts (rs cs)) as [ptr|]; [|by injection E as _ <-].
  ok E as ps Eps. ok E as pt Ept. ok E as [[added err] ps'] Ea.
  set (cs1 := with_heap _ cs) in E. assert (sim cs cs1) as Hs by (apply quiet_sim; [unfold cs1; quiet|done]).
  eapply sim_outcome; [exact Hs|]. assert (outcome cs1 cs1) as Hrefl1 by (left; apply sim_refl, Hs).
  destruct err; [by injection E as _ <-|]. destruct (_ && _); [|by injection E as _ <-].
  ok E as cs2 E2. injection E as _ <-. eapply complete_block_outcome; [apply Hs|done|exact E2].
Qed.

Lemma handleTimeout_sim now ti cs cs' : cinv cs -> ainv (abs cs) -> ti ∈ timeouts cs ->
  handleTimeout cfg now ti cs = Ok cs' -> sim cs cs'.
Proof using H1 H2 Hvals Hh.
  intros Hc Hi Hti E. unfold handleTimeout in E. destruct (_ || _) eqn:Hg; [injection E as <-; by apply sim_refl|].
  assert (ti_Round ti <= Round (rs cs)) as Hr.
  { apply (c_timeouts _ Hc); [done|]. rewrite (c_height _ Hc) in Hg. lia. }
  clear Hg. destruct (_ =? _); [by eapply enterNewRound_sim|]. destruct (_ =? _); [by eapply enterPrevote_sim|].
  destruct (_ =? _); [by eapply enterPrecommit_sim|]. destruct (_ =? _); [by eapply enterNewRound_sim|done].
Qed.

(** ** The simulation *)
Lemma step_outcome cs cs' : cinv cs -> ainv (abs cs) -> step cfg cs cs' -> outcome cs cs'.
Proof using H1 H2 Hvals Hh.
  intros Hc Hi [now e Hen Hlt E].
  assert (forall mi, handleMsg cfg now mi cs = Ok cs' -> outcome cs cs') as Hmsg.
  { intros mi Em. unfold handleMsg in Em. destruct (mi_Msg mi).
    - ok Em as [o cs1] E1. injection Em as <-. left. by eapply setProposal_sim.
    - ok Em as [[a e'] cs1] E1. injection Em as <-. by eapply addProposalBlockPart_outcome.
    - ok Em as [[a e'] cs1] E1. injection Em as <-. unfold tryAddVote in E1. ok E1 as [[a1 e1] cs2] E2.
      injection E1 as _ _ <-. by eapply addVote_outcome_sim. }
  destruct e; simpl in E, Hen; [by eapply Hmsg..|left|left].
  - by eapply handleTimeout_sim.
  - unfold peerMaj23 in E. destruct (negb _); [injection E as <-; by apply sim_refl|]. ok E as votes Ev. injection E as <-.
    apply quiet_sim; [|done]. quiet. right. eapply HeightVoteSet.SetPeerMaj23_base; [done|apply Hc|exact Ev].
Qed.

(** ** Whole runs *)
(** A node before height [h] has nothing of that height yet. *)
Record early cs : Prop := {
  e_height : Height (rs cs) < h;
  e_votes : forall v k, mkMsg (VoteMessage (Some v)) k ∈ internalMsgs cs -> v_Height v <= Height (rs cs);
  e_timeouts : forall ti, ti ∈ timeouts cs -> ti_Height ti <= Height (rs cs)
}.

(** The node enters height [h] with the validators [vals]. *)
Definition validators_at cs : Prop :=
  Height (rs cs) = h ->
  ValidatorSet.Validators (st_Validators (state cs)) = vals /\ ValidatorSet.cached (st_Validators (state cs)).

Definition fresh : Locking.t := Locking.mk 0 RoundStepNewHeight None [] None.

(** A node before height [h], at it, or past it with what it did there. *)
Inductive related cs (a : Locking.t) : Prop :=
| rel_early : early cs -> a = fresh -> related cs a
| rel_at : cinv cs -> a = abs cs -> related cs a
| rel_past B : h < Height (rs cs) -> Locking.sent a = sent_of cs -> Locking.decided a = Some B ->
    (Height (rs cs) = h + 1 -> st_LastBlockID (state cs) = B) -> related cs a.

Lemma early_moves cs cs' : early cs -> moves cs cs' -> early cs'.
Proof using Type.
  intros [E1 E2 E3] [[_ (l & M & V) T _] Hh']. split; rewrite ?Hh'; [done| |].
  - intros v k. rewrite M. intros [?|Hin]%elem_of_app; [by eapply E2|]. specialize (V v k Hin). lia.
  - intros ti Hti. destruct (T ti Hti); [auto|lia].
Qed.

Lemma early_sent cs : early cs -> sent_of cs = [].
Proof using Type.
  intros [E1 E2 _]. unfold sent_of. induction (internalMsgs cs) as [|[m k] l IH]; [done|]. simpl.
  assert (vote_of (mkMsg m k) = None) as ->.
  { unfold vote_of. simpl. destruct m as [| |[v|]]; try done. specialize (E2 v k ltac:(by left)).
    destruct (Z.eqb_spec (v_Height v) h); [lia|done]. }
  apply IH. intros v k' Hin. apply (E2 v k'). by right.
Qed.

(** The state [updateToState] leaves is a fresh one of the next height. *)
Lemma finalized_fresh cs cs' : early cs -> finalized cfg cs cs' -> Height (rs cs') = h -> validators_at cs' ->
  cinv cs' /\ abs cs' = fresh.
Proof using Hvals Hh.
  intros He [(P1 & P2 & P3) M T [L1 L2] V _] Hh' Hva. destruct (Hva Hh') as [Hv Hc]. rewrite Hh' in V. split.
  - split; rewrite ?L1, ?L2; try done; [|lia|].
    + by eapply HeightVoteSet.NewHeightVoteSet_base.
    + intros ti Hti Hht. destruct (T ti Hti) as [Hin|[_ ->]]; [|lia]. pose proof (e_timeouts _ He ti Hin).
      pose proof (e_height _ He). lia.
  - unfold abs, abs_at, fresh, lock_of. rewrite P2, P3, L1. f_equal. unfold sent_of. rewrite M. by apply early_sent.
Qed.

Lemma finalized_early cs cs' : early cs -> finalized cfg cs cs' -> Height (rs cs') < h -> early cs'.
Proof using Type.
  intros [E1 E2 E3] [(P1 & _) M T _ _ _] Hlt. split; [done| |].
  - intros v k. rewrite M. intros Hin. specialize (E2 v k Hin). lia.
  - intros ti Hti. destruct (T ti Hti) as [Hin|[-> _]]; [specialize (E3 ti Hin)|]; lia.
Qed.

Lemma step_related cs cs' a : step cfg cs cs' -> validators_at cs' -> related cs a -> ainv a ->
  exists a', rtc astep a a' /\ related cs' a'.
Proof using H1 H2 Hvals Hh.
  intros Hst Hva [He ->|Hc ->|B Hgt Hs Hd Hb] Hi.
  - destruct (step_proceeds _ _ _ Hst) as [Hm|(cs1 & cs2 & Hm & Hf & Hn)].
    { exists fresh. split; [done|]. apply rel_early; [by eapply early_moves|done]. }
    pose proof (early_moves _ _ He Hm) as He1. destruct (fin_height _ _ _ Hf) as [P1 _]. pose proof (e_height _ He1).
    assert (cs' = cs2 \/ exists now, enterNewRound cfg now (Height (rs cs2)) 0 cs2 = Ok cs' /\ moves cs2 cs') as Hn'.
    { destruct Hn as [?|(now & E)]; [by left|right]. exists now. split; [done|]. by eapply ev_enterNewRound. }
    clear Hn. destruct (decide (Height (rs cs2) = h)) as [Heq|Hne].
    + assert (validators_at cs2) as Hva2.
      { intros _. destruct Hn' as [->|(now & _ & [[_ _ _ St] Hh2])]; [by apply Hva|]. rewrite <- (St Hh2). apply Hva. lia. }
      destruct (finalized_fresh _ _ He1 Hf Heq Hva2) as [Hc2 Ea].
      destruct Hn' as [->|(now & E & _)].
      * exists fresh. split; [done|]. by apply rel_at.
      * exists (abs cs'). destruct (enterNewRound_sim _ _ _ _ _ Hc2 E) as [[Hc' R] _]. rewrite <- Ea. split; [done|]. by apply rel_at.
    + assert (early cs2) as He2 by (eapply finalized_early; [done..|lia]).
      exists fresh. split; [done|]. apply rel_early; [|done]. destruct Hn' as [->|(now & _ & Hm')]; [done|]. by eapply early_moves.
  - destruct (step_outcome cs cs' Hc Hi Hst) as [[Hc' R]|(Hh' & a' & R & D & S)].
    + exists (abs cs'). split; [done|]. by apply rel_at.
    + exists a'. split; [done|]. eapply rel_past; [lia|done|exact D|done].
  - exists a. split; [done|]. destruct (step_evolves _ _ _ Hst) as [P (l & M & V) _ St].
    eapply rel_past; [unfold hrs_le in P; lia| |exact Hd|].
    + rewrite Hs. unfold sent_of. rewrite M, sent_of_app, (later_votes (Height (rs cs')) l), app_nil_r; [done|].
      intros v k Hin. specialize (V v k Hin). lia.
    + intros Hn. rewrite St; [apply Hb|]; unfold hrs_le in P; lia.
Qed.

Lemma run_related cs cs' a : rtc (step cfg) cs cs' -> (forall cs1, rtc (step cfg) cs cs1 -> validators_at cs1) ->
  related cs a -> ainv a -> exists a', rtc astep a a' /\ related cs' a'.
Proof using H1 H2 Hvals Hh.
  intros Hr. revert a. induction Hr as [|cs1 cs2 cs3 Hst _ IH]; intros a Hva Ha Hi; [by exists a|].
  destruct (step_related _ _ a Hst) as (a2 & R2 & Ha2); [by apply Hva, rtc_once|done..|].
  destruct (IH a2) as (a3 & R3 & Ha3); [|done|by eapply Locking.rtc_inv|].
  - intros cs4 Hr. apply Hva. by eapply rtc_l.
  - exists a3. split; [by etransitivity|done].
Qed.

(** The validators of the height a node starts at are those of its state. *)
Lemma validators_kept cs cs' : Height (rs cs) = h -> validators_at cs -> rtc (step cfg) cs cs' -> validators_at cs'.
Proof using H1 H2.
  intros Hc Hva Hr Hc'. destruct (run_evolves _ _ _ Hr) as [_ _ _ St]. rewrite St by congruence. by apply Hva.
Qed.

(** A node that starts at height [h] or before it. *)
Lemma start_related now now' s store db app pv cs0 :
  NewConsensusState cfg now s store db app = Ok cs0 -> 0 <= st_LastBlockHeight s < 2 ^ 63 - 1 ->
  st_LastBlockHeight s < h ->
  validators_at (start now' (SetPrivValidator pv cs0)) -> related (start now' (SetPrivValidator pv cs0)) fresh.
Proof using H1 H2 Hvals Hh.
  intros E Hs Hlt Hva. unfold NewConsensusState, new_height in E. ok E as cs1 E1. ok E1 as votes Ev.
  rewrite i64_id in * by (unfold is_i64; lia). injection E1 as <-.
  assert (exists lc, cs0 = with_rs (rs_lastCommit lc) (newStep (with_state s (set_rs
    (mkRS (st_LastBlockHeight s + 1) 0 RoundStepNewHeight (tp_Commit (cfg_timeouts cfg) now)
       ChainState.zero_time (st_Validators s) None None None 0 None None votes (-1) None (st_LastValidators s))
    (mkCS zero_rs s store db app None [] [] [] 0))))) as [lc ->].
  { unfold reconstructLastCommit in E. destruct (_ =? _); [injection E as <-; by exists None|].
    ok E as sc Esc. ok E as sc' Esc'. ok E as rd Erd. ok E as vs Evs. ok E as vs' Evs'.
    destruct (negb _); [done|]. injection E as <-. by exists (Some vs'). }
  destruct (decide (st_LastBlockHeight s + 1 = h)) as [Heq|Hne].
  - destruct (Hva Heq) as [Hv Hc]. apply rel_at; [|done]. split; simpl; try done.
    + rewrite Heq in Ev. by eapply HeightVoteSet.NewHeightVoteSet_base.
    + intros ti Hti%list_elem_of_singleton. by subst ti.
  - apply rel_early; [|done]. split; simpl; [lia| |].
    + intros v k Hin. set_solver.
    + intros ti Hti%list_elem_of_singleton. subst ti. simpl. lia.
Qed.

(** C2: From its start to any state it reaches, whatever messages, timeouts and
    peers' claims it handles, what a node does at height [h] is a run of the
    locking machine: [Locking.astep] with majorities of validly signed votes
    as its quorums. *)
Theorem consensus_refines_locking now now' s store db app pv cs0 cs :
  NewConsensusState cfg now s store db app = Ok cs0 -> 0 <= st_LastBlockHeight s < 2 ^ 63 - 1 ->
  st_LastBlockHeight s < h ->
  rtc (step cfg) (start now' (SetPrivValidator pv cs0)) cs ->
  (forall cs1, rtc (step cfg) (start now' (SetPrivValidator pv cs0)) cs1 -> validators_at cs1) ->
  exists a, rtc astep fresh a /\ related cs a.
Proof using H1 H2 Hvals Hh.
  intros E Hs Hlt Hr Hva. eapply run_related; [done|done| |apply Locking.inv_init].
  eapply start_related; [done..|]. by apply Hva.
Qed.

End Sim.
