(* ===== verification/Agreement.v ===== *)
(** * Agreement

    A network of validators of which less than a third of the voting power is
    faulty: nodes that commit a block at a height commit the same block. *)
From S2P Require Import Prelude BitArray Wire WireReflect Types SimpleTree SignBytes Validators VoteSets HeightVotes.
From S2P Require Import PrivVal PartSets Blocks Store ChainState Locking Consensus ConsensusSteps ConsensusSim.
Import Consensus.

(** The power of the validators that are not honest. *)
Fixpoint faulty_power (vals : list Validator) (honest : nat -> bool) : Z :=
  match vals with
  | [] => 0
  | v :: vals' => (if honest 0%nat then 0 else val_VotingPower v) + faulty_power vals' (fun i => honest (S i))
  end.

Lemma faulty_nonneg vals honest : ValidatorSet.nonneg vals -> 0 <= faulty_power vals honest.
Proof.
  intros Hn. revert honest. induction Hn as [|v vals Hv _ IH]; intros honest; simpl; [lia|].
  specialize (IH (fun i => honest (S i))). destruct (honest 0%nat); lia.
Qed.

Lemma honest_member vals honest (who : list (option Vote)) :
  ValidatorSet.nonneg vals -> faulty_power vals honest < VoteSet.tally vals who ->
  exists i v, who !! i = Some (Some v) /\ honest i = true.
Proof.
  intros Hn. revert honest who. induction Hn as [|val vals Hv Hn IH]; intros honest who Hlt; simpl in Hlt; [lia|].
  pose proof (faulty_nonneg vals (fun i => honest (S i)) Hn). destruct who as [|o who]; [destruct (honest 0%nat); lia|].
  destruct (honest 0%nat) eqn:Eh, o as [v|].
  1: by exists 0%nat, v.
  all: destruct (IH (fun i => honest (S i)) who) as (i & w & ? & ?); [lia|]; by exists (S i), w.
Qed.

Section Agreement.
Context `{Crypto} {A PV : Type} `{ConsensusApp A} `{PrivValidatorLaws PV} (cfg : Config).
Context (h : Z) (vals : list Validator).
Implicit Types cs : CS (A := A) (PV := PV).

Let cid : bytes := cfg_chain_id cfg.

(** A node that started at height [h] or before it, and has the validators
    [vals] whenever it is at height [h]. *)
Definition runs cs : Prop :=
  exists now now' s store db app pv cs0,
    NewConsensusState cfg now s store db app = Ok cs0 /\ 0 <= st_LastBlockHeight s < 2 ^ 63 - 1 /\
    st_LastBlockHeight s < h /\ rtc (step cfg) (start now' (SetPrivValidator pv cs0)) cs /\
    forall cs1, rtc (step cfg) (start now' (SetPrivValidator pv cs0)) cs1 -> validators_at h vals cs1.

(** The signature under validator [i]'s key is on a vote its node sent. *)
Definition unforgeable (i : nat) cs : Prop :=
  forall r ty v, VoteSet.valid_vote cid h r ty vals i v ->
    exists v' k, mkMsg (VoteMessage (Some v')) k ∈ internalMsgs cs /\ Json.SignBytes_vote cid v' = Json.SignBytes_vote cid v.

(** The network: validators with less than a third of the power are faulty, the
    others run the node, their keys sign nothing else, and no validator signs
    a block id whose key is that of another signed block id. *)
Record network (honest : nat -> bool) (nodes : nat -> CS) : Prop := {
  net_power : 3 * faulty_power vals honest < ValidatorSet.total vals;
  net_runs : forall i, honest i = true -> runs (nodes i);
  net_keys : forall i, honest i = true -> unforgeable i (nodes i);
  net_twins : forall i j r r' ty ty' v w,
    VoteSet.valid_vote cid h r ty vals i v -> VoteSet.valid_vote cid h r' ty' vals j w ->
    Key (v_BlockID v) = Key (v_BlockID w) -> v_BlockID v = v_BlockID w
}.

Context (Hvals : VoteSet.vals_ok vals) (Hh : h <> 0).
Let polka := backed cfg h vals VoteTypePrevote.
Let commit := backed cfg h vals VoteTypePrecommit.

(** What an honest node did at the height. *)
Lemma node_run cs : runs cs -> exists a, Locking.inv polka commit a /\ Locking.sent a = sent_of h cs /\
  (h < Height (rs cs) -> exists B, Locking.decided a = Some B /\
     (Height (rs cs) = h + 1 -> st_LastBlockID (state cs) = B)).
Proof using H1 H2 Hvals Hh.
  intros (now & now' & s & store & db & app & pv & cs0 & E & Hs & Hlt & Hr & Hva).
  assert (Locking.inv polka commit fresh) as Hi0 by apply Locking.inv_init.
  destruct (run_related cfg h vals Hvals Hh _ cs fresh Hr Hva) as (a & R & Hrel); [|done|].
  { eapply start_related; [done..|]. by apply Hva. }
  exists a. split; [by eapply Locking.rtc_inv|]. destruct Hrel as [He ->|Hc ->|B Hgt Hse Hd Hb].
  - split; [symmetry; by apply early_sent|]. pose proof (e_height _ _ He). lia.
  - split; [done|]. rewrite (c_height _ _ _ _ Hc). lia.
  - split; [done|]. intros _. by exists B.
Qed.

Section Network.
Context (honest : nat -> bool) (nodes : nat -> CS) (Hnet : network honest nodes).

Lemma vote_sent i r ty v : honest i = true -> VoteSet.valid_vote cid h r ty vals i v ->
  Locking.mkAV r ty (v_BlockID v) ∈ sent_of h (nodes i).
Proof using Hnet.
  intros Hi Hv. destruct (net_keys _ _ Hnet i Hi r ty v Hv) as (v' & k & Hin & E).
  destruct Hv as (val & _ & _ & _ & E1 & E2 & E3 & _).
  destruct (Json.vote_json_inj _ _ _ E) as (EB & Eh & Er & Et).
  apply list_elem_of_omap. exists (mkMsg (VoteMessage (Some v')) k). split; [done|]. unfold vote_of. simpl.
  by rewrite Eh, E1, Z.eqb_refl, Er, Et, EB, E2, E3.
Qed.

(** Two majorities share an honest validator, which sent both votes. *)
Lemma majorities_meet r1 ty1 B1 r2 ty2 B2 : backed cfg h vals ty1 r1 B1 -> backed cfg h vals ty2 r2 B2 ->
  exists i, honest i = true /\ Locking.mkAV r1 ty1 B1 ∈ sent_of h (nodes i) /\ Locking.mkAV r2 ty2 B2 ∈ sent_of h (nodes i).
Proof using Hvals Hnet.
  intros [(va & La & Qa & Va) (ja & wa & Wa & Ea)] [(vb & Lb & Qb & Vb) (jb & wb & Wb & Eb)].
  pose proof (VoteSet.tally_both vals va vb (proj1 Hvals) La Lb).
  destruct (honest_member vals honest (VoteSet.both va vb) (proj1 Hvals)) as (i & v & (Hva & w & Hvb)%VoteSet.both_lookup & Hi).
  { pose proof (net_power _ _ Hnet). lia. }
  destruct (Va i v Hva) as [Hv1 K1]. destruct (Vb i w Hvb) as [Hv2 K2]. exists i. split; [done|].
  assert (v_BlockID v = B1) as <- by (rewrite <- Ea; eapply (net_twins _ _ Hnet); [done..|by rewrite Ea]).
  assert (v_BlockID w = B2) as <- by (rewrite <- Eb; eapply (net_twins _ _ Hnet); [done..|by rewrite Eb]).
  split; by apply vote_sent.
Qed.

(** After a commit quorum, every polka is for its block. *)
Lemma polka_after_commit r B : commit r B -> bid_Hash B <> [] ->
  forall k C, r < k -> polka k C -> bid_Hash C = bid_Hash B.
Proof using H1 H2 Hvals Hh Hnet.
  intros Hc Hne. assert (forall n k C, k <= r + Z.of_nat n -> r < k -> polka k C -> bid_Hash C = bid_Hash B) as Hall.
  2:{ intros k C Hk Hp. apply (Hall (Z.to_nat (k - r)) k C); [lia|done..]. }
  induction n as [|n IH]; intros k C Hk Hr Hp; [lia|].
  destruct (majorities_meet _ _ _ _ _ _ Hc Hp) as (i & Hi & Hs1 & Hs2).
  destruct (node_run _ (net_runs _ _ Hnet i Hi)) as (a & Hinv & Es & _). rewrite <- Es in Hs1, Hs2.
  destruct (Locking.inv_prevote _ _ _ Hinv _ _ Hs1 Hs2 eq_refl eq_refl Hne Hr) as [?|(k' & D & Hk' & HD & Hx)]; [done|].
  destruct Hx. apply (IH k' D); [simpl in Hk'; lia|simpl in Hk'; lia|done].
Qed.

Lemma commit_polka r B : commit r B -> bid_Hash B <> [] -> polka r B.
Proof using H1 H2 Hvals Hh Hnet.
  intros Hc Hne. destruct (majorities_meet _ _ _ _ _ _ Hc Hc) as (i & Hi & Hs & _).
  destruct (node_run _ (net_runs _ _ Hnet i Hi)) as (a & Hinv & Es & _). rewrite <- Es in Hs.
  by apply (Locking.inv_precommit _ _ _ Hinv _ Hs).
Qed.

Lemma commits_agree r1 B1 r2 B2 : commit r1 B1 -> bid_Hash B1 <> [] -> commit r2 B2 -> bid_Hash B2 <> [] ->
  r1 <= r2 -> bid_Hash B1 = bid_Hash B2.
Proof using H1 H2 Hvals Hh Hnet.
  intros C1 N1 C2 N2 Hr. destruct (decide (r1 = r2)) as [->|Hne].
  - destruct (majorities_meet _ _ _ _ _ _ C1 C2) as (i & Hi & Hs1 & Hs2).
    destruct (node_run _ (net_runs _ _ Hnet i Hi)) as (a & Hinv & Es & _). rewrite <- Es in Hs1, Hs2.
    by injection (Locking.inv_once _ _ _ Hinv _ _ Hs1 Hs2 eq_refl eq_refl) as ->.
  - symmetry. eapply polka_after_commit; [done..| |by apply commit_polka]. lia.
Qed.

(** A node that is past the height decided a block with a commit quorum. *)
Lemma node_decided cs : runs cs -> Height (rs cs) = h + 1 ->
  bid_Hash (st_LastBlockID (state cs)) <> [] /\ exists r, commit r (st_LastBlockID (state cs)).
Proof using H1 H2 Hvals Hh.
  intros Hr Hgt. destruct (node_run cs Hr) as (a & Hinv & _ & Hd). destruct Hd as (B & Hd & Hb); [lia|].
  rewrite (Hb Hgt). by apply (Locking.inv_decided _ _ _ Hinv).
Qed.

End Network.


End Agreement.
