(* ===== verification/Network.v ===== *)
(** * A network of four validators

    Concrete instances of the parameters, and nodes that exchange the messages
    they sent: runs to evaluate the model on. *)
From S2P Require Import Prelude BitArray Wire WireReflect Types SimpleTree SignBytes Validators VoteSets HeightVotes.
From S2P Require Import PrivVal PartSets Blocks Store ChainState Locking Consensus ConsensusSteps ConsensusSim Agreement.
Import Consensus.

(** ** Keys, application and genesis *)
#[local] Instance signing_keys : PrivKeyOps Z := {|
  priv_Sign k msg := SignatureEd25519 (replicate 32 k ++ checksum 32 msg);
  priv_PubKey k := PubKeyEd25519 (replicate 32 k)
|}.

(** With [signed], only the listed keys' signatures on the listed messages
    verify. *)
Definition net_crypto (signed : option (list (bytes * bytes))) : Crypto := {|
  ripemd160 := checksum 20;
  keccak256 := checksum 32;
  configured_sha256 := false;
  ed25519_Verify key msg sig :=
    bytes_eqb sig (key ++ checksum 32 msg) &&
    match signed with
    | None => true
    | Some l => existsb (fun p => bytes_eqb p.1 key && bytes_eqb p.2 msg) l
    end;
  secp256k1_Verify _ _ _ := false
|}.

#[local] Instance net_exec : BlockExecutable unit := {
  be_BeginBlock _ _ _ := (tt, false);
  be_HookExecute _ _ := (tt, false);
  be_ExecBlock _ _ := (tt, false);
  be_EndBlock _ _ _ vs := (tt, vs, false);
  be_MempoolUpdate _ _ _ := tt;
  be_HookCommit _ _ := (tt, [21], [22])
}.

#[local] Instance net_app : ConsensusApp unit := {
  ca_Reap _ _ := (tt, [of_string "tx"]);
  ca_HookNewRound _ _ _ := tt;
  ca_HookPrevote _ _ _ _ := tt;
  ca_HookPrecommit _ _ _ _ := tt
}.

Definition net_config : Config :=
  mkConfig (of_string "net") 100 65536 (mkTP 3000 500 1000 500 1000 500 1000 false).
Definition net_genesis : GenesisDoc :=
  mkGen 7000000 (of_string "net")
    (map (fun k => mkGV (PubKeyEd25519 (replicate 32 k)) 10 [] true []) [1; 2; 3; 4]) [9] [].

Definition signer : Type := PrivValidator.t Z * gmap bytes (PrivValidator.t Z).
#[local] Instance signer_ops `{Crypto} : PrivValidatorOps signer := file_signer.
#[local] Instance signer_laws `{Crypto} : PrivValidatorLaws signer := file_signer_laws.
Definition node : Type := CS (A := unit) (PV := signer).

Section Net.
Context (signed : option (list (bytes * bytes))).
#[local] Instance crypto_of : Crypto := net_crypto signed.

Definition net_signer (k : Z) : signer :=
  (PrivValidator.SetFile (PrivValidator.GenPrivValidator k) (of_string "priv_validator.json"), ∅).

Definition genesis_state : State :=
  match ChainState.MakeGenesisState 7000000 net_genesis with
  | Ok s => s
  | Panic => mkState net_genesis [] 0 nilBlockID 0 no_vset no_vset 0 [] []
  end.
Definition net_store : BlockStore.t := BlockStore.NewBlockStore ∅ ∅ None.

Definition new_node : res node :=
  NewConsensusState net_config 8000000 genesis_state net_store (mkSDB [] []) tt.
Definition empty_node : node := mkCS zero_rs genesis_state net_store (mkSDB [] []) tt None [] [] [] 0.
Definition node0 : node := match new_node with Ok cs => cs | Panic => empty_node end.
Definition boot (k : Z) : node := start 9000000 (SetPrivValidator (net_signer k) node0).

Definition is_ok {X} (r : res X) : bool := match r with Ok _ => true | Panic => false end.

Definition net_vals : list Validator := ValidatorSet.Validators (st_Validators genesis_state).

Lemma new_node_ok : is_ok new_node = true -> new_node = Ok node0.
Proof. unfold node0. by destruct new_node. Qed.

(** ** Deliveries *)
(** A node's timeout, one of its own messages, or a message another node sent,
    by its position. *)
Inductive delivery : Type :=
| Tick (i n : nat)
| Own (i n : nat)
| From (i j n : nat).

Definition receiver (d : delivery) : nat := match d with Tick i _ | Own i _ | From i _ _ => i end.

Definition event_of (d : delivery) (nodes : list node) (cs : node) : option event :=
  match d with
  | Tick _ n => EvTimeout <$> timeouts cs !! n
  | Own _ n => EvInternal <$> internalMsgs cs !! n
  | From _ j n => nd ← nodes !! j; mi ← internalMsgs nd !! n; Some (EvPeer (mkMsg (mi_Msg mi) [Z.of_nat j]))
  end.

Definition deliver (d : delivery) (nodes : list node) : res (list node) :=
  match nodes !! receiver d with
  | None => Panic
  | Some cs =>
      match event_of d nodes cs with
      | Some e =>
          if Height (rs cs) <? 2 ^ 63 - 1 then
            let! cs' := handle net_config 9000000 e cs in
            Ok (<[receiver d := cs']> nodes)
          else Panic
      | None => Panic
      end
  end.

Fixpoint deliver_all (ds : list delivery) (nodes : list node) : res (list node) :=
  match ds with
  | [] => Ok nodes
  | d :: ds' => let! nodes := deliver d nodes in deliver_all ds' nodes
  end.

Lemma event_enabled d nodes cs e : event_of d nodes cs = Some e -> enabled cs e.
Proof.
  destruct d; simpl; intros E.
  - destruct (timeouts cs !! n) eqn:En; [|done]. injection E as <-. by eapply list_elem_of_lookup_2.
  - destruct (internalMsgs cs !! n) eqn:En; [|done]. injection E as <-. by eapply list_elem_of_lookup_2.
  - destruct (nodes !! j) as [nd|]; [|done]. simpl in E. destruct (internalMsgs nd !! n); [|done]. by injection E as <-.
Qed.

(** Each node's part of the deliveries is a run of its own. *)
Lemma deliver_runs d nodes nodes' : deliver d nodes = Ok nodes' -> Forall2 (rtc (step net_config)) nodes nodes'.
Proof.
  unfold deliver, node in *. destruct (nodes !! receiver d) as [cs|] eqn:En; [|done].
  destruct (event_of d nodes cs) as [e|] eqn:Ee; [|done]. destruct (Z.ltb_spec (Height (rs cs)) (2 ^ 63 - 1)); [|done].
  intros E. ok E as cs' Eh. injection E as <-.
  assert (step net_config cs cs') as Hs by (econstructor; [by eapply event_enabled|done|exact Eh]).
  apply Forall2_same_length_lookup_2; [by rewrite length_insert|]. intros i x y Hx Hy.
  destruct (decide (i = receiver d)) as [->|Hne].
  - assert (receiver d < length nodes)%nat by (by eapply lookup_lt_Some).
    rewrite list_lookup_insert_eq in Hy by done. simplify_eq. by apply rtc_once.
  - rewrite list_lookup_insert_ne in Hy by done. by simplify_eq.
Qed.

Lemma deliver_all_runs ds nodes nodes' :
  deliver_all ds nodes = Ok nodes' -> Forall2 (rtc (step net_config)) nodes nodes'.
Proof.
  revert nodes. induction ds as [|d ds IH]; intros nodes E; simpl in E.
  - injection E as <-. apply Forall_Forall2_diag, Forall_forall. done.
  - ok E as n1 E1. apply deliver_runs in E1. apply IH in E.
    by transitivity n1.
Qed.

(** A node of the network runs the protocol at height 1. *)
Lemma boot_validators k cs : Height (rs (boot k)) = 1 -> state (boot k) = genesis_state ->
  ValidatorSet.cached (st_Validators genesis_state) ->
  rtc (step net_config) (boot k) cs -> validators_at 1 net_vals cs.
Proof.
  intros Hb Hst Hca Hr. refine (validators_kept net_config 1 net_vals _ _ Hb _ Hr).
  intros _. rewrite Hst. exact (conj eq_refl Hca).
Qed.

Lemma boot_runs k cs : is_ok new_node = true -> st_LastBlockHeight genesis_state = 0 ->
  Height (rs (boot k)) = 1 -> state (boot k) = genesis_state -> ValidatorSet.cached (st_Validators genesis_state) ->
  rtc (step net_config) (boot k) cs -> runs net_config 1 net_vals cs.
Proof.
  intros Hok Hh Hb Hst Hca Hr.
  assert (0 <= st_LastBlockHeight genesis_state < 2 ^ 63 - 1 /\ st_LastBlockHeight genesis_state < 1) as [Hlo Hhi] by lia.
  exists 8000000, 9000000, genesis_state, net_store, (mkSDB [] []), tt, (net_signer k), node0.
  refine (conj (new_node_ok Hok) (conj Hlo (conj Hhi (conj Hr _)))).
  intros cs1 Hr1. exact (boot_validators k cs1 Hb Hst Hca Hr1).
Qed.

End Net.

(** ** Three nodes commit a block, one validator is silent *)
Definition height_one : list delivery :=
  [Tick 0 0; Tick 1 0; Tick 2 0; Own 1 0; Own 1 1; From 0 1 0; From 0 1 1; From 2 1 0; From 2 1 1;
   Own 0 0; From 0 1 2; From 0 2 0; Own 1 2; From 1 0 0; From 1 2 0; Own 2 0; From 2 0 0; From 2 1 2;
   Own 0 1; From 0 1 3; From 0 2 1; Own 1 3; From 1 0 1; From 1 2 1].

Definition after (signed : option (list (bytes * bytes))) (ds : list delivery) (keys : list Z) : list node :=
  match deliver_all signed ds (map (boot signed) keys) with Ok nodes => nodes | Panic => [] end.

Definition votes_of (cs : node) : list Vote :=
  omap (fun mi => match mi_Msg mi with VoteMessage v => v | _ => None end) (internalMsgs cs).
Definition proposals_of (cs : node) : list Proposal :=
  omap (fun mi => match mi_Msg mi with ProposalMessage p => p | _ => None end) (internalMsgs cs).

(** What the three nodes sign. *)
Definition net_signed : list (bytes * bytes) :=
  Eval vm_compute in
    concat (zip_with (fun k cs =>
      map (fun v => (replicate 32 k, Json.SignBytes_vote (of_string "net") v)) (votes_of cs) ++
      map (fun p => (replicate 32 k, Json.SignBytes_proposal (of_string "net") p)) (proposals_of cs))
      [1; 2; 3] (after None height_one [1; 2; 3])).
Definition net : option (list (bytes * bytes)) := Some net_signed.

Definition net_final : list node := after net height_one [1; 2; 3].
Definition final (i : nat) : node := nth i net_final (empty_node net).

(** Validators are ordered by address: the nodes of keys 2, 3 and 1 are
    validators 0, 1 and 3, and validator 2 is silent. *)
Definition net_nodes (i : nat) : node := match i with 0%nat => final 1 | 1%nat => final 2 | _ => final 0 end.
Definition net_honest (i : nat) : bool := match i with 0%nat | 1%nat | 3%nat => true | _ => false end.

Definition key_of (i : nat) : Z := match i with 0%nat => 2 | 1%nat => 3 | _ => 1 end.
Definition net_block : BlockID := st_LastBlockID (state (final 0)).

#[local] Instance net_instance : Crypto := net_crypto net.

Lemma net_final_ok : deliver_all net height_one (map (boot net) [1; 2; 3]) = Ok net_final.
Proof.
  assert (is_ok (deliver_all net height_one (map (boot net) [1; 2; 3])) = true) as E by (vm_compute; reflexivity).
  unfold net_final, after. destruct (deliver_all _ _ _); [reflexivity|discriminate E].
Qed.

Lemma net_new_ok : is_ok (new_node net) = true.
Proof. vm_compute. reflexivity. Qed.

Lemma net_genesis_height : st_LastBlockHeight (genesis_state net) = 0.
Proof. vm_compute. reflexivity. Qed.

Lemma boot_height k : Height (rs (boot net k)) = 1.
Proof. vm_compute. reflexivity. Qed.

Lemma boot_state k : state (boot net k) = genesis_state net.
Proof. vm_compute. reflexivity. Qed.

Lemma net_cached : ValidatorSet.cached (st_Validators (genesis_state net)).
Proof. right. vm_compute. reflexivity. Qed.

Lemma net_vals_ok : VoteSet.vals_ok (net_vals net).
Proof. split; [|vm_compute; split; reflexivity]. vm_compute. repeat constructor; discriminate. Qed.

Lemma final_run i k : [1; 2; 3] !! i = Some k -> rtc (step net_config) (boot net k) (final i).
Proof.
  intros Hk. assert (length net_final = 3)%nat as Hl by (vm_compute; reflexivity).
  assert (i < length net_final)%nat as Hi by (rewrite Hl; exact (lookup_lt_Some _ _ _ Hk)).
  eapply Forall2_lookup_lr; [exact (deliver_all_runs net _ _ _ net_final_ok)| |].
  - rewrite list_lookup_fmap, Hk. reflexivity.
  - destruct (lookup_lt_is_Some_2 net_final i Hi) as [x Ex]. unfold final. rewrite nth_lookup, Ex. exact Ex.
Qed.

Lemma final_runs i k : [1; 2; 3] !! i = Some k -> runs net_config 1 (net_vals net) (final i).
Proof.
  intros Hk.
  exact (boot_runs net k _ net_new_ok net_genesis_height (boot_height k) (boot_state k) net_cached (final_run i k Hk)).
Qed.

(** Every signature that verifies is on a vote or a proposal of its node, and
    all the votes are for the committed block. *)
Definition sent_by (key : Z) (cs : node) (p : bytes * bytes) : bool :=
  negb (bytes_eqb p.1 (replicate 32 key)) ||
  existsb (fun v => bytes_eqb (Json.SignBytes_vote (of_string "net") v) p.2 && bool_decide (v_BlockID v = net_block))
    (votes_of cs) ||
  existsb (fun q => bytes_eqb (Json.SignBytes_proposal (of_string "net") q) p.2) (proposals_of cs).

Lemma signed_sent : forallb (fun p => sent_by 2 (final 1) p && sent_by 3 (final 2) p && sent_by 1 (final 0) p &&
  existsb (fun k => bytes_eqb p.1 (replicate 32 k)) [1; 2; 3]) net_signed = true.
Proof. vm_compute. reflexivity. Qed.

Lemma sent_by_vote key cs p v : sent_by key cs p = true -> p.1 = replicate 32 key ->
  p.2 = Json.SignBytes_vote (of_string "net") v ->
  exists v', v' ∈ votes_of cs /\ Json.SignBytes_vote (of_string "net") v' = Json.SignBytes_vote (of_string "net") v /\
    v_BlockID v' = net_block.
Proof.
  unfold sent_by. intros [[Hs|Hs]%orb_true_iff|Hs]%orb_true_iff E1 E2.
  - rewrite E1, (proj2 (bytes_eqb_eq _ _) eq_refl) in Hs. discriminate Hs.
  - apply existsb_exists in Hs as (v' & Hin & [E%bytes_eqb_eq Eb%bool_decide_eq_true]%andb_true_iff).
    exists v'. split; [by apply list_elem_of_In|]. split; [congruence|exact Eb].
  - apply existsb_exists in Hs as (q & _ & E%bytes_eqb_eq). rewrite E2 in E. symmetry in E. by apply Json.vote_not_proposal in E.
Qed.

Lemma net_keys_of : map val_PubKey (net_vals net) = map (fun k => PubKeyEd25519 (replicate 32 k)) [2; 3; 4; 1].
Proof. vm_compute. reflexivity. Qed.

Lemma net_valid_signed i r ty v : VoteSet.valid_vote (of_string "net") 1 r ty (net_vals net) i v ->
  exists k p, [2; 3; 4; 1] !! i = Some k /\ p ∈ net_signed /\ p.1 = replicate 32 k /\
    p.2 = Json.SignBytes_vote (of_string "net") v.
Proof.
  intros (val & Hv & _ & _ & _ & _ & _ & Hver).
  assert (map val_PubKey (net_vals net) !! i = Some (val_PubKey val)) as Hk by (rewrite list_lookup_fmap, Hv; reflexivity).
  rewrite net_keys_of, list_lookup_fmap in Hk. destruct ([2; 3; 4; 1] !! i) as [k|]; [|discriminate Hk].
  injection Hk as Hk. exists k. rewrite <- Hk in Hver. unfold VerifyBytes in Hver.
  destruct (v_Signature v) as [[sig|sig]|]; try discriminate Hver.
  apply andb_true_iff in Hver as [_ (p & Hin & [E1%bytes_eqb_eq E2%bytes_eqb_eq]%andb_true_iff)%existsb_exists].
  exists p. split; [reflexivity|]. split; [by apply list_elem_of_In|]. exact (conj E1 E2).
Qed.

Lemma valid_sent i r ty v : VoteSet.valid_vote (of_string "net") 1 r ty (net_vals net) i v ->
  exists v', v' ∈ votes_of (net_nodes i) /\
    Json.SignBytes_vote (of_string "net") v' = Json.SignBytes_vote (of_string "net") v /\ v_BlockID v' = net_block.
Proof.
  intros (k & p & Hk & Hin & E1 & E2)%net_valid_signed. pose proof signed_sent as Hs. rewrite forallb_forall in Hs.
  specialize (Hs p (proj1 (list_elem_of_In _ _) Hin)).
  apply andb_true_iff in Hs as [[[S1 S2]%andb_true_iff S3]%andb_true_iff S4].
  destruct i as [|[|[|[|]]]]; [| | | |discriminate Hk]; injection Hk as <-.
  - exact (sent_by_vote _ _ _ _ S1 E1 E2).
  - exact (sent_by_vote _ _ _ _ S2 E1 E2).
  - rewrite E1 in S4. vm_compute in S4. discriminate S4.
  - exact (sent_by_vote _ _ _ _ S3 E1 E2).
Qed.

Lemma valid_block i r ty v : VoteSet.valid_vote (of_string "net") 1 r ty (net_vals net) i v -> v_BlockID v = net_block.
Proof. intros (v' & _ & E & <-)%valid_sent. symmetry. by destruct (Json.vote_json_inj _ _ _ E) as [? _]. Qed.

Lemma net_network : network net_config 1 (net_vals net) net_honest net_nodes.
Proof.
  split.
  - vm_compute. reflexivity.
  - intros [|[|[|[|i]]]] Hi; try discriminate Hi.
    + exact (final_runs 1 2 eq_refl).
    + exact (final_runs 2 3 eq_refl).
    + exact (final_runs 0 1 eq_refl).
  - intros i _ r ty v (v' & Hin & E & _)%valid_sent. unfold votes_of in Hin.
    apply list_elem_of_omap in Hin as ([m k] & Hin & Em). simpl in Em. destruct m as [| |o]; try discriminate Em.
    subst o. exists v', k. exact (conj Hin E).
  - intros i j r r' ty ty' v w Hv%valid_block Hw%valid_block _. exact (eq_trans Hv (eq_sym Hw)).
Qed.


(** What validator 3 did at height 1 is a run of the locking machine that
    decided the block. *)
Lemma consensus_refines_locking_witness :
  exists a, Locking.decided a = Some net_block /\ length (Locking.sent a) = 2%nat /\
    rtc (Locking.astep (backed net_config 1 (net_vals net) VoteTypePrevote)
                       (backed net_config 1 (net_vals net) VoteTypePrecommit)) fresh a.
Proof.
  destruct (consensus_refines_locking net_config 1 (net_vals net)) with
    (now := 8000000) (now' := 9000000) (s := genesis_state net) (store := net_store) (db := mkSDB [] [])
    (app := tt) (pv := net_signer net 1) (cs0 := node0 net) (cs := final 0) as (a & R & Hrel).
  - exact net_vals_ok.
  - discriminate.
  - exact (new_node_ok net net_new_ok).
  - vm_compute. split; [discriminate|reflexivity].
  - vm_compute. reflexivity.
  - exact (final_run 0 1 eq_refl).
  - intros cs1 Hr. exact (boot_validators net 1 cs1 (boot_height 1) (boot_state 1) net_cached Hr).
  - exists a. assert (Height (rs (final 0)) = 2) as Hh by (vm_compute; reflexivity).
    destruct Hrel as [He _|Hc _|B _ Hs Hd Hb].
    + destruct He as [He _ _]. rewrite Hh in He. discriminate He.
    + destruct Hc as [Hc _ _ _ _ _ _]. rewrite Hh in Hc. discriminate Hc.
    + rewrite Hd, Hs, <- (Hb Hh). split_and!; [reflexivity|vm_compute; reflexivity|exact R].
Defined.

Lemma consensus_monotone_witness :
  CompareHRS (Height (rs (boot net 1))) (Round (rs (boot net 1))) (Step (rs (boot net 1)))
    (Height (rs (final 0))) (Round (rs (final 0))) (Step (rs (final 0))) <= 0.
Proof.
  destruct (consensus_monotone net_config (boot net 1) (final 0)) as [Hc _].
  - exact (final_run 0 1 eq_refl).
  - exact Hc.
Defined.

Lemma committed_chain_witness :
  exists hd, h_Height hd = 1 /\ Block_.header_hash hd = Ok (bid_Hash (st_LastBlockID (state (final 0)))).
Proof.
  assert (Height (rs (final 0)) = 2) as Hh by (vm_compute; reflexivity).
  destruct (committed_chain net_config (boot net 1) (final 0)) as (_ & hs & Hl & Hk & _).
  - exact (final_run 0 1 eq_refl).
  - vm_compute. split; [discriminate|reflexivity].
  - rewrite Hh, boot_height in Hl. destruct hs as [|hd [|]]; [discriminate Hl| |simpl in Hl; lia].
    exists hd. destruct Hk as (E & _ & id & Ex & Eid). rewrite boot_height in E. simpl in Eid. rewrite <- Eid.
    exact (conj E Ex).
Defined.

(** ** A proposal that arrives after its block *)
(** Validator 3 prevotes nil on its timeout, and learns of the block from the
    other three prevotes. *)
Definition polka_first : list delivery :=
  [Tick 0 0; Tick 1 0; Tick 2 0; Tick 3 0; Own 1 0; Own 1 1; From 2 1 0; From 2 1 1; From 3 1 0; From 3 1 1;
   Tick 0 1; Own 0 0; Own 1 2; From 1 2 0; From 1 3 0; Own 2 0; From 2 1 2; From 2 3 0; Own 3 0; From 3 1 2; From 3 2 0;
   From 0 1 2; From 0 2 0; From 0 3 0].
(** The block's part, the proposal, and the three precommits. *)
Definition part_arrives : delivery := From 0 1 1.
Definition proposal_arrives : delivery := From 0 1 0.
Definition precommits_arrive : list delivery := [From 0 1 3; From 0 2 1; From 0 3 1].

Definition four (ds : list delivery) : res (list node) := deliver_all None ds (map (boot None) [1; 2; 3; 4]).
Definition height_of (i : nat) (r : res (list node)) : option Z :=
  match r with Ok nodes => (fun cs => Height (rs cs)) <$> nodes !! i | Panic => None end.

