(* ===== verification/EthMath.v ===== *)
(** * eth/common and eth/common/math: words, bytes and checked arithmetic

    [*big.Int] is [Z], [uint64] a [Z] wrapped with [u64], [common.Hash] and
    [common.Address] the numbers below [2^256] and [2^160] that their bytes
    spell.  The words of a [big.Int] are 64 bits wide. *)
From Stdlib Require Zpow_facts.
From S2P Require Import Prelude Wire.

Module EthMath.

Abbreviation be_bytes := Wire.be_bytes.
Abbreviation be_val := Wire.be_val.

Definition tt255 : Z := 2 ^ 255.
Definition tt256 : Z := 2 ^ 256.
Definition MaxUint64 : Z := 2 ^ 64 - 1.

(** ** math/big: what the code uses of it *)
Definition BitLen (x : Z) : Z := if x =? 0 then 0 else Z.log2 (Z.abs x) + 1.

(** [x.Bits()]: the words of the absolute value, least significant first,
    without leading zeros. *)
Fixpoint big_words (fuel : nat) (x : Z) : list Z :=
  match fuel with
  | O => []
  | S fuel' => if x =? 0 then [] else x mod 2 ^ 64 :: big_words fuel' (x / 2 ^ 64)
  end.
Definition Bits (x : Z) : list Z := big_words (Z.to_nat (BitLen x / 64 + 1)) (Z.abs x).

(** [x.Uint64()] and [x.Int64()]: the low word. *)
Definition Uint64 (x : Z) : Z := u64 x.
Definition Int64 (x : Z) : Z := i64 x.

(** [x.Bytes()]: the shortest big-endian form. *)
Definition Bytes (x : Z) : bytes := be_bytes (Z.to_nat ((BitLen x + 7) / 8)) (Z.abs x).

(** ** common/math/big.go *)
Definition BigMax (x y : Z) : Z := if x <? y then y else x.
Definition BigMin (x y : Z) : Z := if x >? y then y else x.

Definition U256 (x : Z) : Z := Z.land x (tt256 - 1).

Definition S256 (x : Z) : Z := if x <? tt255 then x else x - tt256.

(** The two loops of [Exp]: [n] bits of a word, then the words. *)
Fixpoint exp_word (n : nat) (word result base : Z) : Z * Z :=
  match n with
  | O => (result, base)
  | S n' =>
      let result := if Z.land word 1 =? 1 then U256 (result * base) else result in
      exp_word n' (Z.shiftr word 1) result (U256 (base * base))
  end.

Fixpoint exp_words (ws : list Z) (result base : Z) : Z :=
  match ws with
  | [] => result
  | word :: ws' =>
      let '(result, base) := exp_word 64 word result base in exp_words ws' result base
  end.

Definition Exp (base exponent : Z) : Z := exp_words (Bits exponent) 1 base.

Definition bigEndianByteAt (bigint n : Z) : Z :=
  match Bits bigint !! Z.to_nat (n / 8) with
  | None => 0
  | Some word => u8 (Z.shiftr word (8 * (n mod 8)))
  end.

Definition Byte (bigint padlength n : Z) : Z :=
  if n >=? padlength then 0 else bigEndianByteAt bigint (padlength - 1 - n).

(** [ReadBits]: [i] counts down the buffer, [j] the bytes of a word. *)
Fixpoint readbits_word (j : nat) (d : Z) (i : nat) (buf : bytes) : nat * bytes :=
  match j, i with
  | S j', S i' => readbits_word j' (Z.shiftr d 8) i' (<[i' := u8 d]> buf)
  | _, _ => (i, buf)
  end.

Fixpoint readbits_words (ws : list Z) (i : nat) (buf : bytes) : bytes :=
  match ws with
  | [] => buf
  | d :: ws' => let '(i, buf) := readbits_word 8 d i buf in readbits_words ws' i buf
  end.

Definition ReadBits (bigint : Z) (buf : bytes) : bytes :=
  readbits_words (Bits bigint) (length buf) buf.

Definition PaddedBigBytes (bigint n : Z) : bytes :=
  if BitLen bigint / 8 >=? n then Bytes bigint
  else ReadBits bigint (replicate (Z.to_nat n) 0).

(** ** common/math/integer.go *)
Definition SafeSub (x y : Z) : Z * bool := (u64 (x - y), x <? y).
Definition SafeAdd (x y : Z) : Z * bool := (u64 (x + y), y >? MaxUint64 - x).
Definition SafeMul (x y : Z) : Z * bool :=
  if (x =? 0) || (y =? 0) then (0, false) else (u64 (x * y), y >? MaxUint64 / x).

(** ** common/types.go and common/bytes.go *)
Definition BytesToHash (b : bytes) : Z := be_val b mod 2 ^ 256.
Definition BigToHash (b : Z) : Z := BytesToHash (Bytes b).
Definition BytesToAddress (b : bytes) : Z := be_val b mod 2 ^ 160.
Definition BigToAddress (b : Z) : Z := BytesToAddress (Bytes b).
Definition hash_Bytes (h : Z) : bytes := be_bytes 32 h.
Definition address_Bytes (a : Z) : bytes := be_bytes 20 a.

Definition RightPadBytes (slice : bytes) (l : Z) : bytes :=
  if l <=? Z.of_nat (length slice) then slice
  else slice ++ replicate (Z.to_nat l - length slice) 0.

Definition LeftPadBytes (slice : bytes) (l : Z) : bytes :=
  if l <=? Z.of_nat (length slice) then slice
  else replicate (Z.to_nat l - length slice) 0 ++ slice.

(** ** Words *)
Lemma U256_mod x : U256 x = x mod 2 ^ 256.
Proof. unfold U256, tt256. replace (2 ^ 256 - 1) with (Z.ones 256) by (by vm_compute). by rewrite Z.land_ones. Qed.

Lemma U256_range x : 0 <= U256 x < 2 ^ 256.
Proof. rewrite U256_mod. apply Z.mod_pos_bound. lia. Qed.

Lemma U256_id x : 0 <= x < 2 ^ 256 -> U256 x = x.
Proof. intros ?. rewrite U256_mod. by apply Z.mod_small. Qed.

Lemma BitLen_nonneg x : 0 <= BitLen x.
Proof. unfold BitLen. destruct (x =? 0); [done|]. pose proof (Z.log2_nonneg (Z.abs x)). lia. Qed.

(** [BitLen] is the least width that holds the number. *)
Lemma BitLen_le x k : 0 <= x -> 0 <= k -> BitLen x <= k <-> x < 2 ^ k.
Proof.
  intros Hx Hk. unfold BitLen. destruct (Z.eqb_spec x 0) as [->|Hne].
  { split; intros; [apply Z.pow_pos_nonneg; lia|done]. }
  rewrite Z.abs_eq by done. rewrite (Z.log2_lt_pow2 x k) by lia. lia.
Qed.

Lemma BitLen_bound x : 0 <= x < 2 ^ BitLen x \/ x < 0.
Proof.
  destruct (Z.lt_ge_cases x 0); [by right|left]. split; [done|].
  apply BitLen_le; [done|apply BitLen_nonneg|lia].
Qed.

Fixpoint words_val (ws : list Z) : Z :=
  match ws with [] => 0 | w :: ws' => w + 2 ^ 64 * words_val ws' end.

Lemma big_words_spec fuel x : 0 <= x < 2 ^ (64 * Z.of_nat fuel) ->
  words_val (big_words fuel x) = x /\ Forall is_u64 (big_words fuel x).
Proof.
  revert x. induction fuel as [|fuel IH]; intros x Hx; cbn [big_words].
  { simpl in *. split; [lia|constructor]. }
  destruct (Z.eqb_spec x 0) as [->|Hne]; [by split; [|constructor]|].
  assert (0 <= x / 2 ^ 64 < 2 ^ (64 * Z.of_nat fuel)) as Hq.
  { split; [apply Z.div_pos; lia|]. apply Z.div_lt_upper_bound; [lia|].
    rewrite <- Z.pow_add_r by lia. replace (64 + 64 * Z.of_nat fuel) with (64 * Z.of_nat (S fuel)) by lia.
    lia. }
  destruct (IH _ Hq) as [Hv Hf]. cbn [words_val]. rewrite Hv. split.
  - pose proof (Z.div_mod x (2 ^ 64)). lia.
  - constructor; [|done]. apply Z.mod_pos_bound. lia.
Qed.

Lemma Bits_spec x : 0 <= x -> words_val (Bits x) = x /\ Forall is_u64 (Bits x).
Proof.
  intros Hx. unfold Bits. rewrite Z.abs_eq by done. apply big_words_spec. split; [done|].
  pose proof (BitLen_nonneg x). pose proof (Z.div_pos (BitLen x) 64).
  rewrite Z2Nat.id by lia. apply BitLen_le; [done|lia|].
  pose proof (Z.mul_succ_div_gt (BitLen x) 64). lia.
Qed.

(** ** Exponentiation by squaring *)
Lemma land_1 x : Z.land x 1 = x mod 2.
Proof. apply (Z.land_ones x 1). lia. Qed.

Lemma tt256_pos : 0 < tt256.
Proof. done. Qed.

Lemma pow_mod a k : 0 <= k -> ((a mod tt256) ^ k) mod tt256 = a ^ k mod tt256.
Proof. intros ?. symmetry. apply Zpow_facts.Zpower_mod, tt256_pos. Qed.

Lemma mul_mod_l a b : (a mod tt256 * b) mod tt256 = (a * b) mod tt256.
Proof. apply Zmult_mod_idemp_l. Qed.

Lemma mul_mod_r a b : (a * (b mod tt256)) mod tt256 = (a * b) mod tt256.
Proof. apply Zmult_mod_idemp_r. Qed.

(** One turn of the inner loop keeps [result * base ^ word]. *)
Lemma exp_turn word result base : 0 <= word ->
  ((if word mod 2 =? 1 then U256 (result * base) else result) *
     U256 (base * base) ^ (word / 2)) mod tt256 = (result * base ^ word) mod tt256.
Proof.
  intros Hw. pose proof (Z.div_mod word 2 ltac:(lia)) as Hd.
  pose proof (Z.mod_pos_bound word 2 ltac:(lia)) as Hm.
  pose proof (Z.div_pos word 2 ltac:(lia) ltac:(lia)) as Hq.
  rewrite !U256_mod. fold tt256. rewrite <- mul_mod_r, pow_mod, mul_mod_r by done.
  rewrite <- (Z.pow_2_r base), <- Z.pow_mul_r by lia.
  destruct (Z.eqb_spec (word mod 2) 1) as [E|E].
  - rewrite mul_mod_l, <- Z.mul_assoc. do 2 f_equal.
    rewrite <- Z.pow_succ_r by lia. f_equal. lia.
  - do 3 f_equal. lia.
Qed.

Lemma exp_word_spec n word result base :
  0 <= word < 2 ^ Z.of_nat n -> 0 <= result < tt256 ->
  let '(r, b) := exp_word n word result base in
  0 <= r < tt256 /\ r mod tt256 = (result * base ^ word) mod tt256 /\
  b mod tt256 = (base ^ (2 ^ Z.of_nat n)) mod tt256.
Proof.
  revert word result base. induction n as [|n IH]; intros word result base Hw Hr; cbn [exp_word].
  { simpl in Hw. replace word with 0 by lia. split_and!; [lia|lia| |].
    - by rewrite Z.pow_0_r, Z.mul_1_r.
    - by rewrite Z.pow_1_r. }
  rewrite land_1, Z.shiftr_div_pow2 by lia. change (2 ^ 1) with 2.
  pose proof (exp_turn word result base ltac:(lia)) as Ht.
  set (result' := if word mod 2 =? 1 then U256 (result * base) else result) in *.
  assert (0 <= result' < tt256) as Hr'.
  { unfold result'. destruct (_ =? 1); [apply U256_range|done]. }
  assert (0 <= word / 2 < 2 ^ Z.of_nat n) as Hw'.
  { split; [apply Z.div_pos; lia|]. apply Z.div_lt_upper_bound; [lia|].
    rewrite <- Z.pow_succ_r by lia.
    replace (Z.succ (Z.of_nat n)) with (Z.of_nat (S n)) by lia. lia. }
  specialize (IH _ result' (U256 (base * base)) Hw' Hr').
  destruct (exp_word n _ _ _) as [r b]. destruct IH as (Hr'' & Er & Eb).
  split; [done|]. split; [by rewrite Er|].
  rewrite Eb, U256_mod. fold tt256. rewrite pow_mod by (apply Z.pow_nonneg; lia).
  rewrite <- (Z.pow_2_r base), <- Z.pow_mul_r by (try apply Z.pow_nonneg; lia).
  rewrite <- Z.pow_succ_r by lia. do 3 f_equal. lia.
Qed.

Lemma exp_words_spec ws result base :
  Forall is_u64 ws -> 0 <= result < tt256 ->
  exp_words ws result base = (result * base ^ words_val ws) mod tt256.
Proof.
  revert result base. induction ws as [|w ws IH]; intros result base Hf Hr; cbn [exp_words words_val].
  { rewrite Z.pow_0_r, Z.mul_1_r. by rewrite Z.mod_small. }
  apply Forall_cons in Hf as [Hw Hf].
  pose proof (exp_word_spec 64 w result base Hw Hr) as Hs.
  destruct (exp_word 64 w result base) as [r b]. destruct Hs as (Hr' & Er & Eb).
  change (Z.of_nat 64) with 64 in Eb.
  rewrite IH by done. unfold is_u64 in Hw.
  assert (0 <= words_val ws) as Hv.
  { clear -Hf. induction Hf as [|x l Hx]; cbn [words_val]; unfold is_u64 in *; lia. }
  assert (0 <= 2 ^ 64) as Hk by done. revert Eb Hk. generalize (2 ^ 64). intros k Eb Hk.
  rewrite Z.pow_add_r, Z.pow_mul_r by lia.
  rewrite <- mul_mod_l, Er, mul_mod_l, <- mul_mod_r, <- (pow_mod b), Eb by done.
  rewrite pow_mod, mul_mod_r, Z.mul_assoc by done. done.
Qed.

(** [math.Exp] computes the power modulo [2^256]. *)
Lemma Exp_spec base exponent : 0 <= exponent -> Exp base exponent = base ^ exponent mod 2 ^ 256.
Proof.
  intros He. destruct (Bits_spec exponent He) as [Hv Hf].
  unfold Exp. rewrite exp_words_spec, Hv by done. by rewrite Z.mul_1_l.
Qed.

(** ** Bytes of a word *)
Definition byte_at (v : Z) (k : nat) : Z := (v / 2 ^ (8 * Z.of_nat k)) mod 256.

Lemma byte_at_shift v k : byte_at (Z.shiftr v 8) k = byte_at v (S k).
Proof.
  unfold byte_at. rewrite Z.shiftr_div_pow2, Z.div_div by lia.
  rewrite <- Z.pow_add_r by lia. do 3 f_equal. lia.
Qed.

Lemma lookup_be_bytes n v p : (p < n)%nat -> be_bytes n v !! p = Some (byte_at v (n - 1 - p)).
Proof.
  revert p. induction n as [|n IH]; intros p Hp; [lia|]. cbn [Wire.be_bytes].
  destruct p as [|p].
  - change (Some ((v / 2 ^ (8 * Z.of_nat n)) mod 256) = Some (byte_at v (S n - 1 - 0))).
    unfold byte_at. do 6 f_equal. lia.
  - change (be_bytes n v !! p = Some (byte_at v (S n - 1 - S p))).
    rewrite IH by lia. do 2 f_equal. lia.
Qed.

Lemma readbits_word_spec j d i buf : (i <= length buf)%nat ->
  let '(i', buf') := readbits_word j d i buf in
  i' = (i - j)%nat /\ length buf' = length buf /\
  forall p, buf' !! p = if decide (i - j <= p < i)%nat then Some (byte_at d (i - 1 - p)) else buf !! p.
Proof.
  revert d i buf. induction j as [|j IH]; intros d i buf Hi.
  { cbn [readbits_word]. split_and!; [lia|done|]. intros p. by rewrite decide_False by lia. }
  destruct i as [|i]; cbn [readbits_word].
  { split_and!; [lia|done|]. intros p. by rewrite decide_False by lia. }
  specialize (IH (Z.shiftr d 8) i (<[i := u8 d]> buf)). rewrite length_insert in IH.
  destruct (readbits_word j _ i _) as [i' buf']. destruct IH as (-> & Hl & Hp); [lia|].
  split_and!; [lia|done|]. intros p. rewrite Hp.
  destruct (decide (i - j <= p < i)%nat) as [H1|H1].
  { rewrite decide_True by lia. rewrite byte_at_shift. do 2 f_equal. lia. }
  destruct (decide (p = i)) as [->|Hne].
  - rewrite list_lookup_insert_eq by lia. rewrite decide_True by lia.
    replace (S i - 1 - i)%nat with 0%nat by lia. unfold byte_at, u8. by rewrite Z.div_1_r.
  - rewrite list_lookup_insert_ne by done. by rewrite decide_False by lia.
Qed.

Lemma byte_at_cons w ws k : is_u64 w ->
  byte_at (words_val (w :: ws)) k =
  if decide (k < 8)%nat then byte_at w k else byte_at (words_val ws) (k - 8).
Proof.
  intros Hw. unfold is_u64 in Hw. cbn [words_val]. unfold byte_at. destruct (decide (k < 8)%nat).
  - replace (2 ^ 64) with (2 ^ (8 * Z.of_nat k) * (2 ^ (8 * (7 - Z.of_nat k)) * 256)).
    2:{ change 256 with (2 ^ 8). rewrite <- !Z.pow_add_r by lia. f_equal. lia. }
    rewrite <- Z.mul_assoc, (Z.mul_comm (2 ^ (8 * Z.of_nat k))).
    rewrite Z.div_add by (apply Z.pow_nonzero; lia).
    rewrite <- (Z.mul_comm 256), <- Z.mul_assoc, (Z.mul_comm 256), Z.mod_add by lia. done.
  - replace (2 ^ (8 * Z.of_nat k)) with (2 ^ 64 * 2 ^ (8 * Z.of_nat (k - 8))).
    2:{ rewrite <- Z.pow_add_r by lia. f_equal. lia. }
    rewrite <- Z.div_div by lia. do 2 f_equal.
    rewrite Z.mul_comm, Z.div_add, Z.div_small by lia. lia.
Qed.

Lemma readbits_words_spec ws i buf p : Forall is_u64 ws -> (i <= length buf)%nat ->
  readbits_words ws i buf !! p =
  if decide (i - 8 * length ws <= p < i)%nat then Some (byte_at (words_val ws) (i - 1 - p)) else buf !! p.
Proof.
  revert i buf. induction ws as [|w ws IH]; intros i buf Hf Hi; cbn [readbits_words].
  { simpl. by rewrite decide_False by lia. }
  apply Forall_cons in Hf as [Hw Hf].
  pose proof (readbits_word_spec 8 w i buf Hi) as Hs.
  destruct (readbits_word 8 w i buf) as [i' buf']. destruct Hs as (-> & Hl & Hp).
  rewrite IH by (done || lia). rewrite Hp. cbn [length].
  destruct (decide (i - 8 - 8 * length ws <= p < i - 8)%nat).
  { rewrite decide_True by lia. rewrite byte_at_cons by done. rewrite decide_False by lia.
    do 2 f_equal. lia. }
  destruct (decide (i - 8 <= p < i)%nat).
  - rewrite decide_True by lia. rewrite byte_at_cons by done. by rewrite decide_True by lia.
  - by rewrite decide_False by lia.
Qed.

Lemma words_val_bound ws : Forall is_u64 ws -> 0 <= words_val ws < 2 ^ (64 * Z.of_nat (length ws)).
Proof.
  induction 1 as [|w ws Hw Hf IH]; [done|]. unfold is_u64 in Hw. cbn [words_val length].
  replace (64 * Z.of_nat (S (length ws))) with (64 + 64 * Z.of_nat (length ws)) by lia.
  rewrite Z.pow_add_r by lia. nia.
Qed.

(** [ReadBits] on a cleared buffer writes the number in big-endian order. *)
Lemma ReadBits_spec x n : 0 <= x -> ReadBits x (replicate n 0) = be_bytes n x.
Proof.
  intros Hx. destruct (Bits_spec x Hx) as [Hv Hf]. apply list_eq. intros p.
  unfold ReadBits. rewrite readbits_words_spec by (done || lia). rewrite length_replicate, Hv.
  destruct (decide (p < n)%nat) as [Hp|Hp].
  2:{ rewrite decide_False by lia. rewrite !lookup_ge_None_2; rewrite ?length_replicate, ?Wire.be_bytes_length; [done|lia|lia]. }
  rewrite lookup_be_bytes by done. destruct (decide _) as [Hd|Hd]; [done|].
  rewrite lookup_replicate_2 by done. f_equal. unfold byte_at.
  pose proof (words_val_bound _ Hf) as Hb. rewrite Hv in Hb.
  rewrite Z.div_small; [done|]. split; [done|]. eapply Z.lt_le_trans; [apply Hb|].
  apply Z.pow_le_mono_r; lia.
Qed.

(** The byte [n] of a 32-byte word, counted from the most significant one. *)
Lemma Byte_spec x n : 0 <= x -> 0 <= n < 32 ->
  Byte x 32 n = byte_at x (31 - Z.to_nat n).
Proof.
  intros Hx Hn. unfold Byte. destruct (Z.geb_spec n 32) as [?|_]; [lia|].
  replace (32 - 1 - n) with (Z.of_nat (31 - Z.to_nat n)) by lia.
  generalize (31 - Z.to_nat n)%nat. intros k. unfold bigEndianByteAt.
  destruct (Bits_spec x Hx) as [Hv Hf]. rewrite <- Hv at 2. clear Hv.
  replace (Z.to_nat (Z.of_nat k / 8)) with (k / 8)%nat 
    by (change 8 with (Z.of_nat 8); rewrite <- Nat2Z.inj_div; lia).
  replace (Z.of_nat k mod 8) with (Z.of_nat (k mod 8)) by (apply (Nat2Z.inj_mod k 8)).
  revert k. induction Hf as [|w ws Hw Hf IH]; intros k.
  { unfold byte_at. cbn [words_val]. by rewrite Z.div_0_l by (apply Z.pow_nonzero; lia). }
  rewrite byte_at_cons by done. destruct (decide (k < 8)%nat).
  - rewrite Nat.div_small, Nat.mod_small by done. cbn [lookup list_lookup].
    unfold byte_at, u8. by rewrite Z.shiftr_div_pow2 by lia.
  - rewrite <- IH. remember (k - 8)%nat as q. replace k with (q + 1 * 8)%nat by lia.
    rewrite Nat.div_add, Nat.Div0.mod_add by lia. by rewrite Nat.add_1_r.
Qed.

(** ** Checked 64-bit arithmetic: the flag tells whether the result is exact *)
Lemma SafeAdd_spec x y : is_u64 x -> is_u64 y ->
  SafeAdd x y = if x + y <? 2 ^ 64 then (x + y, false) else (x + y - 2 ^ 64, true).
Proof.
  unfold is_u64, SafeAdd, MaxUint64, u64. intros Hx Hy.
  destruct (Z.gtb_spec y (2 ^ 64 - 1 - x)); destruct (Z.ltb_spec (x + y) (2 ^ 64)); try lia.
  - f_equal. rewrite <- (Z.mod_small (x + y - 2 ^ 64) (2 ^ 64)) by lia.
    rewrite <- (Z_mod_plus_full (x + y - 2 ^ 64) 1). f_equal. lia.
  - f_equal. apply Z.mod_small. lia.
Qed.

Lemma SafeMul_spec x y : is_u64 x -> is_u64 y ->
  SafeMul x y = (u64 (x * y), negb (x * y <? 2 ^ 64)).
Proof.
  unfold is_u64, SafeMul, MaxUint64. intros Hx Hy.
  destruct (Z.eqb_spec x 0) as [->|Hx0]; [done|].
  destruct (Z.eqb_spec y 0) as [->|Hy0]; [by rewrite Z.mul_0_r|]. cbn [orb]. f_equal.
  destruct (Z.gtb_spec y ((2 ^ 64 - 1) / x)) as [H|H]; destruct (Z.ltb_spec (x * y) (2 ^ 64)) as [H'|H'];
    try done; exfalso.
  - apply Z.lt_nge in H. apply H. apply Z.div_le_lower_bound; lia.
  - pose proof (Z.mul_div_le (2 ^ 64 - 1) x ltac:(lia)). nia.
Qed.

(** Big-endian values fit their length. *)
Lemma be_val_bound bz : Forall is_byte bz -> 0 <= be_val bz < 2 ^ (8 * Z.of_nat (length bz)).
Proof.
  induction 1 as [|b bz Hb _ IH]; [done|]. rewrite Wire.be_val_cons. unfold is_byte in Hb.
  replace (8 * Z.of_nat (length (b :: bz))) with (8 + 8 * Z.of_nat (length bz)) by (simpl length; lia).
  rewrite Z.pow_add_r by lia. nia.
Qed.

Lemma Bytes_val x : 0 <= x -> be_val (Bytes x) = x.
Proof.
  intros Hx. unfold Bytes. rewrite Wire.be_val_bytes, Z.abs_eq by done.
  pose proof (BitLen_nonneg x). apply Z.mod_small. split; [done|].
  apply BitLen_le; [done|lia|]. rewrite Z2Nat.id by (apply Z.div_pos; lia).
  pose proof (Z.mul_succ_div_gt (BitLen x + 7) 8). lia.
Qed.

Lemma BigToAddress_mod x : 0 <= x -> BigToAddress x = x mod 2 ^ 160.
Proof. intros ?. unfold BigToAddress, BytesToAddress. by rewrite Bytes_val. Qed.

Lemma BigToHash_mod x : 0 <= x -> BigToHash x = x mod 2 ^ 256.
Proof. intros ?. unfold BigToHash, BytesToHash. by rewrite Bytes_val. Qed.

End EthMath.
