(* ===== verification/EvmCode.v ===== *)
(** * eth/core/vm/opcodes.go and analysis.go: byte code and its jump targets

    [codeBitmap] marks the bytes of a program that are arguments of a PUSH, so
    that a jump into them is refused.  The reference definition walks the
    program instruction by instruction. *)
From S2P Require Import Prelude.

Module EvmCode.

(** ** opcodes.go *)
Inductive OpCode :=
| STOP | ADD | MUL | SUB | DIV | SDIV | MOD | SMOD | ADDMOD | MULMOD | EXP | SIGNEXTEND
| LT | GT | SLT | SGT | EQ | ISZERO | AND | OR | XOR | NOT | BYTE | SHL | SHR | SAR
| SHA3
| ADDRESS | BALANCE | ORIGIN | CALLER | CALLVALUE | CALLDATALOAD | CALLDATASIZE
| CALLDATACOPY | CODESIZE | CODECOPY | GASPRICE | EXTCODESIZE | EXTCODECOPY
| RETURNDATASIZE | RETURNDATACOPY | EXTCODEHASH
| BLOCKHASH | COINBASE | TIMESTAMP | NUMBER | DIFFICULTY | GASLIMIT
| POP | MLOAD | MSTORE | MSTORE8 | SLOAD | SSTORE | JUMP | JUMPI | PC | MSIZE | GAS | JUMPDEST
| PUSH (n : Z) | DUP (n : Z) | SWAP (n : Z) | LOG (n : Z)
| CREATE | CALL | CALLCODE | RETURN | DELEGATECALL | CREATE2 | STATICCALL | REVERT | SELFDESTRUCT.

#[export] Instance OpCode_eq_dec : EqDecision OpCode.
Proof. solve_decision. Defined.

Definition PUSH1 : Z := 0x60.
Definition PUSH32 : Z := 0x7f.
Definition JUMPDEST_byte : Z := 0x5b.

(** The instruction of a byte, for the bytes that have one. *)
Definition opcode_of (b : Z) : option OpCode :=
  if (PUSH1 <=? b) && (b <=? PUSH32) then Some (PUSH (b - PUSH1 + 1))
  else if (0x80 <=? b) && (b <=? 0x8f) then Some (DUP (b - 0x80 + 1))
  else if (0x90 <=? b) && (b <=? 0x9f) then Some (SWAP (b - 0x90 + 1))
  else if (0xa0 <=? b) && (b <=? 0xa4) then Some (LOG (b - 0xa0))
  else match b with
  | 0x00 => Some STOP | 0x01 => Some ADD | 0x02 => Some MUL | 0x03 => Some SUB
  | 0x04 => Some DIV | 0x05 => Some SDIV | 0x06 => Some MOD | 0x07 => Some SMOD
  | 0x08 => Some ADDMOD | 0x09 => Some MULMOD | 0x0a => Some EXP | 0x0b => Some SIGNEXTEND
  | 0x10 => Some LT | 0x11 => Some GT | 0x12 => Some SLT | 0x13 => Some SGT
  | 0x14 => Some EQ | 0x15 => Some ISZERO | 0x16 => Some AND | 0x17 => Some OR
  | 0x18 => Some XOR | 0x19 => Some NOT | 0x1a => Some BYTE
  | 0x1b => Some SHL | 0x1c => Some SHR | 0x1d => Some SAR
  | 0x20 => Some SHA3
  | 0x30 => Some ADDRESS | 0x31 => Some BALANCE | 0x32 => Some ORIGIN | 0x33 => Some CALLER
  | 0x34 => Some CALLVALUE | 0x35 => Some CALLDATALOAD | 0x36 => Some CALLDATASIZE
  | 0x37 => Some CALLDATACOPY | 0x38 => Some CODESIZE | 0x39 => Some CODECOPY
  | 0x3a => Some GASPRICE | 0x3b => Some EXTCODESIZE | 0x3c => Some EXTCODECOPY
  | 0x3d => Some RETURNDATASIZE | 0x3e => Some RETURNDATACOPY | 0x3f => Some EXTCODEHASH
  | 0x40 => Some BLOCKHASH | 0x41 => Some COINBASE | 0x42 => Some TIMESTAMP
  | 0x43 => Some NUMBER | 0x44 => Some DIFFICULTY | 0x45 => Some GASLIMIT
  | 0x50 => Some POP | 0x51 => Some MLOAD | 0x52 => Some MSTORE | 0x53 => Some MSTORE8
  | 0x54 => Some SLOAD | 0x55 => Some SSTORE | 0x56 => Some JUMP | 0x57 => Some JUMPI
  | 0x58 => Some PC | 0x59 => Some MSIZE | 0x5a => Some GAS | 0x5b => Some JUMPDEST
  | 0xf0 => Some CREATE | 0xf1 => Some CALL | 0xf2 => Some CALLCODE | 0xf3 => Some RETURN
  | 0xf4 => Some DELEGATECALL | 0xf5 => Some CREATE2 | 0xfa => Some STATICCALL
  | 0xfd => Some REVERT | 0xff => Some SELFDESTRUCT
  | _ => None
  end.

(** ** analysis.go *)
Definition or_at (bits : bytes) (i : nat) (mask : Z) : res bytes :=
  let! b := deref (bits !! i) in Ok (<[i := Z.lor b mask]> bits).

Definition set (bits : bytes) (pos : nat) : res bytes :=
  or_at bits (pos / 8) (Z.shiftr 0x80 (Z.of_nat (pos mod 8))).

Definition set8 (bits : bytes) (pos : nat) : res bytes :=
  let mask := Z.shiftr 0xFF (Z.of_nat (pos mod 8)) in
  let! bits := or_at bits (pos / 8) mask in
  or_at bits (pos / 8 + 1) (Z.lxor mask 0xFF).

Definition codeSegment (bits : bytes) (pos : nat) : res bool :=
  let! b := deref (bits !! (pos / 8)%nat) in
  Ok (Z.land b (Z.shiftr 0x80 (Z.of_nat (pos mod 8))) =? 0).

(** The inner loops: eight argument bytes at a time, then the rest.  [fuel] is
    the number of argument bytes. *)
Fixpoint mark_octets (fuel : nat) (numbits pc : nat) (bits : bytes) : res (nat * nat * bytes) :=
  match fuel with
  | O => Ok (numbits, pc, bits)
  | S fuel' =>
      if (8 <=? numbits)%nat then
        let! bits := set8 bits pc in mark_octets fuel' (numbits - 8) (pc + 8) bits
      else Ok (numbits, pc, bits)
  end.

Fixpoint mark_bits (numbits pc : nat) (bits : bytes) : res (nat * bytes) :=
  match numbits with
  | O => Ok (pc, bits)
  | S numbits' => let! bits := set bits pc in mark_bits numbits' (S pc) bits
  end.

(** The outer loop; [pc] grows on every turn, so the length of the code is
    fuel enough. *)
Fixpoint bitmap_loop (fuel : nat) (code : bytes) (pc : nat) (bits : bytes) : res bytes :=
  match fuel with
  | O => Ok bits
  | S fuel' =>
      match code !! pc with
      | None => Ok bits
      | Some op =>
          if (PUSH1 <=? op) && (op <=? PUSH32) then
            let numbits := Z.to_nat (op - PUSH1 + 1) in
            let! (numbits, pc, bits) := mark_octets numbits numbits (S pc) bits in
            let! (pc, bits) := mark_bits numbits pc bits in
            bitmap_loop fuel' code pc bits
          else bitmap_loop fuel' code (S pc) bits
      end
  end.

Definition codeBitmap (code : bytes) : res bytes :=
  bitmap_loop (length code) code 0 (replicate (length code / 8 + 1 + 4) 0).

(** ** The reference: walking the program *)

(** Where the instruction after the one at [pc] starts. *)
Definition next_instr (code : bytes) (pc : nat) : nat :=
  match code !! pc with
  | Some op => if (PUSH1 <=? op) && (op <=? PUSH32) then (S pc + Z.to_nat (op - PUSH1 + 1))%nat else S pc
  | None => S pc
  end.

Definition instr_start (code : bytes) (pc : nat) : Prop :=
  exists n, pc = Nat.iter n (next_instr code) 0%nat.

Lemma next_instr_gt code pc : (pc < next_instr code pc)%nat.
Proof.
  unfold next_instr. destruct (code !! pc) as [op|]; [|lia].
  destruct ((PUSH1 <=? op) && _); [|lia]. lia.
Qed.

Lemma iter_next_le code m n : (m <= n)%nat ->
  (Nat.iter m (next_instr code) 0 <= Nat.iter n (next_instr code) 0)%nat.
Proof.
  induction 1 as [|n H IH]; [done|]. change (Nat.iter (S n) ?f ?x) with (f (Nat.iter n f x)).
  pose proof (next_instr_gt code (Nat.iter n (next_instr code) 0%nat)). lia.
Qed.

(** Instructions do not overlap. *)
Lemma instr_start_next code p q :
  instr_start code p -> instr_start code q -> (p < q)%nat -> (next_instr code p <= q)%nat.
Proof.
  intros [m ->] [n ->] Hlt. apply (iter_next_le code (S m) n).
  destruct (Nat.le_gt_cases n m) as [H|H]; [|done].
  apply (iter_next_le code) in H. lia.
Qed.

Lemma instr_start_step code p : instr_start code p -> instr_start code (next_instr code p).
Proof. intros [n ->]. by exists (S n). Qed.

(** ** Reading the bit vector *)
Definition getbit (bits : bytes) (q : nat) : bool :=
  match bits !! (q / 8)%nat with
  | Some b => Z.testbit b (7 - Z.of_nat (q mod 8))
  | None => false
  end.

Lemma testbit_80 r q : (r < 8)%nat -> (q < 8)%nat ->
  Z.testbit (Z.shiftr 0x80 (Z.of_nat r)) (7 - Z.of_nat q) = bool_decide (q = r).
Proof. intros Hr Hq. do 8 (destruct r as [|r]; [do 8 (destruct q as [|q]; [done|]); lia|]). lia. Qed.

Lemma testbit_FF r q : (r < 8)%nat -> (q < 8)%nat ->
  Z.testbit (Z.shiftr 0xFF (Z.of_nat r)) (7 - Z.of_nat q) = bool_decide (r <= q)%nat.
Proof. intros Hr Hq. do 8 (destruct r as [|r]; [do 8 (destruct q as [|q]; [done|]); lia|]). lia. Qed.

Lemma testbit_notFF r q : (r < 8)%nat -> (q < 8)%nat ->
  Z.testbit (Z.lxor (Z.shiftr 0xFF (Z.of_nat r)) 0xFF) (7 - Z.of_nat q) = bool_decide (q < r)%nat.
Proof. intros Hr Hq. do 8 (destruct r as [|r]; [do 8 (destruct q as [|q]; [done|]); lia|]). lia. Qed.

Lemma or_at_spec bits i mask : (i < length bits)%nat ->
  exists bits', or_at bits i mask = Ok bits' /\ length bits' = length bits /\
    forall q, getbit bits' q =
      (getbit bits q || (bool_decide (q / 8 = i)%nat && Z.testbit mask (7 - Z.of_nat (q mod 8)))).
Proof.
  intros Hi. unfold or_at. destruct (lookup_lt_is_Some_2 bits i Hi) as [b Hb]. rewrite Hb.
  eexists. split; [reflexivity|]. rewrite length_insert. split; [done|]. intros q. unfold getbit.
  destruct (decide (q / 8 = i)%nat) as [<-|Hne].
  - rewrite list_lookup_insert_eq, Hb by done. rewrite bool_decide_true by done. apply Z.lor_spec.
  - rewrite list_lookup_insert_ne by done. rewrite bool_decide_false by done. by rewrite orb_false_r.
Qed.

Lemma mod8 q : (q mod 8 < 8)%nat.
Proof. apply Nat.mod_upper_bound. lia. Qed.

Lemma set_spec bits pos : (pos / 8 < length bits)%nat ->
  exists bits', set bits pos = Ok bits' /\ length bits' = length bits /\
    forall q, getbit bits' q = (getbit bits q || bool_decide (q = pos)).
Proof.
  intros Hp. destruct (or_at_spec bits (pos / 8) (Z.shiftr 0x80 (Z.of_nat (pos mod 8))) Hp)
    as (bits' & E & Hl & Hb).
  exists bits'. split_and!; [done|done|]. intros q. rewrite Hb. f_equal.
  rewrite testbit_80 by apply mod8. rewrite <- bool_decide_and. apply bool_decide_ext.
  pose proof (Nat.div_mod_eq q 8). pose proof (Nat.div_mod_eq pos 8). split; [lia|]. by intros ->.
Qed.

Lemma set8_spec bits pos : (pos / 8 + 1 < length bits)%nat ->
  exists bits', set8 bits pos = Ok bits' /\ length bits' = length bits /\
    forall q, getbit bits' q = (getbit bits q || bool_decide (pos <= q < pos + 8)%nat).
Proof.
  intros Hp. unfold set8.
  destruct (or_at_spec bits (pos / 8) (Z.shiftr 0xFF (Z.of_nat (pos mod 8))))
    as (b1 & -> & Hl1 & Hb1); [lia|]. cbn [rbind].
  destruct (or_at_spec b1 (pos / 8 + 1) (Z.lxor (Z.shiftr 0xFF (Z.of_nat (pos mod 8))) 0xFF))
    as (b2 & -> & Hl2 & Hb2); [lia|].
  eexists. split_and!; [done|lia|]. intros q. rewrite Hb2, Hb1, <- orb_assoc. f_equal.
  rewrite testbit_FF, testbit_notFF by apply mod8.
  rewrite <- !bool_decide_and, <- bool_decide_or. apply bool_decide_ext.
  pose proof (Nat.div_mod_eq q 8). pose proof (Nat.div_mod_eq pos 8).
  pose proof (mod8 q). pose proof (mod8 pos). lia.
Qed.

Lemma codeSegment_spec bits pos : (pos / 8 < length bits)%nat ->
  codeSegment bits pos = Ok (negb (getbit bits pos)).
Proof.
  intros Hp. unfold codeSegment, getbit. destruct (lookup_lt_is_Some_2 bits _ Hp) as [b Hb].
  rewrite Hb. cbn [deref rbind]. f_equal. pose proof (mod8 pos) as Hr.
  set (r := (pos mod 8)%nat) in *. apply eq_bool_prop_intro. clearbody r.
  destruct (Z.eqb_spec (Z.land b (Z.shiftr 128 (Z.of_nat r))) 0) as [E|E].
  - apply (f_equal (fun z => Z.testbit z (7 - Z.of_nat r))) in E.
    rewrite Z.land_spec, testbit_80, bool_decide_true, Z.bits_0, andb_true_r in E by done.
    by rewrite E.
  - destruct (Z.testbit b _) eqn:Eb; [done|]. exfalso. apply E. apply Z.bits_inj'.
    intros n Hn. rewrite Z.land_spec, Z.bits_0.
    destruct (Z.eqb_spec n (7 - Z.of_nat r)) as [->|Hne]; [by rewrite Eb|].
    apply andb_false_iff. right.
    rewrite Z.shiftr_spec by done. change 128 with (2 ^ 7). apply Z.pow2_bits_false. lia.
Qed.

(** ** The loops *)

(** [bits'] is [bits] with the positions from [lo] up to [hi] marked. *)
Definition marked (bits bits' : bytes) (lo hi : nat) : Prop :=
  length bits' = length bits /\
  forall q, getbit bits' q = (getbit bits q || bool_decide (lo <= q < hi)%nat).

Lemma marked_trans a b c lo mid hi : (lo <= mid <= hi)%nat ->
  marked a b lo mid -> marked b c mid hi -> marked a c lo hi.
Proof.
  intros Hm [Hl1 H1] [Hl2 H2]. split; [congruence|]. intros q. rewrite H2, H1, <- orb_assoc. f_equal.
  rewrite <- bool_decide_or. apply bool_decide_ext. lia.
Qed.

Lemma marked_nil bits p : marked bits bits p p.
Proof. split; [done|]. intros q. rewrite bool_decide_false by lia. by rewrite orb_false_r. Qed.

Lemma div8_lt a b : (a <= b)%nat -> (a / 8 <= b / 8)%nat.
Proof. intros. by apply Nat.Div0.div_le_mono. Qed.

Lemma mark_octets_spec fuel n pc bits :
  (n <= fuel)%nat -> ((pc + n) / 8 < length bits)%nat ->
  exists n' pc' bits', mark_octets fuel n pc bits = Ok (n', pc', bits') /\
    (pc' + n' = pc + n)%nat /\ (pc <= pc')%nat /\ marked bits bits' pc pc'.
Proof.
  revert n pc bits. induction fuel as [|fuel IH]; intros n pc bits Hn Hb; cbn [mark_octets].
  { exists n, pc, bits. split_and!; [done|lia|lia|apply marked_nil]. }
  destruct (Nat.leb_spec 8 n) as [H8|H8].
  2:{ exists n, pc, bits. split_and!; [done|lia|lia|apply marked_nil]. }
  destruct (set8_spec bits pc) as (b1 & -> & Hl & Hq).
  { pose proof (div8_lt (pc + 1 * 8) (pc + n) ltac:(lia)) as Hd. rewrite Nat.div_add in Hd by lia. lia. }
  cbn [rbind]. destruct (IH (n - 8)%nat (pc + 8)%nat b1) as (n' & pc' & b' & -> & H1 & H2 & H3).
  - lia.
  - rewrite Hl. by replace (pc + 8 + (n - 8))%nat with (pc + n)%nat by lia.
  - exists n', pc', b'. split_and!; [done|lia|lia|].
    apply (marked_trans _ b1 _ _ (pc + 8)); [lia|by split|done].
Qed.

Lemma mark_bits_spec n pc bits : ((pc + n) / 8 < length bits)%nat ->
  exists bits', mark_bits n pc bits = Ok ((pc + n)%nat, bits') /\ marked bits bits' pc (pc + n).
Proof.
  revert pc bits. induction n as [|n IH]; intros pc bits Hb; cbn [mark_bits].
  { exists bits. rewrite Nat.add_0_r. split; [done|apply marked_nil]. }
  destruct (set_spec bits pc) as (b1 & -> & Hl & Hq).
  { pose proof (div8_lt pc (pc + S n) ltac:(lia)). lia. }
  cbn [rbind]. destruct (IH (S pc) b1) as (b' & -> & Hm).
  { rewrite Hl. by replace (S pc + n)%nat with (pc + S n)%nat by lia. }
  replace (S pc + n)%nat with (pc + S n)%nat in * by lia.
  exists b'. split; [done|]. apply (marked_trans _ b1 _ _ (S pc)); [lia| |done].
  split; [done|]. intros q. rewrite Hq. f_equal. apply bool_decide_ext. lia.
Qed.

(** Before [pc], the marks are the bytes that start no instruction. *)
Definition analysed (code bits : bytes) (pc : nat) : Prop :=
  instr_start code pc /\
  forall q, getbit bits q = true <-> (q < pc)%nat /\ ~ instr_start code q.

Lemma analysed_step code bits bits' pc :
  analysed code bits pc -> marked bits bits' (S pc) (next_instr code pc) ->
  analysed code bits' (next_instr code pc).
Proof.
  intros [Hs Hq] [_ Hm]. pose proof (next_instr_gt code pc) as Hgt.
  split; [by apply instr_start_step|]. intros q.
  rewrite Hm, orb_true_iff, Hq, bool_decide_eq_true. split.
  - intros [[? ?]|[? ?]]; [split; [lia|done]|]. split; [done|]. intros Hs'.
    pose proof (instr_start_next _ _ _ Hs Hs'). lia.
  - intros [Hlt Hn]. destruct (decide (q = pc)) as [->|]; [done|].
    destruct (decide (q < pc)%nat); [by left|right; lia].
Qed.

Lemma bitmap_loop_spec fuel code pc bits :
  (length code - pc <= fuel)%nat -> (length code / 8 + 5 <= length bits)%nat ->
  analysed code bits pc ->
  exists bits' pc', bitmap_loop fuel code pc bits = Ok bits' /\ length bits' = length bits /\
    (length code <= pc')%nat /\ analysed code bits' pc'.
Proof.
  revert pc bits. induction fuel as [|fuel IH]; intros pc bits Hf Hl Ha; cbn [bitmap_loop].
  { exists bits, pc. split_and!; [done|done|lia|done]. }
  destruct (code !! pc) as [op|] eqn:Ec.
  2:{ exists bits, pc. apply lookup_ge_None in Ec. by split_and!. }
  pose proof (lookup_lt_Some _ _ _ Ec) as Hlt. pose proof (next_instr_gt code pc) as Hgt.
  assert (next_instr code pc = if (PUSH1 <=? op) && (op <=? PUSH32)
    then (S pc + Z.to_nat (op - PUSH1 + 1))%nat else S pc) as En.
  { unfold next_instr. by rewrite Ec. }
  destruct ((PUSH1 <=? op) && (op <=? PUSH32)) eqn:Ep.
  - apply andb_true_iff in Ep as [H1%Z.leb_le H2%Z.leb_le]. unfold PUSH1, PUSH32 in H1, H2.
    set (n := Z.to_nat (op - PUSH1 + 1)) in *.
    assert ((S pc + n) / 8 < length bits)%nat as Hb.
    { assert (n <= 32)%nat by (unfold n, PUSH1; lia).
      pose proof (div8_lt (S pc + n) (length code + 4 * 8) ltac:(lia)) as Hd.
      rewrite Nat.div_add in Hd by lia. lia. }
    destruct (mark_octets_spec n n (S pc) bits) as (n' & pc' & b1 & -> & E1 & E2 & Hm1); [lia|done|].
    cbn [rbind]. destruct (mark_bits_spec n' pc' b1) as (b2 & -> & Hm2).
    { rewrite (proj1 Hm1), E1. done. }
    cbn [rbind]. rewrite E1 in *.
    assert (marked bits b2 (S pc) (S pc + n)) as Hm by (apply (marked_trans _ b1 _ _ pc'); [lia|done|done]).
    destruct (IH (S pc + n)%nat b2) as (b' & p' & -> & Hl' & ? & ?).
    + lia.
    + rewrite (proj1 Hm). done.
    + rewrite <- En in *. by apply (analysed_step code bits).
    + exists b', p'. split_and!; [done| |done|done]. rewrite Hl'. apply Hm.
  - destruct (IH (S pc) bits) as (b' & p' & -> & Hl' & ? & ?).
    + lia.
    + done.
    + rewrite <- En in *. apply (analysed_step code bits); [done|]. rewrite En. apply marked_nil.
    + by exists b', p'.
Qed.

Lemma getbit_zeros n q : getbit (replicate n 0) q = false.
Proof.
  unfold getbit. destruct (replicate n 0 !! (q / 8)%nat) as [b|] eqn:E; [|done].
  apply lookup_replicate in E as [-> _]. apply Z.bits_0.
Qed.

Lemma codeBitmap_bits code :
  exists bits pc', codeBitmap code = Ok bits /\ length bits = (length code / 8 + 5)%nat /\
    (length code <= pc')%nat /\ analysed code bits pc'.
Proof.
  unfold codeBitmap.
  destruct (bitmap_loop_spec (length code) code 0 (replicate (length code / 8 + 1 + 4) 0))
    as (bits & pc' & -> & Hl & Hp & Ha).
  - lia.
  - rewrite length_replicate. lia.
  - split; [by exists 0%nat|]. intros q. rewrite getbit_zeros. split; [done|lia].
  - rewrite length_replicate in Hl. exists bits, pc'. split_and!; [done|lia|done|done].
Qed.

(** A jump target inside the code can be looked up. *)
Lemma codeSegment_total (code bits : bytes) p : (length bits = length code / 8 + 5)%nat -> (p < length code)%nat ->
  codeSegment bits p = Ok (negb (getbit bits p)).
Proof. intros Hl Hp. apply codeSegment_spec. pose proof (div8_lt p (length code) ltac:(lia)). lia. Qed.

(** C25: the analysis never runs out of its bit vector, and for every position
    of the code it tells exactly the instruction starts from the arguments of
    PUSH instructions. *)
Theorem codeBitmap_correct (code : bytes) :
  exists bits, codeBitmap code = Ok bits /\
    forall p, (p < length code)%nat ->
      exists b, codeSegment bits p = Ok b /\ (b = true <-> instr_start code p).
Proof.
  destruct (codeBitmap_bits code) as (bits & pc' & -> & Hl & Hp & Hs & Hq).
  exists bits. split; [done|]. intros p Hlt. eexists. rewrite (codeSegment_total code) by done. split; [done|].
  specialize (Hq p). destruct (getbit bits p); cbn [negb]; [|split; [|done]].
  - split; [done|]. intros Hn. destruct (proj1 Hq eq_refl) as [_ Hn']. done.
  - intros _. destruct Hs as [m ->].
    destruct (decide (Exists (fun n => p = Nat.iter n (next_instr code) 0%nat) (seq 0 (S m)))) as [He|He].
    { apply Exists_exists in He as (n & _ & ->). by exists n. }
    exfalso. assert (~ instr_start code p) as Hn.
    { intros [n ->]. apply He. apply Exists_exists. exists n. split; [|done].
      apply elem_of_seq. split; [lia|]. destruct (Nat.le_gt_cases n m); [lia|].
      pose proof (iter_next_le code (S m) n ltac:(lia)).
      pose proof (next_instr_gt code (Nat.iter m (next_instr code) 0%nat)).
      change (Nat.iter (S m) ?f ?x) with (f (Nat.iter m f x)) in *. lia. }
    destruct Hq as [_ Hq]. discriminate Hq. split; [lia|done].
Qed.

End EvmCode.
