(* ===== verification/StateDB.v ===== *)
(** * eth/core/state: the accounts of the EVM, with journal and snapshots

    statedb.go, state_object.go and journal.go.  The live objects of a
    [StateDB] cache and shadow the accounts of the state trie.  A trie is the
    finite map it stores, and the root hash in an [Account] is the storage
    trie it commits to; database errors are not modelled, a missing entry is
    the zero value the code goes on with.  The address of an object is its key
    in [stateObjects] and its field [address]. *)
From S2P Require Import Prelude EthMath.

(** crypto.Keccak256Hash, a number below [2^256]. *)
Class Keccak := { Keccak256Hash : bytes -> Z }.
Class KeccakLaw `{Keccak} := keccak_range : forall bz, 0 <= Keccak256Hash bz < 2 ^ 256.

Module StateDB.

(** ** state_object.go *)
Record Account := mkAccount {
  Nonce : Z;
  Balance : Z;
  Root : gmap Z Z;
  CodeHash : Z
}.

Record stateObject := mkObject {
  address : Z;
  data : Account;
  storage_trie : option (gmap Z Z);  (* the field trie, nil until first use *)
  code : option bytes;               (* nil until loaded or set *)
  originStorage : gmap Z Z;
  dirtyStorage : gmap Z Z;
  dirtyCode : bool;
  suicided : bool;
  deleted : bool
}.

(** ** journal.go *)
Inductive journalEntry :=
| createObjectChange (account : Z)
| resetObjectChange (prev : stateObject)
| suicideChange (account : Z) (prev : bool) (prevbalance : Z)
| balanceChange (account : Z) (prev : Z)
| nonceChange (account : Z) (prev : Z)
| storageChange (account : Z) (key prevalue : Z)
| codeChange (account : Z) (prevcode : option bytes) (prevhash : Z)
| refundChange (prev : Z)
| addLogChange (txhash : Z)
| addPreimageChange (hash : Z)
| touchChange (account : Z).

Definition dirtied (e : journalEntry) : option Z :=
  match e with
  | createObjectChange a | suicideChange a _ _ | balanceChange a _ | nonceChange a _
  | storageChange a _ _ | codeChange a _ _ | touchChange a => Some a
  | resetObjectChange _ | refundChange _ | addLogChange _ | addPreimageChange _ => None
  end.

(** core/types/log.go *)
Record Log := mkLog {
  log_Address : Z; Topics : list Z; Data : bytes; log_BlockNumber : Z;
  log_TxHash : Z; log_TxIndex : Z; log_BlockHash : Z; log_Index : Z
}.

Record StateDB := mkState {
  trie : gmap Z Account;
  codes : gmap Z bytes;           (* db.ContractCode, by hash *)
  stateObjects : gmap Z stateObject;
  stateObjectsDirty : gset Z;
  refund : Z;
  thash : Z; bhash : Z; txIndex : Z;
  logs : gmap Z (list Log);
  logSize : Z;
  preimages : gmap Z bytes;
  entries : list journalEntry;    (* journal.entries *)
  dirties : gmap Z Z;             (* journal.dirties *)
  validRevisions : list (Z * nat);
  nextRevisionId : Z
}.

(** ** Field updates *)
Definition set_objects (f : gmap Z stateObject -> gmap Z stateObject) (s : StateDB) : StateDB :=
  mkState (trie s) (codes s) (f (stateObjects s)) (stateObjectsDirty s) (refund s) (thash s)
    (bhash s) (txIndex s) (logs s) (logSize s) (preimages s) (entries s) (dirties s)
    (validRevisions s) (nextRevisionId s).
Definition set_objectsDirty (f : gset Z -> gset Z) (s : StateDB) : StateDB :=
  mkState (trie s) (codes s) (stateObjects s) (f (stateObjectsDirty s)) (refund s) (thash s)
    (bhash s) (txIndex s) (logs s) (logSize s) (preimages s) (entries s) (dirties s)
    (validRevisions s) (nextRevisionId s).
Definition set_refund (r : Z) (s : StateDB) : StateDB :=
  mkState (trie s) (codes s) (stateObjects s) (stateObjectsDirty s) r (thash s)
    (bhash s) (txIndex s) (logs s) (logSize s) (preimages s) (entries s) (dirties s)
    (validRevisions s) (nextRevisionId s).
Definition set_logs (l : gmap Z (list Log)) (n : Z) (s : StateDB) : StateDB :=
  mkState (trie s) (codes s) (stateObjects s) (stateObjectsDirty s) (refund s) (thash s)
    (bhash s) (txIndex s) l n (preimages s) (entries s) (dirties s)
    (validRevisions s) (nextRevisionId s).
Definition set_preimages (p : gmap Z bytes) (s : StateDB) : StateDB :=
  mkState (trie s) (codes s) (stateObjects s) (stateObjectsDirty s) (refund s) (thash s)
    (bhash s) (txIndex s) (logs s) (logSize s) p (entries s) (dirties s)
    (validRevisions s) (nextRevisionId s).
Definition set_journal (es : list journalEntry) (d : gmap Z Z) (s : StateDB) : StateDB :=
  mkState (trie s) (codes s) (stateObjects s) (stateObjectsDirty s) (refund s) (thash s)
    (bhash s) (txIndex s) (logs s) (logSize s) (preimages s) es d
    (validRevisions s) (nextRevisionId s).
Definition set_revisions (rs : list (Z * nat)) (n : Z) (s : StateDB) : StateDB :=
  mkState (trie s) (codes s) (stateObjects s) (stateObjectsDirty s) (refund s) (thash s)
    (bhash s) (txIndex s) (logs s) (logSize s) (preimages s) (entries s) (dirties s) rs n.
Definition set_trie (t : gmap Z Account) (s : StateDB) : StateDB :=
  mkState t (codes s) (stateObjects s) (stateObjectsDirty s) (refund s) (thash s)
    (bhash s) (txIndex s) (logs s) (logSize s) (preimages s) (entries s) (dirties s)
    (validRevisions s) (nextRevisionId s).

Definition with_data (d : Account) (o : stateObject) : stateObject :=
  mkObject (address o) d (storage_trie o) (code o) (originStorage o) (dirtyStorage o)
    (dirtyCode o) (suicided o) (deleted o).
Definition with_storage (t : option (gmap Z Z)) (origin dirty : gmap Z Z) (o : stateObject) : stateObject :=
  mkObject (address o) (data o) t (code o) origin dirty (dirtyCode o) (suicided o) (deleted o).
Definition with_suicided (b : bool) (o : stateObject) : stateObject :=
  mkObject (address o) (data o) (storage_trie o) (code o) (originStorage o) (dirtyStorage o)
    (dirtyCode o) b (deleted o).
Definition with_code (c : option bytes) (o : stateObject) : stateObject :=
  mkObject (address o) (data o) (storage_trie o) c (originStorage o) (dirtyStorage o)
    (dirtyCode o) (suicided o) (deleted o).

(** Setters of state_object.go that bypass the journal. *)
Definition setBalance (v : Z) (o : stateObject) : stateObject :=
  with_data (mkAccount (Nonce (data o)) v (Root (data o)) (CodeHash (data o))) o.
Definition setNonce (n : Z) (o : stateObject) : stateObject :=
  with_data (mkAccount n (Balance (data o)) (Root (data o)) (CodeHash (data o))) o.
Definition setState (key value : Z) (o : stateObject) : stateObject :=
  with_storage (storage_trie o) (originStorage o) (<[key := value]> (dirtyStorage o)) o.
Definition setCode (codeHash : Z) (c : option bytes) (o : stateObject) : stateObject :=
  mkObject (address o) (mkAccount (Nonce (data o)) (Balance (data o)) (Root (data o)) codeHash)
    (storage_trie o) c (originStorage o) (dirtyStorage o) true (suicided o) (deleted o).

(** A slice of length zero as code is nil. *)
Definition slice_code (bz : bytes) : option bytes :=
  match bz with [] => None | _ => Some bz end.
Definition code_slice (c : option bytes) : bytes := default [] c.

Section with_keccak.
Context `{Keccak}.

Definition emptyCodeHash : Z := Keccak256Hash [].

(** An [Account{}] gets a zero balance and the empty code hash in [newObject]. *)
Definition Account0 : Account := mkAccount 0 0 ∅ emptyCodeHash.

Definition newObject (addr : Z) (d : Account) : stateObject :=
  mkObject addr d None None ∅ ∅ false false false.

Definition empty (o : stateObject) : bool :=
  (Nonce (data o) =? 0) && (Balance (data o) =? 0) && (CodeHash (data o) =? emptyCodeHash).

(** ** The journal *)
Definition journal_append (e : journalEntry) (s : StateDB) : StateDB :=
  set_journal (entries s ++ [e])
    (match dirtied e with
     | Some a => <[a := default 0 (dirties s !! a) + 1]> (dirties s)
     | None => dirties s
     end) s.

Definition journal_dirty (a : Z) (s : StateDB) : StateDB :=
  set_journal (entries s) (<[a := default 0 (dirties s !! a) + 1]> (dirties s)) s.

(** ** Live objects *)
Definition setStateObject (o : stateObject) (s : StateDB) : StateDB :=
  set_objects <[address o := o]> s.

Definition getStateObject (addr : Z) (s : StateDB) : option stateObject * StateDB :=
  match stateObjects s !! addr with
  | Some o => if deleted o then (None, s) else (Some o, s)
  | None =>
      match trie s !! addr with
      | None => (None, s)
      | Some d => let o := newObject addr d in (Some o, setStateObject o s)
      end
  end.

Definition createObject (addr : Z) (s : StateDB) : stateObject * option stateObject * StateDB :=
  let '(prev, s) := getStateObject addr s in
  let newobj := setNonce 0 (newObject addr Account0) in
  let s := match prev with
           | None => journal_append (createObjectChange addr) s
           | Some prev => journal_append (resetObjectChange prev) s
           end in
  (newobj, prev, setStateObject newobj s).

Definition GetOrNewStateObject (addr : Z) (s : StateDB) : stateObject * StateDB :=
  let '(o, s) := getStateObject addr s in
  match o with
  | Some o => (o, s)
  | None => let '(newobj, _, s) := createObject addr s in (newobj, s)
  end.

Definition CreateAccount (addr : Z) (s : StateDB) : StateDB :=
  let '(newObj, prev, s) := createObject addr s in
  match prev with
  | Some prev => setStateObject (setBalance (Balance (data prev)) newObj) s
  | None => s
  end.

(** ** Storage of an object *)
Definition getTrie (o : stateObject) : gmap Z Z * stateObject :=
  match storage_trie o with
  | Some t => (t, o)
  | None => (Root (data o), with_storage (Some (Root (data o))) (originStorage o) (dirtyStorage o) o)
  end.

Definition object_GetCommittedState (key : Z) (o : stateObject) : Z * stateObject :=
  match originStorage o !! key with
  | Some value => (value, o)
  | None =>
      let '(t, o) := getTrie o in
      let value := default 0 (t !! key) in
      (value, with_storage (storage_trie o) (<[key := value]> (originStorage o)) (dirtyStorage o) o)
  end.

Definition object_GetState (key : Z) (o : stateObject) : Z * stateObject :=
  match dirtyStorage o !! key with
  | Some value => (value, o)
  | None => object_GetCommittedState key o
  end.

Definition object_SetState (key value : Z) (o : stateObject) (s : StateDB) : StateDB :=
  let '(prev, o) := object_GetState key o in
  if prev =? value then setStateObject o s
  else setStateObject (setState key value o) (journal_append (storageChange (address o) key prev) s).

(** [updateTrie]: the dirty entries go to the trie and to [originStorage]. *)
Definition update_entry (key value : Z) (acc : gmap Z Z * gmap Z Z) : gmap Z Z * gmap Z Z :=
  let '(t, origin) := acc in
  if value =? default 0 (origin !! key) then (t, origin)
  else (if value =? 0 then delete key t else <[key := value]> t, <[key := value]> origin).

Definition updateTrie (o : stateObject) : stateObject :=
  let '(t, o) := getTrie o in
  let '(t, origin) := map_fold update_entry (t, originStorage o) (dirtyStorage o) in
  with_storage (Some t) origin ∅ o.

Definition updateRoot (o : stateObject) : stateObject :=
  let o := updateTrie o in
  with_data (mkAccount (Nonce (data o)) (Balance (data o)) (default ∅ (storage_trie o)) (CodeHash (data o))) o.

(** ** Balance, nonce and code of an object *)
Definition ripemd : Z := 3.

Definition touch (o : stateObject) (s : StateDB) : StateDB :=
  let s := journal_append (touchChange (address o)) s in
  if address o =? ripemd then journal_dirty (address o) s else s.

Definition object_SetBalance (amount : Z) (o : stateObject) (s : StateDB) : StateDB :=
  setStateObject (setBalance amount o)
    (journal_append (balanceChange (address o) (Balance (data o))) s).

Definition object_AddBalance (amount : Z) (o : stateObject) (s : StateDB) : StateDB :=
  if amount =? 0 then (if empty o then touch o s else s)
  else object_SetBalance (Balance (data o) + amount) o s.

Definition object_SubBalance (amount : Z) (o : stateObject) (s : StateDB) : StateDB :=
  if amount =? 0 then s else object_SetBalance (Balance (data o) - amount) o s.

Definition object_SetNonce (nonce : Z) (o : stateObject) (s : StateDB) : StateDB :=
  setStateObject (setNonce nonce o)
    (journal_append (nonceChange (address o) (Nonce (data o))) s).

(** [Code] loads the code by its hash when it is not there yet. *)
Definition object_Code (cs : gmap Z bytes) (o : stateObject) : option bytes * stateObject :=
  match code o with
  | Some c => (Some c, o)
  | None =>
      if CodeHash (data o) =? emptyCodeHash then (None, o)
      else let c := slice_code (default [] (cs !! CodeHash (data o))) in (c, with_code c o)
  end.

Definition object_SetCode (codeHash : Z) (c : option bytes) (o : stateObject) (s : StateDB) : StateDB :=
  let '(prevcode, o) := object_Code (codes s) o in
  setStateObject (setCode codeHash c o)
    (journal_append (codeChange (address o) prevcode (CodeHash (data o))) s).

(** ** statedb.go: queries *)
Definition Exist (addr : Z) (s : StateDB) : bool * StateDB :=
  let '(o, s) := getStateObject addr s in (bool_decide (is_Some o), s).

Definition Empty (addr : Z) (s : StateDB) : bool * StateDB :=
  let '(o, s) := getStateObject addr s in
  (match o with None => true | Some o => empty o end, s).

Definition GetBalance (addr : Z) (s : StateDB) : Z * StateDB :=
  let '(o, s) := getStateObject addr s in
  (match o with Some o => Balance (data o) | None => 0 end, s).

Definition GetNonce (addr : Z) (s : StateDB) : Z * StateDB :=
  let '(o, s) := getStateObject addr s in
  (match o with Some o => Nonce (data o) | None => 0 end, s).

Definition GetCode (addr : Z) (s : StateDB) : bytes * StateDB :=
  let '(o, s) := getStateObject addr s in
  match o with
  | Some o => let '(c, o) := object_Code (codes s) o in (code_slice c, setStateObject o s)
  | None => ([], s)
  end.

(** [ContractCodeSize] is the length of the code in the database. *)
Definition GetCodeSize (addr : Z) (s : StateDB) : Z * StateDB :=
  let '(o, s) := getStateObject addr s in
  match o with
  | None => (0, s)
  | Some o =>
      match code o with
      | Some c => (Z.of_nat (length c), s)
      | None => (Z.of_nat (length (default [] (codes s !! CodeHash (data o)))), s)
      end
  end.

Definition GetCodeHash (addr : Z) (s : StateDB) : Z * StateDB :=
  let '(o, s) := getStateObject addr s in
  (match o with Some o => CodeHash (data o) | None => 0 end, s).

Definition GetState (addr hash : Z) (s : StateDB) : Z * StateDB :=
  let '(o, s) := getStateObject addr s in
  match o with
  | Some o => let '(v, o) := object_GetState hash o in (v, setStateObject o s)
  | None => (0, s)
  end.

Definition GetCommittedState (addr hash : Z) (s : StateDB) : Z * StateDB :=
  let '(o, s) := getStateObject addr s in
  match o with
  | Some o => let '(v, o) := object_GetCommittedState hash o in (v, setStateObject o s)
  | None => (0, s)
  end.

Definition HasSuicided (addr : Z) (s : StateDB) : bool * StateDB :=
  let '(o, s) := getStateObject addr s in
  (match o with Some o => suicided o | None => false end, s).

Definition GetRefund (s : StateDB) : Z := refund s.

Definition GetLogs (hash : Z) (s : StateDB) : list Log := default [] (logs s !! hash).

(** ** statedb.go: setters *)
Definition AddBalance (addr amount : Z) (s : StateDB) : StateDB :=
  let '(o, s) := GetOrNewStateObject addr s in object_AddBalance amount o s.

Definition SubBalance (addr amount : Z) (s : StateDB) : StateDB :=
  let '(o, s) := GetOrNewStateObject addr s in object_SubBalance amount o s.

Definition SetBalance (addr amount : Z) (s : StateDB) : StateDB :=
  let '(o, s) := GetOrNewStateObject addr s in object_SetBalance amount o s.

Definition SetNonce (addr nonce : Z) (s : StateDB) : StateDB :=
  let '(o, s) := GetOrNewStateObject addr s in object_SetNonce nonce o s.

Definition SetCode (addr : Z) (c : bytes) (s : StateDB) : StateDB :=
  let '(o, s) := GetOrNewStateObject addr s in object_SetCode (Keccak256Hash c) (slice_code c) o s.

Definition SetState (addr key value : Z) (s : StateDB) : StateDB :=
  let '(o, s) := GetOrNewStateObject addr s in object_SetState key value o s.

Definition Suicide (addr : Z) (s : StateDB) : bool * StateDB :=
  let '(o, s) := getStateObject addr s in
  match o with
  | None => (false, s)
  | Some o =>
      let s := journal_append (suicideChange addr (suicided o) (Balance (data o))) s in
      (true, setStateObject (setBalance 0 (with_suicided true o)) s)
  end.

Definition AddLog (l : Log) (s : StateDB) : StateDB :=
  let s := journal_append (addLogChange (thash s)) s in
  let l := mkLog (log_Address l) (Topics l) (Data l) (log_BlockNumber l)
             (thash s) (txIndex s) (bhash s) (logSize s) in
  set_logs (<[thash s := default [] (logs s !! thash s) ++ [l]]> (logs s)) (u64 (logSize s + 1)) s.

Definition AddPreimage (hash : Z) (preimage : bytes) (s : StateDB) : StateDB :=
  match preimages s !! hash with
  | Some _ => s
  | None =>
      let s := journal_append (addPreimageChange hash) s in
      set_preimages (<[hash := preimage]> (preimages s)) s
  end.

Definition AddRefund (gas : Z) (s : StateDB) : StateDB :=
  let s := journal_append (refundChange (refund s)) s in set_refund (u64 (refund s + gas)) s.

Definition SubRefund (gas : Z) (s : StateDB) : res StateDB :=
  let s := journal_append (refundChange (refund s)) s in
  if gas >? refund s then Panic else Ok (set_refund (u64 (refund s - gas)) s).

(** ** Undoing *)

(** [s.getStateObject(a)] must not be nil where its setter is called. *)
Definition update_object (a : Z) (f : stateObject -> stateObject) (s : StateDB) : res StateDB :=
  let '(o, s) := getStateObject a s in
  let! o := deref o in Ok (setStateObject (f o) s).

Definition revert (e : journalEntry) (s : StateDB) : res StateDB :=
  match e with
  | createObjectChange a =>
      Ok (set_objectsDirty (fun d => d ∖ {[a]}) (set_objects (delete a) s))
  | resetObjectChange prev => Ok (setStateObject prev s)
  | suicideChange a prev prevbalance =>
      let '(o, s) := getStateObject a s in
      match o with
      | Some o => Ok (setStateObject (setBalance prevbalance (with_suicided prev o)) s)
      | None => Ok s
      end
  | balanceChange a prev => update_object a (setBalance prev) s
  | nonceChange a prev => update_object a (setNonce prev) s
  | storageChange a key prevalue => update_object a (setState key prevalue) s
  | codeChange a prevcode prevhash => update_object a (setCode prevhash prevcode) s
  | refundChange prev => Ok (set_refund prev s)
  | addLogChange h =>
      let ls := default [] (logs s !! h) in
      if (length ls =? 1)%nat then Ok (set_logs (delete h (logs s)) (u64 (logSize s - 1)) s)
      else
        let! ls := go_slice ls 0 (Z.of_nat (length ls) - 1) in
        Ok (set_logs (<[h := ls]> (logs s)) (u64 (logSize s - 1)) s)
  | addPreimageChange h => Ok (set_preimages (delete h (preimages s)) s)
  | touchChange _ => Ok s
  end.

(** A missing count is zero and stays at minus one. *)
Definition undirty (e : journalEntry) (s : StateDB) : StateDB :=
  match dirtied e with
  | None => s
  | Some a =>
      let n := default 0 (dirties s !! a) - 1 in
      set_journal (entries s) (if n =? 0 then delete a (dirties s) else <[a := n]> (dirties s)) s
  end.

(** The loop of [journal.revert], from the last entry down. *)
Fixpoint revert_entries (es : list journalEntry) (s : StateDB) : res StateDB :=
  match es with
  | [] => Ok s
  | e :: es' => let! s := revert e s in revert_entries es' (undirty e s)
  end.

Definition journal_revert (snapshot : nat) (s : StateDB) : res StateDB :=
  let! s := revert_entries (rev (drop snapshot (entries s))) s in
  let! es := go_slice (entries s) 0 (Z.of_nat snapshot) in
  Ok (set_journal es (dirties s) s).

Definition Snapshot (s : StateDB) : Z * StateDB :=
  let id := nextRevisionId s in
  (id, set_revisions (validRevisions s ++ [(id, length (entries s))]) (id + 1) s).

Definition RevertToSnapshot (revid : Z) (s : StateDB) : res StateDB :=
  let rs := validRevisions s in
  let idx := sort_search (length rs)
    (fun i => match rs !! i with Some (id, _) => id >=? revid | None => false end) in
  match rs !! idx with
  | None => Panic
  | Some (id, snapshot) =>
      if negb (id =? revid) then Panic
      else
        let! s := journal_revert snapshot s in
        Ok (set_revisions (take idx (validRevisions s)) (nextRevisionId s) s)
  end.

(** ** The end of a transaction *)
Definition clearJournalAndRefund (s : StateDB) : StateDB :=
  set_refund 0 (set_revisions [] (nextRevisionId s) (set_journal [] ∅ s)).

Definition finalise_object (deleteEmptyObjects : bool) (addr : Z) (s : StateDB) : StateDB :=
  match stateObjects s !! addr with
  | None => s
  | Some o =>
      let s :=
        if suicided o || (deleteEmptyObjects && empty o) then
          let o := mkObject (address o) (data o) (storage_trie o) (code o) (originStorage o)
                     (dirtyStorage o) (dirtyCode o) (suicided o) true in
          set_trie (delete addr (trie s)) (setStateObject o s)
        else
          let o := updateRoot o in
          set_trie (<[addr := data o]> (trie s)) (setStateObject o s) in
      set_objectsDirty (fun d => {[addr]} ∪ d) s
  end.

Definition Finalise (deleteEmptyObjects : bool) (s : StateDB) : StateDB :=
  clearJournalAndRefund
    (foldr (finalise_object deleteEmptyObjects) s (elements (dom (dirties s)))).

Definition Prepare (th bh : Z) (ti : Z) (s : StateDB) : StateDB :=
  mkState (trie s) (codes s) (stateObjects s) (stateObjectsDirty s) (refund s) th
    bh ti (logs s) (logSize s) (preimages s) (entries s) (dirties s)
    (validRevisions s) (nextRevisionId s).

(** A fresh state over a trie and a code database. *)
Definition New (t : gmap Z Account) (cs : gmap Z bytes) : StateDB :=
  mkState t cs ∅ ∅ 0 0 0 0 ∅ 0 ∅ [] ∅ [] 0.

End with_keccak.

End StateDB.
