(* ===== verification/StateRevert.v ===== *)
(** * Snapshots of the state undo everything since

    Two states are equivalent when every query answers the same on both: what
    the live objects cache does not show.  Every operation of [StateDB] that
    changes an account journals how to undo it; replaying the journal
    backwards from any later state gives a state equivalent to the snapshot. *)
From S2P Require Import Prelude EthMath StateDB.

Module StateRevert.
Import StateDB.

Section with_keccak.
Context `{Keccak}.

(** ** What can be observed of an object and of a state *)
Definition trie_of (o : stateObject) : gmap Z Z := default (Root (data o)) (storage_trie o).
Definition committed (o : stateObject) (k : Z) : Z :=
  default (default 0 (trie_of o !! k)) (originStorage o !! k).
Definition current (o : stateObject) (k : Z) : Z := default (committed o k) (dirtyStorage o !! k).
Definition code_of (cs : gmap Z bytes) (o : stateObject) : bytes :=
  match code o with
  | Some c => c
  | None => if CodeHash (data o) =? emptyCodeHash then [] else default [] (cs !! CodeHash (data o))
  end.
Definition code_size (cs : gmap Z bytes) (o : stateObject) : nat :=
  match code o with
  | Some c => length c
  | None => length (default [] (cs !! CodeHash (data o)))
  end.

Record obj_eq (cs : gmap Z bytes) (o o' : stateObject) : Prop := {
  oe_address : address o = address o';
  oe_nonce : Nonce (data o) = Nonce (data o');
  oe_balance : Balance (data o) = Balance (data o');
  oe_codehash : CodeHash (data o) = CodeHash (data o');
  oe_code : code_of cs o = code_of cs o';
  oe_size : code_size cs o = code_size cs o';
  oe_suicided : suicided o = suicided o';
  oe_deleted : deleted o = deleted o';
  oe_trie : trie_of o = trie_of o';
  oe_committed : forall k, committed o k = committed o' k;
  oe_current : forall k, current o k = current o' k
}.

#[export] Instance obj_eq_equiv cs : Equivalence (obj_eq cs).
Proof.
  split.
  - by intros o.
  - intros o o' []. split; auto.
  - intros o1 o2 o3 [] []. split; try congruence; intros k; etrans; eauto.
Qed.

(** The object [getStateObject] returns, without loading it. *)
Definition peek (s : StateDB) (a : Z) : option stateObject :=
  match stateObjects s !! a with
  | Some o => if deleted o then None else Some o
  | None => newObject a <$> trie s !! a
  end.

Record state_eq (s s' : StateDB) : Prop := {
  se_trie : trie s = trie s';
  se_codes : codes s = codes s';
  se_objects : forall a, option_Forall2 (obj_eq (codes s)) (peek s a) (peek s' a);
  se_refund : refund s = refund s';
  se_thash : thash s = thash s';
  se_bhash : bhash s = bhash s';
  se_txIndex : txIndex s = txIndex s';
  se_logs : forall h, GetLogs h s = GetLogs h s';
  se_logSize : logSize s = logSize s';
  se_preimages : preimages s = preimages s';
  se_dirties : forall a, a <> ripemd -> default 0 (dirties s !! a) = default 0 (dirties s' !! a)
}.

#[export] Instance state_eq_equiv : Equivalence state_eq.
Proof.
  split.
  - by intros s.
  - intros s s' []. split; auto; [|intros a Ha; symmetry; auto]. intros a. rewrite <- se_codes0.
    destruct (se_objects0 a); constructor; by symmetry.
  - intros s1 s2 s3 [] []. split; try congruence.
    + intros a. specialize (se_objects0 a). specialize (se_objects1 a).
      rewrite <- se_codes0 in se_objects1.
      destruct se_objects0; inversion se_objects1; subst; constructor. by etrans.
    + intros a Ha. rewrite se_dirties0 by done. auto.
Qed.

#[local] Infix "≈" := state_eq (at level 70).

(** ** Well-formed states *)
Definition objects_ok (s : StateDB) : Prop :=
  forall a o, stateObjects s !! a = Some o ->
    address o = a /\ (deleted o = true -> trie s !! a = None /\ suicided o || empty o = true).

Definition entry_ok (e : journalEntry) : Prop :=
  match e with resetObjectChange prev => deleted prev = false | _ => True end.

Record live (s : StateDB) : Prop := {
  live_objects : objects_ok s;
  live_logSize : is_u64 (logSize s)
}.

Lemma peek_ok s a o : objects_ok s -> peek s a = Some o -> address o = a /\ deleted o = false.
Proof.
  intros Hok. unfold peek. destruct (stateObjects s !! a) as [o'|] eqn:E.
  - destruct (Hok a o' E) as [Ha _]. destruct (deleted o') eqn:Ed; [done|]. by intros [= <-].
  - destruct (trie s !! a); [|done]. by intros [= <-].
Qed.

Lemma peek_set_eq s o : deleted o = false -> peek (setStateObject o s) (address o) = Some o.
Proof. intros Hd. unfold peek. simpl. by rewrite lookup_insert_eq, Hd. Qed.

Lemma peek_set_ne s o a : a <> address o -> peek (setStateObject o s) a = peek s a.
Proof. intros Hne. unfold peek. simpl. by rewrite lookup_insert_ne by done. Qed.

Lemma live_set s o : live s -> deleted o = false -> live (setStateObject o s).
Proof.
  intros [Hok Hl] Hd. split; [|done]. intros a o' E. simpl in E.
  apply lookup_insert_Some in E as [[<- <-]|[Hne E]]; [|by apply Hok].
  split; [done|]. by rewrite Hd.
Qed.

(** ** Loading is not observable *)
Lemma getStateObject_spec a s : live s ->
  exists s', getStateObject a s = (peek s a, s') /\ live s' /\ s' ≈ s /\
    entries s' = entries s /\ validRevisions s' = validRevisions s /\ nextRevisionId s' = nextRevisionId s.
Proof.
  intros Hw. unfold getStateObject, peek.
  destruct (stateObjects s !! a) as [o|] eqn:E.
  { exists s. by destruct (deleted o). }
  destruct (trie s !! a) as [d|] eqn:Et; [|by exists s].
  exists (setStateObject (newObject a d) s). split; [done|]. split; [by apply live_set|].
  split; [|done]. split; try done. intros b. simpl. destruct (decide (b = a)) as [->|Hne].
  - unfold peek. simpl. rewrite lookup_insert_eq, E, Et. by constructor.
  - rewrite peek_set_ne by done. by destruct (peek s b); constructor.
Qed.

(** ** The setters of an object respect equivalence *)
Record setter (cs : gmap Z bytes) (f : stateObject -> stateObject) : Prop := {
  setter_proper : forall o o', obj_eq cs o o' -> obj_eq cs (f o) (f o');
  setter_address : forall o, address (f o) = address o;
  setter_deleted : forall o, deleted (f o) = deleted o
}.

Lemma setBalance_setter cs v : setter cs (setBalance v).
Proof. split; [|done|done]. intros o o' []. by split. Qed.
Lemma setNonce_setter cs v : setter cs (setNonce v).
Proof. split; [|done|done]. intros o o' []. by split. Qed.
Lemma with_suicided_setter cs b : setter cs (with_suicided b).
Proof. split; [|done|done]. intros o o' []. by split. Qed.

Lemma current_setState k v o k' :
  current (setState k v o) k' = if decide (k = k') then v else current o k'.
Proof.
  unfold current. simpl. destruct (decide (k = k')) as [->|Hne].
  - by rewrite lookup_insert_eq.
  - by rewrite lookup_insert_ne by done.
Qed.

Lemma setState_setter cs k v : setter cs (setState k v).
Proof.
  split; [|done|done]. intros o o' []. split; try done.
  intros k'. rewrite !current_setState. by destruct (decide _).
Qed.

Lemma setCode_setter cs h c : setter cs (setCode h c).
Proof. split; [|done|done]. intros o o' []. by split. Qed.

#[local] Hint Resolve setBalance_setter setNonce_setter with_suicided_setter setState_setter setCode_setter : go.

Lemma setter_comp cs f g : setter cs f -> setter cs g -> setter cs (fun o => f (g o)).
Proof.
  intros [Hp Ha Hd] [Hp' Ha' Hd']. split; [by auto|..]; intros o.
  - by rewrite Ha.
  - by rewrite Hd.
Qed.

Lemma set_proper s1 s2 o1 o2 : s1 ≈ s2 -> obj_eq (codes s1) o1 o2 -> deleted o1 = false ->
  setStateObject o1 s1 ≈ setStateObject o2 s2.
Proof.
  intros Hs Ho Hd. pose proof (oe_deleted _ _ _ Ho) as Hd'. pose proof (oe_address _ _ _ Ho) as Ha.
  destruct Hs. split; try done. intros a. cbn [codes setStateObject set_objects].
  destruct (decide (a = address o1)) as [->|Hne].
  - rewrite peek_set_eq by done. rewrite Ha, peek_set_eq by congruence. by constructor.
  - rewrite !peek_set_ne by congruence. done.
Qed.

(** What undoing leaves alone. *)
Definition same_log (s s' : StateDB) : Prop :=
  entries s' = entries s /\ validRevisions s' = validRevisions s /\ nextRevisionId s' = nextRevisionId s.

#[export] Instance same_log_preorder : PreOrder same_log.
Proof. split; [by intros s|]. intros s1 s2 s3 (?&?&?) (?&?&?). split_and!; congruence. Qed.

Lemma update_object_spec a f s : live s -> setter (codes s) f ->
  match peek s a with
  | None => update_object a f s = Panic
  | Some o => exists s', update_object a f s = Ok (setStateObject (f o) s') /\
                live s' /\ s' ≈ s /\ same_log s s' /\ address (f o) = a /\ deleted (f o) = false
  end.
Proof.
  intros Hw Hf. unfold update_object. destruct (getStateObject_spec a s Hw) as (s' & -> & Hw' & Hs & Hlog).
  destruct (peek s a) as [o|] eqn:E; [|done]. simpl. exists s'.
  destruct (peek_ok s a o (live_objects _ Hw) E) as [Ha Hd].
  split_and!; [done|done|done|done| |].
  - by rewrite (setter_address _ _ Hf).
  - by rewrite (setter_deleted _ _ Hf).
Qed.

Lemma update_object_proper a f s1 s2 t1 : live s1 -> live s2 -> setter (codes s1) f -> s1 ≈ s2 ->
  update_object a f s1 = Ok t1 ->
  exists t2, update_object a f s2 = Ok t2 /\ t1 ≈ t2 /\ live t1 /\ live t2 /\ same_log s1 t1 /\ same_log s2 t2.
Proof.
  intros Hw1 Hw2 Hf Hs Ht. pose proof (se_codes _ _ Hs) as Hc.
  pose proof (update_object_spec a f s1 Hw1 Hf) as H1.
  pose proof (update_object_spec a f s2 Hw2 ltac:(by rewrite <- Hc)) as H2.
  destruct (se_objects _ _ Hs a) as [o1 o2 Ho|]; [|congruence].
  destruct H1 as (s1' & E1 & Hl1 & Hs1 & Hlog1 & Ha1 & Hd1). rewrite E1 in Ht. injection Ht as <-.
  destruct H2 as (s2' & -> & Hl2 & Hs2 & Hlog2 & Ha2 & Hd2).
  exists (setStateObject (f o2) s2'). split; [done|]. split; [|by auto using live_set].
  apply set_proper; [|by rewrite (se_codes _ _ Hs1); apply (setter_proper _ _ Hf)|done].
  rewrite Hs1, Hs2. done.
Qed.

(** ** Undoing respects equivalence *)
Lemma peek_delete s a b :
  peek (set_objectsDirty (fun d => d ∖ {[a]}) (set_objects (delete a) s)) b =
  if decide (a = b) then newObject a <$> trie s !! a else peek s b.
Proof.
  unfold peek. simpl. destruct (decide (a = b)) as [<-|Hne].
  - by rewrite lookup_delete_eq.
  - by rewrite lookup_delete_ne.
Qed.

Lemma GetLogs_set h ls n s h' :
  GetLogs h' (set_logs (<[h := ls]> (logs s)) n s) = if decide (h = h') then ls else GetLogs h' s.
Proof.
  unfold GetLogs. simpl. destruct (decide (h = h')) as [<-|Hne].
  - by rewrite lookup_insert_eq.
  - by rewrite lookup_insert_ne.
Qed.

Lemma GetLogs_delete h n s h' :
  GetLogs h' (set_logs (delete h (logs s)) n s) = if decide (h = h') then [] else GetLogs h' s.
Proof.
  unfold GetLogs. simpl. destruct (decide (h = h')) as [<-|Hne].
  - by rewrite lookup_delete_eq.
  - by rewrite lookup_delete_ne.
Qed.

Lemma set_logs_proper s1 s2 l1 l2 n : s1 ≈ s2 ->
  (forall h, GetLogs h (set_logs l1 n s1) = GetLogs h (set_logs l2 n s2)) ->
  set_logs l1 n s1 ≈ set_logs l2 n s2.
Proof. intros [] Hl. by split. Qed.

Lemma live_set_logs s l n : live s -> live (set_logs l (u64 n) s).
Proof. intros [Ho _]. split; [done|]. apply u64_range. Qed.

Lemma revert_proper e s1 s2 t1 : live s1 -> live s2 -> entry_ok e -> s1 ≈ s2 ->
  revert e s1 = Ok t1 ->
  exists t2, revert e s2 = Ok t2 /\ t1 ≈ t2 /\ live t1 /\ live t2 /\ same_log s1 t1 /\ same_log s2 t2.
Proof.
  intros Hw1 Hw2 He Hs. destruct e; cbn [revert entry_ok] in *;
    try (apply update_object_proper; by auto with go).
  - intros [= <-]. eexists. split; [done|]. split_and!; try done.
    + destruct Hs. split; try done. intros b. rewrite !peek_delete. simpl. rewrite <- se_trie0.
      destruct (decide (account = b)); [|done]. destruct (trie s1 !! account); by constructor.
    + destruct Hw1 as [Ho ?]. split; [|done]. intros a o. simpl. intros [_ E]%lookup_delete_Some.
      by apply Ho.
    + destruct Hw2 as [Ho ?]. split; [|done]. intros a o. simpl. intros [_ E]%lookup_delete_Some.
      by apply Ho.
  - intros [= <-]. eexists. split; [done|]. split_and!; try done.
    + by apply set_proper.
    + by apply live_set.
    + by apply live_set.
  - destruct (getStateObject_spec account s1 Hw1) as (s1' & -> & Hl1 & Hs1 & Hlog1).
    destruct (getStateObject_spec account s2 Hw2) as (s2' & -> & Hl2 & Hs2 & Hlog2).
    pose proof (setter_comp (codes s1) _ _ (setBalance_setter _ prevbalance) (with_suicided_setter _ prev)) as Hf.
    assert (s1' ≈ s2') as Hs' by (by rewrite Hs1, Hs2).
    destruct (peek s1 account) as [o1|] eqn:E1; destruct (peek s2 account) as [o2|] eqn:E2;
      pose proof (se_objects _ _ Hs account) as Ho; rewrite E1, E2 in Ho; inversion Ho; subst.
    + destruct (peek_ok _ _ _ (live_objects _ Hw1) E1). destruct (peek_ok _ _ _ (live_objects _ Hw2) E2).
      intros [= <-]. eexists. split; [done|]. split; [|by auto using live_set].
      apply set_proper; [done| |done]. rewrite (se_codes _ _ Hs1). by apply (setter_proper _ _ Hf).
    + intros [= <-]. eexists. split; [done|]. by auto.
  - intros [= <-]. eexists. split; [done|]. destruct Hw1, Hw2, Hs. by split_and!.
  - assert (default [] (logs s2 !! txhash) = default [] (logs s1 !! txhash)) as ->.
    { symmetry. apply (se_logs _ _ Hs txhash). }
    rewrite <- (se_logSize _ _ Hs). set (ls := default [] (logs s1 !! txhash)).
    destruct (length ls =? 1)%nat.
    + intros [= <-]. eexists. split; [done|]. split_and!; try done; auto using live_set_logs.
      apply set_logs_proper; [done|]. intros h. rewrite !GetLogs_delete.
      destruct (decide _); [done|]. apply (se_logs _ _ Hs).
    + destruct (go_slice ls 0 _) as [ls'|]; [|done]. simpl.
      intros [= <-]. eexists. split; [done|]. split_and!; try done; auto using live_set_logs.
      apply set_logs_proper; [done|]. intros h. rewrite !GetLogs_set.
      destruct (decide _); [done|]. apply (se_logs _ _ Hs).
  - intros [= <-]. eexists. split; [done|]. destruct Hw1, Hw2, Hs. split_and!; try done.
    split; try done. simpl. by f_equal.
  - intros [= <-]. eexists. split; [done|]. by split_and!.
Qed.

Definition count (s : StateDB) (a : Z) : Z := default 0 (dirties s !! a).

Lemma count_undirty e s a :
  count (undirty e s) a = if decide (dirtied e = Some a) then count s a - 1 else count s a.
Proof.
  unfold undirty, count. destruct (dirtied e) as [b|]; [|done]. simpl.
  destruct (decide (Some b = Some a)) as [[= ->]|Hne].
  - destruct (Z.eqb_spec (default 0 (dirties s !! a) - 1) 0) as [E|E].
    + rewrite lookup_delete_eq. simpl. lia.
    + by rewrite lookup_insert_eq.
  - assert (b <> a) by congruence. destruct (_ =? 0).
    + by rewrite lookup_delete_ne.
    + by rewrite lookup_insert_ne.
Qed.

Lemma undirty_fields e s :
  exists d, undirty e s = set_journal (entries s) d s.
Proof. unfold undirty. destruct (dirtied e); [by eexists|]. exists (dirties s). by destruct s. Qed.

Lemma undirty_live e s : live s -> live (undirty e s).
Proof. intros []. destruct (undirty_fields e s) as [d ->]. by split. Qed.

Lemma undirty_log e s : same_log s (undirty e s).
Proof. destruct (undirty_fields e s) as [d ->]. done. Qed.

(** Equivalence, from the parts the journal does not touch and the counts. *)
Lemma set_journal_eq s1 s2 es1 es2 d1 d2 : s1 ≈ s2 ->
  (forall a, a <> ripemd -> default 0 (d1 !! a) = default 0 (d2 !! a)) ->
  set_journal es1 d1 s1 ≈ set_journal es2 d2 s2.
Proof. intros [] Hd. by split. Qed.

Lemma undirty_proper e s1 s2 : s1 ≈ s2 -> undirty e s1 ≈ undirty e s2.
Proof.
  intros Hs. assert (forall a, a <> ripemd -> count (undirty e s1) a = count (undirty e s2) a) as Hc.
  { intros a Ha. rewrite !count_undirty. unfold count. rewrite (se_dirties _ _ Hs a Ha). done. }
  destruct (undirty_fields e s1) as [d1 E1], (undirty_fields e s2) as [d2 E2]. rewrite E1, E2 in *.
  by apply set_journal_eq.
Qed.

Lemma revert_entries_proper es s1 s2 t1 : live s1 -> live s2 -> Forall entry_ok es -> s1 ≈ s2 ->
  revert_entries es s1 = Ok t1 ->
  exists t2, revert_entries es s2 = Ok t2 /\ t1 ≈ t2 /\ live t1 /\ live t2 /\ same_log s1 t1 /\ same_log s2 t2.
Proof.
  intros Hw1 Hw2 Hes. revert s1 s2 Hw1 Hw2. induction Hes as [|e es He Hes IH]; intros s1 s2 Hw1 Hw2 Hs E;
    cbn [revert_entries] in *.
  { injection E as <-. exists s2. by split_and!. }
  ok E as u1 Eu. destruct (revert_proper e s1 s2 u1) as (u2 & -> & Hu & Hl1 & Hl2 & Hg1 & Hg2); [done..|].
  simpl. destruct (IH (undirty e u1) (undirty e u2)) as (t2 & Et & Ht & ? & ? & Hg3 & Hg4);
    eauto using undirty_live, undirty_proper.
  exists t2. split_and!; try done.
  - etrans; [apply Hg1|]. etrans; [apply undirty_log|done].
  - etrans; [apply Hg2|]. etrans; [apply undirty_log|done].
Qed.

Lemma revert_entries_app es1 es2 s :
  revert_entries (es1 ++ es2) s = rbind (revert_entries es1 s) (revert_entries es2).
Proof.
  revert s. induction es1 as [|e es1 IH]; intros s; cbn [revert_entries app]; [done|].
  destruct (revert e s); [|done]. simpl. apply IH.
Qed.

(** ** Changes that can be undone

    [delta s s']: from [s] to [s'] the journal grew by entries that lead
    back to a state equivalent to [s]. *)
Definition undoes (es : list journalEntry) (s' s : StateDB) : Prop :=
  exists t, revert_entries (rev es) s' = Ok t /\ t ≈ s.

Record delta_by (es : list journalEntry) (s s' : StateDB) : Prop := {
  delta_entries : entries s' = entries s ++ es;
  delta_undo : undoes es s' s;
  delta_live : live s';
  delta_ok : Forall entry_ok es;
  delta_revs : validRevisions s' = validRevisions s;
  delta_next : nextRevisionId s' = nextRevisionId s
}.

Definition delta (s s' : StateDB) : Prop := live s -> exists es, delta_by es s s'.

Lemma undoes_trans es1 es2 s s1 s2 : live s1 -> live s2 -> Forall entry_ok es1 -> Forall entry_ok es2 ->
  undoes es1 s1 s -> undoes es2 s2 s1 -> undoes (es1 ++ es2) s2 s.
Proof.
  intros Hw1 Hw2 Hok1 Hok2 (t1 & E1 & Ht1) (t2 & E2 & Ht2).
  unfold undoes. rewrite rev_app_distr, revert_entries_app, E2. simpl.
  destruct (revert_entries_proper (rev es2) s2 s2 t2) as (? & E2' & _ & Hw2' & _); try done.
  { by apply Forall_rev. }
  destruct (revert_entries_proper (rev es1) s1 t2 t1) as (t & Et & Hts & _); try done.
  { by apply Forall_rev. }
  exists t. split; [done|]. by rewrite <- Hts.
Qed.

#[export] Instance delta_preorder : PreOrder delta.
Proof.
  split.
  - intros s Hw. exists []. split; [by rewrite app_nil_r| |done|done|done|done]. by exists s.
  - intros s1 s2 s3 H12 H23 Hw. destruct (H12 Hw) as [es1 []]. destruct (H23 delta_live0) as [es2 []].
    exists (es1 ++ es2). split; try congruence.
    + by rewrite delta_entries1, delta_entries0, app_assoc.
    + by apply (undoes_trans es1 es2 s1 s2 s3).
    + by apply Forall_app.
Qed.

Lemma delta_silent s s' : live s' -> s' ≈ s -> same_log s s' -> delta s s'.
Proof.
  intros Hw' Hs (E & ? & ?) Hw. exists []. split; try done; [by rewrite app_nil_r|]. by exists s'.
Qed.

(** One journalled change. *)
Lemma delta_one e s s' t : live s' -> entry_ok e ->
  entries s' = entries s ++ [e] -> validRevisions s' = validRevisions s ->
  nextRevisionId s' = nextRevisionId s ->
  revert e s' = Ok t -> undirty e t ≈ s -> delta s s'.
Proof.
  intros Hw' He E ? ? Et Ht Hw. exists [e]. split; try done; [|by constructor].
  exists (undirty e t). simpl. by rewrite Et.
Qed.

(** ** The operations of the state change it by a delta *)
Lemma count_append e s a :
  count (journal_append e s) a = if decide (dirtied e = Some a) then count s a + 1 else count s a.
Proof.
  unfold journal_append, count. simpl. destruct (dirtied e) as [b|]; [|done].
  destruct (decide (Some b = Some a)) as [[= ->]|Hne].
  - by rewrite lookup_insert_eq.
  - by rewrite lookup_insert_ne by congruence.
Qed.

Lemma append_live e s : live s -> live (journal_append e s).
Proof. intros []. by split. Qed.

(** Undoing the change of an object puts it back where it was. *)
Lemma undirty_append e s o : peek s (address o) = Some o -> deleted o = false ->
  undirty e (setStateObject o (journal_append e s)) ≈ s.
Proof.
  intros Hp Hd.
  assert (forall a, count (undirty e (setStateObject o (journal_append e s))) a = count s a) as Hc.
  { intros a. rewrite count_undirty. change (count (setStateObject _ ?s)) with (count s).
    rewrite count_append. destruct (decide _); lia. }
  destruct (undirty_fields e (setStateObject o (journal_append e s))) as [d Ed]. rewrite Ed in *.
  split; try done; [|intros a _; apply (Hc a)]. intros a.
  change (peek (set_journal _ d ?s) a) with (peek s a). cbn [codes set_journal setStateObject set_objects].
  destruct (decide (a = address o)) as [->|Hne].
  - rewrite peek_set_eq, Hp by done. by constructor.
  - rewrite peek_set_ne by done. change (peek (journal_append e s) a) with (peek s a). done.
Qed.

Lemma set_set o o' s : address o = address o' ->
  setStateObject o (setStateObject o' s) = setStateObject o s.
Proof.
  intros E. unfold setStateObject, set_objects. simpl. f_equal. rewrite E. apply insert_insert_eq.
Qed.

Lemma delta_update e a f g s o : live s -> peek s a = Some o ->
  setter (codes s) f -> setter (codes s) g -> entry_ok e ->
  (forall s o, live s -> peek s a = Some o -> revert e s = update_object a g s) ->
  obj_eq (codes s) (g (f o)) o ->
  delta s (setStateObject (f o) (journal_append e s)).
Proof.
  intros Hw Hp Hf Hg He Hrev Ho. destruct (peek_ok _ _ _ (live_objects _ Hw) Hp) as [Ha Hd].
  assert (address (f o) = a) as Ha' by (by rewrite (setter_address _ _ Hf)).
  assert (deleted (f o) = false) as Hd' by (by rewrite (setter_deleted _ _ Hf)).
  set (s' := setStateObject (f o) (journal_append e s)).
  assert (live s') as Hw' by (by apply live_set; [apply append_live|]).
  assert (peek s' a = Some (f o)) as Hp' by (rewrite <- Ha'; by apply peek_set_eq).
  pose proof (update_object_spec a g s' Hw' Hg) as Hu. rewrite Hp' in Hu.
  destruct Hu as (u & Eu & Hwu & Hsu & _ & Hau & Hdu).
  eapply (delta_one e); try done.
  { rewrite (Hrev _ _ Hw' Hp'). exact Eu. }
  assert (setStateObject (g (f o)) u ≈ setStateObject o (journal_append e s)) as Hx.
  { rewrite <- (set_set o (f o)) by congruence. apply set_proper; [done| |done].
    by rewrite (se_codes _ _ Hsu). }
  rewrite (undirty_proper e _ _ Hx). apply undirty_append; [|done]. by rewrite Ha.
Qed.

Lemma getStateObject_delta a s : live s ->
  exists s', getStateObject a s = (peek s a, s') /\ delta s s' /\ live s' /\ s' ≈ s.
Proof.
  intros Hw. destruct (getStateObject_spec a s Hw) as (s' & E & Hw' & Hs & Hlog).
  exists s'. split_and!; try done. by apply delta_silent.
Qed.

Lemma peek_loaded a s s' o : live s -> getStateObject a s = (Some o, s') -> peek s' a = Some o.
Proof.
  intros Hw. unfold getStateObject, peek.
  destruct (stateObjects s !! a) as [o'|] eqn:E.
  - destruct (deleted o') eqn:Ed; [done|]. intros [= -> <-]. by rewrite E, Ed.
  - destruct (trie s !! a) as [d|] eqn:Et; [|done]. intros [= <- <-]. simpl. by rewrite lookup_insert_eq.
Qed.

(** Creating an object where there was none, or over one that there was. *)
Lemma create_delta a s o : live s -> peek s a = None -> address o = a -> deleted o = false ->
  delta s (setStateObject o (journal_append (createObjectChange a) s)).
Proof.
  intros Hw Hp Ha Hd. eapply (delta_one (createObjectChange a)); try done.
  { by apply live_set; [apply append_live|]. }
  set (t := set_objectsDirty _ _).
  assert (forall b, count (undirty (createObjectChange a) t) b = count s b) as Hc.
  { intros b. rewrite count_undirty.
    change (count t b) with (count (journal_append (createObjectChange a) s) b).
    rewrite count_append. destruct (decide _); lia. }
  destruct (undirty_fields (createObjectChange a) t) as [d Ed]. rewrite Ed in *.
  split; try done; [|intros b _; apply (Hc b)]. intros b.
  change (peek (set_journal _ d ?s) b) with (peek s b). unfold t. rewrite peek_delete.
  destruct (decide (a = b)) as [<-|Hne].
  - rewrite Hp. simpl. assert (trie s !! a = None) as ->; [|constructor].
    unfold peek in Hp. destruct (stateObjects s !! a) as [o'|] eqn:E.
    + destruct (deleted o') eqn:Ed'; [|done]. by apply (live_objects _ Hw a o' E).
    + by destruct (trie s !! a).
  - rewrite peek_set_ne by congruence. done.
Qed.

Lemma reset_delta a s o prev : live s -> peek s a = Some prev -> address o = a -> deleted o = false ->
  delta s (setStateObject o (journal_append (resetObjectChange prev) s)).
Proof.
  intros Hw Hp Ha Hd. destruct (peek_ok _ _ _ (live_objects _ Hw) Hp) as [Ha' Hd'].
  eapply (delta_one (resetObjectChange prev)); try done.
  { by apply live_set; [apply append_live|]. }
  rewrite set_set by congruence. apply undirty_append; [by rewrite Ha'|done].
Qed.

Lemma createObject_spec a s : live s ->
  exists o s', createObject a s = (o, peek s a, s') /\ delta s s' /\ live s' /\
    address o = a /\ deleted o = false /\ peek s' a = Some o /\
    forall o', address o' = a -> deleted o' = false -> delta s (setStateObject o' s').
Proof.
  intros Hw. unfold createObject. destruct (getStateObject_delta a s Hw) as (s1 & E1 & Hd1 & Hw1 & Hs1).
  rewrite E1. set (o := setNonce 0 (newObject a Account0)).
  destruct (peek s a) as [prev|] eqn:Hp.
  - pose proof (peek_loaded _ _ _ _ Hw E1) as Hp1.
    eexists o, _. split; [done|].
    assert (forall o', address o' = a -> deleted o' = false ->
      delta s (setStateObject o' (setStateObject o (journal_append (resetObjectChange prev) s1)))) as Hall.
    { intros o' Ha' Hd'. rewrite set_set by done. etrans; [exact Hd1|]. by apply (reset_delta a). }
    split_and!; try done.
    + etrans; [exact Hd1|]. by apply (reset_delta a).
    + by apply live_set; [apply append_live|].
    + by apply (peek_set_eq _ o).
  - assert (peek s1 a = None) as Hp1.
    { pose proof (se_objects _ _ Hs1 a) as Ho. rewrite Hp in Ho. by inversion Ho. }
    eexists o, _. split; [done|]. split_and!; try done.
    + etrans; [exact Hd1|]. by apply create_delta.
    + by apply live_set; [apply append_live|].
    + by apply (peek_set_eq _ o).
    + intros o' Ha' Hd'. rewrite set_set by done. etrans; [exact Hd1|]. by apply create_delta.
Qed.

Lemma GetOrNew_spec a s : live s ->
  exists o s', GetOrNewStateObject a s = (o, s') /\ delta s s' /\ live s' /\ peek s' a = Some o /\
    address o = a /\ deleted o = false.
Proof.
  intros Hw. unfold GetOrNewStateObject. destruct (getStateObject_delta a s Hw) as (s1 & E1 & Hd1 & Hw1 & Hs1).
  rewrite E1. destruct (peek s a) as [o|] eqn:Hp.
  - exists o, s1. destruct (peek_ok _ _ _ (live_objects _ Hw) Hp). split_and!; try done.
    by apply (peek_loaded a s).
  - destruct (createObject_spec a s1 Hw1) as (o & s2 & -> & Hd2 & Hw2 & Ha & Hdel & Hp2 & _).
    exists o, s2. split_and!; try done. by etrans.
Qed.

Lemma delta_keeps_live s s' : delta s s' -> live s -> live s'.
Proof. intros Hd Hw. by destruct (Hd Hw) as [es []]. Qed.

Lemma peek_codes_delta s s' : delta s s' -> live s -> codes s' = codes s.
Proof.
  intros Hd Hw. destruct (Hd Hw) as [es [_ (t & E & Ht) Hl _ _ _]]. rewrite <- (se_codes _ _ Ht).
  clear -E. symmetry. revert s' E. generalize (rev es). intros l.
  induction l as [|e l IH]; intros s' E; cbn [revert_entries] in E; [by injection E as <-|].
  ok E as u Eu. rewrite (IH _ E). destruct (undirty_fields e u) as [d ->]. simpl. clear -Eu.
  assert (forall a, codes (snd (getStateObject a s')) = codes s') as Hg.
  { intros a. unfold getStateObject. destruct (stateObjects s' !! a) as [o|]; [by destruct (deleted o)|].
    by destruct (trie s' !! a). }
  destruct e; cbn [revert] in Eu; unfold update_object in Eu;
    try (injection Eu as <-; reflexivity);
    try (specialize (Hg account); destruct (getStateObject account s') as [[o|] s1];
         simpl in *; simplify_eq/=; done).
  destruct (length _ =? 1)%nat; [by injection Eu as <-|]. destruct (go_slice _ _ _); [|done].
  by injection Eu as <-.
Qed.

Lemma CreateAccount_delta a s : live s -> delta s (CreateAccount a s).
Proof.
  intros Hw. unfold CreateAccount. destruct (createObject_spec a s Hw) as (o & s' & -> & Hd & Hw' & Ha & Hdel & _ & Hall).
  destruct (peek s a); [|done]. by apply Hall.
Qed.

Lemma SetBalance_obj_delta a v s o : live s -> peek s a = Some o -> address o = a ->
  delta s (object_SetBalance v o s).
Proof.
  intros Hw Hp Ha. unfold object_SetBalance. rewrite Ha.
  apply (delta_update _ a (setBalance v) (setBalance (Balance (data o)))); auto with go.
  - done.
  - by destruct o as [? [] ? ? ? ? ? ? ?].
Qed.

Lemma touch_delta s o : live s -> delta s (touch o s).
Proof.
  intros Hw. unfold touch. set (a := address o).
  assert (forall s', s' = journal_append (touchChange a) s \/
    (a = ripemd /\ s' = journal_dirty a (journal_append (touchChange a) s)) -> delta s s') as Hall.
  { intros s' Hs'. assert (live s') as Hw'.
    { destruct Hs' as [->|[_ ->]]; [by apply append_live|]. by destruct (append_live (touchChange a) s Hw). }
    eapply (delta_one (touchChange a) s s' s'); try done; try by destruct Hs' as [->|[_ ->]].
    assert (forall b, b <> ripemd -> count (undirty (touchChange a) s') b = count s b) as Hc.
    { intros b Hb. rewrite count_undirty. destruct Hs' as [->|[Ha ->]].
      - rewrite count_append. destruct (decide _); lia.
      - unfold count at 1 2. simpl. rewrite decide_False by congruence.
        rewrite !lookup_insert_ne by congruence. done. }
    destruct (undirty_fields (touchChange a) s') as [d Ed]. rewrite Ed in *.
    destruct Hs' as [->|[_ ->]]; split; try done; intros b ?; by apply (Hc b). }
  destruct (Z.eqb_spec a ripemd); apply Hall; auto.
Qed.

Lemma AddBalance_delta a v s : live s -> delta s (AddBalance a v s).
Proof.
  intros Hw. unfold AddBalance. destruct (GetOrNew_spec a s Hw) as (o & s' & -> & Hd & Hw' & Hp & Ha & _).
  etrans; [exact Hd|]. unfold object_AddBalance. destruct (v =? 0).
  - destruct (empty o); [by apply touch_delta|done].
  - by apply (SetBalance_obj_delta a).
Qed.

Lemma SubBalance_delta a v s : live s -> delta s (SubBalance a v s).
Proof.
  intros Hw. unfold SubBalance. destruct (GetOrNew_spec a s Hw) as (o & s' & -> & Hd & Hw' & Hp & Ha & _).
  etrans; [exact Hd|]. unfold object_SubBalance. destruct (v =? 0); [done|]. by apply (SetBalance_obj_delta a).
Qed.

Lemma SetBalance_delta a v s : live s -> delta s (SetBalance a v s).
Proof.
  intros Hw. unfold SetBalance. destruct (GetOrNew_spec a s Hw) as (o & s' & -> & Hd & Hw' & Hp & Ha & _).
  etrans; [exact Hd|]. by apply (SetBalance_obj_delta a).
Qed.

Lemma SetNonce_delta a n s : live s -> delta s (SetNonce a n s).
Proof.
  intros Hw. unfold SetNonce. destruct (GetOrNew_spec a s Hw) as (o & s' & -> & Hd & Hw' & Hp & Ha & _).
  etrans; [exact Hd|]. unfold object_SetNonce. rewrite Ha.
  apply (delta_update _ a (setNonce n) (setNonce (Nonce (data o)))); auto with go; [done|].
  by destruct o as [? [] ? ? ? ? ? ? ?].
Qed.

(** Caching storage and code in an object. *)
Lemma set_cached s a o o' : live s -> peek s a = Some o -> address o = a -> deleted o = false ->
  obj_eq (codes s) o' o -> delta s (setStateObject o' s) /\ live (setStateObject o' s) /\ setStateObject o' s ≈ s.
Proof.
  intros Hw Hp Ha Hd Ho. pose proof (oe_address _ _ _ Ho). pose proof (oe_deleted _ _ _ Ho).
  assert (live (setStateObject o' s)) as Hl by (apply live_set; [done|congruence]).
  assert (setStateObject o' s ≈ s) as Hs.
  { split; try done. intros b. cbn [codes setStateObject set_objects]. destruct (decide (b = address o')) as [->|Hne].
    - rewrite peek_set_eq by congruence. assert (peek s (address o') = Some o) as -> by congruence. by constructor.
    - rewrite peek_set_ne by done. by destruct (peek s b); constructor. }
  split_and!; try done. by apply delta_silent.
Qed.

Lemma object_GetCommittedState_spec cs k o :
  exists o', object_GetCommittedState k o = (committed o k, o') /\ obj_eq cs o' o /\
    dirtyStorage o' = dirtyStorage o.
Proof.
  unfold object_GetCommittedState. destruct (originStorage o !! k) as [v|] eqn:E.
  { exists o. split_and!; [|done|done]. unfold committed. by rewrite E. }
  set (t := trie_of o).
  assert (exists o1, getTrie o = (t, o1) /\ storage_trie o1 = Some t /\
    o1 = with_storage (storage_trie o1) (originStorage o) (dirtyStorage o) o) as (o1 & -> & Ht & E1).
  { unfold getTrie, t, trie_of. destruct (storage_trie o) as [t'|] eqn:Et.
    - exists o. split_and!; [done|done|]. rewrite Et. by destruct o; simpl in *; subst.
    - eexists. by split_and!. }
  eexists. split.
  { f_equal. unfold committed. by rewrite E. }
  rewrite E1. split; [|done]. split; try done.
  - unfold trie_of at 1. simpl. by rewrite Ht.
  - intros k'. unfold committed at 1, trie_of at 1. simpl. rewrite Ht. simpl. unfold committed.
    destruct (decide (k = k')) as [<-|Hne].
    + rewrite lookup_insert_eq, E. done.
    + by rewrite lookup_insert_ne.
  - intros k'. unfold current, committed at 1, trie_of at 1. simpl. rewrite Ht. simpl.
    destruct (dirtyStorage o !! k'); [done|]. simpl. unfold committed.
    destruct (decide (k = k')) as [<-|Hne].
    + rewrite lookup_insert_eq, E. done.
    + by rewrite lookup_insert_ne.
Qed.

Lemma object_GetState_spec cs k o :
  exists o', object_GetState k o = (current o k, o') /\ obj_eq cs o' o.
Proof.
  unfold object_GetState, current. destruct (dirtyStorage o !! k); [by exists o|].
  destruct (object_GetCommittedState_spec cs k o) as (o' & -> & ? & _). by exists o'.
Qed.

Lemma object_Code_spec cs o :
  exists c o', object_Code cs o = (c, o') /\ code_slice c = code_of cs o /\ obj_eq cs o' o /\
    CodeHash (data o') = CodeHash (data o) /\
    (c = None -> code_of cs o = [] /\ code o' = None) /\ (forall c', c = Some c' -> code o' = Some c').
Proof.
  unfold object_Code, code_of. destruct (code o) as [c|] eqn:Ec.
  { exists (Some c), o. split_and!; try done. by intros c' [= <-]. }
  destruct (Z.eqb_spec (CodeHash (data o)) emptyCodeHash) as [E|E].
  { exists None, o. by split_and!. }
  set (bz := default [] (cs !! CodeHash (data o))).
  exists (slice_code bz), (with_code (slice_code bz) o). split_and!; try done.
  - by destruct bz.
  - split; try done.
    + unfold code_of. simpl. rewrite Ec. apply Z.eqb_neq in E. rewrite E. fold bz. by destruct bz.
    + unfold code_size. simpl. rewrite Ec. fold bz. by destruct bz eqn:Eb.
  - by destruct bz.
Qed.

(** An operation that looks an object up and works on it. *)
Lemma with_object {A} a s (k : option stateObject * StateDB -> A * StateDB) : live s ->
  (forall s', live s' -> s' ≈ s -> k (None, s') = (fst (k (None, s')), s')) ->
  (forall o s', live s' -> s' ≈ s -> peek s' a = Some o -> address o = a -> deleted o = false ->
     delta s' (snd (k (Some o, s')))) ->
  delta s (snd (k (getStateObject a s))).
Proof.
  intros Hw Hnone Hsome. destruct (getStateObject_delta a s Hw) as (s' & E & Hd & Hw' & Hs). rewrite E.
  destruct (peek s a) as [o|] eqn:Hp.
  - destruct (peek_ok _ _ _ (live_objects _ Hw) Hp). etrans; [exact Hd|]. apply Hsome; try done.
    by apply (peek_loaded a s).
  - rewrite Hnone by done. done.
Qed.

Lemma SetState_delta a key v s : live s -> delta s (SetState a key v s).
Proof.
  intros Hw. unfold SetState. destruct (GetOrNew_spec a s Hw) as (o & s' & -> & Hd & Hw' & Hp & Ha & Hdel).
  etrans; [exact Hd|]. unfold object_SetState.
  destruct (object_GetState_spec (codes s') key o) as (o' & -> & Ho).
  destruct (set_cached s' a o o' Hw' Hp Ha Hdel Ho) as (Hd' & Hl' & Hs').
  destruct (current o key =? v); [done|]. etrans; [exact Hd'|].
  pose proof (oe_address _ _ _ Ho) as Ha'. pose proof (oe_deleted _ _ _ Ho) as Hdel'.
  rewrite <- (set_set (setState key v o') o' (journal_append _ s')) by done.
  change (setStateObject o' (journal_append ?e s')) with (journal_append e (setStateObject o' s')).
  apply (delta_update _ a (setState key v) (setState key (current o key))); auto with go.
  - rewrite <- Ha, <- Ha'. apply peek_set_eq. congruence.
  - done.
  - intros s1 o1 _ _. cbn [revert]. by rewrite Ha', Ha.
  - split; try done. intros k. rewrite !current_setState. destruct (decide (key = k)) as [->|]; [|done].
    symmetry. apply (oe_current _ _ _ Ho).
Qed.

Lemma setCode_undo cs h c o c0 o' : object_Code cs o = (c0, o') ->
  setCode h c o' = setCode h c o /\ obj_eq cs (setCode (CodeHash (data o)) c0 (setCode h c o)) o.
Proof.
  unfold object_Code. destruct (code o) as [b|] eqn:Ec.
  { intros [= <- <-]. split; [done|]. split; try done; unfold code_of, code_size; simpl; by rewrite Ec. }
  destruct (Z.eqb_spec (CodeHash (data o)) emptyCodeHash) as [E|E].
  { intros [= <- <-]. split; [done|]. split; try done; unfold code_of, code_size; simpl; by rewrite Ec. }
  intros [= <- <-]. split; [done|]. set (bz := default [] (cs !! CodeHash (data o))).
  split; try done; unfold code_of, code_size; simpl; rewrite Ec; fold bz.
  - apply Z.eqb_neq in E. rewrite E. by destruct bz.
  - by destruct bz.
Qed.

Lemma SetCode_delta a c s : live s -> delta s (SetCode a c s).
Proof.
  intros Hw. unfold SetCode. destruct (GetOrNew_spec a s Hw) as (o & s' & -> & Hd & Hw' & Hp & Ha & Hdel).
  etrans; [exact Hd|]. unfold object_SetCode.
  destruct (object_Code_spec (codes s') o) as (c0 & o' & E & _ & Ho & Hh & _). rewrite E, Hh.
  destruct (setCode_undo _ (Keccak256Hash c) (slice_code c) _ _ _ E) as [-> Hu].
  rewrite (oe_address _ _ _ Ho), Ha.
  apply (delta_update _ a (setCode _ _) (setCode (CodeHash (data o)) c0)); auto with go. done.
Qed.

Lemma Suicide_delta a s : live s -> delta s (snd (Suicide a s)).
Proof.
  intros Hw. unfold Suicide.
  apply (with_object a s (fun '(o, s) => match o with None => (false, s) | Some o => _ end)); [done|done|].
  intros o s' Hw' _ Hp Ha Hdel. cbn [snd].
  apply (delta_update _ a (fun o => setBalance 0 (with_suicided true o))
    (fun u => setBalance (Balance (data o)) (with_suicided (suicided o) u))); auto using setter_comp with go.
  - done.
  - intros s1 o1 Hw1 Hp1. cbn [revert]. unfold update_object.
    destruct (getStateObject_delta a s1 Hw1) as (s1' & -> & _). by rewrite Hp1.
  - by destruct o as [? [] ? ? ? ? ? ? ?].
Qed.

Lemma query_delta {A} a s (f : option stateObject -> A) : live s ->
  delta s (snd (let '(o, s') := getStateObject a s in (f o, s'))).
Proof. intros Hw. by destruct (getStateObject_delta a s Hw) as (s' & -> & ? & _). Qed.

Lemma Exist_delta a s : live s -> delta s (snd (Exist a s)).
Proof. apply query_delta. Qed.
Lemma Empty_delta a s : live s -> delta s (snd (Empty a s)).
Proof. apply (query_delta a s (fun o => match o with None => true | Some o => empty o end)). Qed.
Lemma GetBalance_delta a s : live s -> delta s (snd (GetBalance a s)).
Proof. apply (query_delta a s (fun o => match o with Some o => Balance (data o) | None => 0 end)). Qed.
Lemma GetNonce_delta a s : live s -> delta s (snd (GetNonce a s)).
Proof. apply (query_delta a s (fun o => match o with Some o => Nonce (data o) | None => 0 end)). Qed.
Lemma GetCodeHash_delta a s : live s -> delta s (snd (GetCodeHash a s)).
Proof. apply (query_delta a s (fun o => match o with Some o => CodeHash (data o) | None => 0 end)). Qed.
Lemma HasSuicided_delta a s : live s -> delta s (snd (HasSuicided a s)).
Proof. apply (query_delta a s (fun o => match o with Some o => suicided o | None => false end)). Qed.

Lemma GetCodeSize_delta a s : live s -> delta s (snd (GetCodeSize a s)).
Proof.
  intros Hw. unfold GetCodeSize. destruct (getStateObject_delta a s Hw) as (s' & -> & ? & _).
  destruct (peek s a) as [o|]; [|done]. by destruct (code o).
Qed.

Lemma GetCode_delta a s : live s -> delta s (snd (GetCode a s)).
Proof.
  intros Hw. unfold GetCode.
  apply (with_object a s (fun '(o, s) => match o with Some o => _ | None => ([], s) end)); [done|done|].
  intros o s' Hw' _ Hp Ha Hdel. destruct (object_Code_spec (codes s') o) as (c & o' & -> & _ & Ho & _).
  by apply (set_cached s' a o o').
Qed.

Lemma GetState_delta a k s : live s -> delta s (snd (GetState a k s)).
Proof.
  intros Hw. unfold GetState.
  apply (with_object a s (fun '(o, s) => match o with Some o => _ | None => (0, s) end)); [done|done|].
  intros o s' Hw' _ Hp Ha Hdel. destruct (object_GetState_spec (codes s') k o) as (o' & -> & Ho).
  by apply (set_cached s' a o o').
Qed.

Lemma GetCommittedState_delta a k s : live s -> delta s (snd (GetCommittedState a k s)).
Proof.
  intros Hw. unfold GetCommittedState.
  apply (with_object a s (fun '(o, s) => match o with Some o => _ | None => (0, s) end)); [done|done|].
  intros o s' Hw' _ Hp Ha Hdel. destruct (object_GetCommittedState_spec (codes s') k o) as (o' & -> & Ho & _).
  by apply (set_cached s' a o o').
Qed.

(** Logs, preimages and the refund counter. *)
(** Dropping the last log again. *)
Lemma addLog_undo s ls l : live s -> default [] (logs s !! thash s) = ls ->
  let s1 := set_logs (<[thash s := ls ++ [l]]> (logs s)) (u64 (logSize s + 1))
              (journal_append (addLogChange (thash s)) s) in
  exists m, revert (addLogChange (thash s)) s1 = Ok (set_logs m (logSize s) s1) /\
    forall h, default [] (m !! h) = GetLogs h s.
Proof.
  intros Hw Els s1.
  assert (u64 (logSize s1 - 1) = logSize s) as Eu.
  { simpl. unfold u64. rewrite Zminus_mod_idemp_l. replace (logSize s + 1 - 1) with (logSize s) by lia.
    apply Z.mod_small. apply (live_logSize _ Hw). }
  assert (default [] (logs s1 !! thash s) = ls ++ [l]) as El by (simpl; by rewrite lookup_insert_eq).
  cbn [revert]. rewrite Eu, El. clear El. change (logs s1) with (<[thash s := ls ++ [l]]> (logs s)).
  destruct ls as [|x ls'].
  - simpl. eexists. split; [done|]. intros h. unfold GetLogs. destruct (decide (thash s = h)) as [<-|Hne].
    + by rewrite lookup_delete_eq, Els.
    + by rewrite lookup_delete_ne, lookup_insert_ne.
  - rewrite length_app. simpl length. rewrite Nat.add_1_r. cbn [Nat.eqb].
    unfold go_slice. rewrite !(proj2 (Z.ltb_ge _ _)) by (rewrite ?length_app; simpl; lia). cbn [orb rbind].
    eexists. split; [done|]. intros h. unfold GetLogs. destruct (decide (thash s = h)) as [<-|Hne].
    + rewrite lookup_insert_eq, Els. cbn [default]. rewrite drop_0.
      replace (Z.to_nat _) with (length (x :: ls')) by (simpl; lia). apply (take_app_length (x :: ls')).
    + by rewrite !lookup_insert_ne.
Qed.

Lemma AddLog_delta l s : live s -> delta s (AddLog l s).
Proof.
  intros Hw. unfold AddLog. cbn [thash bhash txIndex logSize logs journal_append set_journal].
  destruct (addLog_undo s _ (mkLog (log_Address l) (Topics l) (Data l) (log_BlockNumber l)
    (thash s) (txIndex s) (bhash s) (logSize s)) Hw eq_refl) as (m & E & Hm).
  set (s1 := set_logs _ _ _) in *.
  apply (delta_one (addLogChange (thash s)) s s1 (set_logs m (logSize s) s1)); try done.
  { destruct (append_live (addLogChange (thash s)) s Hw). by apply live_set_logs. }
Qed.

Lemma AddPreimage_delta h p s : live s -> delta s (AddPreimage h p s).
Proof.
  intros Hw. unfold AddPreimage. destruct (preimages s !! h) eqn:E; [done|].
  set (s1 := set_preimages _ _).
  apply (delta_one (addPreimageChange h) s s1 (set_preimages (delete h (preimages s1)) s1)); try done.
  { by destruct Hw. }
  unfold undirty. simpl. split; try done. simpl. by rewrite delete_insert_id.
Qed.

Lemma set_refund_delta r s : live s -> delta s (set_refund r (journal_append (refundChange (refund s)) s)).
Proof.
  intros Hw. set (s1 := set_refund _ _).
  apply (delta_one (refundChange (refund s)) s s1 (set_refund (refund s) s1)); try done. by destruct Hw.
Qed.

Lemma AddRefund_delta g s : live s -> delta s (AddRefund g s).
Proof. apply set_refund_delta. Qed.

Lemma SubRefund_delta g s s' : live s -> SubRefund g s = Ok s' -> delta s s'.
Proof.
  unfold SubRefund. intros Hw. destruct (g >? _); [done|]. intros [= <-]. by apply set_refund_delta.
Qed.

(** ** Snapshots *)
Definition rev_lt (r r' : Z * nat) : Prop := r.1 < r'.1 /\ (r.2 <= r'.2)%nat.

Record wf (s : StateDB) : Prop := {
  wf_live : live s;
  wf_entries : Forall entry_ok (entries s);
  wf_sorted : StronglySorted rev_lt (validRevisions s);
  wf_revs : Forall (fun r => r.1 < nextRevisionId s /\ (r.2 <= length (entries s))%nat) (validRevisions s)
}.

(** A step of a program that keeps to its own snapshots: a change, a new
    snapshot, or a return to a snapshot taken from [base] on. *)
Inductive step (base : Z) (s s' : StateDB) : Prop :=
| step_delta : delta s s' -> step base s s'
| step_snapshot : s' = snd (Snapshot s) -> step base s s'
| step_revert id : base <= id -> RevertToSnapshot id s = Ok s' -> step base s s'.

Definition steps (base : Z) : relation StateDB := rtc (step base).

Lemma steps_weaken base base' s s' : base' <= base -> steps base s s' -> steps base' s s'.
Proof.
  intros Hb. induction 1 as [|s1 s2 s3 Hst _ IH]; [apply rtc_refl|].
  eapply rtc_l; [|exact IH]. destruct Hst; [by apply step_delta|by apply step_snapshot|].
  eapply step_revert; [|done]. lia.
Qed.

Lemma delta_steps base s s' : delta s s' -> steps base s s'.
Proof. intros. by apply rtc_once, step_delta. Qed.

(** What happened since [s0]: entries [es] and revisions [rs]. *)
Record since (s0 : StateDB) (es : list journalEntry) (rs : list (Z * nat)) (s : StateDB) : Prop := {
  since_entries : entries s = entries s0 ++ es;
  since_undo : undoes es s s0;
  since_live : live s;
  since_ok : Forall entry_ok es;
  since_revs : validRevisions s = validRevisions s0 ++ rs;
  since_sorted : StronglySorted rev_lt rs;
  since_range : Forall (fun r => nextRevisionId s0 <= r.1 < nextRevisionId s /\
                   (length (entries s0) <= r.2 <= length (entries s))%nat) rs;
  since_next : nextRevisionId s0 <= nextRevisionId s
}.

Lemma since_refl s : live s -> since s [] [] s.
Proof. intros Hw. split; try done; rewrite ?app_nil_r; try done; [by exists s|constructor]. Qed.

Lemma since_delta s0 es rs s s' : since s0 es rs s -> delta s s' -> exists es', since s0 es' rs s'.
Proof.
  intros [] Hd. destruct (Hd since_live0) as [es' []]. exists (es ++ es'). split; try congruence; try lia.
  - by rewrite delta_entries0, since_entries0, app_assoc.
  - by apply (undoes_trans es es' s0 s s').
  - by apply Forall_app.
  - rewrite delta_entries0, delta_next0. eapply Forall_impl; [exact since_range0|].
    intros r. simpl. rewrite length_app. lia.
Qed.

Lemma sorted_snoc rs r : StronglySorted rev_lt rs -> Forall (fun r' => rev_lt r' r) rs ->
  StronglySorted rev_lt (rs ++ [r]).
Proof.
  induction 1 as [|r' rs Hs IH Hf]; intros Hr; [by repeat constructor|].
  apply Forall_cons in Hr as [H1 H2]. simpl. constructor; [by apply IH|].
  apply Forall_app. split; [done|]. by constructor.
Qed.

Lemma since_snapshot s0 es rs s : since s0 es rs s ->
  since s0 es (rs ++ [(nextRevisionId s, length (entries s))]) (snd (Snapshot s)).
Proof.
  intros []. split; try done; simpl; try lia.
  - destruct since_undo0 as (t & E & Ht).
    destruct (revert_entries_proper (rev es) s (snd (Snapshot s)) t) as (t' & E' & Ht' & _); try done.
    { by destruct since_live0. }
    { by apply Forall_rev. }
    exists t'. split; [done|]. by rewrite <- Ht'.
  - by destruct since_live0.
  - by rewrite since_revs0, app_assoc.
  - apply sorted_snoc; [done|]. eapply Forall_impl; [exact since_range0|]. unfold rev_lt. simpl. intros r [? ?]. lia.
  - apply Forall_app. split; [|repeat constructor; simpl].
    + eapply Forall_impl; [exact since_range0|]. simpl. intros r [? ?]. lia.
    + lia.
    + lia.
    + rewrite since_entries0, length_app. lia.
Qed.

Lemma RevertToSnapshot_inv id s s' : RevertToSnapshot id s = Ok s' ->
  exists idx n t, validRevisions s !! idx = Some (id, n) /\ journal_revert n s = Ok t /\
    s' = set_revisions (take idx (validRevisions t)) (nextRevisionId t) t.
Proof.
  unfold RevertToSnapshot. set (idx := sort_search _ _).
  destruct (validRevisions s !! idx) as [[id' n]|] eqn:E; [|done].
  destruct (Z.eqb_spec id' id) as [->|]; [|done]. cbn [negb]. intros Hr. ok Hr as t Et.
  injection Hr as <-. by exists idx, n, t.
Qed.

(** Undoing back to [es1] of [es1 ++ es2]. *)
Lemma journal_revert_spec s0 es1 es2 s n t : live s -> Forall entry_ok (es1 ++ es2) ->
  entries s = entries s0 ++ es1 ++ es2 -> n = length (entries s0 ++ es1) ->
  undoes (es1 ++ es2) s s0 -> journal_revert n s = Ok t ->
  entries t = entries s0 ++ es1 /\ undoes es1 t s0 /\ live t /\
  validRevisions t = validRevisions s /\ nextRevisionId t = nextRevisionId s.
Proof.
  intros Hw [Hok1 Hok2]%Forall_app He -> (u & Eu & Hu) Hj.
  rewrite rev_app_distr, revert_entries_app in Eu. ok Eu as v Ev.
  unfold journal_revert in Hj. rewrite app_assoc in He. rewrite He, drop_app_length, Ev in Hj. cbn [rbind] in Hj.
  destruct (revert_entries_proper (rev es2) s s v) as (? & _ & _ & Hwv & _ & Hlog & _); try done.
  { by apply Forall_rev. }
  destruct Hlog as (Ent & Hvr & Hnr). rewrite Ent, He in Hj. unfold go_slice in Hj.
  rewrite (proj2 (Z.ltb_ge (Z.of_nat _) 0)), (proj2 (Z.ltb_ge (Z.of_nat (length ((_ ++ _) ++ _))) _)) in Hj
    by (rewrite ?length_app; lia).
  cbn [Z.ltb Z.compare orb rbind] in Hj. injection Hj as <-. simpl.
  rewrite drop_0, Z.sub_0_r, Nat2Z.id, take_app_length.
  split_and!; try done; [|by destruct Hwv].
  destruct (revert_entries_proper (rev es1) v (set_journal (entries s0 ++ es1) (dirties v) v) u)
    as (w & Ew & Hw' & _); try done.
  { by destruct Hwv. }
  { by apply Forall_rev. }
  exists w. split; [done|]. by rewrite <- Hw'.
Qed.

Lemma sorted_take rs k : StronglySorted rev_lt rs -> StronglySorted rev_lt (take k rs).
Proof.
  intros Hs. revert k. induction Hs as [|r rs Hs IH Hf]; intros [|k]; simpl; constructor; auto.
  by apply Forall_take.
Qed.

Lemma sorted_lookup rs j k r r' : StronglySorted rev_lt rs ->
  rs !! j = Some r -> rs !! k = Some r' -> (j < k)%nat -> rev_lt r r'.
Proof.
  intros Hs. revert j k. induction Hs as [|x rs Hs IH Hf]; intros j k; [done|].
  destruct j as [|j], k as [|k]; simpl; intros Hj Hk Hlt; try lia.
  - injection Hj as <-. by apply (Forall_lookup_1 _ _ _ _ Hf Hk).
  - apply (IH j k); [done|done|lia].
Qed.

Lemma since_revert s0 es rs s id s' : wf s0 -> since s0 es rs s -> nextRevisionId s0 <= id ->
  RevertToSnapshot id s = Ok s' -> exists es' rs', since s0 es' rs' s'.
Proof.
  intros Hwf [] Hid Hr. apply RevertToSnapshot_inv in Hr as (idx & n & t & Hi & Hj & ->).
  rewrite since_revs0 in Hi. apply lookup_app_Some in Hi as [Hi|[Hge Hi]].
  { destruct (Forall_lookup_1 _ _ _ _ (wf_revs _ Hwf) Hi). simpl in *. lia. }
  set (k := (idx - length (validRevisions s0))%nat) in *.
  destruct (Forall_lookup_1 _ _ _ _ since_range0 Hi) as [_ [Hn1 Hn2]]. simpl in Hn1, Hn2.
  rewrite since_entries0, length_app in Hn2. set (m := (n - length (entries s0))%nat).
  destruct (journal_revert_spec s0 (take m es) (drop m es) s n t)
    as (Et & Hu & Hwt & Hvr & Hnr); rewrite ?take_drop; try done.
  { rewrite length_app, length_take_le; unfold m; lia. }
  exists (take m es), (take k rs). split; simpl; try done.
  - destruct Hu as (u & Eu & Hu).
    destruct (revert_entries_proper (rev (take m es)) t
      (set_revisions (take idx (validRevisions t)) (nextRevisionId t) t) u) as (w & Ew & Hw' & _); try done.
    { by destruct Hwt. }
    { apply Forall_rev. by apply Forall_take. }
    exists w. split; [done|]. by rewrite <- Hw'.
  - by destruct Hwt.
  - by apply Forall_take.
  - rewrite Hvr, since_revs0, take_app, take_ge by lia. done.
  - by apply sorted_take.
  - rewrite Et, Hnr. apply Forall_lookup_2. intros j r Hjr.
    apply lookup_take_Some in Hjr as [Hjr Hjk].
    destruct (Forall_lookup_1 _ _ _ _ since_range0 Hjr) as [H1 [H2 H3]]. split; [lia|].
    split; [done|]. rewrite length_app, length_take_le by (unfold m; lia).
    destruct (sorted_lookup rs j k r (id, n) since_sorted0 Hjr Hi Hjk). simpl in *. unfold m. lia.
  - lia.
Qed.

Lemma since_steps s0 es rs s s' : wf s0 -> since s0 es rs s -> steps (nextRevisionId s0) s s' ->
  exists es' rs', since s0 es' rs' s'.
Proof.
  intros Hwf Hs Hst. revert es rs Hs. induction Hst as [s|s s1 s' Hone _ IH]; intros es rs Hs; [by eauto|].
  destruct Hone as [Hd| -> |id Hid Hr].
  - destruct (since_delta _ _ _ _ _ Hs Hd) as [es' Hs']. by apply (IH es' rs).
  - by apply (IH es _ (since_snapshot _ _ _ _ Hs)).
  - destruct (since_revert _ _ _ _ _ _ Hwf Hs Hid Hr) as (es' & rs' & Hs'). by apply (IH es' rs').
Qed.

(** The binary search finds the snapshot. *)
Lemma search_revision rs k id n : StronglySorted rev_lt rs -> rs !! k = Some (id, n) ->
  sort_search (length rs) (fun i => match rs !! i with Some (id', _) => id' >=? id | None => false end) = k.
Proof.
  intros Hs Hk. set (f := fun i => _).
  assert (forall i, (i < length rs)%nat -> f i = (k <=? i)%nat) as Hf.
  { intros i Hi. unfold f. destruct (lookup_lt_is_Some_2 rs i Hi) as [[id' n'] E]. rewrite E.
    destruct (Nat.leb_spec k i) as [Hle|Hlt].
    - destruct (decide (k = i)) as [->|Hne].
      + rewrite Hk in E. injection E as -> ->. apply Z.geb_le. lia.
      + destruct (sorted_lookup rs k i _ _ Hs Hk E ltac:(lia)). simpl in *. apply Z.geb_le. lia.
    - destruct (sorted_lookup rs i k _ _ Hs E Hk Hlt). simpl in *.
      rewrite Z.geb_leb. apply Z.leb_gt. lia. }
  pose proof (lookup_lt_Some _ _ _ Hk) as Hlt.
  destruct (sort_search_spec (length rs) f) as (H1 & H2 & H3).
  { intros a b Hab. rewrite !Hf by lia. intros ?%Nat.leb_le. apply Nat.leb_le. lia. }
  set (r := sort_search (length rs) f) in *.
  destruct (Nat.lt_trichotomy r k) as [Hr|[Hr|Hr]]; [|done|].
  - specialize (H3 r). rewrite Hf in H3 by lia. specialize (H3 ltac:(lia)). apply Nat.leb_le in H3. lia.
  - specialize (H2 k Hr). rewrite Hf in H2 by lia. apply Nat.leb_gt in H2. lia.
Qed.

Lemma wf_snapshot s : wf s -> wf (snd (Snapshot s)).
Proof.
  intros []. split; simpl; try done.
  - by destruct wf_live0.
  - apply sorted_snoc; [done|]. eapply Forall_impl; [exact wf_revs0|]. unfold rev_lt. simpl. intros r. lia.
  - apply Forall_app. split; [|repeat constructor; simpl; lia].
    eapply Forall_impl; [exact wf_revs0|]. simpl. intros r. lia.
Qed.

Lemma sorted_app_revs rs rs' : StronglySorted rev_lt rs -> StronglySorted rev_lt rs' ->
  (forall r r', r ∈ rs -> r' ∈ rs' -> rev_lt r r') -> StronglySorted rev_lt (rs ++ rs').
Proof.
  intros Hs Hs' Hlt. induction Hs as [|r rs Hs IH Hf]; [done|]. simpl. constructor.
  - apply IH. intros x y ??. apply Hlt; [by right|done].
  - apply Forall_app. split; [done|]. apply Forall_forall. intros y Hy. apply Hlt; [by left|done].
Qed.

Lemma state_eq_journal es rs n s : set_revisions rs n (set_journal es (dirties s) s) ≈ s.
Proof. by split. Qed.

(** Returning to a snapshot, whatever happened since, is possible and gives
    the state of the snapshot back. *)
Lemma revert_restores s s2 : wf s -> steps (nextRevisionId s + 1) (snd (Snapshot s)) s2 ->
  exists s3, RevertToSnapshot (nextRevisionId s) s2 = Ok s3 /\ s3 ≈ s /\ live s3 /\
    entries s3 = entries s /\ validRevisions s3 = validRevisions s /\
    nextRevisionId s3 = nextRevisionId s2 /\ nextRevisionId s < nextRevisionId s2.
Proof.
  intros Hwf Hst. set (s1 := snd (Snapshot s)) in *. set (id := nextRevisionId s) in *.
  pose proof (wf_snapshot s Hwf) as Hwf1. fold s1 in Hwf1.
  destruct (since_steps s1 [] [] s1 s2 Hwf1 (since_refl _ (wf_live _ Hwf1)) Hst) as (es & rs & []).
  assert (validRevisions s2 = validRevisions s ++ (id, length (entries s)) :: rs) as Hv.
  { rewrite since_revs0. unfold s1. simpl. by rewrite <- app_assoc. }
  assert (validRevisions s2 !! length (validRevisions s) = Some (id, length (entries s))) as Hl.
  { rewrite Hv. by apply list_lookup_middle. }
  assert (StronglySorted rev_lt (validRevisions s2)) as Hsort.
  { rewrite since_revs0. apply sorted_app_revs; [apply Hwf1|done|].
    intros r r' Hr Hr'. destruct (proj1 (Forall_forall _ _) (wf_revs _ Hwf1) r Hr).
    destruct (proj1 (Forall_forall _ _) since_range0 r' Hr') as [? [? ?]]. split; lia. }
  unfold RevertToSnapshot. rewrite (search_revision _ _ _ _ Hsort Hl), Hl, Z.eqb_refl. cbn [negb].
  destruct since_undo0 as (u & Eu & Hu).
  destruct (revert_entries_proper (rev es) s2 s2 u) as (? & _ & _ & Hwu & _ & Hlog & _); try done.
  { by apply Forall_rev. }
  destruct Hlog as (Ent & Hvr & Hnr).
  unfold journal_revert. change (entries s1) with (entries s) in since_entries0.
  rewrite since_entries0, drop_app_length, Eu. cbn [rbind].
  rewrite Ent, since_entries0. unfold go_slice.
  rewrite !(proj2 (Z.ltb_ge _ _)) by (rewrite ?length_app; lia). cbn [orb rbind].
  eexists. split; [done|]. simpl. rewrite drop_0, Z.sub_0_r, Nat2Z.id, take_app_length.
  rewrite Hvr, Hv, take_app_length, Hnr.
  assert (id + 1 <= nextRevisionId s2) by (by unfold s1 in since_next0; simpl in since_next0).
  split_and!; try done; [|by destruct Hwu|lia].
  etrans; [apply state_eq_journal|]. etrans; [exact Hu|]. by split.
Qed.

(** ** What the queries answer *)
Record same_answers (s s' : StateDB) : Prop := {
  sa_balance : forall a, (GetBalance a s).1 = (GetBalance a s').1;
  sa_nonce : forall a, (GetNonce a s).1 = (GetNonce a s').1;
  sa_code : forall a, (GetCode a s).1 = (GetCode a s').1;
  sa_codesize : forall a, (GetCodeSize a s).1 = (GetCodeSize a s').1;
  sa_codehash : forall a, (GetCodeHash a s).1 = (GetCodeHash a s').1;
  sa_state : forall a k, (GetState a k s).1 = (GetState a k s').1;
  sa_committed : forall a k, (GetCommittedState a k s).1 = (GetCommittedState a k s').1;
  sa_exist : forall a, (Exist a s).1 = (Exist a s').1;
  sa_empty : forall a, (Empty a s).1 = (Empty a s').1;
  sa_suicided : forall a, (HasSuicided a s).1 = (HasSuicided a s').1;
  sa_refund : GetRefund s = GetRefund s';
  sa_logs : forall h, GetLogs h s = GetLogs h s';
  sa_preimages : preimages s = preimages s'
}.

Lemma codes_equiv s s' : s ≈ s' -> codes s = codes s'.
Proof. by intros []. Qed.

Lemma state_eq_answers s s' : live s -> live s' -> s ≈ s' -> same_answers s s'.
Proof.
  intros Hw Hw' Hs.
  assert (forall a, exists o o' t t', getStateObject a s = (o, t) /\ getStateObject a s' = (o', t') /\
    option_Forall2 (obj_eq (codes s)) o o' /\ codes t = codes s /\ codes t' = codes s) as Hg.
  { intros a. destruct (getStateObject_spec a s Hw) as (t & E & _ & Ht & _).
    destruct (getStateObject_spec a s' Hw') as (t' & E' & _ & Ht' & _).
    exists (peek s a), (peek s' a), t, t'. split_and!; try done; [apply (se_objects _ _ Hs)|..].
    - by apply codes_equiv.
    - rewrite (codes_equiv _ _ Ht'). symmetry. by apply codes_equiv. }
  split; try (intros a); try (by destruct Hs);
    destruct (Hg a) as (o & o' & t & t' & E & E' & Ho & Hc & Hc').
  - unfold GetBalance. rewrite E, E'. destruct Ho as [? ? []|]; done.
  - unfold GetNonce. rewrite E, E'. destruct Ho as [? ? []|]; done.
  - unfold GetCode. rewrite E, E'. destruct Ho as [x y Hxy|]; [|done].
    rewrite Hc, Hc'. destruct (object_Code_spec (codes s) x) as (c & ? & -> & Hx & _).
    destruct (object_Code_spec (codes s) y) as (c' & ? & -> & Hy & _). simpl.
    rewrite Hx, Hy. apply (oe_code _ _ _ Hxy).
  - unfold GetCodeSize. rewrite E, E'. destruct Ho as [x y Hxy|]; [|done].
    pose proof (oe_size _ _ _ Hxy) as Hz. unfold code_size in Hz. rewrite Hc, Hc'.
    destruct (code x), (code y); simpl; by rewrite Hz.
  - unfold GetCodeHash. rewrite E, E'. destruct Ho as [? ? []|]; done.
  - intros k. unfold GetState. rewrite E, E'. destruct Ho as [x y Hxy|]; [|done].
    destruct (object_GetState_spec (codes s) k x) as (? & -> & _).
    destruct (object_GetState_spec (codes s) k y) as (? & -> & _). apply (oe_current _ _ _ Hxy).
  - intros k. unfold GetCommittedState. rewrite E, E'. destruct Ho as [x y Hxy|]; [|done].
    destruct (object_GetCommittedState_spec (codes s) k x) as (? & -> & _).
    destruct (object_GetCommittedState_spec (codes s) k y) as (? & -> & _). apply (oe_committed _ _ _ Hxy).
  - unfold Exist. rewrite E, E'. by destruct Ho.
  - unfold Empty. rewrite E, E'. destruct Ho as [? ? []|]; [|done]. unfold empty. simpl. congruence.
  - unfold HasSuicided. rewrite E, E'. destruct Ho as [? ? []|]; done.
Qed.

(** ** Programs over the state *)
Inductive op :=
| OCreateAccount (a : Z) | OAddBalance (a v : Z) | OSubBalance (a v : Z) | OSetBalance (a v : Z)
| OSetNonce (a n : Z) | OSetCode (a : Z) (c : bytes) | OSetState (a k v : Z) | OSuicide (a : Z)
| OAddRefund (g : Z) | OSubRefund (g : Z) | OAddLog (l : Log) | OAddPreimage (h : Z) (p : bytes)
| OGetCode (a : Z) | OGetState (a k : Z) | OGetCommittedState (a k : Z) | OExist (a : Z)
| OSnapshot | ORevert (id : Z).

Definition exec (o : op) (s : StateDB) : res StateDB :=
  match o with
  | OCreateAccount a => Ok (CreateAccount a s)
  | OAddBalance a v => Ok (AddBalance a v s)
  | OSubBalance a v => Ok (SubBalance a v s)
  | OSetBalance a v => Ok (SetBalance a v s)
  | OSetNonce a n => Ok (SetNonce a n s)
  | OSetCode a c => Ok (SetCode a c s)
  | OSetState a k v => Ok (SetState a k v s)
  | OSuicide a => Ok (Suicide a s).2
  | OAddRefund g => Ok (AddRefund g s)
  | OSubRefund g => SubRefund g s
  | OAddLog l => Ok (AddLog l s)
  | OAddPreimage h p => Ok (AddPreimage h p s)
  | OGetCode a => Ok (GetCode a s).2
  | OGetState a k => Ok (GetState a k s).2
  | OGetCommittedState a k => Ok (GetCommittedState a k s).2
  | OExist a => Ok (Exist a s).2
  | OSnapshot => Ok (Snapshot s).2
  | ORevert id => RevertToSnapshot id s
  end.

Fixpoint exec_all (ops : list op) (s : StateDB) : res StateDB :=
  match ops with
  | [] => Ok s
  | o :: ops' => let! s := exec o s in exec_all ops' s
  end.

(** The operation returns to no snapshot before [base]. *)
Definition keeps_to (base : Z) (o : op) : bool :=
  match o with ORevert id => base <=? id | _ => true end.

Lemma exec_step base o s s' : live s -> keeps_to base o = true -> exec o s = Ok s' -> step base s s'.
Proof.
  intros Hw Hk. destruct o; cbn [exec keeps_to] in *; intros E;
    try (injection E as <-; apply step_delta;
         auto using CreateAccount_delta, AddBalance_delta, SubBalance_delta, SetBalance_delta,
           SetNonce_delta, SetCode_delta, SetState_delta, Suicide_delta, AddRefund_delta,
           AddLog_delta, AddPreimage_delta, GetCode_delta, GetState_delta,
           GetCommittedState_delta, Exist_delta; fail).
  - apply step_delta. by eapply SubRefund_delta.
  - injection E as <-. by apply step_snapshot.
  - apply (step_revert _ _ _ id); [|done]. by apply Z.leb_le.
Qed.

Lemma exec_all_steps ops s s' : wf s -> forallb (keeps_to (nextRevisionId s)) ops = true ->
  exec_all ops s = Ok s' -> steps (nextRevisionId s) s s'.
Proof.
  intros Hwf. assert (forall u es rs, since s es rs u -> forallb (keeps_to (nextRevisionId s)) ops = true ->
    exec_all ops u = Ok s' -> steps (nextRevisionId s) u s') as Hall.
  { induction ops as [|o ops IH]; intros u es rs Hsu Hk E; cbn [exec_all forallb] in *.
    { injection E as <-. apply rtc_refl. }
    apply andb_true_iff in Hk as [Hk1 Hk2]. ok E as t Et.
    pose proof (exec_step _ _ _ _ (since_live _ _ _ _ Hsu) Hk1 Et) as Hst.
    destruct (since_steps _ _ _ _ _ Hwf Hsu (rtc_once _ _ Hst)) as (es' & rs' & Ht).
    eapply rtc_l; [exact Hst|]. by apply (IH t es' rs'). }
  apply (Hall s [] []). apply since_refl. by destruct Hwf.
Qed.

(** C9: after a snapshot, any sequence of operations on the state that itself
    returns only to later snapshots can be undone: returning to the snapshot
    does not panic, and every query then answers as it did when the snapshot
    was taken. *)
Theorem snapshot_undoes_everything (s s2 : StateDB) (ops : list op) :
  wf s ->
  forallb (keeps_to (nextRevisionId s + 1)) ops = true ->
  exec_all ops (snd (Snapshot s)) = Ok s2 ->
  exists s3, RevertToSnapshot (fst (Snapshot s)) s2 = Ok s3 /\ same_answers s3 s /\ wf s3.
Proof.
  intros Hwf Hk E. pose proof (wf_snapshot s Hwf) as Hwf1.
  pose proof (exec_all_steps ops _ _ Hwf1 Hk E) as Hst.
  destruct (revert_restores s s2 Hwf Hst) as (s3 & E3 & Hs3 & Hl3 & He3 & Hv3 & Hn3 & Hlt).
  exists s3. split; [done|]. split; [by apply state_eq_answers; [|apply Hwf|]|].
  destruct Hwf. split; try done; [by rewrite He3|by rewrite Hv3|]. rewrite Hv3, He3, Hn3.
  eapply Forall_impl; [exact wf_revs0|]. simpl. intros r. lia.
Qed.

Lemma wf_New t cs : wf (New t cs).
Proof. split; [split; [done|by unfold is_u64]|constructor..]. Qed.

End with_keccak.

(** ** A state to evaluate on: two accounts, one with storage *)
Definition toy_keccak : Keccak := {| Keccak256Hash := fun bz => (7 + EthMath.be_val bz) mod 2 ^ 256 |}.

Definition toy_state : StateDB :=
  New {[ 10 := mkAccount 1 100 ∅ 7; 11 := mkAccount 0 5 {[ 1 := 42 ]} 7 ]} ∅.

Definition toy_ops : list op :=
  [ OSetState 11 1 0; OAddBalance 10 3; OSnapshot; OCreateAccount 12; OSuicide 11; ORevert 1;
    OSetCode 10 [0; 1]; OCreateAccount 10; OAddRefund 15000; OSetNonce 12 4 ].

Lemma snapshot_undoes_everything_witness :
  exists s2 s3, @exec_all toy_keccak toy_ops (snd (Snapshot toy_state)) = Ok s2 /\
    @RevertToSnapshot (fst (Snapshot toy_state)) s2 = Ok s3 /\
    @same_answers toy_keccak s3 toy_state.
Proof.
  destruct (@exec_all toy_keccak toy_ops (snd (Snapshot toy_state))) as [s2|] eqn:E.
  - destruct (@snapshot_undoes_everything toy_keccak toy_state s2 toy_ops) as (s3 & E3 & Ha & _).
    + apply wf_New.
    + vm_compute. reflexivity.
    + exact E.
    + exists s2, s3. exact (conj eq_refl (conj E3 Ha)).
  - vm_compute in E. discriminate E.
Defined.

End StateRevert.
