(* ===== verification/Rlp.v ===== *)
(** * eth/rlp: the recursive length prefix encoding

    encode.go writes the strings of a value to one buffer and remembers where
    list headers belong; the headers are put in at the end, when the sizes are
    known.  decode.go reads a value from a [Stream] that tracks how much of
    the enclosing lists is left.  raw.go splits encoded values.  The values are
    those the writers tell apart; a decoded value is what [decodeInterface]
    builds, byte strings and lists. *)
From S2P Require Import Prelude Wire EthMath.

Module Rlp.

Abbreviation be_bytes := Wire.be_bytes.
Abbreviation be_val := Wire.be_val.
Abbreviation len := (fun bz : bytes => Z.of_nat (length bz)).

(** What the writers of encode.go distinguish. *)
Inductive value :=
| VBytes (b : bytes)          (* writeBytes, writeByteArray, writeString *)
| VUint (i : Z)               (* writeUint *)
| VBool (b : bool)            (* writeBool *)
| VBigInt (i : Z)             (* writeBigInt *)
| VRaw (b : bytes)            (* writeRawValue *)
| VNil                        (* writeInterface on a nil interface *)
| VList (l : list value).     (* slices, arrays and structs *)

(** ** encode.go *)

(** The number of bytes [putint] writes. *)
Definition putint_size (i : Z) : nat :=
  if i <? 2 ^ 8 then 1 else if i <? 2 ^ 16 then 2 else if i <? 2 ^ 24 then 3
  else if i <? 2 ^ 32 then 4 else if i <? 2 ^ 40 then 5 else if i <? 2 ^ 48 then 6
  else if i <? 2 ^ 56 then 7 else 8%nat.
Definition putint (i : Z) : bytes := be_bytes (putint_size i) i.

(** The loop of [intsize]; a [uint64] is zero after eight shifts. *)
Fixpoint intsize_loop (fuel size : nat) (i : Z) : nat :=
  match fuel with
  | O => size
  | S fuel' => let i := Z.shiftr i 8 in if i =? 0 then size else intsize_loop fuel' (S size) i
  end.
Definition intsize (i : Z) : nat := intsize_loop 8 1 i.

Definition headsize (size : Z) : nat := if size <? 56 then 1 else (1 + intsize size)%nat.

Definition puthead (smalltag largetag size : Z) : bytes :=
  if size <? 56 then [u8 (smalltag + size)]
  else u8 (largetag + Z.of_nat (length (putint size))) :: putint size.

Record listhead := mkHead { offset : nat; hsize : nat }.

Definition listhead_encode (h : listhead) : bytes := puthead 0xC0 0xF7 (Z.of_nat (hsize h)).

Record encbuf := mkBuf { str : bytes; lheads : list listhead; lhsize : nat }.

Definition emptybuf : encbuf := mkBuf [] [] 0.

Definition app_str (b : bytes) (w : encbuf) : encbuf := mkBuf (str w ++ b) (lheads w) (lhsize w).

Definition size (w : encbuf) : nat := (length (str w) + lhsize w)%nat.

Definition encodeStringHeader (n : Z) (w : encbuf) : encbuf :=
  if n <? 56 then app_str [u8 (0x80 + n)] w
  else app_str (u8 (0xB7 + Z.of_nat (length (putint n))) :: putint n) w.

Definition single (b : bytes) : bool :=
  match b with [x] => x <=? 0x7F | _ => false end.

Definition encodeString (b : bytes) (w : encbuf) : encbuf :=
  if single b then app_str b w else app_str b (encodeStringHeader (len b) w).

(** [list] returns the index of the header, a pointer in the code. *)
Definition list_start (w : encbuf) : nat * encbuf :=
  (length (lheads w), mkBuf (str w) (lheads w ++ [mkHead (length (str w)) (lhsize w)]) (lhsize w)).

Definition listEnd (lh : nat) (w : encbuf) : res encbuf :=
  let! h := deref (lheads w !! lh) in
  let n := (size w - offset h - hsize h)%nat in
  Ok (mkBuf (str w) (<[lh := mkHead (offset h) n]> (lheads w))
        (if Z.of_nat n <? 56 then S (lhsize w) else (lhsize w + (1 + intsize (Z.of_nat n)))%nat)).

Definition writeUint (i : Z) (w : encbuf) : encbuf :=
  if i =? 0 then app_str [0x80] w
  else if i <? 128 then app_str [u8 i] w
  else app_str (u8 (0x80 + Z.of_nat (length (putint i))) :: putint i) w.

(** The writers; [None] is the error of a negative integer. *)
Fixpoint write (v : value) (w : encbuf) : res (option encbuf) :=
  match v with
  | VBytes b => Ok (Some (encodeString b w))
  | VUint i => Ok (Some (writeUint i w))
  | VBool b => Ok (Some (app_str [if b then 0x01 else 0x80] w))
  | VBigInt i =>
      Ok (if i <? 0 then None
          else if i =? 0 then Some (app_str [0x80] w) else Some (encodeString (EthMath.Bytes i) w))
  | VRaw b => Ok (Some (app_str b w))
  | VNil => Ok (Some (app_str [0xC0] w))
  | VList l =>
      let '(lh, w) := list_start w in
      let! ow := (fix write_all (l : list value) (w : encbuf) : res (option encbuf) :=
        match l with
        | [] => Ok (Some w)
        | v :: l' =>
            let! ow := write v w in
            match ow with Some w => write_all l' w | None => Ok None end
        end) l w in
      match ow with
      | Some w => let! w := listEnd lh w in Ok (Some w)
      | None => Ok None
      end
  end.

(** [toBytes]: [copy(out[pos:], ...)] of the strings between the headers and
    of the headers, into a slice of the final size. *)
Definition copy_at (dst : bytes) (pos : nat) (src : bytes) : bytes := Wire.copy_at dst pos src.

Definition put_head (out : bytes) (pos : nat) (h : listhead) : res (bytes * nat) :=
  let enc := listhead_encode h in
  if (length out <? pos + length enc)%nat then Panic
  else Ok (copy_at out pos enc, (pos + length enc)%nat).

Fixpoint copy_heads (hs : list listhead) (s : bytes) (out : bytes) (pos strpos : nat) : res (bytes * nat * nat) :=
  match hs with
  | [] => Ok (out, pos, strpos)
  | h :: hs' =>
      let! seg := go_slice s (Z.of_nat strpos) (Z.of_nat (offset h)) in
      let out := copy_at out pos seg in
      let n := (length seg `min` (length out - pos))%nat in
      let! (out, pos) := put_head out (pos + n) h in
      copy_heads hs' s out pos (strpos + n)
  end.

Definition toBytes (w : encbuf) : res bytes :=
  let! (out, pos, strpos) := copy_heads (lheads w) (str w) (replicate (size w) 0) 0 0 in
  let! seg := go_slice (str w) (Z.of_nat strpos) (len (str w)) in
  Ok (copy_at out pos seg).

Definition EncodeToBytes (v : value) : res (option bytes) :=
  let! ow := write v emptybuf in
  match ow with
  | None => Ok None
  | Some w => let! b := toBytes w in Ok (Some b)
  end.

(** ** The reference encoding *)
Definition head_bytes (smalltag largetag : Z) (n : nat) : bytes :=
  puthead smalltag largetag (Z.of_nat n).

Definition enc_string (b : bytes) : bytes :=
  if single b then b else head_bytes 0x80 0xB7 (length b) ++ b.

Definition enc_list (payload : bytes) : bytes := head_bytes 0xC0 0xF7 (length payload) ++ payload.

Fixpoint enc (v : value) : bytes :=
  match v with
  | VBytes b => enc_string b
  | VUint i | VBigInt i => enc_string (if i =? 0 then [] else EthMath.Bytes i)
  | VBool b => enc_string (if b then [1] else [])
  | VRaw b => b
  | VNil => enc_list []
  | VList l => enc_list (concat (map enc l))
  end.

(** Integers that the writers accept. *)
Fixpoint encodable (v : value) : bool :=
  match v with
  | VUint i => (0 <=? i) && (i <? 2 ^ 64)
  | VBigInt i => 0 <=? i
  | VList l => forallb encodable l
  | _ => true
  end.

(** ** Sizes *)
Ltac byte_case := match goal with |- context [?a <? ?b] => destruct (Z.ltb_spec a b) end.

Lemma putint_size_bitlen i : 0 < i < 2 ^ 64 -> putint_size i = Z.to_nat ((EthMath.BitLen i + 7) / 8).
Proof.
  intros Hi. pose proof (fun k Hk => EthMath.BitLen_le i k ltac:(lia) Hk) as Hb.
  pose proof (Hb 8 ltac:(lia)). pose proof (Hb 16 ltac:(lia)). pose proof (Hb 24 ltac:(lia)).
  pose proof (Hb 32 ltac:(lia)). pose proof (Hb 40 ltac:(lia)). pose proof (Hb 48 ltac:(lia)).
  pose proof (Hb 56 ltac:(lia)). pose proof (Hb 64 ltac:(lia)). pose proof (Hb 0 ltac:(lia)).
  unfold putint_size. repeat byte_case; Z.div_mod_to_equations; lia.
Qed.

Lemma putint_Bytes i : 0 < i < 2 ^ 64 -> putint i = EthMath.Bytes i.
Proof.
  intros Hi. unfold putint, EthMath.Bytes. rewrite putint_size_bitlen by done.
  by rewrite Z.abs_eq by lia.
Qed.

Lemma putint_length i : length (putint i) = putint_size i.
Proof. apply Wire.be_bytes_length. Qed.

Lemma putint_size_range i : (1 <= putint_size i <= 8)%nat.
Proof. unfold putint_size. repeat byte_case; lia. Qed.

Lemma intsize_putint i : 0 <= i < 2 ^ 64 -> intsize i = putint_size i.
Proof.
  intros Hi. unfold intsize, putint_size. cbn [intsize_loop].
  rewrite !Z.shiftr_shiftr by lia. rewrite !Z.shiftr_div_pow2 by lia.
  cbn [Z.add Pos.add Pos.succ].
  assert (forall k, 0 <= k -> (i / 2 ^ k =? 0) = (i <? 2 ^ k)) as Hk.
  { intros k Hk. assert (0 < 2 ^ k) by (apply Z.pow_pos_nonneg; lia).
    destruct (Z.ltb_spec i (2 ^ k)).
    - apply Z.eqb_eq. apply Z.div_small. lia.
    - apply Z.eqb_neq. pose proof (Z.div_str_pos i (2 ^ k)). lia. }
  rewrite !Hk by lia. repeat byte_case; lia.
Qed.

Lemma puthead_length a b n : 0 <= n < 2 ^ 64 ->
  length (puthead a b n) = if n <? 56 then 1%nat else (1 + intsize n)%nat.
Proof.
  intros Hn. unfold puthead. destruct (n <? 56); [done|]. cbn [length].
  by rewrite putint_length, intsize_putint.
Qed.

Definition hlen (hs : list listhead) : nat := sum_list (map (fun h => length (listhead_encode h)) hs).

Lemma hlen_app hs hs' : hlen (hs ++ hs') = (hlen hs + hlen hs')%nat.
Proof. unfold hlen. rewrite map_app, sum_list_with_app. done. Qed.

(** ** Putting the headers in *)

(** The string [s], which starts at position [base] of the buffer, with the
    headers [hs] in their places. *)
Fixpoint render (hs : list listhead) (s : bytes) (base : nat) : bytes :=
  match hs with
  | [] => s
  | h :: hs' =>
      take (offset h - base) s ++ listhead_encode h ++ render hs' (drop (offset h - base) s) (offset h)
  end.

(** The headers are in order, between [base] and [hi]. *)
Fixpoint in_order (hs : list listhead) (base hi : nat) : Prop :=
  match hs with
  | [] => (base <= hi)%nat
  | h :: hs' => (base <= offset h)%nat /\ in_order hs' (offset h) hi
  end.

Lemma in_order_le hs base hi : in_order hs base hi -> (base <= hi)%nat.
Proof. revert base. induction hs as [|h hs IH]; intros base; simpl; [done|]. intros [? ?%IH]. lia. Qed.

Lemma in_order_app hs hs' base mid hi :
  in_order hs base mid -> in_order hs' mid hi -> in_order (hs ++ hs') base hi.
Proof.
  revert base. induction hs as [|h hs IH]; intros base; simpl.
  - intros Hle. destruct hs'; simpl; [lia|]. intros [? ?]. split; [lia|done].
  - intros [? ?] ?. split; [done|]. by apply IH.
Qed.

Lemma render_app hs hs' s s' base :
  in_order hs base (base + length s) -> in_order hs' (base + length s) (base + length s + length s') ->
  render (hs ++ hs') (s ++ s') base = render hs s base ++ render hs' s' (base + length s).
Proof.
  revert base s. induction hs as [|h hs IH]; intros base s Ho Ho'; cbn [app render].
  - destruct hs' as [|h' hs']; [done|]. cbn [render]. destruct Ho' as [Hle Ho'].
    rewrite take_app_ge, drop_app_ge by lia. rewrite <- app_assoc.
    replace (offset h' - base - length s)%nat with (offset h' - (base + length s))%nat by lia. done.
  - destruct Ho as [Hle Ho]. pose proof (in_order_le _ _ _ Ho) as Hle'.
    rewrite take_app_le, drop_app_le by lia. rewrite <- !app_assoc. do 2 f_equal.
    assert (base + length s = offset h + length (drop (offset h - base) s))%nat as E.
    { rewrite length_drop. lia. }
    rewrite E in *. by apply IH.
Qed.

Lemma length_render hs s base : in_order hs base (base + length s) ->
  length (render hs s base) = (length s + hlen hs)%nat.
Proof.
  revert base s. induction hs as [|h hs IH]; intros base s Ho; cbn [render].
  { unfold hlen. simpl. lia. }
  destruct Ho as [Hle Ho]. pose proof (in_order_le _ _ _ Ho) as Hle'.
  assert (base + length s = offset h + length (drop (offset h - base) s))%nat as E.
  { rewrite length_drop. lia. }
  rewrite !length_app, IH by (by rewrite <- E). rewrite length_take, length_drop.
  unfold hlen. simpl. lia.
Qed.

Lemma copy_at_zeros pre seg k :
  copy_at (pre ++ replicate (length seg + k) 0) (length pre) seg = (pre ++ seg) ++ replicate k 0.
Proof.
  unfold copy_at, Wire.copy_at. rewrite length_app, length_replicate.
  replace (length seg `min` _)%nat with (length seg) by lia.
  rewrite take_app_length, (take_ge seg) by lia. rewrite <- app_assoc. do 2 f_equal.
  rewrite drop_app_ge by lia. replace (length pre + length seg - length pre)%nat with (length seg) by lia.
  rewrite replicate_add, drop_app_ge by (rewrite length_replicate; lia).
  rewrite length_replicate, Nat.sub_diag. done.
Qed.

Lemma go_slice_nat (s : bytes) (lo hi : nat) : (lo <= hi <= length s)%nat ->
  go_slice s (Z.of_nat lo) (Z.of_nat hi) = Ok (take (hi - lo) (drop lo s)).
Proof.
  intros Hl. unfold go_slice. rewrite !(proj2 (Z.ltb_ge _ _)) by lia. cbn [orb].
  by replace (Z.to_nat (Z.of_nat hi - Z.of_nat lo)) with (hi - lo)%nat by lia; rewrite Nat2Z.id.
Qed.

(** The copying loop and the last copy write the rendered bytes. *)
Lemma copy_heads_spec hs s pre strpos :
  in_order hs strpos (length s) -> (strpos <= length s)%nat ->
  rbind (copy_heads hs s (pre ++ replicate (length (render hs (drop strpos s) strpos)) 0) (length pre) strpos)
    (fun '(out, pos, strpos) => let! seg := go_slice s (Z.of_nat strpos) (len s) in Ok (copy_at out pos seg))
  = Ok (pre ++ render hs (drop strpos s) strpos).
Proof.
  revert pre strpos. induction hs as [|h hs IH]; intros pre strpos Ho Hs; cbn [copy_heads render].
  { cbn [rbind]. rewrite go_slice_nat by lia. cbn [rbind].
    rewrite take_ge by (rewrite length_drop; lia).
    rewrite <- (Nat.add_0_r (length (drop strpos s))), copy_at_zeros. by rewrite app_nil_r. }
  destruct Ho as [Hle Ho]. pose proof (in_order_le _ _ _ Ho) as Hle'.
  rewrite go_slice_nat by lia. cbn [rbind].
  set (seg := take (offset h - strpos) (drop strpos s)).
  assert (length seg = offset h - strpos)%nat as Hseg by (unfold seg; rewrite length_take, length_drop; lia).
  rewrite drop_drop. replace (strpos + (offset h - strpos))%nat with (offset h) by lia.
  set (tl := render hs (drop (offset h) s) (offset h)).
  rewrite !length_app. rewrite copy_at_zeros, length_app, length_app, length_replicate, Hseg.
  replace ((offset h - strpos) `min` _)%nat with (offset h - strpos)%nat by lia.
  replace (strpos + (offset h - strpos))%nat with (offset h) by lia.
  unfold put_head. rewrite !length_app, length_replicate.
  rewrite (proj2 (Nat.ltb_ge _ _)) by lia. cbn [rbind].
  replace (length pre + (offset h - strpos))%nat with (length (pre ++ seg)) by (rewrite length_app; lia).
  rewrite copy_at_zeros. rewrite <- length_app.
  unfold tl. rewrite IH by (done || lia). by rewrite <- !app_assoc.
Qed.

Lemma toBytes_spec w : in_order (lheads w) 0 (length (str w)) -> lhsize w = hlen (lheads w) ->
  toBytes w = Ok (render (lheads w) (str w) 0).
Proof.
  intros Ho Hl. unfold toBytes.
  assert (size w = length (render (lheads w) (drop 0 (str w)) 0)) as ->.
  { rewrite drop_0, length_render by done. unfold size. lia. }
  apply (copy_heads_spec (lheads w) (str w) [] 0); [done|lia].
Qed.

(** ** The writers append the reference encoding *)
Section value_induction.
Variable P : value -> Prop.
Hypothesis HBytes : forall b, P (VBytes b).
Hypothesis HUint : forall i, P (VUint i).
Hypothesis HBool : forall b, P (VBool b).
Hypothesis HBigInt : forall i, P (VBigInt i).
Hypothesis HRaw : forall b, P (VRaw b).
Hypothesis HNil : P VNil.
Hypothesis HList : forall l, Forall P l -> P (VList l).

Fixpoint value_deep_ind (v : value) : P v :=
  match v with
  | VBytes b => HBytes b
  | VUint i => HUint i
  | VBool b => HBool b
  | VBigInt i => HBigInt i
  | VRaw b => HRaw b
  | VNil => HNil
  | VList l =>
      HList l ((fix all (l : list value) : Forall P l :=
        match l with [] => Forall_nil_2 _ | v :: l' => Forall_cons_2 _ _ _ (value_deep_ind v) (all l') end) l)
  end.
End value_induction.

Fixpoint write_all (l : list value) (w : encbuf) : res (option encbuf) :=
  match l with
  | [] => Ok (Some w)
  | v :: l' =>
      let! ow := write v w in
      match ow with Some w => write_all l' w | None => Ok None end
  end.

Lemma write_list l w :
  write (VList l) w =
  (let '(lh, w) := list_start w in
   let! ow := write_all l w in
   match ow with
   | Some w => let! w := listEnd lh w in Ok (Some w)
   | None => Ok None
   end).
Proof. done. Qed.

(** [w'] is [w] with the encoding [b] after it. *)
Definition appended (b : bytes) (w w' : encbuf) : Prop :=
  exists s hs, str w' = str w ++ s /\ lheads w' = lheads w ++ hs /\
    lhsize w' = (lhsize w + hlen hs)%nat /\
    in_order hs (length (str w)) (length (str w) + length s) /\
    render hs s (length (str w)) = b.

Lemma appended_str b w : appended b w (app_str b w).
Proof.
  exists b, []. unfold hlen. simpl. rewrite app_nil_r. split_and!; [done|done|lia|lia|done].
Qed.

Lemma appended_trans b1 b2 w w1 w2 : appended b1 w w1 -> appended b2 w1 w2 -> appended (b1 ++ b2) w w2.
Proof.
  intros (s1 & hs1 & E1 & L1 & H1 & O1 & R1) (s2 & hs2 & E2 & L2 & H2 & O2 & R2).
  rewrite E1, length_app in O2, R2.
  exists (s1 ++ s2), (hs1 ++ hs2). rewrite hlen_app. split_and!.
  - by rewrite E2, E1, app_assoc.
  - by rewrite L2, L1, app_assoc.
  - lia.
  - rewrite length_app, Nat.add_assoc. by apply (in_order_app _ _ _ (length (str w) + length s1)).
  - rewrite render_app by done. by rewrite R1, R2.
Qed.

Lemma appended_length b w w' : appended b w w' -> (size w' = size w + length b)%nat.
Proof.
  intros (s & hs & E & L & H & O & R). rewrite <- R, length_render by done.
  unfold size. rewrite E, H, length_app. lia.
Qed.

Lemma encodeString_spec b w : appended (enc_string b) w (encodeString b w).
Proof.
  unfold encodeString, enc_string. destruct (single b); [apply appended_str|].
  unfold encodeStringHeader, head_bytes, puthead.
  destruct (len b <? 56); eapply appended_trans; apply appended_str.
Qed.

Lemma Bytes_small i : 0 < i < 128 -> EthMath.Bytes i = [i].
Proof.
  intros Hi. rewrite <- putint_Bytes by lia. unfold putint, putint_size.
  rewrite (proj2 (Z.ltb_lt _ _)) by lia. cbn [Wire.be_bytes]. simpl. rewrite Z.div_1_r.
  rewrite Z.mod_small by lia. done.
Qed.

Lemma writeUint_spec i w : 0 <= i < 2 ^ 64 ->
  appended (enc_string (if i =? 0 then [] else EthMath.Bytes i)) w (writeUint i w).
Proof.
  intros Hi. unfold writeUint. destruct (Z.eqb_spec i 0) as [->|Hne]; [apply appended_str|].
  destruct (Z.ltb_spec i 128).
  - rewrite Bytes_small by lia. unfold enc_string, single.
    rewrite (proj2 (Z.leb_le _ _)) by lia. unfold u8. rewrite Z.mod_small by lia. apply appended_str.
  - rewrite <- putint_Bytes by lia. unfold enc_string.
    assert (single (putint i) = false) as ->.
    { unfold putint, putint_size. destruct (Z.ltb_spec i (2 ^ 8)).
      - cbn [Wire.be_bytes]. simpl. rewrite Z.div_1_r, Z.mod_small by lia. apply Z.leb_gt. lia.
      - repeat byte_case; done. }
    unfold head_bytes, puthead. rewrite putint_length.
    pose proof (putint_size_range i). rewrite (proj2 (Z.ltb_lt _ _)) by lia. apply appended_str.
Qed.

Lemma listEnd_spec payload w w2 : len payload < 2 ^ 64 ->
  appended payload (list_start w).2 w2 ->
  exists w3, listEnd (list_start w).1 w2 = Ok w3 /\ appended (enc_list payload) w w3.
Proof.
  intros Hp Happ. pose proof (appended_length _ _ _ Happ) as Hlen.
  destruct Happ as (s & hs & E & L & H & O & R). cbn [list_start fst snd str lheads lhsize] in *.
  unfold size in Hlen. cbn [str lhsize] in Hlen.
  unfold listEnd. rewrite L, <- app_assoc. cbn [app].
  rewrite list_lookup_middle by done. cbn [deref rbind offset hsize]. eexists. split; [done|].
  replace (size w2 - length (str w) - lhsize w)%nat with (length payload) by (unfold size; lia).
  exists s, (mkHead (length (str w)) (length payload) :: hs). cbn [str lheads lhsize]. split_and!.
  - done.
  - rewrite insert_app_r_alt by lia. by rewrite Nat.sub_diag.
  - unfold hlen. cbn [map sum_list]. fold (hlen hs). unfold listhead_encode at 1. cbn [hsize].
    rewrite puthead_length by lia. destruct (_ <? 56); rewrite H; unfold sum_list; simpl; lia.
  - split; [simpl; lia|]. done.
  - cbn [render offset]. rewrite Nat.sub_diag, drop_0, R. done.
Qed.

Lemma length_concat_elem (l : list bytes) b : b ∈ l -> (length b <= length (concat l))%nat.
Proof.
  induction l as [|x l IH]; intros Hb; [by apply not_elem_of_nil in Hb|].
  simpl. rewrite length_app. apply elem_of_cons in Hb as [->|Hb]; [lia|]. specialize (IH Hb). lia.
Qed.

Lemma enc_list_length p : (length p <= length (enc_list p))%nat.
Proof. unfold enc_list. rewrite length_app. lia. Qed.

Lemma write_spec v : encodable v = true -> len (enc v) < 2 ^ 64 ->
  forall w, exists w', write v w = Ok (Some w') /\ appended (enc v) w w'.
Proof.
  induction v as [b|i|b|i|b| |l IH] using value_deep_ind; intros He Hl w; cbn [write encodable] in *.
  - eexists. split; [done|]. apply encodeString_spec.
  - eexists. split; [done|]. apply writeUint_spec. apply andb_true_iff in He as [? ?]. lia.
  - eexists. split; [done|]. destruct b; apply appended_str.
  - apply Z.leb_le in He. rewrite (proj2 (Z.ltb_ge _ _)) by done. cbn [enc].
    destruct (i =? 0); (eexists; split; [done|]); [apply appended_str|apply encodeString_spec].
  - eexists. split; [done|]. apply appended_str.
  - eexists. split; [done|]. apply appended_str.
  - change (exists w', write (VList l) w = Ok (Some w') /\ appended (enc (VList l)) w w').
    rewrite write_list. cbn [enc] in *.
    assert (len (concat (map enc l)) < 2 ^ 64) as Hp.
    { pose proof (enc_list_length (concat (map enc l))). lia. }
    assert (forall w, exists w', write_all l w = Ok (Some w') /\ appended (concat (map enc l)) w w') as Hall.
    { clear Hl w. induction IH as [|v l Hv Hvs IHl]; intros w; cbn [write_all map concat forallb] in *.
      - exists w. split; [done|]. exists [], []. unfold hlen. simpl. rewrite !app_nil_r.
        split_and!; [done|done|lia|lia|done].
      - apply andb_true_iff in He as [He1 He2]. rewrite length_app in Hp.
        destruct (Hv He1 ltac:(lia) w) as (w1 & -> & A1). cbn [rbind].
        destruct (IHl He2 ltac:(lia) w1) as (w2 & -> & A2).
        exists w2. split; [done|]. by apply (appended_trans _ _ _ w1). }
    destruct (Hall (list_start w).2) as (w2 & E2 & A2).
    destruct (listEnd_spec _ _ _ Hp A2) as (w3 & E3 & A3).
    exists w3. destruct (list_start w) as [lh w1]. cbn [fst snd] in *. rewrite E2. cbn [rbind]. rewrite E3. done.
Qed.

Lemma head_bytes_le a b n : Z.of_nat n < 2 ^ 64 -> (length (head_bytes a b n) <= 9)%nat.
Proof.
  intros Hn. unfold head_bytes. rewrite puthead_length by lia. rewrite intsize_putint by lia.
  pose proof (putint_size_range (Z.of_nat n)). destruct (_ <? _); lia.
Qed.

Lemma enc_string_length b : Z.of_nat (length b) < 2 ^ 64 -> (length (enc_string b) <= length b + 9)%nat.
Proof.
  intros Hb. unfold enc_string. destruct (single b); [lia|]. rewrite length_app.
  pose proof (head_bytes_le 0x80 0xB7 (length b) Hb). lia.
Qed.

Lemma enc_list_le p : Z.of_nat (length p) < 2 ^ 64 -> (length (enc_list p) <= length p + 9)%nat.
Proof. intros Hp. unfold enc_list. rewrite length_app. pose proof (head_bytes_le 0xC0 0xF7 (length p) Hp). lia. Qed.

Lemma EncodeToBytes_spec v : encodable v = true -> len (enc v) < 2 ^ 64 -> EncodeToBytes v = Ok (Some (enc v)).
Proof.
  intros He Hl. unfold EncodeToBytes.
  destruct (write_spec v He Hl emptybuf) as (w & -> & s & hs & E & L & H & O & R). cbn [rbind].
  cbn [emptybuf str lheads lhsize app length] in *.
  rewrite toBytes_spec; rewrite ?L, ?E; [|done|done]. cbn [rbind]. by rewrite R.
Qed.


Definition sample : value :=
  VList [VBytes [1; 2; 3]; VList [VUint 1024; VList []; VBigInt 0]; VBytes (replicate 60 7); VBool true].


End Rlp.
