(* ===== verification/RlpDecode.v ===== *)
(** * eth/rlp/decode.go: reading values from a stream

    A [Stream] over a [bytes.Reader] with its input limit.  The stack holds,
    for every open list, how much of it was read.  [decodeInterface] is the
    decoder of an [interface{}]: it builds byte strings and lists. *)
From S2P Require Import Prelude Wire EthMath Rlp.

Module RlpDecode.
Import Rlp.

Inductive rlperr :=
| EOL | ErrExpectedString | ErrExpectedList | ErrCanonInt | ErrCanonSize | ErrElemTooLarge
| ErrValueTooLarge | ErrMoreThanOneValue | errNotInList | errNotAtEOL | errUintOverflow
| io_EOF | io_ErrUnexpectedEOF
| too_few_elements | input_string_length
| decodeError (e : rlperr)   (* wrapStreamError *)
| starved.                   (* the model ran out of fuel; shown not to happen *)

#[export] Instance rlperr_eq_dec : EqDecision rlperr.
Proof. solve_decision. Defined.

Inductive Kind := Byte | String | List.

#[export] Instance Kind_eq_dec : EqDecision Kind.
Proof. solve_decision. Defined.

Record Stream := mkStream {
  r : bytes;                    (* what the reader has left *)
  remaining : Z;
  limited : bool;
  kind : option Kind;           (* None is -1 *)
  ksize : Z;
  byteval : Z;
  kinderr : option rlperr;
  stack : list (Z * Z)          (* (pos, size), innermost list first *)
}.

(** ** A state monad with errors *)
Definition M (A : Type) : Type := Stream -> (rlperr + A) * Stream.
Definition mret {A} (a : A) : M A := fun s => (inr a, s).
Definition mfail {A} (e : rlperr) : M A := fun s => (inl e, s).
Definition mbind {A B} (m : M A) (k : A -> M B) : M B :=
  fun s => match m s with (inr a, s) => k a s | (inl e, s) => (inl e, s) end.
Notation "x <- m ; k" := (mbind m (fun x => k)) (at level 100, m at next level, right associativity).

Definition rearm (s : Stream) : Stream :=
  mkStream (r s) (remaining s) (limited s) None (ksize s) (byteval s) (kinderr s) (stack s).
Definition set_stack (st : list (Z * Z)) (s : Stream) : Stream :=
  mkStream (r s) (remaining s) (limited s) (kind s) (ksize s) (byteval s) (kinderr s) st.
Definition set_input (bz : bytes) (s : Stream) : Stream :=
  mkStream bz (remaining s) (limited s) (kind s) (ksize s) (byteval s) (kinderr s) (stack s).
Definition set_remaining (n : Z) (s : Stream) : Stream :=
  mkStream (r s) n (limited s) (kind s) (ksize s) (byteval s) (kinderr s) (stack s).
Definition set_kind (k : Kind) (n : Z) (e : option rlperr) (s : Stream) : Stream :=
  mkStream (r s) (remaining s) (limited s) (Some k) n (byteval s) e (stack s).
Definition set_byteval (b : Z) (s : Stream) : Stream :=
  mkStream (r s) (remaining s) (limited s) (kind s) (ksize s) b (kinderr s) (stack s).
Definition set_size (n : Z) (s : Stream) : Stream :=
  mkStream (r s) (remaining s) (limited s) (kind s) n (byteval s) (kinderr s) (stack s).

Definition willRead (n : Z) : M unit := fun s =>
  let s := rearm s in
  let limit (s : Stream) :=
    if limited s then
      if n >? remaining s then (inl ErrValueTooLarge, s)
      else (inr tt, set_remaining (u64 (remaining s - n)) s)
    else (inr tt, s) in
  match stack s with
  | [] => limit s
  | (pos, sz) :: st =>
      if n >? u64 (sz - pos) then (inl ErrElemTooLarge, s)
      else limit (set_stack ((u64 (pos + n), sz) :: st) s)
  end.

Definition readByte : M Z := fun s =>
  match willRead 1 s with
  | (inl e, s) => (inl e, s)
  | (inr _, s) =>
      match r s with
      | [] => (inl io_ErrUnexpectedEOF, s)
      | b :: bz => (inr b, set_input bz s)
      end
  end.

(** [readFull] into a buffer of [n] bytes. *)
Definition readFull (n : Z) : M bytes := fun s =>
  match willRead n s with
  | (inl e, s) => (inl e, s)
  | (inr _, s) =>
      if len (r s) <? n then (inl io_ErrUnexpectedEOF, set_input [] s)
      else (inr (take (Z.to_nat n) (r s)), set_input (drop (Z.to_nat n) (r s)) s)
  end.

(** Sizes are of at most eight bytes. *)
Definition readUint (n : Z) : M Z :=
  if n =? 0 then fun s => (inr 0, rearm s)
  else if n =? 1 then readByte
  else
    buf <- readFull n;
    match buf with
    | 0 :: _ => mfail ErrCanonSize
    | _ => mret (be_val buf)
    end.

(** A long form of a size below 56 is refused. *)
Definition read_size (k : Kind) (n : Z) : M (Kind * Z) :=
  size <- readUint n;
  if size <? 56 then mfail ErrCanonSize else mret (k, size).

Definition readKind : M (Kind * Z) := fun s =>
  match readByte s with
  | (inl e, s) =>
      (inl (match stack s with
            | [] => match e with io_ErrUnexpectedEOF | ErrValueTooLarge => io_EOF | _ => e end
            | _ => e
            end), s)
  | (inr b, s) =>
      let s := set_byteval 0 s in
      if b <? 0x80 then (inr (Byte, 0), set_byteval b s)
      else if b <? 0xB8 then (inr (String, b - 0x80), s)
      else if b <? 0xC0 then read_size String (b - 0xB7) s
      else if b <? 0xF8 then (inr (List, b - 0xC0), s)
      else read_size List (b - 0xF7) s
  end.

(** [Kind] keeps what it read, and the error it met, until the value is read. *)
Definition Kind_ : M (Kind * Z) := fun s =>
  match kind s with
  | Some k => (match kinderr s with Some e => inl e | None => inr (k, ksize s) end, s)
  | None =>
      match stack s with
      | (pos, sz) :: _ =>
          if pos =? sz then (inl EOL, s)
          else
            match readKind s with
            | (inl e, s) => (inl e, set_kind Byte 0 (Some e) s)
            | (inr (k, n), s) =>
                match stack s with
                | (pos, sz) :: _ =>
                    if n >? u64 (sz - pos) then (inl ErrElemTooLarge, set_kind k n (Some ErrElemTooLarge) s)
                    else (inr (k, n), set_kind k n None s)
                | [] => (inr (k, n), set_kind k n None s)
                end
            end
      | [] =>
          match readKind s with
          | (inl e, s) => (inl e, set_kind Byte 0 (Some e) s)
          | (inr (k, n), s) =>
              if limited s && (n >? remaining s) then (inl ErrValueTooLarge, set_kind k n (Some ErrValueTooLarge) s)
              else (inr (k, n), set_kind k n None s)
          end
      end
  end.

Definition Bytes : M bytes :=
  kn <- Kind_;
  match kn with
  | (Byte, _) => fun s => (inr [byteval s], rearm s)
  | (String, n) =>
      b <- readFull n;
      match b with
      | [x] => if x <? 128 then mfail ErrCanonSize else mret b
      | _ => mret b
      end
  | (List, _) => mfail ErrExpectedString
  end.

(** [Uint] and [uint(maxbits)]. *)
Definition uint (maxbits : Z) : M Z :=
  kn <- Kind_;
  match kn with
  | (Byte, _) => fun s => if byteval s =? 0 then (inl ErrCanonInt, s) else (inr (byteval s), rearm s)
  | (String, n) =>
      if n >? maxbits / 8 then mfail errUintOverflow
      else fun s =>
        match readUint n s with
        | (inl ErrCanonSize, s) => (inl ErrCanonInt, s)
        | (inl e, s) => (inl e, s)
        | (inr v, s) => if (0 <? n) && (v <? 128) then (inl ErrCanonSize, s) else (inr v, s)
        end
  | (List, _) => mfail ErrExpectedString
  end.

Definition List_ : M Z :=
  kn <- Kind_;
  match kn with
  | (List, n) => fun s => (inr n, set_size 0 (rearm (set_stack ((0, n) :: stack s) s)))
  | _ => mfail ErrExpectedList
  end.

Definition ListEnd : M unit := fun s =>
  match stack s with
  | [] => (inl errNotInList, s)
  | (pos, sz) :: st =>
      if negb (pos =? sz) then (inl errNotAtEOL, s)
      else
        let st := match st with (p, z) :: st' => (u64 (p + sz), z) :: st' | [] => [] end in
        (inr tt, set_size 0 (rearm (set_stack st s)))
  end.

(** ** Decoding into an [interface{}] *)
Inductive item := IBytes (b : bytes) | IList (l : list item).

Definition wrapStreamError (e : rlperr) : rlperr :=
  match e with
  | ErrCanonInt | ErrCanonSize | ErrExpectedList | ErrExpectedString | errUintOverflow | errNotAtEOL => decodeError e
  | _ => e
  end.

Section elems.
Variable elemdec : M item.

(** [decodeSliceElems] stops at the end of the list. *)
Fixpoint decodeSliceElems (fuel : nat) : M (list item) := fun s =>
  match fuel with
  | O => (inl starved, s)
  | S fuel' =>
      match elemdec s with
      | (inl EOL, s) => (inr [], s)
      | (inl e, s) => (inl e, s)
      | (inr v, s) =>
          match decodeSliceElems fuel' s with
          | (inr vs, s) => (inr (v :: vs), s)
          | (inl e, s) => (inl e, s)
          end
      end
  end.

Definition decodeListSlice (fuel : nat) : M (list item) := fun s =>
  match List_ s with
  | (inl e, s) => (inl (wrapStreamError e), s)
  | (inr size, s) =>
      if size =? 0 then (_ <- ListEnd; mret []) s
      else (vs <- decodeSliceElems fuel; _ <- ListEnd; mret vs) s
  end.
End elems.

Fixpoint decodeInterface (fuel : nat) : M item := fun s =>
  match fuel with
  | O => (inl starved, s)
  | S fuel' =>
      (kn <- Kind_;
       match kn with
       | (List, _) => l <- decodeListSlice (decodeInterface fuel') fuel'; mret (IList l)
       | _ => b <- Bytes; mret (IBytes b)
       end) s
  end.

Definition NewStream (b : bytes) : Stream :=
  mkStream b (len b) true None 0 0 None [].

(** Every value takes a byte of the input. *)
Definition DecodeBytes (b : bytes) : rlperr + item :=
  match decodeInterface (S (S (length b))) (NewStream b) with
  | (inl e, _) => inl e
  | (inr v, s) => match r s with [] => inr v | _ => inl ErrMoreThanOneValue end
  end.

(** ** Positions in the stream *)

(** The stream is before [inp], between values, with the open lists [st]. *)
Record at_ (inp : bytes) (st : list (Z * Z)) (s : Stream) : Prop := {
  at_r : r s = inp;
  at_remaining : remaining s = len inp;
  at_limited : limited s = true;
  at_kind : kind s = None;
  at_stack : stack s = st
}.

(** The same, after [Kind] has read the header of a value. *)
Record armed (k : Kind) (n : Z) (inp : bytes) (st : list (Z * Z)) (s : Stream) : Prop := {
  ar_r : r s = inp;
  ar_remaining : remaining s = len inp;
  ar_limited : limited s = true;
  ar_kind : kind s = Some k;
  ar_size : ksize s = n;
  ar_err : kinderr s = None;
  ar_stack : stack s = st
}.

Definition room (n : Z) (st : list (Z * Z)) : Prop :=
  match st with (p, z) :: _ => p + n <= z | [] => True end.
Definition adv (n : Z) (st : list (Z * Z)) : list (Z * Z) :=
  match st with (p, z) :: st' => (p + n, z) :: st' | [] => [] end.
Definition st_ok (st : list (Z * Z)) : Prop :=
  match st with (p, z) :: _ => 0 <= p <= z /\ z < 2 ^ 64 | [] => True end.

Lemma adv_adv a b st : adv b (adv a st) = adv (a + b) st.
Proof. destruct st as [|[p z] st]; [done|]. simpl. by rewrite Z.add_assoc. Qed.
Lemma room_adv a b st : room b (adv a st) <-> room (a + b) st.
Proof. destruct st as [|[p z] st]; [done|]. simpl. lia. Qed.
Lemma st_ok_adv a st : 0 <= a -> room a st -> st_ok st -> st_ok (adv a st).
Proof. destruct st as [|[p z] st]; [done|]. simpl. lia. Qed.
Lemma room_le a b st : a <= b -> room b st -> room a st.
Proof. destruct st as [|[p z] st]; [done|]. simpl. lia. Qed.


Lemma willRead_spec n inp st s : 0 <= n -> st_ok st -> len inp < 2 ^ 64 ->
  r s = inp -> remaining s = len inp -> limited s = true -> stack s = st ->
  (n <= len inp /\ room n st /\
     exists s', willRead n s = (inr tt, s') /\ r s' = inp /\ remaining s' = len inp - n /\
       limited s' = true /\ kind s' = None /\ stack s' = adv n st /\ byteval s' = byteval s) \/
  (~ (n <= len inp /\ room n st) /\ exists e s', willRead n s = (inl e, s') /\ e <> EOL /\ e <> starved).
Proof.
  intros Hn Hst Hlen Hr Hrem Hlim Hs. unfold willRead. destruct s as [r0 rem lim k ks bv ke st0]. simpl in *. subst.
  destruct st as [|[p z] st].
  - simpl. destruct (Z.gtb_spec n (len inp)).
    + right. split; [lia|]. by eexists _, _.
    + left. split_and!; [done|done|]. eexists. split; [done|]. simpl.
      rewrite u64_id by (unfold is_u64; lia). done.
  - cbn [rearm stack]. simpl in Hst. rewrite u64_id by (unfold is_u64; lia).
    destruct (Z.gtb_spec n (z - p)).
    { right. split; [simpl; lia|]. by eexists _, _. }
    cbn [set_stack limited remaining]. destruct (Z.gtb_spec n (len inp)).
    { right. split; [lia|]. by eexists _, _. }
    left. split_and!; [done|simpl; lia|]. eexists. split; [done|]. simpl.
    rewrite !u64_id by (unfold is_u64; lia). done.
Qed.

Lemma readFull_spec n inp st s : 0 <= n -> st_ok st -> len inp < 2 ^ 64 ->
  r s = inp -> remaining s = len inp -> limited s = true -> stack s = st ->
  (n <= len inp /\ room n st /\
     exists s', readFull n s = (inr (take (Z.to_nat n) inp), s') /\ at_ (drop (Z.to_nat n) inp) (adv n st) s') \/
  (~ (n <= len inp /\ room n st) /\ exists e s', readFull n s = (inl e, s') /\ e <> EOL /\ e <> starved).
Proof.
  intros Hn Hst Hlen Hr Hrem Hlim Hs. unfold readFull.
  destruct (willRead_spec n inp st s) as [(H1 & H2 & s' & -> & Hr' & Hrem' & Hlim' & Hk' & Hs' & _)
    |(H1 & e & s' & -> & ? & ?)]; try done; [left|right; by eauto 6].
  split_and!; [done|done|]. rewrite Hr'. rewrite (proj2 (Z.ltb_ge _ _)) by done.
  eexists. split; [done|]. split; simpl; try done. rewrite Hrem', length_drop. lia.
Qed.

Lemma readByte_spec inp st s : st_ok st -> len inp < 2 ^ 64 ->
  r s = inp -> remaining s = len inp -> limited s = true -> stack s = st ->
  (exists b rest s', inp = b :: rest /\ room 1 st /\ readByte s = (inr b, s') /\ at_ rest (adv 1 st) s') \/
  (~ (1 <= len inp /\ room 1 st) /\ exists e s', readByte s = (inl e, s') /\ e <> EOL /\ e <> starved).
Proof.
  intros Hst Hlen Hr Hrem Hlim Hs. unfold readByte.
  destruct (willRead_spec 1 inp st s) as [(H1 & H2 & s' & -> & Hr' & Hrem' & Hlim' & Hk' & Hs' & _)
    |(H1 & e & s' & -> & ? & ?)]; try done; [left|right; by eauto 6].
  rewrite Hr'. destruct inp as [|b rest]; [simpl in H1; lia|].
  exists b, rest, (set_input rest s'). split_and!; [done|done|done|]. split; simpl; try done.
  rewrite Hrem'. simpl length. lia.
Qed.

(** ** Sizes in big-endian form *)
Lemma be_bytes_val_gen bz a : Forall is_byte bz ->
  be_bytes (length bz) (a * 2 ^ (8 * len bz) + be_val bz) = bz.
Proof.
  intros Hf. revert a. induction Hf as [|b bz Hb Hbz IH]; intros a; [done|]. cbn [length Wire.be_bytes].
  pose proof (EthMath.be_val_bound bz Hbz) as Hv. unfold is_byte in Hb. rewrite Wire.be_val_cons.
  replace (8 * Z.of_nat (S (length bz))) with (8 + 8 * len bz) by lia. rewrite Z.pow_add_r by lia.
  change (2 ^ 8) with 256.
  replace (a * (256 * 2 ^ (8 * len bz)) + (b * 2 ^ (8 * len bz) + be_val bz))
    with ((a * 256 + b) * 2 ^ (8 * len bz) + be_val bz) by ring.
  f_equal; [|by apply IH].
  rewrite Z.div_add_l by (apply Z.pow_nonzero; lia). rewrite Z.div_small by done.
  rewrite Z.add_0_r, Z.add_comm, Z.mod_add by lia. by apply Z.mod_small.
Qed.

Lemma be_bytes_val bz : Forall is_byte bz -> be_bytes (length bz) (be_val bz) = bz.
Proof. intros Hf. apply (be_bytes_val_gen bz 0 Hf). Qed.

(** [putint n] is the one big-endian form of [n] without a leading zero. *)
Lemma putint_size_bound n : 256 <= n < 2 ^ 64 ->
  2 ^ (8 * (Z.of_nat (putint_size n) - 1)) <= n < 2 ^ (8 * Z.of_nat (putint_size n)).
Proof. intros Hn. unfold putint_size. repeat byte_case; lia. Qed.

Lemma putint_val n : 0 <= n < 2 ^ 64 -> be_val (putint n) = n.
Proof.
  intros Hn. unfold putint. rewrite Wire.be_val_bytes. apply Z.mod_small. split; [lia|].
  destruct (Z.lt_ge_cases n 256).
  - unfold putint_size. rewrite (proj2 (Z.ltb_lt _ _)) by lia. done.
  - destruct (putint_size_bound n) as [_ Hhi]; [lia|]. exact Hhi.
Qed.

Lemma putint_head n : 256 <= n < 2 ^ 64 -> exists x bz, putint n = x :: bz /\ x <> 0.
Proof.
  intros Hn. pose proof (putint_size_bound n Hn) as [Hlo Hhi]. unfold putint.
  pose proof (putint_size_range n). destruct (putint_size n) as [|k] eqn:Ek; [lia|].
  cbn [Wire.be_bytes]. eexists _, _. split; [done|].
  replace (8 * (Z.of_nat (S k) - 1)) with (8 * Z.of_nat k) in Hlo by lia.
  replace (8 * Z.of_nat (S k)) with (8 * Z.of_nat k + 8) in Hhi by lia.
  rewrite Z.pow_add_r in Hhi by lia. change (2 ^ 8) with 256 in Hhi.
  assert (0 < 2 ^ (8 * Z.of_nat k)) by (apply Z.pow_pos_nonneg; lia).
  assert (n / 2 ^ (8 * Z.of_nat k) < 256) by (apply Z.div_lt_upper_bound; lia).
  assert (1 <= n / 2 ^ (8 * Z.of_nat k)) by (apply Z.div_le_lower_bound; lia).
  rewrite Z.mod_small by lia. lia.
Qed.

Lemma putint_unique x bz : Forall is_byte (x :: bz) -> x <> 0 -> (length bz <= 7)%nat -> (1 <= length bz)%nat ->
  putint (be_val (x :: bz)) = x :: bz.
Proof.
  intros Hf Hx Hl Hl'. pose proof (EthMath.be_val_bound _ Hf) as [_ Hhi]. apply Forall_cons in Hf as Hc. destruct Hc as [Hb Hbz].
  pose proof (EthMath.be_val_bound _ Hbz) as [Hlo _]. unfold is_byte in Hb.
  assert (2 ^ (8 * len bz) <= be_val (x :: bz)) as Hge.
  { rewrite Wire.be_val_cons. assert (0 < 2 ^ (8 * len bz)) by (apply Z.pow_pos_nonneg; lia). nia. }
  unfold putint. assert (putint_size (be_val (x :: bz)) = length (x :: bz)) as ->; [|by apply be_bytes_val].
  revert Hge Hhi. generalize (be_val (x :: bz)). intros v. cbn [length]. unfold putint_size.
  do 8 (destruct bz as [|? bz]; [cbn [length Z.of_nat]; intros; repeat byte_case; lia|]).
  simpl in Hl. lia.
Qed.

(** ** Headers *)
Definition head (k : Kind) (n : Z) : bytes :=
  match k with
  | Byte => []
  | String => puthead 0x80 0xB7 n
  | List => puthead 0xC0 0xF7 n
  end.

Definition good_error (e : rlperr) : Prop := e <> EOL /\ e <> starved.

(** The stream failed with an error of its own. *)
Ltac err := eexists _, _; split; [reflexivity|split; (done || congruence)].

Lemma read_size_spec k m inp st s : 1 <= m <= 8 -> Forall is_byte inp -> st_ok st -> len inp < 2 ^ 64 ->
  at_ inp st s ->
  (exists n rest s', inp = putint n ++ rest /\ len (putint n) = m /\ 56 <= n < 2 ^ 64 /\ room m st /\
     read_size k m s = (inr (k, n), s') /\ at_ rest (adv m st) s') \/
  ((forall n rest, inp = putint n ++ rest -> len (putint n) = m -> 56 <= n < 2 ^ 64 -> room m st -> False) /\
     exists e s', read_size k m s = (inl e, s') /\ good_error e).
Proof.
  intros Hm Hf Hst Hlen []. unfold read_size, readUint, mbind.
  rewrite (proj2 (Z.eqb_neq m 0)) by lia. destruct (Z.eqb_spec m 1) as [->|Hm1].
  - destruct (readByte_spec inp st s) as [(b & rest & s' & -> & Hroom & -> & Hat)|(Hno & e & s' & -> & ? & ?)]; try done.
    2:{ right. split; [|by err]. intros n rest -> Hl _ Hr. apply Hno. rewrite length_app. split; [lia|done]. }
    apply Forall_cons in Hf as [Hb Hf]. unfold is_byte in Hb.
    assert (putint b = [b]) as Hp.
    { unfold putint, putint_size. rewrite (proj2 (Z.ltb_lt _ _)) by lia. cbn [Wire.be_bytes].
      simpl. rewrite Z.div_1_r, Z.mod_small by lia. done. }
    destruct (Z.ltb_spec b 56) as [Hlt|Hge].
    + right. split; [|by err]. intros n rest' E Hl Hn _.
      destruct (putint n) as [|y [|]] eqn:Ep; simpl in Hl; try lia. injection E as -> _.
      pose proof (putint_val n ltac:(lia)) as Hv. rewrite Ep in Hv. unfold be_val in Hv. simpl in Hv. lia.
    + left. exists b, rest, s'. rewrite Hp. split_and!; try done; lia.
  - destruct (readFull_spec m inp st s) as [(Hle & Hroom & s' & -> & Hat)|(Hno & e & s' & -> & ? & ?)]; try done; [lia| |].
    2:{ right. split; [|by err]. intros n rest -> Hl _ Hr. apply Hno. rewrite length_app. split; [lia|done]. }
    assert (length (take (Z.to_nat m) inp) = Z.to_nat m) as Htl by (rewrite length_take; lia).
    assert (Forall is_byte (take (Z.to_nat m) inp)) as Htf by (by apply Forall_take).
    set (buf := take (Z.to_nat m) inp) in *.
    assert (forall n rest, inp = putint n ++ rest -> len (putint n) = m -> buf = putint n) as Hbuf.
    { intros n rest E Hl. unfold buf. rewrite E. rewrite <- Hl, Nat2Z.id. apply take_app_length. }
    destruct buf as [|x bz] eqn:Eb; [simpl in Htl; lia|].
    destruct (Z.eq_dec x 0) as [->|Hx].
    { right. split; [|by err]. intros n rest E Hl Hn _.
      pose proof (Hbuf _ _ E Hl) as E'. destruct (Z.lt_ge_cases n 256).
      - rewrite putint_length in Hl. unfold putint_size in Hl. rewrite (proj2 (Z.ltb_lt _ _)) in Hl by lia. lia.
      - destruct (putint_head n) as (y & bz' & Ey & Hy); [lia|]. congruence. }
    simpl in Htl. assert (putint (be_val (x :: bz)) = x :: bz) as Hp.
    { apply putint_unique; [done|done|lia|lia]. }
    replace (match x with 0 => _ | _ => _ end) with (mret (be_val (x :: bz)) : M Z) by (by destruct x).
    unfold mret. destruct (Z.ltb_spec (be_val (x :: bz)) 56) as [Hlt|Hge].
    + right. split; [|by err]. intros n rest E Hl Hn _. rewrite (Hbuf _ _ E Hl), putint_val in Hlt by lia. lia.
    + left. exists (be_val (x :: bz)), (drop (Z.to_nat m) inp), s'. rewrite Hp.
      assert (be_val (x :: bz) < 2 ^ 64) as Hhi.
      { pose proof (EthMath.be_val_bound _ Htf) as [_ Hb]. eapply Z.lt_le_trans; [exact Hb|].
        apply Z.pow_le_mono_r; [lia|]. simpl length. lia. }
      split_and!; try done.
      * rewrite <- Eb. unfold buf. by rewrite take_drop.
      * simpl length. lia.
Qed.

Lemma u8_small z : 0 <= z < 256 -> u8 z = z.
Proof. intros. unfold u8. by apply Z.mod_small. Qed.

(** The first byte tells the kind and the form of a header. *)
Lemma head_cases k n : k <> Byte -> 0 <= n < 2 ^ 64 ->
  exists b tl, head k n = b :: tl /\
    ((n < 56 /\ tl = [] /\ b = (match k with List => 0xC0 | _ => 0x80 end) + n) \/
     (56 <= n /\ tl = putint n /\ b = (match k with List => 0xF7 | _ => 0xB7 end) + len (putint n))).
Proof.
  intros Hk Hn. pose proof (putint_size_range n) as Hs.
  destruct k; [done| |]; unfold head, puthead; destruct (Z.ltb_spec n 56); eexists _, _; (split; [reflexivity|]).
  - left. by rewrite u8_small by lia.
  - right. rewrite putint_length in *. by rewrite u8_small by lia.
  - left. by rewrite u8_small by lia.
  - right. rewrite putint_length in *. by rewrite u8_small by lia.
Qed.

Lemma head_length k n : k <> Byte -> 0 <= n < 2 ^ 64 -> 1 <= len (head k n) <= 9.
Proof.
  intros Hk Hn. destruct (head_cases k n Hk Hn) as (b & tl & -> & [(_ & -> & _)|(_ & -> & _)]); simpl length; [lia|].
  rewrite putint_length. pose proof (putint_size_range n). lia.
Qed.

Lemma putint_app_inj n n' x x' : 0 <= n < 2 ^ 64 -> 0 <= n' < 2 ^ 64 ->
  length (putint n) = length (putint n') -> putint n ++ x = putint n' ++ x' -> n = n' /\ x = x'.
Proof.
  intros Hn Hn' Hl E. apply app_inj_1 in E as [E ->]; [|done]. split; [|done].
  rewrite <- (putint_val n), <- (putint_val n'), E by done. done.
Qed.

Lemma head_inj k n x k' n' x' : k <> Byte -> k' <> Byte -> 0 <= n < 2 ^ 64 -> 0 <= n' < 2 ^ 64 ->
  head k n ++ x = head k' n' ++ x' -> k = k' /\ n = n' /\ x = x'.
Proof.
  intros Hk Hk' Hn Hn' E.
  pose proof (putint_size_range n) as Hs. pose proof (putint_size_range n') as Hs'.
  destruct (head_cases k n Hk Hn) as (b & tl & Eh & Hc), (head_cases k' n' Hk' Hn') as (b' & tl' & Eh' & Hc').
  rewrite Eh, Eh' in E. injection E as Eb Et. clear Eh Eh'.
  destruct Hc as [(H1 & -> & ->)|(H1 & -> & ->)], Hc' as [(H1' & -> & ->)|(H1' & -> & ->)];
    rewrite ?putint_length in *; destruct k, k'; try done; try lia.
  - split_and!; [done|lia|done].
  - split_and!; [done|lia|done].
  - apply putint_app_inj in Et as [-> ->]; [done|done|done|]. rewrite !putint_length. lia.
  - apply putint_app_inj in Et as [-> ->]; [done|done|done|]. rewrite !putint_length. lia.
Qed.

(** Outcomes of reading a header: a byte that stands for itself, a header in
    front of the input, or an error because there is neither. *)
Definition outcome : Type := (rlperr + Kind * Z) * Stream.

Definition found_byte (inp : bytes) (st : list (Z * Z)) (o : outcome) : Prop :=
  exists b rest s', inp = b :: rest /\ b < 0x80 /\ room 1 st /\ o = (inr (Byte, 0), s') /\
    at_ rest (adv 1 st) s' /\ byteval s' = b.

Definition found_head (inp : bytes) (st : list (Z * Z)) (o : outcome) : Prop :=
  exists k n rest s', k <> Byte /\ inp = head k n ++ rest /\ 0 <= n < 2 ^ 64 /\ room (len (head k n)) st /\
    o = (inr (k, n), s') /\ at_ rest (adv (len (head k n)) st) s'.

Definition no_head (inp : bytes) (st : list (Z * Z)) : Prop :=
  (forall b rest, inp = b :: rest -> b < 0x80 -> room 1 st -> False) /\
  (forall k n rest, k <> Byte -> inp = head k n ++ rest -> 0 <= n < 2 ^ 64 -> room (len (head k n)) st -> False).

Definition failed {A} (o : (rlperr + A) * Stream) : Prop :=
  exists e s', o = (inl e, s') /\ good_error e.

Lemma long_head k m b rest st s : k <> Byte -> 1 <= m <= 8 ->
  b = (match k with List => 0xF7 | _ => 0xB7 end) + m -> 0 <= b < 256 ->
  Forall is_byte rest -> st_ok st -> room 1 st -> len rest < 2 ^ 64 -> at_ rest (adv 1 st) s ->
  found_head (b :: rest) st (read_size k m s) \/ (no_head (b :: rest) st /\ failed (read_size k m s)).
Proof.
  intros Hk Hm Eb Hb Hf Hst Hroom Hlen Hat.
  assert (st_ok (adv 1 st)) as Hst1 by (apply st_ok_adv; [lia|done|done]).
  destruct (read_size_spec k m rest (adv 1 st) s) as [(n & rest' & s1 & E & El & Hn & Hr & Es & Hat1)|[Hno Her]]; try done.
  - left. exists k, n, rest', s1.
    assert (head k n = b :: putint n) as Eh.
    { destruct (head_cases k n Hk ltac:(lia)) as (b1 & tl & -> & [(? & _)|(_ & -> & ->)]); [lia|]. by rewrite El, Eb. }
    rewrite Eh. simpl length. replace (Z.of_nat (S (length (putint n)))) with (1 + m) by lia.
    rewrite <- adv_adv, <- room_adv. rewrite E. split_and!; try done; lia.
  - right. split; [split|done]; [intros b' rest' [= <- _] ? _; destruct k; done || lia|].
    intros k' n' rest' Hk' E Hn' Hr. destruct (head_cases k' n' Hk' Hn') as (b1 & tl & Eh & Hc).
    rewrite Eh in E, Hr. injection E as E1 E. pose proof (putint_size_range n') as Hsz.
    destruct Hc as [(? & -> & ?)|(? & -> & ?)]; rewrite ?putint_length in *.
    + destruct k, k'; try done; lia.
    + assert (Z.of_nat (putint_size n') = m) as El by (destruct k, k'; done || lia).
      apply (Hno n' rest'); try done; [by rewrite putint_length|lia|]. apply room_adv. simpl length in Hr.
      rewrite putint_length in Hr. by replace (1 + m) with (Z.of_nat (S (putint_size n'))) by lia.
Qed.

Lemma readKind_spec inp st s : Forall is_byte inp -> st_ok st -> len inp < 2 ^ 64 -> at_ inp st s ->
  found_byte inp st (readKind s) \/ found_head inp st (readKind s) \/
  (no_head inp st /\ failed (readKind s)).
Proof.
  intros Hf Hst Hlen Hat. destruct Hat. unfold readKind.
  destruct (readByte_spec inp st s) as [(b & rest & s' & -> & Hroom & -> & Hat)|(Hno & e & s' & -> & He1 & He2)]; try done.
  2:{ right. right. split; [split|].
    - intros b rest -> _ Hr. apply Hno. simpl length. split; [lia|done].
    - intros k n rest Hk -> Hn Hr. pose proof (head_length k n Hk Hn). apply Hno. rewrite length_app.
      split; [lia|]. by apply (room_le 1 (len (head k n))); [lia|].
    - eexists _, _. split; [reflexivity|]. destruct (stack s'); [|done]. by destruct e; split. }
  apply Forall_cons in Hf as [Hb Hf]. unfold is_byte in Hb. assert (len rest < 2 ^ 64) by (simpl length in Hlen; lia).
  assert (forall t x, at_ rest (adv 1 st) t -> at_ rest (adv 1 st) (set_byteval x t)) as Hbv by (intros ?? []; by split).
  destruct (Z.ltb_spec b 0x80).
  { left. exists b, rest, (set_byteval b (set_byteval 0 s')). split_and!; try done. by apply Hbv, Hbv. }
  right. pose proof (Hbv _ 0 Hat) as Hat0. set (s0 := set_byteval 0 s') in *.
  assert (forall k n, k <> Byte -> 0 <= n < 56 -> head k n = [b] -> found_head (b :: rest) st (inr (k, n), s0)) as Hshort.
  { intros k n Hk Hn Hh. exists k, n, rest, s0. rewrite Hh. split_and!; try done; lia. }
  destruct (Z.ltb_spec b 0xB8).
  { left. apply Hshort; [done|lia|]. unfold head, puthead. rewrite (proj2 (Z.ltb_lt _ _)) by lia.
    rewrite u8_small by lia. f_equal. lia. }
  destruct (Z.ltb_spec b 0xC0). { apply long_head; try done; lia. }
  destruct (Z.ltb_spec b 0xF8).
  { left. apply Hshort; [done|lia|]. unfold head, puthead. rewrite (proj2 (Z.ltb_lt _ _)) by lia.
    rewrite u8_small by lia. f_equal. lia. }
  apply long_head; try done; lia.
Qed.

(** ** [Kind] also checks that the value fits *)
Lemma gtb_false a b : a <= b -> (a >? b) = false.
Proof. intros. rewrite Z.gtb_ltb. by apply Z.ltb_ge. Qed.

Definition fits (n : Z) (rest : bytes) (st : list (Z * Z)) : Prop :=
  match st with (p, z) :: _ => p + n <= z | [] => n <= len rest end.

Definition not_at_end (st : list (Z * Z)) : Prop :=
  match st with (p, z) :: _ => p < z | [] => True end.

Definition kind_byte (inp : bytes) (st : list (Z * Z)) (o : outcome) : Prop :=
  exists b rest s', inp = b :: rest /\ b < 0x80 /\ room 1 st /\ o = (inr (Byte, 0), s') /\
    armed Byte 0 rest (adv 1 st) s' /\ byteval s' = b.

Definition kind_head (inp : bytes) (st : list (Z * Z)) (o : outcome) : Prop :=
  exists k n rest s', k <> Byte /\ inp = head k n ++ rest /\ 0 <= n < 2 ^ 64 /\ room (len (head k n)) st /\
    fits n rest (adv (len (head k n)) st) /\
    o = (inr (k, n), s') /\ armed k n rest (adv (len (head k n)) st) s'.

Definition no_value (inp : bytes) (st : list (Z * Z)) : Prop :=
  (forall b rest, inp = b :: rest -> b < 0x80 -> room 1 st -> False) /\
  (forall k n rest, k <> Byte -> inp = head k n ++ rest -> 0 <= n < 2 ^ 64 ->
     room (len (head k n)) st -> fits n rest (adv (len (head k n)) st) -> False).

Lemma set_kind_armed k n inp st s : at_ inp st s -> armed k n inp st (set_kind k n None s).
Proof. intros []. by split. Qed.

Lemma Kind_spec inp st s : Forall is_byte inp -> st_ok st -> len inp < 2 ^ 64 -> not_at_end st -> at_ inp st s ->
  kind_byte inp st (Kind_ s) \/ kind_head inp st (Kind_ s) \/ (no_value inp st /\ failed (Kind_ s)).
Proof.
  intros Hf Hst Hlen Hopen Hat. pose proof (readKind_spec inp st s Hf Hst Hlen Hat) as Hrk.
  unfold Kind_. rewrite (at_kind _ _ _ Hat), (at_stack _ _ _ Hat).
  destruct Hrk as [(b & rest & s' & E & Hb & Hroom & Er & Hat' & Hbv)|[(k & n & rest & s' & Hk & E & Hn & Hroom & Er & Hat')
    |[[Hn1 Hn2] (e & s' & Er & He)]]]; rewrite Er.
  - left. exists b, rest, (set_kind Byte 0 None s'). split_and!; try done; [|by apply set_kind_armed].
    destruct st as [|[p z] st]; simpl in *.
    + rewrite (at_remaining _ _ _ Hat'). rewrite gtb_false by lia. by rewrite andb_false_r.
    + rewrite (proj2 (Z.eqb_neq _ _)) by lia. rewrite (at_stack _ _ _ Hat').
      rewrite u64_id by (unfold is_u64; lia). by rewrite gtb_false by lia.
  - right. assert (forall e0 s1, good_error e0 -> ~ fits n rest (adv (len (head k n)) st) ->
      no_value inp st /\ failed ((inl e0, s1) : outcome)) as Hbad.
    { intros e0 s1 He0 Hfit. split; [split|by exists e0, s1].
      - intros b rest' Eb Hlt _. rewrite E in Eb. destruct (head_cases k n Hk Hn) as (b1 & tl & Eh & Hc).
        rewrite Eh in Eb. injection Eb as <- _. destruct Hc as [(? & _ & ->)|(? & _ & ->)]; destruct k; done || lia.
      - intros k' n' rest' Hk' E' Hn' _ Hfit'. rewrite E in E'.
        apply head_inj in E' as (-> & -> & ->); done. }
    assert (fits n rest (adv (len (head k n)) st) ->
      kind_head inp st ((inr (k, n), set_kind k n None s') : outcome)) as Hgood.
    { intros Hfit. exists k, n, rest, (set_kind k n None s'). split_and!; try done; try lia. by apply set_kind_armed. }
    destruct st as [|[p z] st]; simpl in *.
    + rewrite (at_limited _ _ _ Hat'), (at_remaining _ _ _ Hat'). cbn [andb].
      destruct (Z.gtb_spec n (len rest)); [right; apply Hbad; [by split|lia]|left; apply Hgood; lia].
    + rewrite (proj2 (Z.eqb_neq _ _)) by lia. rewrite (at_stack _ _ _ Hat').
      rewrite u64_id by (unfold is_u64; lia).
      destruct (Z.gtb_spec n (z - (p + len (head k n)))); [right; apply Hbad; [by split|lia]|left; apply Hgood; lia].
  - right. right. split; [split|].
    + done.
    + intros k n rest Hk Ek Hn Hr _. by apply (Hn2 k n rest).
    + destruct st as [|[p z] st]; simpl in *; [by exists e, (set_kind Byte 0 (Some e) s')|].
      rewrite (proj2 (Z.eqb_neq _ _)) by lia. by exists e, (set_kind Byte 0 (Some e) s').
Qed.

Lemma Kind_end p st inp s : at_ inp ((p, p) :: st) s -> Kind_ s = (inl EOL, s).
Proof. intros []. unfold Kind_. rewrite at_kind0, at_stack0. by rewrite Z.eqb_refl. Qed.

(** Asking again gives the same answer. *)
Lemma Kind_again k n inp st s : armed k n inp st s -> Kind_ s = (inr (k, n), s).
Proof. intros []. unfold Kind_. by rewrite ar_kind0, ar_err0, ar_size0. Qed.

(** ** Whole values *)
Fixpoint to_value (v : item) : value :=
  match v with
  | IBytes b => VBytes b
  | IList l => VList (map to_value l)
  end.

(** The encoding of a decoded value. *)
Definition encI (v : item) : bytes := enc (to_value v).
Definition encIs (l : list item) : bytes := concat (map encI l).

Lemma encI_list l : encI (IList l) = head List (len (encIs l)) ++ encIs l.
Proof. unfold encI, encIs. cbn [to_value enc]. by rewrite map_map. Qed.

Lemma encI_bytes b : single b = false -> encI (IBytes b) = head String (len b) ++ b.
Proof. intros E. unfold encI. cbn [to_value enc]. unfold enc_string. by rewrite E. Qed.

Section item_ind.
Variable P : item -> Prop.
Hypothesis Hbytes : forall b, P (IBytes b).
Hypothesis Hlist : forall l, Forall P l -> P (IList l).

Fixpoint item_deep_ind (v : item) : P v :=
  match v with
  | IBytes b => Hbytes b
  | IList l => Hlist l ((fix go l := match l return Forall P l with
                                    | [] => Forall_nil_2 P
                                    | v :: l => Forall_cons_2 P v l (item_deep_ind v) (go l)
                                    end) l)
  end.
End item_ind.

(** [parsed out inp st o]: the decoder took [out] off the input. *)
Definition parsed {A} (out : bytes) (a : A) (rest : bytes) (st : list (Z * Z)) (o : (rlperr + A) * Stream) : Prop :=
  room (len out) st /\ exists s', o = (inr a, s') /\ at_ rest (adv (len out) st) s'.

Lemma fits_room n rest st : fits n rest st -> room n st.
Proof. by destruct st as [|[p z] st]. Qed.

(** *** [Bytes] *)
Lemma Bytes_byte rest st s : armed Byte 0 rest st s ->
  exists s', Bytes s = (inr [byteval s], s') /\ at_ rest st s'.
Proof.
  intros Ha. unfold Bytes, mbind. rewrite (Kind_again _ _ _ _ _ Ha). eexists. split; [done|]. destruct Ha. by split.
Qed.

Lemma Bytes_string n inp st s : Forall is_byte inp -> 0 <= n < 2 ^ 64 -> st_ok st -> len inp < 2 ^ 64 ->
  armed String n inp st s ->
  (exists b rest, inp = b ++ rest /\ len b = n /\ single b = false /\ parsed b b rest st (Bytes s)) \/
  ((forall b rest, inp = b ++ rest -> len b = n -> single b = false -> room n st -> False) /\ failed (Bytes s)).
Proof.
  intros Hf Hn Hst Hlen Ha. unfold Bytes, mbind. rewrite (Kind_again _ _ _ _ _ Ha). destruct Ha.
  destruct (readFull_spec n inp st s) as [(H1 & H2 & s' & -> & Hat)|(H1 & e & s' & -> & ? & ?)]; try done; [lia| |].
  - set (b := take (Z.to_nat n) inp) in *. assert (inp = b ++ drop (Z.to_nat n) inp) as E by (symmetry; apply take_drop).
    assert (len b = n) as El by (unfold b; rewrite length_take; lia).
    clearbody b. destruct (single b) eqn:Es.
    + right. split.
      * intros b' rest' E' El' Hs' _. rewrite E in E'. apply app_inj_1 in E' as [E' _]; [congruence|]. cbv beta in El. lia.
      * destruct b as [|x [|]]; try done. apply Z.leb_le in Es. rewrite (proj2 (Z.ltb_lt x 128)) by lia. by err.
    + left. exists b, (drop (Z.to_nat n) inp). split_and!; try done. unfold parsed. rewrite El. split; [done|].
      exists s'. split; [|done]. destruct b as [|x [|]]; try done. apply Z.leb_gt in Es.
      by rewrite (proj2 (Z.ltb_ge x 128)) by lia.
  - right. split; [|by eexists _, _]. intros b rest -> El _ Hr. apply H1. rewrite length_app. split; [lia|done].
Qed.

(** *** Lists *)
Lemma List_armed n inp st s : armed List n inp st s ->
  exists s', List_ s = (inr n, s') /\ at_ inp ((0, n) :: st) s'.
Proof.
  intros Ha. unfold List_, mbind. rewrite (Kind_again _ _ _ _ _ Ha). eexists. split; [done|].
  destruct Ha. split; try done. simpl. by rewrite ar_stack0.
Qed.

Lemma ListEnd_spec n inp st s : 0 <= n -> room n st -> st_ok st -> at_ inp ((n, n) :: st) s ->
  exists s', ListEnd s = (inr tt, s') /\ at_ inp (adv n st) s'.
Proof.
  intros Hn Hr Hst Hat. unfold ListEnd. rewrite (at_stack _ _ _ Hat), Z.eqb_refl. cbn [negb].
  eexists. split; [done|]. destruct Hat. split; try done. simpl.
  destruct st as [|[p z] st]; [done|]. simpl in *. by rewrite u64_id by (unfold is_u64; lia).
Qed.

Section with_elemdec.
Variable elemdec : M item.
Variable bound : nat.

(** What the element decoder does on inputs of at most [bound] bytes. *)
Definition sound (st : list (Z * Z)) : Prop := forall inp s,
  Forall is_byte inp -> st_ok st -> len inp < 2 ^ 64 -> not_at_end st -> (length inp <= bound)%nat -> at_ inp st s ->
  (exists v rest, inp = encI v ++ rest /\ (1 <= length (encI v))%nat /\ parsed (encI v) v rest st (elemdec s)) \/
  failed (elemdec s).
Definition stops : Prop := forall p st inp s, at_ inp ((p, p) :: st) s -> elemdec s = (inl EOL, s).
Definition complete (v : item) : Prop := forall inp rest st s,
  Forall is_byte inp -> st_ok st -> len inp < 2 ^ 64 -> (length inp <= bound)%nat -> at_ inp st s ->
  inp = encI v ++ rest -> room (len (encI v)) st -> parsed (encI v) v rest st (elemdec s).

Lemma elems_sound fuel p z inp st s : (forall p z, sound ((p, z) :: st)) -> stops ->
  Forall is_byte inp -> st_ok ((p, z) :: st) -> len inp < 2 ^ 64 -> (length inp <= bound)%nat ->
  (length inp < fuel)%nat -> at_ inp ((p, z) :: st) s ->
  (exists vs rest s', inp = encIs vs ++ rest /\ p + len (encIs vs) = z /\
     decodeSliceElems elemdec fuel s = (inr vs, s') /\ at_ rest ((z, z) :: st) s') \/
  failed (decodeSliceElems elemdec fuel s).
Proof.
  intros Hs Hstop. revert p inp s. induction fuel as [|fuel IH]; intros p inp s Hf Hst Hlen Hb Hfuel Hat; [lia|].
  cbn [decodeSliceElems]. destruct (Z.eq_dec p z) as [<-|Hpz].
  { rewrite (Hstop _ _ _ _ Hat). left. exists [], inp, s. split_and!; try done. simpl. lia. }
  destruct (Hs p z inp s) as [(v & rest & E & Hl & Hr & s1 & -> & Hat1)|(e & s1 & -> & He)]; try done.
  - simpl in *. lia.
  - subst inp. apply Forall_app in Hf as [_ Hf]. rewrite length_app in *.
    destruct (IH (p + len (encI v)) rest s1) as [(vs & rest' & s2 & E & Hz & -> & Hat2)|(e & s2 & -> & He)];
      try done; try lia.
    + simpl in *. lia.
    + left. exists (v :: vs), rest', s2. split_and!; try done.
      * unfold encIs. cbn [map concat]. rewrite <- app_assoc. f_equal. exact E.
      * unfold encIs in *. cbn [map concat]. rewrite length_app. lia.
    + right. by eexists e, s2.
  - right. destruct He. destruct e; try done; by err.
Qed.

Lemma elems_complete vs fuel p z rest st s : Forall complete vs -> stops ->
  Forall is_byte (encIs vs ++ rest) -> st_ok ((p, z) :: st) -> len (encIs vs ++ rest) < 2 ^ 64 ->
  (length (encIs vs ++ rest) <= bound)%nat -> (length vs < fuel)%nat -> at_ (encIs vs ++ rest) ((p, z) :: st) s ->
  p + len (encIs vs) = z ->
  exists s', decodeSliceElems elemdec fuel s = (inr vs, s') /\ at_ rest ((z, z) :: st) s'.
Proof.
  intros Hc Hstop. revert fuel p s. induction Hc as [|v vs Hv _ IH];
    intros fuel p s Hf Hst Hlen Hb Hfuel Hat Hz; (destruct fuel as [|fuel]; [simpl in *; lia|]); cbn [decodeSliceElems].
  - simpl in Hz. rewrite Z.add_0_r in Hz. subst z. rewrite (Hstop _ _ _ _ Hat). by exists s.
  - assert (encIs (v :: vs) ++ rest = encI v ++ (encIs vs ++ rest)) as E.
    { unfold encIs. cbn [map concat]. by rewrite app_assoc. }
    assert (len (encIs (v :: vs)) = len (encI v) + len (encIs vs)) as El.
    { unfold encIs. cbn [map concat]. rewrite length_app. lia. }
    rewrite El in Hz. cbv beta in *. rewrite E in *. apply Forall_app in Hf as Hf'. destruct Hf' as [_ Hf'].
    assert (length (encI v ++ encIs vs ++ rest) = length (encI v) + length (encIs vs ++ rest))%nat as Ea by apply length_app.
    destruct (Hv _ (encIs vs ++ rest) _ s Hf Hst Hlen Hb Hat) as (_ & s1 & -> & Hat1); [done|simpl; lia|].
    destruct (IH fuel (p + len (encI v)) s1) as (s2 & -> & Hat2); try done; try lia.
    + simpl in *. lia.
    + simpl in Hfuel. lia.
    + by exists s2.
Qed.
End with_elemdec.

Lemma encI_pos v : (1 <= length (encI v))%nat.
Proof.
  assert (forall a b n, (1 <= length (puthead a b n))%nat) as Hp.
  { intros. unfold puthead. destruct (_ <? _); simpl; lia. }
  destruct v as [b|l].
  - destruct (single b) eqn:E.
    { unfold encI. cbn [to_value enc]. unfold enc_string. rewrite E. destruct b; [done|]. simpl. lia. }
    rewrite (encI_bytes b E), length_app.
    unfold head. specialize (Hp 0x80 0xB7 (len b)). lia.
  - rewrite encI_list, length_app. unfold head. specialize (Hp 0xC0 0xF7 (len (encIs l))). lia.
Qed.

Lemma encIs_length l : (length l <= length (encIs l))%nat.
Proof.
  induction l as [|v l IH]; [done|]. unfold encIs in *. cbn [map concat length]. rewrite length_app.
  pose proof (encI_pos v). lia.
Qed.

Lemma interface_stops fuel : stops (decodeInterface (S fuel)).
Proof. intros p st inp s Hat. cbn [decodeInterface]. unfold mbind at 1. by rewrite (Kind_end _ _ _ _ Hat). Qed.

(** A list after its header, decoded by a sound element decoder. *)
Lemma listSlice_sound dec bound fuel n inp st s : (forall st, sound dec bound st) -> stops dec ->
  Forall is_byte inp -> 0 <= n < 2 ^ 64 -> room n st -> st_ok st -> len inp < 2 ^ 64 ->
  (length inp <= bound)%nat -> (length inp < fuel)%nat -> armed List n inp st s ->
  (exists vs rest, inp = encIs vs ++ rest /\ len (encIs vs) = n /\
     parsed (encIs vs) vs rest st (decodeListSlice dec fuel s)) \/
  failed (decodeListSlice dec fuel s).
Proof.
  intros Hs Hstop Hf Hn Hr Hst Hlen Hb Hfuel Ha. unfold decodeListSlice.
  destruct (List_armed _ _ _ _ Ha) as (s1 & -> & Hat1). destruct (Z.eqb_spec n 0) as [->|Hn0].
  - destruct (ListEnd_spec 0 inp st s1) as (s2 & E2 & Hat2); try done.
    left. exists [], inp. split_and!; try done. split; [done|]. exists s2. unfold mbind. by rewrite E2.
  - destruct (elems_sound dec bound fuel 0 n inp st s1) as [(vs & rest & s2 & E & Hz & E2 & Hat2)|(e & s2 & E2 & He)];
      try done; [simpl; lia| |]; unfold mbind; rewrite E2; [|by right; eexists _, _].
    rewrite Z.add_0_l in Hz. destruct (ListEnd_spec n rest st s2) as (s3 & -> & Hat3); try done; [lia|].
    left. exists vs, rest. split_and!; try done. unfold parsed. cbv beta. rewrite Hz. split; [done|]. by exists s3.
Qed.

Lemma parsed_head {A B} k n (payload : bytes) (f : A -> B) (a : A) rest st o :
  len payload = n -> room (len (head k n)) st ->
  parsed payload a rest (adv (len (head k n)) st) o ->
  parsed (head k n ++ payload) (f a) rest st (match o with (inr a, s) => mret (f a) s | (inl e, s) => (inl e, s) end).
Proof.
  intros El Hr (Hr2 & s' & -> & Hat). unfold parsed. cbv beta in *.
  rewrite length_app, Nat2Z.inj_add. rewrite room_adv in Hr2. rewrite adv_adv in Hat. by eauto.
Qed.

Lemma st_ok_head k n st : k <> Byte -> 0 <= n < 2 ^ 64 -> room (len (head k n)) st -> st_ok st ->
  st_ok (adv (len (head k n)) st).
Proof. intros. apply st_ok_adv; [lia|done|done]. Qed.

Lemma interface_sound fuel : forall bound st, (bound < fuel)%nat -> sound (decodeInterface fuel) bound st.
Proof.
  induction fuel as [|fuel IH]; intros bound st Hb inp s Hf Hst Hlen Hopen Hl Hat; [lia|].
  cbn [decodeInterface]. unfold mbind.
  destruct (Kind_spec inp st s) as [(b & rest & s' & E & Hlt & Hr & -> & Ha & Hbv)
    |[(k & n & rest & s' & Hk & E & Hn & Hr & Hfit & -> & Ha)|(_ & e & s' & -> & He)]]; try done.
  - left. exists (IBytes [b]), rest. assert (encI (IBytes [b]) = [b]) as Eb.
    { unfold encI. cbn [to_value enc]. unfold enc_string, single. by rewrite (proj2 (Z.leb_le _ _)) by lia. }
    rewrite Eb. split_and!; [done|done|]. split; [done|].
    destruct (Bytes_byte _ _ _ Ha) as (s2 & E2 & Hat2). unfold mbind. rewrite E2, Hbv. by exists s2.
  - assert (Forall is_byte rest /\ len rest < 2 ^ 64 /\ (S (length rest) <= bound)%nat) as (Hf' & Hlen' & Hl').
    { pose proof (head_length k n Hk Hn). subst inp. apply Forall_app in Hf as [_ Hf]. rewrite length_app in *.
      split_and!; [done|lia|lia]. }
    pose proof (st_ok_head k n st Hk Hn Hr Hst) as Hst'. apply fits_room in Hfit.
    destruct k; [done| |]; unfold mbind; cbv beta iota.
    + destruct (Bytes_string n rest (adv (len (head String n)) st) s') as [(b & rest' & E' & El & Hs & Hp)|(_ & e & s2 & -> & He)]; try done;
        [|right; by exists e, s2].
      left. exists (IBytes b), rest'. rewrite (encI_bytes b Hs), El. split_and!.
      * by rewrite E, E', app_assoc.
      * rewrite length_app. pose proof (head_length String n Hk Hn). lia.
      * by apply (parsed_head String n b IBytes).
    + destruct (listSlice_sound (decodeInterface fuel) (length rest) fuel n rest (adv (len (head List n)) st) s')
        as [(vs & rest' & E' & El & Hp)|(e & s2 & -> & He)]; try done; try lia.
      * intros st'. apply IH. lia.
      * destruct fuel; [lia|]. apply interface_stops.
      * left. exists (IList vs), rest'. rewrite encI_list, El. split_and!.
        -- by rewrite E, E', app_assoc.
        -- rewrite length_app. pose proof (head_length List n Hk Hn). lia.
        -- by apply (parsed_head List n (encIs vs) IList).
      * right. by exists e, s2.
  - right. by exists e, s'.
Qed.

(** A header in front of the input is the one [Kind] finds. *)
Lemma Kind_head k n rest st s : k <> Byte -> 0 <= n < 2 ^ 64 -> Forall is_byte (head k n ++ rest) -> st_ok st ->
  len (head k n ++ rest) < 2 ^ 64 -> room (len (head k n)) st -> fits n rest (adv (len (head k n)) st) ->
  at_ (head k n ++ rest) st s ->
  exists s', Kind_ s = (inr (k, n), s') /\ armed k n rest (adv (len (head k n)) st) s'.
Proof.
  intros Hk Hn Hf Hst Hlen Hr Hfit Hat. pose proof (head_length k n Hk Hn) as Hl.
  destruct (Kind_spec (head k n ++ rest) st s) as [(b & rest' & s' & E & Hlt & _)
    |[(k' & n' & rest' & s' & Hk' & E & Hn' & _ & _ & -> & Ha)|[[_ Hno] _]]]; try done.
  - destruct st as [|[p z] st]; [done|]. simpl in *. lia.
  - destruct (head_cases k n Hk Hn) as (b1 & tl & Eh & Hc). rewrite Eh in E. injection E as <- _.
    pose proof (putint_size_range n). destruct Hc as [(? & _ & ->)|(? & _ & ->)]; destruct k; try done; lia.
  - apply head_inj in E as (-> & -> & ->); try done. by exists s'.
  - by destruct (Hno k n rest).
Qed.

Lemma room_fits n payload rest k st : len payload = n -> room (len (head k n ++ payload)) st ->
  room (len (head k n)) st /\ room n (adv (len (head k n)) st) /\ fits n (payload ++ rest) (adv (len (head k n)) st).
Proof.
  intros El Hr. cbv beta in *. rewrite length_app in Hr. rewrite room_adv.
  destruct st as [|[p z] st]; simpl in *; [|lia]. rewrite length_app. lia.
Qed.

Lemma single_byte (b : bytes) : single b = true -> exists x, b = [x] /\ x < 128.
Proof. destruct b as [|x [|]]; try done. intros E%Z.leb_le. exists x. split; [done|lia]. Qed.

Lemma listSlice_complete dec bound fuel vs rest st s : Forall (complete dec bound) vs -> stops dec ->
  Forall is_byte (encIs vs ++ rest) -> len (encIs vs ++ rest) < 2 ^ 64 ->
  room (len (encIs vs)) st -> st_ok st ->
  (length (encIs vs ++ rest) <= bound)%nat -> (length vs < fuel)%nat ->
  armed List (len (encIs vs)) (encIs vs ++ rest) st s ->
  parsed (encIs vs) vs rest st (decodeListSlice dec fuel s).
Proof.
  intros Hc Hstop Hf Hlen Hr Hst Hb Hfuel Ha. unfold decodeListSlice. split; [done|].
  destruct (List_armed _ _ _ _ Ha) as (s1 & -> & Hat1). cbv beta in *.
  destruct (Z.eqb_spec (Z.of_nat (length (encIs vs))) 0) as [E0|Hn0].
  - assert (vs = []) as ->. { pose proof (encIs_length vs). destruct vs; [done|]. simpl in *. lia. }
    destruct (ListEnd_spec 0 rest st s1) as (s2 & E2 & Hat2); try done.
    unfold mbind. rewrite E2. by exists s2.
  - destruct (elems_complete dec bound vs fuel 0 (len (encIs vs)) rest st s1) as (s2 & E2 & Hat2); try done.
    { simpl. rewrite length_app in Hlen. lia. }
    destruct (ListEnd_spec (len (encIs vs)) rest st s2) as (s3 & E3 & Hat3); try done; [lia|].
    unfold mbind. rewrite E2, E3. by exists s3.
Qed.

Lemma interface_complete v : forall fuel bound, (bound < fuel)%nat -> complete (decodeInterface fuel) bound v.
Proof.
  induction v as [b|l IH] using item_deep_ind; intros fuel bound Hb inp rest st s Hf Hst Hlen Hl Hat -> Hr;
    (destruct fuel as [|fuel]; [lia|]); cbn [decodeInterface]; unfold mbind at 1.
  - destruct (single b) eqn:Es.
    + destruct (single_byte b Es) as (x & -> & Hx).
      assert (encI (IBytes [x]) = [x]) as Ex by (unfold encI; cbn [to_value enc]; unfold enc_string; by rewrite Es).
      rewrite Ex in *. split; [done|].
      destruct (Kind_spec ([x] ++ rest) st s) as [(b' & rest' & s' & E & _ & _ & -> & Ha & Hbv)
        |[(k & n & rest' & s' & Hk & E & Hn & _)|[[Hno _] _]]]; try done.
      * destruct st as [|[p z] st]; [done|]. simpl in *. lia.
      * injection E as -> ->. destruct (Bytes_byte _ _ _ Ha) as (s2 & E2 & Hat2). unfold mbind. rewrite E2, Hbv.
        by exists s2.
      * destruct (head_cases k n Hk Hn) as (b1 & tl & Eh & Hc). rewrite Eh in E. injection E as -> _.
        pose proof (putint_size_range n). destruct Hc as [(? & _ & ->)|(? & _ & ->)]; destruct k; try done; lia.
      * by destruct (Hno x rest).
    + rewrite (encI_bytes b Es) in *. rewrite <- app_assoc in *.
      destruct (room_fits (len b) b rest String st eq_refl Hr) as (Hr1 & Hr2 & Hfit).
      assert (0 <= len b < 2 ^ 64) as Hn by (rewrite !length_app in Hlen; lia).
      destruct (Kind_head String (len b) (b ++ rest) st s) as (s' & -> & Ha); try done.
      apply Forall_app in Hf as Hf'. destruct Hf' as [_ Hf'].
      assert (len (b ++ rest) < 2 ^ 64) as Hlen' by (rewrite length_app in Hlen; lia).
      assert (st_ok (adv (len (head String (len b))) st)) as Hst' by (by apply st_ok_head).
      destruct (Bytes_string (len b) (b ++ rest) (adv (len (head String (len b))) st) s')
        as [(b' & rest' & E & El & _ & Hp)|[Hno _]]; try done.
      * apply app_inj_1 in E as [-> ->]; [|lia]. by apply (parsed_head String (len b') b' IBytes).
      * by destruct (Hno b rest).
  - rewrite encI_list in *. rewrite <- app_assoc in *.
    destruct (room_fits (len (encIs l)) (encIs l) rest List st eq_refl Hr) as (Hr1 & Hr2 & Hfit).
    assert (0 <= len (encIs l) < 2 ^ 64) as Hn by (rewrite !length_app in Hlen; lia).
    destruct (Kind_head List (len (encIs l)) (encIs l ++ rest) st s) as (s' & -> & Ha); try done.
    apply Forall_app in Hf as Hf'. destruct Hf' as [_ Hf'].
    pose proof (head_length List (len (encIs l)) ltac:(done) Hn) as Hhl. rewrite length_app in Hl, Hlen.
    assert (st_ok (adv (len (head List (len (encIs l)))) st)) as Hst' by (by apply st_ok_head).
    destruct fuel as [|fuel]; [lia|].
    apply (parsed_head List (len (encIs l)) (encIs l) IList); [done|done|].
    apply (listSlice_complete _ (length (encIs l ++ rest))); try done; try lia.
    + apply Forall_forall. intros v Hv. rewrite Forall_forall in IH. apply IH; [done|lia].
    + apply interface_stops.
    + pose proof (encIs_length l). rewrite length_app in *. lia.
Qed.

(** ** Theorems *)
Lemma NewStream_at b : at_ b [] (NewStream b).
Proof. by split. Qed.

Lemma at_no_rest v st s : at_ [] st s -> match r s with [] => inr v | _ => inl ErrMoreThanOneValue end = (inr v : rlperr + item).
Proof. intros []. by rewrite at_r0. Qed.

Lemma Decode_sound b : Forall is_byte b -> len b < 2 ^ 64 ->
  match DecodeBytes b with inr v => b = encI v | inl e => e <> starved end.
Proof.
  intros Hf Hl. unfold DecodeBytes.
  destruct (interface_sound (S (S (length b))) (length b) [] ltac:(lia) b (NewStream b))
    as [(v & rest & E & _ & _ & s' & -> & Hat)|(e & s' & -> & [_ He])]; try done.
  rewrite (at_r _ _ _ Hat). destruct rest; [|done]. by rewrite app_nil_r in E.
Qed.

Lemma Decode_complete v : Forall is_byte (encI v) -> len (encI v) < 2 ^ 64 -> DecodeBytes (encI v) = inr v.
Proof.
  intros Hf Hl. unfold DecodeBytes.
  destruct (interface_complete v (S (S (length (encI v)))) (length (encI v)) ltac:(lia) (encI v) [] [] (NewStream (encI v)))
    as (_ & s' & -> & Hat); try done; [by rewrite app_nil_r|]. by apply (at_no_rest v (adv (len (encI v)) [])).
Qed.

(** C23: [DecodeBytes] accepts exactly the canonical encodings: it returns [v]
    if and only if its input is the encoding of [v], so that decoding inverts
    encoding and no other byte string decodes to the same value; on any other
    input it returns an error of the package, and the recursion ends. *)
Theorem decode_exactly_canonical (b : bytes) :
  Forall is_byte b -> len b < 2 ^ 64 ->
  DecodeBytes b <> inl starved /\ forall v, DecodeBytes b = inr v <-> b = enc (to_value v).
Proof.
  intros Hf Hl. pose proof (Decode_sound b Hf Hl) as Hs. split.
  - intros E. by rewrite E in Hs.
  - intros v. split.
    + intros E. by rewrite E in Hs.
    + intros ->. by apply Decode_complete.
Qed.

Definition sample_item : item :=
  IList [IBytes [1; 2; 3]; IList [IBytes [4; 0]; IList []; IBytes []]; IBytes (repeat 7 60); IBytes [1]].

Lemma decode_exactly_canonical_witness :
  DecodeBytes (enc (to_value sample_item)) = inr sample_item.
Proof.
  apply (decode_exactly_canonical (enc (to_value sample_item))).
  - apply Forall_forall. intros x Hx. vm_compute in Hx. repeat (apply elem_of_cons in Hx as [->|Hx]; [by split|]).
    by apply not_elem_of_nil in Hx.
  - vm_compute. reflexivity.
  - reflexivity.
Defined.

End RlpDecode.
