(* ===== verification/StateSpec.v ===== *)
(** * The state database implements a ledger of accounts

    A ledger maps addresses to accounts with a balance, a nonce, code and
    storage.  Through all its caches, every operation of [StateDB] acts on the
    accounts it shows as the corresponding operation of a ledger, and every
    query answers from the ledger. *)
From S2P Require Import Prelude EthMath StateDB StateRevert.

Module StateSpec.
Import StateDB StateRevert.

(** ** Ledgers *)
Record account := mkAcc {
  balance : Z; nonce : Z; codehash : Z; acode : bytes; dead : bool;
  storage : Z -> Z;      (* as the running transaction sees it *)
  saved : Z -> Z         (* as the last transaction left it *)
}.
Definition ledger : Type := Z -> option account.

Record acc_eq (x y : account) : Prop := {
  ae_balance : balance x = balance y;
  ae_nonce : nonce x = nonce y;
  ae_codehash : codehash x = codehash y;
  ae_acode : acode x = acode y;
  ae_dead : dead x = dead y;
  ae_storage : forall k, storage x k = storage y k;
  ae_saved : forall k, saved x k = saved y k
}.

#[export] Instance acc_eq_equiv : Equivalence acc_eq.
Proof.
  split.
  - by intros x.
  - intros x y []. by split.
  - intros x y z [] []. split; try congruence; intros k; etrans; eauto.
Qed.

Definition ledger_eq (l l' : ledger) : Prop := forall a, option_Forall2 acc_eq (l a) (l' a).

#[export] Instance ledger_eq_equiv : Equivalence ledger_eq.
Proof.
  split.
  - intros l a. by destruct (l a); constructor.
  - intros l l' E a. by destruct (E a); constructor.
  - intros l1 l2 l3 E1 E2 a. specialize (E1 a). specialize (E2 a).
    destruct E1; inversion E2; subst; constructor. by etrans.
Qed.

Section with_keccak.
Context `{Keccak}.

Definition fresh : account := mkAcc 0 0 emptyCodeHash [] false (fun _ => 0) (fun _ => 0).

(** Setters of an account. *)
Definition with_balance (v : Z) (x : account) : account :=
  mkAcc v (nonce x) (codehash x) (acode x) (dead x) (storage x) (saved x).
Definition with_nonce (n : Z) (x : account) : account :=
  mkAcc (balance x) n (codehash x) (acode x) (dead x) (storage x) (saved x).
Definition with_acode (c : bytes) (x : account) : account :=
  mkAcc (balance x) (nonce x) (Keccak256Hash c) c (dead x) (storage x) (saved x).
Definition with_slot (k w : Z) (x : account) : account :=
  mkAcc (balance x) (nonce x) (codehash x) (acode x) (dead x)
    (fun k' => if decide (k = k') then w else storage x k') (saved x).
Definition killed (x : account) : account :=
  mkAcc 0 (nonce x) (codehash x) (acode x) true (storage x) (saved x).

(** Changing one account, which is created when there is none. *)
Definition on (a : Z) (f : account -> account) (l : ledger) : ledger :=
  fun b => if decide (b = a) then Some (f (default fresh (l a))) else l b.
(** Changing one account if there is one. *)
Definition at_ (a : Z) (f : account -> account) (l : ledger) : ledger :=
  fun b => if decide (b = a) then f <$> l a else l b.

(** What the operations of the state do to the ledger. *)
Definition spec (o : op) (l : ledger) : ledger :=
  match o with
  | OAddBalance a v => on a (fun x => with_balance (balance x + v) x) l
  | OSubBalance a v => on a (fun x => with_balance (balance x - v) x) l
  | OSetBalance a v => on a (with_balance v) l
  | OSetNonce a n => on a (with_nonce n) l
  | OSetCode a c => on a (with_acode c) l
  | OSetState a k w => on a (with_slot k w) l
  | OCreateAccount a => on a (fun x => with_balance (balance x) fresh) l
  | OSuicide a => at_ a killed l
  | _ => l
  end.

(** ** The ledger of a state *)
Definition view (cs : gmap Z bytes) (o : stateObject) : account :=
  mkAcc (Balance (data o)) (Nonce (data o)) (CodeHash (data o)) (code_of cs o) (suicided o)
    (current o) (committed o).
Definition abs (s : StateDB) : ledger := fun a => view (codes s) <$> peek s a.

#[local] Infix "≈" := state_eq (at level 70).
#[local] Infix "≡ₗ" := ledger_eq (at level 70).

Lemma view_proper cs o o' : obj_eq cs o o' -> acc_eq (view cs o) (view cs o').
Proof. intros []. by split. Qed.

Lemma abs_proper s s' : s ≈ s' -> abs s ≡ₗ abs s'.
Proof.
  intros Hs a. unfold abs. rewrite <- (se_codes _ _ Hs).
  destruct (se_objects _ _ Hs a); constructor. by apply view_proper.
Qed.

Lemma abs_set s o b : deleted o = false ->
  abs (setStateObject o s) b = if decide (b = address o) then Some (view (codes s) o) else abs s b.
Proof.
  intros Hd. unfold abs. destruct (decide (b = address o)) as [->|Hne].
  - by rewrite peek_set_eq.
  - by rewrite peek_set_ne.
Qed.

(** Storing the image of the object that was there. *)
Lemma abs_set_on a s0 s o o' f : abs s ≡ₗ on a id s0 -> address o' = a -> deleted o' = false ->
  acc_eq (view (codes s) o) (default fresh (s0 a)) ->
  (forall x, acc_eq (view (codes s) o) x -> acc_eq (view (codes s) o') (f x)) ->
  abs (setStateObject o' s) ≡ₗ on a f s0.
Proof.
  intros Hs Ha Hd Ho Hf b. rewrite abs_set, Ha by done. unfold on. specialize (Hs b). unfold on in Hs.
  destruct (decide (b = a)) as [->|Hne]; [|done]. constructor. by apply Hf.
Qed.

Lemma on_id_some a l x : l a = Some x -> l ≡ₗ on a id l.
Proof.
  intros E b. unfold on. destruct (decide (b = a)) as [->|Hne]; [|by destruct (l b); constructor].
  rewrite E. by constructor.
Qed.

Lemma on_proper a f l l' : (forall x y, acc_eq x y -> acc_eq (f x) (f y)) -> l ≡ₗ l' -> on a f l ≡ₗ on a f l'.
Proof.
  intros Hf E b. unfold on. destruct (decide (b = a)); [|apply E]. constructor. apply Hf. by destruct (E a).
Qed.

Lemma at_proper a f l l' : (forall x y, acc_eq x y -> acc_eq (f x) (f y)) -> l ≡ₗ l' -> at_ a f l ≡ₗ at_ a f l'.
Proof.
  intros Hf E b. unfold at_. destruct (decide (b = a)); [|apply E]. destruct (E a); constructor. by apply Hf.
Qed.

(** *** Objects are found, or created fresh *)
Lemma createObject_abs a s : live s ->
  exists o s', createObject a s = (o, peek s a, s') /\ live s' /\ codes s' = codes s /\
    address o = a /\ deleted o = false /\ view (codes s) o = fresh /\
    (forall o', address o' = a -> deleted o' = false ->
       abs (setStateObject o' s') ≡ₗ on a (fun _ => view (codes s) o') (abs s)) /\
    abs s' ≡ₗ on a (fun _ => fresh) (abs s).
Proof.
  intros Hw. unfold createObject. destruct (getStateObject_spec a s Hw) as (s1 & -> & Hw1 & Hs1 & _).
  set (o := setNonce 0 (newObject a Account0)).
  assert (exists e, match peek s a with Some prev => journal_append (resetObjectChange prev) s1
    | None => journal_append (createObjectChange a) s1 end = journal_append e s1) as [e Ee].
  { destruct (peek s a); by eexists. }
  rewrite Ee. exists o, (setStateObject o (journal_append e s1)).
  assert (codes s1 = codes s) as Hc by (by rewrite (se_codes _ _ Hs1)).
  assert (view (codes s) o = fresh) as Hv.
  { unfold view, o. simpl. unfold fresh. f_equal. unfold code_of. simpl. by rewrite Z.eqb_refl. }
  assert (forall o', address o' = a -> deleted o' = false ->
       abs (setStateObject o' (setStateObject o (journal_append e s1))) ≡ₗ on a (fun _ => view (codes s) o') (abs s)) as Hset.
  { intros o' Ha' Hd'. rewrite set_set by done. intros b. rewrite abs_set by done. rewrite Ha'. unfold on.
    destruct (decide (b = a)); [simpl; rewrite Hc; by constructor|]. apply (abs_proper _ _ Hs1). }
  split_and!; try done.
  - by apply live_set; [apply append_live|].
  - specialize (Hset o eq_refl eq_refl). rewrite set_set, Hv in Hset by done. exact Hset.
Qed.

Lemma GetOrNew_abs a s : live s ->
  exists o s', GetOrNewStateObject a s = (o, s') /\ live s' /\ codes s' = codes s /\
    address o = a /\ deleted o = false /\ peek s' a = Some o /\
    acc_eq (view (codes s') o) (default fresh (abs s a)) /\ abs s' ≡ₗ on a id (abs s).
Proof.
  intros Hw. unfold GetOrNewStateObject. destruct (getStateObject_spec a s Hw) as (s1 & E1 & Hw1 & Hs1 & _).
  rewrite E1. assert (codes s1 = codes s) as Hc by (by rewrite (se_codes _ _ Hs1)).
  destruct (peek s a) as [o|] eqn:Hp.
  - exists o, s1. destruct (peek_ok _ _ _ (live_objects _ Hw) Hp). split_and!; try done.
    + by apply (peek_loaded a s).
    + unfold abs. rewrite Hp, Hc. done.
    + rewrite (abs_proper _ _ Hs1). apply (on_id_some a _ (view (codes s) o)). unfold abs. by rewrite Hp.
  - destruct (createObject_abs a s1 Hw1) as (o & s2 & E & Hw2 & Hc2 & Ha & Hd & Hv & _ & Habs).
    destruct (createObject_spec a s1 Hw1) as (o' & s2' & E' & _ & _ & _ & _ & Hp2 & _).
    rewrite E in E'. injection E' as <- <-. rewrite E. exists o, s2. split_and!; try done; [congruence|..].
    + rewrite Hc2, Hv. unfold abs. by rewrite Hp.
    + rewrite Habs. unfold on. intros b. destruct (decide (b = a)) as [->|Hne].
      * unfold abs. rewrite Hp. by constructor.
      * apply (abs_proper _ _ Hs1).
Qed.

(** *** Setters *)
Lemma set_on a s s1 o e o' f : live s -> abs s1 ≡ₗ on a id (abs s) -> address o' = a -> deleted o' = false ->
  acc_eq (view (codes s1) o) (default fresh (abs s a)) ->
  (forall x, acc_eq (view (codes s1) o) x -> acc_eq (view (codes s1) o') (f x)) ->
  abs (setStateObject o' (journal_append e s1)) ≡ₗ on a f (abs s).
Proof. intros Hw Hs Ha Hd Ho Hf. by apply (abs_set_on a (abs s) (journal_append e s1) o o' f). Qed.

Ltac setter_abs a s Hw :=
  destruct (GetOrNew_abs a s Hw) as (?o & ?s1 & -> & ?Hw1 & ?Hc & ?Ha & ?Hd & ?Hp & ?Ho & ?Hs).

Lemma SetBalance_abs a w s : live s -> abs (SetBalance a w s) ≡ₗ on a (with_balance w) (abs s).
Proof.
  intros Hw. unfold SetBalance. setter_abs a s Hw. unfold object_SetBalance.
  apply (set_on a s s1 o); try done. intros x []. by split.
Qed.

Lemma AddBalance_abs a w s : live s ->
  abs (AddBalance a w s) ≡ₗ on a (fun x => with_balance (balance x + w) x) (abs s).
Proof.
  intros Hw. unfold AddBalance. setter_abs a s Hw. unfold object_AddBalance.
  destruct (Z.eqb_spec w 0) as [->|Hne].
  - assert (abs s1 ≡ₗ on a (fun x => with_balance (balance x + 0) x) (abs s)) as Hr.
    { rewrite Hs. intros b. unfold on. destruct (decide (b = a)); [|by destruct (abs s b); constructor].
      constructor. split; try done. simpl. lia. }
    destruct (empty o); [|done]. unfold touch. by destruct (address o =? ripemd).
  - unfold object_SetBalance. apply (set_on a s s1 o); try done. intros x []. split; try done. simpl in *. lia.
Qed.

Lemma SubBalance_abs a w s : live s ->
  abs (SubBalance a w s) ≡ₗ on a (fun x => with_balance (balance x - w) x) (abs s).
Proof.
  intros Hw. unfold SubBalance. setter_abs a s Hw. unfold object_SubBalance.
  destruct (Z.eqb_spec w 0) as [->|Hne].
  - rewrite Hs. intros b. unfold on. destruct (decide (b = a)); [|by destruct (abs s b); constructor].
    constructor. split; try done. simpl. lia.
  - unfold object_SetBalance. apply (set_on a s s1 o); try done. intros x []. split; try done. simpl in *. lia.
Qed.

Lemma SetNonce_abs a n s : live s -> abs (SetNonce a n s) ≡ₗ on a (with_nonce n) (abs s).
Proof.
  intros Hw. unfold SetNonce. setter_abs a s Hw. unfold object_SetNonce.
  apply (set_on a s s1 o); try done. intros x []. by split.
Qed.

Lemma SetCode_abs a c s : live s -> abs (SetCode a c s) ≡ₗ on a (with_acode c) (abs s).
Proof.
  intros Hw. unfold SetCode. setter_abs a s Hw. unfold object_SetCode.
  destruct (object_Code_spec (codes s1) o) as (c0 & o' & E & _ & Ho' & Hh & _). rewrite E.
  destruct (setCode_undo _ (Keccak256Hash c) (slice_code c) _ _ _ E) as [-> _].
  apply (set_on a s s1 o); try done. intros x []. split; try done.
  simpl. unfold code_of. simpl. destruct c; [|done]. simpl. unfold emptyCodeHash. by rewrite Z.eqb_refl.
Qed.

Lemma SetState_abs a k w s : live s -> abs (SetState a k w s) ≡ₗ on a (with_slot k w) (abs s).
Proof.
  intros Hw. unfold SetState. setter_abs a s Hw. unfold object_SetState.
  destruct (object_GetState_spec (codes s1) k o) as (o' & -> & Ho').
  pose proof (oe_address _ _ _ Ho') as Ha'. pose proof (oe_deleted _ _ _ Ho') as Hd'.
  pose proof (view_proper _ _ _ Ho') as Hv.
  destruct (Z.eqb_spec (current o k) w) as [<-|Hne].
  - apply (abs_set_on a (abs s) s1 o); try done; [congruence..|]. intros x Hx. rewrite Hv, Hx. destruct Hx.
    split; try done. intros k'. simpl in *. destruct (decide (k = k')) as [->|]; [|done]. by rewrite ae_storage0.
  - apply (set_on a s s1 o); try done; simpl; [congruence..|]. intros x Hx. rewrite <- Hv in Hx. destruct Hx.
    split; try done. intros k'. simpl in *. rewrite current_setState. by destruct (decide (k = k')).
Qed.

Lemma CreateAccount_abs a s : live s ->
  abs (CreateAccount a s) ≡ₗ on a (fun x => with_balance (balance x) fresh) (abs s).
Proof.
  intros Hw. unfold CreateAccount.
  destruct (createObject_abs a s Hw) as (o & s' & -> & Hw' & Hc & Ha & Hd & Hv & Hset & Hs).
  destruct (peek s a) as [prev|] eqn:Hp.
  - rewrite (Hset (setBalance (Balance (data prev)) o)) by done. intros b. unfold on.
    destruct (decide (b = a)); [|by destruct (abs s b); constructor]. constructor.
    change (view (codes s) (setBalance ?w o)) with (with_balance w (view (codes s) o)). rewrite Hv.
    unfold abs. rewrite Hp. done.
  - rewrite Hs. intros b. unfold on. destruct (decide (b = a)); [|by destruct (abs s b); constructor].
    constructor. unfold abs. by rewrite Hp.
Qed.

Lemma Suicide_abs a s : live s -> abs (Suicide a s).2 ≡ₗ at_ a killed (abs s).
Proof.
  intros Hw. unfold Suicide. destruct (getStateObject_spec a s Hw) as (s1 & E & Hw1 & Hs1 & _). rewrite E.
  pose proof (abs_proper _ _ Hs1) as Hv1. assert (codes s1 = codes s) as Hc by (by rewrite (se_codes _ _ Hs1)).
  destruct (peek s a) as [o|] eqn:Hp; cbn [snd].
  - destruct (peek_ok _ _ _ (live_objects _ Hw) Hp) as [Ha Hd]. intros b. rewrite abs_set by done.
    unfold at_. simpl. rewrite Ha. destruct (decide (b = a)) as [->|Hne]; [|apply Hv1].
    unfold abs. rewrite Hp, Hc. by constructor.
  - rewrite Hv1. intros b. unfold at_, abs. destruct (decide (b = a)) as [->|Hne].
    + rewrite Hp. constructor.
    + by destruct (peek s b); constructor.
Qed.

(** ** Queries answer from the ledger *)
Definition from {A} (d : A) (f : account -> A) (l : ledger) (a : Z) : A :=
  match l a with Some x => f x | None => d end.

Lemma from_proper {A} (d : A) f l l' a : (forall x y, acc_eq x y -> f x = f y) -> l ≡ₗ l' ->
  from d f l a = from d f l' a.
Proof. intros Hf E. unfold from. destruct (E a); auto. Qed.

(** A query loads objects, storage and code, and shows nothing of it. *)
Definition silent (s s' : StateDB) : Prop := live s' /\ s' ≈ s /\ same_log s s'.

Lemma query_spec {A} (f : option stateObject -> A) a s : live s ->
  exists s', (let '(o, s') := getStateObject a s in (f o, s')) = (f (peek s a), s') /\ silent s s'.
Proof.
  intros Hw. destruct (getStateObject_spec a s Hw) as (s' & -> & Hw' & Hs & Hl). by exists s'.
Qed.

Lemma GetBalance_spec a s : live s -> exists s', GetBalance a s = (from 0 balance (abs s) a, s') /\ silent s s'.
Proof.
  intros Hw. destruct (query_spec (fun o => match o with Some o => Balance (data o) | None => 0 end) a s Hw) as (s' & E & Hs).
  exists s'. split; [|done]. unfold GetBalance. rewrite E. f_equal. unfold from, abs. by destruct (peek s a).
Qed.

Lemma GetNonce_spec a s : live s -> exists s', GetNonce a s = (from 0 nonce (abs s) a, s') /\ silent s s'.
Proof.
  intros Hw. destruct (query_spec (fun o => match o with Some o => Nonce (data o) | None => 0 end) a s Hw) as (s' & E & Hs).
  exists s'. split; [|done]. unfold GetNonce. rewrite E. f_equal. unfold from, abs. by destruct (peek s a).
Qed.

Lemma GetCodeHash_spec a s : live s -> exists s', GetCodeHash a s = (from 0 codehash (abs s) a, s') /\ silent s s'.
Proof.
  intros Hw. destruct (query_spec (fun o => match o with Some o => CodeHash (data o) | None => 0 end) a s Hw) as (s' & E & Hs).
  exists s'. split; [|done]. unfold GetCodeHash. rewrite E. f_equal. unfold from, abs. by destruct (peek s a).
Qed.

Lemma HasSuicided_spec a s : live s -> exists s', HasSuicided a s = (from false dead (abs s) a, s') /\ silent s s'.
Proof.
  intros Hw. destruct (query_spec (fun o => match o with Some o => suicided o | None => false end) a s Hw) as (s' & E & Hs).
  exists s'. split; [|done]. unfold HasSuicided. rewrite E. f_equal. unfold from, abs. by destruct (peek s a).
Qed.

Lemma Exist_spec a s : live s -> exists s', Exist a s = (from false (fun _ => true) (abs s) a, s') /\ silent s s'.
Proof.
  intros Hw. destruct (query_spec (fun o => bool_decide (is_Some o)) a s Hw) as (s' & E & Hs).
  exists s'. split; [|done]. unfold Exist. rewrite E. f_equal. unfold from, abs. by destruct (peek s a).
Qed.

(** An account without nonce, balance and code. *)
Definition bare (x : account) : bool := (nonce x =? 0) && (balance x =? 0) && (codehash x =? emptyCodeHash).

Lemma Empty_spec a s : live s -> exists s', Empty a s = (from true bare (abs s) a, s') /\ silent s s'.
Proof.
  intros Hw. destruct (query_spec (fun o => match o with None => true | Some o => empty o end) a s Hw) as (s' & E & Hs).
  exists s'. split; [|done]. unfold Empty. rewrite E. f_equal. unfold from, abs. by destruct (peek s a).
Qed.

(** Queries that also cache in the object. *)
Lemma cached_spec {A} a s (get : gmap Z bytes -> stateObject -> A * stateObject) (f : stateObject -> A) (d : A) : live s ->
  (forall o, exists o', get (codes s) o = (f o, o') /\ obj_eq (codes s) o' o) ->
  exists s', (let '(o, s1) := getStateObject a s in
    match o with Some o => let '(x, o) := get (codes s1) o in (x, setStateObject o s1) | None => (d, s1) end)
    = (match peek s a with Some o => f o | None => d end, s') /\ silent s s'.
Proof.
  intros Hw Hget. destruct (getStateObject_spec a s Hw) as (s1 & E & Hw1 & Hs1 & Hl1). rewrite E.
  assert (codes s1 = codes s) as Hc by (by rewrite (se_codes _ _ Hs1)). rewrite Hc.
  destruct (peek s a) as [o|] eqn:Hp; [|by exists s1].
  destruct (Hget o) as (o' & -> & Ho). destruct (peek_ok _ _ _ (live_objects _ Hw) Hp) as [Ha Hd].
  pose proof (peek_loaded _ _ _ _ Hw E) as Hp1.
  destruct (set_cached s1 a o o' Hw1 Hp1 Ha Hd ltac:(by rewrite Hc)) as (_ & Hl & Hs).
  exists (setStateObject o' s1). split; [done|]. split_and!; [done|by rewrite Hs|done..].
Qed.

Lemma GetCode_spec a s : live s -> exists s', GetCode a s = (from [] acode (abs s) a, s') /\ silent s s'.
Proof.
  intros Hw. destruct (cached_spec a s (fun cs o => let '(c, o) := object_Code cs o in (code_slice c, o))
    (code_of (codes s)) [] Hw) as (s' & E & Hs).
  { intros o. destruct (object_Code_spec (codes s) o) as (c & o' & -> & <- & Ho & _). by exists o'. }
  exists s'. split; [|done]. unfold GetCode. etrans; [|etrans; [exact E|]].
  - destruct (getStateObject a s) as [[o|] s1]; [|done]. by destruct (object_Code (codes s1) o).
  - f_equal. unfold from, abs. by destruct (peek s a).
Qed.

Lemma GetState_spec a k s : live s -> exists s', GetState a k s = (from 0 (fun x => storage x k) (abs s) a, s') /\ silent s s'.
Proof.
  intros Hw. destruct (cached_spec a s (fun _ => object_GetState k) (fun o => current o k) 0 Hw) as (s' & E & Hs).
  { intros o. apply object_GetState_spec. }
  exists s'. split; [|done]. unfold GetState. rewrite E. f_equal. unfold from, abs. by destruct (peek s a).
Qed.

Lemma GetCommittedState_spec a k s : live s ->
  exists s', GetCommittedState a k s = (from 0 (fun x => saved x k) (abs s) a, s') /\ silent s s'.
Proof.
  intros Hw. destruct (cached_spec a s (fun _ => object_GetCommittedState k) (fun o => committed o k) 0 Hw) as (s' & E & Hs).
  { intros o. destruct (object_GetCommittedState_spec (codes s) k o) as (o' & ? & ? & _). by exists o'. }
  exists s'. split; [|done]. unfold GetCommittedState. rewrite E. f_equal. unfold from, abs. by destruct (peek s a).
Qed.

Lemma GetCodeSize_spec a s : live s -> exists n s', GetCodeSize a s = (Z.of_nat n, s') /\ silent s s'.
Proof.
  intros Hw. unfold GetCodeSize. destruct (getStateObject_spec a s Hw) as (s1 & -> & Hw1 & Hs1 & Hl1).
  destruct (peek s a) as [o|]; [|by exists 0%nat, s1]. destruct (code o); by eexists _, s1.
Qed.

(** The answers of a state are those of a ledger. *)
Record answers (s : StateDB) (l : ledger) : Prop := {
  an_balance : forall a, (GetBalance a s).1 = from 0 balance l a;
  an_nonce : forall a, (GetNonce a s).1 = from 0 nonce l a;
  an_codehash : forall a, (GetCodeHash a s).1 = from 0 codehash l a;
  an_code : forall a, (GetCode a s).1 = from [] acode l a;
  an_state : forall a k, (GetState a k s).1 = from 0 (fun x => storage x k) l a;
  an_committed : forall a k, (GetCommittedState a k s).1 = from 0 (fun x => saved x k) l a;
  an_exist : forall a, (Exist a s).1 = from false (fun _ => true) l a;
  an_empty : forall a, (Empty a s).1 = from true bare l a;
  an_suicided : forall a, (HasSuicided a s).1 = from false dead l a
}.

Ltac answer L := intros; edestruct L as (? & -> & _); [done|]; apply from_proper; [by intros ? ? []|done].

Lemma abs_answers s l : live s -> abs s ≡ₗ l -> answers s l.
Proof.
  intros Hw Hl. split; intros a.
  - answer (GetBalance_spec a s).
  - answer (GetNonce_spec a s).
  - answer (GetCodeHash_spec a s).
  - answer (GetCode_spec a s).
  - intros k. answer (GetState_spec a k s).
  - intros k. answer (GetCommittedState_spec a k s).
  - answer (Exist_spec a s).
  - destruct (Empty_spec a s Hw) as (s1 & -> & _). apply from_proper; [|done].
    intros x y []. unfold bare. congruence.
  - answer (HasSuicided_spec a s).
Qed.

(** Operations other than returning to a snapshot. *)
Definition plain (o : op) : bool := match o with ORevert _ => false | _ => true end.

Lemma silent_abs s s' l : silent s s' -> abs s ≡ₗ l -> abs s' ≡ₗ l.
Proof. intros (_ & Hs & _) <-. by apply abs_proper. Qed.

Lemma exec_abs o s s' : live s -> plain o = true -> exec o s = Ok s' -> abs s' ≡ₗ spec o (abs s).
Proof.
  intros Hw Hp E.
  destruct o; cbn [exec spec plain] in *; try done; try injection E as <-.
  - by apply CreateAccount_abs.
  - by apply AddBalance_abs.
  - by apply SubBalance_abs.
  - by apply SetBalance_abs.
  - by apply SetNonce_abs.
  - by apply SetCode_abs.
  - by apply SetState_abs.
  - by apply Suicide_abs.
  - done.
  - unfold SubRefund in E. destruct (g >? _); [done|]. by injection E as <-.
  - done.
  - unfold AddPreimage. by destruct (preimages s !! h).
  - destruct (GetCode_spec a s Hw) as (? & -> & Hs). by eapply silent_abs.
  - destruct (GetState_spec a k s Hw) as (? & -> & Hs). by eapply silent_abs.
  - destruct (GetCommittedState_spec a k s Hw) as (? & -> & Hs). by eapply silent_abs.
  - destruct (Exist_spec a s Hw) as (? & -> & Hs). by eapply silent_abs.
  - done.
Qed.

Lemma exec_live o s s' : live s -> plain o = true -> exec o s = Ok s' -> live s'.
Proof.
  intros Hw Hp E. destruct o; cbn [exec plain] in *; try done; try injection E as <-;
    try (apply (delta_keeps_live s); [|done];
         auto using CreateAccount_delta, AddBalance_delta, SubBalance_delta, SetBalance_delta,
           SetNonce_delta, SetCode_delta, SetState_delta, Suicide_delta, AddRefund_delta,
           AddLog_delta, AddPreimage_delta, GetCode_delta, GetState_delta,
           GetCommittedState_delta, Exist_delta; fail).
  - apply (delta_keeps_live s); [|done]. by eapply SubRefund_delta.
  - by destruct Hw.
Qed.

Lemma spec_proper o l l' : l ≡ₗ l' -> spec o l ≡ₗ spec o l'.
Proof.
  intros E. destruct o; cbn [spec]; try done; (apply on_proper || apply at_proper); try done;
    intros x y []; split; simpl; try congruence; try done.
  intros k'. by destruct (decide _).
Qed.

Definition spec_all (ops : list op) (l : ledger) : ledger := fold_left (fun l o => spec o l) ops l.

Lemma spec_all_proper ops l l' : l ≡ₗ l' -> spec_all ops l ≡ₗ spec_all ops l'.
Proof. revert l l'. induction ops as [|o ops IH]; intros l l' E; [done|]. by apply IH, spec_proper. Qed.


End with_keccak.


End StateSpec.
