(* ===== verification/EvmBase.v ===== *)
(** * eth/core/vm: what the interpreter works on

    The chain configuration (eth/params), the errors, stack, memory, contract
    and EVM records, the arithmetic of sizes and gas (common.go, memory.go,
    memory_table.go), and the monad of instructions.

    A run ends, crashes the process, or (in the model only) runs out of fuel.
    Crashes keep their cause.  [*big.Int] values on the stack are [Z]; the top
    of the stack is the head of the list. *)
From S2P Require Import Prelude EthMath EvmCode StateDB.

Module EvmBase.
Import EthMath EvmCode.
Export EvmCode.

Abbreviation len bz := (Z.of_nat (length bz)).

(** ** Outcomes *)
Inductive crash :=
| index_out_of_range      (* of a slice, or the stack *)
| invalid_memory          (* memory.go: "invalid memory: store empty" *)
| state_panic             (* a panic inside the state database *)
| admin_input             (* AdminOP.Run on a short input *)
| gas_pool_overflow       (* gaspool.go: "gas pool pushed above uint64" *)
| nil_dereference
| no_ewasm.               (* NewEVM on a chain with EWASM *)

Inductive vmres (A : Type) :=
| Done (a : A)
| Crash (c : crash)
| Starved.
Arguments Done {A} a.
Arguments Crash {A} c.
Arguments Starved {A}.

Definition vbind {A B} (m : vmres A) (k : A -> vmres B) : vmres B :=
  match m with Done a => k a | Crash c => Crash c | Starved => Starved end.
Notation "'do!' x := m 'in' k" := (vbind m (fun x => k))
  (at level 10, x pattern, m at level 100, k at level 200) : go_scope.

Definition or_crash {A} (c : crash) (r : res A) : vmres A :=
  match r with Ok a => Done a | Panic => Crash c end.

Inductive vmerror :=
| ErrOutOfGas | ErrCodeStoreOutOfGas | ErrDepth | ErrInsufficientBalance
| ErrContractAddressCollision
| errWriteProtection | errReturnDataOutOfBounds | errExecutionReverted | errMaxCodeSizeExceeded
| errGasUintOverflow
| errInvalidOpcode | errStackUnderflow | errStackLimit | errInvalidJump
| errBadPairingInput | errMalformedPoint | errAdmin.

#[export] Instance vmerror_eq_dec : EqDecision vmerror.
Proof. solve_decision. Defined.

(** ** params/config.go *)
Record ChainConfig := mkChainConfig {
  HomesteadBlock : option Z; EIP150Block : option Z; EIP158Block : option Z;
  ByzantiumBlock : option Z; ConstantinopleBlock : option Z; EWASMBlock : option Z
}.

Definition isForked (s : option Z) (head : Z) : bool :=
  match s with None => false | Some s => s <=? head end.

Definition IsHomestead (c : ChainConfig) (num : Z) : bool := isForked (HomesteadBlock c) num.
Definition IsEIP150 (c : ChainConfig) (num : Z) : bool := isForked (EIP150Block c) num.
Definition IsEIP158 (c : ChainConfig) (num : Z) : bool := isForked (EIP158Block c) num.
Definition IsByzantium (c : ChainConfig) (num : Z) : bool := isForked (ByzantiumBlock c) num.
Definition IsConstantinople (c : ChainConfig) (num : Z) : bool := isForked (ConstantinopleBlock c) num.
Definition IsEWASM (c : ChainConfig) (num : Z) : bool := isForked (EWASMBlock c) num.

Definition MainnetChainConfig : ChainConfig :=
  mkChainConfig (Some 1150000) (Some 2463000) (Some 2675000) (Some 4370000) None None.

(** params/gas_table.go: [GasTable] returns [GasTableConstantinople] at every height. *)
Record GasTable := mkGasTable {
  ExtcodeSize : Z; ExtcodeCopy : Z; ExtcodeHash : Z; gt_Balance : Z; SLoad : Z; Calls : Z;
  gt_Suicide : Z; ExpByte : Z; CreateBySuicide : Z
}.
Definition GasTableConstantinople : GasTable := mkGasTable 700 700 400 400 200 700 5000 50 25000.
Abbreviation gt := GasTableConstantinople.

(** params/protocol_params.go *)
Definition MaxCodeSize : Z := 24576.
Definition CallCreateDepth : Z := 1024.
Definition StackLimit : Z := 1024.
Definition CallStipend : Z := 2300.
Definition CreateDataGas : Z := 200.

(** ** common.go *)
Definition calcMemSize (off l : Z) : Z := if l =? 0 then 0 else off + l.

Definition getData (d : bytes) (start size : Z) : vmres bytes :=
  let length := len d in
  let start := if start >? length then length else start in
  let end_ := u64 (start + size) in
  let end_ := if end_ >? length then length else end_ in
  do! s := or_crash index_out_of_range (go_slice d start end_) in
  Done (RightPadBytes s (i64 size)).

(** Positions inside a slice fit an [int] and a [uint64]. *)
Definition getDataBig (d : bytes) (start size : Z) : vmres bytes :=
  let dlen := len d in
  let s := BigMin start dlen in
  let e := BigMin (s + size) dlen in
  do! sl := or_crash index_out_of_range (go_slice d s e) in
  Done (RightPadBytes sl (i64 (Uint64 size))).

Definition bigUint64 (v : Z) : Z * bool := (Uint64 v, BitLen v >? 64).

Definition toWordSize (size : Z) : Z :=
  if size >? MaxUint64 - 31 then MaxUint64 / 32 + 1 else (size + 31) / 32.

Definition allZero (b : bytes) : bool := forallb (fun x => x =? 0) b.

Definition useGas (gas amount : Z) : Z * bool :=
  if gas <? amount then (gas, false) else (gas - amount, true).

(** ** memory.go *)
Record Memory := mkMemory { store : bytes; lastGasCost : Z }.
Definition NewMemory : Memory := mkMemory [] 0.
Definition mem_Len (m : Memory) : Z := len (store m).

(** [copy(store[lo:hi], value)] *)
Definition copy_to (lo hi : Z) (v : bytes) (st : bytes) : vmres bytes :=
  do! dst := or_crash index_out_of_range (go_slice st lo hi) in
  let v := take (length dst) v in
  Done (take (Z.to_nat lo) st ++ v ++ drop (Z.to_nat lo + length v) st).

Definition mem_Set (offset size : Z) (v : bytes) (m : Memory) : vmres Memory :=
  if size >? 0 then
    if u64 (offset + size) >? mem_Len m then Crash invalid_memory
    else do! st := copy_to offset (u64 (offset + size)) v (store m) in Done (mkMemory st (lastGasCost m))
  else Done m.

Definition mem_Set32 (offset v : Z) (m : Memory) : vmres Memory :=
  if u64 (offset + 32) >? mem_Len m then Crash invalid_memory
  else
    do! st := copy_to offset (u64 (offset + 32)) (ReadBits v (replicate 32 0)) (store m) in
    Done (mkMemory st (lastGasCost m)).

Definition mem_Resize (size : Z) (m : Memory) : Memory :=
  if mem_Len m <? size
  then mkMemory (store m ++ replicate (Z.to_nat (size - mem_Len m)) 0) (lastGasCost m) else m.

(** [Get] and [GetPtr]: a slice of the length asked for. *)
Definition mem_Get (offset size : Z) (m : Memory) : vmres bytes :=
  if size =? 0 then Done []
  else if mem_Len m >? offset
  then or_crash index_out_of_range (go_slice (store m) offset (i64 (offset + size)))
  else Done [].

(** ** contract.go

    The cached jump destination analyses are functions of the code. *)
Record Contract := mkContract {
  CallerAddress : Z; self : Z; Code : bytes; CodeAddr : option Z; Input : bytes; Gas : Z; value : Z
}.

Definition NewContract (caller object value gas : Z) : Contract := mkContract caller object [] None [] gas value.
Definition SetCallCode (addr : Z) (code : bytes) (c : Contract) : Contract :=
  mkContract (CallerAddress c) (self c) code (Some addr) (Input c) (Gas c) (value c).
Definition set_Input (i : bytes) (c : Contract) : Contract :=
  mkContract (CallerAddress c) (self c) (Code c) (CodeAddr c) i (Gas c) (value c).
Definition set_Gas (g : Z) (c : Contract) : Contract :=
  mkContract (CallerAddress c) (self c) (Code c) (CodeAddr c) (Input c) g (value c).
(** [NewContract(caller, to, nil, gas).AsDelegate()] *)
Definition AsDelegate (parent c : Contract) : Contract :=
  mkContract (CallerAddress parent) (self c) (Code c) (CodeAddr c) (Input c) (Gas c) (value parent).

Definition GetByte (n : Z) (c : Contract) : Z :=
  if n <? len (Code c) then default 0 (Code c !! Z.to_nat n) else 0.

Definition UseGas (gas : Z) (c : Contract) : bool * Contract :=
  if Gas c <? gas then (false, c) else (true, set_Gas (Gas c - gas) c).

Definition validJumpdest (dest : Z) (c : Contract) : vmres bool :=
  let udest := Uint64 dest in
  if (BitLen dest >=? 63) || (udest >=? len (Code c)) then Done false
  else if negb (default 0 (Code c !! Z.to_nat udest) =? JUMPDEST_byte) then Done false
  else
    do! analysis := or_crash index_out_of_range (codeBitmap (Code c)) in
    or_crash index_out_of_range (codeSegment analysis (Z.to_nat udest)).

(** ** evm.go: the context of a transaction and the machine *)
Record Env := mkEnv {
  chainConfig : ChainConfig;
  NoRecursion : bool; EnablePreimageRecording : bool; EVMGasLimit : Z;
  Origin : Z; GasPrice : Z; Coinbase : Z; GasLimit : Z; BlockNumber : Z; Time : Z; Difficulty : Z;
  GetHash : Z -> Z
}.

(** The fields of [EVM] and of its interpreter that change. *)
Record EVM := mkEVM {
  sdb : StateDB.StateDB; depth : Z; callGasTemp : Z; gasLeft : Z; readOnly : bool; returnData : bytes
}.

Definition with_sdb (s : StateDB.StateDB) (e : EVM) : EVM :=
  mkEVM s (depth e) (callGasTemp e) (gasLeft e) (readOnly e) (returnData e).
Definition with_gasLeft (g : Z) (e : EVM) : EVM :=
  mkEVM (sdb e) (depth e) (callGasTemp e) g (readOnly e) (returnData e).
Definition with_returnData (d : bytes) (e : EVM) : EVM :=
  mkEVM (sdb e) (depth e) (callGasTemp e) (gasLeft e) (readOnly e) d.

Definition NewEVM (v : Env) (s : StateDB.StateDB) : vmres EVM :=
  if IsEWASM (chainConfig v) (BlockNumber v) then Crash no_ewasm
  else Done (mkEVM s 0 0 (EVMGasLimit v) false []).

(** ** Instructions: a state monad over a frame of the interpreter *)
Record Frame := mkFrame {
  contract : Contract; pc : Z; memory : Memory; stack : list Z; evm : EVM
}.

Definition with_contract (c : Contract) (f : Frame) : Frame := mkFrame c (pc f) (memory f) (stack f) (evm f).
Definition with_pc (p : Z) (f : Frame) : Frame := mkFrame (contract f) p (memory f) (stack f) (evm f).
Definition with_memory (m : Memory) (f : Frame) : Frame := mkFrame (contract f) (pc f) m (stack f) (evm f).
Definition with_stack (s : list Z) (f : Frame) : Frame := mkFrame (contract f) (pc f) (memory f) s (evm f).
Definition with_evm (e : EVM) (f : Frame) : Frame := mkFrame (contract f) (pc f) (memory f) (stack f) e.

Definition I (A : Type) : Type := Frame -> vmres (A * Frame).
Definition iret {A} (a : A) : I A := fun f => Done (a, f).
Definition ibind {A B} (m : I A) (k : A -> I B) : I B :=
  fun f => do! (a, f) := m f in k a f.
Declare Scope instr_scope.
Delimit Scope instr_scope with instr.
Notation "x <- m ;; k" := (ibind m (fun x => k)) (at level 100, m at next level, right associativity) : instr_scope.
Notation "m ;;; k" := (ibind m (fun _ => k)) (at level 100, right associativity) : instr_scope.
#[global] Open Scope instr_scope.

Definition lift {A} (m : vmres A) : I A := fun f => do! a := m in Done (a, f).
Definition get {A} (g : Frame -> A) : I A := fun f => Done (g f, f).
Definition query {A} (q : StateDB.StateDB -> A * StateDB.StateDB) : I A :=
  fun f => let '(a, s) := q (sdb (evm f)) in Done (a, with_evm (with_sdb s (evm f)) f).
Definition update (u : StateDB.StateDB -> StateDB.StateDB) : I unit :=
  fun f => Done (tt, with_evm (with_sdb (u (sdb (evm f))) (evm f)) f).
Definition mem_do (u : Memory -> vmres Memory) : I unit :=
  fun f => do! m := u (memory f) in Done (tt, with_memory m f).
Definition set_pc (p : Z) : I unit := fun f => Done (tt, with_pc p f).

(** stack.go *)
Definition push (d : Z) : I unit := fun f => Done (tt, with_stack (d :: stack f) f).
Definition pop : I Z := fun f =>
  match stack f with
  | [] => Crash index_out_of_range
  | d :: st => Done (d, with_stack st f)
  end.
(** [stack.Back(n)] *)
Definition Back (n : nat) : I Z := fun f =>
  match stack f !! n with
  | None => Crash index_out_of_range
  | Some d => Done (d, f)
  end.
Definition dup (n : nat) : I unit := d <- Back (n - 1);; push d.
(** [stack.swap(n)] exchanges the top with the [n]-th item. *)
Definition swap (n : nat) : I unit := fun f =>
  match stack f !! (n - 1)%nat, stack f !! 0%nat with
  | Some x, Some y => Done (tt, with_stack (<[(n - 1)%nat := y]> (<[0%nat := x]> (stack f))) f)
  | _, _ => Crash index_out_of_range
  end.

(** ** memory_table.go: the memory an instruction needs, before rounding *)
Definition memorySize (op : OpCode) : option (I Z) :=
  let region off l := o <- Back off;; n <- Back l;; iret (calcMemSize o n) in
  let fixed n := o <- Back 0;; iret (calcMemSize o n) in
  let both o1 l1 o2 l2 := x <- region o1 l1;; y <- region o2 l2;; iret (BigMax x y) in
  match op with
  | SHA3 | RETURN | REVERT | LOG _ => Some (region 0%nat 1%nat)
  | CALLDATACOPY | RETURNDATACOPY | CODECOPY => Some (region 0%nat 2%nat)
  | EXTCODECOPY => Some (region 1%nat 3%nat)
  | MLOAD | MSTORE => Some (fixed 32)
  | MSTORE8 => Some (fixed 1)
  | CREATE | CREATE2 => Some (region 1%nat 2%nat)
  | CALL | CALLCODE => Some (both 5%nat 6%nat 3%nat 4%nat)
  | DELEGATECALL | STATICCALL => Some (both 4%nat 5%nat 2%nat 3%nat)
  | _ => None
  end.

(** ** The stack an instruction needs: items taken and left (jump_table.go) *)
Definition stack_use (op : OpCode) : Z * Z :=
  match op with
  | STOP | JUMPDEST => (0, 0)
  | ADD | MUL | SUB | DIV | SDIV | MOD | SMOD | EXP | SIGNEXTEND
  | LT | GT | SLT | SGT | EQ | AND | OR | XOR | BYTE | SHL | SHR | SAR | SHA3 => (2, 1)
  | ADDMOD | MULMOD => (3, 1)
  | ISZERO | NOT | BALANCE | CALLDATALOAD | EXTCODESIZE | EXTCODEHASH | BLOCKHASH | MLOAD | SLOAD => (1, 1)
  | ADDRESS | ORIGIN | CALLER | CALLVALUE | CALLDATASIZE | CODESIZE | GASPRICE | RETURNDATASIZE
  | COINBASE | TIMESTAMP | NUMBER | DIFFICULTY | GASLIMIT | PC | MSIZE | GAS | PUSH _ => (0, 1)
  | CALLDATACOPY | CODECOPY | RETURNDATACOPY => (3, 0)
  | EXTCODECOPY => (4, 0)
  | POP | JUMP | SELFDESTRUCT => (1, 0)
  | MSTORE | MSTORE8 | SSTORE | JUMPI | RETURN | REVERT => (2, 0)
  | DUP n => (n, n + 1)
  | SWAP n => (n + 1, n + 1)
  | LOG n => (n + 2, 0)
  | CREATE => (3, 1)
  | CREATE2 => (4, 1)
  | CALL | CALLCODE => (7, 1)
  | DELEGATECALL | STATICCALL => (6, 1)
  end.

(** [makeStackFunc] *)
Definition validateStack (op : OpCode) (st : list Z) : option vmerror :=
  let '(pop, push) := stack_use op in
  let n := Z.of_nat (length st) in
  if n <? pop then Some errStackUnderflow
  else if n + push - pop >? StackLimit then Some errStackLimit
  else None.

Definition halts (op : OpCode) : bool := match op with STOP | RETURN | SELFDESTRUCT => true | _ => false end.
Definition jumps (op : OpCode) : bool := match op with JUMP | JUMPI => true | _ => false end.
Definition reverts (op : OpCode) : bool := match op with REVERT => true | _ => false end.
Definition writes (op : OpCode) : bool :=
  match op with SSTORE | LOG _ | CREATE | CREATE2 | SELFDESTRUCT => true | _ => false end.
Definition returns (op : OpCode) : bool :=
  match op with
  | CREATE | CREATE2 | CALL | CALLCODE | DELEGATECALL | STATICCALL | REVERT => true
  | _ => false
  end.

End EvmBase.
