(* ===== verification/Precompiles.v ===== *)
(** * eth/core/vm/contracts.go: the contracts the node runs natively

    Hash functions, curve arithmetic and the engine's handler of administrative
    operations are the class [Natives]. *)
From Stdlib Require Zpow_facts.
From S2P Require Import Prelude EthMath StateDB EvmBase.

Module Precompiles.
Import EthMath EvmBase.

Class Natives := {
  G1 : Type;
  G2 : Type;
  sha256_Sum256 : bytes -> bytes;
  ripemd160_Sum : bytes -> bytes;
  (** crypto.Ecrecover: the public key, with its leading byte *)
  crypto_Ecrecover : bytes -> bytes -> option bytes;
  G1_Unmarshal : bytes -> option G1;
  G1_Marshal : G1 -> bytes;
  G1_Add : G1 -> G1 -> G1;
  G1_ScalarMult : G1 -> Z -> G1;
  G2_Unmarshal : bytes -> option G2;
  PairingCheck : list G1 -> list G2 -> bool;
  (** the callback of [AdminOP], if it is set: whether the operation of the
      account with this nonce and address is refused *)
  admin_callback : option (Z -> bytes -> bytes -> bool)
}.

Inductive PrecompiledContract :=
| ecrecover | sha256hash | ripemd160hash | dataCopy | bigModExp | bn256Add | bn256ScalarMul
| bn256Pairing | AdminOP.

Definition PrecompiledContractsByzantium (addr : Z) : option PrecompiledContract :=
  match addr with
  | 1 => Some ecrecover | 2 => Some sha256hash | 3 => Some ripemd160hash | 4 => Some dataCopy
  | 5 => Some bigModExp | 6 => Some bn256Add | 7 => Some bn256ScalarMul | 8 => Some bn256Pairing
  | 254 => Some AdminOP
  | _ => None
  end.

Section with_natives.
Context `{Keccak, Natives}.

(** What a precompiled contract returns: its output or an error. *)
Definition native_result : Type := bytes + vmerror.

(** ** ecrecover *)
Definition secp256k1N : Z := 0xfffffffffffffffffffffffffffffffebaaedce6af48a03bbfd25e8cd0364141.
Definition secp256k1halfN : Z := secp256k1N / 2.

(** crypto.go *)
Definition ValidateSignatureValues (v r s : Z) (homestead : bool) : bool :=
  if (r <? 1) || (s <? 1) then false
  else if homestead && (s >? secp256k1halfN) then false
  else (r <? secp256k1N) && (s <? secp256k1N) && ((v =? 0) || (v =? 1)).

Definition Keccak256 (b : bytes) : bytes := hash_Bytes (Keccak256Hash b).

Definition slice (b : bytes) (lo hi : Z) : vmres bytes := or_crash index_out_of_range (go_slice b lo hi).

(** The signature handed to [Ecrecover] is [append(input[64:128], v)]: where the
    input is longer than 128 bytes, [append] writes [v] over its next byte.
    The second component is the input afterwards. *)
Definition ecrecover_Run (input : bytes) : vmres (native_result * bytes) :=
  let input := RightPadBytes input 128 in
  do! rb := slice input 64 96 in
  do! sb := slice input 96 128 in
  do! vb := or_crash index_out_of_range (deref (input !! 63%nat)) in
  do! zs := slice input 32 63 in
  do! hash := slice input 0 32 in
  do! sg := slice input 64 128 in
  let v := u8 (vb - 27) in
  if negb (allZero zs) || negb (ValidateSignatureValues v (be_val rb) (be_val sb) false)
  then Done (inl [], input)
  else
    let input := if len input >? 128 then <[128%nat := v]> input else input in
    match crypto_Ecrecover hash (sg ++ [v]) with
    | None => Done (inl [], input)
    | Some pubKey =>
        do! pk := slice pubKey 1 (len pubKey) in
        do! h := slice (Keccak256 pk) 12 32 in
        Done (inl (LeftPadBytes h 32), input)
    end.

(** ** bigModExp *)
(** The lengths of base, exponent and modulus, and the operands after them. *)
Definition modexp_lens (input : bytes) : vmres (Z * Z * Z * bytes) :=
  do! bl := getData input 0 32 in
  do! el := getData input 32 32 in
  do! ml := getData input 64 32 in
  Done (be_val bl, be_val el, be_val ml, drop 96 input).

Definition modexp_gas (gas : Z) : Z :=
  if gas <=? 64 then gas * gas
  else if gas <=? 1024 then gas * gas / 4 + (96 * gas - 3072)
  else gas * gas / 16 + (480 * gas - 199680).

Definition bigModExp_RequiredGas (input : bytes) : vmres Z :=
  do! (baseLen, expLen, modLen, input) := modexp_lens input in
  do! expHead :=
    (if len input <=? baseLen then Done []
     else getData input (Uint64 baseLen) (if expLen >? 32 then 32 else Uint64 expLen)) in
  let bitlen := BitLen (be_val expHead) in
  let msb := if bitlen >? 0 then bitlen - 1 else 0 in
  let adjExpLen := (if expLen >? 32 then 8 * (expLen - 32) else 0) + msb in
  let gas := modexp_gas (BigMax modLen baseLen) * BigMax adjExpLen 1 / 20 in
  Done (if BitLen gas >? 64 then MaxUint64 else Uint64 gas).

Definition bigModExp_Run (input : bytes) : vmres native_result :=
  do! (baseLen, expLen, modLen, input) := modexp_lens input in
  let baseLen := Uint64 baseLen in
  let expLen := Uint64 expLen in
  let modLen := Uint64 modLen in
  if (baseLen =? 0) && (modLen =? 0) then Done (inl [])
  else
    do! base := getData input 0 baseLen in
    do! exp := getData input baseLen expLen in
    do! mod_ := getData input (u64 (baseLen + expLen)) modLen in
    if BitLen (be_val mod_) =? 0 then Done (inl (LeftPadBytes [] (i64 modLen)))
    else Done (inl (LeftPadBytes (Bytes (Zpow_facts.Zpow_mod (be_val base) (be_val exp) (be_val mod_))) (i64 modLen))).

(** ** The curve *)
Definition bn256Add_Run (input : bytes) : vmres native_result :=
  do! b1 := getData input 0 64 in
  match G1_Unmarshal b1 with
  | None => Done (inr errMalformedPoint)
  | Some x =>
      do! b2 := getData input 64 64 in
      match G1_Unmarshal b2 with
      | None => Done (inr errMalformedPoint)
      | Some y => Done (inl (G1_Marshal (G1_Add x y)))
      end
  end.

Definition bn256ScalarMul_Run (input : bytes) : vmres native_result :=
  do! b1 := getData input 0 64 in
  match G1_Unmarshal b1 with
  | None => Done (inr errMalformedPoint)
  | Some p =>
      do! k := getData input 64 32 in
      Done (inl (G1_Marshal (G1_ScalarMult p (be_val k))))
  end.

(** The loop over the pairs of points, [n] of them left. *)
Fixpoint read_pairs (n : nat) (input : bytes) (i : Z) (cs : list G1) (ts : list G2) :
    vmres (option (list G1 * list G2)) :=
  match n with
  | O => Done (Some (cs, ts))
  | S n' =>
      do! b1 := slice input i (i + 64) in
      match G1_Unmarshal b1 with
      | None => Done None
      | Some c =>
          do! b2 := slice input (i + 64) (i + 192) in
          match G2_Unmarshal b2 with
          | None => Done None
          | Some t => read_pairs n' input (i + 192) (cs ++ [c]) (ts ++ [t])
          end
      end
  end.

Definition bn256Pairing_Run (input : bytes) : vmres native_result :=
  if len input mod 192 >? 0 then Done (inr errBadPairingInput)
  else
    do! ps := read_pairs (Z.to_nat (len input / 192)) input 0 [] [] in
    match ps with
    | None => Done (inr errMalformedPoint)
    | Some (cs, ts) => Done (inl (hash_Bytes (if PairingCheck cs ts then 1 else 0)))
    end.

(** ** AdminOP *)

(** The input is a length word, the address of the operator and the operation;
    it is sliced without looking at its length. *)
Definition AdminOP_Run (input : bytes) (s : StateDB.StateDB) : vmres (native_result * StateDB.StateDB) :=
  do! lb := or_crash admin_input (go_slice input 0 32) in
  let dlen := Uint64 (be_val lb) in
  let offset := u64 (dlen + 32) in
  let offset := if i64 offset >? len input then len input else offset in
  do! from := or_crash admin_input (go_slice input 32 52) in
  do! data := or_crash admin_input (go_slice input 52 offset) in
  match admin_callback with
  | None => Done (inr errAdmin, s)
  | Some cb =>
      let '(nonce, s) := StateDB.GetNonce (BytesToAddress from) s in
      Done (if cb nonce from data then inr errAdmin else inl [], s)
  end.

(** ** Gas and dispatch *)
Definition per_word (input : bytes) (word base : Z) : Z := u64 (u64 (len input + 31) / 32 * word + base).

Definition RequiredGas (p : PrecompiledContract) (input : bytes) : vmres Z :=
  match p with
  | AdminOP => Done 0
  | ecrecover => Done 3000
  | sha256hash => Done (per_word input 12 60)
  | ripemd160hash => Done (per_word input 120 600)
  | dataCopy => Done (per_word input 3 15)
  | bigModExp => bigModExp_RequiredGas input
  | bn256Add => Done 500
  | bn256ScalarMul => Done 40000
  | bn256Pairing => Done (u64 (100000 + len input / 192 * 80000))
  end.

Definition native_Run (p : PrecompiledContract) (input : bytes) (s : StateDB.StateDB) :
    vmres (native_result * StateDB.StateDB) :=
  let pure (m : vmres native_result) := do! r := m in Done (r, s) in
  match p with
  | AdminOP => AdminOP_Run input s
  | ecrecover => do! (r, _) := ecrecover_Run input in Done (r, s)
  | sha256hash => Done (inl (sha256_Sum256 input), s)
  | ripemd160hash => Done (inl (LeftPadBytes (ripemd160_Sum input) 32), s)
  | dataCopy => Done (inl input, s)
  | bigModExp => pure (bigModExp_Run input)
  | bn256Add => pure (bn256Add_Run input)
  | bn256ScalarMul => pure (bn256ScalarMul_Run input)
  | bn256Pairing => pure (bn256Pairing_Run input)
  end.

End with_natives.

End Precompiles.
