(* ===== verification/EthTx.v ===== *)
(** * eth/core/types: transactions and their signatures

    transaction.go and transaction_signing.go.  A transaction is its [txdata];
    the cached hash, size and sender are functions of it. *)
From S2P Require Import Prelude Wire EthMath StateDB Rlp RlpDecode EvmBase Precompiles.

Module EthTx.
Import EthMath Precompiles.

Abbreviation len bz := (Z.of_nat (length bz)).

Record txdata := mkTx {
  AccountNonce : Z; Price : Z; GasLimit : Z; Recipient : option Z; Amount : Z; Payload : bytes;
  V : Z; R : Z; S : Z
}.

Definition isProtectedV (v : Z) : bool :=
  if BitLen v <=? 8 then negb (Uint64 v =? 27) && negb (Uint64 v =? 28) else true.
Definition Protected (tx : txdata) : bool := isProtectedV (V tx).

(** Division of big integers rounds down on the values that reach it. *)
Definition deriveChainId (v : Z) : Z :=
  if BitLen v <=? 64 then
    let v := Uint64 v in
    if (v =? 27) || (v =? 28) then 0 else u64 (v - 35) / 2
  else (v - 35) / 2.
Definition ChainId (tx : txdata) : Z := deriveChainId (V tx).

(** amount + gasprice * gaslimit *)
Definition Cost (tx : txdata) : Z := Price tx * GasLimit tx + Amount tx.

(** ** RLP

    A missing recipient is written as an empty string (makePtrWriter). *)
Definition address_value (a : option Z) : Rlp.value :=
  match a with None => Rlp.VRaw [0x80] | Some a => Rlp.VBytes (address_Bytes a) end.

Definition unsigned_fields (tx : txdata) : list Rlp.value :=
  [Rlp.VUint (AccountNonce tx); Rlp.VBigInt (Price tx); Rlp.VUint (GasLimit tx); address_value (Recipient tx);
   Rlp.VBigInt (Amount tx); Rlp.VBytes (Payload tx)].

Definition tx_value (tx : txdata) : Rlp.value :=
  Rlp.VList (unsigned_fields tx ++ [Rlp.VBigInt (V tx); Rlp.VBigInt (R tx); Rlp.VBigInt (S tx)]).

Definition EncodeRLP (tx : txdata) : res (option bytes) := Rlp.EncodeToBytes (tx_value tx).

Section with_crypto.
Context `{Keccak, Natives}.

(** What cannot be encoded hashes as nothing. *)
Definition rlpHash (v : Rlp.value) : res Z :=
  let! b := Rlp.EncodeToBytes v in Ok (Keccak256Hash (default [] b)).

Definition tx_Hash (tx : txdata) : res Z := rlpHash (tx_value tx).

(** ** transaction_signing.go *)
Inductive Signer :=
| FrontierSigner
| HomesteadSigner
| EIP155Signer (chainId : Z).

(** [MakeSigner]: the homestead rules, whatever the height *)
Definition MakeSigner (c : EvmBase.ChainConfig) : option Signer :=
  match EvmBase.HomesteadBlock c with Some _ => Some HomesteadSigner | None => None end.

Inductive txerr :=
| ErrInvalidSig | ErrInvalidChainId | ErrInvalidPublicKey | ErrRecover.

Definition signer_Hash (s : Signer) (tx : txdata) : res Z :=
  match s with
  | EIP155Signer chainId => rlpHash (Rlp.VList (unsigned_fields tx ++ [Rlp.VBigInt chainId; Rlp.VUint 0; Rlp.VUint 0]))
  | _ => rlpHash (Rlp.VList (unsigned_fields tx))
  end.

(** [copy(sig[hi-len(b):hi], b)] *)
Definition put_at (hi : Z) (b : bytes) (sig : bytes) : res bytes :=
  if hi - len b <? 0 then Panic else Ok (Wire.copy_at sig (Z.to_nat (hi - len b)) b).

Definition recoverPlain (sighash r s vb : Z) (homestead : bool) : res (txerr + Z) :=
  if BitLen vb >? 8 then Ok (inl ErrInvalidSig)
  else
    let v := u8 (u64 (Uint64 vb - 27)) in
    if negb (ValidateSignatureValues v r s homestead) then Ok (inl ErrInvalidSig)
    else
      let! sig := put_at 32 (Bytes r) (replicate 65 0) in
      let! sig := put_at 64 (Bytes s) sig in
      let sig := <[64%nat := v]> sig in
      match crypto_Ecrecover (hash_Bytes sighash) sig with
      | None => Ok (inl ErrRecover)
      | Some pub =>
          match pub with
          | 4 :: key => Ok (inr (be_val (drop 12 (Keccak256 key))))
          | _ => Ok (inl ErrInvalidPublicKey)
          end
      end.

Definition Sender (s : Signer) (tx : txdata) : res (txerr + Z) :=
  match s with
  | FrontierSigner => let! h := signer_Hash FrontierSigner tx in recoverPlain h (R tx) (S tx) (V tx) false
  | HomesteadSigner => let! h := signer_Hash HomesteadSigner tx in recoverPlain h (R tx) (S tx) (V tx) true
  | EIP155Signer chainId =>
      if negb (Protected tx) then
        let! h := signer_Hash HomesteadSigner tx in recoverPlain h (R tx) (S tx) (V tx) true
      else if negb (ChainId tx =? chainId) then Ok (inl ErrInvalidChainId)
      else
        let! h := signer_Hash s tx in recoverPlain h (R tx) (S tx) (V tx - chainId * 2 - 8) true
  end.

(** The raw values of a signature [R || S || V]. *)
Definition SignatureValues (s : Signer) (sig : bytes) : res (Z * Z * Z) :=
  if negb (length sig =? 65)%nat then Panic
  else
    let r := be_val (take 32 sig) in
    let s0 := be_val (take 32 (drop 32 sig)) in
    let v := default 0 (sig !! 64%nat) in
    match s with
    | EIP155Signer chainId =>
        Ok (r, s0, if negb (Z.sgn chainId =? 0) then u8 (v + 35) + chainId * 2 else u8 (v + 27))
    | _ => Ok (r, s0, u8 (v + 27))
    end.

Definition WithSignature (s : Signer) (sig : bytes) (tx : txdata) : res txdata :=
  let! (r, s0, v) := SignatureValues s sig in
  Ok (mkTx (AccountNonce tx) (Price tx) (GasLimit tx) (Recipient tx) (Amount tx) (Payload tx) v r s0).

(** [Sign]: crypto.Sign with a private key *)
Definition SignTx (Sign : bytes -> option bytes) (s : Signer) (tx : txdata) : res (option txdata) :=
  let! h := signer_Hash s tx in
  match Sign (hash_Bytes h) with
  | None => Ok None
  | Some sig => let! tx := WithSignature s sig tx in Ok (Some tx)
  end.

(** ** Messages *)
Record Message := mkMessage {
  From : Z; To : option Z; msg_Nonce : Z; msg_Value : Z; msg_Gas : Z; msg_GasPrice : Z; msg_Data : bytes;
  CheckNonce : bool
}.

Definition AsMessage (s : Signer) (tx : txdata) : res (txerr + Message) :=
  let! r := Sender s tx in
  match r with
  | inl e => Ok (inl e)
  | inr from =>
      Ok (inr (mkMessage from (Recipient tx) (AccountNonce tx) (Amount tx) (GasLimit tx) (Price tx) (Payload tx) true))
  end.


(** ** A signature recovers its signer *)
Lemma be_bytes_pad m k x : 0 <= x < 2 ^ (8 * Z.of_nat k) -> be_bytes (m + k) x = replicate m 0 ++ be_bytes k x.
Proof.
  intros Hx. induction m as [|m IH]; [done|]. cbn [Nat.add Wire.be_bytes replicate app]. rewrite IH. f_equal.
  rewrite Z.div_small; [done|]. split; [lia|]. eapply Z.lt_le_trans; [apply Hx|]. apply Z.pow_le_mono_r; lia.
Qed.

Lemma Bytes_pad n x : 0 <= x < 2 ^ (8 * Z.of_nat n) ->
  (length (Bytes x) <= n)%nat /\ replicate (n - length (Bytes x)) 0 ++ Bytes x = be_bytes n x.
Proof.
  intros Hx. unfold Bytes. rewrite Z.abs_eq by lia. pose proof (BitLen_nonneg x) as Hb.
  set (k := Z.to_nat ((BitLen x + 7) / 8)). assert (k <= n)%nat as Hk.
  { unfold k. assert (BitLen x <= 8 * Z.of_nat n) by (apply BitLen_le; lia).
    assert ((BitLen x + 7) / 8 < Z.of_nat n + 1) by (apply Z.div_lt_upper_bound; lia). lia. }
  assert (x < 2 ^ (8 * Z.of_nat k)) as Hxk.
  { eapply Z.lt_le_trans; [apply (BitLen_le x (BitLen x)); lia|]. apply Z.pow_le_mono_r; [lia|]. unfold k.
    pose proof (Z.mul_succ_div_gt (BitLen x + 7) 8 ltac:(lia)). rewrite Z2Nat.id by (apply Z.div_pos; lia). lia. }
  rewrite Wire.be_bytes_length. split; [done|]. rewrite <- be_bytes_pad by lia. f_equal. lia.
Qed.

Lemma put_at_spec a hi x z : 0 <= x < 2 ^ (8 * Z.of_nat (length z)) -> hi = len a + len z -> forall t,
  Forall (eq 0) z -> put_at hi (Bytes x) (a ++ z ++ t) = Ok (a ++ be_bytes (length z) x ++ t).
Proof.
  intros Hx -> t Hz. destruct (Bytes_pad (length z) x Hx) as [Hl Hp]. unfold put_at. rewrite (proj2 (Z.ltb_ge _ _)) by lia.
  f_equal. unfold Wire.copy_at. rewrite <- Hp. set (b := Bytes x) in *. set (d := (length z - length b)%nat) in *.
  replace (Z.to_nat _) with (length a + d)%nat by (unfold d; lia).
  replace (length b `min` _)%nat with (length b) by (unfold d; rewrite !length_app; lia).
  assert (take (length a + d) (a ++ z ++ t) = a ++ take d z) as ->.
  { rewrite take_app_add. f_equal. apply take_app_le. unfold d. lia. }
  assert (drop (length a + d + length b) (a ++ z ++ t) = t) as ->.
  { replace (length a + d + length b)%nat with (length a + length z)%nat by (unfold d; lia).
    by rewrite drop_app_add, drop_app_length. }
  rewrite (take_ge b) by lia. rewrite <- !app_assoc. do 2 f_equal.
  assert (forall m, (m <= length z)%nat -> take m z = replicate m 0) as Ht; [|by rewrite Ht by (unfold d; lia)].
  clear -Hz. induction Hz as [|? z <- _ IH]; intros m Hm; simpl in Hm; [by replace m with 0%nat by lia|].
  destruct m; [done|]. simpl. rewrite IH by lia. done.
Qed.

(** What a signature by a key looks like: 65 bytes, [s] in the lower half. *)
Record good_signature (key h sig : bytes) : Prop := {
  gs_length : length sig = 65%nat;
  gs_bytes : Forall is_byte sig;
  gs_r : 1 <= be_val (take 32 sig) < secp256k1N;
  gs_s : 1 <= be_val (take 32 (drop 32 sig)) <= secp256k1halfN;
  gs_v : sig !! 64%nat = Some 0 \/ sig !! 64%nat = Some 1;
  gs_recovers : crypto_Ecrecover h sig = Some (4 :: key)
}.

Lemma recoverPlain_signed key h sig v hs : good_signature key (hash_Bytes h) sig -> sig !! 64%nat = Some v ->
  recoverPlain h (be_val (take 32 sig)) (be_val (take 32 (drop 32 sig))) (v + 27) hs =
    Ok (inr (be_val (drop 12 (Keccak256 key)))).
Proof.
  intros [Hl Hb Hr Hs Hv Hrec] Ev. set (r := be_val (take 32 sig)) in *. set (s := be_val (take 32 (drop 32 sig))) in *.
  assert (v = 0 \/ v = 1) as Hv01 by (destruct Hv; simplify_eq; auto). clear Hv. unfold recoverPlain.
  assert (u8 (u64 (Uint64 (v + 27) - 27)) = v) as Eu by (by destruct Hv01; subst v).
  replace (BitLen (v + 27) >? 8) with false by (by destruct Hv01; subst v). rewrite Eu.
  assert (ValidateSignatureValues v r s hs = true) as ->.
  { unfold ValidateSignatureValues, secp256k1halfN in *.
    assert (secp256k1N / 2 < secp256k1N) by done. rewrite !(proj2 (Z.ltb_ge _ 1)) by lia. cbn [orb].
    rewrite Z.gtb_ltb, (proj2 (Z.ltb_ge _ _)) by lia. rewrite andb_false_r, !(proj2 (Z.ltb_lt _ secp256k1N)) by lia.
    by destruct Hv01; subst v. }
  cbn [negb]. assert (secp256k1N < 2 ^ 256) as HN by done. assert (secp256k1halfN < 2 ^ 256) as HN2 by done.
  change (replicate 65 0) with ([] ++ replicate 32 0 ++ replicate 33 0).
  rewrite (put_at_spec [] 32 r (replicate 32 0)); [|rewrite length_replicate; lia|done|by apply Forall_replicate].
  cbn [rbind]. rewrite length_replicate. change (replicate 33 0) with (replicate 32 0 ++ [0]). cbn [app].
  rewrite (put_at_spec (be_bytes 32 r) 64 s (replicate 32 0));
    [|rewrite length_replicate; lia|by rewrite Wire.be_bytes_length|by apply Forall_replicate].
  cbn [rbind]. rewrite length_replicate.
  assert (be_bytes 32 r = take 32 sig /\ be_bytes 32 s = take 32 (drop 32 sig)) as [-> ->].
  { assert (length (take 32 sig) = 32%nat /\ length (take 32 (drop 32 sig)) = 32%nat) as [E1 E2]
      by (rewrite !length_take, length_drop; lia).
    split; [rewrite <- E1 at 1|rewrite <- E2 at 1]; apply RlpDecode.be_bytes_val; by auto using Forall_take, Forall_drop. }
  assert (<[64%nat := v]> (take 32 sig ++ take 32 (drop 32 sig) ++ [0]) = sig) as ->; [|by rewrite Hrec].
  assert (length sig = 65%nat) as Hl' by done. do 65 (destruct sig as [|? sig]; [done|]). destruct sig; [|done].
  simpl in Ev. by simplify_eq.
Qed.

Lemma chainId_V c v : 0 < c -> v = 0 \/ v = 1 ->
  isProtectedV (u8 (v + 35) + c * 2) = true /\ deriveChainId (u8 (v + 35) + c * 2) = c.
Proof.
  intros Hc Hv. assert (u8 (v + 35) = v + 35) as -> by (by destruct Hv; subst).
  assert ((v + c * 2) / 2 = c) as Hd by (rewrite Z.div_add by lia; by destruct Hv; subst).
  unfold isProtectedV, deriveChainId, Uint64. split.
  - destruct (Z.leb_spec (BitLen (v + 35 + c * 2)) 8) as [Hb|]; [|done].
    apply BitLen_le in Hb; [|lia|lia]. rewrite u64_id by (unfold is_u64; lia).
    rewrite !(proj2 (Z.eqb_neq _ _)) by lia. done.
  - destruct (Z.leb_spec (BitLen (v + 35 + c * 2)) 64) as [Hb|].
    + apply BitLen_le in Hb; [|lia|lia]. rewrite u64_id by (unfold is_u64; lia).
      rewrite !(proj2 (Z.eqb_neq _ _)) by lia. cbn [orb]. rewrite u64_id by (unfold is_u64; lia).
      by replace (v + 35 + c * 2 - 35) with (v + c * 2) by lia.
    + by replace (v + 35 + c * 2 - 35) with (v + c * 2) by lia.
Qed.

(** C21: the sender recovered from a transaction that was signed with a key is
    the address of the key, for each of the three signers (EIP155 on a chain with
    a positive id), and signing changes nothing but the signature. *)
Theorem SignTx_Sender (Sign : bytes -> option bytes) key s tx tx' :
  (forall h sig, Sign h = Some sig -> good_signature key h sig) ->
  match s with EIP155Signer c => 0 < c | _ => True end ->
  SignTx Sign s tx = Ok (Some tx') ->
  Sender s tx' = Ok (inr (be_val (drop 12 (Keccak256 key)))) /\ unsigned_fields tx' = unsigned_fields tx.
Proof.
  intros HSign Hs. unfold SignTx. destruct (signer_Hash s tx) as [h|] eqn:Eh; [|done]. cbn [rbind].
  destruct (Sign (hash_Bytes h)) as [sig|] eqn:Esig; [|done]. pose proof (HSign _ _ Esig) as Hg.
  assert (exists v, sig !! 64%nat = Some v /\ (v = 0 \/ v = 1)) as (v & Ev & Hv) by (destruct (gs_v _ _ _ Hg); eauto).
  unfold WithSignature, SignatureValues. rewrite (gs_length _ _ _ Hg), Ev. cbn [Nat.eqb negb default].
  assert (u8 (v + 27) = v + 27) as E27 by (by destruct Hv; subst).
  destruct s as [| |c]; cbn [rbind from_option id].
  - intros [= <-]. split; [|done]. unfold Sender. cbn [R S V]. rewrite E27.
    change (signer_Hash FrontierSigner _) with (signer_Hash FrontierSigner tx). rewrite Eh. cbn [rbind].
    by apply recoverPlain_signed.
  - intros [= <-]. split; [|done]. unfold Sender. cbn [R S V]. rewrite E27.
    change (signer_Hash HomesteadSigner _) with (signer_Hash HomesteadSigner tx). rewrite Eh. cbn [rbind].
    by apply recoverPlain_signed.
  - rewrite (proj2 (Z.eqb_neq (Z.sgn c) 0)) by (rewrite Z.sgn_pos; lia). cbn [negb].
    intros [= <-]. split; [|done]. destruct (chainId_V c v Hs Hv) as [Hp Hd].
    unfold Sender, Protected, ChainId. cbn [R S V]. rewrite Hp, Hd, Z.eqb_refl. cbn [negb].
    change (signer_Hash (EIP155Signer c) _) with (signer_Hash (EIP155Signer c) tx). rewrite Eh. cbn [rbind].
    assert (u8 (v + 35) = v + 35) as -> by (by destruct Hv; subst).
    replace (v + 35 + c * 2 - c * 2 - 8) with (v + 27) by lia.
    by apply recoverPlain_signed.
Qed.
End with_crypto.

(** ** A key and its signature to evaluate on *)
Definition toy_key : bytes := replicate 64 5.
Definition toy_sig : bytes := replicate 31 0 ++ [9] ++ replicate 31 0 ++ [8; 1].
Definition toy_signer : Natives := {|
  G1 := unit; G2 := unit; sha256_Sum256 := fun _ => []; ripemd160_Sum := fun _ => [];
  crypto_Ecrecover := fun _ sg => if decide (sg = toy_sig) then Some (4 :: toy_key) else None;
  G1_Unmarshal := fun _ => None; G1_Marshal := fun _ => []; G1_Add := fun _ _ => tt; G1_ScalarMult := fun _ _ => tt;
  G2_Unmarshal := fun _ => None; PairingCheck := fun _ _ => false; admin_callback := None
|}.
Definition toy_hash : Keccak := {| Keccak256Hash := fun bz => (7 + be_val bz) mod 2 ^ 256 |}.
Definition toy_tx : txdata := mkTx 3 20 21000 (Some 77) 10 [1; 2; 3] 0 0 0.

Lemma SignTx_Sender_witness :
  exists tx', @SignTx toy_hash (fun _ => Some toy_sig) (EIP155Signer 5) toy_tx = Ok (Some tx') /\
    @Sender toy_hash toy_signer (EIP155Signer 5) tx' = Ok (inr (be_val (drop 12 (@Keccak256 toy_hash toy_key)))).
Proof.
  destruct (@SignTx toy_hash (fun _ => Some toy_sig) (EIP155Signer 5) toy_tx) as [[tx'|]|] eqn:E;
    [|exfalso; revert E; vm_compute; discriminate..].
  exists tx'. split; [done|].
  refine (proj1 (@SignTx_Sender toy_hash toy_signer (fun _ => Some toy_sig) toy_key (EIP155Signer 5) toy_tx tx' _ _ E)); [clear E|done].
  intros h sig [= <-]. split; try done.
  - by apply (bool_decide_unpack (Forall (fun b => 0 <= b < 256) toy_sig)).
  - by right.
Defined.

End EthTx.
