(* ===== verification/TxCodec.v ===== *)
(** * Transactions on the wire

    The decoders of eth/rlp/decode.go for the fields of a transaction, and
    [Transaction.DecodeRLP].  Transactions decode from their own encoding, and
    from one other form of a missing recipient; from nothing else. *)
From S2P Require Import Prelude Wire EthMath StateDB Rlp RlpDecode EthTx.

Module TxCodec.
Import Rlp RlpDecode EthTx.

(** ** Field decoders: decode.go *)
Definition wrap {A} (d : M A) : M A := fun s =>
  match d s with (inl e, s) => (inl (wrapStreamError e), s) | o => o end.

Definition decodeUint : M Z := wrap (uint 64).
Definition decodeByteSlice : M bytes := wrap Bytes.

Definition decodeBigInt : M Z :=
  b <- wrap Bytes;
  match b with
  | 0 :: _ => mfail (wrapStreamError ErrCanonInt)
  | _ => mret (be_val b)
  end.

(** An array of [vlen] bytes.  The error of [Uint] is dropped. *)
Definition decodeByteArray (vlen : Z) : M bytes :=
  kn <- Kind_;
  match kn with
  | (Byte, _) =>
      if vlen =? 0 then mfail input_string_length
      else if vlen >? 1 then mfail input_string_length
      else fun s => match uint 64 s with (inr v, s) => (inr [v], s) | (inl _, s) => (inr [0], s) end
  | (String, size) =>
      if vlen <? size then mfail input_string_length
      else if vlen >? size then mfail input_string_length
      else
        b <- readFull vlen;
        match b with
        | [x] => if x <? 128 then mfail (wrapStreamError ErrCanonSize) else mret b
        | _ => mret b
        end
  | (List, _) => mfail (wrapStreamError ErrExpectedString)
  end.

(** A pointer with the tag [nil]: a value of size zero is the nil pointer. *)
Definition optionalPtr {A} (d : M A) : M (option A) := fun s =>
  match Kind_ s with
  | (inl e, s) => (inl e, rearm s)
  | (inr (k, size), s) =>
      if (size =? 0) && bool_decide (k <> Byte) then (inr None, rearm s)
      else (a <- d; mret (Some a)) s
  end.

Definition decodeRecipient : M (option Z) :=
  b <- optionalPtr (decodeByteArray 20); mret (be_val <$> b).

(** A field of a struct. *)
Definition field {A} (d : M A) : M A := fun s =>
  match d s with (inl EOL, s) => (inl too_few_elements, s) | o => o end.

Definition decode_fields : M txdata :=
  nonce <- field decodeUint; price <- field decodeBigInt; gas <- field decodeUint;
  recipient <- field decodeRecipient; amount <- field decodeBigInt; payload <- field decodeByteSlice;
  v <- field decodeBigInt; r <- field decodeBigInt; s <- field decodeBigInt;
  mret (mkTx nonce price gas recipient amount payload v r s).

Definition DecodeRLP : M txdata := fun s =>
  let '(_, s) := Kind_ s in
  (_ <- wrap List_; tx <- decode_fields; _ <- wrap ListEnd; mret tx) s.

(** [rlp.DecodeBytes] into a transaction *)
Definition DecodeTx (b : bytes) : rlperr + txdata :=
  match DecodeRLP (NewStream b) with
  | (inl e, _) => inl e
  | (inr tx, s) => match r s with [] => inr tx | _ => inl ErrMoreThanOneValue end
  end.

(** ** Readers of a part of an open list *)
Record reads {A} (d : M A) (P : A -> bytes -> Prop) : Prop := {
  reads_sound : forall p z st inp s, Forall is_byte inp -> st_ok ((p, z) :: st) -> len inp < 2 ^ 64 ->
    at_ inp ((p, z) :: st) s ->
    (exists a out rest s', inp = out ++ rest /\ P a out /\ p + len out <= z /\ d s = (inr a, s') /\
       at_ rest ((p + len out, z) :: st) s') \/ failed (d s);
  reads_complete : forall p z st out rest s a, Forall is_byte (out ++ rest) -> st_ok ((p, z) :: st) ->
    len (out ++ rest) < 2 ^ 64 -> at_ (out ++ rest) ((p, z) :: st) s -> P a out -> p + len out <= z ->
    exists s', d s = (inr a, s') /\ at_ rest ((p + len out, z) :: st) s'
}.

Lemma reads_ret {A} (a : A) : reads (mret a) (fun b out => b = a /\ out = []).
Proof.
  split.
  - intros p z st inp s Hf Hst Hl Hat. left. exists a, [], inp, s. simpl. rewrite Z.add_0_r.
    split_and!; try done. simpl in Hst. lia.
  - intros p z st out rest s b Hf Hst Hl Hat [-> ->] _. exists s. simpl in *. by rewrite Z.add_0_r.
Qed.

Lemma reads_bind {A B} (d : M A) (k : A -> M B) P Q : reads d P -> (forall a, reads (k a) (Q a)) ->
  reads (mbind d k) (fun b out => exists a o1 o2, out = o1 ++ o2 /\ P a o1 /\ Q a b o2).
Proof.
  intros Hd Hk. split.
  - intros p z st inp s Hf Hst Hl Hat. unfold mbind.
    destruct (reads_sound _ _ Hd p z st inp s) as [(a & o1 & r1 & s1 & -> & Ha & Hp & -> & Hat1)|(e & s1 & -> & He)]; try done;
      [|right; by exists e, s1].
    apply Forall_app in Hf as [_ Hf]. rewrite length_app in Hl.
    destruct (reads_sound _ _ (Hk a) (p + len o1) z st r1 s1) as [(b & o2 & r2 & s2 & -> & Hb & Hp2 & -> & Hat2)|Hfail]; try done.
    + simpl in *. lia.
    + lia.
    + left. exists b, (o1 ++ o2), r2, s2. rewrite length_app, Nat2Z.inj_add, <- app_assoc.
      split_and!; try done; [by exists a, o1, o2|lia|]. by rewrite Z.add_assoc.
    + by right.
  - intros p z st out rest s b Hf Hst Hl Hat (a & o1 & o2 & -> & Ha & Hb) Hp.
    rewrite <- app_assoc in *. rewrite length_app in Hp. unfold mbind.
    destruct (reads_complete _ _ Hd p z st o1 (o2 ++ rest) s a) as (s1 & -> & Hat1); try done; [lia|].
    apply Forall_app in Hf as [_ Hf]. rewrite length_app in Hl.
    destruct (reads_complete _ _ (Hk a) (p + len o1) z st o2 rest s1 b) as (s2 & -> & Hat2); try done; try lia.
    + simpl in *. lia.
    + exists s2. split; [done|]. rewrite length_app, Nat2Z.inj_add. by rewrite Z.add_assoc.
Qed.

Lemma reads_iff {A} (d : M A) P Q : (forall a out, P a out <-> Q a out) -> reads d P -> reads d Q.
Proof.
  intros HPQ [Hs Hc]. split.
  - intros p z st inp s Hf Hst Hl Hat. destruct (Hs p z st inp s Hf Hst Hl Hat) as [(a & o & r1 & s1 & H1 & H2 & H3)|?]; [left|by right].
    exists a, o, r1, s1. split; [done|]. split; [by apply HPQ|done].
  - intros p z st out rest s a Hf Hst Hl Hat Ha. apply HPQ in Ha. eauto.
Qed.


(** ** Byte strings *)
Lemma Bytes_after_Kind k n s s1 : Kind_ s = (inr (k, n), s1) -> Kind_ s1 = (inr (k, n), s1) -> Bytes s = Bytes s1.
Proof. intros E E1. unfold Bytes, mbind. by rewrite E, E1. Qed.

Lemma enc_string_byte b : b < 0x80 -> enc_string [b] = [b].
Proof. intros Hb. unfold enc_string, single. by rewrite (proj2 (Z.leb_le _ _)) by lia. Qed.

Lemma enc_string_head b : single b = false -> enc_string b = head String (len b) ++ b.
Proof. intros E. unfold enc_string. by rewrite E. Qed.

Section bytes_at.
Variables (inp : bytes) (st : list (Z * Z)) (s : Stream).
Hypotheses (Hf : Forall is_byte inp) (Hst : st_ok st) (Hl : len inp < 2 ^ 64) (Hat : at_ inp st s).

Lemma Bytes_sound : not_at_end st ->
  (exists b rest, inp = enc_string b ++ rest /\ parsed (enc_string b) b rest st (Bytes s)) \/ failed (Bytes s).
Proof.
  intros Hopen. destruct (Kind_spec inp st s) as [(b & rest & s' & E & Hlt & Hr & Ek & Ha & Hbv)
    |[(k & n & rest & s' & Hk & E & Hn & Hr & Hfit & Ek & Ha)|(_ & e & s' & Ek & He)]]; try done.
  - left. exists [b], rest. rewrite enc_string_byte by done. split; [done|]. split; [done|].
    rewrite (Bytes_after_Kind _ _ _ _ Ek (Kind_again _ _ _ _ _ Ha)).
    destruct (Bytes_byte _ _ _ Ha) as (s2 & -> & Hat2). rewrite Hbv. by exists s2.
  - rewrite (Bytes_after_Kind _ _ _ _ Ek (Kind_again _ _ _ _ _ Ha)).
    assert (Forall is_byte rest /\ len rest < 2 ^ 64) as [Hf' Hl'].
    { subst inp. apply Forall_app in Hf as [_ ?]. rewrite length_app in Hl. split; [done|lia]. }
    pose proof (st_ok_head k n st Hk Hn Hr Hst) as Hst'. apply fits_room in Hfit.
    destruct k; [done| |].
    + destruct (Bytes_string n rest (adv (len (head String n)) st) s') as [(b & rest' & E' & El & Hs & Hp)|(_ & Hfail)]; try done;
        [|by right].
      left. exists b, rest'. rewrite (enc_string_head b Hs), El. split; [by rewrite E, E', app_assoc|].
      destruct Hp as (Hr2 & s2 & -> & Hat2). split.
      * rewrite room_adv in Hr2. by rewrite length_app, Nat2Z.inj_add.
      * exists s2. split; [done|]. rewrite length_app, Nat2Z.inj_add, <- adv_adv. done.
    + right. unfold Bytes, mbind. rewrite (Kind_again _ _ _ _ _ Ha). by err.
  - right. unfold Bytes, mbind. rewrite Ek. by exists e, s'.
Qed.

Lemma Bytes_complete b rest : inp = enc_string b ++ rest -> room (len (enc_string b)) st ->
  parsed (enc_string b) b rest st (Bytes s).
Proof.
  intros E Hr.
  destruct (interface_complete (IBytes b) (Datatypes.S (length inp)) (length inp) ltac:(lia) inp rest st s) as (_ & s' & Ed & Hat'); try done.
  split; [done|]. exists s'. split; [|done]. cbn [decodeInterface] in Ed. unfold mbind at 1 in Ed.
  destruct (Kind_ s) as [[e|[k n]] s1] eqn:Ek; [done|].
  assert (Kind_ s1 = (inr (k, n), s1)) as Ek1.
  { destruct (Kind_spec inp st s) as [(? & ? & ? & _ & _ & _ & Ek' & Ha & _)
      |[(? & ? & ? & ? & _ & _ & _ & _ & _ & Ek' & Ha)|(_ & ? & ? & Ek' & _)]]; try done.
    - destruct st as [|[p z] st']; [done|]. subst inp. simpl in *. pose proof (encI_pos (IBytes b)) as Hpos.
      unfold encI in Hpos. simpl in Hpos. lia.
    - rewrite Ek in Ek'. simplify_eq. by eapply Kind_again.
    - rewrite Ek in Ek'. simplify_eq. by eapply Kind_again.
    - rewrite Ek in Ek'. simplify_eq. }
  rewrite (Bytes_after_Kind _ _ _ _ Ek Ek1). destruct k.
  - unfold mbind in Ed. destruct (Bytes s1) as [[|b1] s2]; [done|]. by unfold mret in Ed; simplify_eq.
  - unfold mbind in Ed. destruct (Bytes s1) as [[|b1] s2]; [done|]. by unfold mret in Ed; simplify_eq.
  - unfold mbind in Ed. destruct (decodeListSlice _ _ s1) as [[|l] s2]; [done|]. by unfold mret in Ed; simplify_eq.
Qed.
End bytes_at.

(** ** Fields *)
Record value_reader {A} (d : M A) (P : A -> bytes -> Prop) : Prop := {
  vr_sound : forall p z st inp s, Forall is_byte inp -> st_ok ((p, z) :: st) -> len inp < 2 ^ 64 -> p < z ->
    at_ inp ((p, z) :: st) s ->
    (exists a out rest, inp = out ++ rest /\ P a out /\ parsed out a rest ((p, z) :: st) (d s)) \/ failed (d s);
  vr_stop : forall p st inp s, at_ inp ((p, p) :: st) s -> exists s', d s = (inl EOL, s');
  vr_complete : forall p z st out rest s a, Forall is_byte (out ++ rest) -> st_ok ((p, z) :: st) ->
    len (out ++ rest) < 2 ^ 64 -> at_ (out ++ rest) ((p, z) :: st) s -> P a out -> p + len out <= z ->
    parsed out a rest ((p, z) :: st) (d s);
  vr_pos : forall a out, P a out -> (1 <= length out)%nat
}.

Lemma field_reads {A} (d : M A) P : value_reader d P -> reads (field d) P.
Proof.
  intros [Hs Hstop Hc Hpos]. split.
  - intros p z st inp s Hf Hst Hl Hat. unfold field. destruct (Z.lt_ge_cases p z) as [Hlt|Hge].
    + destruct (Hs p z st inp s) as [(a & out & rest & -> & Ha & Hr & s' & -> & Hat')|(e & s' & -> & He)]; try done.
      * left. by exists a, out, rest, s'.
      * right. exists (match e with EOL => too_few_elements | e => e end), s'. destruct He. by destruct e.
    + assert (p = z) as -> by (simpl in Hst; lia). destruct (Hstop _ _ _ _ Hat) as (s' & ->). right. by err.
  - intros p z st out rest s a Hf Hst Hl Hat Ha Hp. unfold field.
    destruct (Hc p z st out rest s a) as (_ & s' & -> & Hat'); try done. by exists s'.
Qed.

Lemma wrap_good e : good_error e -> good_error (wrapStreamError e).
Proof. intros [He1 He2]. by destruct e. Qed.

Lemma wrap_reader {A} (d : M A) P : value_reader d P -> value_reader (wrap d) P.
Proof.
  intros [Hs Hstop Hc Hpos]. split; [| | |done]; unfold wrap.
  - intros p z st inp s Hf Hst Hl Hlt Hat.
    destruct (Hs p z st inp s) as [(a & out & rest & -> & Ha & Hr & s' & -> & Hat')|(e & s' & -> & He)]; try done.
    + left. exists a, out, rest. split_and!; try done. split; [done|]. by exists s'.
    + right. exists (wrapStreamError e), s'. split; [done|]. by apply wrap_good.
  - intros p st inp s Hat. destruct (Hstop p st inp s Hat) as (s' & ->). by exists s'.
  - intros p z st out rest s a Hf Hst Hl Hat Ha Hp.
    destruct (Hc p z st out rest s a) as (Hr & s' & -> & Hat'); try done. split; [done|]. by exists s'.
Qed.

Lemma enc_string_pos b : (1 <= length (enc_string b))%nat.
Proof. apply (encI_pos (IBytes b)). Qed.

Lemma Bytes_reader : value_reader Bytes (fun b out => out = enc_string b).
Proof.
  split.
  - intros p z st inp s Hf Hst Hl Hlt Hat. destruct (Bytes_sound inp _ s Hf Hst Hl Hat Hlt) as [(b & rest & -> & Hp)|?]; [left|by right].
    by exists b, (enc_string b), rest.
  - intros p st inp s Hat. exists s. unfold Bytes, mbind. by rewrite (Kind_end _ _ _ _ Hat).
  - intros p z st out rest s b Hf Hst Hl Hat -> Hp. by apply (Bytes_complete (enc_string b ++ rest)).
  - intros b out ->. apply enc_string_pos.
Qed.

(** A reader whose value is checked and converted. *)
Lemma map_reader {A B} (d : M A) (k : A -> M B) P Q : value_reader d P ->
  (forall a, (exists b, k a = mret b /\ forall out, P a out -> Forall is_byte out -> Q b out) \/
             (exists e, k a = mfail e /\ good_error e)) ->
  (forall b out, Q b out -> exists a, P a out /\ k a = mret b) ->
  value_reader (mbind d k) Q.
Proof.
  intros [Hs Hstop Hc Hpos] Hk Hq. split; unfold mbind.
  - intros p z st inp s Hf Hst Hl Hlt Hat.
    destruct (Hs p z st inp s) as [(a & out & rest & -> & Ha & Hr & s' & -> & Hat')|(e & s' & -> & He)]; try done;
      [|right; by exists e, s'].
    apply Forall_app in Hf as [Hf _].
    destruct (Hk a) as [(b & -> & Hb)|(e & -> & He)]; [left|right; by exists e, s'].
    exists b, out, rest. split_and!; [done|by apply Hb|]. split; [done|]. by exists s'.
  - intros p st inp s Hat. destruct (Hstop p st inp s Hat) as (s' & ->). by exists s'.
  - intros p z st out rest s b Hf Hst Hl Hat Hb Hp. destruct (Hq b out Hb) as (a & Ha & Ek).
    destruct (Hc p z st out rest s a) as (Hr & s' & -> & Hat'); try done. rewrite Ek. split; [done|]. by exists s'.
  - intros b out Hb. destruct (Hq b out Hb) as (a & Ha & _). by apply (Hpos a).
Qed.

(** *** Big integers *)
Lemma Bytes_unique x bz : Forall is_byte (x :: bz) -> x <> 0 -> EthMath.Bytes (be_val (x :: bz)) = x :: bz.
Proof.
  intros Hf Hx. pose proof (EthMath.be_val_bound _ Hf) as [_ Hhi]. pose proof Hf as Hf2.
  apply Forall_cons in Hf2 as [Hb Hbz]. pose proof (EthMath.be_val_bound _ Hbz) as [Hlo _]. unfold is_byte in Hb.
  assert (2 ^ (8 * len bz) <= be_val (x :: bz)) as Hge.
  { rewrite Wire.be_val_cons. assert (0 < 2 ^ (8 * len bz)) by (apply Z.pow_pos_nonneg; lia). nia. }
  assert (0 < 2 ^ (8 * len bz)) by (apply Z.pow_pos_nonneg; lia).
  unfold EthMath.Bytes. rewrite Z.abs_eq by lia.
  assert (8 * len bz < EthMath.BitLen (be_val (x :: bz)) <= 8 * len (x :: bz)) as Hbl.
  { split; [|apply EthMath.BitLen_le; lia]. apply Z.lt_nge. intros Hle. apply EthMath.BitLen_le in Hle; lia. }
  assert ((EthMath.BitLen (be_val (x :: bz)) + 7) / 8 = len (x :: bz)) as ->.
  { symmetry. apply (Z.div_unique_pos _ _ _ (EthMath.BitLen (be_val (x :: bz)) + 7 - 8 * len (x :: bz))); [simpl length in *|]; lia. }
  rewrite Nat2Z.id. by apply be_bytes_val.
Qed.

Lemma Bytes_first i : 0 < i -> exists x bz, EthMath.Bytes i = x :: bz /\ x <> 0.
Proof.
  intros Hi. destruct (EthMath.Bytes i) as [|x bz] eqn:E.
  { pose proof (EthMath.Bytes_val i ltac:(lia)) as Hv. rewrite E in Hv. unfold be_val in Hv. simpl in Hv. lia. }
  exists x, bz. split; [done|]. intros ->.
  pose proof (EthMath.Bytes_val i ltac:(lia)) as Hv. rewrite E in Hv. rewrite Wire.be_val_cons in Hv.
  assert (Forall is_byte bz) as Hbz.
  { assert (Forall is_byte (EthMath.Bytes i)) as Hb by apply Wire.be_bytes_byte. rewrite E in Hb. by apply Forall_cons in Hb as [_ ?]. }
  pose proof (EthMath.be_val_bound bz Hbz) as [_ Hlt]. replace (be_val bz) with i in Hlt by lia.
  assert (length (EthMath.Bytes i) = Z.to_nat ((EthMath.BitLen i + 7) / 8)) as Hl by apply Wire.be_bytes_length.
  rewrite E in Hl. apply EthMath.BitLen_le in Hlt; [|lia|lia].
  assert ((EthMath.BitLen i + 7) / 8 < len bz + 1) by (apply Z.div_lt_upper_bound; lia).
  pose proof (EthMath.BitLen_nonneg i). simpl in Hl. lia.
Qed.

Definition bigint_enc (i : Z) (out : bytes) : Prop := 0 <= i /\ out = enc (VBigInt i).

Lemma bytes_of_string b : Forall is_byte (enc_string b) -> Forall is_byte b.
Proof. unfold enc_string. destruct (single b); [done|]. by intros [_ ?]%Forall_app. Qed.

Lemma string_bigint b : Forall is_byte b -> match b with 0 :: _ => False | _ => True end ->
  bigint_enc (be_val b) (enc_string b).
Proof.
  intros Hf Hb. destruct b as [|x bz]; [by split|]. assert (x <> 0) as Hx by (by destruct x).
  split; [by apply EthMath.be_val_bound|]. unfold enc. pose proof (Bytes_unique x bz Hf Hx) as E.
  destruct (Z.eqb_spec (be_val (x :: bz)) 0) as [E0|_]; [|by rewrite E]. rewrite E0 in E. done.
Qed.

Lemma bigint_string i out : bigint_enc i out ->
  exists b, out = enc_string b /\ be_val b = i /\ match b with 0 :: _ => False | _ => True end /\ Forall is_byte b.
Proof.
  intros [Hi ->]. cbn [enc]. destruct (Z.eqb_spec i 0) as [->|Hne]; [by exists []|].
  exists (EthMath.Bytes i). split; [done|]. split; [by apply EthMath.Bytes_val|]. split; [|apply Wire.be_bytes_byte].
  destruct (Bytes_first i) as (x & bz & -> & Hx); [lia|]. by destruct x.
Qed.

Lemma bigint_reader : value_reader decodeBigInt bigint_enc.
Proof.
  eapply map_reader; [apply wrap_reader, Bytes_reader| |].
  - intros b. assert (match b with 0 :: _ => False | _ => True end \/ exists bz, b = 0 :: bz) as [Hb|[bz ->]]
      by (destruct b as [|[] bz]; eauto).
    + left. exists (be_val b). split; [by destruct b as [|[]]|]. intros out -> Hf. apply string_bigint; [by apply bytes_of_string|done].
    + right. by exists (wrapStreamError ErrCanonInt).
  - intros i out Hi. destruct (bigint_string i out Hi) as (b & -> & <- & Hb & _). exists b. split; [done|]. by destruct b as [|[]].
Qed.

(** *** Machine integers

    [uint] is a byte string read as a big integer of at most eight bytes. *)
Definition small_int (b : bytes) : M Z :=
  if len b >? 8 then mfail errUintOverflow else match b with 0 :: _ => mfail ErrCanonInt | _ => mret (be_val b) end.

Definition agrees {A} (o o' : (rlperr + A) * Stream) : Prop :=
  (failed o /\ failed o') \/
  (exists a s s', o = (inr a, s) /\ o' = (inr a, s') /\ forall inp st, at_ inp st s -> at_ inp st s').

Lemma uint_byte rest st s : armed Byte 0 rest st s -> agrees (mbind Bytes small_int s) (uint 64 s).
Proof.
  intros Ha. unfold uint, Bytes, mbind. rewrite (Kind_again _ _ _ _ _ Ha). cbv beta iota. unfold small_int.
  simpl length. cbn [Z.of_nat Pos.of_succ_nat Z.gtb Z.compare Pos.compare Pos.compare_cont].
  destruct (Z.eqb_spec (byteval s) 0) as [E|Hne].
  - left. rewrite E. split; by err.
  - right. exists (byteval s), (rearm s), (rearm s). split_and!; try done.
    replace (match byteval s with 0 => _ | _ => _ end) with (mret (be_val [byteval s]) : M Z) by (by destruct (byteval s)).
    done.
Qed.

Lemma adv_0 st : adv 0 st = st.
Proof. destruct st as [|[p z] st]; [done|]. simpl. by rewrite Z.add_0_r. Qed.

Section uint_string.
Variables (n : Z) (inp : bytes) (st : list (Z * Z)) (s : Stream).
Hypotheses (Hf : Forall is_byte inp) (Hn : 0 <= n < 2 ^ 64) (Hst : st_ok st) (Hl : len inp < 2 ^ 64).
Hypothesis (Ha : armed String n inp st s).

Lemma uint_string_zero : n = 0 -> agrees (mbind Bytes small_int s) (uint 64 s).
Proof.
  intros ->. right. destruct (Bytes_string 0 inp st s) as [(b & rest & E & El & _ & _ & s' & Eb & Hat)|[Hno _]]; try done.
  - destruct b; [|simpl in El; lia]. exists 0, s', (rearm s). unfold mbind at 1. rewrite Eb. split; [done|]. split.
    + unfold uint, mbind. by rewrite (Kind_again _ _ _ _ _ Ha).
    + simpl in E, Hat. rewrite adv_0 in Hat. subst rest.
      intros inp' st' []. destruct Hat, Ha. split; simpl; congruence.
  - exfalso. apply (Hno [] inp); try done. destruct st as [|[p z] st']; simpl in *; [done|lia].
Qed.

Lemma uint_string_one : n = 1 -> agrees (mbind Bytes small_int s) (uint 64 s).
Proof.
  intros ->. pose proof (Kind_again _ _ _ _ _ Ha) as Ek. destruct Ha. unfold uint, Bytes, mbind. rewrite !Ek. cbv beta iota.
  change (1 >? 64 / 8) with false. cbv iota. change (readUint 1) with readByte.
  destruct (readFull_spec 1 inp st s) as [(H1 & H2 & s1 & E1 & Hat1)|(H1 & e & s1 & E1 & He)];
    destruct (readByte_spec inp st s) as [(b & rest & s2 & Eb & H3 & E2 & Hat2)|(H3 & e2 & s2 & E2 & He2)]; try done.
  - rewrite E1, E2. change (Z.to_nat 1) with 1%nat in *. rewrite Eb in *. change (take 1 (b :: rest)) with [b] in *. change (drop 1 (b :: rest)) with rest in *.
    cbn [Z.ltb Z.compare andb]. destruct (Z.ltb_spec b 128); [left; split; by err|].
    right. exists b, s1, s2. split_and!; try done.
    + unfold mret, small_int. simpl length. cbn [Z.of_nat Pos.of_succ_nat Z.gtb Z.compare Pos.compare Pos.compare_cont].
      replace (match b with 0 => _ | _ => _ end) with (mret (be_val [b]) : M Z) by (by destruct b). done.
    + intros inp' st' []. destruct Hat1, Hat2. split; congruence.
  - by destruct H3.
  - exfalso. apply H1. rewrite Eb. split; [simpl length; lia|done].
  - rewrite E1, E2. left. split; [by exists e, s1|]. destruct He2. exists (match e2 with ErrCanonSize => ErrCanonInt | e => e end), s2. by destruct e2.
Qed.

Lemma uint_string_more : 2 <= n -> agrees (mbind Bytes small_int s) (uint 64 s).
Proof.
  intros H2. pose proof (Kind_again _ _ _ _ _ Ha) as Ek. destruct Ha. unfold uint, Bytes, mbind. rewrite !Ek. cbv beta iota.
  change (64 / 8) with 8.
  destruct (readFull_spec n inp st s) as [(H1 & Hr & s1 & E1 & Hat1)|(H1 & e & s1 & E1 & He)]; try done; try lia; rewrite E1.
  - set (b := take (Z.to_nat n) inp) in *. assert (len b = n) as Eb by (unfold b; rewrite length_take; lia).
    assert (Forall is_byte b) as Hfb by (by apply Forall_take). clearbody b.
    replace (match b with [x] => _ | _ => _ end) with (mret b : M bytes) by (destruct b as [|? [|]]; simpl in Eb; done || lia).
    unfold mret, small_int. rewrite Eb. rewrite !Z.gtb_ltb. destruct (Z.ltb_spec 8 n); [left; split; by err|].
    unfold readUint. rewrite !(proj2 (Z.eqb_neq n _)) by lia. unfold mbind. rewrite E1.
    destruct b as [|x bz]; [simpl in Eb; lia|].
    destruct (Z.eq_dec x 0) as [->|Hx]; [left; split; by err|].
    right. exists (be_val (x :: bz)), s1, s1. split; [by destruct x|]. split; [|done].
    replace (match x with 0 => _ | _ => _ end) with (mret (be_val (x :: bz)) : M Z) by (by destruct x). unfold mret.
    rewrite (proj2 (Z.ltb_lt 0 n)), (proj2 (Z.ltb_ge _ 128)); [done| |lia].
    apply Forall_cons in Hfb as [Hb Hbz]. unfold is_byte in Hb. rewrite Wire.be_val_cons.
    pose proof (EthMath.be_val_bound bz Hbz). assert (2 ^ 8 <= 2 ^ (8 * len bz)) by (apply Z.pow_le_mono_r; simpl length in Eb; lia).
    change (2 ^ 8) with 256 in *. nia.
  - left. split; [by exists e, s1|]. rewrite Z.gtb_ltb. destruct (8 <? n); [by err|].
    unfold readUint. rewrite !(proj2 (Z.eqb_neq n _)) by lia. unfold mbind. rewrite E1.
    destruct He. exists (match e with ErrCanonSize => ErrCanonInt | e => e end), s1. by destruct e.
Qed.
End uint_string.

Lemma uint_agrees inp st s : Forall is_byte inp -> st_ok st -> len inp < 2 ^ 64 -> not_at_end st -> at_ inp st s ->
  agrees (mbind Bytes small_int s) (uint 64 s).
Proof.
  intros Hf Hst Hl Hopen Hat.
  assert (forall k n s1, Kind_ s = (inr (k, n), s1) -> Kind_ s1 = (inr (k, n), s1) ->
    agrees (mbind Bytes small_int s1) (uint 64 s1) -> agrees (mbind Bytes small_int s) (uint 64 s)) as Hshift.
  { intros k n s1 E E1 Hag. unfold mbind in *. rewrite (Bytes_after_Kind _ _ _ _ E E1).
    unfold uint, mbind in *. rewrite E. by rewrite E1 in Hag. }
  destruct (Kind_spec inp st s) as [(b & rest & s' & E & Hlt & Hr & Ek & Ha & Hbv)
    |[(k & n & rest & s' & Hk & E & Hn & Hr & Hfit & Ek & Ha)|(_ & e & s' & Ek & He)]]; try done.
  - eapply Hshift; [exact Ek|by eapply Kind_again|]. by eapply uint_byte.
  - eapply Hshift; [exact Ek|by eapply Kind_again|].
    assert (Forall is_byte rest /\ len rest < 2 ^ 64) as [Hf' Hl'].
    { subst inp. apply Forall_app in Hf as [_ ?]. rewrite length_app in Hl. split; [done|lia]. }
    pose proof (st_ok_head k n st Hk Hn Hr Hst) as Hst'. destruct k; [done| |].
    + destruct (Z.eq_dec n 0); [by eapply uint_string_zero|]. destruct (Z.eq_dec n 1); [by eapply uint_string_one|].
      eapply uint_string_more; try done. lia.
    + left. unfold uint, Bytes, mbind. rewrite (Kind_again _ _ _ _ _ Ha). split; by err.
  - left. unfold uint, Bytes, mbind. rewrite Ek. split; by exists e, s'.
Qed.

Definition uint_enc (i : Z) (out : bytes) : Prop := 0 <= i < 2 ^ 64 /\ out = enc (VUint i).

Lemma uint_is_bigint i out : uint_enc i out <-> bigint_enc i out /\ i < 2 ^ 64.
Proof. unfold uint_enc, bigint_enc. cbn [enc]. naive_solver lia. Qed.

Lemma small_int_reader : value_reader (mbind Bytes small_int) uint_enc.
Proof.
  eapply map_reader; [apply Bytes_reader| |].
  - intros b. unfold small_int. rewrite Z.gtb_ltb. destruct (Z.ltb_spec 8 (len b)); [right; by exists errUintOverflow|].
    assert (match b with 0 :: _ => False | _ => True end \/ exists bz, b = 0 :: bz) as [Hb|[bz ->]]
      by (destruct b as [|[] bz]; eauto); [left|right; by exists ErrCanonInt].
    exists (be_val b). split; [by destruct b as [|[]]|]. intros out -> Hf. apply bytes_of_string in Hf.
    apply uint_is_bigint. split; [by apply string_bigint|].
    eapply Z.lt_le_trans; [apply (EthMath.be_val_bound b Hf)|]. apply Z.pow_le_mono_r; lia.
  - intros i out [Hi Hlt]%uint_is_bigint. destruct (bigint_string i out Hi) as (b & -> & <- & Hb & Hf). exists b. split; [done|].
    unfold small_int. rewrite Z.gtb_ltb, (proj2 (Z.ltb_ge _ _)); [by destruct b as [|[]]|].
    destruct b as [|x bz]; [simpl; lia|]. apply Forall_cons in Hf as [Hx Hbz]. unfold is_byte in Hx.
    rewrite Wire.be_val_cons in Hlt. pose proof (EthMath.be_val_bound bz Hbz). assert (x <> 0) by (by destruct x).
    simpl length. apply Z.le_ngt. intros H8. assert (2 ^ 64 <= 2 ^ (8 * len bz)) by (apply Z.pow_le_mono_r; lia). nia.
Qed.

Lemma uint_reader : value_reader decodeUint uint_enc.
Proof.
  apply wrap_reader. destruct small_int_reader as [Hs Hstop Hc Hpos]. split; [| | |done].
  - intros p z st inp s Hf Hst Hl Hlt Hat.
    destruct (uint_agrees inp _ s Hf Hst Hl Hlt Hat) as [[_ ?]|(a & s1 & s2 & E1 & E2 & Hto)]; [by right|].
    destruct (Hs p z st inp s Hf Hst Hl Hlt Hat) as [(i & out & rest & E & Hi & Hr & s3 & E3 & Hat3)|(e & s3 & E3 & _)];
      rewrite E1 in E3; simplify_eq.
    left. exists i, out, rest. split_and!; [done|done|]. split; [done|]. exists s2. rewrite E2. auto.
  - intros p st inp s Hat. exists s. unfold uint, mbind. by rewrite (Kind_end _ _ _ _ Hat).
  - intros p z st out rest s i Hf Hst Hl Hat Hi Hp. pose proof (Hpos i out Hi) as Ho.
    destruct (Hc p z st out rest s i Hf Hst Hl Hat Hi Hp) as (Hr & s1 & E1 & Hat1).
    destruct (uint_agrees (out ++ rest) _ s Hf Hst Hl) as [[(e & s2 & E2 & _) _]|(a & s2 & s3 & E2 & E3 & Hto)];
      try done; [simpl; lia|rewrite E1 in E2; by simplify_eq|].
    rewrite E1 in E2. simplify_eq. split; [done|]. exists s3. auto.
Qed.

(** *** The recipient *)
Definition recipient_enc (a : option Z) (out : bytes) : Prop :=
  match a with
  | None => out = [0x80] \/ out = [0xC0]
  | Some a => 0 <= a < 2 ^ 160 /\ out = enc (VBytes (EthMath.address_Bytes a))
  end.

Lemma head_zero k : k <> Byte -> head k 0 = [match k with List => 0xC0 | _ => 0x80 end].
Proof. by destruct k. Qed.

Lemma address_enc a : enc (VBytes (EthMath.address_Bytes a)) = head String 20 ++ EthMath.address_Bytes a.
Proof.
  cbn [enc]. assert (length (EthMath.address_Bytes a) = 20%nat) as E by apply Wire.be_bytes_length.
  rewrite enc_string_head; [by rewrite E|]. by destruct (EthMath.address_Bytes a) as [|? [|]].
Qed.

(** After the header of a string of twenty bytes. *)
Lemma byteArray_spec inp st s : st_ok st -> len inp < 2 ^ 64 -> armed String 20 inp st s ->
  (20 <= len inp /\ room 20 st /\
    exists s', decodeByteArray 20 s = (inr (take 20 inp), s') /\ at_ (drop 20 inp) (adv 20 st) s') \/
  (~ (20 <= len inp /\ room 20 st) /\ failed (decodeByteArray 20 s)).
Proof.
  intros Hst Hl Ha. pose proof (Kind_again _ _ _ _ _ Ha) as Ek. destruct Ha.
  unfold decodeByteArray, mbind. rewrite Ek. cbn [Z.ltb Z.gtb Z.compare Pos.compare Pos.compare_cont].
  destruct (readFull_spec 20 inp st s) as [(H1 & H2 & s' & -> & Hat)|(H1 & e & s' & -> & He)]; try done.
  - left. split_and!; try done. change (Z.to_nat 20) with 20%nat in *. exists s'. split; [|done].
    destruct (take 20 inp) as [|x [|]] eqn:E; try done. apply (f_equal length) in E. rewrite length_take in E. cbn [length] in E. cbv beta in H1. lia.
  - right. split; [done|]. by exists e, s'.
Qed.

Lemma byteArray_other k n inp st s : armed k n inp st s -> ~ (k = String /\ n = 20) -> failed (decodeByteArray 20 s).
Proof.
  intros Ha Hne. unfold decodeByteArray, mbind. rewrite (Kind_again _ _ _ _ _ Ha). destruct k; try by err.
  destruct (Z.ltb_spec 20 n); [by err|]. rewrite Z.gtb_ltb. destruct (Z.ltb_spec n 20); [by err|].
  exfalso. apply Hne. split; [done|lia].
Qed.

Section recipient.
Variables (p z : Z) (st : list (Z * Z)).
Hypothesis (Hst : st_ok ((p, z) :: st)).

Lemma recipient_sound inp s : Forall is_byte inp -> len inp < 2 ^ 64 -> p < z -> at_ inp ((p, z) :: st) s ->
  (exists a out rest, inp = out ++ rest /\ recipient_enc a out /\ parsed out a rest ((p, z) :: st) (decodeRecipient s)) \/
  failed (decodeRecipient s).
Proof using Hst.
  intros Hf Hl Hlt Hat. unfold decodeRecipient, optionalPtr, mbind.
  destruct (Kind_spec inp ((p, z) :: st) s) as [(b & rest & s' & E & Hb & Hr & -> & Ha & Hbv)
    |[(k & n & rest & s' & Hk & E & Hn & Hr & Hfit & -> & Ha)|(_ & e & s' & -> & He)]]; try done.
  - right. rewrite bool_decide_false by (intros H; by apply H). cbn [Z.eqb andb].
    destruct (byteArray_other _ _ _ _ _ Ha) as (e & s2 & -> & He); [by intros [? _]|]. by exists e, s2.
  - rewrite bool_decide_true by done. rewrite andb_true_r. destruct (Z.eqb_spec n 0) as [->|Hn0].
    { left. exists None, (head k 0), rest. rewrite (head_zero k Hk) in *.
      split_and!; [done|destruct k; [done|by left|by right]|]. split; [done|]. eexists. split; [done|].
      destruct Ha. by split. }
    assert (len rest < 2 ^ 64 /\ Forall is_byte rest) as [Hl' Hf'].
    { rewrite E in *. apply Forall_app in Hf as [_ ?]. rewrite length_app in Hl. split; [lia|done]. }
    pose proof (st_ok_head k n _ Hk Hn Hr Hst) as Hst'.
    destruct (decide (k = String /\ n = 20)) as [[-> ->]|Hne];
      [|right; destruct (byteArray_other _ _ _ _ _ Ha Hne) as (e & s2 & -> & He); by exists e, s2].
    destruct (byteArray_spec rest _ s' Hst' Hl' Ha) as [(H1 & H2 & s2 & -> & Hat2)|(_ & e & s2 & -> & He)];
      [left|right; by exists e, s2].
    set (b := take 20 rest) in *. assert (length b = 20%nat) as Eb by (unfold b; rewrite length_take; cbv beta in H1; lia).
    assert (Forall is_byte b) as Hfb by (by apply Forall_take).
    assert (EthMath.address_Bytes (be_val b) = b) as Eab.
    { unfold EthMath.address_Bytes. rewrite <- Eb at 1. by apply be_bytes_val. }
    exists (Some (be_val b)), (head String 20 ++ b), (drop 20 rest). split_and!.
    + rewrite E, <- app_assoc. unfold b. by rewrite take_drop.
    + pose proof (EthMath.be_val_bound b Hfb) as Hv. rewrite Eb in Hv. split; [done|]. by rewrite address_enc, Eab.
    + split; [rewrite length_app, Nat2Z.inj_add, Eb, <- room_adv; done|]. exists s2. split; [done|].
      rewrite length_app, Nat2Z.inj_add, Eb, <- adv_adv. done.
  - right. by exists e, (rearm s').
Qed.

Lemma recipient_some a rest s : 0 <= a < 2 ^ 160 -> Forall is_byte (enc (VBytes (EthMath.address_Bytes a)) ++ rest) ->
  len (enc (VBytes (EthMath.address_Bytes a)) ++ rest) < 2 ^ 64 -> p + len (enc (VBytes (EthMath.address_Bytes a))) <= z ->
  at_ (enc (VBytes (EthMath.address_Bytes a)) ++ rest) ((p, z) :: st) s ->
  parsed (enc (VBytes (EthMath.address_Bytes a))) (Some a) rest ((p, z) :: st) (decodeRecipient s).
Proof using Hst.
  rewrite address_enc, <- app_assoc. intros Ha Hf Hl Hp Hat. unfold decodeRecipient, optionalPtr, mbind.
  assert (length (EthMath.address_Bytes a) = 20%nat) as E20 by apply Wire.be_bytes_length.
  assert (len (head String 20) = 1) as Eh by done.
  destruct (Kind_head String 20 (EthMath.address_Bytes a ++ rest) ((p, z) :: st) s) as (s' & -> & Har); try done.
  { rewrite length_app in Hp. simpl in *. lia. }
  { rewrite length_app in Hp. simpl in *. lia. }
  rewrite bool_decide_true by done. cbn [Z.eqb andb].
  rewrite !length_app in Hl. rewrite length_app in Hp.
  destruct (byteArray_spec (EthMath.address_Bytes a ++ rest) (adv 1 ((p, z) :: st)) s')
    as [(H1 & H2 & s2 & -> & Hat2)|(Hno & _)]; try done.
  - simpl in *. lia.
  - rewrite length_app. lia.
  - split; [rewrite length_app; simpl in *; lia|]. exists s2. rewrite <- E20, take_app_length. split.
    + assert (be_val (EthMath.address_Bytes a) = a) as Ea
        by (unfold EthMath.address_Bytes; rewrite Wire.be_val_bytes; by apply Z.mod_small).
      unfold mret. simpl fmap. by rewrite Ea.
    + rewrite <- E20, drop_app_length in Hat2. rewrite length_app, Nat2Z.inj_add, <- adv_adv. by rewrite E20 in *.
  - exfalso. apply Hno. rewrite length_app. split; [lia|]. simpl in *. lia.
Qed.

Lemma recipient_none out rest s : out = [0x80] \/ out = [0xC0] -> Forall is_byte (out ++ rest) ->
  len (out ++ rest) < 2 ^ 64 -> p + len out <= z -> at_ (out ++ rest) ((p, z) :: st) s ->
  parsed out None rest ((p, z) :: st) (decodeRecipient s).
Proof using Hst.
  intros Ho. assert (exists k, k <> Byte /\ out = head k 0) as (k & Hk & ->) by (destruct Ho as [->| ->]; [by exists String|by exists List]).
  intros Hf Hl Hp Hat. unfold decodeRecipient, optionalPtr, mbind.
  destruct (Kind_head k 0 rest ((p, z) :: st) s) as (s' & -> & Har); try done.
  { rewrite (head_zero k Hk) in *. simpl in *. lia. }
  rewrite bool_decide_true by done. cbn [Z.eqb andb]. split; [done|]. eexists. split; [done|].
  destruct Har. by split.
Qed.
End recipient.

Lemma recipient_reader : value_reader decodeRecipient recipient_enc.
Proof.
  split.
  - intros. by apply recipient_sound.
  - intros p st inp s Hat. unfold decodeRecipient, optionalPtr, mbind. rewrite (Kind_end _ _ _ _ Hat). by eexists.
  - intros p z st out rest s [a|] Hf Hst Hl Hat Ha Hp; [destruct Ha as [? ->]; by apply recipient_some|by apply recipient_none].
  - intros [a|] out; [intros [_ ->]; apply enc_string_pos|]. by intros [->| ->].
Qed.


(** ** Transactions *)
Record tx_ok (tx : txdata) : Prop := {
  ok_nonce : 0 <= AccountNonce tx < 2 ^ 64;
  ok_price : 0 <= Price tx;
  ok_gas : 0 <= GasLimit tx < 2 ^ 64;
  ok_recipient : match Recipient tx with Some a => 0 <= a < 2 ^ 160 | None => True end;
  ok_amount : 0 <= Amount tx;
  ok_v : 0 <= V tx;
  ok_r : 0 <= R tx;
  ok_s : 0 <= EthTx.S tx
}.

Definition fields_with (rcp : Rlp.value) (tx : txdata) : list Rlp.value :=
  [VUint (AccountNonce tx); VBigInt (Price tx); VUint (GasLimit tx); rcp; VBigInt (Amount tx); VBytes (Payload tx);
   VBigInt (V tx); VBigInt (R tx); VBigInt (EthTx.S tx)].

(** The forms of the recipient that are accepted. *)
Definition recipient_form (tx : txdata) (rcp : Rlp.value) : Prop :=
  rcp = address_value (Recipient tx) \/ (Recipient tx = None /\ rcp = VList []).

Lemma decode_fields_reads :
  reads decode_fields (fun tx out => tx_ok tx /\ exists rcp, recipient_form tx rcp /\ out = concat (map enc (fields_with rcp tx))).
Proof.
  unfold decode_fields. eapply reads_iff; swap 1 2.
  { repeat (eapply reads_bind; [apply field_reads; (apply uint_reader || apply bigint_reader || apply recipient_reader
      || apply wrap_reader, Bytes_reader)|intros ?]). apply reads_ret. }
  intros tx out. split.
  - intros (n & ? & ? & -> & [Hn ->] & p & ? & ? & -> & [Hp ->] & g & ? & ? & -> & [Hg ->] & a & o & ? & -> & Ha &
      m & ? & ? & -> & [Hm ->] & b & ? & ? & -> & -> & v & ? & ? & -> & [Hv ->] & r & ? & ? & -> & [Hr ->] &
      s & ? & ? & -> & [Hs ->] & -> & ->).
    split; [split; try done; by destruct a as [a|]; [destruct Ha|]|].
    assert (exists rcp, recipient_form (mkTx n p g a m b v r s) rcp /\ o = enc rcp) as (rcp & Hrcp & ->).
    { destruct a as [a|]; [destruct Ha as [_ ->]; eexists; split; [by left|done]|].
      destruct Ha as [->| ->]; [exists (VRaw [0x80])|exists (VList [])]; (split; [|done]); [by left|by right]. }
    by exists rcp.
  - intros [[] (rcp & Hrcp & ->)]. destruct tx as [n p g a m b v r s]. cbn [AccountNonce Price GasLimit Recipient Amount Payload V R EthTx.S] in *.
    unfold fields_with. cbn [map concat AccountNonce Price GasLimit Recipient Amount Payload V R EthTx.S].
    assert (recipient_enc a (enc rcp)) as Ha.
    { unfold recipient_form in Hrcp. cbn [Recipient] in Hrcp. destruct Hrcp as [->|[-> ->]]; [|by right].
      destruct a as [a|]; [done|by left]. }
    let go x := (exists x; eexists _, _; split; [reflexivity|split; [done|]]) in
    go n; go p; go g; go a; go m; go b; go v; go r; go s. done.
Qed.

Lemma Kind_idem s : Kind_ (Kind_ s).2 = Kind_ s.
Proof.
  unfold Kind_ at 2 3. repeat case_match; simpl; unfold Kind_; simpl;
    repeat match goal with H : kind _ = _ |- _ => rewrite H | H : stack _ = _ |- _ => rewrite H
      | H : kinderr _ = _ |- _ => rewrite H | H : (_ =? _) = _ |- _ => rewrite H end; done.
Qed.

Definition tx_fields (tx : txdata) (out : bytes) : Prop :=
  tx_ok tx /\ exists rcp, recipient_form tx rcp /\ out = concat (map enc (fields_with rcp tx)).

Lemma wrap_ok {A} (d : M A) s a s' : d s = (inr a, s') -> wrap d s = (inr a, s').
Proof. unfold wrap. by intros ->. Qed.
Lemma wrap_failed {A} (d : M A) s : failed (d s) -> failed (wrap d s).
Proof. intros (e & s' & E & He). unfold wrap. rewrite E. exists (wrapStreamError e), s'. split; [done|by apply wrap_good]. Qed.

Lemma List_not k n inp st s : armed k n inp st s -> k <> List -> failed (List_ s).
Proof. intros Ha Hk. unfold List_, mbind. rewrite (Kind_again _ _ _ _ _ Ha). destruct k; [by err|by err|done]. Qed.

(** The fields between an opened list and its end. *)
Definition list_body : M txdata := tx <- decode_fields; _ <- wrap ListEnd; mret tx.

Lemma enc_list_head out : enc_list out = head List (len out) ++ out.
Proof. reflexivity. Qed.

Lemma list_body_sound n inp s : Forall is_byte inp -> 0 <= n < 2 ^ 64 -> len inp < 2 ^ 64 -> at_ inp [(0, n)] s ->
  (exists tx out rest s', inp = out ++ rest /\ len out = n /\ tx_fields tx out /\ list_body s = (inr tx, s') /\ at_ rest [] s') \/
  failed (list_body s).
Proof.
  intros Hf Hn Hl Hat. unfold list_body, mbind.
  destruct (reads_sound _ _ decode_fields_reads 0 n [] inp s) as [(tx & out & rest & s1 & -> & Htx & Hp & -> & Hat1)
    |(e & s1 & -> & He)]; try done; [simpl; lia| |right; by exists e, s1].
  cbn [Z.add] in *. destruct (Z.eq_dec (len out) n) as [E|Hne].
  - left. cbv beta in E. rewrite E in Hat1. destruct (ListEnd_spec n rest [] s1) as (s2 & E2 & Hat2); try done; [lia|].
    exists tx, out, rest, s2. split_and!; try done. by rewrite (wrap_ok _ _ _ _ E2).
  - right. unfold wrap, ListEnd. rewrite (at_stack _ _ _ Hat1). rewrite (proj2 (Z.eqb_neq _ _)) by done. by err.
Qed.

Lemma list_body_complete tx out rest s : tx_fields tx out -> Forall is_byte (out ++ rest) -> len (out ++ rest) < 2 ^ 64 ->
  at_ (out ++ rest) [(0, len out)] s -> exists s', list_body s = (inr tx, s') /\ at_ rest [] s'.
Proof.
  intros Htx Hf Hl Hat. unfold list_body, mbind. rewrite length_app in Hl.
  destruct (reads_complete _ _ decode_fields_reads 0 (len out) [] out rest s tx) as (s1 & -> & Hat1); try done.
  { simpl. lia. }
  { rewrite length_app. lia. }
  cbn [Z.add] in Hat1. destruct (ListEnd_spec (len out) rest [] s1) as (s2 & E2 & Hat2); try done; [lia|].
  exists s2. split; [|done]. by rewrite (wrap_ok _ _ _ _ E2).
Qed.

Lemma DecodeRLP_after s : exists s1, Kind_ s1 = Kind_ s /\ s1 = (Kind_ s).2 /\ DecodeRLP s = mbind (wrap List_) (fun _ => list_body) s1.
Proof. exists (Kind_ s).2. split; [apply Kind_idem|]. unfold DecodeRLP. by destruct (Kind_ s). Qed.

Lemma bind_failed {A B} (d : M A) (k : A -> M B) s : failed (d s) -> failed (mbind d k s).
Proof. intros (e & s' & E & He). unfold mbind. rewrite E. by exists e, s'. Qed.

Lemma DecodeRLP_sound b : Forall is_byte b -> len b < 2 ^ 64 ->
  (exists tx out rest s', b = enc_list out ++ rest /\ tx_fields tx out /\ DecodeRLP (NewStream b) = (inr tx, s') /\ r s' = rest) \/
  failed (DecodeRLP (NewStream b)).
Proof.
  intros Hf Hl. destruct (DecodeRLP_after (NewStream b)) as (s1 & Ei & E1 & ->).
  destruct (Kind_spec b [] (NewStream b)) as [(x & rest & s' & E & Hb & Hr & Ek & Ha & Hbv)
    |[(k & n & rest & s' & Hk & E & Hn & Hr & Hfit & Ek & Ha)|(_ & e & s' & Ek & He)]]; try done;
    rewrite Ek in *; simpl in E1; subst s1.
  - right. apply bind_failed, wrap_failed. by eapply List_not.
  - destruct k; [done|right; apply bind_failed, wrap_failed; by eapply List_not|].
    destruct (List_armed _ _ _ _ Ha) as (s2 & E2 & Hat2). unfold mbind. rewrite (wrap_ok _ _ _ _ E2).
    rewrite E in Hf, Hl. apply Forall_app in Hf as [_ Hf]. rewrite length_app in Hl.
    destruct (list_body_sound n rest s2) as [(tx & out & rest' & s3 & -> & El & Htx & -> & Hat3)|?]; try done; [lia|left|by right].
    exists tx, out, rest', s3. split_and!; try done; [|by destruct Hat3]. rewrite E, <- El. by rewrite enc_list_head, app_assoc.
  - right. apply bind_failed, wrap_failed. unfold List_, mbind. rewrite Ei. by exists e, s'.
Qed.

Lemma DecodeRLP_complete tx out : tx_fields tx out -> Forall is_byte (enc_list out) -> len (enc_list out) < 2 ^ 64 ->
  exists s', DecodeRLP (NewStream (enc_list out)) = (inr tx, s') /\ r s' = [].
Proof.
  intros Htx Hf Hl. assert (enc_list out = head List (len out) ++ (out ++ [])) as E by (by rewrite app_nil_r, enc_list_head).
  rewrite E in *. rewrite length_app in Hl. pose proof Hf as Hf2. apply Forall_app in Hf2 as [_ Hf2].
  assert (len out < 2 ^ 64) by (rewrite length_app in Hl; lia).
  destruct (DecodeRLP_after (NewStream (head List (len out) ++ (out ++ [])))) as (s1 & Ei & E1 & ->).
  destruct (Kind_head List (len out) (out ++ []) [] (NewStream (head List (len out) ++ (out ++ [])))) as (s2 & Ek & Ha); try done.
  { lia. } { rewrite length_app. lia. } { simpl. rewrite app_nil_r. lia. }
  rewrite Ek in E1. simpl in E1. subst s1. destruct (List_armed _ _ _ _ Ha) as (s3 & E3 & Hat3).
  unfold mbind. rewrite (wrap_ok _ _ _ _ E3).
  destruct (list_body_complete tx out [] s3) as (s4 & -> & Hat4); try done; [rewrite app_nil_r in *; lia|].
  exists s4. split; [done|]. by destruct Hat4.
Qed.

Lemma DecodeTx_iff b tx : Forall is_byte b -> len b < 2 ^ 64 ->
  DecodeTx b = inr tx <-> exists out, tx_fields tx out /\ b = enc_list out.
Proof.
  intros Hf Hl. unfold DecodeTx. split.
  - destruct (DecodeRLP_sound b Hf Hl) as [(tx' & out & rest & s' & E & Htx & -> & ->)|(e & s' & -> & _)]; [|done].
    destruct rest; [|done]. intros [= ->]. exists out. by rewrite app_nil_r in E.
  - intros (out & Htx & ->). destruct (DecodeRLP_complete tx out Htx Hf Hl) as (s' & -> & ->). done.
Qed.

Lemma encodable_tx tx : tx_ok tx -> encodable (tx_value tx) = true.
Proof.
  intros []. cbn [tx_value unsigned_fields app encodable forallb].
  repeat (apply andb_true_iff; split); try (by apply Z.leb_le || apply Z.ltb_lt); try done; try (apply Z.ltb_lt; lia);
    try (apply Z.leb_le; lia). by destruct (Recipient tx).
Qed.

(** Both forms of a missing recipient take one byte. *)
Lemma recipient_form_length tx rcp : recipient_form tx rcp -> length (enc rcp) = length (enc (address_value (Recipient tx))).
Proof. by intros [->|[-> ->]]. Qed.

Lemma tx_value_length tx rcp : recipient_form tx rcp ->
  len (concat (map enc (fields_with rcp tx))) = len (concat (map enc (fields_with (address_value (Recipient tx)) tx))).
Proof.
  intros Hr%recipient_form_length. unfold fields_with. cbn [map concat]. rewrite !length_app, Hr. lia.
Qed.

(** C20: transactions and their encodings.  A byte string decodes to a
    transaction exactly when it is the encoding of that transaction, or the
    same encoding with the empty list in the place of a missing recipient;
    any other input is refused, and the decoder comes to an end.  What has
    been decoded is encoded again without an error. *)
Theorem DecodeTx_exact (b : bytes) : Forall is_byte b -> len b < 2 ^ 64 ->
  (forall e, DecodeTx b = inl e -> e <> starved) /\
  forall tx, (DecodeTx b = inr tx <->
      tx_ok tx /\ (b = enc (tx_value tx) \/ (Recipient tx = None /\ b = enc (VList (fields_with (VList []) tx))))) /\
    (DecodeTx b = inr tx -> EncodeRLP tx = Ok (Some (enc (tx_value tx)))).
Proof.
  intros Hf Hl. split; [|intros tx; split].
  - unfold DecodeTx. destruct (DecodeRLP_sound b Hf Hl) as [(tx & out & rest & s' & _ & _ & -> & ->)|(e & s' & -> & He)].
    + destruct rest; [done|]. by intros e [= <-].
    + intros ? [= <-]. apply He.
  - rewrite DecodeTx_iff by done. split.
    + intros (out & (Hok & rcp & [->|[Hn ->]] & ->) & ->); (split; [done|]); [by left|by right].
    + intros [Hok [->|[Hn ->]]]; eexists; (split; [split; [done|]|done]); eexists; (split; [|done]); [by left|by right].
  - intros E. apply DecodeTx_iff in E as (out & (Hok & rcp & Hr & ->) & ->); try done.
    apply EncodeToBytes_spec; [by apply encodable_tx|]. apply tx_value_length in Hr.
    change (enc (tx_value tx)) with (enc_list (concat (map enc (fields_with (address_value (Recipient tx)) tx)))).
    rewrite enc_list_head in *. rewrite length_app in *. cbv beta in Hr. rewrite <- Hr. lia.
Qed.

Definition sample_tx : txdata := mkTx 3 1 21000 None 5 [1; 2] 27 7 9.

Lemma DecodeTx_exact_witness :
  DecodeTx (enc (tx_value sample_tx)) = inr sample_tx /\ EncodeRLP sample_tx = Ok (Some (enc (tx_value sample_tx))).
Proof.
  assert (Forall is_byte (enc (tx_value sample_tx))) as Hf by (vm_compute; repeat constructor; done).
  destruct (DecodeTx_exact (enc (tx_value sample_tx)) Hf eq_refl) as [_ H]. destruct (H sample_tx) as [H1 H2].
  assert (DecodeTx (enc (tx_value sample_tx)) = inr sample_tx) as E by (apply H1; split; [by split|by left]).
  split; [exact E|by apply H2].
Defined.
End TxCodec.
