(* ===== verification/Receipts.v ===== *)
(** * eth/core/types: receipts and their bloom filters

    bloom9.go, and the receipts of receipt.go with what is written to the
    database.  A filter is its 256 bytes; it never misses what was put in. *)
From S2P Require Import Prelude Wire EthMath StateDB Rlp EvmBase Precompiles.

Module Receipts.
Import EthMath EvmBase Precompiles.

Section with_keccak.
Context `{Keccak}.

(** ** bloom9.go *)
Definition BloomByteLength : Z := 256.

Definition bloom_bit (h : bytes) (i : nat) : Z :=
  Z.shiftl 1 (Z.land (default 0 (h !! Datatypes.S i) + Z.shiftl (default 0 (h !! i)) 8) 2047).

Definition bloom9 (b : bytes) : Z :=
  let h := Keccak256 b in
  foldl (fun r i => Z.lor r (bloom_bit h i)) 0 [0; 2; 4]%nat.

Definition SetBytes (b d : bytes) : res bytes :=
  if len b <? len d then Panic else Ok (Wire.copy_at b (length b - length d) d).

Definition BytesToBloom (d : bytes) : res bytes := SetBytes (replicate 256 0) d.

Definition Add (d : Z) (b : bytes) : res bytes := SetBytes b (Bytes (Z.lor (be_val b) (bloom9 (Bytes d)))).

Definition BloomLookup (bin topic : bytes) : bool :=
  let cmp := bloom9 topic in Z.land (be_val bin) cmp =? cmp.

Definition Test (d : Z) (b : bytes) : bool := BloomLookup b (Bytes d).

Definition LogsBloom (logs : list StateDB.Log) : Z :=
  foldl (fun bin log =>
    foldl (fun bin t => Z.lor bin (bloom9 (hash_Bytes t)))
      (Z.lor bin (bloom9 (address_Bytes (StateDB.log_Address log)))) (StateDB.Topics log)) 0 logs.

(** ** receipt.go *)
Definition ReceiptStatusFailed : Z := 0.
Definition ReceiptStatusSuccessful : Z := 1.
Definition ReceiptStatusFailedEVMOutOfGas : Z := 2.

Record Receipt := mkReceipt {
  PostState : bytes; Status : Z; CumulativeGasUsed : Z; Bloom : bytes; Logs : list StateDB.Log;
  TxHash : Z; ContractAddress : Z; GasUsed : Z
}.

Definition NewReceipt (root : bytes) (failed : bool) (cumulativeGasUsed : Z) : Receipt :=
  mkReceipt root (if failed then ReceiptStatusFailed else ReceiptStatusSuccessful) cumulativeGasUsed
    (replicate 256 0) [] 0 0 0.

Definition statusEncoding (r : Receipt) : bytes :=
  if (length (PostState r) =? 0)%nat then
    if Status r =? ReceiptStatusFailed then []
    else if Status r =? ReceiptStatusFailedEVMOutOfGas then [2]
    else [1]
  else PostState r.

Definition setStatus (b : bytes) (r : Receipt) : option Receipt :=
  let status n := mkReceipt (PostState r) n (CumulativeGasUsed r) (Bloom r) (Logs r) (TxHash r) (ContractAddress r) (GasUsed r) in
  if decide (b = [1]) then Some (status ReceiptStatusSuccessful)
  else if decide (b = []) then Some (status ReceiptStatusFailed)
  else if decide (b = [2]) then Some (status ReceiptStatusFailedEVMOutOfGas)
  else if (length b =? 32)%nat
       then Some (mkReceipt b (Status r) (CumulativeGasUsed r) (Bloom r) (Logs r) (TxHash r) (ContractAddress r) (GasUsed r))
       else None.

Definition CreateBloom (receipts : list Receipt) : res bytes :=
  BytesToBloom (Bytes (foldl (fun bin r => Z.lor bin (LogsBloom (Logs r))) 0 receipts)).

(** What is encoded: the consensus fields, or everything for the database. *)
Definition log_value (l : StateDB.Log) : Rlp.value :=
  Rlp.VList [Rlp.VBytes (address_Bytes (StateDB.log_Address l));
    Rlp.VList (map (fun t => Rlp.VBytes (hash_Bytes t)) (StateDB.Topics l)); Rlp.VBytes (StateDB.Data l)].

Definition log_storage_value (l : StateDB.Log) : Rlp.value :=
  Rlp.VList [Rlp.VBytes (address_Bytes (StateDB.log_Address l));
    Rlp.VList (map (fun t => Rlp.VBytes (hash_Bytes t)) (StateDB.Topics l)); Rlp.VBytes (StateDB.Data l);
    Rlp.VUint (StateDB.log_BlockNumber l); Rlp.VBytes (hash_Bytes (StateDB.log_TxHash l));
    Rlp.VUint (StateDB.log_TxIndex l); Rlp.VBytes (hash_Bytes (StateDB.log_BlockHash l)); Rlp.VUint (StateDB.log_Index l)].

Definition receipt_value (r : Receipt) : Rlp.value :=
  Rlp.VList [Rlp.VBytes (statusEncoding r); Rlp.VUint (CumulativeGasUsed r); Rlp.VBytes (Bloom r);
    Rlp.VList (map log_value (Logs r))].

Definition receipt_storage_value (r : Receipt) : Rlp.value :=
  Rlp.VList [Rlp.VBytes (statusEncoding r); Rlp.VUint (CumulativeGasUsed r); Rlp.VBytes (Bloom r);
    Rlp.VBytes (hash_Bytes (TxHash r)); Rlp.VBytes (address_Bytes (ContractAddress r));
    Rlp.VList (map log_storage_value (Logs r)); Rlp.VUint (GasUsed r)].

(** ** A filter never misses *)

(** The bits of [x] are among those of [y]. *)
Definition included (x y : Z) : Prop := Z.land y x = x.

Lemma included_bits x y : included x y <-> forall i, Z.testbit x i = true -> Z.testbit y i = true.
Proof.
  unfold included. split.
  - intros E i Hi. rewrite <- E, Z.land_spec in Hi. by apply andb_true_iff in Hi as [? _].
  - intros Hi. apply Z.bits_inj. intros i. rewrite Z.land_spec. specialize (Hi i).
    destruct (Z.testbit x i); [by rewrite Hi|apply andb_false_r].
Qed.

#[local] Instance included_trans : Transitive included.
Proof. intros x y z. rewrite !included_bits. auto. Qed.
Lemma included_or_l x y : included x (Z.lor x y).
Proof. apply included_bits. intros i Hi. rewrite Z.lor_spec. by rewrite Hi. Qed.
Lemma included_or_r x y : included y (Z.lor x y).
Proof. rewrite Z.lor_comm. apply included_or_l. Qed.

(** A fold that only adds bits keeps what it had and has what it met. *)
Section or_fold.
Context {A : Type} (f : Z -> A -> Z) (g : A -> Z -> Prop).
Hypothesis f_grows : forall r a, included r (f r a).
Hypothesis f_adds : forall r a x, g a x -> included x (f r a).

Lemma or_fold_keeps l r : included r (foldl f r l).
Proof using f_grows.
  revert r. induction l as [|a l IH]; intros r; simpl.
  - apply included_bits. auto.
  - etrans; [apply (f_grows r a)|apply IH].
Qed.

Lemma or_fold_adds l r a x : a ∈ l -> g a x -> included x (foldl f r l).
Proof using f_grows f_adds.
  intros Hin Hx. revert r. induction Hin as [a l|a b l Hin IH]; intros r; simpl; [|by apply IH].
  etrans; [by apply f_adds|apply or_fold_keeps].
Qed.
End or_fold.

Definition small (x : Z) : Prop := 0 <= x < 2 ^ 2048.

Lemma small_or x y : small x -> small y -> small (Z.lor x y).
Proof.
  intros [Hx1 Hx2] [Hy1 Hy2]. split; [by apply Z.lor_nonneg|].
  destruct (Z.eq_dec (Z.lor x y) 0) as [->|Hne]; [done|].
  assert (0 <= Z.lor x y) by (by apply Z.lor_nonneg). apply Z.log2_lt_pow2; [lia|]. rewrite Z.log2_lor by done.
  apply Z.max_lub_lt.
  - destruct (Z.eq_dec x 0) as [->|]; [done|]. apply Z.log2_lt_pow2; lia.
  - destruct (Z.eq_dec y 0) as [->|]; [done|]. apply Z.log2_lt_pow2; lia.
Qed.

Lemma small_fold {A} (f : Z -> A -> Z) l r : (forall r a, small r -> small (f r a)) -> small r -> small (foldl f r l).
Proof. intros Hf. revert r. induction l as [|a l IH]; intros r Hr; simpl; [done|]. by apply IH, Hf. Qed.

Lemma small_bit h i : small (bloom_bit h i).
Proof.
  unfold bloom_bit. rewrite Z.shiftl_1_l.
  assert (0 <= Z.land (default 0 (h !! Datatypes.S i) + Z.shiftl (default 0 (h !! i)) 8) 2047 < 2048) as [H1 H2].
  { change 2047 with (Z.ones 11). rewrite Z.land_ones by done. by apply Z.mod_pos_bound. }
  split; [by apply Z.pow_nonneg|]. by apply Z.pow_lt_mono_r.
Qed.

Lemma small_bloom9 b : small (bloom9 b).
Proof. apply small_fold; [intros; apply small_or; [done|apply small_bit]|done]. Qed.

Lemma LogsBloom_small logs : small (LogsBloom logs).
Proof.
  apply small_fold; [|done]. intros r l Hr. apply small_fold; [intros; apply small_or; [done|apply small_bloom9]|].
  apply small_or; [done|apply small_bloom9].
Qed.

(** What a log puts into a filter. *)
Definition entry (l : StateDB.Log) (b : bytes) : Prop :=
  b = address_Bytes (StateDB.log_Address l) \/ exists t, t ∈ StateDB.Topics l /\ b = hash_Bytes t.

Lemma LogsBloom_included logs l b : l ∈ logs -> entry l b -> included (bloom9 b) (LogsBloom logs).
Proof.
  intros Hl Hb. unfold LogsBloom.
  apply (or_fold_adds _ (fun l x => exists b, entry l b /\ x = bloom9 b)) with (a := l); [| |done|by exists b].
  - intros r a. etrans; [apply included_or_l|]. apply or_fold_keeps. intros. apply included_or_l.
  - intros r a x (b' & [->|(t & Ht & ->)] & ->).
    + etrans; [apply included_or_r|]. apply or_fold_keeps. intros. apply included_or_l.
    + apply (or_fold_adds _ (fun t x => x = bloom9 (hash_Bytes t))) with (a := t); try done;
        [intros; apply included_or_l|]. intros ? ? ? ->. apply included_or_r.
Qed.

Lemma be_val_app a b : be_val (a ++ b) = be_val a * 2 ^ (8 * Z.of_nat (length b)) + be_val b.
Proof.
  induction a as [|x a IH]; [done|]. cbn [app]. rewrite !Wire.be_val_cons, IH, length_app, Nat2Z.inj_add.
  rewrite Z.mul_add_distr_l, Z.pow_add_r by lia. lia.
Qed.

Lemma lor_le x y : 0 <= x -> 0 <= y -> x <= Z.lor x y.
Proof.
  intros Hx Hy. replace (Z.lor x y) with (x + Z.ldiff y x).
  - assert (0 <= Z.ldiff y x) by (apply Z.ldiff_nonneg; auto). lia.
  - rewrite (Z.add_nocarry_lor x (Z.ldiff y x)).
    + apply Z.bits_inj. intros i. rewrite !Z.lor_spec, Z.ldiff_spec. by destruct (Z.testbit x i), (Z.testbit y i).
    + apply Z.bits_inj. intros i. rewrite Z.land_spec, Z.ldiff_spec, Z.bits_0. by destruct (Z.testbit x i), (Z.testbit y i).
Qed.

(** A number of at most 2048 bits fits, and is what the filter holds. *)
Lemma SetBytes_small b x : length b = 256%nat -> small x -> be_val b <= x -> Forall is_byte b ->
  exists b', SetBytes b (Bytes x) = Ok b' /\ be_val b' = x /\ length b' = 256%nat /\ Forall is_byte b'.
Proof.
  intros Hl Hx Hle Hb. unfold SetBytes, Wire.copy_at.
  assert (length (Bytes x) <= 256)%nat as Hn.
  { unfold Bytes. rewrite Wire.be_bytes_length. destruct Hx. assert (BitLen x <= 2048) by (apply BitLen_le; [done|done|done]).
    assert ((BitLen x + 7) / 8 < 257) by (apply Z.div_lt_upper_bound; lia). lia. }
  rewrite (proj2 (Z.ltb_ge _ _)) by lia. set (n := length (Bytes x)) in *. rewrite Hl.
  replace (n `min` (256 - (256 - n)))%nat with n by lia. replace (256 - n + n)%nat with 256%nat by lia.
  rewrite (drop_ge b) by lia. rewrite app_nil_r, (take_ge (Bytes x)) by done.
  eexists. split; [done|]. split_and!.
  - rewrite be_val_app. fold n. rewrite Bytes_val by (destruct Hx; lia).
    assert (Forall is_byte (take (256 - n) b)) as Hf1 by (by apply Forall_take).
    assert (Forall is_byte (drop (256 - n) b)) as Hf2 by (by apply Forall_drop).
    pose proof (be_val_bound _ Hf1) as [H1 _]. pose proof (be_val_bound _ Hf2) as [H2 _].
    rewrite <- (take_drop (256 - n) b) in Hle. rewrite be_val_app in Hle.
    rewrite length_drop, Hl in Hle. replace (256 - (256 - n))%nat with n in Hle by lia.
    assert (Forall is_byte (Bytes x)) as Hf3 by apply Wire.be_bytes_byte.
    pose proof (be_val_bound _ Hf3) as [_ H3]. fold n in H3. rewrite Bytes_val in H3 by (destruct Hx; lia).
    assert (be_val (take (256 - n) b) = 0) as -> by nia. lia.
  - rewrite length_app, length_take, Hl. fold n. lia.
  - apply Forall_app. split; [by apply Forall_take|apply Wire.be_bytes_byte].
Qed.

Lemma BytesToBloom_small x : small x -> exists b, BytesToBloom (Bytes x) = Ok b /\ be_val b = x /\ length b = 256%nat /\ Forall is_byte b.
Proof.
  intros Hx. apply SetBytes_small; [apply length_replicate|done| |by apply Forall_replicate].
  rewrite <- (app_nil_r (replicate 256 0)), Wire.be_val_zeros. apply Hx.
Qed.

Lemma CreateBloom_spec receipts : exists b, CreateBloom receipts = Ok b /\
  be_val b = foldl (fun bin r => Z.lor bin (LogsBloom (Logs r))) 0 receipts.
Proof.
  unfold CreateBloom. destruct (BytesToBloom_small (foldl (fun bin r => Z.lor bin (LogsBloom (Logs r))) 0 receipts))
    as (b & -> & Hv & _); [|by exists b].
  apply small_fold; [intros; apply small_or; [done|apply LogsBloom_small]|done].
Qed.

(** The filter made for receipts never panics, and finds the address and
    every topic of every log in them. *)
Theorem bloom_finds_logs (receipts : list Receipt) :
  exists b, CreateBloom receipts = Ok b /\
    forall r l x, r ∈ receipts -> l ∈ Logs r -> entry l x -> BloomLookup b x = true.
Proof.
  destruct (CreateBloom_spec receipts) as (b & -> & Hv). exists b. split; [done|]. intros r l x Hr Hl Hx. apply Z.eqb_eq. rewrite Hv.
  apply (or_fold_adds _ (fun r y => exists l, l ∈ Logs r /\ exists x, entry l x /\ y = bloom9 x)) with (a := r); [| |done|eauto 6].
  - intros. apply included_or_l.
  - intros ? ? ? (l' & Hl' & x' & Hx' & ->). etrans; [by eapply LogsBloom_included|apply included_or_r].
Qed.

(** A filter keeps what it finds when something is added, and finds what was added. *)
Lemma Add_finds d b x : length b = 256%nat -> Forall is_byte b ->
  exists b', Add d b = Ok b' /\ Test d b' = true /\ (BloomLookup b x = true -> BloomLookup b' x = true).
Proof.
  intros Hl Hb. unfold Add. pose proof (be_val_bound b Hb) as Hv. rewrite Hl in Hv.
  destruct (SetBytes_small b (Z.lor (be_val b) (bloom9 (Bytes d)))) as (b' & -> & Hv' & _); try done.
  - apply small_or; [done|apply small_bloom9].
  - destruct (small_bloom9 (Bytes d)). apply lor_le; lia.
  - exists b'. split; [done|]. unfold Test, BloomLookup. rewrite Hv'. split.
    + apply Z.eqb_eq, included_or_r.
    + intros Hx%Z.eqb_eq. apply Z.eqb_eq. by apply (included_trans _ (be_val b)); [|apply included_or_l].
Qed.

End with_keccak.

End Receipts.
