(* ===== verification/TrieKeys.v ===== *)
(** * eth/trie/encoding.go: the three forms of a trie key

    A key is bytes, or nibbles with a terminator (hex), or packed nibbles with
    a flag byte (compact), the form that is stored. *)
From S2P Require Import Prelude.

Module TrieKeys.
#[local] Ltac Zify.zify_post_hook ::= Z.to_euclidean_division_equations.

Definition hasTerm (s : bytes) : bool := match last s with Some b => b =? 16 | None => false end.

(** Pairs of nibbles as bytes; [nibbles[ni+1]] is out of range when one is left over. *)
Fixpoint decodeNibbles (nibbles : bytes) : res bytes :=
  match nibbles with
  | [] => Ok []
  | [_] => Panic
  | a :: b :: rest => let! bz := decodeNibbles rest in Ok (Z.lor (u8 (Z.shiftl a 4)) b :: bz)
  end.

Definition hexToCompact (hex : bytes) : res bytes :=
  let terminator := if hasTerm hex then 1 else 0 in
  let hex := if hasTerm hex then removelast hex else hex in
  let flag := Z.shiftl terminator 5 in
  match Z.odd (Z.of_nat (length hex)), hex with
  | true, x :: hex => let! bz := decodeNibbles hex in Ok (Z.lor (Z.lor flag 16) x :: bz)
  | _, _ => let! bz := decodeNibbles hex in Ok (flag :: bz)
  end.

Fixpoint nibbles_of (str : bytes) : bytes :=
  match str with
  | [] => []
  | b :: str => b / 16 :: b mod 16 :: nibbles_of str
  end.

Definition keybytesToHex (str : bytes) : bytes := nibbles_of str ++ [16].

Definition compactToHex (compact : bytes) : res bytes :=
  let base := keybytesToHex compact in
  let! b0 := go_index base 0 in
  let base := if b0 <? 2 then removelast base else base in
  go_slice base (2 - Z.land b0 1) (Z.of_nat (length base)).

Definition hexToKeybytes (hex : bytes) : res bytes :=
  let hex := if hasTerm hex then removelast hex else hex in
  if Z.odd (Z.of_nat (length hex)) then Panic else decodeNibbles hex.

Fixpoint prefixLen (a b : bytes) : nat :=
  match a, b with
  | x :: a, y :: b => if x =? y then S (prefixLen a b) else O
  | _, _ => O
  end.

(** ** Keys *)
Definition is_nibble (z : Z) : Prop := 0 <= z < 16.

Abbreviation nibbles := (Forall is_nibble).

(** The keys of nodes: nibbles, with the terminator where the key of a value ends. *)
Definition node_key (k : bytes) : Prop := nibbles k \/ exists ns, nibbles ns /\ k = ns ++ [16].

Lemma hasTerm_app ns : hasTerm (ns ++ [16]) = true.
Proof. unfold hasTerm. by rewrite last_snoc. Qed.

Lemma hasTerm_nibbles ns : nibbles ns -> hasTerm ns = false.
Proof.
  intros H. unfold hasTerm. destruct (last ns) as [b|] eqn:E; [|done].
  apply last_Some_elem_of in E. rewrite Forall_forall in H. specialize (H b E). apply Z.eqb_neq. unfold is_nibble in H. lia.
Qed.

Lemma removelast_snoc (ns : bytes) x : removelast (ns ++ [x]) = ns.
Proof. rewrite removelast_app by done. by rewrite app_nil_r. Qed.

Lemma nibbles_of_nibbles bz : Forall is_byte bz -> nibbles (nibbles_of bz).
Proof.
  induction 1 as [|b bz Hb _ IH]; [constructor|]. unfold is_byte in Hb.
  repeat apply Forall_cons_2; unfold is_nibble; [lia..|done].
Qed.

Lemma nibbles_of_length bz : length (nibbles_of bz) = (2 * length bz)%nat.
Proof. induction bz; simpl; lia. Qed.

Lemma pack_nibbles a b : is_nibble a -> is_nibble b -> Z.lor (u8 (Z.shiftl a 4)) b = a * 16 + b.
Proof.
  unfold is_nibble, u8. intros Ha Hb. rewrite Z.shiftl_mul_pow2 by lia. rewrite Z.mod_small by lia.
  change (2 ^ 4) with 16. symmetry. rewrite <- Z.add_lor_land at 1. enough (Z.land (a * 16) b = 0) by lia.
  apply Z.bits_inj'. intros n Hn. rewrite Z.land_spec, Z.bits_0.
  destruct (Z.lt_ge_cases n 4).
  - change 16 with (2 ^ 4). by rewrite Z.mul_pow2_bits_low.
  - rewrite (Z.bits_above_log2 b n); [by rewrite andb_false_r|lia|].
    destruct (decide (b = 0)) as [->|]; [simpl; lia|]. assert (Z.log2 b < 4) by (apply Z.log2_lt_pow2; lia). lia.
Qed.

(** Packing a number of pairs of nibbles is inverse to taking bytes apart. *)
Lemma decodeNibbles_pairs n ns : nibbles ns -> length ns = (2 * n)%nat ->
  exists bz, decodeNibbles ns = Ok bz /\ Forall is_byte bz /\ nibbles_of bz = ns /\ length bz = n.
Proof.
  revert ns. induction n as [|n IH]; intros ns H Hl; [destruct ns; [by exists []|simpl in Hl; lia]|].
  destruct ns as [|a [|b ns]]; [simpl in Hl; lia..|]. inversion H as [|? ? Ha H']. inversion H' as [|? ? Hb H'']. subst.
  destruct (IH ns) as (bz & E & Hbz & Hn & Hlen); [done|simpl in Hl; lia|].
  exists (a * 16 + b :: bz). cbn [decodeNibbles]. rewrite E. cbn [rbind]. rewrite pack_nibbles by done.
  split_and!; [done| | |simpl; lia].
  - constructor; [|done]. unfold is_byte, is_nibble in *. lia.
  - cbn [nibbles_of]. unfold is_nibble in *. f_equal; [lia|]. f_equal; [lia|done].
Qed.

Lemma nibbles_of_inj a b : nibbles_of a = nibbles_of b -> a = b.
Proof.
  revert b. induction a as [|x a IH]; intros [|y b]; try done. cbn [nibbles_of]. intros [= H1 H2 H3].
  f_equal; [|by apply IH]. pose proof (Z.div_mod x 16). pose proof (Z.div_mod y 16). lia.
Qed.

Lemma keybytesToHex_inj a b : keybytesToHex a = keybytesToHex b -> a = b.
Proof. unfold keybytesToHex. intros H. apply app_inj_tail in H as [H _]. by apply nibbles_of_inj. Qed.

Lemma keybytes_roundtrip bz : Forall is_byte bz -> hexToKeybytes (keybytesToHex bz) = Ok bz.
Proof.
  intros H. unfold hexToKeybytes, keybytesToHex. rewrite hasTerm_app, removelast_snoc, nibbles_of_length.
  rewrite Nat2Z.inj_mul, Z.odd_mul. cbn [Z.of_nat Z.odd andb].
  destruct (decodeNibbles_pairs (length bz) (nibbles_of bz)) as (bz' & -> & _ & Hn & _);
    [by apply nibbles_of_nibbles|apply nibbles_of_length|]. f_equal. by apply nibbles_of_inj.
Qed.

(** ** The compact form *)

(** What the first byte of the compact form says. *)
Definition flags_of (term odd : bool) : Z := (if term then 2 else 0) + (if odd then 1 else 0).

Lemma go_slice_drop (l : bytes) (n : nat) : (n <= length l)%nat ->
  go_slice l (Z.of_nat n) (Z.of_nat (length l)) = Ok (drop n l).
Proof.
  intros H. unfold go_slice. rewrite !(proj2 (Z.ltb_ge _ _)) by lia. cbn [orb]. f_equal.
  rewrite Nat2Z.id. apply take_ge. rewrite length_drop. lia.
Qed.

Lemma compactToHex_flags x bz term odd : x / 16 = flags_of term odd ->
  compactToHex (x :: bz) = Ok ((if odd then [x mod 16] else []) ++ nibbles_of bz ++ (if term then [16] else [])).
Proof.
  intros E. unfold compactToHex, keybytesToHex. cbn [nibbles_of app]. rewrite E.
  change (go_index (?a :: ?l) 0) with (Ok a). cbn [rbind].
  assert (forall a b : Z, removelast (a :: b :: nibbles_of bz ++ [16]) = a :: b :: nibbles_of bz) as Hr
    by (intros a b; apply (removelast_snoc (a :: b :: nibbles_of bz))).
  rewrite Hr. destruct term, odd; cbn [flags_of]; unfold flags_of;
    lazymatch goal with |- context [go_slice ?l ?n _] => let n' := eval vm_compute in (Z.to_nat n) in
      change n with (Z.of_nat n'); rewrite (go_slice_drop _ n'); [|simpl; lia] end; cbn [drop app]; by rewrite ?app_nil_r.
Qed.

Lemma flag_byte (term odd : bool) y : is_nibble y -> (odd = false -> y = 0) ->
  let b := Z.lor (Z.lor (Z.shiftl (if term then 1 else 0) 5) (if odd then 16 else 0)) y in
  is_byte b /\ b / 16 = flags_of term odd /\ b mod 16 = y.
Proof.
  intros Hy Ho. assert (Z.lor (Z.lor (Z.shiftl (if term then 1 else 0) 5) (if odd then 16 else 0)) y = flags_of term odd * 16 + y) as ->.
  { rewrite <- pack_nibbles; [|destruct term, odd; unfold is_nibble, flags_of; lia|done]. by destruct term, odd. }
  unfold is_nibble, is_byte, flags_of in *. destruct term, odd; lia.
Qed.

(** The compact form of a node's key exists and determines the key. *)
Lemma compact_roundtrip k : node_key k ->
  exists c, hexToCompact k = Ok c /\ compactToHex c = Ok k /\ Forall is_byte c /\ c <> [].
Proof.
  intros Hk.
  assert (exists (term : bool) (ns : bytes), nibbles ns /\ k = ns ++ (if term then [16] else []) /\ hasTerm k = term /\
    (if hasTerm k then removelast k else k) = ns) as (term & ns & Hns & -> & Ht & Hr).
  { destruct Hk as [Hn|(ns & Hn & ->)].
    - exists false, k. rewrite (hasTerm_nibbles k) by done. by rewrite app_nil_r.
    - exists true, ns. by rewrite hasTerm_app, removelast_snoc. }
  unfold hexToCompact. rewrite Hr, Ht. clear Hk Hr Ht.
  assert (Z.odd (Z.of_nat (length ns)) = Nat.odd (length ns)) as ->.
  { induction (length ns) as [|n IH]; [done|].
    by rewrite Nat2Z.inj_succ, Z.odd_succ, Nat.odd_succ, <- Z.negb_odd, <- Nat.negb_odd, IH. }
  destruct (Nat.odd (length ns)) eqn:Eo.
  - apply Nat.odd_spec in Eo as [n Hn]. destruct ns as [|x ns]; [simpl in Hn; lia|].
    inversion Hns as [|? ? Hx Hns']; subst. destruct (decodeNibbles_pairs n ns) as (bz & -> & Hb & Hbz & _); [done|simpl in Hn; lia|].
    cbn [rbind]. destruct (flag_byte term true x) as (H1 & H2 & H3); [done..|]. eexists. split; [reflexivity|].
    rewrite (compactToHex_flags _ _ term true) by done. split_and!; [by rewrite H3, Hbz|by constructor|done].
  - assert (Nat.even (length ns) = true) as [n Hn]%Nat.even_spec by (by rewrite <- Nat.negb_odd, Eo).
    destruct (decodeNibbles_pairs n ns) as (bz & -> & Hb & Hbz & _); [done|lia|]. cbn [rbind].
    destruct (flag_byte term false 0) as (H1 & H2 & H3); [by unfold is_nibble|done|]. rewrite !Z.lor_0_r in *.
    eexists. split; [by destruct ns|]. rewrite (compactToHex_flags _ _ term false) by done.
    split_and!; [by rewrite Hbz|by constructor|done].
Qed.

(** ** Common prefixes *)
Lemma prefixLen_spec a b :
  (prefixLen a b <= length a)%nat /\ (prefixLen a b <= length b)%nat /\ take (prefixLen a b) a = take (prefixLen a b) b /\
  (forall x y, a !! prefixLen a b = Some x -> b !! prefixLen a b = Some y -> x <> y).
Proof.
  revert b. induction a as [|x a IH]; intros [|y b]; simpl; try (split_and!; (lia || done)).
  destruct (Z.eqb_spec x y) as [->|]; simpl; [|split_and!; try lia; try done; congruence].
  destruct (IH b) as (H1 & H2 & H3 & H4). split_and!; [lia..|by f_equal|done].
Qed.

Lemma prefixLen_app k l : prefixLen (k ++ l) k = length k.
Proof. induction k as [|x k IH]; [by destruct l|]. simpl. by rewrite Z.eqb_refl, IH. Qed.

End TrieKeys.
