(* ===== verification/RlpRaw.v ===== *)
(** * eth/rlp/raw.go: taking encoded values apart

    [Split] cuts the first value off a byte string without decoding it. *)
From S2P Require Import Prelude Wire EthMath Rlp RlpDecode.

Module RlpRaw.
Import Rlp RlpDecode.

(** The size of [slen] bytes after a header. *)
Definition readSize (b : bytes) (slen : Z) : rlperr + Z :=
  if slen >? len b then inl io_ErrUnexpectedEOF
  else
    let s := be_val (take (Z.to_nat slen) b) in
    if (s <? 56) || match b with x :: _ => x =? 0 | [] => true end then inl ErrCanonSize else inr s.

(** Kind, length of the header and length of the content, from the first byte and the rest. *)
Definition read_header (b : Z) (rest : bytes) : rlperr + Kind * Z * Z :=
  if b <? 0x80 then inr (Byte, 0, 1)
  else if b <? 0xB8 then
    let contentsize := b - 0x80 in
    if (contentsize =? 1) && match rest with x :: _ => x <? 128 | [] => false end then inl ErrCanonSize
    else inr (String, 1, contentsize)
  else if b <? 0xC0 then
    match readSize rest (b - 0xB7) with inl e => inl e | inr s => inr (String, b - 0xB7 + 1, s) end
  else if b <? 0xF8 then inr (List, 1, b - 0xC0)
  else match readSize rest (b - 0xF7) with inl e => inl e | inr s => inr (List, b - 0xF7 + 1, s) end.

Definition readKind (buf : bytes) : rlperr + Kind * Z * Z :=
  match buf with
  | [] => inl io_ErrUnexpectedEOF
  | b :: rest =>
      match read_header b rest with
      | inl e => inl e
      | inr (k, tagsize, contentsize) =>
          if contentsize >? u64 (len buf - tagsize) then inl ErrValueTooLarge else inr (k, tagsize, contentsize)
      end
  end.

(** The sizes are within the input, so that the slices are in range. *)
Definition Split (b : bytes) : rlperr + Kind * bytes * bytes :=
  match readKind b with
  | inl e => inl e
  | inr (k, ts, cs) =>
      inr (k, take (Z.to_nat cs) (drop (Z.to_nat ts) b), drop (Z.to_nat (ts + cs)) b)
  end.

Definition SplitString (b : bytes) : rlperr + bytes * bytes :=
  match Split b with
  | inl e => inl e
  | inr (List, _, _) => inl ErrExpectedString
  | inr (_, content, rest) => inr (content, rest)
  end.

Definition SplitList (b : bytes) : rlperr + bytes * bytes :=
  match Split b with
  | inl e => inl e
  | inr (List, content, rest) => inr (content, rest)
  | inr _ => inl ErrExpectedList
  end.

(** Every turn takes at least a byte. *)
Fixpoint count_values (fuel : nat) (i : Z) (b : bytes) : rlperr + Z :=
  match b, fuel with
  | [], _ => inr i
  | _, O => inl starved
  | _, S fuel =>
      match readKind b with
      | inl e => inl e
      | inr (_, tagsize, size) => count_values fuel (i + 1) (drop (Z.to_nat (tagsize + size)) b)
      end
  end.

Definition CountValues (b : bytes) : rlperr + Z := count_values (length b) 0 b.

(** ** Splitting what the encoder wrote *)
Definition kind_of (v : item) : Kind :=
  match v with IBytes b => if single b then Byte else String | IList _ => List end.
Definition content_of (v : item) : bytes := match v with IBytes b => b | IList l => encIs l end.
Definition tag_of (v : item) : bytes :=
  match kind_of v with Byte => [] | k => head k (len (content_of v)) end.

Lemma encI_split v : encI v = tag_of v ++ content_of v.
Proof.
  destruct v as [b|l]; [|apply encI_list]. unfold tag_of. cbn [kind_of content_of]. destruct (single b) eqn:E; [|by apply encI_bytes].
  unfold encI. cbn [to_value enc]. unfold enc_string. by rewrite E.
Qed.

Lemma readSize_putint n rest : 56 <= n < 2 ^ 64 -> readSize (putint n ++ rest) (len (putint n)) = inr n.
Proof.
  intros Hn. unfold readSize. cbv beta. rewrite Z.gtb_ltb, (proj2 (Z.ltb_ge _ _)) by (rewrite length_app; lia).
  rewrite Nat2Z.id, take_app_length, putint_val by lia. rewrite (proj2 (Z.ltb_ge n 56)) by lia. cbn [orb].
  assert (exists x bz, putint n = x :: bz /\ x <> 0) as (x & bz & -> & Hx).
  { destruct (Z.lt_ge_cases n 256); [|apply putint_head; lia]. exists n, []. split; [|lia].
    unfold putint, putint_size. rewrite (proj2 (Z.ltb_lt _ _)) by lia. simpl. by rewrite Z.div_1_r, Z.mod_small by lia. }
  cbn [app]. by rewrite (proj2 (Z.eqb_neq x 0)).
Qed.

Lemma read_header_head k n rest : k <> Byte -> 0 <= n < 2 ^ 64 ->
  (k = String -> n = 1 -> match rest with x :: _ => 128 <= x | [] => True end) ->
  exists b tl, head k n = b :: tl /\ read_header b (tl ++ rest) = inr (k, len (head k n), n).
Proof.
  intros Hk Hn H1. destruct (head_cases k n Hk Hn) as (b & tl & -> & Hc). exists b, tl. split; [done|]. unfold read_header.
  pose proof (putint_size_range n) as Hs. destruct Hc as [(Hlt & -> & ->)|(Hge & -> & ->)].
  - destruct k; [done| |]; rewrite !(proj2 (Z.ltb_ge _ _)) by lia; rewrite (proj2 (Z.ltb_lt _ _)) by lia; cbn [app length].
    + rewrite Z.add_simpl_l. destruct (Z.eqb_spec n 1) as [E|]; [|done]. cbn [andb].
      specialize (H1 eq_refl E). destruct rest as [|x rest]; [done|]. by rewrite (proj2 (Z.ltb_ge _ _)).
    + by rewrite Z.add_simpl_l.
  - pose proof (putint_length n) as Hp. cbv beta in *. cbn [length].
    destruct k; [done| |]; rewrite !(proj2 (Z.ltb_ge _ _)) by lia; rewrite ?(proj2 (Z.ltb_lt _ _)) by lia.
    + rewrite Z.add_simpl_l. rewrite readSize_putint by lia. repeat f_equal. lia.
    + rewrite Z.add_simpl_l. rewrite readSize_putint by lia. repeat f_equal. lia.
Qed.

Lemma read_header_item v rest : len (encI v) < 2 ^ 64 ->
  exists b tl, encI v = b :: tl /\ read_header b (tl ++ rest) = inr (kind_of v, len (tag_of v), len (content_of v)).
Proof.
  intros Hl. rewrite encI_split in *. cbv beta in Hl. rewrite length_app in Hl. unfold tag_of in *. destruct (kind_of v) eqn:Ek.
  { destruct v as [b|l]; [|done]. cbn [kind_of content_of] in *. destruct (single b) eqn:E; [|done].
    apply single_byte in E as (x & -> & Hx). exists x, []. split; [done|]. unfold read_header. by rewrite (proj2 (Z.ltb_lt x 0x80)). }
  all: lazymatch type of Ek with _ = ?k =>
      destruct (read_header_head k (len (content_of v)) (content_of v ++ rest)) as (b & tl & E & Hr) end;
    [done|cbv beta; lia|try done|exists b, (tl ++ content_of v); rewrite <- app_assoc; rewrite E in *; by split].
  destruct v as [b|l]; [|done]. cbn [kind_of content_of] in *. intros _ E1. cbv beta in E1.
  destruct b as [|x [|]]; [simpl in E1; lia| |simpl in E1; lia]. cbn [app]. destruct (single [x]) eqn:E; [done|].
  cbn [single] in E. apply Z.leb_gt in E. lia.
Qed.

Lemma readKind_item v rest : len (encI v ++ rest) < 2 ^ 64 ->
  readKind (encI v ++ rest) = inr (kind_of v, len (tag_of v), len (content_of v)).
Proof.
  intros Hl. cbv beta in Hl. rewrite length_app in Hl.
  destruct (read_header_item v rest) as (b & tl & E & Hr); [cbv beta; lia|]. pose proof (f_equal length (encI_split v)) as Hs.
  rewrite length_app in Hs. rewrite E in Hl, Hs |- *. cbn [app]. unfold readKind. rewrite Hr. cbn [length] in *.
  rewrite length_app, u64_id by (unfold is_u64; lia). rewrite Z.gtb_ltb, (proj2 (Z.ltb_ge _ _)) by lia. done.
Qed.

Lemma drop_tag v rest : drop (Z.to_nat (len (tag_of v) + len (content_of v))) (encI v ++ rest) = rest.
Proof.
  rewrite encI_split. cbv beta. rewrite <- Nat2Z.inj_add, Nat2Z.id, <- length_app. apply drop_app_length.
Qed.

(** Splitting gives back the content of the first value and what follows it. *)
Lemma Split_item v rest : len (encI v ++ rest) < 2 ^ 64 -> Split (encI v ++ rest) = inr (kind_of v, content_of v, rest).
Proof.
  intros Hl. unfold Split. rewrite readKind_item, drop_tag by done. repeat f_equal.
  rewrite encI_split. cbv beta. rewrite !Nat2Z.id, <- !app_assoc, drop_app_length. apply take_app_length.
Qed.

Lemma CountValues_items l : len (encIs l) < 2 ^ 64 -> CountValues (encIs l) = inr (Z.of_nat (length l)).
Proof.
  intros Hl. unfold CountValues. enough (forall fuel i, (length (encIs l) <= fuel)%nat ->
    count_values fuel i (encIs l) = inr (i + Z.of_nat (length l))) as H by (by rewrite H).
  induction l as [|v l IH]; intros fuel i Hf; [destruct fuel; simpl; f_equal; lia|].
  change (encIs (v :: l)) with (encI v ++ encIs l) in *. cbv beta in Hl. rewrite length_app in *.
  pose proof (encI_pos v) as Hp. destruct fuel as [|fuel]; [lia|].
  assert (count_values (S fuel) i (encI v ++ encIs l) =
    match readKind (encI v ++ encIs l) with
    | inl e => inl e
    | inr (_, tagsize, size) => count_values fuel (i + 1) (drop (Z.to_nat (tagsize + size)) (encI v ++ encIs l))
    end) as -> by (destruct (encI v); [simpl in Hp; lia|done]).
  rewrite readKind_item, drop_tag, IH by (cbv beta; rewrite ?length_app; lia). f_equal. cbn [length]. lia.
Qed.
End RlpRaw.
