(* ===== verification/TrieNode.v ===== *)
(** * eth/trie/node.go: the nodes of a trie and their stored form

    A nil node is [nilNode].  The raw forms are those the database keeps in
    memory (database.go), without flags. *)
From S2P Require Import Prelude Wire EthMath Rlp RlpDecode RlpRaw TrieKeys.

#[local] Set Warnings "-register-all".

Module TrieNode.
Import Rlp RlpDecode RlpRaw TrieKeys.

Definition u16 (z : Z) : Z := z mod 2 ^ 16.

Record nodeFlag := mkFlag { hash : option bytes; gen : Z; dirty : bool }.

Inductive node :=
| nilNode
| shortNode (Key : bytes) (Val : node) (flags : nodeFlag)
| fullNode (Children : list node) (flags : nodeFlag)     (* 17 of them *)
| hashNode (b : bytes)
| valueNode (b : bytes)
| rawNode (b : bytes)
| rawShortNode (Key : bytes) (Val : node)
| rawFullNode (Children : list node).

Definition is_nil (n : node) : bool := match n with nilNode => true | _ => false end.

(** What rlp.Encode writes: the exported fields of a short node, and the
    children of a full node with nil ones as empty values ([EncodeRLP]). *)
Fixpoint node_value (n : node) : value :=
  match n with
  | nilNode => VNil
  | shortNode k v _ | rawShortNode k v => VList [VBytes k; node_value v]
  | fullNode cs _ | rawFullNode cs => VList (map (fun c => if is_nil c then VBytes [] else node_value c) cs)
  | hashNode b | valueNode b | rawNode b => VBytes b
  end.

Definition flag_canUnload (cachegen cachelimit : Z) (f : nodeFlag) : bool :=
  negb (dirty f) && (u16 (cachegen - gen f) >=? cachelimit).

(** The methods of a node panic on raw forms, "this should never end up in a live trie". *)
Definition canUnload (cachegen cachelimit : Z) (n : node) : res bool :=
  match n with
  | shortNode _ _ f | fullNode _ f => Ok (flag_canUnload cachegen cachelimit f)
  | hashNode _ | valueNode _ => Ok false
  | _ => Panic
  end.

Definition cache (n : node) : res (option bytes * bool) :=
  match n with
  | shortNode _ _ f | fullNode _ f => Ok (hash f, dirty f)
  | hashNode _ | valueNode _ => Ok (None, true)
  | _ => Panic
  end.

(** ** Decoding *)
Inductive context := at_short | at_full | at_val | at_child (i : Z).

Inductive decodeErr :=
| unexpectedEOF
| list_error (e : rlperr)
| invalid_count (c : Z)
| string_error (e : rlperr)
| invalid_value (e : rlperr)
| oversized (size : Z)
| invalid_size (n : Z)
| decode_starved                 (* the model ran out of fuel; shown not to happen *)
| decodeError (what : decodeErr) (stack : list context).

Definition wrapError (ctx : context) (e : decodeErr) : decodeErr :=
  match e with
  | decodeError what stack => decodeError what (stack ++ [ctx])
  | _ => decodeError e [ctx]
  end.

Definition wrapped {A} (ctx : context) (r : res (decodeErr + A)) : res (decodeErr + A) :=
  let! o := r in Ok (match o with inl e => inl (wrapError ctx e) | inr a => inr a end).

Definition hashLen : Z := 32.

Section embedded.
(** [decodeNode] on a node inside another one *)
Variable decode : bytes -> res (decodeErr + node).

Definition decodeRef (buf : bytes) : res (decodeErr + node * bytes) :=
  match Split buf with
  | inl e => Ok (inl (string_error e))
  | inr (kind, val, rest) =>
      match kind with
      | List =>
          let size := len buf - len rest in
          if size >? hashLen then Ok (inl (oversized size))
          else
            let! n := decode buf in
            Ok (match n with inl e => inl e | inr n => inr (n, rest) end)
      | String =>
          if len val =? 0 then Ok (inr (nilNode, rest))
          else if len val =? 32 then Ok (inr (hashNode val, rest))
          else Ok (inl (invalid_size (len val)))
      | Byte => Ok (inl (invalid_size (len val)))
      end
  end.

Definition decodeShort (h : option bytes) (elems : bytes) (cachegen : Z) : res (decodeErr + node) :=
  match SplitString elems with
  | inl e => Ok (inl (string_error e))
  | inr (kbuf, rest) =>
      let flag := mkFlag h cachegen false in
      let! key := compactToHex kbuf in
      if hasTerm key then
        Ok (match SplitString rest with
            | inl e => inl (invalid_value e)
            | inr (val, _) => inr (shortNode key (valueNode val) flag)
            end)
      else
        let! r := wrapped at_val (decodeRef rest) in
        Ok (match r with inl e => inl e | inr (r, _) => inr (shortNode key r flag) end)
  end.

Fixpoint decode_children (k : nat) (i : Z) (elems : bytes) : res (decodeErr + list node * bytes) :=
  match k with
  | O => Ok (inr ([], elems))
  | S k =>
      let! r := wrapped (at_child i) (decodeRef elems) in
      match r with
      | inl e => Ok (inl e)
      | inr (cld, rest) =>
          let! r := decode_children k (i + 1) rest in
          Ok (match r with inl e => inl e | inr (cs, rest) => inr (cld :: cs, rest) end)
      end
  end.

Definition decodeFull (h : option bytes) (elems : bytes) (cachegen : Z) : res (decodeErr + node) :=
  let! r := decode_children 16 0 elems in
  match r with
  | inl e => Ok (inl e)
  | inr (cs, elems) =>
      Ok (match SplitString elems with
          | inl e => inl (string_error e)
          | inr (val, _) =>
              inr (fullNode (cs ++ [if len val >? 0 then valueNode val else nilNode]) (mkFlag h cachegen false))
          end)
  end.
End embedded.

(** A node inside another one is shorter, so that the length bounds the depth. *)
Fixpoint decode_node (fuel : nat) (h : option bytes) (cachegen : Z) (buf : bytes) : res (decodeErr + node) :=
  match fuel with
  | O => Ok (inl decode_starved)
  | S fuel =>
      match buf with
      | [] => Ok (inl unexpectedEOF)
      | _ =>
          match SplitList buf with
          | inl e => Ok (inl (list_error e))
          | inr (elems, _) =>
              let c := match CountValues elems with inr c => c | inl _ => 0 end in
              if c =? 2 then wrapped at_short (decodeShort (decode_node fuel None cachegen) h elems cachegen)
              else if c =? 17 then wrapped at_full (decodeFull (decode_node fuel None cachegen) h elems cachegen)
              else Ok (inl (invalid_count c))
          end
      end
  end.

Definition decodeNode (h : option bytes) (buf : bytes) (cachegen : Z) : res (decodeErr + node) :=
  decode_node (S (length buf)) h cachegen buf.

Definition mustDecodeNode (h : option bytes) (buf : bytes) (cachegen : Z) : res node :=
  let! o := decodeNode h buf cachegen in
  match o with inl _ => Panic | inr n => Ok n end.

(** ** database.go: nodes without flags *)

(** Inside a short node nil is an unknown type. *)
Fixpoint simplifyNode (n : node) : res node :=
  match n with
  | shortNode k v _ => let! v := simplifyNode v in Ok (rawShortNode k v)
  | fullNode cs _ =>
      let! cs := (fix all (cs : list node) : res (list node) :=
        match cs with
        | [] => Ok []
        | c :: cs =>
            let! c := (if is_nil c then Ok c else simplifyNode c) in
            let! cs := all cs in
            Ok (c :: cs)
        end) cs in
      Ok (rawFullNode cs)
  | valueNode _ | hashNode _ | rawNode _ => Ok n
  | _ => Panic
  end.

Fixpoint expandNode (h : option bytes) (n : node) (cachegen : Z) : res node :=
  match n with
  | rawShortNode k v =>
      let! k := compactToHex k in
      let! v := expandNode None v cachegen in
      Ok (shortNode k v (mkFlag h cachegen false))
  | rawFullNode cs =>
      let! cs := (fix all (cs : list node) : res (list node) :=
        match cs with
        | [] => Ok []
        | c :: cs =>
            let! c := (if is_nil c then Ok c else expandNode None c cachegen) in
            let! cs := all cs in
            Ok (c :: cs)
        end) cs in
      Ok (fullNode cs (mkFlag h cachegen false))
  | valueNode _ | hashNode _ => Ok n
  | _ => Panic
  end.

(** The nodes a stored node refers to by hash. *)
Section gather.
Variable gather : node -> res (list Z).

Fixpoint gather_all (k : nat) (cs : list node) {struct cs} : res (list Z) :=
  match k, cs with
  | O, _ | _, [] => Ok []
  | S k, c :: cs => let! a := gather c in let! b := gather_all k cs in Ok (a ++ b)
  end.
End gather.

Fixpoint gatherChildren (n : node) : res (list Z) :=
  match n with
  | rawShortNode _ v => gatherChildren v
  | rawFullNode cs => gather_all gatherChildren 16 cs
  | hashNode b => Ok [EthMath.BytesToHash b]
  | valueNode _ | nilNode => Ok []
  | _ => Panic
  end.

End TrieNode.
