(* ===== verification/TrieTree.v ===== *)
(** * Tries as trees

    The tree a trie stands for: its nodes without flags, with every reference
    by hash resolved.  A tree in canonical form is determined by the values it
    holds. *)
From S2P Require Import Prelude TrieKeys.
#[local] Set Warnings "-register-all".

Module TrieTree.
Import TrieKeys.

Inductive tree :=
| Empty
| Short (k : bytes) (t : tree)
| Full (cs : list tree)
| Value (v : bytes).

Section tree_ind.
Variable P : tree -> Prop.
Hypothesis Hempty : P Empty.
Hypothesis Hshort : forall k t, P t -> P (Short k t).
Hypothesis Hfull : forall cs, Forall P cs -> P (Full cs).
Hypothesis Hvalue : forall v, P (Value v).

Fixpoint tree_deep_ind (t : tree) : P t :=
  match t with
  | Empty => Hempty
  | Short k t => Hshort k t (tree_deep_ind t)
  | Full cs => Hfull cs ((fix go cs := match cs return Forall P cs with
                                     | [] => Forall_nil_2 P
                                     | c :: cs => Forall_cons_2 P c cs (tree_deep_ind c) (go cs)
                                     end) cs)
  | Value v => Hvalue v
  end.
End tree_ind.

Definition is_empty (t : tree) : bool := match t with Empty => true | _ => false end.

#[export] Instance tree_empty_dec (t : tree) : Decision (t = Empty).
Proof. destruct t; [left|right..]; done. Defined.

(** What is left of a key after a prefix. *)
Fixpoint after (p key : bytes) : option bytes :=
  match p, key with
  | [], _ => Some key
  | x :: p, y :: key => if x =? y then after p key else None
  | _, [] => None
  end.

Fixpoint tlookup (t : tree) (key : bytes) : option bytes :=
  match t with
  | Empty => None
  | Value v => match key with [] => Some v | _ => None end
  | Short k t => after k key ≫= tlookup t
  | Full cs =>
      match key with
      | [] => None
      | x :: key => mjoin (map (fun c => tlookup c key) cs !! Z.to_nat x)
      end
  end.

(** Keys of whole values end in the terminator. *)
Definition hex_key (k : bytes) : Prop := exists ns, nibbles ns /\ k = ns ++ [16].

(** Leaves below all their nibbles, no chains of short nodes, and full nodes
    with at least two children. *)
Inductive canon : tree -> Prop :=
| canon_leaf ns v : nibbles ns -> v <> [] -> Forall is_byte v -> canon (Short (ns ++ [16]) (Value v))
| canon_ext ns cs : ns <> [] -> nibbles ns -> canon (Full cs) -> canon (Short ns (Full cs))
| canon_full cs : length cs = 17%nat ->
    (forall i t, (i < 16)%nat -> cs !! i = Some t -> t <> Empty -> canon t) ->
    (forall t, cs !! 16%nat = Some t -> t <> Empty -> exists v, t = Value v /\ v <> [] /\ Forall is_byte v) ->
    (exists i j t u, i <> j /\ cs !! i = Some t /\ cs !! j = Some u /\ t <> Empty /\ u <> Empty) ->
    canon (Full cs).

Lemma canon_full_inv cs : canon (Full cs) -> length cs = 17%nat /\
  (forall i t, (i < 16)%nat -> cs !! i = Some t -> t <> Empty -> canon t) /\
  (forall t, cs !! 16%nat = Some t -> t <> Empty -> exists v, t = Value v /\ v <> [] /\ Forall is_byte v).
Proof. by inversion 1. Qed.

(** A whole trie may be empty. *)
Definition wf (t : tree) : Prop := t <> Empty -> canon t.

Lemma canon_wf t : canon t -> wf t.
Proof. by intros ? _. Qed.

(** ** Lookups *)
Lemma after_app p k : after p (p ++ k) = Some k.
Proof. induction p as [|x p IH]; [by destruct k|]. simpl. by rewrite Z.eqb_refl. Qed.

Lemma after_Some p key k : after p key = Some k <-> key = p ++ k.
Proof.
  split; [|intros ->; apply after_app]. revert key. induction p as [|x p IH]; intros key; simpl.
  - intros E. destruct key; by injection E.
  - destruct key as [|y key]; [done|]. destruct (Z.eqb_spec x y) as [->|]; [|done]. intros E. by rewrite (IH key).
Qed.

Lemma after_nil key : after [] key = Some key.
Proof. by destruct key. Qed.

Lemma tlookup_short k t key : tlookup (Short k t) (k ++ key) = tlookup t key.
Proof. cbn [tlookup]. by rewrite after_app. Qed.

Lemma tlookup_leaf k v : tlookup (Short k (Value v)) k = Some v.
Proof. rewrite <- (app_nil_r k) at 2. by rewrite tlookup_short. Qed.

Lemma tlookup_full cs x key c : cs !! Z.to_nat x = Some c -> tlookup (Full cs) (x :: key) = tlookup c key.
Proof. intros E. cbn [tlookup]. by rewrite list_lookup_fmap, E. Qed.

Lemma hex_cons x key : hex_key (x :: key) <-> (is_nibble x /\ hex_key key) \/ (x = 16 /\ key = []).
Proof.
  split.
  - intros ([|y ns] & Hn & E); injection E as -> ->; [by right|left]. inversion Hn; subst. split; [done|]. by exists ns.
  - intros [[Hx (ns & Hn & ->)]|[-> ->]]; [exists (x :: ns)|exists []]; split; auto; by constructor.
Qed.

Lemma hex_app ns key : nibbles ns -> hex_key key -> hex_key (ns ++ key).
Proof. intros H (ns' & H' & ->). exists (ns ++ ns'). rewrite <- app_assoc. split; [by apply Forall_app|done]. Qed.

Lemma hex_app_inv ns key : nibbles ns -> hex_key (ns ++ key) -> hex_key key.
Proof.
  induction 1 as [|x ns Hx _ IH]; [done|]. cbn [app]. intros [[_ Hk]|[-> _]]%hex_cons; [by apply IH|].
  unfold is_nibble in Hx. lia.
Qed.

Lemma hex_nonempty key : hex_key key -> key <> [].
Proof. by intros ([|] & _ & ->). Qed.

Lemma hex_digit x key : hex_key (x :: key) -> 0 <= x <= 16.
Proof. intros [[Hx _]|[-> _]]%hex_cons; unfold is_nibble in *; lia. Qed.

(** ** Canonical trees hold values *)

(** Two values whose keys differ in the first digit. *)
Definition forks (t : tree) : Prop := exists x y k l v w, x <> y /\ hex_key (x :: k) /\ hex_key (y :: l) /\
  tlookup t (x :: k) = Some v /\ tlookup t (y :: l) = Some w.

Lemma canon_inhabited t : canon t -> exists k v, hex_key k /\ tlookup t k = Some v.
Proof.
  induction 1 as [ns v Hn _ _|ns cs _ Hn _ (k & v & Hk & Hv)|cs Hl Hc IH Hlast (i & j & t & u & _ & Hi & _ & Ht & _)].
  - exists (ns ++ [16]), v. split; [by exists ns|]. apply tlookup_leaf.
  - exists (ns ++ k), v. rewrite tlookup_short. split; [by apply hex_app|done].
  - pose proof (lookup_lt_Some _ _ _ Hi) as Hlt. destruct (decide (i = 16%nat)) as [->|].
    + destruct (Hlast t Hi Ht) as (v & -> & _). exists [16], v. split; [by exists []|].
      by rewrite (tlookup_full cs 16 [] (Value v)).
    + destruct (IH i t) as (k & v & Hk & Hv); [lia|done..|]. exists (Z.of_nat i :: k), v.
      rewrite (tlookup_full _ _ _ t) by (by rewrite Nat2Z.id). split; [|done]. apply hex_cons. left. unfold is_nibble. split; [lia|done].
Qed.

Lemma canon_child cs i t : canon (Full cs) -> cs !! i = Some t -> t <> Empty ->
  exists k v, hex_key (Z.of_nat i :: k) /\ tlookup (Full cs) (Z.of_nat i :: k) = Some v.
Proof.
  intros Hc Hi Ht. inversion Hc as [| |? Hl Hcs Hlast _]; subst. pose proof (lookup_lt_Some _ _ _ Hi) as Hlt.
  rewrite <- (Nat2Z.id i) in Hi. destruct (decide (i = 16%nat)) as [->|].
  - destruct (Hlast t Hi Ht) as (v & -> & _). exists [], v. rewrite (tlookup_full _ _ _ (Value v)) by done. split; [by exists []|done].
  - rewrite Nat2Z.id in Hi. destruct (canon_inhabited t) as (k & v & Hk & Hv); [apply (Hcs i); [lia|done..]|]. exists k, v.
    rewrite (tlookup_full _ _ _ t) by (by rewrite Nat2Z.id). split; [|done]. apply hex_cons. left. unfold is_nibble. split; [lia|done].
Qed.

Lemma full_forks cs : canon (Full cs) -> forks (Full cs).
Proof.
  intros Hc. inversion Hc as [| |? _ _ _ (i & j & t & u & Hij & Hi & Hj & Ht & Hu)]; subst.
  destruct (canon_child cs i t Hc Hi Ht) as (k & v & Hk & Hv), (canon_child cs j u Hc Hj Hu) as (l & w & Hl & Hw).
  exists (Z.of_nat i), (Z.of_nat j), k, l, v, w. split_and!; try done. lia.
Qed.

(** ** Equal contents *)
Definition same (t u : tree) : Prop := forall k, hex_key k -> tlookup t k = tlookup u k.

Lemma same_sym t u : same t u -> same u t.
Proof. intros H k Hk. symmetry. by apply H. Qed.

(** Everything in a short node begins with its key. *)
Lemma short_prefix k t key v : tlookup (Short k t) key = Some v -> exists l, key = k ++ l /\ tlookup t l = Some v.
Proof.
  cbn [tlookup]. destruct (after k key) as [l|] eqn:E; [|done]. apply after_Some in E. cbn [mbind option_bind]. by exists l.
Qed.

Lemma short_not_forks k t : k <> [] -> ~ forks (Short k t).
Proof.
  intros Hk (x & y & l & l' & v & w & Hne & _ & _ & Hv & Hw).
  apply short_prefix in Hv as (? & E & _), Hw as (? & E' & _). destruct k as [|z k]; [done|].
  injection E as -> _. injection E' as -> _. done.
Qed.

Lemma same_forks t u : same t u -> forks t -> forks u.
Proof. intros Hs (x & y & k & l & v & w & ? & ? & ? & Hv & Hw). exists x, y, k, l, v, w. by rewrite <- !Hs. Qed.

Lemma same_under ns t u : nibbles ns -> same (Short ns t) (Short ns u) -> same t u.
Proof. intros Hn Hs k Hk. specialize (Hs (ns ++ k)). rewrite !tlookup_short in Hs. apply Hs. by apply hex_app. Qed.

(** The key of an extension is the longest common prefix of what is below. *)
Lemma ext_prefix ns ms cs ds : nibbles ns -> nibbles ms -> canon (Full cs) -> canon (Full ds) ->
  same (Short ns (Full cs)) (Short ms (Full ds)) -> exists l, ms = ns ++ l.
Proof.
  revert ms. induction ns as [|x ns IH]; intros ms Hn Hm Hc Hd Hs; [by exists ms|]. inversion Hn; subst.
  destruct ms as [|y ms].
  - exfalso. apply (short_not_forks (x :: ns) (Full cs)); [done|]. apply (same_forks (Short [] (Full ds))); [by apply same_sym|].
    destruct (full_forks ds Hd) as (a & b & k & l & v & w & Hf). exists a, b, k, l, v, w. cbn [tlookup]. by rewrite !after_nil.
  - inversion Hm; subst. assert (x = y) as ->.
    { destruct (canon_inhabited _ Hc) as (k & v & Hk & Hv). specialize (Hs ((x :: ns) ++ k)). rewrite tlookup_short, Hv in Hs.
      symmetry in Hs. apply short_prefix in Hs as (l & E & _); [by injection E|by apply hex_app]. }
    destruct (IH ms) as [l ->]; try done; [|by exists l]. intros k Hk. specialize (Hs (y :: k)). cbn [tlookup after] in Hs.
    rewrite Z.eqb_refl in Hs. apply Hs. apply hex_cons. by left.
Qed.

Lemma same_ext ns ms cs ds : nibbles ns -> nibbles ms -> canon (Full cs) -> canon (Full ds) ->
  same (Short ns (Full cs)) (Short ms (Full ds)) -> ns = ms.
Proof.
  intros Hn Hm Hc Hd Hs. destruct (ext_prefix ns ms cs ds) as [l El]; try done.
  destruct (ext_prefix ms ns ds cs) as [l' El']; try done; [by apply same_sym|]. subst ms.
  rewrite <- app_assoc in El'. rewrite <- (app_nil_r ns) in El' at 1. apply app_inv_head in El'.
  symmetry in El'. apply app_nil in El' as [-> _]. by rewrite app_nil_r.
Qed.

(** A leaf holds one value only. *)
Lemma leaf_not_more ns v t : nibbles ns -> (exists ms cs, nibbles ms /\ canon (Full cs) /\ same (Short ms (Full cs)) t) ->
  ~ same (Short (ns ++ [16]) (Value v)) t.
Proof.
  intros Hn (ms & cs & Hm & Hc & Hs) Hl. destruct (full_forks cs Hc) as (x & y & k & l & a & b & Hne & Hk & Hk' & Ha & Hb).
  assert (forall z j c, hex_key (z :: j) -> tlookup (Full cs) (z :: j) = Some c -> ms ++ z :: j = ns ++ [16]) as Hall.
  { intros z j c Hz Hc'. specialize (Hl (ms ++ z :: j)). rewrite <- Hs, tlookup_short, Hc' in Hl by (by apply hex_app).
    apply short_prefix in Hl as (r & E & Hr); [|by apply hex_app]. rewrite E. destruct r; [by rewrite app_nil_r|done]. }
  pose proof (Hall x k a Hk Ha) as E1. pose proof (Hall y l b Hk' Hb) as E2. rewrite <- E2 in E1.
  apply app_inv_head in E1. by injection E1.
Qed.

Lemma same_child cs ds i c d : canon (Full cs) -> canon (Full ds) -> same (Full cs) (Full ds) -> (i < 16)%nat ->
  cs !! i = Some c -> ds !! i = Some d -> same c d.
Proof.
  intros Hc Hd Hs Hi E E' k Hk. specialize (Hs (Z.of_nat i :: k)).
  rewrite (tlookup_full cs _ _ c), (tlookup_full ds _ _ d) in Hs by (by rewrite Nat2Z.id).
  apply Hs. apply hex_cons. left. split; [unfold is_nibble; lia|done].
Qed.

(** Two canonical trees with the same values under the same keys are equal. *)
Lemma canon_unique t u : canon t -> canon u -> same t u -> t = u.
Proof.
  intros Ht. revert u. induction Ht as [ns v Hn Hv Hb|ns cs Hne Hn Hc IH|cs Hl Hcs IH Hlast Htwo]; intros u Hu Hs.
  - destruct Hu as [ms w Hm _ _|ms ds _ Hm Hd|ds Hl' Hds Hlast' Htwo'].
    + specialize (Hs (ns ++ [16])). rewrite tlookup_leaf in Hs.
      symmetry in Hs. apply short_prefix in Hs as (l & E & El); [|by exists ns]. destruct l; [|done]. injection El as ->.
      rewrite app_nil_r in E. by rewrite E.
    + exfalso. eapply leaf_not_more, Hs; [done|]. by exists ms, ds.
    + exfalso. eapply leaf_not_more, Hs; [done|]. exists [], ds. split_and!; [done|by constructor|].
      intros k _. cbn [tlookup]. by rewrite after_nil.
  - destruct Hu as [ms w Hm _ _|ms ds _ Hm Hd|ds Hl' Hds Hlast' Htwo'].
    + exfalso. apply same_sym in Hs. eapply leaf_not_more, Hs; [done|]. by exists ns, cs.
    + assert (ns = ms) as -> by (by apply (same_ext ns ms cs ds)). f_equal. apply IH; [done|]. by apply (same_under ms).
    + exfalso. eapply (short_not_forks ns); [done|]. eapply same_forks; [by apply same_sym|]. apply full_forks. by constructor.
  - assert (canon (Full cs)) as Hc by (by constructor). destruct Hu as [ms w Hm _ _|ms ds Hne Hm Hd|ds Hl' Hds Hlast' Htwo'].
    + exfalso. apply same_sym in Hs. eapply leaf_not_more, Hs; [done|]. exists [], cs. split_and!; [done..|].
      intros k _. cbn [tlookup]. by rewrite after_nil.
    + exfalso. eapply (short_not_forks ms); [done|]. eapply same_forks; [done|]. by apply full_forks.
    + assert (canon (Full ds)) as Hd by (by constructor). f_equal. apply list_eq_same_length with 17%nat; [done..|].
      intros i c d Hi Ec Ed. destruct (decide (i = 16%nat)) as [->|].
      * specialize (Hs [16] (ex_intro _ [] (conj (Forall_nil_2 _) eq_refl))).
        rewrite (tlookup_full cs 16 [] c), (tlookup_full ds 16 [] d) in Hs by done.
        destruct (decide (c = Empty)) as [->|Hce], (decide (d = Empty)) as [->|Hde]; [done|..].
        -- destruct (Hlast' d Ed Hde) as (w & -> & _). done.
        -- destruct (Hlast c Ec Hce) as (w & -> & _). done.
        -- destruct (Hlast c Ec Hce) as (w & -> & _), (Hlast' d Ed Hde) as (w' & -> & _). cbn [tlookup] in Hs. by injection Hs as ->.
      * assert (same c d) as Hcd by (apply (same_child cs ds i); try done; lia).
        destruct (decide (c = Empty)) as [->|Hce], (decide (d = Empty)) as [->|Hde]; [done|..].
        -- destruct (canon_inhabited d) as (k & v & Hk & Hv); [apply (Hds i); [lia|done..]|]. by rewrite <- Hcd in Hv.
        -- destruct (canon_inhabited c) as (k & v & Hk & Hv); [apply (Hcs i); [lia|done..]|]. by rewrite Hcd in Hv.
        -- apply (IH i); try done; [lia|]. apply (Hds i); [lia|done..].
Qed.

Lemma wf_unique t u : wf t -> wf u -> same t u -> t = u.
Proof.
  intros Ht Hu Hs. destruct (decide (t = Empty)) as [->|Hte], (decide (u = Empty)) as [->|Hue]; [done|..].
  - destruct (canon_inhabited u) as (k & v & Hk & Hv); [by apply Hu|]. by rewrite <- Hs in Hv.
  - destruct (canon_inhabited t) as (k & v & Hk & Hv); [by apply Ht|]. by rewrite Hs in Hv.
  - apply canon_unique; [by apply Ht|by apply Hu|done].
Qed.

End TrieTree.
