(* ===== verification/TrieCodec.v ===== *)
(** * The stored form of a tree

    What the nodes of a tree are encoded as, and what is loaded from it: a
    child whose encoding has less than 32 bytes is inside its parent, others
    are referred to by hash.  Decoding gives the tree back, and so do the nodes
    kept in memory. *)
From S2P Require Import Prelude Wire EthMath StateDB Rlp RlpDecode RlpRaw TrieKeys TrieNode TrieTree.

Module TrieCodec.
Import Rlp RlpDecode RlpRaw TrieKeys TrieNode TrieTree.
Import EthMath(hash_Bytes).

Section with_keccak.
Context `{Keccak}.

Definition compact (k : bytes) : bytes := match hexToCompact k with Ok c => c | Panic => [] end.

Definition is_branch (t : tree) : bool := match t with Short _ _ | Full _ => true | _ => false end.

(** An item inside its parent, or the hash of its encoding. *)
Definition by_ref (branch : bool) (i : item) : item :=
  if branch && (32 <=? length (encI i))%nat then IBytes (hash_Bytes (Keccak256Hash (encI i))) else i.

Fixpoint titem (t : tree) : item :=
  match t with
  | Empty => IBytes []
  | Value v => IBytes v
  | Short k c => IList [IBytes (compact k); by_ref (is_branch c) (titem c)]
  | Full cs => IList (map (fun c => by_ref (is_branch c) (titem c)) cs)
  end.

Definition ref (c : tree) : item := by_ref (is_branch c) (titem c).

Definition blob (t : tree) : bytes := encI (titem t).
Definition thash (t : tree) : Z := Keccak256Hash (blob t).

(** Kept under its own hash. *)
Definition big (t : tree) : bool := is_branch t && (32 <=? length (blob t))%nat.

(** The node loaded from the stored form, and the one kept in memory. *)
Fixpoint dnode (h : option bytes) (g : Z) (t : tree) : node :=
  let dref c := if big c then hashNode (hash_Bytes (thash c)) else dnode None g c in
  match t with
  | Empty => nilNode
  | Value v => valueNode v
  | Short k c => shortNode k (dref c) (mkFlag h g false)
  | Full cs => fullNode (map dref cs) (mkFlag h g false)
  end.
Definition dref (g : Z) (c : tree) : node := if big c then hashNode (hash_Bytes (thash c)) else dnode None g c.

Fixpoint rnode (t : tree) : node :=
  let rref c := if big c then hashNode (hash_Bytes (thash c)) else rnode c in
  match t with
  | Empty => nilNode
  | Value v => valueNode v
  | Short k c => rawShortNode (compact k) (rref c)
  | Full cs => rawFullNode (map rref cs)
  end.
Definition rref (c : tree) : node := if big c then hashNode (hash_Bytes (thash c)) else rnode c.

Lemma ref_big c : ref c = if big c then IBytes (hash_Bytes (thash c)) else titem c.
Proof. done. Qed.

Lemma titem_short k c : titem (Short k c) = IList [IBytes (compact k); ref c].
Proof. done. Qed.

Lemma titem_full cs : titem (Full cs) = IList (map ref cs).
Proof. done. Qed.

Lemma hash_length h : length (hash_Bytes h) = 32%nat.
Proof. apply Wire.be_bytes_length. Qed.

(** ** Decoding *)
Lemma SplitString_bytes b rest : len (encI (IBytes b) ++ rest) < 2 ^ 64 -> SplitString (encI (IBytes b) ++ rest) = inr (b, rest).
Proof. intros Hl. unfold SplitString. rewrite Split_item by done. cbn [kind_of content_of]. by destruct (single b). Qed.

Lemma SplitList_list l rest : len (encI (IList l) ++ rest) < 2 ^ 64 -> SplitList (encI (IList l) ++ rest) = inr (encIs l, rest).
Proof. intros Hl. unfold SplitList. by rewrite Split_item. Qed.

Lemma encIs_cons v l : encIs (v :: l) = encI v ++ encIs l.
Proof. done. Qed.

Lemma encI_list_longer l : (length (encIs l) < length (encI (IList l)))%nat.
Proof.
  rewrite encI_list, length_app. assert (1 <= length (head List (len (encIs l))))%nat; [|lia].
  unfold head, puthead. destruct (_ <? 56); simpl; lia.
Qed.

Section decoding.
Variable g : Z.

(** [decode] reads the stored form of [c], which may be followed by other bytes. *)
Definition decodes (decode : bytes -> res (decodeErr + node)) (c : tree) : Prop :=
  forall rest, len (blob c ++ rest) < 2 ^ 64 -> decode (blob c ++ rest) = Ok (inr (dnode None g c)).

(** A child of a node, other than a value. *)
Definition child_of (c : tree) : Prop := c = Empty \/ is_branch c = true.

Lemma decodeRef_child decode c rest : child_of c -> (is_branch c = true -> big c = false -> decodes decode c) ->
  len (encI (ref c) ++ rest) < 2 ^ 64 -> decodeRef decode (encI (ref c) ++ rest) = Ok (inr (dref g c, rest)).
Proof.
  intros Hc Hd Hl. unfold decodeRef. rewrite Split_item by done. rewrite ref_big in *. unfold dref. destruct (big c) eqn:Eb.
  - cbn [kind_of content_of]. assert (single (hash_Bytes (thash c)) = false) as ->.
    { pose proof (hash_length (thash c)). destruct (hash_Bytes (thash c)) as [|? [|]]; done. }
    by rewrite hash_length.
  - destruct Hc as [->|Hc]; [done|]. pose proof (Hd Hc eq_refl rest Hl) as E. unfold blob in E.
    assert (kind_of (titem c) = List) as -> by (by destruct c). rewrite E. cbn [rbind].
    cbv beta. rewrite length_app, Z.gtb_ltb, (proj2 (Z.ltb_ge _ _)); [done|]. unfold hashLen.
    unfold big in Eb. rewrite Hc in Eb. cbn [andb] in Eb. apply Nat.leb_gt in Eb. unfold blob in Eb. lia.
Qed.

Lemma decode_children_spec decode cs i rest : Forall child_of cs ->
  Forall (fun c => is_branch c = true -> big c = false -> decodes decode c) cs ->
  len (encIs (map ref cs) ++ rest) < 2 ^ 64 ->
  decode_children decode (length cs) i (encIs (map ref cs) ++ rest) = Ok (inr (map (dref g) cs, rest)).
Proof.
  intros Hc Hd. revert i. induction cs as [|c cs IH]; intros i Hl; [done|].
  inversion Hc; inversion Hd; subst. cbn [map length decode_children] in *. rewrite encIs_cons, <- app_assoc in *.
  rewrite decodeRef_child by done. unfold wrapped. cbn [rbind]. rewrite IH; try done.
  cbv beta in *. rewrite length_app in Hl. lia.
Qed.
End decoding.

Lemma canon_branch t : canon t -> is_branch t = true.
Proof. by intros []. Qed.

Lemma canon_children cs : canon (Full cs) -> Forall child_of (take 16 cs).
Proof.
  intros Hc. inversion Hc as [| |? Hl Hcs _ _]; subst. apply Forall_lookup. intros i c Hi. apply lookup_take_Some in Hi as [Hi Hlt].
  destruct (decide (c = Empty)) as [->|]; [by left|right]. apply canon_branch. by apply (Hcs i).
Qed.

Lemma node_key_leaf ns : nibbles ns -> node_key (ns ++ [16]).
Proof. intros Hn. right. by exists ns. Qed.

Lemma compact_spec k : node_key k -> hexToCompact k = Ok (compact k) /\ compactToHex (compact k) = Ok k.
Proof. intros (c & E & E' & _)%compact_roundtrip. unfold compact. by rewrite E. Qed.

Lemma decode_short decode h g k c : node_key k ->
  (hasTerm k = true -> exists v, c = Value v) ->
  (hasTerm k = false -> is_branch c = true /\ (big c = false -> decodes g decode c)) ->
  len (encIs [IBytes (compact k); ref c]) < 2 ^ 64 ->
  decodeShort decode h (encIs [IBytes (compact k); ref c]) g = Ok (inr (shortNode k (dref g c) (mkFlag h g false))).
Proof.
  intros Hk Hv Hc Hl. unfold decodeShort. rewrite encIs_cons in *. rewrite SplitString_bytes by done.
  destruct (compact_spec k Hk) as [_ ->]. cbn [rbind]. cbv beta in Hl. rewrite length_app in Hl.
  change (encIs [ref c]) with (encI (ref c) ++ []) in *. destruct (hasTerm k).
  - destruct (Hv eq_refl) as [v ->]. change (ref (Value v)) with (IBytes v) in *.
    rewrite SplitString_bytes; [done|]. cbv beta. lia.
  - destruct (Hc eq_refl) as [Hb Hd]. rewrite (decodeRef_child g); [done|by right|auto|]. cbv beta. lia.
Qed.

Lemma full_split (cs : list tree) : length cs = 17%nat -> exists l, cs = take 16 cs ++ [l] /\ cs !! 16%nat = Some l.
Proof.
  intros Hl. destruct (lookup_lt_is_Some_2 cs 16%nat) as [l El]; [lia|]. exists l. split; [|done].
  rewrite <- (take_drop_middle cs 16 l El) at 1. rewrite drop_ge by lia. done.
Qed.

Lemma decode_full decode h g cs : canon (Full cs) ->
  (forall i c, (i < 16)%nat -> cs !! i = Some c -> c <> Empty -> big c = false -> decodes g decode c) ->
  len (encIs (map ref cs)) < 2 ^ 64 ->
  decodeFull decode h (encIs (map ref cs)) g = Ok (inr (fullNode (map (dref g) cs) (mkFlag h g false))).
Proof.
  intros Hc Hd Hl. pose proof (canon_children cs Hc) as Hch. inversion Hc as [| |? Hlen _ Hlast _]; subst.
  destruct (full_split cs Hlen) as (l & E & El). unfold decodeFull.
  rewrite E in Hl |- *. rewrite !map_app in *. unfold encIs in Hl |- *. rewrite map_app, concat_app in *. fold (encIs (map ref (take 16 cs))) in *.
  replace 16%nat with (length (take 16 cs)) at 1 by (rewrite length_take; lia).
  rewrite (decode_children_spec g); [|done| |done].
  2:{ apply Forall_lookup. intros i c Hi. apply lookup_take_Some in Hi as [Hi Hlt]. intros Hb. apply (Hd i); try done. by intros ->. }
  cbn [rbind map concat]. assert (exists v, ref l = IBytes v /\ dref g l = if len v >? 0 then valueNode v else nilNode) as (v & Er & ->).
  { destruct (decide (l = Empty)) as [->|Hne]; [by exists []|]. destruct (Hlast l El Hne) as (v & -> & Hv & _). exists v.
    split; [done|]. by destruct v. }
  cbn [map concat] in Hl. rewrite Er in *. rewrite SplitString_bytes; [done|]. cbv beta in Hl |- *. rewrite length_app in Hl. lia.
Qed.

(** What was stored for a tree is read back as that tree. *)
Lemma decode_tree t : canon t -> forall fuel h g rest, (length (blob t) < fuel)%nat -> len (blob t ++ rest) < 2 ^ 64 ->
  decode_node fuel h g (blob t ++ rest) = Ok (inr (dnode h g t)).
Proof.
  assert (forall fuel h g l rest, len (encI (IList l) ++ rest) < 2 ^ 64 -> (length (encI (IList l)) < S fuel)%nat ->
    decode_node (S fuel) h g (encI (IList l) ++ rest) =
      if Z.of_nat (length l) =? 2 then wrapped at_short (decodeShort (decode_node fuel None g) h (encIs l) g)
      else if Z.of_nat (length l) =? 17 then wrapped at_full (decodeFull (decode_node fuel None g) h (encIs l) g)
      else Ok (inl (invalid_count (Z.of_nat (length l))))) as Hstep.
  { intros fuel h g l rest Hl Hf. pose proof (encI_list_longer l) as Hlong. cbv beta in Hl. rewrite length_app in Hl.
    cbn [decode_node]. rewrite SplitList_list by (cbv beta; rewrite length_app; lia).
    rewrite CountValues_items by (cbv beta; lia). destruct (encI (IList l) ++ rest) eqn:E; [|done].
    apply app_nil in E as [E _]. rewrite E in Hlong. simpl in Hlong. lia. }
  induction 1 as [ns v Hn Hv _|ns cs Hne Hn Hc IH|cs Hl Hcs IH Hlast Htwo]; intros fuel h g rest Hf Hlen.
  all: destruct fuel as [|fuel]; [lia|]; unfold blob in *; cbv beta in Hlen; rewrite length_app in Hlen.
  - rewrite titem_short in *. rewrite Hstep by (cbv beta; rewrite ?length_app; lia). cbn [length Z.of_nat].
    pose proof (encI_list_longer [IBytes (compact (ns ++ [16])); ref (Value v)]).
    rewrite decode_short; [done|by apply node_key_leaf|by exists v|by rewrite hasTerm_app|cbv beta; lia].
  - rewrite titem_short in *. rewrite Hstep by (cbv beta; rewrite ?length_app; lia). cbn [length Z.of_nat].
    pose proof (encI_list_longer [IBytes (compact ns); ref (Full cs)]) as Hlong.
    rewrite decode_short; [done|by left|by rewrite hasTerm_nibbles| |cbv beta; lia].
    intros _. split; [done|]. intros Eb rest' Hl'. apply IH; [|done]. rewrite !encIs_cons, !length_app in Hlong.
    assert (encI (ref (Full cs)) = encI (titem (Full cs))) as Er by (by rewrite ref_big, Eb).
    apply (f_equal length) in Er. lia.
  - assert (canon (Full cs)) as Hc by (by constructor). rewrite titem_full in *. rewrite Hstep by (cbv beta; rewrite ?length_app; lia).
    rewrite length_map, Hl. change (Z.of_nat 17 =? 2) with false. change (Z.of_nat 17 =? 17) with true. cbn iota.
    pose proof (encI_list_longer (map ref cs)) as Hlong. rewrite decode_full; [done|done| |cbv beta; lia].
    intros i c Hi Ec Hce Eb rest' Hl'. apply (IH i); try done.
    assert (length (encI (ref c)) <= length (encIs (map ref cs)))%nat as Hle.
    { apply length_concat_elem. apply list_elem_of_fmap_2, list_elem_of_fmap_2. by eapply list_elem_of_lookup_2. }
    rewrite ref_big, Eb in Hle. unfold blob. lia.
Qed.

(** ** Nodes in memory *)
Lemma dnode_short h g k c : dnode h g (Short k c) = shortNode k (dref g c) (mkFlag h g false).
Proof. done. Qed.

Lemma dnode_full h g cs : dnode h g (Full cs) = fullNode (map (dref g) cs) (mkFlag h g false).
Proof. done. Qed.

Lemma rnode_full cs : rnode (Full cs) = rawFullNode (map rref cs).
Proof. done. Qed.

(** A node whose raw form and encoding are those of a tree. *)
Record collapses (n : node) (t : tree) : Prop := {
  col_raw : simplifyNode n = Ok (rnode t);
  col_value : node_value n = to_value (titem t)
}.

Lemma expand_rnode t : canon t -> forall h g, expandNode h (rnode t) g = Ok (dnode h g t).
Proof.
  assert (forall c g, (canon c -> forall h g, expandNode h (rnode c) g = Ok (dnode h g c)) -> canon c ->
    expandNode None (rref c) g = Ok (dref g c)) as Href.
  { intros c g IH Hc. unfold rref, dref. destruct (big c); [done|by apply IH]. }
  induction 1 as [ns v Hn Hv _|ns cs Hne Hn Hc IH|cs Hl Hcs IH Hlast Htwo]; intros h g.
  - cbn [rnode expandNode]. destruct (compact_spec (ns ++ [16])) as [_ ->]; [by apply node_key_leaf|]. done.
  - change (rnode (Short ns (Full cs))) with (rawShortNode (compact ns) (rref (Full cs))). cbn [expandNode].
    destruct (compact_spec ns) as [_ ->]; [by left|]. cbn [rbind]. by rewrite Href.
  - rewrite rnode_full, dnode_full. cbn [expandNode].
    enough (Forall (fun c => (if is_nil (rref c) then Ok (rref c) else expandNode None (rref c) g) = Ok (dref g c)) cs) as Hf.
    { clear -Hf. induction Hf as [|c cs E _ IH]; [done|]. cbn [map]. rewrite E. cbn [rbind].
      lazymatch type of IH with rbind ?m _ = _ => destruct m as [l|]; [|done] end.
      cbn [rbind] in *. injection IH as ->. done. }
    apply Forall_lookup. intros i c Ec. destruct (decide (c = Empty)) as [->|Hce]; [done|].
    destruct (decide (i = 16%nat)) as [->|]; [by destruct (Hlast c Ec Hce) as (v & -> & _)|].
    assert (canon c) as Hcc by (apply (Hcs i); [apply lookup_lt_Some in Ec; lia|done..]).
    assert (is_nil (rref c) = false) as -> by (unfold rref; destruct (big c); [done|by destruct Hcc]).
    apply Href; [|done]. intros _. apply (IH i); [apply lookup_lt_Some in Ec; lia|done..].
Qed.

(** ** Trees that are referred to by hash *)

(** [P] holds of every tree below [t] that is kept under its own hash. *)
Fixpoint below (P : tree -> Prop) (t : tree) : Prop :=
  match t with
  | Short _ c => (big c = true -> P c) /\ below P c
  | Full cs => Forall (fun Q => Q) (map (fun c => (big c = true -> P c) /\ below P c) cs)
  | _ => True
  end.

Lemma below_full P cs i c : below P (Full cs) -> cs !! i = Some c -> (big c = true -> P c) /\ below P c.
Proof. cbn [below]. rewrite Forall_map, Forall_lookup. intros Hall E. by apply (Hall i c). Qed.

Lemma below_full_intro P cs : (forall i c, cs !! i = Some c -> (big c = true -> P c) /\ below P c) -> below P (Full cs).
Proof. intros Hall. cbn [below]. rewrite Forall_map, Forall_lookup. exact Hall. Qed.

Lemma below_mono P Q t : (forall c, P c -> Q c) -> below P t -> below Q t.
Proof.
  intros Hpq. induction t as [|k t IH|cs IH|v] using tree_deep_ind; [done| | |done].
  - cbn [below]. naive_solver.
  - intros Hb. apply below_full_intro. intros i c Ec. rewrite Forall_lookup in IH. specialize (IH i c Ec).
    destruct (below_full P cs i c Hb Ec). naive_solver.
Qed.

(** A set of encodings without collisions, none of which has the hash zero. *)
Class Known (K : bytes -> Prop) : Prop := {
  known_len : forall x, K x -> len x < 2 ^ 64;
  known_nonzero : forall x, K x -> Keccak256Hash x <> 0;
  known_inj : forall x y, K x -> K y -> Keccak256Hash x = Keccak256Hash y -> x = y
}.

Definition known_below (K : bytes -> Prop) : tree -> Prop := below (fun c => K (blob c)).

Context `{!KeccakLaw}.

Lemma hash_Bytes_inj x y : hash_Bytes (Keccak256Hash x) = hash_Bytes (Keccak256Hash y) -> Keccak256Hash x = Keccak256Hash y.
Proof.
  intros E. apply (f_equal Wire.be_val) in E. unfold hash_Bytes in E. rewrite !Wire.be_val_bytes in E.
  pose proof (keccak_range x). pose proof (keccak_range y). rewrite !Z.mod_small in E by (simpl; lia). done.
Qed.

(** The child of a canonical node. *)
Definition proper (c : tree) : Prop := c = Empty \/ (exists v, c = Value v) \/ canon c.

Lemma proper_child cs i c : canon (Full cs) -> cs !! i = Some c -> proper c.
Proof.
  intros Hc Ec. inversion Hc as [| |? Hl Hcs Hlast _]; subst. destruct (decide (c = Empty)) as [->|Hne]; [by left|right].
  destruct (decide (i = 16%nat)) as [->|]; [left|right].
  - destruct (Hlast c Ec Hne) as (v & -> & _). by exists v.
  - apply (Hcs i); [apply lookup_lt_Some in Ec; lia|done..].
Qed.

Section binding.
Context (K : bytes -> Prop) `{!Known K}.

Lemma blob_dnode t u h g : canon t -> canon u -> K (blob t) -> blob t = blob u -> dnode h g t = dnode h g u.
Proof.
  intros Ht Hu Hk E. pose proof (known_len _ Hk) as Hl. cbv beta in Hl.
  pose proof (decode_tree t Ht (S (length (blob t))) h g []) as D1. pose proof (decode_tree u Hu (S (length (blob t))) h g []) as D2.
  rewrite app_nil_r in *. rewrite <- E in D2. cbv beta in *. rewrite D1 in D2 by lia. by injection D2; try lia.
Qed.

Definition determined (t : tree) : Prop := forall u h g, canon u -> known_below K t -> known_below K u ->
  dnode h g t = dnode h g u -> t = u.

Lemma dref_inj c d g : (canon c -> determined c) -> proper c -> proper d ->
  (big c = true -> K (blob c)) /\ known_below K c -> (big d = true -> K (blob d)) /\ known_below K d ->
  dref g c = dref g d -> c = d.
Proof.
  intros IH Hc Hd [Kc Bc] [Kd Bd]. unfold dref. destruct (big c) eqn:Ec, (big d) eqn:Ed.
  - intros E. apply (f_equal (fun n => match n with hashNode b => b | _ => [] end)) in E.
    apply hash_Bytes_inj, (known_inj (K := K)) in E; auto.
    destruct Hc as [->|[[v ->]|Hc]]; [done..|]. destruct Hd as [->|[[v ->]|Hd]]; [done..|].
    apply (IH Hc d None g Hd Bc Bd). apply blob_dnode; auto.
  - by destruct d.
  - by destruct c.
  - destruct Hc as [->|[[v ->]|Hc]], Hd as [->|[[w ->]|Hd]]; try done; try (by intros [= ->]).
    + destruct Hd; done.
    + destruct Hd; done.
    + destruct Hc; done.
    + destruct Hc; done.
    + intros E. by apply (IH Hc d None g).
Qed.

Lemma canon_determined t : canon t -> determined t.
Proof.
  induction 1 as [ns v Hn Hv Hb|ns cs Hne Hn Hc IH|cs Hl Hcs IH Hlast Htwo]; intros u h g Hu Bt Bu E.
  - destruct Hu as [ms w Hm _ _|ms ds _ Hm Hd|]; rewrite ?dnode_short, ?dnode_full in E; try done.
    + by injection E as -> ->.
    + injection E as _ E. unfold dref in E. by destruct (big (Full ds)).
  - destruct Hu as [ms w Hm _ _|ms ds _ Hm Hd|]; rewrite ?dnode_short, ?dnode_full in E; try done.
    + injection E as _ E. unfold dref in E. by destruct (big (Full cs)).
    + injection E as -> E. f_equal. apply (dref_inj (Full cs) (Full ds) g); auto; right; by right.
  - destruct Hu as [ms w Hm _ _|ms ds _ Hm Hd|ds Hl' Hds Hlast' Htwo']; rewrite ?dnode_short, ?dnode_full in E; try done.
    injection E as E. f_equal. apply list_eq_same_length with 17%nat; [done..|]. intros i c d Hi Ec Ed.
    apply (dref_inj c d g).
    + intros Hcc. destruct (decide (i = 16%nat)) as [->|]; [|apply (IH i); [lia|done|by intros ->; inversion Hcc]].
      destruct (Hlast c Ec) as (v & -> & _); [by intros ->; inversion Hcc|]. inversion Hcc.
    + by apply (proper_child cs i); [constructor|].
    + by apply (proper_child ds i); [constructor|].
    + exact (below_full _ cs i c Bt Ec).
    + exact (below_full _ ds i d Bu Ed).
    + apply (f_equal (lookup i)) in E. rewrite !list_lookup_fmap, Ec, Ed in E. by injection E.
Qed.

(** Within a set of encodings without collisions the root hash determines the tree. *)
Lemma root_determines t u : canon t -> canon u -> K (blob t) -> K (blob u) -> known_below K t -> known_below K u ->
  thash t = thash u -> t = u.
Proof.
  intros Ht Hu Kt Ku Bt Bu E. apply (known_inj (K := K)) in E; [|done..].
  apply (canon_determined t Ht u None 0); try done. by apply blob_dnode.
Qed.
End binding.
End with_keccak.

End TrieCodec.
