(* ===== verification/Trie.v ===== *)
(** * eth/trie: trie.go and hasher.go

    A trie over a database of nodes.  The database is an interface, [NodeDB]:
    [db_node] loads a node by its hash, [db_insert] keeps one. *)
From S2P Require Import Prelude Wire EthMath StateDB Rlp RlpDecode RlpRaw TrieKeys TrieNode.

Module Trie.
Import Rlp EthMath TrieKeys TrieNode.

Class NodeDB (D : Type) := {
  db_node : Z -> Z -> D -> res node;
  db_insert : Z -> bytes -> node -> D -> res D
}.

Record Trie := mkTrie { root : node; cachegen : Z; cachelimit : Z }.

(** [starved] is the model out of fuel; the theorems show how much is enough. *)
Inductive trieErr := MissingNodeError (NodeHash : Z) (Path : bytes) | starved.

Section with_db.
Context `{Keccak, NodeDB D}.

Definition emptyRoot : Z := 0x56e81f171bcc55a6ff8345e692c0f86e5b48e01b996cadc001622fb5e363b421.

Section with_gen.
Variable d : D.
Variable cgen : Z.

Definition newFlag : nodeFlag := mkFlag None cgen true.
Definition with_gen (f : nodeFlag) : nodeFlag := mkFlag (hash f) cgen (dirty f).

Definition resolveHash (h prefix : bytes) : res (trieErr + node) :=
  let! n := db_node (BytesToHash h) cgen d in
  Ok (if is_nil n then inl (MissingNodeError (BytesToHash h) prefix) else inr n).

Definition resolve (n : node) (prefix : bytes) : res (trieErr + node) :=
  match n with hashNode h => resolveHash h prefix | _ => Ok (inr n) end.

(** The value, the node with what was loaded, whether something was, and the error. *)
Fixpoint tryGet (fuel : nat) (origNode : node) (key : bytes) (pos : nat) : res (option bytes * node * bool * option trieErr) :=
  match fuel with
  | O => Ok (None, origNode, false, Some starved)
  | S fuel =>
      match origNode with
      | nilNode => Ok (None, nilNode, false, None)
      | valueNode v => Ok (Some v, origNode, false, None)
      | shortNode k val f =>
          if (Z.of_nat (length key) - Z.of_nat pos <? Z.of_nat (length k)) ||
             negb (bytes_eqb k (take (length k) (drop pos key)))
          then Ok (None, origNode, false, None)
          else
            let! (value, newnode, didResolve, err) := tryGet fuel val key (pos + length k) in
            Ok (value,
                match err with
                | None => if didResolve then shortNode k newnode (with_gen f) else origNode
                | Some _ => origNode
                end, didResolve, err)
      | fullNode cs f =>
          let! x := go_index key (Z.of_nat pos) in
          let! c := go_index cs x in
          let! (value, newnode, didResolve, err) := tryGet fuel c key (pos + 1) in
          Ok (value,
              match err with
              | None => if didResolve then fullNode (<[Z.to_nat x := newnode]> cs) (with_gen f) else origNode
              | Some _ => origNode
              end, didResolve, err)
      | hashNode h =>
          let! r := resolveHash h (take pos key) in
          match r with
          | inl e => Ok (None, origNode, true, Some e)
          | inr child =>
              let! (value, newnode, _, err) := tryGet fuel child key pos in
              Ok (value, newnode, true, err)
          end
      | _ => Panic
      end
  end.

(** Whether something changed, the new node, and the error. *)
Fixpoint insert (fuel : nat) (n : node) (prefix key : bytes) (value : node) : res (bool * node * option trieErr) :=
  match fuel with
  | O => Ok (false, n, Some starved)
  | S fuel =>
      match key with
      | [] =>
          match n with
          | valueNode v =>
              match value with
              | valueNode w => Ok (negb (bytes_eqb v w), value, None)
              | _ => Panic
              end
          | _ => Ok (true, value, None)
          end
      | x :: rest =>
          match n with
          | shortNode k val f =>
              let matchlen := prefixLen key k in
              if (matchlen =? length k)%nat then
                let! (dirty, nn, err) := insert fuel val (prefix ++ take matchlen key) (drop matchlen key) value in
                Ok (match dirty, err with
                    | true, None => (true, shortNode k nn newFlag, None)
                    | _, _ => (false, n, err)
                    end)
              else
                let! kx := go_index k (Z.of_nat matchlen) in
                let! (_, c1, err) := insert fuel nilNode (prefix ++ take (matchlen + 1) k) (drop (matchlen + 1) k) val in
                match err with
                | Some _ => Ok (false, nilNode, err)
                | None =>
                    let! branch := go_store (replicate 17 nilNode) kx c1 in
                    let! ky := go_index key (Z.of_nat matchlen) in
                    let! (_, c2, err) := insert fuel nilNode (prefix ++ take (matchlen + 1) key) (drop (matchlen + 1) key) value in
                    match err with
                    | Some _ => Ok (false, nilNode, err)
                    | None =>
                        let! branch := go_store branch ky c2 in
                        let branch := fullNode branch newFlag in
                        Ok (true, if (matchlen =? 0)%nat then branch else shortNode (take matchlen key) branch newFlag, None)
                    end
                end
          | fullNode cs f =>
              let! c := go_index cs x in
              let! (dirty, nn, err) := insert fuel c (prefix ++ [x]) rest value in
              Ok (match dirty, err with
                  | true, None => (true, fullNode (<[Z.to_nat x := nn]> cs) newFlag, None)
                  | _, _ => (false, n, err)
                  end)
          | nilNode => Ok (true, shortNode key value newFlag, None)
          | hashNode h =>
              let! r := resolveHash h prefix in
              match r with
              | inl e => Ok (false, nilNode, Some e)
              | inr rn =>
                  let! (dirty, nn, err) := insert fuel rn prefix key value in
                  Ok (match dirty, err with
                      | true, None => (true, nn, None)
                      | _, _ => (false, rn, err)
                      end)
              end
          | _ => Panic
          end
      end
  end.

(** The index of the only child, [-1] without any, [-2] with several. *)
Fixpoint single_child (cs : list node) (i pos : Z) : Z :=
  match cs with
  | [] => pos
  | c :: cs =>
      if is_nil c then single_child cs (i + 1) pos
      else if pos =? -1 then single_child cs (i + 1) i
      else -2
  end.

(** What becomes of a full node from which something was deleted. *)
Definition reduce (cs : list node) (prefix : bytes) : res (bool * node * option trieErr) :=
  let pos := single_child cs 0 (-1) in
  if pos >=? 0 then
    let! c := go_index cs pos in
    let! r := (if pos =? 16 then Ok (inr nilNode) else resolve c prefix) in
    Ok (match r with
        | inl e => (false, nilNode, Some e)
        | inr (shortNode k val _) => (true, shortNode (pos :: k) val newFlag, None)
        | inr _ => (true, shortNode [pos] c newFlag, None)
        end)
  else Ok (true, fullNode cs newFlag, None).

Fixpoint delete (fuel : nat) (n : node) (prefix key : bytes) : res (bool * node * option trieErr) :=
  match fuel with
  | O => Ok (false, n, Some starved)
  | S fuel =>
      match n with
      | shortNode k val f =>
          let matchlen := prefixLen key k in
          if (matchlen <? length k)%nat then Ok (false, n, None)
          else if (matchlen =? length key)%nat then Ok (true, nilNode, None)
          else
            let! (dirty, child, err) := delete fuel val (prefix ++ take (length k) key) (drop (length k) key) in
            Ok (match dirty, err with
                | true, None =>
                    (true, match child with
                           | shortNode k' val' _ => shortNode (k ++ k') val' newFlag
                           | _ => shortNode k child newFlag
                           end, None)
                | _, _ => (false, n, err)
                end)
      | fullNode cs f =>
          let! x := go_index key 0 in
          let! c := go_index cs x in
          let! (dirty, nn, err) := delete fuel c (prefix ++ [x]) (drop 1 key) in
          match dirty, err with
          | true, None => reduce (<[Z.to_nat x := nn]> cs) prefix
          | _, _ => Ok (false, n, err)
          end
      | valueNode _ => Ok (true, nilNode, None)
      | nilNode => Ok (false, nilNode, None)
      | hashNode h =>
          let! r := resolveHash h prefix in
          match r with
          | inl e => Ok (false, nilNode, Some e)
          | inr rn =>
              let! (dirty, nn, err) := delete fuel rn prefix key in
              Ok (match dirty, err with
                  | true, None => (true, nn, None)
                  | _, _ => (false, rn, err)
                  end)
          end
      | _ => Panic
      end
  end.
End with_gen.

(** ** The methods of a trie *)
Definition set_root (n : node) (t : Trie) : Trie := mkTrie n (cachegen t) (cachelimit t).

Definition New (rt : Z) (d : D) : res (trieErr + Trie) :=
  if negb (rt =? 0) && negb (rt =? emptyRoot) then
    let! r := resolveHash d 0 (hash_Bytes rt) [] in
    Ok (match r with inl e => inl e | inr n => inr (mkTrie n 0 0) end)
  else Ok (inr (mkTrie nilNode 0 0)).

Definition TryGet (fuel : nat) (d : D) (key : bytes) (t : Trie) : res (option bytes * option trieErr * Trie) :=
  let! (value, newroot, didResolve, err) := tryGet d (cachegen t) fuel (root t) (keybytesToHex key) 0 in
  Ok (value, err, match err with None => if didResolve then set_root newroot t else t | Some _ => t end).

Definition TryUpdate (fuel : nat) (d : D) (key value : bytes) (t : Trie) : res (option trieErr * Trie) :=
  let k := keybytesToHex key in
  let! (_, n, err) := (if negb (length value =? 0)%nat then insert d (cachegen t) fuel (root t) [] k (valueNode value)
                       else delete d (cachegen t) fuel (root t) [] k) in
  Ok (err, match err with None => set_root n t | Some _ => t end).

Definition TryDelete (fuel : nat) (d : D) (key : bytes) (t : Trie) : res (option trieErr * Trie) :=
  let! (_, n, err) := delete d (cachegen t) fuel (root t) [] (keybytesToHex key) in
  Ok (err, match err with None => set_root n t | Some _ => t end).

(** ** hasher.go *)
Definition makeHashNode (data : bytes) : bytes := hash_Bytes (Keccak256Hash data).

Section hasher.
Variables hgen hlimit : Z.
Variable onleaf : option (bytes -> Z -> D -> res D).

Definition leaf_callback (n : node) (h : Z) (d : D) : res D :=
  match onleaf, n with
  | Some cb, valueNode v => cb v h d
  | _, _ => Ok d
  end.

Fixpoint leaf_callbacks (cs : list node) (h : Z) (d : D) : res D :=
  match cs with
  | [] => Ok d
  | c :: cs => let! d := leaf_callback c h d in leaf_callbacks cs h d
  end.

(** The error of the encoder is a panic. *)
Definition store (n : node) (db : option D) (force : bool) : res (node * option D) :=
  match n with
  | nilNode | hashNode _ => Ok (n, db)
  | _ =>
      let! e := EncodeToBytes (node_value n) in
      let! tmp := deref e in
      if (length tmp <? 32)%nat && negb force then Ok (n, db)
      else
        let! (h, _) := cache n in
        let h := match h with Some h => h | None => makeHashNode tmp end in
        match db with
        | None => Ok (hashNode h, None)
        | Some d =>
            let hash := BytesToHash h in
            let! d := db_insert hash tmp n d in
            let! d := (match n with
                       | shortNode _ val _ => leaf_callback val hash d
                       | fullNode cs _ => leaf_callbacks (take 16 cs) hash d
                       | _ => Ok d
                       end) in
            Ok (hashNode h, Some d)
        end
  end.

(** The flags of the cached node, once its hash is known. *)
Definition cache_hash (hashed : node) (committed : bool) (n : node) : node :=
  let set f := mkFlag (match hashed with hashNode h => Some h | _ => None end) (gen f) (if committed then false else dirty f) in
  match n with
  | shortNode k v f => shortNode k v (set f)
  | fullNode cs f => fullNode cs (set f)
  | _ => n
  end.

Definition is_value (n : node) : bool := match n with valueNode _ => true | _ => false end.

Section children.
Variable hash_ : node -> option D -> bool -> res (node * node * option D).

(** The loop over the first [k] children; the others stay. *)
Fixpoint hash_all (k : nat) (cs : list node) (db : option D) : res (list node * list node * option D) :=
  match k, cs with
  | O, _ | _, [] => Ok (cs, cs, db)
  | S k, c :: cs =>
      let! (h, c', db) := (if is_nil c then Ok (c, c, db) else hash_ c db false) in
      let! (hs, cs, db) := hash_all k cs db in
      Ok (h :: hs, c' :: cs, db)
  end.
End children.

Fixpoint hash_node (n : node) (db : option D) (force : bool) : res (node * node * option D) :=
  let! (h, dirty) := cache n in
  let! unload := (match h, db with Some _, Some _ => canUnload hgen hlimit n | _, _ => Ok false end) in
  match h, db, unload, dirty with
  | Some h, None, _, _ => Ok (hashNode h, n, db)
  | Some h, Some _, true, _ => Ok (hashNode h, hashNode h, db)
  | Some h, Some _, false, false => Ok (hashNode h, n, db)
  | _, _, _, _ =>
      let! (collapsed, cached, db) :=
        (match n with
         | shortNode k val f =>
             let! ck := hexToCompact k in
             let! (cv, v, db) := (if is_value val then Ok (val, val, db) else hash_node val db false) in
             Ok (shortNode ck cv f, shortNode k v f, db)
         | fullNode cs f =>
             let! (hs, cs', db) := hash_all hash_node 16 cs db in
             Ok (fullNode hs f, fullNode cs' f, db)
         | _ => Ok (n, n, db)
         end) in
      let! (hashed, db) := store collapsed db force in
      Ok (hashed, cache_hash hashed (bool_decide (is_Some db)) cached, db)
  end.
End hasher.

Definition hashRoot (db : option D) (onleaf : option (bytes -> Z -> D -> res D)) (t : Trie) : res (node * node * option D) :=
  match root t with
  | nilNode => Ok (hashNode (hash_Bytes emptyRoot), nilNode, db)
  | _ => hash_node (cachegen t) (cachelimit t) onleaf (root t) db true
  end.

Definition node_hash (n : node) : res Z := match n with hashNode h => Ok (BytesToHash h) | _ => Panic end.

Definition Hash (t : Trie) : res (Z * Trie) :=
  let! (hash, cached, _) := hashRoot None None t in
  let! h := node_hash hash in
  Ok (h, set_root cached t).

Definition Commit (onleaf : option (bytes -> Z -> D -> res D)) (d : D) (t : Trie) : res (Z * Trie * D) :=
  let! (hash, cached, db) := hashRoot (Some d) onleaf t in
  let! h := node_hash hash in
  let! d := deref db in
  Ok (h, mkTrie cached (u16 (cachegen t + 1)) (cachelimit t), d).
End with_db.

End Trie.
