(* ===== verification/TrieMap.v ===== *)
(** * The operations of a trie act on a map

    [rep]: a node, with hashes of what is in the database, stands for a tree.
    Reading, inserting and deleting keep the tree canonical and act on the
    values it holds as on a map from keys to values. *)
From S2P Require Import Prelude Wire EthMath StateDB Rlp RlpDecode RlpRaw TrieKeys TrieNode TrieTree TrieCodec Trie.
#[local] Set Warnings "-register-all".

Module TrieMap.
Import TrieKeys TrieNode TrieTree TrieCodec Trie.
Import EthMath(hash_Bytes, BytesToHash).

(** ** Keys *)
Lemma after_cat p q key : after (p ++ q) key = after p key ≫= after q.
Proof.
  revert key. induction p as [|x p IH]; intros key; [by rewrite after_nil|]. destruct key as [|y key]; [done|].
  simpl. destruct (x =? y); [apply IH|done].
Qed.

Lemma after_self k : after k k = Some [].
Proof. by apply after_Some; rewrite app_nil_r. Qed.

Lemma match_after k rest :
  (Z.of_nat (length rest) <? Z.of_nat (length k)) || negb (bytes_eqb k (take (length k) rest)) =
  match after k rest with Some _ => false | None => true end.
Proof.
  destruct (after k rest) as [l|] eqn:E.
  - apply after_Some in E as ->. rewrite take_app_length, bytes_eqb_refl, length_app. apply orb_false_iff. split; [apply Z.ltb_ge; lia|done].
  - apply orb_true_iff. destruct (Z.ltb_spec (Z.of_nat (length rest)) (Z.of_nat (length k))); [by left|right].
    apply negb_true_iff, bytes_eqb_neq. intros Ek. rewrite <- (take_drop (length k) rest), <- Ek, after_app in E. done.
Qed.

Lemma hex_leaf ns l : nibbles ns -> hex_key (ns ++ 16 :: l) -> l = [].
Proof. intros Hn Hk. apply hex_app_inv in Hk; [|done]. apply hex_cons in Hk as [[Hx _]|[_ ->]]; [unfold is_nibble in Hx; lia|done]. Qed.

(** The keys of two nodes, cut where they differ. *)
Lemma split_keys key k : hex_key key -> node_key k -> prefixLen key k <> length k ->
  exists p x key' y k', key = p ++ x :: key' /\ k = p ++ y :: k' /\ length p = prefixLen key k /\ x <> y /\ nibbles p.
Proof.
  intros Hkey Hk Hne. destruct (prefixLen_spec key k) as (H1 & H2 & H3 & H4). set (m := prefixLen key k) in *.
  assert (m < length k)%nat as Hlt by lia.
  assert (m < length key)%nat as Hlt'.
  { destruct (decide (m = length key)) as [E|]; [exfalso|lia]. rewrite E, take_ge in H3 by lia.
    destruct Hkey as (ns & Hn & ->). rewrite length_app in E. cbn [length] in E.
    assert (k !! length ns = Some 16) as E16.
    { rewrite <- (take_drop (length (ns ++ [16])) k), <- H3, lookup_app_l by (rewrite length_app; simpl; lia).
      by rewrite lookup_app_r, Nat.sub_diag by lia. }
    destruct Hk as [Hk|(ms & Hm & ->)].
    - rewrite Forall_lookup in Hk. specialize (Hk _ _ E16). unfold is_nibble in Hk. lia.
    - rewrite length_app in Hlt. cbn [length] in Hlt. rewrite lookup_app_l in E16 by lia.
      rewrite Forall_lookup in Hm. specialize (Hm _ _ E16). unfold is_nibble in Hm. lia. }
  destruct (lookup_lt_is_Some_2 key m Hlt') as [x Ex], (lookup_lt_is_Some_2 k m Hlt) as [y Ey].
  exists (take m key), x, (drop (S m) key), y, (drop (S m) k). split_and!.
  - by rewrite take_drop_middle.
  - by rewrite H3, take_drop_middle.
  - rewrite length_take. lia.
  - by apply (H4 x y).
  - destruct Hkey as (ns & Hn & ->). rewrite length_app in Hlt'. cbn [length] in Hlt'. rewrite take_app_le by lia. by apply Forall_take.
Qed.

(** ** Building trees *)

(** A short node that is left out when its key is empty. *)
Definition under (k : bytes) (c : tree) : tree := match k with [] => c | _ => Short k c end.

Lemma tlookup_under k c key : tlookup (under k c) key = after k key ≫= tlookup c.
Proof. destruct k; [|done]. by rewrite after_nil. Qed.

Definition fork (x : Z) (c : tree) (y : Z) (e : tree) : tree :=
  Full (<[Z.to_nat y := e]> (<[Z.to_nat x := c]> (replicate 17 Empty))).

Definition digit (x : Z) : Prop := 0 <= x <= 16.

Lemma tlookup_insert cs x c z l : digit x -> digit z -> length cs = 17%nat ->
  tlookup (Full (<[Z.to_nat x := c]> cs)) (z :: l) = if decide (z = x) then tlookup c l else tlookup (Full cs) (z :: l).
Proof.
  intros Hx Hz Hl. unfold digit in *. cbn [tlookup]. rewrite list_fmap_insert. destruct (decide (z = x)) as [->|].
  - rewrite list_lookup_insert_eq; [done|]. rewrite length_map. lia.
  - rewrite list_lookup_insert_ne; [done|]. lia.
Qed.

Lemma tlookup_none z l : tlookup (Full (replicate 17 Empty)) (z :: l) = None.
Proof. cbn [tlookup]. rewrite list_lookup_fmap. destruct (_ !! _) as [c|] eqn:E; [|done]. by apply lookup_replicate in E as [-> _]. Qed.

Lemma tlookup_fork x c y e z l : digit x -> digit y -> digit z ->
  tlookup (fork x c y e) (z :: l) = if decide (z = y) then tlookup e l else if decide (z = x) then tlookup c l else None.
Proof.
  intros Hx Hy Hz. unfold fork. rewrite !tlookup_insert by (rewrite ?length_insert, ?length_replicate; done). by rewrite tlookup_none.
Qed.

(** What may stand at an index of a full node. *)
Definition fits_at (x : Z) (c : tree) : Prop :=
  (is_nibble x /\ canon c) \/ (x = 16 /\ exists v, c = Value v /\ v <> [] /\ Forall is_byte v).

Lemma fits_nonempty x c : fits_at x c -> c <> Empty.
Proof. intros [[_ []]|[_ (v & -> & _)]]; done. Qed.

Lemma fits_digit x c : fits_at x c -> digit x.
Proof. unfold digit. intros [[Hx _]|[-> _]]; [unfold is_nibble in Hx|]; lia. Qed.

(** A leaf for the rest of a key, below its first digit. *)
Lemma fits_leaf x key v : hex_key (x :: key) -> v <> [] -> Forall is_byte v -> fits_at x (under key (Value v)).
Proof.
  intros Hk Hv Hb. apply hex_cons in Hk as [[Hx Hk]|[-> ->]]; [left|right; split; [done|by exists v]].
  split; [done|]. destruct Hk as (ns & Hn & ->). assert (under (ns ++ [16]) (Value v) = Short (ns ++ [16]) (Value v)) as -> by (by destruct ns).
  by constructor.
Qed.

(** The rest of a node, below the first digit of its key. *)
Lemma fits_rest p y k c : canon (Short (p ++ y :: k) c) -> fits_at y (under k c).
Proof.
  intros Hc. inversion Hc as [ns v Hn Hv Hb E|ns cs Hne Hn Hf|]; subst.
  - apply fits_leaf; try done. apply (hex_app_inv p); [|rewrite <- E; by exists ns].
    destruct (decide (length p <= length ns)%nat).
    + apply (f_equal (take (length p))) in E. rewrite take_app_length, take_app_le in E by done. rewrite <- E. by apply Forall_take.
    + exfalso. apply (f_equal length) in E. rewrite !length_app in E. simpl in E. lia.
  - apply Forall_app in Hn as [_ Hn]. inversion Hn; subst. left. split; [done|].
    destruct k as [|z k]; [done|]. by constructor.
Qed.

Lemma canon_insert cs x c : canon (Full cs) -> fits_at x c -> canon (Full (<[Z.to_nat x := c]> cs)).
Proof.
  intros Hc Hf. pose proof (fits_digit x c Hf) as Hx. unfold digit in Hx.
  inversion Hc as [| |? Hl Hcs Hlast (i & j & t & u & Hij & Hi & Hj & Ht & Hu)]; subst. constructor.
  - by rewrite length_insert.
  - intros a b Ha Eb Hb. destruct (decide (a = Z.to_nat x)) as [->|].
    + rewrite list_lookup_insert_eq in Eb by lia. injection Eb as <-. destruct Hf as [[_ ?]|[-> _]]; [done|lia].
    + rewrite list_lookup_insert_ne in Eb by done. by apply (Hcs a).
  - intros b Eb Hb. destruct (decide (16%nat = Z.to_nat x)) as [E|].
    + rewrite <- E, list_lookup_insert_eq in Eb by lia. injection Eb as <-. destruct Hf as [[Hn _]|[-> ?]]; [unfold is_nibble in Hn; lia|done].
    + rewrite list_lookup_insert_ne in Eb by done. by apply Hlast.
  - assert (forall k b, cs !! k = Some b -> b <> Empty -> exists b', <[Z.to_nat x := c]> cs !! k = Some b' /\ b' <> Empty) as Hk.
    { intros k b Ek Hb. destruct (decide (k = Z.to_nat x)) as [->|].
      - exists c. rewrite list_lookup_insert_eq by lia. split; [done|by eapply fits_nonempty].
      - exists b. by rewrite list_lookup_insert_ne. }
    destruct (Hk i t) as (t' & ? & ?), (Hk j u) as (u' & ? & ?); try done. by exists i, j, t', u'.
Qed.

Lemma canon_fork x c y e : x <> y -> fits_at x c -> fits_at y e -> canon (fork x c y e).
Proof.
  intros Hne Hc He. pose proof (fits_digit x c Hc) as Hx. pose proof (fits_digit y e He) as Hy. unfold digit in *. unfold fork.
  assert (forall i t, <[Z.to_nat y:=e]> (<[Z.to_nat x:=c]> (replicate 17 Empty)) !! i = Some t -> t <> Empty ->
    (i = Z.to_nat y /\ t = e) \/ (i = Z.to_nat x /\ t = c)) as Hcs.
  { intros i t E Ht. destruct (decide (i = Z.to_nat y)) as [->|].
    { rewrite list_lookup_insert_eq in E by (rewrite length_insert, length_replicate; lia). left. by injection E. }
    rewrite list_lookup_insert_ne in E by done. destruct (decide (i = Z.to_nat x)) as [->|].
    { rewrite list_lookup_insert_eq in E by (rewrite length_replicate; lia). right. by injection E. }
    rewrite list_lookup_insert_ne in E by done. apply lookup_replicate in E as [-> _]. done. }
  constructor.
  - by rewrite !length_insert, length_replicate.
  - intros i t Hi E Ht. destruct (Hcs i t E Ht) as [[-> ->]|[-> ->]]; [destruct He as [[_ ?]|[-> _]]|destruct Hc as [[_ ?]|[-> _]]]; done || lia.
  - intros t E Ht. destruct (Hcs _ t E Ht) as [[Ei ->]|[Ei ->]];
      [destruct He as [[Hn _]|[_ ?]]|destruct Hc as [[Hn _]|[_ ?]]]; try done; unfold is_nibble in Hn; lia.
  - exists (Z.to_nat x), (Z.to_nat y), c, e. split_and!; [lia| | |by eapply fits_nonempty..].
    + rewrite list_lookup_insert_ne by lia. apply list_lookup_insert_eq. rewrite length_replicate. lia.
    + apply list_lookup_insert_eq. rewrite length_insert, length_replicate. lia.
Qed.

Lemma canon_under p cs : nibbles p -> canon (Full cs) -> canon (under p (Full cs)).
Proof. intros Hp Hc. destruct p; [done|]. by constructor. Qed.

(** Something that forks below an empty prefix is a full node. *)
Lemma forks_full t : canon t -> forks t -> exists cs, t = Full cs.
Proof.
  intros Hc Hf. destruct Hc as [ns v|ns cs Hne|cs]; [| |by exists cs]; exfalso; [|by eapply short_not_forks].
  eapply short_not_forks, Hf. by destruct ns.
Qed.

(** ** What a node stands for *)
Section with_db.
Context `{HK : Keccak, HKL : !KeccakLaw, HD : NodeDB D}.
Variable d : D.

(** The database has the node of a tree under its hash. *)
Definition has (t : tree) : Prop :=
  canon t /\ forall g, db_node (thash t) g d = Ok (dnode (Some (hash_Bytes (thash t))) g t).

(** It has the whole tree. *)
Definition stored (t : tree) : Prop := has t /\ below has t.

(** A hash in the flags is right, and of a tree that its parent refers to by
    hash; a clean node is in the database, or inside its parent. *)
Record flag_ok (r : bool) (f : nodeFlag) (t : tree) : Prop := {
  fl_hash : forall h, hash f = Some h -> h = hash_Bytes (thash t) /\ (r = true \/ big t = true);
  fl_clean : dirty f = false -> match hash f with Some _ => stored t | None => r = false /\ big t = false end
}.

(** The argument tells the root, which has a hash whatever its size. *)
Inductive rep : bool -> node -> tree -> Prop :=
| rep_nil r : rep r nilNode Empty
| rep_value r v : rep r (valueNode v) (Value v)
| rep_short r k n c f : rep false n c -> flag_ok r f (Short k c) -> rep r (shortNode k n f) (Short k c)
| rep_full r ns cs f : length ns = length cs ->
    (forall i n c, ns !! i = Some n -> cs !! i = Some c -> rep false n c) ->
    flag_ok r f (Full cs) -> rep r (fullNode ns f) (Full cs)
| rep_hash r t : stored t -> r = true \/ big t = true -> rep r (hashNode (hash_Bytes (thash t))) t.

Lemma flag_ok_new r g t : flag_ok r (newFlag g) t.
Proof. by split. Qed.

Lemma flag_ok_gen r g f t : flag_ok r f t -> flag_ok r (with_gen g f) t.
Proof. by intros []. Qed.

(** What is loaded stands for what was stored. *)
Definition loaded_as (r : bool) (h : option bytes) (t : tree) : Prop :=
  match h with
  | None => r = false /\ big t = false
  | Some h => h = hash_Bytes (thash t) /\ has t /\ (r = true \/ big t = true)
  end.

Lemma rep_dnode t : canon t -> below has t -> forall r h g, loaded_as r h t -> rep r (dnode h g t) t.
Proof.
  assert (forall c g, proper c -> (big c = true -> has c) -> below has c -> (canon c -> big c = false -> rep false (dnode None g c) c) ->
    rep false (dref g c) c) as Href.
  { intros c g Hp Hh Hb IH. unfold dref. destruct (big c) eqn:E.
    - constructor; [split; auto|by right].
    - destruct Hp as [->|[[v ->]|Hc]]; [constructor..|by apply IH]. }
  assert (forall r h g u, below has u -> loaded_as r h u -> flag_ok r (mkFlag h g false) u) as Hflag.
  { intros r [h|] g u Hb Hh; split; try done.
    - intros h' [= <-]. by destruct Hh as (-> & _ & ?).
    - intros _. split; [apply Hh|done]. }
  intros Ht Hb. revert Hb. induction Ht as [ns v Hn Hv Hby|ns cs Hne Hn Hc IH|cs Hl Hcs IH Hlast Htwo]; intros Hb r h g Hh.
  - rewrite dnode_short. constructor; [constructor|auto].
  - rewrite dnode_short. constructor; [|auto]. destruct Hb as [Hb1 Hb2]. apply Href; [right; by right|done..|].
    intros _ Hs. by apply IH.
  - rewrite dnode_full. constructor; [by rewrite length_map| |auto]. intros i n c En Ec.
    rewrite list_lookup_fmap, Ec in En. injection En as <-. destruct (below_full has cs i c Hb Ec) as [Hb1 Hb2].
    apply Href; try done; [apply (proper_child cs i); [by constructor|done]|]. intros Hcc Hs.
    apply (IH i); try done; [|by intros ->; inversion Hcc].
    destruct (decide (i = 16%nat)) as [->|]; [|apply lookup_lt_Some in Ec; lia].
    destruct (Hlast c Ec) as (v & -> & _); [by intros ->; inversion Hcc|]. inversion Hcc.
Qed.

Lemma thash_range t : 0 <= thash t < 2 ^ 256.
Proof. apply keccak_range. Qed.

Lemma BytesToHash_Bytes z : 0 <= z < 2 ^ 256 -> BytesToHash (hash_Bytes z) = z.
Proof.
  intros Hz. unfold BytesToHash, hash_Bytes. rewrite Wire.be_val_bytes. change (8 * Z.of_nat 32) with 256. rewrite (Z.mod_small z) by done. by apply Z.mod_small.
Qed.

Lemma resolveHash_stored t g prefix : stored t ->
  resolveHash d g (hash_Bytes (thash t)) prefix = Ok (inr (dnode (Some (hash_Bytes (thash t))) g t)).
Proof.
  intros [[Hc Hn] _]. unfold resolveHash. rewrite BytesToHash_Bytes by apply thash_range. rewrite Hn. cbn [rbind].
  by destruct Hc.
Qed.

(** A loaded node in the place of its hash. *)
Lemma rep_loaded r t g : stored t -> r = true \/ big t = true -> rep r (dnode (Some (hash_Bytes (thash t))) g t) t.
Proof. intros [Hh Hb] Hr. by apply rep_dnode; [apply Hh|..]. Qed.

Definition is_hash (n : node) : bool := match n with hashNode _ => true | _ => false end.

(** Hash nodes take a turn without using up the key. *)
Definition weight (n : node) : nat := if is_hash n then 1 else 0.

Lemma weight_le n : (weight n <= 1)%nat.
Proof. unfold weight. destruct (is_hash n); lia. Qed.

Lemma weight_dnode h g t : canon t -> weight (dnode h g t) = O.
Proof. by intros []. Qed.

Lemma rep_is_nil r n t : rep r n t -> is_nil n = is_empty t.
Proof. inversion 1 as [| | | |? ? [[Hc _] _]]; subst; try done. by destruct Hc. Qed.

Lemma rep_value_inv r n v : rep r n (Value v) -> n = valueNode v.
Proof. inversion 1 as [| | | |? ? [[Hc _] _]]; subst; [done|inversion Hc]. Qed.

(** ** Reading *)
Definition valid_at (t : tree) (rest : bytes) : Prop :=
  match t with Empty => True | Value _ => rest = [] | _ => hex_key rest end.

Lemma tryGet_spec fuel : forall g r n t key pos, rep r n t -> proper t -> valid_at t (drop pos key) ->
  (2 * length (drop pos key) + weight n < fuel)%nat ->
  exists n' b, tryGet d g fuel n key pos = Ok (tlookup t (drop pos key), n', b, None) /\ rep r n' t.
Proof.
  induction fuel as [|fuel IH]; intros g r n t key pos Hr Hp Hv Hf; [lia|]. cbn [tryGet].
  destruct Hr as [r|r v|r k n c f Hn Hfl|r ns cs f Hl Hns Hfl|r t Hst Hb].
  - exists nilNode, false. split; [done|constructor].
  - exists (valueNode v), false. cbn [valid_at] in Hv. rewrite Hv. split; [done|constructor].
  - cbn [valid_at] in Hv. cbn [tlookup].
    assert (length (drop pos key) = (length key - pos)%nat) as Hlen by apply length_drop.
    assert (pos < length key)%nat as Hpos.
    { apply hex_nonempty in Hv. destruct (decide (pos < length key)%nat); [done|]. by rewrite drop_ge in Hv by lia. }
    replace (Z.of_nat (length key) - Z.of_nat pos) with (Z.of_nat (length (drop pos key))) by lia.
    rewrite match_after. destruct (after k (drop pos key)) as [rest|] eqn:E.
    2:{ exists (shortNode k n f), false. split; [done|by constructor]. }
    apply after_Some in E. assert (drop (pos + length k) key = rest) as Er by (rewrite <- drop_drop, E; apply drop_app_length).
    assert (proper c /\ valid_at c rest /\ k <> []) as (Hpc & Hvc & Hk).
    { destruct Hp as [Hp|[[v Hp]|Hp]]; [done..|]. rewrite E in Hv. inversion Hp as [ms v Hm Hvv _|ms cs Hne Hm Hc|]; subst.
      - split_and!; [right; left; by exists v| |by destruct ms]. apply (hex_leaf ms); [done|]. by rewrite <- app_assoc in Hv.
      - split_and!; [right; by right| |done]. by apply hex_app_inv in Hv. }
    destruct (IH g false n c key (pos + length k)%nat) as (n' & b & -> & Hn'); [done|done|by rewrite Er| |].
    { rewrite Er. rewrite E, length_app in Hf. pose proof (weight_le n). destruct k; [done|simpl in Hf; lia]. }
    cbn [rbind mbind option_bind]. rewrite Er. exists (if b then shortNode k n' (with_gen g f) else shortNode k n f), b.
    split; [done|]. destruct b; constructor; auto using flag_ok_gen.
  - cbn [valid_at] in Hv. destruct (drop pos key) as [|x rest] eqn:E; [by apply hex_nonempty in Hv|].
    assert (key !! pos = Some x) as Ex by (rewrite <- (Nat.add_0_r pos), <- lookup_drop, E; done).
    assert (drop (pos + 1) key = rest) as Er by (rewrite <- drop_drop, E; done).
    pose proof (hex_digit x rest Hv) as Hx. destruct Hp as [Hp|[[v Hp]|Hp]]; [done..|].
    destruct (canon_full_inv cs Hp) as (Hlen & Hcs & Hlast). destruct (lookup_lt_is_Some_2 cs (Z.to_nat x)) as [c Ec]; [lia|].
    destruct (lookup_lt_is_Some_2 ns (Z.to_nat x)) as [n En]; [lia|].
    unfold go_index at 1. rewrite (proj2 (Z.ltb_ge _ _)), Nat2Z.id, Ex by lia. cbn [deref rbind].
    unfold go_index at 1. rewrite (proj2 (Z.ltb_ge _ _)), En by lia. cbn [deref rbind].
    destruct (IH g false n c key (pos + 1)%nat) as (n' & b & E' & Hn'); [by apply (Hns (Z.to_nat x))|by apply (proper_child cs (Z.to_nat x))| | |].
    { rewrite Er. apply hex_cons in Hv as [[Hx' Hk]|[-> ->]].
      - destruct (proper_child cs _ c Hp Ec) as [->|[[v ->]|Hc]]; [done| |by destruct Hc].
        exfalso. unfold is_nibble in Hx'. assert (canon (Value v)) as Hcv by (apply (Hcs (Z.to_nat x)); [lia|done..]). inversion Hcv.
      - destruct (decide (c = Empty)) as [->|Hne]; [done|]. by destruct (Hlast c Ec Hne) as (v & -> & _). }
    { rewrite Er. cbn [length] in Hf. pose proof (weight_le n). lia. }
    rewrite E'. cbn [rbind]. rewrite Er, (tlookup_full cs x rest c Ec).
    exists (if b then fullNode (<[Z.to_nat x := n']> ns) (with_gen g f) else fullNode ns f), b. split; [done|].
    destruct b; [|by constructor]. constructor; [by rewrite length_insert| |by apply flag_ok_gen]. intros i n0 c0 E0 Ec0.
    destruct (decide (i = Z.to_nat x)) as [->|]; [|rewrite list_lookup_insert_ne in E0 by done; by apply (Hns i)].
    rewrite list_lookup_insert_eq in E0 by lia. injection E0 as <-. by replace c0 with c by congruence.
  - rewrite resolveHash_stored by done. cbn [rbind]. destruct Hst as [[Hc Hn] Hbl].
    destruct (IH g r (dnode (Some (hash_Bytes (thash t))) g t) t key pos) as (n' & b & -> & Hn'); [by apply rep_loaded|done..| |].
    { rewrite weight_dnode by done. unfold weight in Hf. simpl in Hf. lia. }
    exists n', true. by split.
Qed.
(** ** Inserting *)
Definition changed (t : tree) (key : bytes) (o : option bytes) (t' : tree) : Prop :=
  forall k, hex_key k -> tlookup t' k = if decide (k = key) then o else tlookup t k.
Abbreviation updated t key v t' := (changed t key (Some v) t').
Abbreviation removed t key t' := (changed t key None t').

Definition inserts (r : bool) (t : tree) (key v : bytes) (o : res (bool * node * option trieErr)) : Prop :=
  exists dirty n' t', o = Ok (dirty, n', None) /\ rep r n' t' /\ canon t' /\ updated t key v t' /\ (dirty = false -> t' = t).

Lemma updated_leaf key v : updated Empty key v (Short key (Value v)).
Proof.
  intros k _. destruct (decide (k = key)) as [->|Hne]; [apply tlookup_leaf|].
  destruct (tlookup (Short key (Value v)) k) as [w|] eqn:E; [|done]. apply short_prefix in E as (l & -> & El).
  destruct l; [|done]. by rewrite app_nil_r in Hne.
Qed.

(** Changing what is below the key of a node. *)
Lemma changed_under k c key o c' : nibbles k -> changed c key o c' -> changed (Short k c) (k ++ key) o (Short k c').
Proof.
  intros Hk Hu k0 Hk0. cbn [tlookup]. destruct (after k k0) as [l|] eqn:E; cbn [mbind option_bind].
  - apply after_Some in E as ->. rewrite Hu by (by apply hex_app_inv in Hk0).
    destruct (decide (l = key)) as [->|Hne]; [by rewrite decide_True|]. rewrite decide_False; [done|]. by intros ->%app_inv_head.
  - rewrite decide_False; [done|]. intros ->. by rewrite after_app in E.
Qed.

(** Changing one child of a full node. *)
Lemma changed_child cs x c key o c' : length cs = 17%nat -> digit x -> cs !! Z.to_nat x = Some c ->
  (forall l, hex_key (x :: l) -> tlookup c' l = if decide (l = key) then o else tlookup c l) ->
  changed (Full cs) (x :: key) o (Full (<[Z.to_nat x := c']> cs)).
Proof.
  intros Hl Hx Ec Hu [|z k] Hk; [by apply hex_nonempty in Hk|].
  rewrite tlookup_insert by (done || by eapply hex_digit). destruct (decide (z = x)) as [->|].
  - rewrite Hu, (tlookup_full cs x k c Ec) by done.
    destruct (decide (k = key)) as [->|]; [by rewrite decide_True|]. rewrite decide_False by congruence. done.
  - rewrite decide_False by congruence. done.
Qed.

Lemma updated_fork p x key y k c v : hex_key (p ++ x :: key) -> nibbles p -> x <> y -> digit x -> digit y ->
  updated (Short (p ++ y :: k) c) (p ++ x :: key) v (under p (fork y (under k c) x (under key (Value v)))).
Proof.
  intros Hkey Hp Hne Hx Hy k0 Hk0. rewrite tlookup_under. cbn [tlookup]. rewrite after_cat.
  destruct (after p k0) as [l|] eqn:E; cbn [mbind option_bind].
  2:{ rewrite decide_False; [done|]. intros ->. by rewrite after_app in E. }
  apply after_Some in E as ->. apply hex_app_inv in Hk0; [|done]. destruct l as [|z l]; [by apply hex_nonempty in Hk0|].
  rewrite tlookup_fork by (done || by eapply hex_digit). cbn [after]. rewrite !tlookup_under. destruct (decide (z = x)) as [->|Hzx].
  - rewrite (proj2 (Z.eqb_neq y x)) by done. destruct (after key l) as [rest|] eqn:El; cbn [mbind option_bind tlookup].
    + apply after_Some in El as ->. destruct rest as [|]; [by rewrite app_nil_r, decide_True|].
      rewrite decide_False; [done|]. intros E%app_inv_head. injection E as E. rewrite <- (app_nil_r key) in E at 2.
      by apply app_inv_head in E.
    + rewrite decide_False; [done|]. intros E%app_inv_head. injection E as ->. by rewrite after_self in El.
  - rewrite (decide_False (P := p ++ z :: l = _)) by (intros E%app_inv_head; congruence).
    destruct (decide (z = y)) as [->|]; [by rewrite Z.eqb_refl|]. by rewrite (proj2 (Z.eqb_neq y z)).
Qed.

(** The value at the end of a key. *)
Lemma insert_end fuel g prefix n c v : rep false n c -> c = Empty \/ (exists w, c = Value w) ->
  exists dirty, insert d g (S fuel) n prefix [] (valueNode v) = Ok (dirty, valueNode v, None) /\ (dirty = false -> c = Value v).
Proof.
  intros Hn Hc. cbn [insert]. destruct Hc as [->|[w ->]].
  - exists true. split; [|done]. inversion Hn as [| | | |? ? [[Hc _] _]]; subst; [done|inversion Hc].
  - apply rep_value_inv in Hn as ->. exists (negb (bytes_eqb w v)). split; [done|]. intros E%negb_false_iff%bytes_eqb_eq. by subst.
Qed.

(** Inserting below nil. *)
Definition nunder (g : Z) (k : bytes) (n : node) : node := match k with [] => n | _ => shortNode k n (newFlag g) end.

Lemma insert_nil fuel g prefix key n : insert d g (S fuel) nilNode prefix key n = Ok (true, nunder g key n, None).
Proof. by destruct key. Qed.

Lemma rep_under g k n c : rep false n c -> rep false (nunder g k n) (under k c).
Proof. intros Hn. destruct k; [done|]. constructor; [done|apply flag_ok_new]. Qed.

Lemma rep_insert r g ns cs x n c : length ns = length cs ->
  (forall i n c, ns !! i = Some n -> cs !! i = Some c -> rep false n c) -> rep false n c ->
  rep r (fullNode (<[x := n]> ns) (newFlag g)) (Full (<[x := c]> cs)).
Proof.
  intros Hl Hns Hn. constructor; [by rewrite !length_insert| |apply flag_ok_new]. intros i n0 c0 En Ec.
  destruct (decide (i = x)) as [->|]; [|rewrite list_lookup_insert_ne in En by done; rewrite list_lookup_insert_ne in Ec by done; by apply (Hns i)].
  pose proof (lookup_lt_Some _ _ _ En) as Hlt. rewrite length_insert in Hlt.
  rewrite list_lookup_insert_eq in En by lia. rewrite list_lookup_insert_eq in Ec by lia. congruence.
Qed.

Lemma canon_node_key k c : canon (Short k c) -> node_key k.
Proof. inversion 1; subst; [right; by exists ns|by left]. Qed.

Lemma go_index_app (p : bytes) x l : go_index (p ++ x :: l) (Z.of_nat (length p)) = Ok x.
Proof. unfold go_index. rewrite (proj2 (Z.ltb_ge _ _)), Nat2Z.id, lookup_app_r, Nat.sub_diag by lia. done. Qed.

Lemma drop_past (p : bytes) x l : drop (length p + 1) (p ++ x :: l) = l.
Proof. rewrite <- drop_drop, drop_app_length. done. Qed.

(** Two short nodes whose keys differ are put below a full node. *)
Lemma insert_split fuel g r prefix k n c f key v : canon (Short k c) -> rep false n c -> hex_key key -> v <> [] -> Forall is_byte v ->
  prefixLen key k <> length k -> inserts r (Short k c) key v (insert d g (S (S fuel)) (shortNode k n f) prefix key (valueNode v)).
Proof.
  intros Hc Hn Hkey Hv Hb Hne. destruct (split_keys key k) as (p & x & key' & y & k' & Ekey & Ek & Ep & Hxy & Hp); [done|by eapply canon_node_key|done|].
  assert (hex_key (x :: key')) as Hkx by (apply (hex_app_inv p); [done|by rewrite <- Ekey]).
  assert (fits_at x (under key' (Value v))) as Hfx by (by apply fits_leaf).
  assert (fits_at y (under k' c)) as Hfy by (apply (fits_rest p); by rewrite <- Ek).
  pose proof (fits_digit _ _ Hfx) as Hdx. pose proof (fits_digit _ _ Hfy) as Hdy.
  remember (S fuel) as fuel' eqn:Ef. cbn [insert].
  destruct key as [|x0 key0] eqn:E0; [by apply hex_nonempty in Hkey|]. rewrite <- E0 in *. clear E0 x0 key0. subst fuel'.
  rewrite (proj2 (Nat.eqb_neq _ _) Hne), <- Ep, Ek, go_index_app. cbn [rbind]. rewrite drop_past, insert_nil. cbn [rbind].
  unfold go_store. unfold digit in *. rewrite (proj2 (Z.ltb_ge y 0)), length_replicate, (proj2 (Z.leb_gt _ y)) by (simpl; lia). cbn [orb rbind].
  rewrite Ekey, go_index_app. cbn [rbind]. rewrite drop_past, insert_nil. cbn [rbind].
  rewrite (proj2 (Z.ltb_ge x 0)), length_insert, length_replicate, (proj2 (Z.leb_gt _ x)) by (simpl; lia). cbn [orb rbind].
  rewrite take_app_length. eexists true, _, (under p (fork y (under k' c) x (under key' (Value v)))). split_and!; [reflexivity| |by apply canon_under; [|apply canon_fork]| |done].
  - assert (forall r', rep r' (fullNode (<[Z.to_nat x:=nunder g key' (valueNode v)]> (<[Z.to_nat y:=nunder g k' n]> (replicate 17 nilNode))) (newFlag g))
      (fork y (under k' c) x (under key' (Value v)))) as Hrep.
    { intros r'. apply rep_insert; [by rewrite !length_insert, !length_replicate| |apply rep_under; constructor].
      assert (rep false (fullNode (<[Z.to_nat y:=nunder g k' n]> (replicate 17 nilNode)) (newFlag g))
        (Full (<[Z.to_nat y:=under k' c]> (replicate 17 Empty)))) as Hrep'; [|by inversion Hrep'].
      apply rep_insert; [by rewrite !length_replicate| |by apply rep_under].
      intros i n0 c0 [-> _]%lookup_replicate [-> _]%lookup_replicate. constructor. }
    destruct p; [done|]. constructor; [done|apply flag_ok_new].
  - apply updated_fork; try done. by rewrite <- Ekey.
Qed.

(** A key that goes on below a node. *)
Lemma prefix_rest key k : prefixLen key k = length k -> exists rest, key = k ++ rest.
Proof.
  intros E. destruct (prefixLen_spec key k) as (H1 & H2 & H3 & _). rewrite E in H3. rewrite (take_ge k) in H3 by lia.
  exists (drop (length k) key). rewrite <- H3 at 1. by rewrite take_drop.
Qed.

Lemma forks_updated t key v t' : updated t key v t' -> forks t -> forks t'.
Proof.
  intros Hu (x & y & k & l & a & b & Hne & Hk & Hl & Ha & Hb).
  exists x, y, k, l, (if decide (x :: k = key) then v else a), (if decide (y :: l = key) then v else b).
  split_and!; try done; rewrite Hu by done; by destruct (decide _).
Qed.

(** A node is replaced when the one below it changed. *)
Lemma inserts_turn r t key v (dt : bool) n n' t' o : o = Ok (if dt then (true, n', None) else (false, n, None)) ->
  rep r n t -> canon t -> rep r n' t' -> canon t' -> updated t key v t' -> (dt = false -> t' = t) -> inserts r t key v o.
Proof.
  intros -> Hn Hc Hn' Hc' Hu Hd. destruct dt; [by exists true, n', t'|]. rewrite (Hd eq_refl) in Hu. by exists false, n, t.
Qed.

(** The induction hypothesis of the lemmas below. *)
Definition insert_ok (fuel : nat) : Prop := forall g r n t prefix key v, rep r n t -> wf t -> hex_key key ->
  v <> [] -> Forall is_byte v -> (2 * length key + weight n < fuel)%nat -> inserts r t key v (insert d g fuel n prefix key (valueNode v)).

Lemma insert_short fuel g r prefix k n c f key v : insert_ok fuel -> canon (Short k c) -> rep false n c -> flag_ok r f (Short k c) ->
  hex_key key -> v <> [] -> Forall is_byte v -> (2 * length key < S fuel)%nat ->
  inserts r (Short k c) key v (insert d g (S fuel) (shortNode k n f) prefix key (valueNode v)).
Proof.
  intros IH Hc Hn Hfl Hkey Hv Hb Hf. destruct (decide (prefixLen key k = length k)) as [Em|Hne].
  2:{ destruct fuel; [|by apply insert_split]. apply hex_nonempty in Hkey. destruct key; [done|simpl in Hf; lia]. }
  destruct (prefix_rest key k Em) as [rest Er]. cbn [insert].
  destruct key as [|x0 key0] eqn:E0; [by apply hex_nonempty in Hkey|]. rewrite <- E0 in *. clear E0 x0 key0.
  assert (drop (length k) key = rest) as Edrop by (by rewrite Er, drop_app_length).
  rewrite Em, Nat.eqb_refl, Edrop. rewrite Er in Hkey, Hf. clear Edrop.
  inversion Hc as [ns w Hm Hw Hbw|ns cs Hne Hm Hcs|]; subst c k.
  - assert (rest = []) as -> by (apply (hex_leaf ns); [done|]; by rewrite <- app_assoc in Hkey).
    rewrite app_nil_r in Er. subst key. destruct fuel as [|fuel]; [rewrite !length_app in Hf; simpl in Hf; lia|].
    destruct (insert_end fuel g (prefix ++ take (length (ns ++ [16])) (ns ++ [16])) n (Value w) v) as (dt & -> & Hd); [done|eauto|]. cbn [rbind].
    assert (updated (Short (ns ++ [16]) (Value w)) (ns ++ [16]) v (Short (ns ++ [16]) (Value v))) as Hu.
    { intros k0 Hk0. rewrite updated_leaf by done. destruct (decide (k0 = _)) as [|Hne]; [done|].
      symmetry. rewrite (updated_leaf (ns ++ [16]) w k0) by done. by rewrite decide_False. }
    eapply (inserts_turn r _ _ _ dt); [by destruct dt|by constructor|by constructor|
      constructor; [constructor|apply flag_ok_new]|by constructor|done|]. intros E. by injection (Hd E) as ->.
  - rewrite length_app in Hf. pose proof (weight_le n) as Hw.
    destruct (IH g false n (Full cs) (prefix ++ take (length ns) key) rest v) as (dt & n' & t' & -> & Hn' & Hc' & Hu & Hd);
      [done|by intros _|by apply (hex_app_inv ns)|done|done|destruct ns; [done|simpl in Hf; lia]|].
    cbn [rbind]. destruct (forks_full t') as [cs' ->]; [done|by eapply forks_updated, full_forks|].
    rewrite Er. eapply (inserts_turn r _ _ _ dt); [by destruct dt|by constructor|by constructor|
      constructor; [done|apply flag_ok_new]|by constructor|by apply changed_under|]. intros E. by injection (Hd E) as ->.
Qed.

Lemma go_index_Some {A} (l : list A) x a : 0 <= x -> l !! Z.to_nat x = Some a -> go_index l x = Ok a.
Proof. intros Hx E. unfold go_index. by rewrite (proj2 (Z.ltb_ge _ _)), E by lia. Qed.

(** The child of a full node that a key leads to. *)
Lemma full_child ns cs x key : canon (Full cs) -> length ns = length cs ->
  (forall i n c, ns !! i = Some n -> cs !! i = Some c -> rep false n c) -> hex_key (x :: key) ->
  exists n c, ns !! Z.to_nat x = Some n /\ cs !! Z.to_nat x = Some c /\ rep false n c /\ digit x /\
    ((is_nibble x /\ hex_key key /\ wf c) \/ (x = 16 /\ key = [] /\ (c = Empty \/ exists v, c = Value v))).
Proof.
  intros Hc Hl Hns Hk. pose proof (hex_digit x key Hk) as Hx. destruct (canon_full_inv cs Hc) as (Hlen & Hcs & Hlast).
  destruct (lookup_lt_is_Some_2 cs (Z.to_nat x)) as [c Ec]; [lia|]. destruct (lookup_lt_is_Some_2 ns (Z.to_nat x)) as [n En]; [lia|].
  exists n, c. split_and!; try done; [by apply (Hns (Z.to_nat x))|]. apply hex_cons in Hk as [[Hn Hk]|[-> ->]]; [left|right].
  - split_and!; [done..|]. intros Hne. apply (Hcs (Z.to_nat x)); [unfold is_nibble in Hn; lia|done..].
  - split_and!; [done..|]. destruct (decide (c = Empty)) as [|Hne]; [by left|right]. destruct (Hlast c Ec Hne) as (v & -> & _). by exists v.
Qed.

Lemma insert_full fuel g r prefix ns cs f key v : insert_ok fuel -> canon (Full cs) -> length ns = length cs ->
  (forall i n c, ns !! i = Some n -> cs !! i = Some c -> rep false n c) -> flag_ok r f (Full cs) ->
  hex_key key -> v <> [] -> Forall is_byte v -> (2 * length key < S fuel)%nat ->
  inserts r (Full cs) key v (insert d g (S fuel) (fullNode ns f) prefix key (valueNode v)).
Proof.
  intros IH Hc Hl Hns Hfl Hkey Hv Hb Hf. destruct key as [|x rest]; [by apply hex_nonempty in Hkey|].
  destruct (full_child ns cs x rest) as (n & c & En & Ec & Hn & Hx & Hcase); [done..|]. cbn [insert].
  assert (0 <= x) as Hx0 by (unfold digit in Hx; lia). rewrite (go_index_Some ns x n Hx0 En). cbn [rbind].
  assert (length cs = 17%nat) as Hlen by apply (canon_full_inv cs Hc).
  assert (exists dt n' c', insert d g fuel n (prefix ++ [x]) rest (valueNode v) = Ok (dt, n', None) /\ rep false n' c' /\ fits_at x c' /\
    updated (Full cs) (x :: rest) v (Full (<[Z.to_nat x := c']> cs)) /\ (dt = false -> c' = c)) as (dt & n' & c' & -> & Hn' & Hfit & Hu & Hd).
  { destruct Hcase as [(Hx' & Hr & Hw)|(-> & -> & Hw)].
    - destruct (IH g false n c (prefix ++ [x]) rest v) as (dt & n' & c' & -> & Hn' & Hc' & Hu & Hd); try done.
      { cbn [length] in Hf. pose proof (weight_le n). lia. }
      exists dt, n', c'. split_and!; try done; [by left|]. apply (changed_child cs x c); try done.
      intros l Hlx. apply Hu. apply hex_cons in Hlx as [[_ ?]|[-> _]]; [done|unfold is_nibble in Hx'; lia].
    - destruct fuel as [|fuel]; [simpl in Hf; lia|]. destruct (insert_end fuel g (prefix ++ [16]) n c v Hn Hw) as (dt & -> & Hd).
      exists dt, (valueNode v), (Value v). split_and!; [done|constructor|right; split; [done|by exists v]| |by intros ->%Hd].
      apply (changed_child cs 16 c); try done. intros l [[Hl' _]|[_ ->]]%hex_cons; [unfold is_nibble in Hl'; lia|done]. }
  cbn [rbind]. eapply (inserts_turn r _ _ _ dt); [by destruct dt|by constructor|done|by apply rep_insert|by apply canon_insert|done|].
  intros E. rewrite (Hd E). f_equal. by apply list_insert_id.
Qed.

Lemma insert_spec fuel : insert_ok fuel.
Proof.
  induction fuel as [|fuel IH]; intros g r n t prefix key v Hn Hw Hkey Hv Hb Hf; [lia|].
  destruct Hn as [r|r w|r k n c f Hn Hfl|r ns cs f Hl Hns Hfl|r t Hst Hr].
  - rewrite insert_nil. destruct key as [|x0 key0] eqn:E; [by apply hex_nonempty in Hkey|]. rewrite <- E in *.
    exists true, (shortNode key (valueNode v) (newFlag g)), (Short key (Value v)). split_and!; [by rewrite E| | | |done].
    + constructor; [constructor|apply flag_ok_new].
    + destruct Hkey as (ns & Hn & ->). by constructor.
    + apply updated_leaf.
  - exfalso. assert (canon (Value w)) as Hc by (by apply Hw). inversion Hc.
  - apply insert_short; try done; [by apply Hw|]. unfold weight in Hf. simpl in *. lia.
  - apply insert_full; try done; [by apply Hw|]. unfold weight in Hf. simpl in *. lia.
  - cbn [insert]. destruct key as [|x0 key0] eqn:E0; [by apply hex_nonempty in Hkey|]. rewrite <- E0 in *. clear E0 x0 key0.
    rewrite resolveHash_stored by done. cbn [rbind]. pose proof (proj1 (proj1 Hst)) as Hc.
    destruct (IH g r (dnode (Some (hash_Bytes (thash t))) g t) t prefix key v) as (dt & n' & t' & -> & Hn' & Hc' & Hu & Hd); try done.
    { by apply rep_loaded. }
    { rewrite weight_dnode by done. unfold weight in Hf. simpl in *. lia. }
    cbn [rbind]. eapply (inserts_turn r _ _ _ dt); [by destruct dt|by apply rep_loaded|done..].
Qed.

(** ** Deleting *)
Definition deletes (r : bool) (t : tree) (key : bytes) (o : res (bool * node * option trieErr)) : Prop :=
  exists dirty n' t', o = Ok (dirty, n', None) /\ rep r n' t' /\ wf t' /\ removed t key t' /\ (dirty = false -> t' = t) /\
    (dirty = true -> is_hash n' = false).

Lemma deletes_turn r t key (dt : bool) n n' t' o : o = Ok (if dt then (true, n', None) else (false, n, None)) ->
  rep r n t -> wf t -> rep r n' t' -> wf t' -> removed t key t' -> (dt = false -> t' = t) -> (dt = true -> is_hash n' = false) ->
  deletes r t key o.
Proof.
  intros -> Hn Hc Hn' Hc' Hu Hd Hh. destruct dt; [by exists true, n', t'|]. rewrite (Hd eq_refl) in Hu. by exists false, n, t.
Qed.

Lemma removed_absent t key : tlookup t key = None -> removed t key t.
Proof. intros E k Hk. by destruct (decide (k = key)) as [->|]. Qed.

(** Nothing is found under a key that leaves that of the node. *)
Lemma after_mismatch key k : prefixLen key k <> length k -> after k key = None.
Proof. intros Hne. destruct (after k key) as [l|] eqn:E; [|done]. apply after_Some in E as ->. by rewrite prefixLen_app in Hne. Qed.

(** The number of children of a full node. *)
Lemma single_child_spec ns : forall i p, 0 <= i -> -1 <= p ->
  (single_child ns i p = p /\ forall j n, ns !! j = Some n -> is_nil n = true) \/
  (single_child ns i p = -2 /\ exists j n, ns !! j = Some n /\ is_nil n = false /\
    (p <> -1 \/ exists k m, k <> j /\ ns !! k = Some m /\ is_nil m = false)) \/
  (p = -1 /\ exists j n, single_child ns i p = i + Z.of_nat j /\ ns !! j = Some n /\ is_nil n = false /\
    forall k m, ns !! k = Some m -> k <> j -> is_nil m = true).
Proof.
  induction ns as [|n ns IH]; intros i p Hi Hp; [by left|]. cbn [single_child]. destruct (is_nil n) eqn:En.
  - destruct (IH (i + 1) p) as [[-> H]|[[-> (j & m & Hj & Hm & H)]|[-> (j & m & -> & Hj & Hm & H)]]]; [lia..| | |].
    + left. split; [done|]. intros [|j] m E; [by injection E as <-|by eapply H].
    + right. left. split; [done|]. exists (S j), m. split_and!; try done. destruct H as [H|(k & m' & Hne & Hk & Hm')]; [by left|right].
      exists (S k), m'. split_and!; try done. lia.
    + right. right. split; [done|]. exists (S j), m. split_and!; try done; [lia|]. intros [|k] m' E Hne; [by injection E as <-|].
      apply (H k); [done|lia].
  - destruct (Z.eqb_spec p (-1)) as [->|Hne].
    + destruct (IH (i + 1) i) as [[-> H]|[[-> (j & m & Hj & Hm & H)]|[E _]]]; [lia..| | |lia].
      * right. right. split; [done|]. exists O, n. split_and!; try done; [lia|]. intros [|k] m E Hk; [done|]. by eapply H.
      * right. left. split; [done|]. exists (S j), m. split_and!; try done. right. by exists O, n.
    + right. left. split; [done|]. exists O, n. split_and!; try done. by left.
Qed.

(** A full node that may have lost its second child. *)
Record partial (ns : list node) (cs : list tree) : Prop := {
  pt_length : length cs = 17%nat;
  pt_rep : length ns = length cs /\ (forall i n c, ns !! i = Some n -> cs !! i = Some c -> rep false n c);
  pt_child : forall i c, cs !! i = Some c -> c <> Empty -> fits_at (Z.of_nat i) c
}.

Lemma partial_nil ns cs i n c : partial ns cs -> ns !! i = Some n -> cs !! i = Some c -> (is_nil n = true <-> c = Empty).
Proof. intros [_ [_ Hr] _] En Ec. rewrite (rep_is_nil _ _ _ (Hr i n c En Ec)). by destruct c. Qed.

Lemma fits_full cs : length cs = 17%nat -> (forall i c, cs !! i = Some c -> c <> Empty -> fits_at (Z.of_nat i) c) ->
  (exists i j t u, i <> j /\ cs !! i = Some t /\ cs !! j = Some u /\ t <> Empty /\ u <> Empty) -> canon (Full cs).
Proof.
  intros Hl Hf Htwo. constructor; [done| | |done].
  - intros i c Hi Ec Hc. destruct (Hf i c Ec Hc) as [[_ ?]|[? _]]; [done|lia].
  - intros c Ec Hc. destruct (Hf _ c Ec Hc) as [[Hn _]|[_ ?]]; [unfold is_nibble in Hn; lia|done].
Qed.

(** With one child only, a full node holds what its child does. *)
Lemma only_child ns cs j c : partial ns cs -> cs !! j = Some c -> (forall k b, cs !! k = Some b -> k <> j -> b = Empty) ->
  forall k, hex_key k -> tlookup (Full cs) k = tlookup (Short [Z.of_nat j] c) k.
Proof.
  intros Hp Ec Ho [|z k] Hk; [by apply hex_nonempty in Hk|]. pose proof (hex_digit z k Hk) as Hz.
  destruct (lookup_lt_is_Some_2 cs (Z.to_nat z)) as [b Eb]; [rewrite (pt_length _ _ Hp); lia|].
  rewrite (tlookup_full cs z k b Eb). cbn [tlookup after]. destruct (Z.eqb_spec (Z.of_nat j) z) as [<-|Hne].
  - cbn [mbind option_bind]. rewrite Nat2Z.id in Eb. congruence.
  - rewrite (Ho (Z.to_nat z) b Eb) by lia. done.
Qed.

Lemma rep_short_inv r n k c : rep r n (Short k c) -> is_hash n = false -> exists m f, n = shortNode k m f /\ rep false m c.
Proof. inversion 1; subst; [|done]. intros _. by eexists _, _. Qed.

(** What is known of the only child, loaded if it has to be. *)
Lemma resolve_child g n c prefix : rep false n c -> canon c ->
  exists n', resolve d g n prefix = Ok (inr n') /\ rep false n' c /\ is_hash n' = false.
Proof.
  intros Hn Hc. inversion Hn as [| |? k m c' f ? ? |? ? ? ? ? ? ?|? ? Hst Hb]; subst; try (eexists; split; [done|by split]); try by inversion Hc.
  eexists. split; [by apply resolveHash_stored|]. split; [by apply rep_loaded|]. by destruct Hc.
Qed.

(** A short node above a tree, with their keys joined. *)
Definition tjoin (k : bytes) (t : tree) : tree := match t with Short k' c => Short (k ++ k') c | _ => Short k t end.

Lemma canon_join k t : nibbles k -> k <> [] -> canon t -> canon (tjoin k t).
Proof.
  intros Hk Hne Hc. inversion Hc as [ns v Hn Hv Hb|ns cs Hne' Hn Hcs|]; subst; cbn [tjoin].
  - rewrite app_assoc. constructor; [by apply Forall_app|done..].
  - constructor; [by destruct k|by apply Forall_app|done].
  - by constructor.
Qed.

Lemma tlookup_join k t key : tlookup (tjoin k t) key = tlookup (Short k t) key.
Proof. destruct t; try done. cbn [tlookup tjoin]. rewrite after_cat. by destruct (after k key). Qed.

(** The node for it; [n'] is [n], loaded if it has to be. *)
Lemma rep_join r g k n n' t : rep false n t -> rep false n' t -> canon t -> is_hash n' = false ->
  rep r (match n' with shortNode k' m _ => shortNode (k ++ k') m (newFlag g) | _ => shortNode k n (newFlag g) end) (tjoin k t).
Proof.
  intros Hn Hn' Hc Hh. inversion Hn'; subst; try done; try (by inversion Hc); constructor; try done; apply flag_ok_new.
Qed.

Lemma reduce_spec g r ns cs prefix : partial ns cs -> (exists i c, cs !! i = Some c /\ c <> Empty) ->
  exists n' t', reduce d g ns prefix = Ok (true, n', None) /\ rep r n' t' /\ canon t' /\ same t' (Full cs) /\ is_hash n' = false.
Proof.
  intros Hp (i0 & c0 & E0 & Hc0). pose proof Hp as [Hlen [Hl Hr] Hch]. unfold reduce.
  assert (forall j n, ns !! j = Some n -> exists c, cs !! j = Some c) as Htree.
  { intros j n E. apply lookup_lt_is_Some_2. apply lookup_lt_Some in E. lia. }
  destruct (single_child_spec ns 0 (-1)) as [[-> Hnil]|[[-> (j & n & Ej & Hn & [?|(k & m & Hkj & Ek & Hm)])]|[_ (j & n & -> & Ej & Hn & Honly)]]]; try lia.
  - exfalso. destruct (lookup_lt_is_Some_2 ns i0) as [n E]; [apply lookup_lt_Some in E0; lia|].
    apply Hc0. by apply (partial_nil ns cs i0 n c0 Hp E E0), (Hnil i0).
  - cbn [Z.geb]. exists (fullNode ns (newFlag g)), (Full cs). split_and!; try done; [constructor; [done..|apply flag_ok_new]|].
    apply fits_full; [done..|]. destruct (Htree j n Ej) as [c Ec], (Htree k m Ek) as [e Ee]. exists j, k, c, e. split_and!; try done; intros ->.
    + apply (partial_nil ns cs j n Empty Hp Ej) in Ec as [_ Ec]. by rewrite Ec in Hn.
    + apply (partial_nil ns cs k m Empty Hp Ek) in Ee as [_ Ee]. by rewrite Ee in Hm.
  - rewrite Z.add_0_l. rewrite (proj2 (Z.geb_le _ _)) by lia. destruct (Htree j n Ej) as [c Ec].
    rewrite (go_index_Some ns _ n) by (rewrite ?Nat2Z.id; done || lia). cbn [rbind].
    assert (c <> Empty) as Hce by (intros ->; apply (partial_nil ns cs j n Empty Hp Ej) in Ec as [_ Ec]; by rewrite Ec in Hn).
    assert (forall k b, cs !! k = Some b -> k <> j -> b = Empty) as Ho.
    { intros k b Eb Hkj. destruct (lookup_lt_is_Some_2 ns k) as [m Em]; [apply lookup_lt_Some in Eb; lia|].
      apply (partial_nil ns cs k m b Hp Em Eb). by apply (Honly k). }
    pose proof (only_child ns cs j c Hp Ec Ho) as Hsame. pose proof (Hr j n c Ej Ec) as Hnc.
    destruct (Hch j c Ec Hce) as [[Hjn Hcc]|[Hj16 (v & -> & Hv & Hb)]].
    + rewrite (proj2 (Z.eqb_neq _ 16)) by (unfold is_nibble in Hjn; lia).
      destruct (resolve_child g n c prefix Hnc Hcc) as (n' & -> & Hn' & Hh). cbn [rbind].
      pose proof (rep_join r g [Z.of_nat j] n n' c Hnc Hn' Hcc Hh) as Hj. eexists _, (tjoin [Z.of_nat j] c).
      split_and!; [|exact Hj|apply canon_join; [by constructor|done..]| |by destruct n']; [by destruct n'|].
      intros k Hk. by rewrite tlookup_join, Hsame.
    + rewrite Hj16 in *. cbn [rbind Z.eqb Pos.eqb]. eexists _, (Short [16] (Value v)). split_and!; [done| | | |done].
      * constructor; [done|apply flag_ok_new].
      * by apply (canon_leaf []).
      * intros k Hk. by rewrite Hsame.
Qed.

Definition delete_ok (fuel : nat) : Prop := forall g r n t prefix key, rep r n t -> wf t -> hex_key key ->
  (2 * length key + weight n < fuel)%nat -> deletes r t key (delete d g fuel n prefix key).

(** Of two values below a fork one stays. *)
Lemma forks_removed t key t' : removed t key t' -> forks t -> t' <> Empty.
Proof.
  intros Hr (x & y & k & l & a & b & Hne & Hk & Hl & Ha & Hb) ->.
  destruct (decide (x :: k = key)) as [Ex|Ex].
  - specialize (Hr (y :: l) Hl). rewrite decide_False in Hr by congruence. by rewrite Hb in Hr.
  - specialize (Hr (x :: k) Hk). rewrite decide_False in Hr by done. by rewrite Ha in Hr.
Qed.

Lemma removed_leaf key v : removed (Short key (Value v)) key Empty.
Proof.
  intros k Hk. destruct (decide (k = key)) as [|Hne]; [done|]. symmetry. rewrite (updated_leaf key v k Hk). by rewrite decide_False.
Qed.

Lemma prefixLen_longer k rest : rest <> [] -> prefixLen (k ++ rest) k <> length (k ++ rest).
Proof. intros Hr. rewrite prefixLen_app, length_app. destruct rest; [done|simpl; lia]. Qed.

Lemma delete_short fuel g r prefix k n c f key : delete_ok fuel -> canon (Short k c) -> rep false n c -> flag_ok r f (Short k c) ->
  hex_key key -> (2 * length key < S fuel)%nat -> deletes r (Short k c) key (delete d g (S fuel) (shortNode k n f) prefix key).
Proof.
  intros IH Hc Hn Hfl Hkey Hf. cbn [delete]. destruct (prefixLen_spec key k) as (_ & Hle & _).
  destruct (decide (prefixLen key k = length k)) as [Em|Hne].
  2:{ rewrite (proj2 (Nat.ltb_lt _ _)) by lia. exists false, (shortNode k n f), (Short k c). split_and!; try done; [by constructor|by apply canon_wf|].
      apply removed_absent. cbn [tlookup]. by rewrite after_mismatch. }
  rewrite Em, Nat.ltb_irrefl. destruct (prefix_rest key k Em) as [rest Er].
  inversion Hc as [ns w Hm Hw Hbw|ns cs Hne Hm Hcs|]; subst c k.
  - assert (rest = []) as -> by (rewrite Er in Hkey; apply (hex_leaf ns); [done|]; by rewrite <- app_assoc in Hkey).
    rewrite app_nil_r in Er. subst key. rewrite Nat.eqb_refl. exists true, nilNode, Empty.
    split_and!; [done|constructor|by intros []|apply removed_leaf|done|done].
  - subst key. pose proof (hex_app_inv ns rest Hm Hkey) as Hrest.
    pose proof (prefixLen_longer ns rest (hex_nonempty _ Hrest)) as Hlen. rewrite Em in Hlen. rewrite (proj2 (Nat.eqb_neq _ _) Hlen).
    rewrite drop_app_length. rewrite length_app in Hf. pose proof (weight_le n) as Hw.
    destruct (IH g false n (Full cs) (prefix ++ take (length ns) (ns ++ rest)) rest) as (dt & n' & t' & -> & Hn' & Hc' & Hu & Hd & Hh);
      [done|by intros _|done|destruct ns; [done|simpl in Hf; lia]|].
    assert (canon t') as Hct by (by apply Hc', (forks_removed _ _ _ Hu), full_forks). cbn [rbind].
    apply (deletes_turn r _ _ dt (shortNode ns n f)
      (if dt then match n' with shortNode k' m _ => shortNode (ns ++ k') m (newFlag g) | _ => shortNode ns n' (newFlag g) end
       else shortNode ns n f) (if dt then tjoin ns t' else Short ns (Full cs)));
      [by destruct dt, n'|by apply rep_short|by apply canon_wf| | | | |]; destruct dt; try done.
    + apply (rep_join r g ns n' n' t'); auto.
    + by constructor.
    + by apply canon_wf, canon_join.
    + by apply canon_wf.
    + intros k0 Hk0. rewrite tlookup_join. by apply changed_under.
    + rewrite (Hd eq_refl) in Hu. by apply changed_under.
    + by destruct n'.
Qed.

(** The value at the end of a key. *)
Lemma delete_end fuel g prefix n c : rep false n c -> c = Empty \/ (exists w, c = Value w) ->
  exists dirty, delete d g (S fuel) n prefix [] = Ok (dirty, nilNode, None) /\ (dirty = false -> c = Empty).
Proof.
  intros Hn Hc. cbn [delete]. destruct Hc as [->|[w ->]].
  - exists false. split; [|done]. inversion Hn as [| | | |? ? [[Hc _] _]]; subst; [done|inversion Hc].
  - apply rep_value_inv in Hn as ->. by exists true.
Qed.

Lemma partial_insert ns cs x n c : canon (Full cs) -> length ns = length cs ->
  (forall i n c, ns !! i = Some n -> cs !! i = Some c -> rep false n c) -> digit x -> rep false n c ->
  (c <> Empty -> fits_at x c) -> partial (<[Z.to_nat x := n]> ns) (<[Z.to_nat x := c]> cs).
Proof.
  intros Hc Hl Hns Hx Hn Hf. destruct (canon_full_inv cs Hc) as (Hlen & Hcs & Hlast). split.
  - by rewrite length_insert.
  - pose proof (rep_insert false 0 ns cs (Z.to_nat x) n c Hl Hns Hn) as Hr. by inversion Hr.
  - intros i b Eb Hb. unfold digit in Hx. destruct (decide (i = Z.to_nat x)) as [->|].
    + rewrite list_lookup_insert_eq in Eb by lia. injection Eb as <-. rewrite Z2Nat.id by lia. by apply Hf.
    + rewrite list_lookup_insert_ne in Eb by done. pose proof (lookup_lt_Some _ _ _ Eb) as Hlt. destruct (decide (i = 16%nat)) as [->|].
      * right. split; [done|]. by apply Hlast.
      * left. split; [unfold is_nibble; lia|]. apply (Hcs i); [lia|done..].
Qed.

Lemma other_child cs x c : canon (Full cs) -> exists i b, <[x := c]> cs !! i = Some b /\ b <> Empty.
Proof.
  intros Hc. inversion Hc as [| |? _ _ _ (i & j & t & u & Hij & Hi & Hj & Ht & Hu)]; subst.
  destruct (decide (i = x)) as [->|]; [exists j, u|exists i, t]; by rewrite list_lookup_insert_ne by congruence.
Qed.

Lemma delete_full fuel g r prefix ns cs f key : delete_ok fuel -> canon (Full cs) -> length ns = length cs ->
  (forall i n c, ns !! i = Some n -> cs !! i = Some c -> rep false n c) -> flag_ok r f (Full cs) ->
  hex_key key -> (2 * length key < S fuel)%nat -> deletes r (Full cs) key (delete d g (S fuel) (fullNode ns f) prefix key).
Proof.
  intros IH Hc Hl Hns Hfl Hkey Hf. destruct key as [|x rest]; [by apply hex_nonempty in Hkey|].
  destruct (full_child ns cs x rest) as (n & c & En & Ec & Hn & Hx & Hcase); [done..|]. cbn [delete].
  assert (0 <= x) as Hx0 by (unfold digit in Hx; lia). change (go_index (x :: rest) 0) with (Ok x). cbn [rbind].
  rewrite (go_index_Some ns x n Hx0 En). cbn [rbind]. change (drop 1 (x :: rest)) with rest.
  assert (length cs = 17%nat) as Hlen by apply (canon_full_inv cs Hc).
  assert (exists dt n' c', delete d g fuel n (prefix ++ [x]) rest = Ok (dt, n', None) /\ rep false n' c' /\ (c' <> Empty -> fits_at x c') /\
    removed (Full cs) (x :: rest) (Full (<[Z.to_nat x := c']> cs)) /\ (dt = false -> c' = c)) as (dt & n' & c' & -> & Hn' & Hfit & Hu & Hd).
  { destruct Hcase as [(Hx' & Hr & Hw)|(-> & -> & Hw)].
    - destruct (IH g false n c (prefix ++ [x]) rest) as (dt & n' & c' & -> & Hn' & Hc' & Hu & Hd & _); try done.
      { cbn [length] in Hf. pose proof (weight_le n). lia. }
      exists dt, n', c'. split_and!; try done; [left; auto|]. apply (changed_child cs x c); try done.
      intros l Hlx. apply Hu. apply hex_cons in Hlx as [[_ ?]|[-> _]]; [done|unfold is_nibble in Hx'; lia].
    - destruct fuel as [|fuel]; [simpl in Hf; lia|]. destruct (delete_end fuel g (prefix ++ [16]) n c Hn Hw) as (dt & -> & Hd).
      exists dt, nilNode, Empty. split_and!; [done|constructor|done| |by intros ->%Hd].
      apply (changed_child cs 16 c); try done. intros l [[Hl' _]|[_ ->]]%hex_cons; [unfold is_nibble in Hl'; lia|done]. }
  cbn [rbind]. destruct dt.
  - destruct (reduce_spec g r (<[Z.to_nat x := n']> ns) (<[Z.to_nat x := c']> cs) prefix) as (n2 & t2 & -> & Hr2 & Hc2 & Hs & Hh);
      [by apply partial_insert|by apply other_child|].
    exists true, n2, t2. split_and!; try done; [by apply canon_wf|]. intros k Hk. rewrite Hs by done. by apply Hu.
  - exists false, (fullNode ns f), (Full cs). split_and!; try done; [by constructor|by apply canon_wf|].
    rewrite (Hd eq_refl), list_insert_id in Hu by done. done.
Qed.

Lemma delete_spec fuel : delete_ok fuel.
Proof.
  induction fuel as [|fuel IH]; intros g r n t prefix key Hn Hw Hkey Hf; [lia|].
  destruct Hn as [r|r w|r k n c f Hn Hfl|r ns cs f Hl Hns Hfl|r t Hst Hr].
  - exists false, nilNode, Empty. split_and!; try done; [constructor|by apply removed_absent].
  - exfalso. assert (canon (Value w)) as Hc by (by apply Hw). inversion Hc.
  - apply delete_short; try done; [by apply Hw|]. unfold weight in Hf. simpl in *. lia.
  - apply delete_full; try done; [by apply Hw|]. unfold weight in Hf. simpl in *. lia.
  - cbn [delete]. rewrite resolveHash_stored by done. cbn [rbind]. pose proof (proj1 (proj1 Hst)) as Hc.
    destruct (IH g r (dnode (Some (hash_Bytes (thash t))) g t) t prefix key) as (dt & n' & t' & -> & Hn' & Hc' & Hu & Hd & Hh); try done.
    { by apply rep_loaded. }
    { rewrite weight_dnode by done. unfold weight in Hf. simpl in *. lia. }
    cbn [rbind]. eapply (deletes_turn r _ _ dt); [by destruct dt|by apply rep_loaded|done..].
Qed.
End with_db.

End TrieMap.
