(* ===== verification/TrieHash.v ===== *)
(** * The hasher computes the root of the tree

    Hashing and committing leave the tree a trie stands for as it is.  The
    hash is that of the tree, whatever was cached, loaded or left in the
    database, and a commit leaves the whole tree in the database. *)
From S2P Require Import Prelude Wire EthMath StateDB Rlp RlpDecode RlpRaw TrieKeys TrieNode TrieTree TrieCodec Trie TrieMap.
#[local] Set Warnings "-register-all".

Module TrieHash.
Import Rlp RlpDecode TrieKeys TrieNode TrieTree TrieCodec Trie TrieMap.
Import EthMath(hash_Bytes, BytesToHash).

(** What a database promises on a set of encodings without collisions:
    [db_inv] is its invariant, [db_live] holds of a node that was just
    inserted.  Children are inserted before their parents. *)
Class NodeDBLaws (D : Type) `{Keccak, NodeDB D} (K : bytes -> Prop) := {
  db_inv : D -> Prop;
  db_live : Z -> D -> Prop;
  db_insert_spec : forall d t n, db_inv d -> canon t -> K (blob t) -> known_below K t -> below (has d) t ->
    simplifyNode n = Ok (rnode t) ->
    exists d', db_insert (thash t) (blob t) n d = Ok d' /\ db_inv d' /\ db_live (thash t) d' /\ has d' t /\
      (forall u, has d u -> has d' u)
}.

Section with_laws.
Context `{HK : Keccak, HKL : !KeccakLaw, HD : NodeDB D, HKn : !Known K, HL : !NodeDBLaws D K}.

Definition grows (d d' : D) : Prop := db_inv d' /\ forall u, has d u -> has d' u.

Lemma grows_refl d : db_inv d -> grows d d.
Proof. by split. Qed.

Lemma grows_trans a b c : grows a b -> grows b c -> grows a c.
Proof. intros [_ H1] [? H2]. split; auto. Qed.

Lemma stored_grows d d' t : grows d d' -> stored d t -> stored d' t.
Proof. intros [_ Hg] [Hh Hb]. split; [auto|]. by eapply below_mono. Qed.

Lemma flag_ok_grows d d' r f t : grows d d' -> flag_ok d r f t -> flag_ok d' r f t.
Proof. intros Hg [H1 H2]. split; [done|]. intros E. specialize (H2 E). destruct (hash f); [|done]. by eapply stored_grows. Qed.

Lemma rep_grows d d' r n t : grows d d' -> rep d r n t -> rep d' r n t.
Proof.
  intros Hg. induction 1 as [| |r k n c f _ IH Hf|r ns cs f Hl _ IH Hf|r t Hst Hb]; constructor; auto.
  - by eapply flag_ok_grows.
  - by eapply flag_ok_grows.
  - by eapply stored_grows.
Qed.

(** ** Storing one node *)
Lemma encodable_item i : encodable (to_value i) = true.
Proof.
  induction i as [b|l IH] using item_deep_ind; [done|]. cbn [to_value encodable]. apply forallb_forall. intros v Hv.
  apply in_map_iff in Hv as (i & <- & Hi). rewrite Forall_forall in IH. by apply IH, list_elem_of_In.
Qed.

Lemma encode_collapsed n t : collapses n t -> len (blob t) < 2 ^ 64 -> EncodeToBytes (node_value n) = Ok (Some (blob t)).
Proof. intros [_ ->] Hl. apply EncodeToBytes_spec; [apply encodable_item|done]. Qed.

Section hashing.
Variables hgen hlimit : Z.
Variable onleaf : option (bytes -> Z -> D -> res D).

(** What the callback on leaves may do to the database. *)
Hypothesis Hleaf : forall cb v h d, onleaf = Some cb -> db_inv d -> db_live h d -> exists d', cb v h d = Ok d' /\ grows d d'.

Definition in_db (commit : bool) (d : D) : option D := if commit then Some d else None.

(** The database grows in a commit, and stays otherwise. *)
Definition moves (commit : bool) (d d' : D) : Prop := grows d d' /\ (commit = false -> d' = d).

Lemma moves_refl c d : db_inv d -> moves c d d.
Proof. intros Hi. split; [by apply grows_refl|done]. Qed.

Lemma moves_then c d1 d2 d3 : moves c d1 d2 -> moves c d2 d3 -> moves c d1 d3.
Proof. intros [H1 E1] [H2 E2]. split; [by eapply grows_trans|]. intros Ec. by rewrite E2, E1. Qed.

Lemma leaf_callback_ok n h d : db_inv d -> db_live h d -> exists d', leaf_callback onleaf n h d = Ok d' /\ grows d d'.
Proof.
  intros Hi Hl. unfold leaf_callback. destruct onleaf as [cb|] eqn:E; [|exists d; split; [done|by apply grows_refl]].
  destruct n; try (exists d; split; [done|by apply grows_refl]). by eapply Hleaf.
Qed.

Lemma leaf_callbacks_none cs h d : Forall (fun c => is_value c = false) cs -> leaf_callbacks onleaf cs h d = Ok d.
Proof. induction 1 as [|c cs Hc _ IH]; [done|]. cbn [leaf_callbacks]. unfold leaf_callback. by destruct onleaf, c. Qed.

(** A node in the form that is stored: only a short node holds values. *)
Definition storable (n : node) (t : tree) : Prop :=
  collapses n t /\ (exists h dt, cache n = Ok (h, dt) /\ (h = None \/ h = Some (hash_Bytes (thash t)))) /\
  match n with shortNode _ _ _ => True | fullNode cs _ => Forall (fun c => is_value c = false) (take 16 cs) | _ => False end.

Lemma store_small n t db : storable n t -> is_branch t = true -> big t = false -> store onleaf n db false = Ok (n, db).
Proof.
  intros (Hc & _ & Hn) Hbr Hb. unfold big in Hb. rewrite Hbr in Hb. cbn [andb] in Hb. apply Nat.leb_gt in Hb.
  unfold store. rewrite (encode_collapsed n t) by (done || (cbv beta; lia)). cbn [rbind deref].
  rewrite (proj2 (Nat.ltb_lt _ _)) by done. by destruct n.
Qed.

Lemma store_big n t (c force : bool) d : storable n t -> canon t -> known_below K t -> force || big t = true -> K (blob t) -> db_inv d ->
  (c = true -> below (has d) t) ->
  exists d', store onleaf n (in_db c d) force = Ok (hashNode (hash_Bytes (thash t)), in_db c d') /\ moves c d d' /\ (c = true -> has d' t).
Proof.
  intros (Hc & (h & dt & Eh & Hh) & Hn) Hct Hkn Hfb HKb Hi Hbl. unfold store.
  rewrite (encode_collapsed n t Hc) by (by apply known_len). cbn [rbind deref].
  assert ((length (blob t) <? 32)%nat && negb force = false) as E.
  { destruct force; [apply andb_false_r|]. cbn [orb] in Hfb. unfold big in Hfb. apply andb_true_iff in Hfb as [_ Hfb].
    apply Nat.leb_le in Hfb. by rewrite (proj2 (Nat.ltb_ge _ _)). }
  assert (match h with Some h0 => h0 | None => makeHashNode (blob t) end = hash_Bytes (thash t)) as Eh' by (by destruct Hh as [->| ->]).
  assert (exists d', (if c then
      match db_insert (BytesToHash (hash_Bytes (thash t))) (blob t) n d with
      | Ok d0 => match n with
                 | shortNode _ val _ => leaf_callback onleaf val (BytesToHash (hash_Bytes (thash t))) d0
                 | fullNode cs _ => leaf_callbacks onleaf (take 16 cs) (BytesToHash (hash_Bytes (thash t))) d0
                 | _ => Ok d0
                 end
      | Panic => Panic
      end else Ok d) = Ok d' /\ moves c d d' /\ (c = true -> has d' t)) as (d' & Ed & Hg & Hh').
  { destruct c; [|exists d; split_and!; [done|by apply moves_refl|done]].
    rewrite BytesToHash_Bytes by apply thash_range.
    destruct (db_insert_spec d t n) as (d1 & -> & Hi1 & Hl1 & Hh1 & Hg1); [done..|by apply Hbl|apply Hc|].
    assert (grows d d1) as Hg by (by split). destruct n; try done.
    - destruct (leaf_callback_ok n (thash t) d1) as (d2 & -> & Hg2); [done..|]. exists d2.
      split_and!; [done|split; [by eapply grows_trans|done]|intros _; by apply Hg2].
    - rewrite leaf_callbacks_none by done. exists d1. split_and!; [done|by split|done]. }
  exists d'. split_and!; try done. destruct n; try done; rewrite E, Eh; cbn [rbind]; rewrite Eh'; destruct c; try done.
  all: cbn [in_db]; destruct (db_insert _ _ _ d) as [d0|]; [|done]; cbn [rbind]; by rewrite Ed.
Qed.

(** ** Hashing a tree *)

(** The first result: the hash of the tree, or its node in the form that is stored. *)
Definition hashed_as (r : bool) (h : node) (t : tree) : Prop :=
  if r || big t then h = hashNode (hash_Bytes (thash t)) else storable h t.

Definition hash_post (c r : bool) (d : D) (t : tree) (o : res (node * node * option D)) : Prop :=
  exists h n' d', o = Ok (h, n', in_db c d') /\ moves c d d' /\ hashed_as r h t /\ rep d' r n' t /\
    (c = true -> below (has d') t /\ (r || big t = true -> has d' t)).

Definition hash_ok (d : D) (r : bool) (n : node) (t : tree) : Prop :=
  canon t -> known_below K t -> (r || big t = true -> K (blob t)) -> forall c d1, grows d d1 ->
  hash_post c r d1 t (hash_node hgen hlimit onleaf n (in_db c d1) r).

(** Everything but the flags of a node. *)
Definition has_flags (n : node) (f : nodeFlag) : Prop :=
  match n with shortNode _ _ f' | fullNode _ f' => f' = f | _ => False end.
Definition set_flags (f : nodeFlag) (n : node) : node :=
  match n with shortNode k v _ => shortNode k v f | fullNode cs _ => fullNode cs f | _ => n end.

(** The end of [hash]: the collapsed node is stored, the hash goes to the flags of the cached one. *)
Lemma hash_finish c r d0 d1 t collapsed cached f : canon t -> known_below K t -> (r || big t = true -> K (blob t)) -> moves c d0 d1 ->
  storable collapsed t -> (c = true -> below (has d1) t) -> has_flags cached f ->
  (c = false -> dirty f = false -> r = false /\ big t = false) ->
  (forall d f', grows d1 d -> flag_ok d r f' t -> rep d r (set_flags f' cached) t) ->
  hash_post c r d0 t (let! (hashed, db) := store onleaf collapsed (in_db c d1) r in
                      Ok (hashed, cache_hash hashed (bool_decide (is_Some db)) cached, db)).
Proof.
  intros Ht Hkn HKb Hg Hs Hbl Hf Hdf Hrep.
  assert (forall hashed d, cache_hash hashed (bool_decide (is_Some (in_db c d))) cached =
    set_flags (mkFlag (match hashed with hashNode h => Some h | _ => None end) (gen f) (if c then false else dirty f)) cached) as Hcache.
  { intros hashed d. destruct cached; try done; cbn [has_flags] in Hf; subst; by destruct c. }
  destruct (r || big t) eqn:E.
  - destruct (store_big collapsed t c r d1) as (d2 & -> & Hg2 & Hh2); try done; [by apply HKb|apply Hg|]. cbn [rbind].
    rewrite Hcache. exists (hashNode (hash_Bytes (thash t))), (set_flags (mkFlag (Some (hash_Bytes (thash t))) (gen f) (if c then false else dirty f)) cached), d2.
    assert (c = true -> below (has d2) t) as Hbl2 by (intros Ec; eapply below_mono; [apply Hg2|by apply Hbl]).
    split_and!; [done|by eapply moves_then|unfold hashed_as; by rewrite E| |auto].
    apply Hrep; [apply Hg2|]. split.
    + intros h [= <-]. split; [done|]. apply orb_true_iff in E. done.
    + destruct c; [intros _; split; auto|]. cbn [dirty hash]. intros Ed. destruct (Hdf eq_refl Ed) as [-> Hb]. by rewrite Hb in E.
  - destruct r; [done|]. cbn [orb] in E. rewrite (store_small collapsed t) by (done || by apply canon_branch). cbn [rbind]. rewrite Hcache.
    assert (is_hash collapsed = false) as Hnh by (destruct Hs as (_ & _ & Hs); by destruct collapsed).
    eexists collapsed, _, d1. split_and!; [reflexivity|done|unfold hashed_as; by rewrite E| |].
    + apply Hrep; [by apply grows_refl, Hg|]. destruct collapsed; try done; by split.
    + intros Ec. split; [auto|]. cbn [orb]. by rewrite E.
Qed.

(** The flags let the walk be cut short. *)
Lemma hash_cached c r d d1 n t f : grows d d1 -> rep d r n t -> has_flags n f -> flag_ok d r f t ->
  (exists h, hash f = Some h /\ (c = false \/ dirty f = false)) -> 
  hash_post c r d1 t (hash_node hgen hlimit onleaf n (in_db c d1) r).
Proof.
  intros Hg Hn Hf [H1 H2] (h & Eh & Hcd). destruct (H1 h Eh) as [-> Hr].
  assert (r || big t = true) as E by (destruct Hr as [->| ->]; [done|apply orb_true_r]).
  assert (cache n = Ok (Some (hash_Bytes (thash t)), dirty f) /\ exists b, canUnload hgen hlimit n = Ok b) as [Ec [b Eu]].
  { destruct n; try done; cbn [has_flags] in Hf; subst; cbn [cache canUnload]; rewrite Eh; eauto. }
  assert (dirty f = false -> stored d1 t) as Hst.
  { intros Ed. specialize (H2 Ed). rewrite Eh in H2. by eapply stored_grows. }
  assert (forall n' c, rep d1 r n' t -> (c = true -> stored d1 t) ->
    hash_post c r d1 t (Ok (hashNode (hash_Bytes (thash t)), n', in_db c d1))) as Hpost.
  { intros n' c' Hn' Hs. exists (hashNode (hash_Bytes (thash t))), n', d1. split_and!; try done; [by apply moves_refl, Hg| |].
    - unfold hashed_as. by rewrite E.
    - intros Ec'. by destruct (Hs Ec'). }
  assert (rep d1 r n t) as Hn1 by (by eapply rep_grows).
  destruct n as [|k v f'|cs f'| | | | |]; try done; cbn [hash_node]; rewrite Ec; cbn [rbind]; destruct c; cbn [in_db] in *; cbn [rbind]; try (by apply (Hpost _ false)).
  all: rewrite Eu; cbn [rbind]; destruct Hcd as [|Hd]; [done|]; rewrite Hd; destruct b; apply (Hpost _ true); auto; by constructor; auto.
Qed.

(** Otherwise the children are walked. *)
Definition walks (c : bool) (f : nodeFlag) : Prop := hash f = None \/ (c = true /\ dirty f = true).

Lemma hash_short c k val f d r : walks c f ->
  hash_node hgen hlimit onleaf (shortNode k val f) (in_db c d) r =
  (let! (collapsed, cached, db) :=
     (let! ck := hexToCompact k in
      let! (cv, v, db) := (if is_value val then Ok (val, val, in_db c d) else hash_node hgen hlimit onleaf val (in_db c d) false) in
      Ok (shortNode ck cv f, shortNode k v f, db)) in
   let! (hashed, db) := store onleaf collapsed db r in
   Ok (hashed, cache_hash hashed (bool_decide (is_Some db)) cached, db)).
Proof.
  intros Hw. cbn [hash_node cache rbind]. destruct Hw as [->|[-> Ed]]; [done|]. cbn [in_db canUnload rbind].
  unfold flag_canUnload. rewrite Ed. by destruct (hash f).
Qed.

Lemma hash_full c ns f d r : walks c f ->
  hash_node hgen hlimit onleaf (fullNode ns f) (in_db c d) r =
  (let! (collapsed, cached, db) :=
     (let! (hs, cs', db) := hash_all (hash_node hgen hlimit onleaf) 16 ns (in_db c d) in
      Ok (fullNode hs f, fullNode cs' f, db)) in
   let! (hashed, db) := store onleaf collapsed db r in
   Ok (hashed, cache_hash hashed (bool_decide (is_Some db)) cached, db)).
Proof.
  intros Hw. cbn [hash_node cache rbind]. destruct Hw as [->|[-> Ed]]; [done|]. cbn [in_db canUnload rbind].
  unfold flag_canUnload. rewrite Ed. by destruct (hash f).
Qed.

Lemma walks_or_cached c f : walks c f \/ exists h, hash f = Some h /\ (c = false \/ dirty f = false).
Proof. unfold walks. destruct (hash f) as [h|]; [|by left; left]. destruct c, (dirty f); eauto 6. Qed.

(** What a parent sees of a child. *)
Lemma child_ref h c : is_branch c = true -> hashed_as false h c ->
  simplifyNode h = Ok (rref c) /\ node_value h = to_value (ref c) /\ is_nil h = false /\ is_value h = false.
Proof.
  intros Hb. unfold hashed_as, rref. cbn [orb]. rewrite ref_big. destruct (big c); [by intros ->|].
  intros ([Hr Hv] & _ & Hn). split_and!; try done; by destruct h.
Qed.

Lemma cache_flags n f h dt t : has_flags n f -> flag_ok h dt f t -> exists hh b, cache n = Ok (hh, b) /\ (hh = None \/ hh = Some (hash_Bytes (thash t))).
Proof.
  intros Hf [H1 _]. exists (hash f), (dirty f). split; [destruct n; try done; cbn [has_flags] in Hf; by subst|].
  destruct (hash f) as [hh|] eqn:E; [right|by left]. f_equal. by apply H1.
Qed.

(** A short node whose child has been hashed. *)
Lemma storable_short d r k f cv c : node_key k -> flag_ok d r f (Short k c) ->
  simplifyNode cv = Ok (rref c) -> node_value cv = to_value (ref c) -> storable (shortNode (compact k) cv f) (Short k c).
Proof.
  intros Hk Hf Hs Hv. split_and!; [|by eapply cache_flags|done]. split.
  - cbn [simplifyNode]. by rewrite Hs.
  - cbn [node_value]. by rewrite Hv.
Qed.

Lemma hash_walk_short d r k val c0 f : hash_ok d false val c0 -> rep d false val c0 -> flag_ok d r f (Short k c0) ->
  forall c d1, canon (Short k c0) -> known_below K (Short k c0) -> (r || big (Short k c0) = true -> K (blob (Short k c0))) ->
  grows d d1 -> walks c f -> hash_post c r d1 (Short k c0) (hash_node hgen hlimit onleaf (shortNode k val f) (in_db c d1) r).
Proof.
  intros IH Hval Hfl c d1 Hc [Hkn1 Hkn2] HKb Hg Hw. rewrite hash_short by done.
  destruct (compact_spec k) as [-> _]; [by eapply canon_node_key|]. cbn [rbind].
  assert (c = false -> dirty f = false -> r = false /\ big (Short k c0) = false) as Hdf.
  { intros -> Ed. pose proof (fl_clean _ _ _ _ Hfl Ed) as Hcl. destruct Hw as [E|[? _]]; [by rewrite E in Hcl|done]. }
  assert (exists cv v d2, (if is_value val then Ok (val, val, in_db c d1) else hash_node hgen hlimit onleaf val (in_db c d1) false) =
    Ok (cv, v, in_db c d2) /\ moves c d1 d2 /\ simplifyNode cv = Ok (rref c0) /\ node_value cv = to_value (ref c0) /\ rep d2 false v c0 /\
    (c = true -> below (has d2) (Short k c0))) as (cv & v & d2 & -> & Hg2 & Hs & Hv & Hr & Hbl).
  { inversion Hc as [ns w Hm Hw' Hb|ns cs Hne Hm Hcs|]; subst.
    - apply rep_value_inv in Hval as ->. exists (valueNode w), (valueNode w), d1.
      split_and!; try done; [by apply moves_refl, Hg|constructor].
    - assert (is_value val = false) as -> by (inversion Hval; by subst).
      destruct (IH Hcs Hkn2 Hkn1 c d1 Hg) as (h & v & d2 & -> & Hg2 & Hh & Hr & Hbl).
      destruct (child_ref h (Full cs)) as (? & ? & _ & _); [done..|].
      exists h, v, d2. split_and!; try done. intros Ec. destruct (Hbl Ec). split; auto. }
  cbn [rbind]. eapply hash_finish; [done|done|done|exact Hg2| |done|reflexivity|done|].
  - by eapply storable_short, Hv; [eapply canon_node_key| |].
  - intros d3 f' Hg3 Hf'. constructor; [by eapply rep_grows|done].
Qed.

(** *** Full nodes *)

(** A child of a full node, as its parent sees it after hashing. *)
Definition seen (h : node) (c : tree) : Prop :=
  (if is_nil h then Ok h else simplifyNode h) = Ok (rref c) /\
  (if is_nil h then VBytes [] else node_value h) = to_value (ref c) /\ is_value h = false.

Definition hashable (d : D) (n : node) (c : tree) : Prop :=
  rep d false n c /\ (c <> Empty -> canon c /\ known_below K c /\ (big c = true -> K (blob c)) /\ hash_ok d false n c).

Definition in_place (d : D) (c : tree) : Prop := (big c = true -> has d c) /\ below (has d) c.

Lemma hash_all_spec d c l cs tail : Forall2 (hashable d) l cs -> forall d1, grows d d1 ->
  exists hs l' d2, hash_all (hash_node hgen hlimit onleaf) (length l) (l ++ tail) (in_db c d1) = Ok (hs ++ tail, l' ++ tail, in_db c d2) /\
    moves c d1 d2 /\ Forall2 seen hs cs /\ Forall2 (rep d2 false) l' cs /\ (c = true -> Forall (in_place d2) cs).
Proof.
  induction 1 as [|n c0 l cs [Hn Hc0] _ IH]; intros d1 Hg.
  { exists [], [], d1. split_and!; [by destruct tail|by apply moves_refl, Hg|done..|by constructor]. }
  cbn [length app hash_all].
  assert (exists h n' d2, (if is_nil n then Ok (n, n, in_db c d1) else hash_node hgen hlimit onleaf n (in_db c d1) false) =
    Ok (h, n', in_db c d2) /\ moves c d1 d2 /\ seen h c0 /\ rep d2 false n' c0 /\ (c = true -> in_place d2 c0))
    as (h & n' & d2 & -> & Hg2 & Hs & Hn' & Hp).
  { rewrite (rep_is_nil _ _ _ _ Hn). destruct (decide (c0 = Empty)) as [->|Hne].
    - exists n, n, d1. inversion Hn as [| | | |? ? [[Hc _] _]]; subst; [|inversion Hc].
      split_and!; try done; [by apply moves_refl, Hg|constructor].
    - assert (is_empty c0 = false) as -> by (by destruct c0). destruct (Hc0 Hne) as (Hc & Hk & HKb & Hok).
      destruct (Hok Hc Hk HKb c d1 Hg) as (h & n' & d2 & -> & Hg2 & Hh & Hr & Hbl). exists h, n', d2.
      destruct (child_ref h c0) as (H1 & H2 & H3 & H4); [by apply canon_branch|done|].
      split_and!; try done; [unfold seen; by rewrite H3|]. intros Ec. destruct (Hbl Ec). by split. }
  cbn [rbind]. destruct (IH d2) as (hs & l' & d3 & -> & Hg3 & Hss & Hl' & Hps); [eapply grows_trans; [done|apply Hg2]|]. cbn [rbind].
  exists (h :: hs), (n' :: l'), d3. split_and!; [done|by eapply moves_then|by constructor| |].
  - constructor; [eapply rep_grows; [apply Hg3|done]|done].
  - intros Ec. constructor; [|by apply Hps]. destruct (Hp Ec) as [H1 H2]. split; [intros Eb; by apply Hg3, H1|].
    eapply below_mono; [apply Hg3|done].
Qed.

Lemma simplify_seen hs cs : Forall2 (fun h c => (if is_nil h then Ok h else simplifyNode h) = Ok (rref c)) hs cs -> forall f,
  simplifyNode (fullNode hs f) = Ok (rawFullNode (map rref cs)).
Proof.
  intros Hs f. cbn [simplifyNode]. induction Hs as [|h c hs cs E _ IH]; [done|]. rewrite E. cbn [rbind].
  lazymatch type of IH with rbind ?m _ = _ => destruct m as [l|]; [|done] end. cbn [rbind] in *. injection IH as ->. done.
Qed.

(** The last child is a value or nothing, and is not hashed. *)
Lemma seen_last d n c : rep d false n c -> c = Empty \/ (exists v, c = Value v) ->
  (if is_nil n then Ok n else simplifyNode n) = Ok (rref c) /\ (if is_nil n then VBytes [] else node_value n) = to_value (ref c).
Proof.
  intros Hn Hc. destruct Hc as [->|[v ->]]; [|by apply rep_value_inv in Hn as ->].
  inversion Hn as [| | | |? ? [[Hc _] _]]; subst; [done|inversion Hc].
Qed.

Lemma storable_full d r f hs cs : flag_ok d r f (Full cs) -> Forall (fun h => is_value h = false) (take 16 hs) ->
  Forall2 (fun h c => (if is_nil h then Ok h else simplifyNode h) = Ok (rref c)) hs cs ->
  Forall2 (fun h c => (if is_nil h then VBytes [] else node_value h) = to_value (ref c)) hs cs -> storable (fullNode hs f) (Full cs).
Proof.
  intros Hf Hnv Hs Hv. split_and!; [|by eapply cache_flags|done]. split.
  - by rewrite (simplify_seen hs cs).
  - cbn [node_value]. rewrite titem_full. cbn [to_value]. rewrite map_map. f_equal.
    clear -Hv. induction Hv as [|h c hs cs E _ IH]; [done|]. cbn [map]. by rewrite E, IH.
Qed.

Lemma Forall2_lookup_2 {A B} (P : A -> B -> Prop) l k : length l = length k ->
  (forall i a b, l !! i = Some a -> k !! i = Some b -> P a b) -> Forall2 P l k.
Proof. intros Hl Hp. apply Forall2_same_length_lookup. split; [done|]. intros i a b. apply Hp. Qed.

Lemma hash_walk_full d r ns cs f : length ns = length cs ->
  (forall i n c, ns !! i = Some n -> cs !! i = Some c -> rep d false n c /\ hash_ok d false n c) -> flag_ok d r f (Full cs) ->
  forall c d1, canon (Full cs) -> known_below K (Full cs) -> (r || big (Full cs) = true -> K (blob (Full cs))) ->
  grows d d1 -> walks c f -> hash_post c r d1 (Full cs) (hash_node hgen hlimit onleaf (fullNode ns f) (in_db c d1) r).
Proof.
  intros Hl Hns Hfl c d1 Hc Hkn HKb Hg Hw. rewrite hash_full by done. destruct (canon_full_inv cs Hc) as (Hlen & Hcs & Hlast).
  assert (c = false -> dirty f = false -> r = false /\ big (Full cs) = false) as Hdf.
  { intros -> Ed. pose proof (fl_clean _ _ _ _ Hfl Ed) as Hcl. destruct Hw as [E|[? _]]; [by rewrite E in Hcl|done]. }
  destruct (lookup_lt_is_Some_2 ns 16%nat) as [n16 En]; [lia|]. destruct (full_split cs Hlen) as (c16 & Ecs & Ec).
  assert (ns = take 16 ns ++ [n16]) as Ens by (rewrite <- (take_drop_middle ns 16 n16 En) at 1; rewrite drop_ge by lia; done).
  assert (length (take 16 ns) = 16%nat) as Hl16 by (rewrite length_take; lia).
  destruct (hash_all_spec d c (take 16 ns) (take 16 cs) [n16]) with (d1 := d1) as (hs & l' & d2 & E & Hg2 & Hseen & Hreps & Hplace); [|done|].
  { apply Forall2_lookup_2; [rewrite !length_take; lia|]. intros i n c0 [Ei Hi]%lookup_take_Some [Ei' _]%lookup_take_Some.
    destruct (Hns i n c0 Ei Ei') as [? ?]. split; [done|]. intros Hne. destruct (below_full _ cs i c0 Hkn Ei'). split_and!; try done. by apply (Hcs i). }
  rewrite Hl16, <- Ens in E. rewrite E. cbn [rbind].
  destruct (Hns _ _ _ En Ec) as [Hn16 _].
  assert (c16 = Empty \/ exists v, c16 = Value v) as Hc16.
  { destruct (decide (c16 = Empty)) as [|Hne]; [by left|right]. destruct (Hlast c16 Ec Hne) as (v & -> & _). by exists v. }
  destruct (seen_last d n16 c16 Hn16 Hc16) as [Hs1 Hs2]. pose proof (Forall2_length _ _ _ Hseen) as Hlh. rewrite length_take in Hlh.
  eapply hash_finish; [done|done|done|exact Hg2| | |reflexivity|done|].
  - apply (storable_full d r); [done| | |].
    + rewrite take_app_length' by lia. apply Forall_lookup. intros i h Ei.
      by destruct (Forall2_lookup_l _ _ _ _ _ Hseen Ei) as (c0 & _ & _ & _ & ?).
    + rewrite Ecs. apply Forall2_app; [|by constructor]. eapply Forall2_impl; [exact Hseen|]. by intros ? ? [].
    + rewrite Ecs. apply Forall2_app; [|by constructor]. eapply Forall2_impl; [exact Hseen|]. by intros ? ? (_ & ? & _).
  - intros Ect. apply below_full_intro. intros i c0 Ei. rewrite Ecs in Ei. apply lookup_app_Some in Ei as [Ei|[_ Ei]].
    + specialize (Hplace Ect). rewrite Forall_lookup in Hplace. exact (Hplace i c0 Ei).
    + apply list_lookup_singleton_Some in Ei as [_ <-]. by destruct Hc16 as [->|[v ->]].
  - intros d3 f' Hg3 Hf'. cbn [set_flags]. pose proof (Forall2_length _ _ _ Hreps) as Hlr.
    apply rep_full; [by rewrite length_app, Hlr, length_take, Hlen| |done]. intros i n c0 Ei Ei'.
    assert (Forall2 (rep d2 false) (l' ++ [n16]) cs) as Hall.
    { rewrite Ecs. apply Forall2_app; [done|]. constructor; [|done]. eapply rep_grows, Hn16. eapply grows_trans; [done|apply Hg2]. }
    eapply rep_grows; [done|]. by eapply Forall2_lookup_lr.
Qed.

Lemma hash_spec d r n t : rep d r n t -> hash_ok d r n t.
Proof.
  induction 1 as [| |r k n c0 f Hn IH Hf|r ns cs f Hl Hns IH Hf|r t Hst Hb]; intros Hc Hkn HKb c d1 Hg; [inversion Hc..| | |].
  - destruct (walks_or_cached c f) as [Hw|Hw]; [by eapply hash_walk_short|].
    eapply hash_cached; [done|by apply rep_short|reflexivity|done..].
  - destruct (walks_or_cached c f) as [Hw|Hw]; [by eapply hash_walk_full; eauto|].
    eapply hash_cached; [done|by apply rep_full|reflexivity|done..].
  - assert (r || big t = true) as E by (destruct Hb as [->| ->]; [done|apply orb_true_r]).
    exists (hashNode (hash_Bytes (thash t))), (hashNode (hash_Bytes (thash t))), d1.
    pose proof (stored_grows _ _ _ Hg Hst) as Hst'. split_and!; [by destruct c|by apply moves_refl, Hg| |by constructor|].
    + unfold hashed_as. by rewrite E.
    + intros _. by destruct Hst'.
Qed.
End hashing.
End with_laws.

End TrieHash.
