(* ===== verification/TrieSpec.v ===== *)
(** * A trie is a map, and its root a commitment to it

    Keys are byte strings, values non-empty byte strings.  The methods of a trie
    act on the map it stands for, and the root hash is a function of the map:
    it does not depend on the order of updates, on what was loaded from the
    database, or on when hashes were computed. *)
From S2P Require Import Prelude Wire EthMath StateDB Rlp RlpDecode RlpRaw TrieKeys TrieNode TrieTree TrieCodec Trie TrieMap TrieHash.

Module TrieSpec.
Import TrieKeys TrieNode TrieTree TrieCodec Trie TrieMap TrieHash.
Import EthMath(hash_Bytes, BytesToHash).

Abbreviation kvs := (gmap bytes bytes).

(** ** The map of a tree *)
Definition key_of (k : bytes) : option bytes := match hexToKeybytes k with Ok b => Some b | Panic => None end.

Definition holds (t : tree) (m : kvs) : Prop := forall k, hex_key k -> tlookup t k = key_of k ≫= (m !!.).

(** Maps with keys and values as the code has them. *)
Definition proper_map (m : kvs) : Prop := map_Forall (fun k v => Forall is_byte k /\ Forall is_byte v /\ v <> []) m.

Lemma hex_of_bytes key : Forall is_byte key -> hex_key (keybytesToHex key).
Proof. intros Hk. exists (nibbles_of key). split; [by apply nibbles_of_nibbles|done]. Qed.

Lemma key_of_hex key : Forall is_byte key -> key_of (keybytesToHex key) = Some key.
Proof. intros Hk. unfold key_of. by rewrite keybytes_roundtrip. Qed.

Lemma key_of_Some k key : hex_key k -> key_of k = Some key -> k = keybytesToHex key /\ Forall is_byte key.
Proof.
  intros (ns & Hn & ->). unfold key_of, hexToKeybytes. rewrite hasTerm_app, removelast_snoc.
  destruct (Z.odd (Z.of_nat (length ns))) eqn:Eo; [done|].
  assert (exists n, length ns = (2 * n)%nat) as [n Hl].
  { exists (Z.to_nat (Z.of_nat (length ns) / 2)). pose proof (Zmod_odd (Z.of_nat (length ns))) as Hm. rewrite Eo in Hm.
    pose proof (Z.div_mod (Z.of_nat (length ns)) 2). lia. }
  destruct (decodeNibbles_pairs n ns Hn Hl) as (bz & -> & Hb & Hbz & _). intros [= <-]. unfold keybytesToHex. by rewrite Hbz.
Qed.

Lemma holds_lookup t m key : holds t m -> Forall is_byte key -> tlookup t (keybytesToHex key) = m !! key.
Proof. intros Hh Hk. rewrite Hh by (by apply hex_of_bytes). by rewrite key_of_hex. Qed.

Lemma holds_changed t m key o t' : holds t m -> Forall is_byte key -> changed t (keybytesToHex key) o t' ->
  holds t' (partial_alter (fun _ => o) key m).
Proof.
  intros Hh Hk Hc k Hkk. rewrite Hc by done. destruct (decide (k = keybytesToHex key)) as [->|Hne].
  - rewrite key_of_hex by done. cbn [mbind option_bind]. by rewrite lookup_partial_alter_eq.
  - rewrite Hh by done. destruct (key_of k) as [key'|] eqn:E; [|done]. cbn [mbind option_bind].
    rewrite lookup_partial_alter_ne; [done|]. intros <-. apply Hne. by apply key_of_Some in E as [-> _].
Qed.

Lemma holds_empty : holds Empty ∅.
Proof. intros k _. by destruct (key_of k). Qed.

(** The tree of a map is unique, and so is the map of a tree. *)
Lemma holds_unique t u m : wf t -> wf u -> holds t m -> holds u m -> t = u.
Proof. intros Ht Hu H1 H2. apply wf_unique; [done..|]. intros k Hk. by rewrite H1, H2. Qed.

Lemma holds_inj t m m' : proper_map m -> proper_map m' -> holds t m -> holds t m' -> m = m'.
Proof.
  intros Hm Hm' H1 H2. apply map_eq. intros key. destruct (decide (Forall is_byte key)) as [Hk|Hk].
  - by rewrite <- (holds_lookup t m), <- (holds_lookup t m').
  - assert (forall m0 : kvs, proper_map m0 -> m0 !! key = None) as Hn; [|by rewrite !Hn].
    intros m0 Hm0. destruct (m0 !! key) as [v|] eqn:E; [|done]. by destruct (Hm0 key v E).
Qed.

Section with_laws.
Context `{HK : Keccak, HKL : !KeccakLaw, HD : NodeDB D, HKn : !Known K, HL : !NodeDBLaws D K}.

Definition spec_root (t : tree) : Z := match t with Empty => emptyRoot | _ => thash t end.

(** [h] is the root hash of the map [m]. *)
Definition root_of (m : kvs) (h : Z) : Prop := exists t, wf t /\ holds t m /\ h = spec_root t.

(** A trie stands for a map. *)
Definition trie_map (d : D) (t : Trie) (m : kvs) : Prop := exists tr, rep d true (root t) tr /\ wf tr /\ holds tr m.

Definition known_tree (t : tree) : Prop := t <> Empty -> K (blob t) /\ known_below K t.
Definition known_map (m : kvs) : Prop := forall t, wf t -> holds t m -> known_tree t.

(** How many turns a key needs: one for each nibble and one for each hash on the way. *)
Definition enough (fuel : nat) (key : bytes) : Prop := (4 * length key + 3 < fuel)%nat.

Lemma hex_length key : length (keybytesToHex key) = (2 * length key + 1)%nat.
Proof. unfold keybytesToHex. rewrite length_app, nibbles_of_length. simpl. lia. Qed.

Lemma wf_proper t : wf t -> proper t.
Proof. intros Hw. destruct (decide (t = Empty)) as [->|]; [by left|right; right; by apply Hw]. Qed.

Lemma TryGet_map fuel d key t m : trie_map d t m -> Forall is_byte key -> enough fuel key ->
  exists t', TryGet fuel d key t = Ok (m !! key, None, t') /\ trie_map d t' m.
Proof.
  intros (tr & Hr & Hw & Hh) Hk Hf. unfold enough in Hf. unfold TryGet. pose proof (weight_le (root t)).
  destruct (tryGet_spec d fuel (cachegen t) true (root t) tr (keybytesToHex key) 0) as (n' & b & -> & Hn'); [done|by apply wf_proper| | |].
  - rewrite drop_0. pose proof (hex_of_bytes key Hk). destruct (wf_proper tr Hw) as [->|[[v ->]|Hc]]; [done| |by destruct Hc].
    exfalso. assert (canon (Value v)) as Hc by (by apply Hw). inversion Hc.
  - rewrite drop_0, hex_length. lia.
  - cbn [rbind]. rewrite drop_0, (holds_lookup tr m) by done. eexists. split; [done|]. exists tr. by destruct b.
Qed.

Lemma TryUpdate_map fuel d key v t m : trie_map d t m -> Forall is_byte key -> Forall is_byte v -> enough fuel key ->
  exists t', TryUpdate fuel d key v t = Ok (None, t') /\ trie_map d t' (if decide (v = []) then base.delete key m else <[key := v]> m).
Proof.
  intros (tr & Hr & Hw & Hh) Hk Hb Hf. unfold enough in Hf. unfold TryUpdate. pose proof (weight_le (root t)).
  assert (2 * length (keybytesToHex key) + weight (root t) < fuel)%nat as Hfuel by (rewrite hex_length; lia).
  destruct (decide (v = [])) as [->|Hv].
  - cbn [length Nat.eqb negb].
    destruct (delete_spec d fuel (cachegen t) true (root t) tr [] (keybytesToHex key)) as (dt & n' & t' & -> & Hn' & Hw' & Hc & _);
      [done|done|by apply hex_of_bytes|done|]. cbn [rbind]. eexists. split; [done|]. exists t'. split_and!; try done. by eapply holds_changed.
  - assert (negb (length v =? 0)%nat = true) as -> by (by destruct v).
    destruct (insert_spec d fuel (cachegen t) true (root t) tr [] (keybytesToHex key) v) as (dt & n' & t' & -> & Hn' & Hw' & Hc & _);
      [done|done|by apply hex_of_bytes|done..|]. cbn [rbind]. eexists. split; [done|]. exists t'. split_and!; [done|by apply canon_wf|].
    by eapply holds_changed.
Qed.

Lemma TryDelete_map fuel d key t m : trie_map d t m -> Forall is_byte key -> enough fuel key ->
  exists t', TryDelete fuel d key t = Ok (None, t') /\ trie_map d t' (base.delete key m).
Proof. intros Hm Hk Hf. apply (TryUpdate_map fuel d key [] t m); [done..|by constructor|done]. Qed.

(** ** Hashing and committing *)
Definition leaf_ok (onleaf : option (bytes -> Z -> D -> res D)) : Prop :=
  forall cb v h d, onleaf = Some cb -> db_inv d -> db_live h d -> exists d', cb v h d = Ok d' /\ grows d d'.

Lemma hashRoot_map onleaf c d t m : leaf_ok onleaf -> trie_map d t m -> known_map m -> db_inv d ->
  exists tr n' d', wf tr /\ holds tr m /\
    hashRoot (in_db c d) onleaf t = Ok (hashNode (hash_Bytes (spec_root tr)), n', in_db c d') /\ moves c d d' /\
    rep d' true n' tr /\ (c = true -> tr <> Empty -> stored d' tr).
Proof.
  intros Hleaf (tr & Hr & Hw & Hh) Hk Hi. unfold hashRoot. destruct (decide (tr = Empty)) as [->|Hne].
  - exists Empty, nilNode, d. inversion Hr as [| | | |? ? [[Hc _] _]]; subst; [|inversion Hc].
    split_and!; try done. constructor.
  - destruct (Hk tr Hw Hh Hne) as [Hkb Hkn].
    destruct (hash_spec (cachegen t) (cachelimit t) onleaf Hleaf d true (root t) tr Hr (Hw Hne) Hkn (fun _ => Hkb) c d)
      as (h & n' & d' & E & Hg & Hd & Hn' & Hst); [by apply grows_refl|].
    unfold hashed_as in Hd. cbn [orb] in Hd. subst h. exists tr, n', d'.
    split_and!; try done; [|intros Ec _; destruct (Hst Ec) as [? Hhas]; split; auto].
    assert (spec_root tr = thash tr) as -> by (by destruct tr). rewrite E. pose proof (rep_is_nil _ _ _ _ Hr) as Hnil.
    destruct (root t); done || by destruct tr.
Qed.

Lemma spec_root_range t : 0 <= spec_root t < 2 ^ 256.
Proof. unfold spec_root. destruct t; [done|apply keccak_range..]. Qed.

Lemma Hash_map d t m : trie_map d t m -> known_map m -> db_inv d ->
  exists h t', Hash t = Ok (h, t') /\ root_of m h /\ trie_map d t' m.
Proof.
  intros Ht Hk Hi. destruct (hashRoot_map None false d t m) as (tr & n' & d' & Hw & Hh & E & [_ Hd] & Hr & _); [by intros ?|done..|].
  rewrite (Hd eq_refl) in Hr. unfold Hash. cbn [in_db] in E. rewrite E. cbn [rbind node_hash].
  rewrite BytesToHash_Bytes by apply spec_root_range. eexists _, _. split; [done|]. split; [by exists tr|by exists tr].
Qed.

Lemma Commit_map onleaf d t m : leaf_ok onleaf -> trie_map d t m -> known_map m -> db_inv d ->
  exists h t' d', Commit onleaf d t = Ok (h, t', d') /\ root_of m h /\ trie_map d' t' m /\ grows d d' /\
    (forall tr, wf tr -> holds tr m -> tr <> Empty -> stored d' tr).
Proof.
  intros Hl Ht Hk Hi. destruct (hashRoot_map onleaf true d t m) as (tr & n' & d' & Hw & Hh & E & [Hg _] & Hr & Hst); [done..|].
  unfold Commit. cbn [in_db] in E. rewrite E. cbn [rbind node_hash deref].
  rewrite BytesToHash_Bytes by apply spec_root_range. eexists _, _, _. split; [done|]. split_and!; [by exists tr|by exists tr|done|].
  intros tr' Hw' Hh' Hne. rewrite (holds_unique tr' tr m) in * by done. by apply Hst.
Qed.

(** ** Operations in sequence *)
Inductive op := OGet (key : bytes) | OUpdate (key v : bytes) | ODelete (key : bytes) | OHash | OCommit.
Inductive answer := AGet (v : option bytes) (err : option trieErr) | AUpdate (err : option trieErr) | ARoot (h : Z).

Definition exec (fuel : nat) (onleaf : option (bytes -> Z -> D -> res D)) (o : op) (s : Trie * D) : res (answer * (Trie * D)) :=
  let '(t, d) := s in
  match o with
  | OGet key => let! (v, err, t) := TryGet fuel d key t in Ok (AGet v err, (t, d))
  | OUpdate key v => let! (err, t) := TryUpdate fuel d key v t in Ok (AUpdate err, (t, d))
  | ODelete key => let! (err, t) := TryDelete fuel d key t in Ok (AUpdate err, (t, d))
  | OHash => let! (h, t) := Hash t in Ok (ARoot h, (t, d))
  | OCommit => let! (h, t, d) := Commit onleaf d t in Ok (ARoot h, (t, d))
  end.

Fixpoint exec_all (fuel : nat) (onleaf : option (bytes -> Z -> D -> res D)) (ops : list op) (s : Trie * D) : res (list answer * (Trie * D)) :=
  match ops with
  | [] => Ok ([], s)
  | o :: ops => let! (a, s) := exec fuel onleaf o s in let! (l, s) := exec_all fuel onleaf ops s in Ok (a :: l, s)
  end.

(** What they do to a map, and what they answer. *)
Definition spec_step (m : kvs) (o : op) : kvs :=
  match o with
  | OUpdate key v => if decide (v = []) then base.delete key m else <[key := v]> m
  | ODelete key => base.delete key m
  | _ => m
  end.

Definition spec_answer (m : kvs) (o : op) (a : answer) : Prop :=
  match o with
  | OGet key => a = AGet (m !! key) None
  | OUpdate _ _ | ODelete _ => a = AUpdate None
  | OHash | OCommit => exists h, a = ARoot h /\ root_of m h
  end.

Fixpoint spec_answers (m : kvs) (ops : list op) (l : list answer) : Prop :=
  match ops, l with
  | [], [] => True
  | o :: ops, a :: l => spec_answer m o a /\ spec_answers (spec_step m o) ops l
  | _, _ => False
  end.

(** Keys and values are bytes, the fuel is enough for the keys, and there are
    no collisions among the nodes of the maps that are hashed. *)
Definition op_ok (fuel : nat) (m : kvs) (o : op) : Prop :=
  match o with
  | OGet key | ODelete key => Forall is_byte key /\ enough fuel key
  | OUpdate key v => Forall is_byte key /\ Forall is_byte v /\ enough fuel key
  | OHash | OCommit => known_map m
  end.

Fixpoint ops_ok (fuel : nat) (m : kvs) (ops : list op) : Prop :=
  match ops with
  | [] => True
  | o :: ops => op_ok fuel m o /\ ops_ok fuel (spec_step m o) ops
  end.

Lemma exec_map fuel onleaf o t d m : leaf_ok onleaf -> op_ok fuel m o -> trie_map d t m -> db_inv d ->
  exists a t' d', exec fuel onleaf o (t, d) = Ok (a, (t', d')) /\ spec_answer m o a /\ trie_map d' t' (spec_step m o) /\ db_inv d'.
Proof.
  intros Hl Ho Ht Hi. destruct o as [key|key v|key| |]; cbn [exec spec_answer spec_step op_ok] in *.
  - destruct Ho as [Hk Hf]. destruct (TryGet_map fuel d key t m) as (t' & -> & Ht'); [done..|]. by eexists _, t', d.
  - destruct Ho as (Hk & Hv & Hf). destruct (TryUpdate_map fuel d key v t m) as (t' & -> & Ht'); [done..|]. by eexists _, t', d.
  - destruct Ho as [Hk Hf]. destruct (TryDelete_map fuel d key t m) as (t' & -> & Ht'); [done..|]. by eexists _, t', d.
  - destruct (Hash_map d t m) as (h & t' & -> & Hr & Ht'); [done..|]. eexists _, t', d. split_and!; eauto.
  - destruct (Commit_map onleaf d t m) as (h & t' & d' & -> & Hr & Ht' & Hg & _); [done..|]. eexists _, t', d'. split_and!; eauto. apply Hg.
Qed.

(** C16: a trie behaves as the map from keys to values it stands for.  Whatever
    reads, updates, deletions, hashes and commits are made, they return, reads
    answer from the map, and every root hash is the one of the map at that
    point, a function of nothing else. *)
Theorem trie_refines_map fuel onleaf ops t d m : leaf_ok onleaf -> trie_map d t m -> db_inv d -> ops_ok fuel m ops ->
  exists l t' d', exec_all fuel onleaf ops (t, d) = Ok (l, (t', d')) /\ spec_answers m ops l /\
    trie_map d' t' (foldl spec_step m ops) /\ db_inv d'.
Proof.
  intros Hl. revert t d m. induction ops as [|o ops IH]; intros t d m Ht Hi Ho; [by exists [], t, d|].
  destruct Ho as [Ho Hos]. destruct (exec_map fuel onleaf o t d m) as (a & t1 & d1 & E & Ha & Ht1 & Hi1); [done..|].
  destruct (IH t1 d1 (spec_step m o)) as (l & t2 & d2 & E2 & Hl2 & Ht2 & Hi2); [done..|].
  exists (a :: l), t2, d2. cbn [exec_all]. rewrite E. cbn [rbind]. by rewrite E2.
Qed.

(** The root hash of a map is a function. *)
Lemma root_of_fun m h h' : root_of m h -> root_of m h' -> h = h'.
Proof. intros (t & Hw & Hh & ->) (u & Hw' & Hh' & ->). by rewrite (holds_unique t u m). Qed.

(** An empty trie has the root hash of an empty string. *)
Definition empty_root : Prop := Keccak256Hash [0x80] = emptyRoot /\ K [0x80].

Lemma blob_not_empty t : canon t -> blob t <> [0x80].
Proof.
  intros Hc E. assert (exists l, titem t = RlpDecode.IList l) as [l El] by (destruct Hc; eauto).
  unfold blob in E. rewrite El, RlpDecode.encI_list in E.
  assert (length (RlpDecode.encIs l) = O) as Hl.
  { apply (f_equal length) in E. rewrite length_app in E. cbn [length] in E.
    assert (1 <= length (RlpDecode.head RlpDecode.List (Z.of_nat (length (RlpDecode.encIs l)))))%nat; [|lia].
    unfold RlpDecode.head, Rlp.puthead. destruct (_ <? 56); simpl; lia. }
  apply length_zero_iff_nil in Hl. rewrite Hl in E. done.
Qed.

Lemma spec_root_inj t u : empty_root -> wf t -> wf u -> known_tree t -> known_tree u -> spec_root t = spec_root u -> t = u.
Proof.
  intros [He HKe] Ht Hu Hkt Hku. destruct (decide (t = Empty)) as [->|Hte], (decide (u = Empty)) as [->|Hue]; [done|..].
  - destruct (Hku Hue) as [Hb _]. assert (spec_root u = thash u) as -> by (by destruct u). cbn [spec_root]. rewrite <- He.
    intros E. apply (known_inj (K := K)) in E; [|done..]. by destruct (blob_not_empty u (Hu Hue)).
  - destruct (Hkt Hte) as [Hb _]. assert (spec_root t = thash t) as -> by (by destruct t). cbn [spec_root]. rewrite <- He.
    intros E. apply (known_inj (K := K)) in E; [|done..]. by destruct (blob_not_empty t (Ht Hte)).
  - destruct (Hkt Hte) as [Hb Hbl], (Hku Hue) as [Hb' Hbl'].
    assert (spec_root t = thash t) as -> by (by destruct t). assert (spec_root u = thash u) as -> by (by destruct u).
    intros E. apply (root_determines K); try done; [by apply Ht|by apply Hu].
Qed.

(** C17: the root hash is a commitment to the map.  Two tries, over whatever
    databases and with whatever histories, have the same root hash exactly when
    they hold the same keys and values, as long as there is no collision among
    the encodings of their nodes. *)
Theorem root_commits d t m d' t' m' : empty_root -> proper_map m -> proper_map m' -> db_inv d -> db_inv d' ->
  trie_map d t m -> trie_map d' t' m' -> known_map m -> known_map m' ->
  exists h u h' u', Hash t = Ok (h, u) /\ Hash t' = Ok (h', u') /\ (h = h' <-> m = m').
Proof.
  intros He Hp Hp' Hi Hi' Ht Ht' Hk Hk'. destruct (Hash_map d t m) as (h & u & -> & Hr & _); [done..|].
  destruct (Hash_map d' t' m') as (h' & u' & -> & Hr' & _); [done..|]. exists h, u, h', u'. split_and!; [done..|]. split.
  - intros <-. destruct Hr as (tr & Hw & Hh & ->), Hr' as (tr' & Hw' & Hh' & E).
    assert (tr = tr') as <- by (apply spec_root_inj; auto). by apply (holds_inj tr).
  - intros <-. by eapply root_of_fun.
Qed.

(** ** Opening a trie *)
Lemma New_empty rt d : rt = 0 \/ rt = emptyRoot -> exists t, New rt d = Ok (inr t) /\ trie_map d t ∅.
Proof.
  intros Hr. unfold New. exists (mkTrie nilNode 0 0). split.
  - by destruct Hr as [->| ->].
  - exists Empty. split_and!; [constructor|by intros []|apply holds_empty].
Qed.

Lemma New_stored tr m d : stored d tr -> holds tr m -> thash tr <> 0 -> thash tr <> emptyRoot ->
  exists t, New (thash tr) d = Ok (inr t) /\ trie_map d t m.
Proof.
  intros Hst Hh H0 He. unfold New. rewrite (proj2 (Z.eqb_neq _ _) H0), (proj2 (Z.eqb_neq _ _) He). cbn [negb andb].
  rewrite resolveHash_stored by done. cbn [rbind]. eexists. split; [done|]. exists tr. split_and!; [|by apply canon_wf, Hst|done].
  by apply rep_loaded; [|left].
Qed.

(** What was committed can be opened again.  The root hash a commit
    returns opens a trie over the database that holds the same map. *)
Theorem commit_reopen onleaf d t m : leaf_ok onleaf -> trie_map d t m -> known_map m -> db_inv d -> empty_root ->
  exists h t1 d' t2, Commit onleaf d t = Ok (h, t1, d') /\ New h d' = Ok (inr t2) /\ trie_map d' t1 m /\ trie_map d' t2 m.
Proof.
  intros Hl Ht Hk Hi [He HKe]. destruct (Commit_map onleaf d t m) as (h & t1 & d' & E & Hr & Ht1 & Hg & Hst); [done..|].
  destruct Hr as (tr & Hw & Hh & ->). destruct (decide (tr = Empty)) as [->|Hne].
  - destruct (New_empty emptyRoot d') as (t2 & E2 & Ht2); [by right|]. exists emptyRoot, t1, d', t2. split_and!; try done.
    destruct Ht2 as (u & Hu & Hwu & Hhu). exists u.
    assert (u = Empty) as -> by (apply (holds_unique u Empty ∅); [done|done|done|apply holds_empty]). done.
  - destruct (Hk tr Hw Hh Hne) as [Hb _]. assert (spec_root tr = thash tr) as Es by (by destruct tr). rewrite Es in *.
    destruct (New_stored tr m d') as (t2 & E2 & Ht2); [by apply Hst|done|by apply (known_nonzero (K := K))| |by exists (thash tr), t1, d', t2].
    intros E'. rewrite <- He in E'. apply (known_inj (K := K)) in E'; [|done..]. by destruct (blob_not_empty tr (Hw Hne)).
Qed.
End with_laws.

End TrieSpec.
