(* ===== verification/TrieDB.v ===== *)
(** * eth/trie/database.go: nodes in memory and on disk

    Nodes that were inserted are kept in memory, with their references, in a
    list from the oldest to the newest, until [Commit] writes those below a root
    to the disk.  The disk is a map; a write of a batch may fail, and then
    changes nothing.  There is no cache of clean nodes ([NewDatabase]), and no
    metrics.  Go does not fix the order in which it ranges over a map: it is a
    parameter. *)
From S2P Require Import Prelude Wire EthMath StateDB Rlp RlpDecode RlpRaw TrieKeys TrieNode Trie.

(** The order in which Go ranges over a map. *)
Class MapOrder := {
  ranges : gmap Z Z -> list Z;
  ranges_pre : gmap Z bytes -> list (Z * bytes)
}.
Class MapOrderLaw `{MapOrder} := {
  ranges_all : forall m, ranges m ≡ₚ (map_to_list m).*1;
  ranges_pre_all : forall m, ranges_pre m ≡ₚ map_to_list m
}.

Module TrieDB.
Import Rlp TrieNode Trie.
Import EthMath(hash_Bytes, BytesToHash).

Record cachedNode := mkCached {
  cnode : node;
  csize : Z;                (* uint16 *)
  parents : Z;              (* uint32 *)
  children : gmap Z Z;      (* uint16 counts *)
  flushPrev : Z;
  flushNext : Z
}.

Record Database := mkDB {
  diskdb : gmap bytes bytes;
  written : nat;            (* how many batches were written to it *)
  dirties : gmap Z cachedNode;
  oldest : Z;
  newest : Z;
  preimages : gmap Z bytes;
  dirtiesSize : Z;
  preimagesSize : Z
}.

Definition set_dirties (m : gmap Z cachedNode) (d : Database) : Database :=
  mkDB (diskdb d) (written d) m (oldest d) (newest d) (preimages d) (dirtiesSize d) (preimagesSize d).
Definition set_ends (o n : Z) (d : Database) : Database :=
  mkDB (diskdb d) (written d) (dirties d) o n (preimages d) (dirtiesSize d) (preimagesSize d).
Definition add_size (z : Z) (d : Database) : Database :=
  mkDB (diskdb d) (written d) (dirties d) (oldest d) (newest d) (preimages d) (dirtiesSize d + z) (preimagesSize d).
Definition set_preimages (m : gmap Z bytes) (z : Z) (d : Database) : Database :=
  mkDB (diskdb d) (written d) (dirties d) (oldest d) (newest d) m (dirtiesSize d) z.
Definition set_disk (m : gmap bytes bytes) (d : Database) : Database :=
  mkDB m (S (written d)) (dirties d) (oldest d) (newest d) (preimages d) (dirtiesSize d) (preimagesSize d).

Definition set_next (h : Z) (c : cachedNode) : cachedNode := mkCached (cnode c) (csize c) (parents c) (children c) (flushPrev c) h.
Definition set_prev (h : Z) (c : cachedNode) : cachedNode := mkCached (cnode c) (csize c) (parents c) (children c) h (flushNext c).
Definition u32 (z : Z) : Z := z mod 2 ^ 32.
Definition more_parents (c : cachedNode) : cachedNode :=
  mkCached (cnode c) (csize c) (u32 (parents c + 1)) (children c) (flushPrev c) (flushNext c).
Definition more_children (h : Z) (c : cachedNode) : cachedNode :=
  mkCached (cnode c) (csize c) (parents c) (<[h := u16 (default 0 (children c !! h) + 1)]> (children c)) (flushPrev c) (flushNext c).

(** A field of [db.dirties[h]] is set; nil is dereferenced when there is no entry. *)
Definition at_entry (h : Z) (f : cachedNode -> cachedNode) (d : Database) : res Database :=
  match dirties d !! h with
  | Some c => Ok (set_dirties (<[h := f c]> (dirties d)) d)
  | None => Panic
  end.

Definition NewDatabase (disk : gmap bytes bytes) : Database :=
  mkDB disk 0 {[ 0 := mkCached nilNode 0 0 ∅ 0 0 ]} 0 0 ∅ 0 0.

Section with_order.
Context `{MapOrder}.
(** The batches whose write fails. *)
Variable fails : nat -> bool.

(** ** Cached nodes *)
Definition obj (c : cachedNode) (h cachegen : Z) : res node :=
  match cnode c with
  | rawNode b => mustDecodeNode (Some (hash_Bytes h)) b cachegen
  | n => expandNode (Some (hash_Bytes h)) n cachegen
  end.

Definition cached_rlp (c : cachedNode) : res bytes :=
  match cnode c with
  | rawNode b => Ok b
  | n => let! e := EncodeToBytes (node_value n) in deref e
  end.

Definition childs (c : cachedNode) : res (list Z) :=
  match cnode c with
  | rawNode _ => Ok (ranges (children c))
  | n => let! l := gatherChildren n in Ok (ranges (children c) ++ l)
  end.

(** ** Reading and inserting *)
Definition load (h cachegen : Z) (d : Database) : res node :=
  match dirties d !! h with
  | Some c => obj c h cachegen
  | None =>
      match diskdb d !! hash_Bytes h with
      | Some enc => mustDecodeNode (Some (hash_Bytes h)) enc cachegen
      | None => Ok nilNode
      end
  end.

(** The encoded node, or the error of the disk. *)
Definition Node (h : Z) (d : Database) : res (option bytes) :=
  match dirties d !! h with
  | Some c => let! b := cached_rlp c in Ok (Some b)
  | None => Ok (diskdb d !! hash_Bytes h)
  end.

Definition add_parent (m : gmap Z cachedNode) (h : Z) : gmap Z cachedNode := alter more_parents h m.

Definition db_put (h : Z) (blob : bytes) (n : node) (d : Database) : res Database :=
  match dirties d !! h with
  | Some _ => Ok d
  | None =>
      let! n := simplifyNode n in
      let size := u16 (Z.of_nat (length blob)) in
      let entry := mkCached n size 0 ∅ (newest d) 0 in
      let! hs := childs entry in
      let d := set_dirties (<[h := entry]> (foldl add_parent (dirties d) hs)) d in
      let! d := (if oldest d =? 0 then Ok (set_ends h h d)
                 else let! d := at_entry (newest d) (set_next h) d in Ok (set_ends (oldest d) h d)) in
      Ok (add_size (u16 (32 + size)) d)
  end.

Definition InsertBlob (h : Z) (blob : bytes) (d : Database) : res Database := db_put h blob (rawNode blob) d.

#[global] Instance database_nodes : NodeDB Database := { db_node := load; db_insert := db_put }.

Definition insertPreimage (h : Z) (preimage : bytes) (d : Database) : Database :=
  match preimages d !! h with
  | Some _ => d
  | None => set_preimages (<[h := preimage]> (preimages d)) (preimagesSize d + (32 + Z.of_nat (length preimage))) d
  end.

Definition secureKey (h : Z) : bytes := [115; 101; 99; 117; 114; 101; 45; 107; 101; 121; 45] ++ hash_Bytes h.   (* "secure-key-" *)

Definition preimage (h : Z) (d : Database) : option bytes :=
  match preimages d !! h with Some p => Some p | None => diskdb d !! secureKey h end.

(** [reference]: for roots, the children of the entry zero, references are counted. *)
Definition reference (child parent : Z) (d : Database) : res Database :=
  match dirties d !! child with
  | None => Ok d
  | Some _ =>
      match dirties d !! parent with
      | None => Panic
      | Some p =>
          if bool_decide (is_Some (children p !! child)) && negb (parent =? 0) then Ok d
          else
            let! d := at_entry child more_parents d in
            at_entry parent (more_children child) d
      end
  end.

(** ** Batches *)
Record Batch := mkBatch { writes : list (bytes * bytes); ValueSize : Z }.

Definition NewBatch : Batch := mkBatch [] 0.
Definition Put (k v : bytes) (b : Batch) : Batch := mkBatch (writes b ++ [(k, v)]) (ValueSize b + Z.of_nat (length v)).
Definition apply_writes (l : list (bytes * bytes)) (m : gmap bytes bytes) : gmap bytes bytes :=
  foldl (fun m kv => <[kv.1 := kv.2]> m) m l.

(** Whether the write succeeds. *)
Definition Write (b : Batch) (d : Database) : bool * Database :=
  if fails (written d) then (false, set_disk (diskdb d) d) else (true, set_disk (apply_writes (writes b) (diskdb d)) d).

Definition IdealBatchSize : Z := 100 * 1024.

Inductive dbErr := write_failed | starved.

(** A batch that has become large is written and emptied. *)
Definition flush_if (large : bool) (b : Batch) (d : Database) : option dbErr * Batch * Database :=
  if large then
    let '(ok, d) := Write b d in
    if ok then (None, NewBatch, d) else (Some write_failed, b, d)
  else (None, b, d).

(** ** Committing *)
Section all.
Variable commit : Z -> Batch -> Database -> res (option dbErr * Batch * Database).

Fixpoint commit_all (hs : list Z) (b : Batch) (d : Database) : res (option dbErr * Batch * Database) :=
  match hs with
  | [] => Ok (None, b, d)
  | h :: hs =>
      let! (err, b, d) := commit h b d in
      match err with
      | Some _ => Ok (err, b, d)
      | None => commit_all hs b d
      end
  end.
End all.

(** The nodes are acyclic, so that the depth below a node bounds the fuel. *)
Fixpoint commit (fuel : nat) (h : Z) (b : Batch) (d : Database) : res (option dbErr * Batch * Database) :=
  match fuel with
  | O => Ok (Some starved, b, d)
  | S fuel =>
      match dirties d !! h with
      | None => Ok (None, b, d)
      | Some c =>
          let! hs := childs c in
          let! (err, b, d) := commit_all (commit fuel) hs b d in
          match err with
          | Some _ => Ok (err, b, d)
          | None =>
              let! enc := cached_rlp c in
              let b := Put (hash_Bytes h) enc b in
              Ok (flush_if (ValueSize b >=? IdealBatchSize) b d)
          end
      end
  end.

(** Takes an entry out of the list of nodes. *)
Definition unlink (h : Z) (c : cachedNode) (d : Database) : res Database :=
  if h =? oldest d then at_entry (flushNext c) (set_prev 0) (set_ends (flushNext c) (newest d) d)
  else if h =? newest d then at_entry (flushPrev c) (set_next 0) (set_ends (oldest d) (flushPrev c) d)
  else
    let! d := at_entry (flushPrev c) (set_next (flushNext c)) d in
    at_entry (flushNext c) (set_prev (flushPrev c)) d.

Section uncache_all.
Variable uncache : Z -> Database -> res (option dbErr * Database).

Fixpoint uncache_all (hs : list Z) (d : Database) : res (option dbErr * Database) :=
  match hs with
  | [] => Ok (None, d)
  | h :: hs =>
      let! (err, d) := uncache h d in
      match err with Some _ => Ok (err, d) | None => uncache_all hs d end
  end.
End uncache_all.

Fixpoint uncache (fuel : nat) (h : Z) (d : Database) : res (option dbErr * Database) :=
  match fuel with
  | O => Ok (Some starved, d)
  | S fuel =>
      match dirties d !! h with
      | None => Ok (None, d)
      | Some c =>
          let! d := unlink h c d in
          let! hs := childs c in
          let! (err, d) := uncache_all (uncache fuel) hs d in
          match err with
          | Some _ => Ok (err, d)
          | None => Ok (None, add_size (- (32 + csize c)) (set_dirties (base.delete h (dirties d)) d))
          end
      end
  end.

Fixpoint put_preimages (l : list (Z * bytes)) (b : Batch) (d : Database) : option dbErr * Batch * Database :=
  match l with
  | [] => (None, b, d)
  | (h, p) :: l =>
      let b := Put (secureKey h) p b in
      let '(err, b, d) := flush_if (ValueSize b >? IdealBatchSize) b d in
      match err with Some _ => (err, b, d) | None => put_preimages l b d end
  end.

Definition CommitDB (fuel : nat) (h : Z) (d : Database) : res (option dbErr * Database) :=
  let '(err, b, d) := put_preimages (ranges_pre (preimages d)) NewBatch d in
  match err with
  | Some _ => Ok (err, d)
  | None =>
      let! (err, b, d) := commit fuel h b d in
      match err with
      | Some _ => Ok (err, d)
      | None =>
          let '(ok, d) := Write b d in
          if ok then uncache fuel h (set_preimages ∅ 0 d) else Ok (Some write_failed, d)
      end
  end.
End with_order.

End TrieDB.
