(* ===== verification/TrieStore.v ===== *)
(** * The database keeps what was inserted

    The invariant of the database of trie nodes: what is kept under a hash has
    that hash, the nodes a node refers to are there too, on the disk for a node
    on the disk, and the entries in memory are in a doubly linked list.  With
    it the database is one a trie can use ([NodeDBLaws]). *)
From S2P Require Import Prelude Wire EthMath StateDB Rlp RlpDecode RlpRaw TrieKeys TrieNode TrieTree TrieCodec Trie TrieMap TrieHash TrieSpec TrieDB.

Module TrieStore.
Import Rlp RlpDecode TrieKeys TrieNode TrieTree TrieCodec Trie TrieMap TrieHash TrieDB.
Import EthMath(hash_Bytes, BytesToHash).

Section with_keccak.
Context `{HK : Keccak, HKL : !KeccakLaw, HO : MapOrder, HOL : !MapOrderLaw, HKn : !Known K}.

(** ** The trees a node refers to *)
Fixpoint refs (t : tree) : list tree :=
  match t with
  | Short _ c => if big c then [c] else refs c
  | Full cs => concat (map (fun c => if big c then [c] else refs c) cs)
  | _ => []
  end.

Definition ref_of (c : tree) : list tree := if big c then [c] else refs c.

Lemma refs_full cs : refs (Full cs) = concat (map ref_of cs).
Proof. done. Qed.

Lemma in_refs_full cs u : u ∈ refs (Full cs) <-> exists i c, cs !! i = Some c /\ u ∈ ref_of c.
Proof.
  rewrite refs_full. induction cs as [|c cs IH]; cbn [map concat]; [split; [by intros ?%elem_of_nil|naive_solver]|].
  rewrite elem_of_app, IH. split.
  - intros [Hu|(i & c' & Ei & Hu)]; [by exists 0%nat, c|by exists (S i), c'].
  - intros ([|i] & c' & Ei & Hu); [left; by injection Ei as ->|right; eauto].
Qed.

Lemma in_ref_of c u : u ∈ ref_of c <-> (big c = true /\ u = c) \/ (big c = false /\ u ∈ refs c).
Proof. unfold ref_of. destruct (big c); rewrite ?list_elem_of_singleton; naive_solver. Qed.

Lemma refs_canon t u : canon t -> u ∈ refs t -> canon u /\ big u = true.
Proof.
  induction 1 as [ns v Hn Hv _|ns cs Hne Hn Hc IH|cs Hl Hcs IH Hlast Htwo]; intros Hu.
  - by apply elem_of_nil in Hu.
  - change (u ∈ ref_of (Full cs)) in Hu. apply in_ref_of in Hu as [[Hb ->]|[_ Hu]]; auto.
  - apply in_refs_full in Hu as (i & c & Ei & Hu). destruct (decide (c = Empty)) as [->|Hne]; [by apply elem_of_nil in Hu|].
    destruct (decide (i = 16%nat)) as [->|Hi].
    { destruct (Hlast c Ei Hne) as (v & -> & _). by apply elem_of_nil in Hu. }
    apply lookup_lt_Some in Ei as Hlt. apply in_ref_of in Hu as [[Hb ->]|[_ Hu]]; [split; [apply (Hcs i); [lia|done..]|done]|].
    apply (IH i c); [lia|done..].
Qed.

Lemma below_refs P t : below P t <-> (forall u, u ∈ refs t -> P u /\ below P u).
Proof.
  assert (forall c, (below P c <-> (forall u, u ∈ refs c -> P u /\ below P u)) ->
    (big c = true -> P c) /\ below P c <-> (forall u, u ∈ ref_of c -> P u /\ below P u)) as Hstep.
  { intros c IH. unfold ref_of. destruct (big c) eqn:E.
    - split; [intros [H1 H2] u ->%list_elem_of_singleton; auto|]. intros Hu. destruct (Hu c) as [H1 H2]; [by apply list_elem_of_singleton|]. done.
    - rewrite IH. naive_solver. }
  induction t as [|k c IH|cs IH|v] using tree_deep_ind; [by split; [intros _ ? ?%elem_of_nil|]|by apply Hstep| |by split; [intros _ ? ?%elem_of_nil|]].
  rewrite Forall_lookup in IH. split.
  - intros Hb u (i & c & Ei & Hu)%in_refs_full. by apply (Hstep c (IH i c Ei)); [apply (below_full _ cs i)|].
  - intros Hu. apply below_full_intro. intros i c Ei. apply (Hstep c (IH i c Ei)). intros u Hc. apply Hu, in_refs_full. eauto.
Qed.

Lemma refs_ind (P : tree -> Prop) : (forall t, (forall u, u ∈ refs t -> P u) -> P t) -> forall t, P t.
Proof.
  intros Hs t. apply Hs. assert (forall c, (forall u, u ∈ refs c -> P u) -> forall u, u ∈ ref_of c -> P u) as Hstep.
  { intros c IH u [[_ ->]|[_ Hu]]%in_ref_of; auto. }
  induction t as [|k c IH|cs IH|v] using tree_deep_ind; intros u Hu; [by apply elem_of_nil in Hu|by apply (Hstep c)| |by apply elem_of_nil in Hu].
  apply in_refs_full in Hu as (i & c & Ei & Hu). rewrite Forall_lookup in IH. by apply (Hstep c (IH i c Ei)).
Qed.

(** The code finds exactly these. *)
Lemma gather_rnode t : canon t -> gatherChildren (rnode t) = Ok (map thash (refs t)).
Proof.
  assert (forall c, (canon c -> gatherChildren (rnode c) = Ok (map thash (refs c))) -> canon c ->
    gatherChildren (rref c) = Ok (map thash (ref_of c))) as Hstep.
  { intros c IH Hc. unfold rref, ref_of. destruct (big c); [|by apply IH]. cbn [gatherChildren map].
    by rewrite BytesToHash_Bytes by apply thash_range. }
  induction 1 as [ns v Hn Hv _|ns cs Hne Hn Hc IH|cs Hl Hcs IH Hlast Htwo]; [done|by apply (Hstep (Full cs))|].
  rewrite rnode_full, refs_full. cbn [gatherChildren].
  destruct (full_split cs Hl) as (l & E & El).
  assert (ref_of l = []) as Erl.
  { destruct (decide (l = Empty)) as [->|Hne]; [done|]. by destruct (Hlast l El Hne) as (v & -> & _). }
  assert (Forall (fun c => gatherChildren (rref c) = Ok (map thash (ref_of c))) (take 16 cs)) as Hf.
  { apply Forall_lookup. intros i c [Ei Hi]%lookup_take_Some. destruct (decide (c = Empty)) as [->|Hce]; [done|].
    apply Hstep; [intros _; by apply (IH i)|by apply (Hcs i)]. }
  assert (length (take 16 cs) = 16%nat) as Hl16 by (rewrite length_take; lia).
  rewrite E, map_app, map_app, concat_app. cbn [map concat]. rewrite Erl, !app_nil_r. rewrite <- Hl16 at 1. clear -Hf. revert Hf. generalize (take 16 cs). intros cs'.
  induction 1 as [|c cs' E _ IH]; [done|]. cbn [map length app concat gather_all]. rewrite E. cbn [rbind].
  rewrite IH. cbn [rbind]. by rewrite map_app.
Qed.
(** ** What is kept under a hash *)
Lemma rnode_value t : canon t -> node_value (rnode t) = to_value (titem t).
Proof.
  assert (forall c, (canon c -> node_value (rnode c) = to_value (titem c)) -> canon c -> node_value (rref c) = to_value (ref c)) as Hstep.
  { intros c IH Hc. rewrite ref_big. unfold rref. destruct (big c); [done|by apply IH]. }
  induction 1 as [ns v Hn Hv _|ns cs Hne Hn Hc IH|cs Hl Hcs IH Hlast Htwo]; [done| |].
  - change (rnode (Short ns (Full cs))) with (rawShortNode (compact ns) (rref (Full cs))). cbn [node_value].
    rewrite Hstep by done. done.
  - rewrite rnode_full, titem_full. cbn [node_value to_value]. f_equal. rewrite !map_map. apply map_ext_in. intros c Hc.
    apply list_elem_of_In, list_elem_of_lookup in Hc as [i Ei].
    destruct (decide (c = Empty)) as [->|Hce]; [done|].
    destruct (decide (i = 16%nat)) as [->|]; [by destruct (Hlast c Ei Hce) as (v & -> & _)|].
    assert (canon c) as Hcc by (apply (Hcs i); [apply lookup_lt_Some in Ei; lia|done..]).
    assert (is_nil (rref c) = false) as -> by (unfold rref; destruct (big c); [done|by destruct Hcc]).
    apply Hstep; [|done]. intros _. apply (IH i); [apply lookup_lt_Some in Ei; lia|done..].
Qed.

Definition on_disk (m : gmap bytes bytes) (h : Z) : Prop := is_Some (m !! hash_Bytes h).
Definition present (d : Database) (h : Z) : Prop := is_Some (dirties d !! h) \/ on_disk (diskdb d) h.

(** Bytes that are not the encoding of a node. *)
Definition not_node (b : bytes) : Prop := forall t, canon t -> blob t <> b.

(** What is in memory under a hash: a node whose children are there as well, or a blob. *)
Inductive entry_ok (d : Database) (h : Z) (c : cachedNode) : Prop :=
| entry_node t : cnode c = rnode t -> canon t -> K (blob t) -> known_below K t -> h = thash t ->
    (forall u, u ∈ refs t -> present d (thash u)) -> entry_ok d h c
| entry_blob b : cnode c = rawNode b -> K b -> h = Keccak256Hash b -> not_node b -> entry_ok d h c.

Definition disk_ok (m : gmap bytes bytes) : Prop := forall h b, 0 <= h < 2 ^ 256 -> m !! hash_Bytes h = Some b -> K b /\ Keccak256Hash b = h.

Definition disk_closed (m : gmap bytes bytes) : Prop := forall t, canon t -> K (blob t) -> known_below K t ->
  on_disk m (thash t) -> forall u, u ∈ refs t -> on_disk m (thash u).

(** A part of the list of entries, after [p] and before [e]. *)
Fixpoint linked (m : gmap Z cachedNode) (p : option Z) (l : list Z) (e : Z) : Prop :=
  match l with
  | [] => True
  | x :: l =>
      (exists c, m !! x = Some c /\ flushNext c = hd e l /\ (forall q, p = Some q -> flushPrev c = q)) /\
      linked m (Some x) l e
  end.

(** The list holds the entries but those of [P]: the root of roots, and nodes on their way out. *)
Record listed (d : Database) (P : gset Z) (l : list Z) : Prop := {
  l_linked : linked (dirties d) None l 0;
  l_nodup : NoDup l;
  l_oldest : oldest d = hd 0 l;
  l_newest : forall x, last l = Some x -> newest d = x;
  l_all : forall h, h ∈ l <-> (h ∉ P) /\ is_Some (dirties d !! h)
}.

Record db_ok (d : Database) : Prop := {
  ok_meta : exists c, dirties d !! 0 = Some c /\ cnode c = nilNode;
  ok_entries : forall h c, dirties d !! h = Some c -> h <> 0 -> entry_ok d h c;
  ok_children : forall h c, dirties d !! h = Some c -> children c !! 0 = None;
  ok_disk : disk_ok (diskdb d);
  ok_closed : disk_closed (diskdb d);
  ok_list : exists l, listed d {[ 0 ]} l
}.

Lemma disk_key_inj h h' : 0 <= h < 2 ^ 256 -> 0 <= h' < 2 ^ 256 -> hash_Bytes h = hash_Bytes h' -> h = h'.
Proof. intros H1 H2 E. apply (f_equal BytesToHash) in E. by rewrite !BytesToHash_Bytes in E. Qed.

Lemma decode_blob t h g : canon t -> K (blob t) -> mustDecodeNode h (blob t) g = Ok (dnode h g t).
Proof.
  intros Hc Hk. unfold mustDecodeNode, decodeNode. pose proof (known_len _ Hk) as Hl. cbv beta in Hl.
  pose proof (decode_tree t Hc (S (length (blob t))) h g []) as D. rewrite app_nil_r in D. by rewrite D by (cbv beta; lia).
Qed.

Lemma entry_content d h c : entry_ok d h c -> exists b, cached_rlp c = Ok b /\ K b /\ Keccak256Hash b = h /\
  forall g, obj c h g = mustDecodeNode (Some (hash_Bytes h)) b g.
Proof.
  intros [t En Hc Hk Hkn -> Hr|b En Hk -> Hb]; unfold cached_rlp, obj; rewrite En.
  - exists (blob t). assert (EncodeToBytes (node_value (rnode t)) = Ok (Some (blob t))) as E.
    { rewrite rnode_value by done. apply EncodeToBytes_spec; [apply encodable_item|by apply known_len]. }
    assert (forall b, rnode t <> rawNode b) as Hraw by (intros b; by destruct Hc). split_and!; try done.
    + destruct (rnode t); try (by rewrite E). by destruct (Hraw b).
    + intros g. rewrite decode_blob, <- expand_rnode by done. destruct (rnode t); try done. by destruct (Hraw b).
  - by exists b.
Qed.

(** Loading decodes the bytes that are kept. *)
Lemma load_present d h : db_ok d -> h <> 0 -> 0 <= h < 2 ^ 256 -> present d h ->
  exists b, K b /\ Keccak256Hash b = h /\ forall g, load h g d = mustDecodeNode (Some (hash_Bytes h)) b g.
Proof.
  intros Hd H0 Hr Hp. unfold load. destruct (dirties d !! h) as [c|] eqn:E.
  - destruct (entry_content d h c) as (b & _ & ?); [by apply Hd|]. by exists b.
  - destruct Hp as [[c E']|[b Eb]]; [congruence|]. exists b. rewrite Eb. destruct (ok_disk _ Hd h b Hr Eb). done.
Qed.

(** [Node] returns bytes with the hash that was asked for. *)
Lemma Node_present d h : db_ok d -> h <> 0 -> 0 <= h < 2 ^ 256 -> present d h -> exists b, Node h d = Ok (Some b) /\ Keccak256Hash b = h.
Proof.
  intros Hd H0 Hr Hp. unfold Node. destruct (dirties d !! h) as [c|] eqn:E.
  - destruct (entry_content d h c) as (b & -> & _ & ? & _); [by apply Hd|]. by exists b.
  - destruct Hp as [[c E']|[b Eb]]; [congruence|]. exists b. rewrite Eb. by destruct (ok_disk _ Hd h b Hr Eb).
Qed.

Lemma load_absent d h g : ~ present d h -> load h g d = Ok nilNode.
Proof.
  intros Hp. unfold load. destruct (dirties d !! h) eqn:E; [destruct Hp; left; by rewrite E|].
  destruct (diskdb d !! hash_Bytes h) eqn:E'; [destruct Hp; right; unfold on_disk; by rewrite E'|done].
Qed.

Lemma load_meta d g : db_ok d -> load 0 g d = Panic.
Proof. intros Hd. destruct (ok_meta _ Hd) as (c & E & Ec). unfold load, obj. by rewrite E, Ec. Qed.

Lemma has_present d t : db_ok d -> has d t -> present d (thash t) /\ thash t <> 0.
Proof.
  intros Hd [Hc Hn]. specialize (Hn 0). change (load (thash t) 0 d = Ok (dnode (Some (hash_Bytes (thash t))) 0 t)) in Hn. split.
  - unfold present, on_disk. destruct (dirties d !! thash t) eqn:E; [by left; eexists|].
    destruct (diskdb d !! hash_Bytes (thash t)) eqn:E'; [by right; eexists|].
    rewrite load_absent in Hn by (intros [[? ?]|[? ?]]; congruence). by destruct Hc.
  - intros E. rewrite E, load_meta in Hn by done. done.
Qed.

Lemma present_has d t : db_ok d -> canon t -> K (blob t) -> present d (thash t) -> has d t.
Proof.
  intros Hd Hc Hk Hp. split; [done|]. intros g. change (load (thash t) g d = Ok (dnode (Some (hash_Bytes (thash t))) g t)).
  destruct (load_present d (thash t)) as (b & Hb & E & ->); [done|by apply (known_nonzero (K := K))|apply thash_range|done|].
  apply (known_inj (K := K)) in E as ->; [|done..]. by apply decode_blob.
Qed.

(** A database in order that lacks nothing another had can take its place. *)
Lemma present_grows d d' : db_ok d -> db_ok d' -> (forall h, present d h -> present d' h) -> forall u, has d u -> has d' u.
Proof.
  intros Hd Hd' Hp u Hu. destruct (has_present d u Hd Hu) as [Hpu H0]. destruct Hu as [Hc Hn]. split; [done|]. intros g.
  rewrite <- Hn. change (load (thash u) g d' = load (thash u) g d).
  destruct (load_present d (thash u)) as (b & Hb & E & Hl); [done..|apply thash_range|done|].
  destruct (load_present d' (thash u)) as (b' & Hb' & E' & Hl'); [done..|apply thash_range|by apply Hp|].
  rewrite Hl, Hl'. f_equal. apply (known_inj (K := K)); [done..|congruence].
Qed.

(** What is present is there with everything below it. *)
Lemma refs_present d t u : db_ok d -> canon t -> K (blob t) -> known_below K t -> present d (thash t) -> u ∈ refs t -> present d (thash u).
Proof.
  intros Hd Hc Hk Hkn Hp Hu. destruct (dirties d !! thash t) as [c|] eqn:E.
  - destruct (ok_entries _ Hd (thash t) c) as [t' En Hc' Hk' Hkn' Eh Hr|b En Hb Eh Hnb]; [done|by apply (known_nonzero (K := K))|..].
    + assert (t = t') as <- by (by apply (root_determines K)). by apply Hr.
    + apply (known_inj (K := K)) in Eh; [|done..]. by destruct (Hnb t).
  - destruct Hp as [[? ?]|Hp]; [congruence|]. right. by apply (ok_closed _ Hd t).
Qed.

Lemma present_stored d t : db_ok d -> canon t -> K (blob t) -> known_below K t -> present d (thash t) -> stored d t.
Proof.
  intros Hd. induction t as [t IH] using refs_ind. intros Hc Hk Hkn Hp. split; [by apply present_has|]. apply below_refs. intros u Hu.
  unfold known_below in Hkn. pose proof Hkn as Hkr. rewrite below_refs in Hkr. destruct (Hkr u Hu) as [Hku Hknu].
  destruct (refs_canon t u Hc Hu) as [Hcu _]. apply (IH u Hu); try done. by apply (refs_present d t u).
Qed.
(** ** The list of entries *)
Definition links (c : cachedNode) : Z * Z := (flushPrev c, flushNext c).
Definition final (p : option Z) (l : list Z) : option Z := foldl (fun _ x => Some x) p l.

Lemma final_snoc p l x : final p (l ++ [x]) = Some x.
Proof. unfold final. by rewrite foldl_app. Qed.

Lemma final_last l : final None l = last l.
Proof. destruct l as [|x l] using rev_ind; [done|]. by rewrite final_snoc, last_snoc. Qed.

Lemma linked_frame m m' p l e : (forall x, x ∈ l -> links <$> m !! x = links <$> m' !! x) -> linked m p l e -> linked m' p l e.
Proof.
  revert p. induction l as [|x l IH]; intros p Hm; [done|]. intros [(c & E & En & Ep) Hl]. split.
  - specialize (Hm x (list_elem_of_here x l)). rewrite E in Hm. destruct (m' !! x) as [c'|]; [|done].
    cbn in Hm. injection Hm as E1 E2. exists c'. split_and!; [done|congruence|]. intros q Hq. rewrite <- E1. by apply Ep.
  - apply IH; [|done]. intros y Hy. apply Hm. by right.
Qed.

Lemma linked_app m p l1 l2 e : linked m p (l1 ++ l2) e <-> linked m p l1 (hd e l2) /\ linked m (final p l1) l2 e.
Proof.
  revert p. induction l1 as [|x l1 IH]; intros p; cbn [app linked]; [by split; [split|intros []]|].
  rewrite IH. change (final p (x :: l1)) with (final (Some x) l1).
  assert (hd e (l1 ++ l2) = hd (hd e l2) l1) as -> by (by destruct l1). tauto.
Qed.

Lemma linked_weaken m p l e : linked m p l e -> linked m None l e.
Proof. destruct l; [done|]. intros [(c & E & En & _) Hl]. split; [by exists c|done]. Qed.

Lemma linked_next m p l q c e e' : linked m p (l ++ [q]) e -> NoDup (l ++ [q]) -> m !! q = Some c ->
  linked (<[q := set_next e' c]> m) p (l ++ [q]) e'.
Proof.
  rewrite !linked_app. cbn [hd linked]. intros [Hl [(c' & E & En & Ep) _]] Hnd Eq. apply NoDup_app in Hnd as (_ & Hnd & _). split.
  - eapply linked_frame; [|done]. intros x Hx. rewrite lookup_insert_ne; [done|]. intros <-. by apply (Hnd q Hx), list_elem_of_singleton.
  - split; [|done]. rewrite Eq in E. injection E as <-. exists (set_next e' c). by rewrite lookup_insert_eq.
Qed.

Lemma linked_prev m p q l y c e : linked m p (y :: l) e -> NoDup (y :: l) -> m !! y = Some c ->
  linked (<[y := set_prev q c]> m) (Some q) (y :: l) e.
Proof.
  intros [(c' & E & En & Ep) Hl] [Hy Hnd]%NoDup_cons Ey. rewrite Ey in E. injection E as <-. split.
  - exists (set_prev q c). rewrite lookup_insert_eq. split_and!; [done|done|by intros ? [= <-]].
  - eapply linked_frame; [|done]. intros x Hx. rewrite lookup_insert_ne; [done|]. by intros <-.
Qed.

Lemma linked_lookup m p l e x : linked m p l e -> x ∈ l -> is_Some (m !! x).
Proof. revert p. induction l as [|y l IH]; intros p; [by intros _ ?%elem_of_nil|]. intros [(c & E & _) Hl] [->|Hx]%elem_of_cons; eauto. Qed.

(** ** Inserting *)
Lemma entry_ok_mono d d' h c c' : entry_ok d h c -> cnode c' = cnode c -> (forall x, present d x -> present d' x) -> entry_ok d' h c'.
Proof.
  intros [t En Hc Hk Hkn -> Hr|b En Hk -> Hb] E Hp; rewrite <- E in En.
  - apply (entry_node d' _ c' t); auto.
  - by apply (entry_blob d' _ c' b).
Qed.

Lemma db_ok_step d d' : db_ok d -> diskdb d' = diskdb d ->
  (forall x, is_Some (dirties d !! x) -> is_Some (dirties d' !! x)) ->
  (forall x c', dirties d' !! x = Some c' -> children c' !! 0 = None /\
     ((exists c, dirties d !! x = Some c /\ cnode c' = cnode c) \/ x <> 0 /\ entry_ok d' x c')) ->
  (exists l, listed d' {[ 0 ]} l) -> db_ok d'.
Proof.
  intros Hd Ed Hs He Hl. split; try done.
  - destruct (ok_meta _ Hd) as (c & E & Ec). destruct (Hs 0) as [c' E']; [by rewrite E|]. exists c'. split; [done|].
    destruct (He 0 c' E') as [_ [(c0 & E0 & ->)|[? _]]]; [|done]. congruence.
  - intros h c' E H0. destruct (He h c' E) as [_ [(c & Ec & En)|[_ ?]]]; [|done].
    eapply entry_ok_mono; [by eapply ok_entries|done|]. intros x [Hx|Hx]; [left; auto|right; by rewrite Ed].
  - intros h c' E. by destruct (He h c' E).
  - rewrite Ed. apply Hd.
  - rewrite Ed. apply Hd.
Qed.

(** All of an entry but its count of parents. *)
Definition core (c : cachedNode) := (cnode c, children c, links c).

Lemma core_eq c c' : core c = core c' -> cnode c = cnode c' /\ children c = children c' /\ links c = links c'.
Proof. unfold core, links. intros E. injection E as E1 E2 E3 E4. by rewrite E1, E2, E3, E4. Qed.

Lemma add_parents_core hs m x : core <$> foldl add_parent m hs !! x = core <$> m !! x.
Proof.
  revert m. induction hs as [|h hs IH]; intros m; [done|]. cbn [foldl]. rewrite IH. unfold add_parent.
  destruct (decide (x = h)) as [->|Hne]; [|by rewrite lookup_alter_ne]. rewrite lookup_alter_eq. by destruct (m !! h).
Qed.

Lemma listed_nil_oldest d P l : 0 ∈ P -> listed d P l -> oldest d = 0 <-> l = [].
Proof.
  intros HP Hl. rewrite (l_oldest _ _ _ Hl). destruct l as [|x l]; [done|]. cbn [hd]. split; [|done]. intros ->.
  destruct (proj1 (l_all _ _ _ Hl 0)) as [? _]; [by left|done].
Qed.

Lemma map_core_links (m m' : gmap Z cachedNode) x : core <$> m' !! x = core <$> m !! x -> links <$> m !! x = links <$> m' !! x.
Proof. intros E. transitivity (snd <$> (core <$> m !! x)); [by destruct (m !! x)|]. rewrite <- E. by destruct (m' !! x). Qed.
Lemma core_lookup (m m' : gmap Z cachedNode) x c' : core <$> m' !! x = core <$> m !! x -> m' !! x = Some c' ->
  exists c, m !! x = Some c /\ core c' = core c.
Proof. intros E E'. rewrite E' in E. destruct (m !! x) as [c|]; [|done]. exists c. split; [done|]. apply (f_equal (default (core c))) in E. done. Qed.

(** What [db_put] does to the list. *)
Lemma put_links d l h c m : listed d {[ 0 ]} l -> dirties d !! h = None -> h <> 0 ->
  flushPrev c = newest d -> flushNext c = 0 -> (forall x, core <$> m !! x = core <$> dirties d !! x) ->
  exists d', (if oldest d =? 0 then Ok (set_ends h h (set_dirties (<[h := c]> m) d))
     else let! d := at_entry (newest d) (set_next h) (set_dirties (<[h := c]> m) d) in Ok (set_ends (oldest d) h d)) = Ok d' /\
    listed d' {[ 0 ]} (l ++ [h]) /\ diskdb d' = diskdb d /\
    dirties d' !! h = Some c /\ (forall x, x <> h -> (fun c => (cnode c, children c)) <$> dirties d' !! x = (fun c => (cnode c, children c)) <$> dirties d !! x).
Proof.
  intros Hl Hh H0 Ep En Hm. assert (h ∉ l) as Hnl by (intros [_ [? ?]]%(l_all _ _ _ Hl); congruence).
  assert (forall x, (fun c => (cnode c, children c)) <$> m !! x = (fun c => (cnode c, children c)) <$> dirties d !! x) as Hm'.
  { intros x. transitivity (fst <$> (core <$> m !! x)); [by destruct (m !! x)|]. rewrite Hm. by destruct (dirties d !! x). }
  assert (forall x, is_Some (m !! x) <-> is_Some (dirties d !! x)) as Hs.
  { intros x. rewrite <- (fmap_is_Some core (m !! x)), Hm. apply fmap_is_Some. }
  assert (forall x, x ∈ l ++ [h] <-> (x ∉ ({[0]} : gset Z)) /\ is_Some (<[h := c]> m !! x)) as Hall.
  { intros x. rewrite elem_of_app, list_elem_of_singleton, (l_all _ _ _ Hl), <- Hs, lookup_insert_is_Some'. set_solver. }
  assert (linked (<[h := c]> m) None l 0) as Hlk.
  { eapply linked_frame; [|apply Hl]. intros x Hx. rewrite lookup_insert_ne by (by intros <-). by apply map_core_links. }
  destruct l as [|q k] using rev_ind; [|clear IHk].
  - rewrite (l_oldest _ _ _ Hl). cbn [hd Z.eqb]. eexists. split; [done|]. split_and!; try done.
    + split; cbn [dirties set_ends set_dirties oldest newest app hd]; try done; [|by apply NoDup_singleton|by intros ? [= <-]].
      split; [|done]. exists c. by rewrite lookup_insert_eq.
    + cbn [dirties set_ends set_dirties]. by rewrite lookup_insert_eq.
    + intros x Hx. cbn [dirties set_ends set_dirties]. by rewrite lookup_insert_ne.
  - assert (oldest d <> 0) as Ho by (intros E; apply (listed_nil_oldest d {[0]} (k ++ [q])) in E; [by destruct k|set_solver|done]).
    rewrite (proj2 (Z.eqb_neq _ _) Ho). assert (newest d = q) as Eq by (by apply (l_newest _ _ _ Hl); rewrite last_snoc).
    rewrite Eq. unfold at_entry. cbn [dirties set_dirties].
    destruct (linked_lookup _ _ _ _ q Hlk) as [cq Ecq]; [apply elem_of_app; right; by left|]. rewrite Ecq. cbn [rbind].
    assert (q <> h) as Hqh by (intros ->; apply Hnl, elem_of_app; right; by left).
    eexists. split; [done|]. cbn [dirties set_ends set_dirties diskdb oldest newest]. split_and!; try done.
    + split; cbn [dirties set_ends set_dirties oldest newest]; [| | |by intros ? ?%eq_sym; rewrite last_snoc in *; congruence|].
      * apply linked_app. cbn [hd linked]. split; [by apply (linked_next _ _ _ _ _ 0); [|apply Hl|]|]. split; [|done].
        exists c. rewrite lookup_insert_ne, lookup_insert_eq by done. split_and!; [done..|]. rewrite final_snoc. intros ? [= <-]. congruence.
      * apply NoDup_app. split_and!; [apply Hl| |by apply NoDup_singleton]. intros x Hx ->%list_elem_of_singleton. done.
      * rewrite (l_oldest _ _ _ Hl). by destruct k.
      * intros x. rewrite Hall, (lookup_insert_is_Some' _ q). split; [naive_solver|]. intros [Hx [<-|?]]; [|done]. split; [done|by rewrite Ecq].
    + by rewrite lookup_insert_ne, lookup_insert_eq.
    + intros x Hx. rewrite <- Hm'. destruct (decide (x = q)) as [->|]; [|by rewrite !lookup_insert_ne].
      rewrite lookup_insert_ne in Ecq by done. by rewrite lookup_insert_eq, Ecq.
Qed.
Lemma put_spec d h b n n' : db_ok d -> h <> 0 -> simplifyNode n = Ok n' ->
  (exists hs, forall s p, childs (mkCached n' s 0 ∅ p 0) = Ok hs) ->
  (forall d' c, (forall x, present d x -> present d' x) -> cnode c = n' -> entry_ok d' h c) ->
  exists d', db_put h b n d = Ok d' /\ db_ok d' /\ is_Some (dirties d' !! h) /\ (forall x, present d x -> present d' x).
Proof.
  intros Hd H0 En [hs Ehs] He. unfold db_put. destruct (dirties d !! h) as [c|] eqn:E; [exists d; by rewrite E|].
  rewrite En. cbn [rbind]. rewrite Ehs. cbn [rbind]. destruct (ok_list _ Hd) as [l Hl].
  set (c := mkCached _ _ _ _ _ _). destruct (put_links d l h c (foldl add_parent (dirties d) hs)) as (d' & E' & Hl' & Ed & Eh & Hx); try done.
  { intros x. apply add_parents_core. }
  cbn [oldest newest set_dirties] in *. rewrite E'. cbn [rbind]. eexists. split; [done|].
  assert (forall x, is_Some (dirties d !! x) -> is_Some (dirties d' !! x)) as Hs.
  { intros x Hs. destruct (decide (x = h)) as [->|Hne]; [by rewrite Eh|]. specialize (Hx x Hne). destruct Hs as [? Es]. rewrite Es in Hx. by destruct (dirties d' !! x). }
  assert (forall x, present d x -> present d' x) as Hp by (intros x [?|?]; [left; auto|right; by rewrite Ed]).
  split_and!; [|cbn [dirties add_size]; by rewrite Eh|done].
  apply (db_ok_step d); try done; cbn [dirties add_size]; [|exists (l ++ [h]); by destruct Hl'; split].
  intros x c' Ec'. destruct (decide (x = h)) as [->|Hne].
  - rewrite Eh in Ec'. injection Ec' as <-. split; [done|]. right. split; [done|]. by apply He.
  - specialize (Hx x Hne). rewrite Ec' in Hx. destruct (dirties d !! x) as [c0|] eqn:E0; [|done]. cbn in Hx. injection Hx as E1 E2.
    split; [rewrite E2; by apply (ok_children _ Hd x)|]. left. by exists c0.
Qed.

Lemma childs_node c t : cnode c = rnode t -> canon t -> childs c = Ok (ranges (children c) ++ map thash (refs t)).
Proof.
  intros E Hc. pose proof (gather_rnode t Hc) as Eg. unfold childs. rewrite E.
  assert (forall b, rnode t <> rawNode b) as Hraw by (intros b; by destruct Hc). destruct (rnode t); try (by rewrite Eg). by destruct (Hraw b).
Qed.

Lemma ranges_empty : ranges ∅ = [].
Proof. apply Permutation_nil. rewrite ranges_all. by rewrite map_to_list_empty. Qed.

(** A database in order is one a trie can use. *)
#[global] Program Instance database_laws : NodeDBLaws Database K :=
  { db_inv := db_ok; db_live h d := h <> 0 /\ is_Some (dirties d !! h) }.
Next Obligation.
  intros d t n Hd Hc Hk Hkn Hb Hn.
  destruct (put_spec d (thash t) (blob t) n (rnode t)) as (d' & E & Hd' & Hs & Hp); [done|by apply (known_nonzero (K := K))|done| |..].
  - exists (map thash (refs t)). intros s p. rewrite (childs_node _ t) by done. cbn [children]. by rewrite ranges_empty.
  - intros d' c Hp Ec. apply (entry_node d' _ c t); try done. intros u Hu. apply Hp.
    rewrite below_refs in Hb. destruct (Hb u Hu) as [Hhu _]. by apply has_present.
  - exists d'. split_and!; try done; [by apply (known_nonzero (K := K))| |].
    + apply present_has; try done. by left.
    + by apply present_grows.
Qed.

(** A blob may be kept as long as it is not the encoding of a node. *)
Lemma InsertBlob_ok d b : db_ok d -> K b -> not_node b ->
  exists d', InsertBlob (Keccak256Hash b) b d = Ok d' /\ grows d d' /\ present d' (Keccak256Hash b).
Proof.
  intros Hd Hk Hb. destruct (put_spec d (Keccak256Hash b) b (rawNode b) (rawNode b)) as (d' & E & Hd' & Hs & Hp);
    [done|by apply (known_nonzero (K := K))|done|by exists (ranges ∅)| |].
  - intros d' c _ Ec. by apply (entry_blob d' _ c b).
  - exists d'. split_and!; [done| |by left]. split; [done|by apply present_grows].
Qed.

(** ** References *)
Lemma at_entry_ok d h f c : db_ok d -> dirties d !! h = Some c -> cnode (f c) = cnode c -> links (f c) = links c -> children (f c) !! 0 = None ->
  exists d', at_entry h f d = Ok d' /\ db_ok d' /\ diskdb d' = diskdb d /\ dirties d' = <[h := f c]> (dirties d).
Proof.
  intros Hd E Ec El Eh. unfold at_entry. rewrite E. eexists. split; [done|]. split; [|done].
  assert (forall x, is_Some (dirties d !! x) <-> is_Some (<[h := f c]> (dirties d) !! x)) as Hs.
  { intros x. rewrite lookup_insert_is_Some'. split; [by right|]. intros [<-|?]; [by rewrite E|done]. }
  apply (db_ok_step d); try done; cbn [dirties set_dirties].
  - intros x. apply Hs.
  - intros x c' Ex. apply lookup_insert_Some in Ex as [[<- <-]|[Hne Ex]].
    + split; [done|]. left. by exists c.
    + split; [by apply (ok_children _ Hd x)|]. left. by exists c'.
  - destruct (ok_list _ Hd) as [l Hl]. exists l. split; try apply Hl; cbn [dirties set_dirties].
    + eapply linked_frame; [|apply Hl]. intros x Hx. destruct (decide (x = h)) as [->|]; [|by rewrite lookup_insert_ne].
      rewrite lookup_insert_eq, E. cbn. by rewrite El.
    + intros x. rewrite (l_all _ _ _ Hl), Hs. done.
Qed.

Lemma reference_ok d child parent : db_ok d -> child <> 0 -> is_Some (dirties d !! parent) ->
  exists d', reference child parent d = Ok d' /\ grows d d' /\ is_Some (dirties d' !! parent).
Proof.
  intros Hd H0 [p Ep]. unfold reference. destruct (dirties d !! child) as [c|] eqn:E; [|exists d; split_and!; [done|by apply grows_refl|by rewrite Ep]].
  rewrite Ep. destruct (_ && _); [exists d; split_and!; [done|by apply grows_refl|by rewrite Ep]|].
  destruct (at_entry_ok d child more_parents c) as (d1 & -> & Hd1 & Ed1 & Em1); [done..|by apply (ok_children _ Hd child c)|]. cbn [rbind].
  assert (exists p', dirties d1 !! parent = Some p') as [p' Ep'].
  { rewrite Em1. apply lookup_insert_is_Some'. right. by rewrite Ep. }
  destruct (at_entry_ok d1 parent (more_children child) p') as (d2 & E2 & Hd2 & Ed2 & Em2); try done.
  { cbn [children more_children]. rewrite lookup_insert_ne by done. by apply (ok_children _ Hd1 parent). }
  exists d2. split_and!; [done| |rewrite Em2; by rewrite lookup_insert_eq]. split; [done|]. apply present_grows; try done.
  intros x [Hx|Hx]; [left|right; by rewrite Ed2, Ed1]. rewrite Em2, Em1. apply lookup_insert_is_Some'. right. apply lookup_insert_is_Some'. by right.
Qed.
End with_keccak.

End TrieStore.
