(* ===== verification/TrieCommit.v ===== *)
(** * What is committed to the disk survives

    [Commit] of the database writes every node below a root, children first and
    in several batches when they are large, and only then forgets them.  If a
    write fails, the nodes stay in memory and what is on the disk is still
    complete. *)
From S2P Require Import Prelude Wire EthMath StateDB Rlp RlpDecode RlpRaw TrieKeys TrieNode TrieTree TrieCodec Trie TrieMap TrieHash TrieSpec TrieDB TrieStore.

Module TrieCommit.
Import Rlp RlpDecode TrieKeys TrieNode TrieTree TrieCodec Trie TrieMap TrieHash TrieSpec TrieDB TrieStore.
Import EthMath(hash_Bytes, BytesToHash).

Section with_keccak.
Context `{HK : Keccak, HKL : !KeccakLaw, HO : MapOrder, HOL : !MapOrderLaw, HKn : !Known K}.
Variable fails : nat -> bool.

#[local] Abbreviation db_ok := (TrieStore.db_ok (K := K)).

(** ** Nodes below a root *)
Inductive reach (m : gmap Z cachedNode) : Z -> Z -> Prop :=
| reach_here h c : m !! h = Some c -> reach m h h
| reach_child h c hs x y : m !! h = Some c -> childs c = Ok hs -> x ∈ hs -> reach m x y -> reach m h y.

(** The entries below [h] are at most [n] deep: there are no cycles. *)
Fixpoint within (m : gmap Z cachedNode) (n : nat) (h : Z) : Prop :=
  match m !! h with
  | None => True
  | Some c =>
      match n with
      | O => childs c = Ok []
      | S n => exists hs, childs c = Ok hs /\ Forall (within m n) hs
      end
  end.

Lemma within_childs m n h c : within m n h -> m !! h = Some c -> exists hs, childs c = Ok hs /\ (hs = [] \/ exists k, n = S k /\ Forall (within m k) hs).
Proof. destruct n; cbn [within]; intros Hw E; rewrite E in Hw; [eauto|]. destruct Hw as (hs & ? & ?). eauto 6. Qed.

Lemma within_S m n h : within m n h -> within m (S n) h.
Proof.
  revert h. induction n as [|n IH]; intros h; cbn [within]; destruct (m !! h) as [c|]; try done.
  - intros ->. by exists [].
  - intros (hs & -> & Hhs). exists hs. split; [done|]. eapply Forall_impl; [exact Hhs|]. exact IH.
Qed.

Lemma within_le m n k h : (n <= k)%nat -> within m n h -> within m k h.
Proof. induction 1; [done|]. intros ?. apply within_S. auto. Qed.

Lemma within_reach m x y : reach m x y -> forall n, within m n x -> within m n y.
Proof.
  induction 1 as [|h c hs x y E Ec Hx _ IH]; intros n Hw; [done|]. destruct (within_childs m n h c Hw E) as (hs' & Ec' & Hhs).
  rewrite Ec in Ec'. injection Ec' as <-. destruct Hhs as [->|(k & -> & Hhs)]; [by apply elem_of_nil in Hx|].
  apply within_S, IH. by rewrite Forall_forall in Hhs; apply Hhs.
Qed.

Lemma within_acyclic m n h c hs x : within m n h -> m !! h = Some c -> childs c = Ok hs -> x ∈ hs -> ~ reach m x h.
Proof.
  induction n as [|n IH]; intros Hw E Ec Hx Hr; destruct (within_childs m _ h c Hw E) as (hs' & Ec' & Hhs);
    rewrite Ec in Ec'; injection Ec' as <-; destruct Hhs as [->|(k & Ek & Hhs)]; try (by apply elem_of_nil in Hx); [done|].
  injection Ek as <-. apply IH; try done. eapply within_reach; [done|]. by rewrite Forall_forall in Hhs; apply Hhs.
Qed.

(** Entries may be missing, and linked otherwise. *)
Definition skel (c : cachedNode) := (cnode c, children c).

Definition part_of (m' m : gmap Z cachedNode) : Prop := forall x c', m' !! x = Some c' -> exists c, m !! x = Some c /\ skel c' = skel c.

Lemma childs_skel c c' : skel c' = skel c -> childs c' = childs c.
Proof. unfold skel, childs. by intros [= -> ->]. Qed.

Lemma part_refl m : part_of m m.
Proof. intros x c E. by exists c. Qed.

Lemma part_trans m1 m2 m3 : part_of m1 m2 -> part_of m2 m3 -> part_of m1 m3.
Proof. intros H1 H2 x c E. destruct (H1 x c E) as (c2 & E2 & ->). by apply H2. Qed.

Lemma reach_part m' m x y : part_of m' m -> reach m' x y -> reach m x y.
Proof.
  intros Hp. induction 1 as [h c E|h c hs x y E Ec Hx _ IH]; destruct (Hp h c E) as (c0 & E0 & Es); [by eapply reach_here|].
  apply (reach_child m h c0 hs x y); try done. by rewrite <- (childs_skel c0 c).
Qed.

Lemma within_part m' m n h : part_of m' m -> within m n h -> within m' n h.
Proof.
  intros Hp. revert h. induction n as [|n IH]; intros h; cbn [within]; destruct (m' !! h) as [c|] eqn:E; try done;
    destruct (Hp h c E) as (c0 & -> & Es); rewrite (childs_skel c0 c) by done; [done|].
  intros (hs & ? & Hhs). exists hs. split; [done|]. eapply Forall_impl; [exact Hhs|]. exact IH.
Qed.

(** ** Batches *)
Definition mem (d : Database) := (dirties d, oldest d, newest d, preimages d).

(** The disk once the batch is written. *)
Definition after (b : Batch) (d : Database) : gmap bytes bytes := apply_writes (writes b) (diskdb d).

Definition complete (m : gmap bytes bytes) : Prop := disk_ok (K := K) m /\ disk_closed (K := K) m.

(** Both the disk and the disk with the batch are complete. *)
Definition saving (b : Batch) (d : Database) : Prop := complete (diskdb d) /\ complete (after b d).

Lemma after_Put k v b d : after (Put k v b) d = <[k := v]> (after b d).
Proof. unfold after, apply_writes, Put. cbn [writes]. by rewrite foldl_app. Qed.

Lemma after_mono b d h : on_disk (diskdb d) h -> on_disk (after b d) h.
Proof.
  unfold after, on_disk. generalize (diskdb d). induction (writes b) as [|[k v] l IH]; intros m; [done|]. intros Hm.
  apply IH. cbn [fst snd]. apply lookup_insert_is_Some'. by right.
Qed.

(** What a step of writing leaves. *)
Definition wrote (b : Batch) (d : Database) (o : option dbErr * Batch * Database) : Prop :=
  let '(err, b', d') := o in
  mem d' = mem d /\ (forall h, on_disk (diskdb d) h -> on_disk (diskdb d') h) /\
  match err with
  | None => saving b' d' /\ (forall h, on_disk (after b d) h -> on_disk (after b' d') h)
  | Some e => complete (diskdb d') /\ e = write_failed /\ exists n, fails n = true
  end.

Lemma wrote_refl b d : saving b d -> wrote b d (None, b, d).
Proof. by intros. Qed.

Lemma wrote_trans b d b' d' o : wrote b d (None, b', d') -> wrote b' d' o -> wrote b d o.
Proof.
  destruct o as [[[e|] b2] d2]; intros (Hm & Hd & Hs & Ha) (Hm2 & Hd2 & Hs2).
  - split_and!; [congruence|auto|apply Hs2..].
  - destruct Hs2 as [Hs2 Ha2]. split_and!; [congruence|auto..].
Qed.

Lemma flush_wrote large b d : saving b d -> wrote b d (flush_if fails large b d).
Proof.
  intros [Hs Ha]. unfold flush_if. destruct large; [|by split_and!]. unfold Write. destruct (fails (written d)) eqn:E.
  - split_and!; try done. by eexists.
  - split_and!; try done. intros h. apply after_mono.
Qed.

(** ** Writing the nodes *)
Definition sound (d : Database) : Prop :=
  (forall h c, dirties d !! h = Some c -> h <> 0 -> entry_ok (K := K) d h c) /\ (forall h c, dirties d !! h = Some c -> children c !! 0 = None).

Lemma sound_wrote b d err b' d' : sound d -> wrote b d (err, b', d') -> sound d'.
Proof.
  intros [H1 H2] (Hm & Hd & _). injection Hm as Em _ _ _. unfold sound. rewrite Em. split; [|done]. intros h c E H0.
  eapply entry_ok_mono; [by apply H1|done|]. intros x [Hx|Hx]; [left; by rewrite Em|right; auto].
Qed.

Lemma entry_range d h c : entry_ok (K := K) d h c -> 0 <= h < 2 ^ 256.
Proof. intros [t _ _ _ _ -> _|b _ _ -> _]; apply keccak_range. Qed.

Lemma child_nonzero d h c hs x : sound d -> h <> 0 -> dirties d !! h = Some c -> childs c = Ok hs -> x ∈ hs -> x <> 0.
Proof.
  intros [He Hc] H0 E Ec Hx ->. specialize (Hc h c E). assert (0 ∉ ranges (children c)) as Hr.
  { rewrite ranges_all. intros ([k v] & E0 & Hin)%list_elem_of_fmap. apply elem_of_map_to_list in Hin. cbn [fst] in E0. congruence. }
  destruct (He h c E H0) as [t En Hct Hk Hkn -> _|b En Hk -> Hb].
  - rewrite (childs_node c t) in Ec by done. injection Ec as <-. apply elem_of_app in Hx as [Hx|Hx]; [done|].
    apply list_elem_of_fmap in Hx as (u & E0 & Hu). unfold known_below in Hkn. rewrite below_refs in Hkn.
    destruct (Hkn u Hu) as [Hku _]. by destruct (known_nonzero (K := K) _ Hku).
  - unfold childs in Ec. rewrite En in Ec. injection Ec as <-. done.
Qed.

Lemma complete_insert m d h c enc hs : complete m -> sound d -> h <> 0 -> dirties d !! h = Some c -> childs c = Ok hs -> cached_rlp c = Ok enc ->
  (forall x, on_disk (diskdb d) x -> on_disk m x) -> (forall x, x ∈ hs -> is_Some (dirties d !! x) -> on_disk m x) ->
  complete (<[hash_Bytes h := enc]> m).
Proof.
  intros [Ho Hcl] [He _] H0 E Ec Er Hdm Hhs. specialize (He h c E H0). pose proof (entry_range d h c He) as Hr.
  destruct (entry_content d h c He) as (b & Er' & Hkb & Eb & _). rewrite Er in Er'. injection Er' as ->. split.
  - intros h' b' Hr' [[Eh <-]|[_ Eh]]%lookup_insert_Some; [|by apply Ho]. apply disk_key_inj in Eh as <-; done.
  - intros t Hct Hkt Hknt Ht u Hu. apply lookup_insert_is_Some'. right.
    destruct (decide (thash t = h)) as [Eh|Hne].
    + destruct He as [t' En Hct' Hkt' Hknt' Eh' Hrefs|b' En Hkb' Eh' Hnb].
      * assert (t = t') as <- by (apply (root_determines K); try done; congruence).
        rewrite (childs_node c t) in Ec by done. injection Ec as <-. destruct (Hrefs u Hu) as [Hd|Hd]; [|by apply Hdm].
        apply Hhs; [|done]. apply elem_of_app. right. apply list_elem_of_fmap. by exists u.
      * destruct (Hnb t Hct). apply (known_inj (K := K)); [done..|]. unfold thash in Eh. congruence.
    + apply (Hcl t); try done. apply lookup_insert_is_Some' in Ht as [Ek|Ht]; [|done].
      apply disk_key_inj in Ek; [congruence|done|apply thash_range].
Qed.

(** The nodes below [h] are on the disk once the batch is. *)
Definition commits (h : Z) (b : Batch) (d : Database) (r : res (option dbErr * Batch * Database)) : Prop :=
  exists o, r = Ok o /\ wrote b d o /\ (o.1.1 = None -> forall y, reach (dirties d) h y -> on_disk (after o.1.2 o.2) y).

Lemma commit_all_spec f hs : forall d b, (forall x b' d', x ∈ hs -> mem d' = mem d -> sound d' -> saving b' d' -> commits x b' d' (f x b' d')) ->
  sound d -> saving b d ->
  exists o, commit_all f hs b d = Ok o /\ wrote b d o /\
    (o.1.1 = None -> forall x y, x ∈ hs -> reach (dirties d) x y -> on_disk (after o.1.2 o.2) y).
Proof.
  induction hs as [|h hs IH]; intros d b Hf Hd Hs.
  { exists (None, b, d). split_and!; [done|by apply wrote_refl|]. by intros _ x y ?%elem_of_nil. }
  cbn [commit_all]. destruct (Hf h b d) as ([[err b1] d1] & -> & Hw & Hr); [by left|done..|]. cbn [rbind fst snd] in *.
  destruct err as [e|]; [by exists (Some e, b1, d1)|]. pose proof Hw as (Hm1 & _ & Hs1 & _).
  destruct (IH d1 b1) as (o & E & Hw2 & Hr2); [|by eapply sound_wrote|done|].
  { intros x b' d' Hx Hm'. apply Hf; [by right|congruence]. }
  exists o. split_and!; [done|by eapply wrote_trans|]. intros Eo x y Hx Hxy. injection Hm1 as Em1 _ _ _.
  apply elem_of_cons in Hx as [->|Hx]; [|apply (Hr2 Eo x y Hx); by rewrite Em1].
  specialize (Hr eq_refl y Hxy). destruct o as [[err b2] d2]. cbn [fst snd] in *. subst err. by apply Hw2.
Qed.

Lemma commit_spec fuel : forall n h b d, sound d -> saving b d -> h <> 0 -> within (dirties d) n h -> (n < fuel)%nat ->
  commits h b d (commit fails fuel h b d).
Proof.
  induction fuel as [|fuel IH]; intros n h b d Hd Hs H0 Hw Hn; [lia|]. cbn [commit]. destruct (dirties d !! h) as [c|] eqn:E.
  2:{ exists (None, b, d). split_and!; [done|by apply wrote_refl|]. intros _ y Hr. inversion Hr; congruence. }
  destruct (within_childs _ n h c Hw E) as (hs & Ec & Hhs). rewrite Ec. cbn [rbind].
  destruct (commit_all_spec (commit fails fuel) hs d b) as ([[err b1] d1] & -> & Hw1 & Hr1); [|done..|].
  { intros x b' d' Hx Hm Hd' Hs'. destruct Hhs as [->|(k & -> & Hhs)]; [by apply elem_of_nil in Hx|].
    injection Hm as Em _ _ _. apply (IH k); try done; [by apply (child_nonzero d h c hs)| |lia].
    rewrite Em. rewrite Forall_forall in Hhs. by apply Hhs. }
  cbn [rbind fst snd] in *. destruct err as [e|]; [by exists (Some e, b1, d1)|].
  pose proof (sound_wrote _ _ _ _ _ Hd Hw1) as Hd1. pose proof Hw1 as (Hm1 & _ & [Hc1 Ha1] & _). injection Hm1 as Em1 _ _ _.
  assert (dirties d1 !! h = Some c) as E1 by (by rewrite Em1).
  destruct (entry_content d1 h c) as (enc & Er & _ & _ & _); [by apply Hd1|]. rewrite Er. cbn [rbind].
  assert (saving (Put (hash_Bytes h) enc b1) d1) as Hs2.
  { split; [done|]. rewrite after_Put. apply (complete_insert _ d1 h c enc hs); try done; [intros x; apply after_mono|].
    intros x Hx [cx Ex]. apply (Hr1 eq_refl x x Hx). rewrite Em1 in Ex. by eapply reach_here. }
  pose proof (flush_wrote (ValueSize (Put (hash_Bytes h) enc b1) >=? IdealBatchSize) _ _ Hs2) as Hw2.
  destruct (flush_if _ _ _ _) as [[err b2] d2]. exists (err, b2, d2). split_and!; [done| |].
  - eapply wrote_trans; [exact Hw1|]. eapply wrote_trans; [|exact Hw2]. split_and!; try done. intros x Hx.
    rewrite after_Put. apply lookup_insert_is_Some'. by right.
  - cbn [fst snd]. intros -> y Hr. apply Hw2. rewrite after_Put. apply lookup_insert_is_Some'.
    inversion Hr as [? ? Ey|? ? hs' x ? Ey Ec' Hx Hxy]; subst; [by left|right]. rewrite E in Ey. injection Ey as <-.
    rewrite Ec in Ec'. injection Ec' as <-. by apply (Hr1 eq_refl x).
Qed.
(** ** Forgetting the nodes *)
Lemma at_entry_skel d x f c : dirties d !! x = Some c -> (forall c, skel (f c) = skel c) ->
  exists d', at_entry x f d = Ok d' /\ dirties d' = <[x := f c]> (dirties d) /\ diskdb d' = diskdb d /\ oldest d' = oldest d /\ newest d' = newest d /\
    (forall y, skel <$> dirties d' !! y = skel <$> dirties d !! y).
Proof.
  intros E Hf. unfold at_entry. rewrite E. eexists. split_and!; try done. cbn [dirties set_dirties]. intros y.
  destruct (decide (y = x)) as [->|]; [|by rewrite lookup_insert_ne]. rewrite lookup_insert_eq, E. cbn. by rewrite Hf.
Qed.

Lemma skel_is_Some (m m' : gmap Z cachedNode) x : skel <$> m' !! x = skel <$> m !! x -> is_Some (m' !! x) <-> is_Some (m !! x).
Proof. intros E. rewrite <- (fmap_is_Some skel (m' !! x)), E. apply fmap_is_Some. Qed.

Lemma listed_remove d P l1 h l2 : listed d P (l1 ++ h :: l2) ->
  forall x, (x ∈ l1 ++ l2) <-> (x ∉ {[h]} ∪ P) /\ is_Some (dirties d !! x).
Proof.
  intros Hl x. pose proof (l_all _ _ _ Hl x) as Hx. pose proof (l_nodup _ _ _ Hl) as Hnd. apply NoDup_app in Hnd as (_ & H1 & [H2 _]%NoDup_cons).
  rewrite elem_of_app, elem_of_cons in Hx. rewrite elem_of_app, not_elem_of_union, not_elem_of_singleton.
  assert (x = h -> (x ∉ l1) /\ (x ∉ l2)) by (intros ->; split; [intros Hin; apply (H1 h Hin); by left|done]). naive_solver.
Qed.

(** An entry [h] of the list with what is before and after it. *)
Record around (d : Database) (P : gset Z) (l1 : list Z) (h : Z) (c : cachedNode) (l2 : list Z) : Prop := {
  ar_listed : listed d P (l1 ++ h :: l2);
  ar_before : linked (dirties d) None l1 h;
  ar_after : linked (dirties d) (Some h) l2 0;
  ar_next : flushNext c = hd 0 l2;
  ar_prev : forall q, final None l1 = Some q -> flushPrev c = q;
  ar_nodup : NoDup (l1 ++ l2);
  ar_not_in : h ∉ l1 ++ l2;
  ar_in : forall x, x ∈ l1 ++ l2 -> is_Some (dirties d !! x)
}.

Lemma listed_around d P l1 h c l2 : listed d P (l1 ++ h :: l2) -> dirties d !! h = Some c -> around d P l1 h c l2.
Proof.
  intros Hl E. pose proof (l_linked _ _ _ Hl) as Hlk. apply linked_app in Hlk as [Hlk1 [(c' & E' & En & Ep) Hlk2]].
  rewrite E in E'. injection E' as <-. pose proof (l_nodup _ _ _ Hl) as Hnd. apply NoDup_app in Hnd as (Hnd1 & Hd & [Hh2 Hnd2]%NoDup_cons).
  split; try done.
  - apply NoDup_app. split_and!; try done. intros x Hx Hx2. apply (Hd x Hx). by right.
  - intros [Hx|Hx]%elem_of_app; [|done]. apply (Hd h Hx). by left.
  - intros x Hx. by apply (listed_remove d P l1 h l2 Hl).
Qed.

Definition unlinks (d : Database) (P : gset Z) (h : Z) (r : res Database) : Prop :=
  exists d' l', r = Ok d' /\ listed d' ({[h]} ∪ P) l' /\ diskdb d' = diskdb d /\
    (forall x, skel <$> dirties d' !! x = skel <$> dirties d !! x).

Lemma unlink_head d P h c l2 : around d P [] h c l2 -> is_Some (dirties d !! 0) -> unlinks d P h (unlink h c d).
Proof.
  intros Ha [c0 E0]. pose proof (ar_listed _ _ _ _ _ _ Ha) as Hl. unfold unlink. rewrite (l_oldest _ _ _ Hl). cbn [app hd].
  rewrite Z.eqb_refl, (ar_next _ _ _ _ _ _ Ha). assert (exists cn, dirties d !! hd 0 l2 = Some cn) as [cn Ecn].
  { destruct l2 as [|y r]; [by exists c0|]. apply (ar_in _ _ _ _ _ _ Ha). by left. }
  destruct (at_entry_skel (set_ends (hd 0 l2) (newest d) d) (hd 0 l2) (set_prev 0) cn) as (d' & -> & Em & Ed & Eo & Ew & Hs); [done..|].
  exists d', l2. split_and!; try done. split; try done.
  - rewrite Em. destruct l2 as [|y r]; [done|]. apply (linked_weaken _ (Some 0)).
    eapply linked_prev; [apply Ha|apply Ha|done].
  - apply Ha.
  - intros x Ex. rewrite Ew. apply (l_newest _ _ _ Hl). cbn [app]. destruct l2; [done|exact Ex].
  - intros x. rewrite (skel_is_Some (dirties d)) by done. apply (listed_remove d P [] h l2 Hl x).
Qed.

Lemma unlink_tail d P k q h c : around d P (k ++ [q]) h c [] -> unlinks d P h (unlink h c d).
Proof.
  intros Ha. pose proof (ar_listed _ _ _ _ _ _ Ha) as Hl. pose proof (ar_nodup _ _ _ _ _ _ Ha) as Hnd. pose proof (ar_not_in _ _ _ _ _ _ Ha) as Hh.
  rewrite app_nil_r in Hnd, Hh. unfold unlink. assert (h <> oldest d) as Ho.
  { rewrite (l_oldest _ _ _ Hl). destruct k; cbn [app hd] in *; set_solver. }
  rewrite (proj2 (Z.eqb_neq _ _) Ho). rewrite (l_newest _ _ _ Hl h), Z.eqb_refl by (by rewrite last_snoc).
  rewrite (ar_prev _ _ _ _ _ _ Ha q) by apply final_snoc.
  destruct (ar_in _ _ _ _ _ _ Ha q) as [cq Eq]; [set_solver|].
  destruct (at_entry_skel (set_ends (oldest d) q d) q (set_next 0) cq) as (d' & -> & Em & Ed & Eo & Ew & Hs); [done..|].
  exists d', (k ++ [q]). split_and!; try done. split; try done.
  - rewrite Em. eapply linked_next; [apply Ha|done..].
  - rewrite Eo. cbn [oldest set_ends]. rewrite (l_oldest _ _ _ Hl). by destruct k.
  - intros x. rewrite last_snoc, Ew. by intros [= <-].
  - intros x. rewrite (skel_is_Some (dirties d)) by done. rewrite <- (listed_remove d P (k ++ [q]) h [] Hl x). by rewrite app_nil_r.
Qed.

Lemma unlink_middle d P k q h c y r : around d P (k ++ [q]) h c (y :: r) -> unlinks d P h (unlink h c d).
Proof.
  intros Ha. pose proof (ar_listed _ _ _ _ _ _ Ha) as Hl. pose proof (ar_nodup _ _ _ _ _ _ Ha) as Hnd. pose proof (ar_not_in _ _ _ _ _ _ Ha) as Hh.
  apply NoDup_app in Hnd as (Hnd1 & Hd & Hnd2). unfold unlink. assert (h <> oldest d) as Ho.
  { rewrite (l_oldest _ _ _ Hl). destruct k; cbn [app hd] in *; set_solver. }
  assert (h <> newest d) as Hn.
  { destruct (last (y :: r)) as [z|] eqn:Ez; [|by apply last_None in Ez].
    rewrite (l_newest _ _ _ Hl z) by (rewrite last_app, last_cons, Ez; done). intros ->. apply Hh, elem_of_app. right. by apply last_Some_elem_of. }
  rewrite (proj2 (Z.eqb_neq _ _) Ho), (proj2 (Z.eqb_neq _ _) Hn).
  rewrite (ar_prev _ _ _ _ _ _ Ha q), (ar_next _ _ _ _ _ _ Ha) by apply final_snoc. cbn [hd].
  destruct (ar_in _ _ _ _ _ _ Ha q) as [cq Eq]; [set_solver|]. destruct (ar_in _ _ _ _ _ _ Ha y) as [cy Ey]; [set_solver|].
  assert (q ∉ y :: r) as Hq2 by (apply Hd; set_solver).
  destruct (at_entry_skel d q (set_next y) cq) as (d1 & -> & Em1 & Ed1 & Eo1 & Ew1 & Hs1); [done..|]. cbn [rbind].
  assert (q <> y) as Hqy by (intros ->; apply Hq2; by left).
  destruct (at_entry_skel d1 y (set_prev q) cy) as (d2 & -> & Em2 & Ed2 & Eo2 & Ew2 & Hs2); [by rewrite Em1, lookup_insert_ne|done|].
  exists d2, ((k ++ [q]) ++ y :: r). split_and!; [done| |congruence|intros x; by rewrite Hs2, Hs1]. split; [|apply Ha|..].
  - apply linked_app. rewrite Em2, Em1, final_snoc. cbn [hd]. split.
    + eapply linked_frame, (linked_next _ _ k q cq h y); [|apply Ha|done..]. intros x Hx. rewrite (lookup_insert_ne _ y); [done|].
      intros <-. by apply (Hd y Hx); left.
    + eapply (linked_prev _ (Some h)); [|done|by rewrite lookup_insert_ne]. eapply linked_frame, Ha. intros x Hx.
      rewrite lookup_insert_ne; [done|]. by intros <-.
  - rewrite Eo2, Eo1, (l_oldest _ _ _ Hl). by destruct k.
  - intros x Ex. rewrite Ew2, Ew1. apply (l_newest _ _ _ Hl). rewrite last_app, last_cons in Ex |- *. rewrite last_cons. by destruct (last r).
  - intros x. rewrite (skel_is_Some (dirties d1)), (skel_is_Some (dirties d)) by done. apply (listed_remove d P (k ++ [q]) h (y :: r) Hl x).
Qed.

Lemma unlink_spec d P l h c : listed d P l -> h ∈ l -> dirties d !! h = Some c -> is_Some (dirties d !! 0) -> unlinks d P h (unlink h c d).
Proof.
  intros Hl Hh E E0. apply list_elem_of_split in Hh as (l1 & l2 & ->). pose proof (listed_around d P l1 h c l2 Hl E) as Ha.
  destruct l1 as [|q k] using rev_ind; [by eapply unlink_head|]. destruct l2 as [|y r]; [by eapply unlink_tail|by eapply unlink_middle].
Qed.

(** What is forgotten is below [h]; nothing of [P] is. *)
Definition forgets (d : Database) (P : gset Z) (below : Z -> Prop) (d' : Database) : Prop :=
  (exists l, listed d' P l) /\ diskdb d' = diskdb d /\ part_of (dirties d') (dirties d) /\
  (forall x, is_Some (dirties d !! x) -> is_Some (dirties d' !! x) \/ below x).
Lemma part_skel (m m' : gmap Z cachedNode) : (forall x, skel <$> m' !! x = skel <$> m !! x) -> part_of m' m.
Proof.
  intros Hs x c' E. specialize (Hs x). rewrite E in Hs. destruct (m !! x) as [c|]; [|done]. exists c. split; [done|].
  by apply (f_equal (default (skel c))) in Hs.
Qed.

Lemma uncache_all_spec P f hs : 0 ∈ P -> forall d,
  (forall x d', x ∈ hs -> part_of (dirties d') (dirties d) -> (exists l, listed d' P l) -> is_Some (dirties d' !! 0) ->
     (forall y, reach (dirties d') x y -> y ∉ P) /\ exists d'', f x d' = Ok (None, d'') /\ forgets d' P (reach (dirties d') x) d'') ->
  (exists l, listed d P l) -> is_Some (dirties d !! 0) ->
  exists d', uncache_all f hs d = Ok (None, d') /\ forgets d P (fun y => exists x, x ∈ hs /\ reach (dirties d) x y) d'.
Proof.
  intros HP. induction hs as [|h hs IH]; intros d Hf Hl H0.
  { exists d. split; [done|]. split_and!; [done|done|apply part_refl|by left]. }
  cbn [uncache_all]. destruct (Hf h d) as (Hn & d1 & -> & Hl1 & Ed1 & Hp1 & Hb1); [by left|apply part_refl|done..|]. cbn [rbind].
  assert (is_Some (dirties d1 !! 0)) as H01 by (destruct (Hb1 0 H0) as [|Hr]; [done|by destruct (Hn 0 Hr)]).
  destruct (IH d1) as (d2 & E & Hl2 & Ed2 & Hp2 & Hb2); [|done..|].
  { intros x d' Hx Hp. apply Hf; [by right|by eapply part_trans]. }
  exists d2. split; [done|]. split_and!; [done|congruence|by eapply part_trans|]. intros x Hx.
  destruct (Hb1 x Hx) as [Hx1|Hr]; [|right; exists h; split; [by left|done]]. destruct (Hb2 x Hx1) as [?|(y & Hy & Hr)]; [by left|].
  right. exists y. split; [by right|by eapply reach_part].
Qed.

Lemma uncache_spec fuel : forall n h d P, (exists l, listed d P l) -> 0 ∈ P -> is_Some (dirties d !! 0) ->
  within (dirties d) n h -> (n < fuel)%nat -> (forall y, reach (dirties d) h y -> y ∉ P) ->
  exists d', uncache fuel h d = Ok (None, d') /\ forgets d P (reach (dirties d) h) d'.
Proof.
  induction fuel as [|fuel IH]; intros n h d P [l Hl] HP H0 Hw Hn Hr; [lia|]. cbn [uncache]. destruct (dirties d !! h) as [c|] eqn:E.
  2:{ exists d. split; [done|]. split_and!; [by exists l|done|apply part_refl|by left]. }
  assert (h ∈ l) as Hhl by (apply (l_all _ _ _ Hl); split; [apply Hr; by eapply reach_here|by rewrite E]).
  destruct (unlink_spec d P l h c) as (d1 & l1 & -> & Hl1 & Ed1 & Hs1); [done..|]. cbn [rbind].
  destruct (within_childs _ n h c Hw E) as (hs & Ec & Hhs). rewrite Ec. cbn [rbind]. pose proof (part_skel _ _ Hs1) as Hp1.
  assert (is_Some (dirties d1 !! 0)) as H01 by (by apply (skel_is_Some (dirties d))).
  destruct (uncache_all_spec ({[h]} ∪ P) (uncache fuel) hs) with (d := d1) as (d2 & -> & [l2 Hl2] & Ed2 & Hp2 & Hb2); [set_solver| |by exists l1|done|].
  { intros x d' Hx Hp Hl' H0'. assert (part_of (dirties d') (dirties d)) as Hpd by (by eapply part_trans).
    assert (forall y, reach (dirties d') x y -> y ∉ {[h]} ∪ P) as Hxy.
    { intros y Hy%(reach_part _ _ _ _ Hpd). assert (y ∉ P) by (apply Hr; by eapply reach_child).
      assert (y <> h) by (intros ->; by eapply (within_acyclic _ n)). set_solver. }
    split; [done|]. destruct Hhs as [->|(k & -> & Hhs)]; [by apply elem_of_nil in Hx|].
    apply (IH k); try done; [set_solver| |lia]. eapply within_part; [done|]. rewrite Forall_forall in Hhs. by apply Hhs. }
  cbn [rbind]. eexists. split; [done|]. split_and!; cbn [dirties set_dirties add_size diskdb].
  - exists l2. split; cbn [dirties set_dirties add_size oldest newest]; try apply Hl2.
    + eapply linked_frame, Hl2. intros x Hx. apply (l_all _ _ _ Hl2) in Hx as [Hx _]. rewrite lookup_delete_ne; [done|]. set_solver.
    + intros x. rewrite (l_all _ _ _ Hl2), lookup_delete_is_Some. set_solver.
  - by rewrite Ed2.
  - intros x c' [_ Ex]%lookup_delete_Some. eapply part_trans; [exact Hp2|exact Hp1|exact Ex].
  - intros x Hx. destruct (decide (x = h)) as [->|Hne]; [right; by eapply reach_here|].
    rewrite lookup_delete_ne by done. destruct (Hb2 x) as [?|(y & Hy & Hxy)]; [by apply (skel_is_Some (dirties d))|by left|].
    right. eapply reach_child; [done..|]. by eapply reach_part.
Qed.

(** ** Preimages *)
Lemma secureKey_other h h' : secureKey h <> hash_Bytes h'.
Proof. intros E. apply (f_equal length) in E. unfold secureKey in E. rewrite length_app, !hash_length in E. done. Qed.

Lemma saving_preimage b d h p : saving b d -> saving (Put (secureKey h) p b) d.
Proof.
  intros [Hd [Ho Hc]]. split; [done|]. rewrite after_Put.
  assert (forall x, <[secureKey h := p]> (after b d) !! hash_Bytes x = after b d !! hash_Bytes x) as E.
  { intros x. apply lookup_insert_ne, secureKey_other. }
  split.
  - intros x bz. rewrite E. apply Ho.
  - intros t Hct Hk Hkn. unfold on_disk. rewrite E. intros Ht u Hu. rewrite E. by apply (Hc t).
Qed.

Lemma put_preimages_spec l : forall b d, saving b d -> wrote b d (put_preimages fails l b d).
Proof.
  induction l as [|[h p] l IH]; intros b d Hs; [by apply wrote_refl|]. cbn [put_preimages].
  pose proof (saving_preimage b d h p Hs) as Hs1. pose proof (flush_wrote (ValueSize (Put (secureKey h) p b) >? IdealBatchSize) _ _ Hs1) as Hw.
  assert (wrote b d (None, Put (secureKey h) p b, d)) as Hw0.
  { split_and!; try done; [apply Hs1..|]. intros x Hx. rewrite after_Put. apply lookup_insert_is_Some'. by right. }
  destruct (flush_if _ _ _ _) as [[[e|] b1] d1]; [by eapply wrote_trans|].
  eapply wrote_trans; [exact Hw0|]. eapply wrote_trans; [exact Hw|]. apply IH, Hw.
Qed.
(** ** The whole commit *)
Lemma reach_nonzero d h y : sound d -> reach (dirties d) h y -> h <> 0 -> y <> 0.
Proof. intros Hd. induction 1 as [|h c hs x y E Ec Hx _ IH]; [done|]. intros H0. apply IH. by eapply child_nonzero. Qed.

Lemma db_ok_sound d : db_ok d -> sound d.
Proof. intros Hd. split; apply Hd. Qed.

(** Only the disk has changed. *)
Lemma db_ok_wrote b d err b' d' : db_ok d -> wrote b d (err, b', d') -> db_ok d'.
Proof.
  intros Hd Hw. pose proof (sound_wrote _ _ _ _ _ (db_ok_sound d Hd) Hw) as [He Hc]. destruct Hw as (Hm & Hdk & Hs). injection Hm as Em Eo En _.
  assert (complete (diskdb d')) as [Hk Hcl] by (destruct err; [apply Hs|apply Hs]).
  split; try done; [rewrite Em; apply Hd|]. destruct (ok_list _ Hd) as [l Hl]. exists l. destruct Hl. split; rewrite ?Em, ?Eo, ?En; done.
Qed.

Definition committed (h : Z) (d : Database) (err : option dbErr) (d' : Database) : Prop :=
  db_ok d' /\ (forall x, present d x -> present d' x) /\ (forall x, on_disk (diskdb d) x -> on_disk (diskdb d') x) /\
  match err with
  | None => forall y, reach (dirties d) h y -> on_disk (diskdb d') y
  | Some e => e = write_failed /\ dirties d' = dirties d /\ exists n, fails n = true
  end.

Lemma failed_commit b d e b' d' h : db_ok d -> wrote b d (Some e, b', d') -> committed h d (Some e) d'.
Proof.
  intros Hd Hw. split; [by eapply db_ok_wrote|]. destruct Hw as (Hm & Hdk & _ & -> & Hf). injection Hm as Em _ _ _.
  split_and!; try done. intros x [Hx|Hx]; [left; by rewrite Em|right; auto].
Qed.

Lemma uncache_ok fuel n h d : db_ok d -> h <> 0 -> within (dirties d) n h -> (n < fuel)%nat ->
  (forall y, reach (dirties d) h y -> on_disk (diskdb d) y) ->
  exists d', uncache fuel h d = Ok (None, d') /\ diskdb d' = diskdb d /\ db_ok d' /\ (forall x, present d x -> present d' x).
Proof.
  intros Hd H0 Hw Hn Hr. destruct (ok_meta _ Hd) as (c0 & E0 & Ec0). pose proof (db_ok_sound d Hd) as Hs.
  destruct (uncache_spec fuel n h d {[0]}) as (d' & E & Hl & Ed & Hp & Hb); [apply Hd|set_solver|by rewrite E0|done..| |].
  { intros y Hy. apply not_elem_of_singleton. by eapply reach_nonzero. }
  assert (forall x, present d x -> present d' x) as Hpr.
  { intros x [Hx|Hx]; [|right; by rewrite Ed]. destruct (Hb x Hx) as [?|?]; [by left|right; rewrite Ed; auto]. }
  exists d'. split_and!; try done. split; try done.
  - destruct (Hb 0) as [[c' E']|Hr0]; [by rewrite E0| |by destruct (reach_nonzero d h 0 Hs Hr0 H0)].
    exists c'. split; [done|]. destruct (Hp 0 c' E') as (c & Ec & Es). unfold skel in Es. congruence.
  - intros x c' Ex Hx. destruct (Hp x c' Ex) as (c & Ec & Es). eapply entry_ok_mono; [by apply Hs| |done]. unfold skel in Es. congruence.
  - intros x c' Ex. destruct (Hp x c' Ex) as (c & Ec & Es). unfold skel in Es. injection Es as _ ->. by apply (ok_children _ Hd x).
  - rewrite Ed. apply Hd.
  - rewrite Ed. apply Hd.
Qed.

Lemma CommitDB_spec fuel n h d : db_ok d -> h <> 0 -> within (dirties d) n h -> (n < fuel)%nat ->
  exists err d', CommitDB fails fuel h d = Ok (err, d') /\ committed h d err d'.
Proof.
  intros Hd H0 Hw Hn. assert (saving NewBatch d) as Hs0 by (split; split; apply Hd).
  unfold CommitDB. pose proof (put_preimages_spec (ranges_pre (preimages d)) NewBatch d Hs0) as Hw1.
  destruct (put_preimages _ _ _ _) as [[[e|] b1] d1]; [exists (Some e), d1; split; [done|by eapply failed_commit]|].
  pose proof (db_ok_wrote _ _ _ _ _ Hd Hw1) as Hd1. pose proof Hw1 as (Hm1 & _ & Hs1 & _). injection Hm1 as Em1 _ _ _. rewrite <- Em1 in Hw.
  destruct (commit_spec fuel n h b1 d1) as ([[err b2] d2] & -> & Hw2 & Hr2); [by apply db_ok_sound|done..|]. cbn [rbind fst snd] in *.
  pose proof (wrote_trans _ _ _ _ _ Hw1 Hw2) as Hw12.
  destruct err as [e|]; [exists (Some e), d2; split; [done|by eapply failed_commit]|].
  assert (saving b2 d2) as Hs2 by apply Hw2. pose proof (flush_wrote true b2 d2 Hs2) as Hw3. unfold flush_if in Hw3.
  destruct (Write fails b2 d2) as [ok d3] eqn:E3. destruct ok.
  2:{ exists (Some write_failed), d3. split; [done|]. eapply failed_commit; [done|by eapply wrote_trans]. }
  pose proof (wrote_trans _ _ _ _ _ Hw12 Hw3) as Hw13. pose proof (db_ok_wrote _ _ _ _ _ Hd Hw13) as Hd3.
  pose proof Hw13 as (Hm3 & Hdk3 & _). injection Hm3 as Em3 _ _ _.
  assert (forall y, reach (dirties d3) h y -> on_disk (diskdb d3) y) as Hr3.
  { intros y Hy. rewrite Em3, <- Em1 in Hy. specialize (Hr2 eq_refl y Hy). by apply Hw3 in Hr2. }
  destruct (uncache_ok fuel n h (set_preimages ∅ 0 d3)) as (d4 & E4 & Ed4 & Hd4 & Hp4); [|done| |done|done|].
  { destruct Hd3 as [Hm He Hc Hk Hcl [l Hl]]. split; try done; [|exists l; by destruct Hl].
    intros x c Ex Hx. by eapply entry_ok_mono; [apply He| |]. }
  { cbn [dirties set_preimages]. by rewrite Em3, <- Em1. }
  exists None, d4. split; [done|]. split_and!; [done| |by rewrite Ed4|].
  - intros x Hx. apply Hp4. destruct Hx as [Hx|Hx]; [left; cbn [dirties set_preimages]; by rewrite Em3|right; by apply Hdk3].
  - intros y Hy. rewrite Ed4. apply Hr3. by rewrite Em3.
Qed.

(** ** Opening the database again *)
Lemma NewDatabase_ok m : complete m -> db_ok (NewDatabase m).
Proof.
  intros [Hk Hcl]. assert (forall h c, dirties (NewDatabase m) !! h = Some c -> h = 0 /\ c = mkCached nilNode 0 0 ∅ 0 0) as Hx.
  { intros h c Hx. cbn [NewDatabase dirties] in Hx. by apply lookup_singleton_Some in Hx as [<- <-]. }
  split; try done.
  - eexists. split; [apply lookup_singleton_eq|done].
  - intros h c E H0. by destruct (Hx h c E).
  - intros h c E. by destruct (Hx h c E) as [_ ->].
  - exists []. split; try done; [by apply NoDup_nil|]. intros h. split; [by intros ?%elem_of_nil|]. intros [H1 [c E]].
    destruct (Hx h c E) as [-> _]. set_solver.
Qed.

Lemma complete_empty : complete ∅.
Proof.
  split.
  - intros h b _ E. by rewrite lookup_empty in E.
  - intros t _ _ _ [b E]. by rewrite lookup_empty in E.
Qed.

Lemma reopen_ok d : db_ok d -> db_ok (NewDatabase (diskdb d)).
Proof. intros Hd. apply NewDatabase_ok. split; apply Hd. Qed.

Lemma open_present d tr m : db_ok d -> empty_root (K := K) -> canon tr -> K (blob tr) -> known_below K tr -> holds tr m ->
  present d (thash tr) -> exists t, New (thash tr) d = Ok (inr t) /\ trie_map d t m.
Proof.
  intros Hd [He HKe] Hc Hk Hkn Hh Hp. apply (New_stored tr m d); [by apply present_stored|done|by apply (known_nonzero (K := K))|].
  intros E. rewrite <- He in E. apply (known_inj (K := K)) in E; [|done..]. by destruct (blob_not_empty tr Hc).
Qed.

Lemma open_root d m h : db_ok d -> empty_root (K := K) -> known_map (K := K) m -> root_of m h -> (h <> emptyRoot -> present d h) ->
  exists t, New h d = Ok (inr t) /\ trie_map d t m.
Proof.
  intros Hd [He HKe] Hk (tr & Hw & Hh & ->) Hp. destruct (decide (tr = Empty)) as [->|Hne].
  - destruct (New_empty emptyRoot d) as (t & E & u & Hu & Hwu & Hhu); [by right|]. exists t. split; [done|]. exists u. split_and!; try done.
    by rewrite (holds_unique u Empty ∅ Hwu Hw Hhu holds_empty).
  - destruct (Hk tr Hw Hh Hne) as [Hb Hbl]. assert (spec_root tr = thash tr) as Es by (by destruct tr). rewrite Es in *.
    apply open_present; try done; [by apply Hw|]. apply Hp. intros E. rewrite <- He in E. apply (known_inj (K := K)) in E; [|done..].
    by destruct (blob_not_empty tr (Hw Hne)).
Qed.

Lemma trie_map_grows d d' t m : grows d d' -> trie_map d t m -> trie_map d' t m.
Proof. intros Hg (tr & Hr & Hw & Hh). exists tr. split_and!; try done. by eapply rep_grows. Qed.

Lemma root_present d m h : (forall tr, wf tr -> holds tr m -> tr <> Empty -> stored d tr) -> db_ok d -> root_of m h -> h <> emptyRoot -> present d h.
Proof.
  intros Hst Hd (tr & Hw & Hh & ->) Hne. assert (tr <> Empty) as Ht by (by intros ->). assert (spec_root tr = thash tr) as -> by (by destruct tr).
  by apply (has_present (K := K)), Hst.
Qed.

Lemma root_nonzero m h : empty_root (K := K) -> known_map (K := K) m -> root_of m h -> h <> 0.
Proof.
  intros [He HKe] Hk (tr & Hw & Hh & ->). destruct (decide (tr = Empty)) as [->|Hne]; [done|].
  destruct (Hk tr Hw Hh Hne) as [Hb _]. assert (spec_root tr = thash tr) as -> by (by destruct tr). by apply (known_nonzero (K := K)).
Qed.

End with_keccak.

End TrieCommit.
