(* ===== verification/TrieProof.v ===== *)
(** * eth/trie/proof.go: proofs of what a trie holds

    A proof is the encodings of the nodes on the way to a key.  What the
    verifier returns is what the trie with that root holds, or the report of a
    missing node; proofs the code constructs are complete. *)
From S2P Require Import Prelude Wire EthMath StateDB Rlp RlpDecode RlpRaw TrieKeys TrieNode TrieTree TrieCodec Trie TrieMap TrieHash TrieSpec TrieDB TrieStore.

Module TrieProof.
Import Rlp RlpDecode TrieKeys TrieNode TrieTree TrieCodec Trie TrieMap TrieHash TrieSpec TrieStore.
Import EthMath(hash_Bytes, BytesToHash).

Inductive proofErr :=
| proof_missing (i : Z) (h : bytes)
| bad_proof (i : Z) (e : decodeErr)
| proof_starved.                    (* the model ran out of fuel; shown not to happen *)

(** The part of the key that is left, and what is there. *)
Fixpoint get (tn : node) (key : bytes) : res (bytes * node) :=
  match tn with
  | shortNode k val _ =>
      if (length key <? length k)%nat || negb (bytes_eqb k (take (length k) key)) then Ok ([], nilNode)
      else get val (drop (length k) key)
  | fullNode cs _ =>
      let! x := go_index key 0 in
      let! child := go_index (map get cs) x in
      child (drop 1 key)
  | hashNode _ | nilNode => Ok (key, tn)
  | valueNode _ => Ok ([], tn)
  | _ => Panic
  end.

(** Go's copy into an array. *)
Definition copy_hash (old h : bytes) : bytes := take (length old) h ++ drop (length h) old.

Fixpoint verify_loop (fuel : nat) (i : Z) (wantHash key : bytes) (proofDb : gmap bytes bytes) : res (option bytes * Z * option proofErr) :=
  match fuel with
  | O => Ok (None, i, Some proof_starved)
  | S fuel =>
      match proofDb !! wantHash with
      | None => Ok (None, i, Some (proof_missing i wantHash))
      | Some buf =>
          let! r := decodeNode (Some wantHash) buf 0 in
          match r with
          | inl e => Ok (None, i, Some (bad_proof i e))
          | inr n =>
              let! (keyrest, cld) := get n key in
              match cld with
              | nilNode => Ok (None, i, None)
              | hashNode h => verify_loop fuel (i + 1) (copy_hash wantHash h) keyrest proofDb
              | valueNode v => Ok (Some v, i + 1, None)
              | _ => verify_loop fuel (i + 1) wantHash key proofDb
              end
          end
      end
  end.

Definition VerifyProof (fuel : nat) (rootHash : Z) (key : bytes) (proofDb : gmap bytes bytes) : res (option bytes * Z * option proofErr) :=
  verify_loop fuel 0 (hash_Bytes rootHash) (keybytesToHex key) proofDb.

Section with_db.
Context `{HK : Keccak, HD : NodeDB D}.

Definition hashChildren (original : node) (db : option D) : res (node * node * option D) :=
  match original with
  | shortNode k val f =>
      let! ck := hexToCompact k in
      let! (cv, v, db) := (if is_value val then Ok (val, val, db) else hash_node 0 0 None val db false) in
      Ok (shortNode ck cv f, shortNode k v f, db)
  | fullNode cs f =>
      let! (hs, cs', db) := hash_all (hash_node 0 0 None) 16 cs db in
      Ok (fullNode hs f, fullNode cs' f, db)
  | n => Ok (n, n, db)
  end.

(** The nodes on the way to a key. *)
Fixpoint prove_nodes (fuel : nat) (d : D) (cgen : Z) (key : bytes) (tn : node) : res (trieErr + list node) :=
  match fuel with
  | O => Ok (inl starved)
  | S fuel =>
      if (length key =? 0)%nat || is_nil tn then Ok (inr [])
      else
        let more n r := (let! o := r in Ok (match o with inl e => inl e | inr l => inr (n :: l) end)) in
        match tn with
        | shortNode k val _ =>
            if (length key <? length k)%nat || negb (bytes_eqb k (take (length k) key))
            then more tn (prove_nodes fuel d cgen key nilNode)
            else more tn (prove_nodes fuel d cgen (drop (length k) key) val)
        | fullNode cs _ =>
            let! x := go_index key 0 in
            let! c := go_index cs x in
            more tn (prove_nodes fuel d cgen (drop 1 key) c)
        | hashNode h =>
            let! r := resolveHash d cgen h [] in
            match r with
            | inl e => Ok (inl e)
            | inr n => prove_nodes fuel d cgen key n
            end
        | _ => Panic
        end
  end.

Fixpoint prove_elems (i : nat) (fromLevel : Z) (nodes : list node) : res (list (bytes * bytes)) :=
  match nodes with
  | [] => Ok []
  | n :: nodes =>
      let! (n, _, _) := hashChildren n None in
      let! (hn, _) := store None n None false in
      let hash := match hn with hashNode h => Some h | _ => None end in
      if bool_decide (is_Some hash) || (i =? 0)%nat then
        if fromLevel >? 0 then prove_elems (S i) (fromLevel - 1) nodes
        else
          let! e := EncodeToBytes (node_value n) in
          let enc := default [] e in
          let! l := prove_elems (S i) fromLevel nodes in
          Ok ((match hash with Some h => h | None => hash_Bytes (Keccak256Hash enc) end, enc) :: l)
      else prove_elems (S i) fromLevel nodes
  end.

(** The entries that are put into the proof, in order. *)
Definition Prove (fuel : nat) (d : D) (key : bytes) (fromLevel : Z) (t : Trie) : res (option trieErr * list (bytes * bytes)) :=
  let! r := prove_nodes fuel d (cachegen t) (keybytesToHex key) (root t) in
  match r with
  | inl e => Ok (Some e, [])
  | inr nodes => let! l := prove_elems 0 fromLevel nodes in Ok (None, l)
  end.
End with_db.

(** ** Verifying *)
Section with_keccak.
Context `{HK : Keccak, HKL : !KeccakLaw, HKn : !Known K}.

(** Where the stored form of a tree leads. *)
Fixpoint walk (t : tree) (key : bytes) : option (tree * bytes) :=
  match t with
  | Short k c => after k key ≫= fun rest => if big c then Some (c, rest) else walk c rest
  | Full cs =>
      match key with
      | [] => None
      | x :: rest => mjoin (map (fun c => if big c then Some (c, rest) else walk c rest) cs !! Z.to_nat x)
      end
  | _ => None
  end.

Lemma walk_full cs x rest c : cs !! Z.to_nat x = Some c -> walk (Full cs) (x :: rest) = if big c then Some (c, rest) else walk c rest.
Proof. intros E. cbn [walk]. by rewrite list_lookup_fmap, E. Qed.

Lemma walk_refs t : forall key u rest, walk t key = Some (u, rest) -> u ∈ refs t.
Proof.
  assert (forall c rest u rest', (forall key u rest, walk c key = Some (u, rest) -> u ∈ refs c) ->
    (if big c then Some (c, rest) else walk c rest) = Some (u, rest') -> u ∈ ref_of c) as Hstep.
  { intros c rest u rest' IH. rewrite in_ref_of. destruct (big c); [intros [= -> _]; auto|intros E; right; eauto]. }
  induction t as [|k c IH|cs IH|v] using tree_deep_ind; intros key u rest E; try done; cbn [walk] in E.
  - apply bind_Some in E as (r & _ & E). by eapply (Hstep c).
  - destruct key as [|x key]; [done|]. rewrite list_lookup_fmap in E. destruct (cs !! Z.to_nat x) as [c|] eqn:Ec; [|done].
    apply in_refs_full. exists (Z.to_nat x), c. split; [done|]. rewrite Forall_lookup in IH. exact (Hstep c key u rest (IH _ c Ec) E).
Qed.

(** What is found agrees with the tree. *)
Definition found (t : tree) (key : bytes) (r : res (bytes * node)) : Prop :=
  match walk t key with
  | Some (u, rest) => r = Ok (rest, hashNode (hash_Bytes (thash u))) /\ hex_key rest /\ (length rest < length key)%nat /\
      tlookup t key = tlookup u rest
  | None => match tlookup t key with
            | None => exists rest, r = Ok (rest, nilNode)
            | Some v => exists rest, r = Ok (rest, valueNode v)
            end
  end.

Lemma valid_short k c key rest : canon (Short k c) -> hex_key key -> after k key = Some rest -> proper c /\ valid_at c rest /\ k <> [].
Proof.
  intros Hc Hk E. apply after_Some in E as ->. inversion Hc as [ms v Hm Hv _|ms cs Hne Hm Hcs|]; subst.
  - split_and!; [right; left; by exists v| |by destruct ms]. apply (hex_leaf ms); [done|]. by rewrite <- app_assoc in Hk.
  - split_and!; [right; by right| |done]. by apply hex_app_inv in Hk.
Qed.

Lemma valid_full cs x rest : canon (Full cs) -> hex_key (x :: rest) ->
  exists c, cs !! Z.to_nat x = Some c /\ 0 <= x /\ proper c /\ valid_at c rest.
Proof.
  intros Hc Hk. pose proof (hex_digit x rest Hk) as Hx. destruct (canon_full_inv cs Hc) as (Hlen & Hcs & Hlast).
  destruct (lookup_lt_is_Some_2 cs (Z.to_nat x)) as [c Ec]; [lia|]. exists c. split_and!; [done|lia|by eapply proper_child|].
  apply hex_cons in Hk as [[Hx' Hk]|[-> ->]].
  - destruct (proper_child cs _ c Hc Ec) as [->|[[v ->]|Hcc]]; [done| |by destruct Hcc].
    exfalso. unfold is_nibble in Hx'. assert (canon (Value v)) as Hcv by (apply (Hcs (Z.to_nat x)); [lia|done..]). inversion Hcv.
  - destruct (decide (c = Empty)) as [->|Hne]; [done|]. by destruct (Hlast c Ec Hne) as (v & -> & _).
Qed.

Definition finds (t : tree) : Prop := forall h key, proper t -> valid_at t key -> found t key (get (dnode h 0 t) key).

(** One step down, to a child inside the node or to the hash of one. *)
Lemma found_down t key c rest r : finds c -> proper c -> valid_at c rest -> (length rest < length key)%nat ->
  walk t key = (if big c then Some (c, rest) else walk c rest) -> tlookup t key = tlookup c rest -> r = get (dref 0 c) rest -> found t key r.
Proof.
  intros Hf Hp Hv Hl Ew Et ->. unfold found. rewrite Ew, Et. unfold dref. destruct (big c) eqn:Eb.
  - split_and!; try done. by destruct c.
  - specialize (Hf None rest Hp Hv). unfold found in Hf. destruct (walk c rest) as [[u rest']|]; [|done].
    destruct Hf as (? & ? & ? & ?). split_and!; try done. lia.
Qed.

Lemma match_key k key : (length key <? length k)%nat || negb (bytes_eqb k (take (length k) key)) =
  match after k key with Some _ => false | None => true end.
Proof. rewrite <- match_after. f_equal. destruct (Nat.ltb_spec (length key) (length k)), (Z.ltb_spec (Z.of_nat (length key)) (Z.of_nat (length k))); lia || done. Qed.

Lemma get_finds t : finds t.
Proof.
  induction t as [|k c IH|cs IH|v] using tree_deep_ind; intros h key Hp Hv.
  - by exists key.
  - destruct Hp as [Hp|[[v Hp]|Hp]]; [done..|]. rewrite dnode_short. cbn [get]. rewrite match_key.
    destruct (after k key) as [rest|] eqn:E.
    + destruct (valid_short k c key rest) as (Hpc & Hvc & Hk); [done..|]. pose proof (proj1 (after_Some _ _ _) E) as Ek.
      apply (found_down _ key c rest); try done.
      * rewrite Ek, length_app. destruct k; [done|simpl; lia].
      * cbn [walk]. by rewrite E.
      * cbn [tlookup]. by rewrite E.
      * by rewrite Ek, drop_app_length.
    + unfold found. cbn [walk tlookup]. rewrite E. cbn [mbind option_bind]. by exists [].
  - destruct Hp as [Hp|[[v Hp]|Hp]]; [done..|]. cbn [valid_at] in Hv. destruct key as [|x rest]; [by apply hex_nonempty in Hv|].
    destruct (valid_full cs x rest Hp Hv) as (c & Ec & Hx & Hpc & Hvc). rewrite Forall_lookup in IH.
    rewrite dnode_full. cbn [get]. change (go_index (x :: rest) 0) with (Ok x). cbn [rbind].
    rewrite (go_index_Some _ x (get (dref 0 c))); [|done|by rewrite map_map, list_lookup_fmap, Ec]. cbn [rbind].
    apply (found_down _ (x :: rest) c rest); try done; [by apply (IH (Z.to_nat x))|simpl; lia|by apply walk_full|by apply tlookup_full].
  - cbn [valid_at] in Hv. subst key. unfold found. cbn. by exists [].
Qed.

(** The trees of which a proof needs the stored form. *)
Inductive on_path : tree -> bytes -> tree -> Prop :=
| path_here t key : on_path t key t
| path_down t key c rest u : walk t key = Some (c, rest) -> on_path c rest u -> on_path t key u.

Lemma copy_hash_same a b : length a = length b -> copy_hash a b = b.
Proof. intros E. unfold copy_hash. rewrite E, firstn_all, drop_ge by lia. apply app_nil_r. Qed.

Definition verifies (t : tree) (key : bytes) (db : gmap bytes bytes) (r : res (option bytes * Z * option proofErr)) : Prop :=
  (exists j, r = Ok (tlookup t key, j, None)) \/
  (exists j u, r = Ok (None, j, Some (proof_missing j (hash_Bytes (thash u)))) /\ on_path t key u /\ db !! hash_Bytes (thash u) = None).

Lemma verify_spec db : disk_ok (K := K) db -> forall fuel i t key, canon t -> K (blob t) -> known_below K t -> hex_key key ->
  (length key < fuel)%nat -> verifies t key db (verify_loop fuel i (hash_Bytes (thash t)) key db).
Proof.
  intros Hdb. induction fuel as [|fuel IH]; intros i t key Hc Hk Hkn Hkey Hf; [lia|]. cbn [verify_loop].
  destruct (db !! hash_Bytes (thash t)) as [buf|] eqn:Eb.
  2:{ right. exists i, t. split_and!; [done|constructor|done]. }
  destruct (Hdb (thash t) buf) as [Hkb E]; [apply thash_range|done|]. apply (known_inj (K := K)) in E as ->; [|done..].
  pose proof (decode_blob t (Some (hash_Bytes (thash t))) 0 Hc Hk) as Ed. unfold mustDecodeNode in Ed.
  destruct (decodeNode _ _ 0) as [[e|n]|]; cbn [rbind] in Ed |- *; try done. injection Ed as ->.
  pose proof (get_finds t (Some (hash_Bytes (thash t))) key) as Hfd. unfold found in Hfd.
  assert (proper t) as Hp by (right; by right). assert (valid_at t key) as Hv by (by destruct Hc). specialize (Hfd Hp Hv).
  destruct (walk t key) as [[u rest]|] eqn:Ew.
  - destruct Hfd as (-> & Hrest & Hl & Et). cbn [rbind]. rewrite copy_hash_same by (by rewrite !hash_length).
    unfold known_below in Hkn. rewrite below_refs in Hkn. pose proof (walk_refs t key u rest Ew) as Hu. destruct (Hkn u Hu) as [Hku Hknu].
    destruct (refs_canon t u Hc Hu) as [Hcu _].
    destruct (IH (i + 1) u rest) as [[j E]|(j & w & E & Hw & Hn)]; try done; [lia| |].
    + left. exists j. by rewrite Et.
    + right. exists j, w. split_and!; try done. by eapply path_down.
  - left. destruct (tlookup t key) as [v|]; destruct Hfd as [rest ->]; cbn [rbind]; by eexists.
Qed.

(** ** Proving *)

(** The trees on the way to a key, and those that go into the proof. *)
Fixpoint trail (t : tree) (key : bytes) : list tree :=
  match t with
  | Short k c => t :: match after k key with Some rest => trail c rest | None => [] end
  | Full cs => t :: match key with [] => [] | x :: rest => default [] (map (fun c => trail c rest) cs !! Z.to_nat x) end
  | _ => []
  end.

Fixpoint elems (i : nat) (ts : list tree) : list (bytes * bytes) :=
  match ts with
  | [] => []
  | u :: ts => (if big u || (i =? 0)%nat then [(hash_Bytes (thash u), blob u)] else []) ++ elems (S i) ts
  end.

Lemma trail_full cs x rest c : cs !! Z.to_nat x = Some c -> trail (Full cs) (x :: rest) = Full cs :: trail c rest.
Proof. intros E. cbn [trail]. by rewrite list_lookup_fmap, E. Qed.

Definition good (u : tree) : Prop := canon u /\ known_below K u /\ (big u = true -> K (blob u)).

Lemma trail_good t : forall key, proper t -> (canon t -> good t) -> Forall good (trail t key).
Proof.
  induction t as [|k c IH|cs IH|v] using tree_deep_ind; intros key Hp Hg; try done.
  - destruct Hp as [Hp|[[v Hp]|Hp]]; [done..|]. destruct (Hg Hp) as (_ & [Hb1 Hb2] & _). cbn [trail]. constructor; [by apply Hg|].
    destruct (after k key); [|done]. apply IH; [inversion Hp; subst; [right; left; eauto|right; by right]|]. done.
  - destruct Hp as [Hp|[[v Hp]|Hp]]; [done..|]. destruct (Hg Hp) as (_ & Hb & _). cbn [trail]. constructor; [by apply Hg|].
    destruct key as [|x rest]; [done|]. rewrite list_lookup_fmap. destruct (cs !! Z.to_nat x) as [c|] eqn:Ec; [|done]. cbn.
    rewrite Forall_lookup in IH. apply (IH _ c Ec); [by eapply proper_child|]. intros Hcc. destruct (below_full _ cs _ c Hb Ec). done.
Qed.

Lemma walk_trail t : forall key u rest, walk t key = Some (u, rest) -> canon t -> hex_key key ->
  exists l, trail t key = l ++ trail u rest /\ big u = true.
Proof.
  assert (forall c rest u rest', (forall key u rest, walk c key = Some (u, rest) -> canon c -> hex_key key -> exists l, trail c key = l ++ trail u rest /\ big u = true) ->
    proper c -> valid_at c rest -> (if big c then Some (c, rest) else walk c rest) = Some (u, rest') ->
    exists l, trail c rest = l ++ trail u rest' /\ big u = true) as Hstep.
  { intros c rest u rest' IH Hp Hv. destruct (big c) eqn:E; [intros [= <- <-]; by exists []|]. intros Ew.
    destruct Hp as [->|[[v ->]|Hc]]; [done..|]. apply IH; [done..|]. by destruct Hc. }
  induction t as [|k c IH|cs IH|v] using tree_deep_ind; intros key u rest E Hc Hk; try done.
  - cbn [walk trail] in *. destruct (after k key) as [r|] eqn:Ea; [|done]. cbn in E. destruct (valid_short k c key r) as (Hpc & Hvc & _); [done..|].
    destruct (Hstep c r u rest IH Hpc Hvc E) as (l & -> & Hb). by exists (Short k c :: l).
  - destruct key as [|x key]; [done|]. destruct (valid_full cs x key Hc Hk) as (c & Ec & _ & Hpc & Hvc).
    rewrite (walk_full cs x key c Ec) in E. rewrite (trail_full cs x key c Ec).
    rewrite Forall_lookup in IH. destruct (Hstep c key u rest (IH _ c Ec) Hpc Hvc E) as (l & -> & Hb).
    by exists (Full cs :: l).
Qed.

Lemma path_trail t key u : on_path t key u -> canon t -> hex_key key -> known_below K t -> u = t \/ (u ∈ trail t key /\ big u = true).
Proof.
  induction 1 as [t key|t key c rest u Ew _ IH]; intros Hc Hk Hkn; [by left|right].
  pose proof (walk_refs t key c rest Ew) as Hr. destruct (refs_canon t c Hc Hr) as [Hcc Hb].
  destruct (walk_trail t key c rest Ew Hc Hk) as (l & -> & _).
  pose proof (get_finds t None key) as Hf. unfold found in Hf. rewrite Ew in Hf.
  destruct Hf as (_ & Hrest & _); [right; by right|by destruct Hc|].
  unfold known_below in Hkn. rewrite below_refs in Hkn. destruct (Hkn c Hr) as [_ Hknc].
  destruct (IH Hcc Hrest Hknc) as [->|[Hu ?]]; rewrite elem_of_app; split; auto. right. destruct Hcc; by left.
Qed.

Lemma elems_in i ts u : u ∈ ts -> big u = true -> (hash_Bytes (thash u), blob u) ∈ elems i ts.
Proof.
  revert i. induction ts as [|w ts IH]; intros i; [by intros ?%elem_of_nil|]. intros [->|Hu]%elem_of_cons Hb; cbn [elems]; rewrite elem_of_app.
  - left. rewrite Hb. by left.
  - right. by apply IH.
Qed.

Lemma elems_known i ts kv : Forall good ts -> (forall u, i = O -> List.head ts = Some u -> K (blob u)) -> kv ∈ elems i ts ->
  exists u, kv = (hash_Bytes (thash u), blob u) /\ K (blob u).
Proof.
  revert i. induction ts as [|w ts IH]; intros i Hg Hr; [by intros ?%elem_of_nil|]. inversion Hg as [|? ? (Hc & _ & Hk) Hg']; subst.
  cbn [elems]. intros [Hu|Hu]%elem_of_app; [|by apply (IH (S i))].
  destruct (big w) eqn:E; cbn [orb] in Hu.
  - apply list_elem_of_singleton in Hu as ->. exists w. auto.
  - destruct (Nat.eqb_spec i 0); [|by apply elem_of_nil in Hu]. apply list_elem_of_singleton in Hu as ->. exists w. split; [done|]. by apply Hr.
Qed.

Lemma put_all l : (forall kv, kv ∈ l -> exists u, kv = (hash_Bytes (thash u), blob u) /\ K (blob u)) -> forall m : gmap bytes bytes, disk_ok (K := K) m ->
  disk_ok (K := K) (TrieDB.apply_writes l m) /\ (forall h, on_disk m h -> on_disk (TrieDB.apply_writes l m) h) /\
  (forall u, (hash_Bytes (thash u), blob u) ∈ l -> on_disk (TrieDB.apply_writes l m) (thash u)).
Proof.
  induction l as [|kv l IH]; intros Hl m Hm; [split_and!; [done..|by intros ? ?%elem_of_nil]|].
  destruct (Hl kv) as (u & -> & Hk); [by left|]. unfold TrieDB.apply_writes. cbn [foldl fst snd].
  destruct (IH (fun kv Hkv => Hl kv (list_elem_of_further _ _ _ Hkv)) (<[hash_Bytes (thash u) := blob u]> m)) as (H1 & H2 & H3).
  { intros h b Hr [[Eh <-]|[_ Eh]]%lookup_insert_Some; [|by apply Hm]. apply disk_key_inj in Eh as <-; [done|apply thash_range|done]. }
  split_and!; [done|intros h Hh; apply H2, lookup_insert_is_Some'; by right|].
  intros w [E%(f_equal fst)|Hw]%elem_of_cons; [|by apply H3]. apply H2, lookup_insert_is_Some'. by left.
Qed.
End with_keccak.

Section with_laws.
Context `{HK : Keccak, HKL : !KeccakLaw, HD : NodeDB D, HKn : !Known K, HL : !NodeDBLaws D K}.

Lemma without_leaf cb (v : bytes) (h : Z) (d : D) : None = Some cb -> db_inv d -> db_live h d -> exists d', cb v h d = Ok d' /\ grows d d'.
Proof. done. Qed.

Lemma hashChildren_spec d r n t : rep d r n t -> is_hash n = false -> db_inv d -> good (K := K) t ->
  exists c v, hashChildren n None = Ok (c, v, None) /\ storable c t.
Proof.
  intros Hr Hn Hi (Hc & Hkn & _). pose proof (grows_refl d Hi) as Hg. destruct Hr as [| |r k n c f Hcn Hfl|r ns cs f Hl Hns Hfl|]; try by inversion Hc.
  - cbn [hashChildren]. destruct (compact_spec k) as [-> _]; [by eapply canon_node_key|]. cbn [rbind]. destruct Hkn as [Hkn1 Hkn2].
    assert (exists cv v, (if is_value n then Ok (n, n, None) else hash_node 0 0 None n None false) = Ok (cv, v, None : option D) /\
      simplifyNode cv = Ok (rref c) /\ node_value cv = to_value (ref c)) as (cv & v & -> & Hs & Hv).
    { inversion Hc as [ms w Hm Hw Hb|ms cs Hne Hm Hcs|]; subst.
      - apply rep_value_inv in Hcn as ->. by exists (valueNode w), (valueNode w).
      - assert (is_value n = false) as -> by (inversion Hcn; by subst).
        destruct (hash_spec 0 0 None without_leaf d false n (Full cs) Hcn Hcs Hkn2 Hkn1 false d Hg) as (h & v & d' & E & _ & Hh & _).
        cbn [in_db] in E. rewrite E. destruct (child_ref h (Full cs)) as (? & ? & _ & _); [done..|]. by exists h, v. }
    cbn [rbind]. eexists _, _. split; [done|]. by eapply storable_short, Hv; [eapply canon_node_key| |].
  - cbn [hashChildren]. destruct (canon_full_inv cs Hc) as (Hlen & Hcs & Hlast).
    destruct (lookup_lt_is_Some_2 ns 16%nat) as [n16 En]; [lia|]. destruct (full_split cs Hlen) as (c16 & Ecs & Ec).
    assert (ns = take 16 ns ++ [n16]) as Ens by (rewrite <- (take_drop_middle ns 16 n16 En) at 1; rewrite drop_ge by lia; done).
    assert (length (take 16 ns) = 16%nat) as Hl16 by (rewrite length_take; lia).
    destruct (hash_all_spec 0 0 None d false (take 16 ns) (take 16 cs) [n16]) with (d1 := d) as (hs & l' & d2 & E & _ & Hseen & _); [|done|].
    { apply Forall2_lookup_2; [rewrite !length_take; lia|]. intros i n0 c0 [Ei Hi']%lookup_take_Some [Ei' _]%lookup_take_Some.
      pose proof (Hns i n0 c0 Ei Ei') as Hr0. split; [done|]. intros Hne. destruct (below_full _ cs i c0 Hkn Ei').
      split_and!; try done; [by apply (Hcs i)|]. by apply (hash_spec 0 0 None without_leaf). }
    rewrite Hl16, <- Ens in E. cbn [in_db] in E. rewrite E. cbn [rbind]. eexists _, _. split; [done|].
    assert (c16 = Empty \/ exists v, c16 = Value v) as Hc16.
    { destruct (decide (c16 = Empty)) as [|Hne]; [by left|right]. destruct (Hlast c16 Ec Hne) as (v & -> & _). by exists v. }
    destruct (seen_last d n16 c16 (Hns _ _ _ En Ec) Hc16) as [Hs1 Hs2]. pose proof (Forall2_length _ _ _ Hseen) as Hlh. rewrite length_take in Hlh.
    apply (storable_full d r); [done| | |].
    + rewrite take_app_length' by lia. apply Forall_lookup. intros i h Ei.
      by destruct (Forall2_lookup_l _ _ _ _ _ Hseen Ei) as (c0 & _ & _ & _ & ?).
    + rewrite Ecs. apply Forall2_app; [|by constructor]. eapply Forall2_impl; [exact Hseen|]. by intros ? ? [].
    + rewrite Ecs. apply Forall2_app; [|by constructor]. eapply Forall2_impl; [exact Hseen|]. by intros ? ? (_ & ? & _).
Qed.

Definition stands (d : D) (n : node) (t : tree) : Prop := (exists r, rep d r n t) /\ is_hash n = false.

Lemma prove_elems_spec d ns ts : Forall2 (stands d) ns ts -> db_inv d -> Forall (good (K := K)) ts ->
  forall i lvl, (forall u, i = O -> List.head ts = Some u -> K (blob u)) -> 0 <= lvl ->
  prove_elems (D := D) i lvl ns = Ok (drop (Z.to_nat lvl) (elems i ts)).
Proof.
  intros Hs Hi. induction Hs as [|n t ns ts [[r Hr] Hn] _ IH]; intros Hg i lvl Hroot Hlvl; [cbn [prove_elems elems]; by rewrite drop_nil|].
  inversion Hg as [|? ? Hgt Hg']; subst. destruct (hashChildren_spec d r n t Hr Hn Hi Hgt) as (c & v & E & Hst).
  specialize (IH Hg' (S i)). cbn [prove_elems elems]. rewrite E. cbn [rbind]. destruct Hgt as (Hc & Hkn & Hb).
  assert (forall b, K (blob t) -> (let! e := EncodeToBytes (node_value c) in
    let! l := prove_elems (D := D) (S i) lvl ns in Ok ((b, default [] e) :: l)) = Ok ((b, blob t) :: drop (Z.to_nat lvl) (elems (S i) ts))) as Henc.
  { intros b Hk. rewrite (encode_collapsed c t) by (apply Hst || by apply known_len). cbn [rbind]. by rewrite IH by (done || lia). }
  destruct (big t) eqn:Eb; cbn [orb].
  - destruct (store_big None without_leaf c t false false d) as (d' & Es & _); [done..|by apply Hb|done|done|]. cbn [in_db] in Es. rewrite Es. cbn [rbind].
    rewrite bool_decide_true by (by eexists). cbn [orb app]. destruct (Z.gtb_spec lvl 0).
    + rewrite IH by (done || lia). replace (Z.to_nat lvl) with (S (Z.to_nat (lvl - 1))) by lia. done.
    + replace lvl with 0 in * by lia. rewrite drop_0. by rewrite Henc by auto.
  - rewrite (store_small None c t None) by (done || by apply canon_branch). cbn [rbind].
    assert (match c with hashNode h => Some h | _ => None end = None) as -> by (destruct Hst as (_ & _ & Hst); by destruct c).
    rewrite bool_decide_false by (by intros []). cbn [orb]. destruct (Nat.eqb_spec i 0) as [->|]; [|by apply IH; [|lia]].
    assert (K (blob t)) as Hk by (by apply Hroot). cbn [app]. destruct (Z.gtb_spec lvl 0).
    + rewrite IH by (done || lia). replace (Z.to_nat lvl) with (S (Z.to_nat (lvl - 1))) by lia. done.
    + replace lvl with 0 in * by lia. rewrite drop_0. rewrite (encode_collapsed c t) by (apply Hst || by apply known_len). cbn [rbind default].
      by rewrite IH by (done || lia).
Qed.

Lemma prove_nodes_spec d fuel : forall g r n t key, rep d r n t -> proper t -> valid_at t key -> (2 * length key + weight n < fuel)%nat ->
  exists ns, prove_nodes fuel d g key n = Ok (inr ns) /\ Forall2 (stands d) ns (trail t key).
Proof.
  induction fuel as [|fuel IH]; intros g r n t key Hr Hp Hv Hf; [lia|]. cbn [prove_nodes]. rewrite (rep_is_nil _ _ _ _ Hr).
  destruct Hr as [r|r v|r k n c f Hn Hfl|r ns cs f Hl Hns Hfl|r t Hst Hb].
  - rewrite orb_true_r. by exists [].
  - cbn [valid_at] in Hv. subst key. by exists [].
  - destruct Hp as [Hp|[[v Hp]|Hp]]; [done..|]. assert ((length key =? 0)%nat = false) as -> by (apply hex_nonempty in Hv; by destruct key).
    cbn [orb is_empty]. rewrite match_key. cbn [trail].
    assert (stands d (shortNode k n f) (Short k c)) as Hs by (split; [exists r; by constructor|done]).
    destruct (after k key) as [rest|] eqn:E.
    + destruct (valid_short k c key rest) as (Hpc & Hvc & Hk); [done..|]. pose proof (proj1 (after_Some _ _ _) E) as Ek.
      assert (length rest < length key)%nat as Hlt by (rewrite Ek, length_app; destruct k; [done|simpl; lia]). pose proof (weight_le n).
      destruct (IH g false n c rest) as (l & El & Hl); [done..|lia|]. rewrite Ek, drop_app_length, El. cbn [rbind]. eexists. split; [done|by constructor].
    + destruct fuel as [|fuel]; [apply hex_nonempty in Hv; destruct key; [done|simpl in Hf; lia]|].
      cbn [prove_nodes is_nil]. rewrite orb_true_r. cbn [rbind]. eexists. split; [done|]. constructor; [done|apply Forall2_nil_2].
  - destruct Hp as [Hp|[[v Hp]|Hp]]; [done..|]. cbn [valid_at] in Hv. destruct key as [|x rest]; [by apply hex_nonempty in Hv|].
    destruct (valid_full cs x rest Hp Hv) as (c & Ec & Hx & Hpc & Hvc). destruct (lookup_lt_is_Some_2 ns (Z.to_nat x)) as [n En].
    { apply lookup_lt_Some in Ec. lia. }
    cbn [length Nat.eqb orb is_empty]. change (go_index (x :: rest) 0) with (Ok x). cbn [rbind]. rewrite (go_index_Some ns x n) by done. cbn [rbind].
    pose proof (weight_le n). cbn [length] in Hf.
    destruct (IH g false n c rest) as (l & El & Hl'); [by apply (Hns (Z.to_nat x))|done..|lia|]. change (drop 1 (x :: rest)) with rest. rewrite El. cbn [rbind].
    eexists. split; [done|]. rewrite (trail_full cs x rest c Ec). constructor; [|done]. split; [exists r; by constructor|done].
  - destruct Hst as [[Hc Hh] Hbl]. assert ((length key =? 0)%nat || is_empty t = false) as ->.
    { assert (hex_key key) as Hk by (by destruct Hc). apply hex_nonempty in Hk. by destruct key, Hc. }
    rewrite resolveHash_stored by done. cbn [rbind].
    apply (IH g r (dnode (Some (hash_Bytes (thash t))) g t) t key); [by apply rep_loaded|done..|].
    rewrite weight_dnode by done. unfold weight in Hf. simpl in Hf. lia.
Qed.

Lemma proper_not_empty m tr : proper_map m -> m <> ∅ -> holds tr m -> tr <> Empty.
Proof. intros Hp Hm Hh ->. apply Hm. by apply (holds_inj Empty); [|by intros ? ?|..|apply holds_empty]. Qed.

End with_laws.
End TrieProof.
