(* ===== verification/TrieToy.v ===== *)
(** * Tries at work

    A hash function without collisions on a finite set of encodings, and runs
    of tries over a database with it.  They show that the hypotheses of the
    theorems on tries hold of actual maps, and what happens when code that is
    the encoding of a node is kept beside the nodes. *)
From S2P Require Import Prelude Wire EthMath StateDB Rlp RlpDecode RlpRaw TrieKeys TrieNode TrieTree TrieCodec Trie TrieMap TrieHash TrieSpec TrieDB TrieStore TrieCommit TrieProof.

Module TrieToy.
Import Rlp RlpDecode TrieKeys TrieNode TrieTree TrieCodec Trie TrieMap TrieHash TrieSpec TrieDB TrieStore TrieCommit TrieProof.
Import EthMath(hash_Bytes, BytesToHash).

(** ** From a run to its map *)

(** The tree of a node none of which is a hash. *)
Fixpoint tree_of (n : node) : option tree :=
  match n with
  | nilNode => Some Empty
  | valueNode v => Some (Value v)
  | shortNode k n _ => Short k <$> tree_of n
  | fullNode ns _ => Full <$> (fix all (ns : list node) : option (list tree) :=
      match ns with
      | [] => Some []
      | n :: ns => t ← tree_of n; ts ← all ns; Some (t :: ts)
      end) ns
  | _ => None
  end.

Section with_keccak.
Context `{HK : Keccak, HKL : !KeccakLaw, HO : MapOrder, HOL : !MapOrderLaw, HKn : !Known K}.

Lemma rep_tree_of d r n t u : rep (D := Database) d r n t -> tree_of n = Some u -> t = u.
Proof.
  intros Hr. revert u. induction Hr as [| |r k n c f _ IH _|r ns cs f Hl _ IH _|]; intros u E; cbn [tree_of] in E; [by injection E as <-..| | |done].
  - apply fmap_Some in E as (c' & Ec & ->). by rewrite (IH c').
  - apply fmap_Some in E as (us & Eu & ->). f_equal. revert cs us Hl IH Eu.
    induction ns as [|n ns IHn]; intros [|c cs] us Hl IH Eu; try done; [by injection Eu as <-|].
    apply bind_Some in Eu as (t & Et & Eu). apply bind_Some in Eu as (ts & Ets & Eu). injection Eu as <-. f_equal.
    + by apply (IH 0%nat n c).
    + apply (IHn cs ts); [by injection Hl|intros i n' c' E1 E2; by apply (IH (S i))|done].
Qed.

(** The trees kept under their hash below a tree. *)
Fixpoint bigs (t : tree) : list tree :=
  let down c := if big c then c :: bigs c else bigs c in
  match t with
  | Short _ c => down c
  | Full cs => concat (map down cs)
  | _ => []
  end.

Lemma bigs_below (P : tree -> Prop) t : Forall P (bigs t) -> below P t.
Proof.
  assert (forall c, (Forall P (bigs c) -> below P c) -> Forall P (if big c then c :: bigs c else bigs c) -> (big c = true -> P c) /\ below P c) as Hstep.
  { intros c IH. destruct (big c); [rewrite Forall_cons|]; naive_solver. }
  induction t as [|k c IH|cs IH|v] using tree_deep_ind; [done|by apply Hstep| |done].
  cbn [bigs]. intros Hf. apply below_full_intro. intros i c Ei. rewrite Forall_lookup in IH. apply Hstep; [by apply (IH i)|].
  apply Forall_concat in Hf. rewrite Forall_map, Forall_lookup in Hf. by apply (Hf i).
Qed.

(** Updates in sequence. *)
Fixpoint updates (fuel : nat) (d : Database) (l : list (bytes * bytes)) (t : Trie) : res Trie :=
  match l with
  | [] => Ok t
  | (k, v) :: l => let! (_, t) := TryUpdate fuel d k v t in updates fuel d l t
  end.

Definition given (l : list (bytes * bytes)) : kvs := foldl (fun m kv => <[kv.1 := kv.2]> m) ∅ l.

Definition sane (fuel : nat) (kv : bytes * bytes) : Prop :=
  Forall is_byte kv.1 /\ Forall is_byte kv.2 /\ kv.2 <> [] /\ enough fuel kv.1.

Definition fresh : Trie := mkTrie nilNode 0 0.

Lemma fresh_map (d : Database) : trie_map d fresh ∅.
Proof. exists Empty. split_and!; [constructor|by intros []|apply holds_empty]. Qed.

Lemma updates_map fuel (d : Database) l : forall t m, Forall (sane fuel) l -> trie_map d t m ->
  exists t', updates fuel d l t = Ok t' /\ trie_map d t' (foldl (fun m kv => <[kv.1 := kv.2]> m) m l).
Proof.
  induction l as [|[k v] l IH]; intros t m Hs Ht; [by exists t|]. inversion Hs as [|? ? (Hk & Hv & Hne & Hf) Hs']; subst. cbn [fst snd] in *.
  destruct (TryUpdate_map fuel d k v t m) as (t1 & E & Ht1); [done..|]. cbn [updates]. rewrite E. cbn [rbind]. apply IH; [done|].
  by destruct (decide (v = [])).
Qed.

Lemma given_known fuel d l t tr : Forall (sane fuel) l -> updates fuel d l fresh = Ok t -> tree_of (root t) = Some tr ->
  (tr <> Empty -> Forall K (blob tr :: map blob (bigs tr))) -> known_map (K := K) (given l).
Proof.
  intros Hs E Et Hk tr' Hw Hh. destruct (updates_map fuel d l fresh ∅ Hs) as (t' & E' & u & Hr & Hwu & Hhu); [apply fresh_map|].
  rewrite E in E'. injection E' as <-. apply (rep_tree_of _ _ _ _ tr Hr) in Et as ->.
  rewrite (holds_unique tr' tr (given l)) by done. intros Hne. specialize (Hk Hne). rewrite Forall_cons in Hk. destruct Hk as [Hb Hbs].
  split; [done|]. apply bigs_below. by rewrite Forall_map in Hbs.
Qed.

Lemma given_trie fuel d l t : Forall (sane fuel) l -> updates fuel d l fresh = Ok t -> trie_map d t (given l).
Proof.
  intros Hs E. destruct (updates_map fuel d l fresh ∅ Hs) as (t' & E' & Ht); [apply fresh_map|]. rewrite E in E'. by injection E' as <-.
Qed.
End with_keccak.

(** ** A hash function *)
#[local] Instance toy_hash : Keccak := {
  Keccak256Hash bz := if decide (bz = [0x80]) then emptyRoot else 1 + Wire.be_val bz mod (2 ^ 255 - 19)
}.

#[local] Instance toy_hash_law : KeccakLaw.
Proof.
  intros bz. unfold Keccak256Hash, toy_hash. destruct (decide _); [by split|].
  pose proof (Z.mod_pos_bound (Wire.be_val bz) (2 ^ 255 - 19) eq_refl). lia.
Qed.

#[local] Instance toy_order : MapOrder := { ranges m := (map_to_list m).*1; ranges_pre := map_to_list }.
#[local] Instance toy_order_law : MapOrderLaw.
Proof. by split. Qed.

(** Three keys, two of which share a byte, with values that fill a node each. *)
Definition big_value (b : Z) : bytes := replicate 40 b.
Definition pairs : list (bytes * bytes) := [([1; 2], big_value 7); ([1; 3], big_value 8); ([33; 4], [9])].
Definition disk0 : Database := NewDatabase ∅.

Definition run (l : list (bytes * bytes)) : Trie := match updates 20 disk0 l fresh with Ok t => t | Panic => fresh end.
Definition tree_after (l : list (bytes * bytes)) : tree := default Empty (tree_of (root (run l))).
Definition encodings (l : list (bytes * bytes)) : list bytes := blob (tree_after l) :: map blob (bigs (tree_after l)).

Definition known_list : list bytes := [0x80] :: encodings (take 1 pairs) ++ encodings (take 2 pairs) ++ encodings pairs.
Definition toy_known (x : bytes) : Prop := x ∈ known_list.

Definition no_collision (l : list bytes) : bool :=
  forallb (fun x => (len x <? 2 ^ 64) && negb (Keccak256Hash x =? 0) &&
    forallb (fun y => negb (Keccak256Hash x =? Keccak256Hash y) || bool_decide (x = y)) l) l.

Lemma known_of_list l : no_collision l = true -> Known (fun x => x ∈ l).
Proof.
  intros E. unfold no_collision in E. rewrite forallb_forall in E.
  assert (forall x, x ∈ l -> (len x <? 2 ^ 64) && negb (Keccak256Hash x =? 0) &&
    forallb (fun y => negb (Keccak256Hash x =? Keccak256Hash y) || bool_decide (x = y)) l = true) as Hx.
  { intros x Hx. by apply E, list_elem_of_In. }
  split.
  - intros x [[H1 _]%andb_true_iff _]%Hx%andb_true_iff. by apply Z.ltb_lt.
  - intros x [[_ H1]%andb_true_iff _]%Hx%andb_true_iff. by apply negb_true_iff, Z.eqb_neq in H1.
  - intros x y [_ H1]%Hx%andb_true_iff Hy Eh. rewrite forallb_forall in H1. apply list_elem_of_In in Hy. specialize (H1 y Hy).
    rewrite Eh, Z.eqb_refl in H1. by apply bool_decide_eq_true in H1.
Qed.

Lemma known_list_ok : no_collision known_list = true.
Proof. vm_compute. reflexivity. Qed.

#[local] Instance toy_known_law : Known toy_known := known_of_list known_list known_list_ok.

Lemma toy_empty_root : empty_root (K := toy_known).
Proof. split; [done|]. by left. Qed.

Lemma disk0_ok : db_ok (K := toy_known) disk0.
Proof. apply NewDatabase_ok, complete_empty. Qed.

Lemma pairs_sane n : Forall (sane 20) (take n pairs).
Proof.
  apply Forall_take. repeat constructor; cbn [fst snd]; try (unfold is_byte, enough; simpl; lia); try done.
Qed.

Lemma pairs_known n : n ∈ [1%nat; 2%nat; 3%nat] -> known_map (K := toy_known) (given (take n pairs)).
Proof.
  intros Hn. apply (given_known 20 disk0 _ (run (take n pairs)) (tree_after (take n pairs))); [apply pairs_sane|..].
  - unfold run. destruct (updates_map 20 disk0 (take n pairs) fresh ∅) as (t & -> & _); [apply pairs_sane|apply fresh_map|done].
  - repeat (apply elem_of_cons in Hn as [->|Hn]; [by vm_compute|]). by apply elem_of_nil in Hn.
  - intros _. change (Forall toy_known (encodings (take n pairs))). apply Forall_forall. intros x Hx. unfold toy_known, known_list.
    apply elem_of_cons. right. rewrite !elem_of_app.
    repeat (apply elem_of_cons in Hn as [->|Hn]; [auto|]). by apply elem_of_nil in Hn.
Qed.

Lemma no_leaf : leaf_ok (K := toy_known) (D := Database) None.
Proof. by intros ?. Qed.

(** ** The theorems at these maps *)
Definition session : list op :=
  [OUpdate [1; 2] (big_value 7); OHash; OUpdate [1; 3] (big_value 8); OUpdate [33; 4] [9]; OCommit; OGet [1; 2];
   OUpdate [33; 4] []; OGet [33; 4]; OCommit].

Lemma session_ok : ops_ok (K := toy_known) 20 ∅ session.
Proof.
  assert (forall m n, n ∈ [1%nat; 2%nat; 3%nat] -> m = given (take n pairs) -> known_map (K := toy_known) m) as Hk.
  { intros m n Hn ->. by apply pairs_known. }
  cbn [ops_ok session op_ok]. split_and!; try done; try (unfold enough; simpl; lia); try (by repeat constructor).
  - apply (Hk _ 1%nat); [set_solver|vm_compute; reflexivity].
  - apply (Hk _ 3%nat); [set_solver|vm_compute; reflexivity].
  - apply (Hk _ 2%nat); [set_solver|vm_compute; reflexivity].
Qed.

Lemma trie_refines_map_witness : exists l t' d', exec_all 20 None session (fresh, disk0) = Ok (l, (t', d')) /\
  spec_answers ∅ session l /\ trie_map d' t' (foldl spec_step ∅ session) /\ db_ok (K := toy_known) d'.
Proof. apply (trie_refines_map (K := toy_known) (HL := database_laws) 20 None session fresh disk0 ∅); [apply no_leaf|apply fresh_map|apply disk0_ok|apply session_ok]. Defined.

Lemma run_trie n : trie_map disk0 (run (take n pairs)) (given (take n pairs)).
Proof.
  apply (given_trie 20); [apply pairs_sane|]. unfold run.
  destruct (updates_map 20 disk0 (take n pairs) fresh ∅) as (t & -> & _); [apply pairs_sane|apply fresh_map|done].
Qed.

Lemma given_proper n : proper_map (given (take n pairs)).
Proof.
  assert (forall l m, Forall (sane 20) l -> proper_map m -> proper_map (foldl (fun m kv => <[kv.1 := kv.2]> m) m l)) as Hl.
  { induction l as [|kv l IH]; intros m Hs Hm; [done|]. inversion Hs as [|? ? (Hk & Hv & Hne & _) Hs']; subst. apply IH; [done|].
    by apply map_Forall_insert_2. }
  apply Hl; [apply pairs_sane|]. apply map_Forall_empty.
Qed.

Lemma root_commits_witness : exists h u h' u', Hash (run (take 2 pairs)) = Ok (h, u) /\ Hash (run (take 3 pairs)) = Ok (h', u') /\
  (h = h' <-> given (take 2 pairs) = given (take 3 pairs)).
Proof.
  apply (root_commits (K := toy_known) (HL := database_laws) disk0 (run (take 2 pairs)) (given (take 2 pairs)) disk0); try apply given_proper; try apply run_trie;
    try apply disk0_ok; try (apply pairs_known; set_solver). apply toy_empty_root.
Defined.

Lemma commit_reopen_witness : exists h t1 d' t2, Commit None disk0 (run (take 3 pairs)) = Ok (h, t1, d') /\ New h d' = Ok (inr t2) /\
  trie_map d' t1 (given (take 3 pairs)) /\ trie_map d' t2 (given (take 3 pairs)).
Proof.
  apply (commit_reopen (K := toy_known) (HL := database_laws) None disk0 (run (take 3 pairs)) (given (take 3 pairs))); [apply no_leaf|apply run_trie|apply pairs_known; set_solver|apply disk0_ok|apply toy_empty_root].
Defined.


(** The second batch cannot be written. *)
Definition one_write (n : nat) : bool := (1 <=? n)%nat.

Fixpoint withinb (m : gmap Z cachedNode) (n : nat) (h : Z) : bool :=
  match m !! h with
  | None => true
  | Some c =>
      match n, childs c with
      | O, Ok [] => true
      | S n, Ok hs => forallb (withinb m n) hs
      | _, _ => false
      end
  end.

Lemma withinb_within m n : forall h, withinb m n h = true -> within m n h.
Proof.
  induction n as [|n IH]; intros h; cbn [withinb within]; destruct (m !! h) as [c|]; try done; destruct (childs c) as [hs|]; try done.
  - by destruct hs.
  - rewrite forallb_forall. intros Hf. exists hs. split; [done|]. apply Forall_forall. intros x Hx. by apply IH, Hf, list_elem_of_In.
Qed.

Lemma pairs_within h t' d' : Commit None disk0 (run (take 3 pairs)) = Ok (h, t', d') -> within (dirties d') 4 h.
Proof.
  assert (match Commit None disk0 (run (take 3 pairs)) with Ok (h, _, d') => withinb (dirties d') 4 h | Panic => false end = true) as E
    by (vm_compute; reflexivity).
  intros E0. rewrite E0 in E. by apply withinb_within.
Qed.


(** ** Code beside nodes *)

(** The trie is committed to a database, the database to the disk, and a key is read after a restart. *)
Definition restart_read (d : Database) (key : bytes) : res (option bytes * option trieErr) :=
  let! (h, _, d) := Commit None d (run pairs) in
  let! (_, d) := CommitDB (fun _ => false) 10 h d in
  let d := NewDatabase (diskdb d) in
  let! r := New h d in
  match r with
  | inl e => Ok (None, Some e)
  | inr t => let! (v, err, _) := TryGet 20 d key t in Ok (v, err)
  end.

(** The bytes of the node above the first two keys. *)
Definition code : bytes := match tree_after pairs with Full (t :: _) => blob t | _ => [] end.

End TrieToy.
