(* ===== verification/Evm.v ===== *)
(** * eth/core/vm: gas, instructions, calls and the interpreter loop

    gas_table.go and base_gas_table.go, instructions.go, evm.go and
    interpreter.go, over the jump table of Constantinople, which
    [NewEVMInterpreter] installs at every height.  Calls nest through the
    interpreter: an instruction that calls takes the loop as an argument, and
    the loop is closed at the end of the file, on fuel that pays for one
    instruction each. *)
From S2P Require Import Prelude EthMath StateDB Rlp EvmBase Precompiles.

Module Evm.
Import EthMath EvmBase Precompiles.

Section with_env.
Context `{Keccak, Natives}.
Variable v : Env.

Abbreviation chain_rule rule := (rule (chainConfig v) (BlockNumber v)).

(** ** Gas: gas_table.go, base_gas_table.go *)

(** An amount of gas, or an error. *)
Definition gas_result : Type := Z + vmerror.
Definition gbind (m : I gas_result) (k : Z -> I gas_result) : I gas_result :=
  r <- m;; match r with inl g => k g | inr e => iret (inr e) end.
Notation "'let$' x := m 'in' k" := (gbind m (fun x => k)) (at level 10, m at level 100, k at level 200).
Definition gok (g : Z) : I gas_result := iret (inl g).
Definition checked (r : Z * bool) : I gas_result :=
  iret (if r.2 then inr errGasUintOverflow else inl r.1).

Definition memoryGasCost (newMemSize : Z) : I gas_result :=
  if newMemSize =? 0 then gok 0
  else if newMemSize >? 0xffffffffe0 then iret (inr errGasUintOverflow)
  else
    let newMemSizeWords := toWordSize newMemSize in
    let newMemSize := u64 (newMemSizeWords * 32) in
    m <- get memory;;
    if newMemSize >? mem_Len m then
      let square := u64 (newMemSizeWords * newMemSizeWords) in
      let linCoef := u64 (newMemSizeWords * 3) in
      let quadCoef := square / 512 in
      let newTotalFee := u64 (linCoef + quadCoef) in
      let fee := u64 (newTotalFee - lastGasCost m) in
      mem_do (fun m => Done (mkMemory (store m) newTotalFee));;;
      gok fee
    else gok 0.

(** Memory, a fixed price and a price for each word of [Back n]. *)
Definition gas_memory_plus (fixed memorySize : Z) : I gas_result :=
  let$ gas := memoryGasCost memorySize in checked (SafeAdd gas fixed).

Definition gas_copy (fixed word : Z) (n : nat) (memorySize : Z) : I gas_result :=
  let$ gas := gas_memory_plus fixed memorySize in
  size <- Back n;;
  let$ words := checked (bigUint64 size) in
  let$ words := checked (SafeMul (toWordSize words) word) in
  checked (SafeAdd gas words).

Definition gasSStore : I gas_result :=
  y <- Back 1;; x <- Back 0;;
  c <- get contract;;
  current <- query (StateDB.GetState (self c) (BigToHash x));;
  if negb (chain_rule IsConstantinople) then
    if (current =? 0) && negb (y =? 0) then gok 20000
    else if negb (current =? 0) && (y =? 0) then update (StateDB.AddRefund 15000);;; gok 5000
    else gok 5000
  else
    let value := BigToHash y in
    if current =? value then gok 200
    else
      original <- query (StateDB.GetCommittedState (self c) (BigToHash x));;
      if original =? current then
        if original =? 0 then gok 20000
        else
          (if value =? 0 then update (StateDB.AddRefund 15000) else iret tt);;;
          gok 5000
      else
        (if negb (original =? 0) then
           if current =? 0 then
             fun f => do! s := or_crash state_panic (StateDB.SubRefund 15000 (sdb (evm f))) in
                      Done (tt, with_evm (with_sdb s (evm f)) f)
           else if value =? 0 then update (StateDB.AddRefund 15000)
           else iret tt
         else iret tt);;;
        (if original =? value then
           if original =? 0 then update (StateDB.AddRefund 19800)
           else update (StateDB.AddRefund 4800)
         else iret tt);;;
        gok 200.

Definition makeGasLog (n : Z) (memorySize : Z) : I gas_result :=
  size <- Back 1;;
  let$ requestedSize := checked (bigUint64 size) in
  let$ gas := memoryGasCost memorySize in
  let$ gas := checked (SafeAdd gas 375) in
  let$ gas := checked (SafeAdd gas (u64 (n * 375))) in
  let$ memorySizeGas := checked (SafeMul requestedSize 8) in
  checked (SafeAdd gas memorySizeGas).

Definition gasExp : I gas_result :=
  e <- Back 1;;
  let expByteLen := u64 ((BitLen e + 7) / 8) in
  checked (SafeAdd (u64 (expByteLen * ExpByte gt)) 10).

Definition gasSuicide : I gas_result :=
  c <- get contract;;
  gas <- (if chain_rule IsEIP150 then
            b <- Back 0;;
            let address := BigToAddress b in
            if chain_rule IsEIP158 then
              em <- query (StateDB.Empty address);;
              if em then
                bal <- query (StateDB.GetBalance (self c));;
                iret (if negb (bal =? 0) then u64 (gt_Suicide gt + CreateBySuicide gt) else gt_Suicide gt)
              else iret (gt_Suicide gt)
            else
              ex <- query (StateDB.Exist address);;
              iret (if ex then gt_Suicide gt else u64 (gt_Suicide gt + CreateBySuicide gt))
          else iret 0);;
  su <- query (StateDB.HasSuicided (self c));;
  (if su then iret tt else update (StateDB.AddRefund 24000));;;
  gok gas.

Definition baseGasCall (memorySize : Z) : I gas_result :=
  val <- Back 2;; b <- Back 1;;
  let transfersValue := negb (val =? 0) in
  let address := BigToAddress b in
  new <- (if chain_rule IsEIP158 then
            if transfersValue then query (StateDB.Empty address) else iret false
          else
            ex <- query (StateDB.Exist address);; iret (negb ex));;
  let gas := Calls gt in
  let gas := if new then u64 (gas + 25000) else gas in
  let gas := if transfersValue then u64 (gas + 9000) else gas in
  let$ memoryGas := memoryGasCost memorySize in
  checked (SafeAdd gas memoryGas).

Definition baseGasCallCode (memorySize : Z) : I gas_result :=
  val <- Back 2;;
  let gas := if negb (val =? 0) then u64 (Calls gt + 9000) else Calls gt in
  let$ memoryGas := memoryGasCost memorySize in
  checked (SafeAdd gas memoryGas).

(** The gas of an operation: the [baseGasCost] of its table entry, if there is
    one, or the [gasCost] (opBaseGasCall). *)
Definition opBaseGasCall (op : OpCode) (memorySize : Z) : I gas_result :=
  match op with
  | STOP => gok 0
  | JUMPDEST => gok 1
  | ADDRESS | ORIGIN | CALLER | CALLVALUE | CALLDATASIZE | CODESIZE | GASPRICE | RETURNDATASIZE
  | COINBASE | TIMESTAMP | NUMBER | DIFFICULTY | GASLIMIT | POP | PC | MSIZE | GAS => gok 2
  | ADD | SUB | LT | GT | SLT | SGT | EQ | ISZERO | AND | OR | XOR | NOT | BYTE | SHL | SHR | SAR
  | CALLDATALOAD | PUSH _ | DUP _ | SWAP _ => gok 3
  | MUL | DIV | SDIV | MOD | SMOD | SIGNEXTEND => gok 5
  | ADDMOD | MULMOD | JUMP => gok 8
  | JUMPI => gok 10
  | BLOCKHASH => gok 20
  | EXP => gasExp
  | SHA3 => gas_copy 30 6 1 memorySize
  | BALANCE => gok (gt_Balance gt)
  | EXTCODESIZE => gok (ExtcodeSize gt)
  | EXTCODEHASH => gok (ExtcodeHash gt)
  | SLOAD => gok (SLoad gt)
  | CALLDATACOPY | CODECOPY | RETURNDATACOPY => gas_copy 3 3 2 memorySize
  | EXTCODECOPY => gas_copy (ExtcodeCopy gt) 3 3 memorySize
  | MLOAD | MSTORE | MSTORE8 => gas_memory_plus 3 memorySize
  | SSTORE => gasSStore
  | LOG n => makeGasLog n memorySize
  | CREATE => gas_memory_plus 32000 memorySize
  | CREATE2 => gas_copy 32000 6 2 memorySize
  | CALL => baseGasCall memorySize
  | CALLCODE => baseGasCallCode memorySize
  | DELEGATECALL | STATICCALL => gas_memory_plus (Calls gt) memorySize
  | RETURN | REVERT => memoryGasCost memorySize
  | SELFDESTRUCT => gasSuicide
  end.

(** ** Instructions: instructions.go *)

(** What an instruction returns: output, and an error that ends the frame. *)
Definition outcome : Type := bytes * option vmerror.
Definition continue : I outcome := iret ([], None).

(** [*big.Int].Cmp gives the order, Sign the sign; Div and Mod round down on
    the operands that reach them. *)
Definition opArith (op : OpCode) (x y : Z) : option Z :=
  match op with
  | ADD => Some (U256 (x + y))
  | SUB => Some (U256 (x - y))
  | MUL => Some (U256 (x * y))
  | DIV => Some (if negb (y =? 0) then U256 (x / y) else 0)
  | SDIV =>
      let x := S256 x in
      let y := S256 y in
      Some (if (y =? 0) || (x =? 0) then 0
            else if negb (Z.sgn x =? Z.sgn y) then U256 (- (Z.abs x / Z.abs y))
            else U256 (Z.abs x / Z.abs y))
  | MOD => Some (if y =? 0 then 0 else U256 (x mod y))
  | SMOD =>
      let x := S256 x in
      let y := S256 y in
      Some (if y =? 0 then 0
            else if x <? 0 then U256 (- (Z.abs x mod Z.abs y))
            else U256 (Z.abs x mod Z.abs y))
  | EXP =>
      let base := x in
      let exponent := y in
      Some (if exponent <? 1 then 1
            else if base =? 0 then 0
            else if exponent =? 1 then base
            else Exp base exponent)
  | SIGNEXTEND =>
      let back := x in
      let num := y in
      Some (if back <? 31 then
              let bit := u64 (Uint64 back * 8 + 7) in
              let mask := Z.shiftl 1 bit - 1 in
              U256 (if Z.testbit num bit then Z.lor num (Z.lnot mask) else Z.land num mask)
            else num)
  | _ => None
  end.

Definition opCompare (op : OpCode) (x y : Z) : option Z :=
  let bool_word (b : bool) := Some (if b then 1 else 0) in
  match op with
  | LT => bool_word (x <? y)
  | GT => bool_word (x >? y)
  | SLT =>
      if (x >=? tt255) && (y <? tt255) then Some 1
      else if (x <? tt255) && (y >=? tt255) then Some 0
      else bool_word (x <? y)
  | SGT =>
      if (x >=? tt255) && (y <? tt255) then Some 0
      else if (x <? tt255) && (y >=? tt255) then Some 1
      else bool_word (x >? y)
  | EQ => bool_word (x =? y)
  | _ => None
  end.

Definition opBits (op : OpCode) (x y : Z) : option Z :=
  match op with
  | AND => Some (Z.land x y)
  | OR => Some (Z.lor x y)
  | XOR => Some (Z.lxor x y)
  | BYTE => Some (if x <? 32 then Byte y 32 (Int64 x) else 0)
  | _ => None
  end.

Definition opShift (op : OpCode) (x y : Z) : option Z :=
  let shift := U256 x in
  match op with
  | SHL => Some (if shift >=? 256 then 0 else U256 (Z.shiftl (U256 y) (Uint64 shift)))
  | SHR => Some (if shift >=? 256 then 0 else U256 (Z.shiftr (U256 y) (Uint64 shift)))
  | SAR =>
      let value := S256 y in
      Some (if shift >=? 256 then U256 (if value >=? 0 then 0 else -1)
            else U256 (Z.shiftr value (Uint64 shift)))
  | _ => None
  end.

Definition opModular (op : OpCode) (x y z : Z) : Z :=
  if z >? 0 then U256 ((match op with ADDMOD => x + y | _ => x * y end) mod z) else 0.

Definition opUnary (op : OpCode) (x : Z) : Z :=
  match op with
  | NOT => U256 (Z.lnot x)
  | _ => if x >? 0 then 0 else 1   (* ISZERO *)
  end.

(** Instructions that push a value of the context. *)
Definition opValue (op : OpCode) (f : Frame) : Z :=
  let c := contract f in
  match op with
  | ADDRESS => self c
  | ORIGIN => Origin v
  | CALLER => CallerAddress c
  | CALLVALUE => value c
  | CALLDATASIZE => len (Input c)
  | RETURNDATASIZE => len (returnData (evm f))
  | CODESIZE => len (Code c)
  | GASPRICE => GasPrice v
  | COINBASE => Coinbase v
  | TIMESTAMP => U256 (Time v)
  | NUMBER => U256 (BlockNumber v)
  | DIFFICULTY => U256 (Difficulty v)
  | GASLIMIT => U256 (GasLimit v)
  | PC => pc f
  | MSIZE => mem_Len (memory f)
  | _ => Gas c   (* GAS *)
  end.

Definition mem_get (offset size : Z) : I bytes := m <- get memory;; lift (mem_Get (Int64 offset) (Int64 size) m).
Definition mem_set (offset size : Z) (b : bytes) : I unit := mem_do (mem_Set (Uint64 offset) (Uint64 size) b).

Definition opSha3 : I outcome :=
  offset <- pop;; size <- pop;;
  data <- mem_get offset size;;
  let h := Keccak256Hash data in
  (if EnablePreimageRecording v then update (StateDB.AddPreimage h data) else iret tt);;;
  push h;;; continue.

Definition opBalance : I outcome :=
  slot <- pop;; b <- query (StateDB.GetBalance (BigToAddress slot));; push b;;; continue.

Definition opCallDataLoad : I outcome :=
  off <- pop;; c <- get contract;; d <- lift (getDataBig (Input c) off 32);; push (be_val d);;; continue.

(** [opCallDataCopy] and [opCodeCopy] *)
Definition copy_op (src : Contract -> bytes) : I outcome :=
  memOffset <- pop;; dataOffset <- pop;; length <- pop;;
  c <- get contract;;
  d <- lift (getDataBig (src c) dataOffset length);;
  mem_set memOffset length d;;; continue.

Definition opReturnDataCopy : I outcome :=
  memOffset <- pop;; dataOffset <- pop;; length <- pop;;
  let end_ := dataOffset + length in
  rd <- get (fun f => returnData (evm f));;
  if (BitLen end_ >? 64) || (len rd <? Uint64 end_) then iret ([], Some errReturnDataOutOfBounds)
  else
    d <- lift (or_crash index_out_of_range (go_slice rd (Uint64 dataOffset) (Uint64 end_)));;
    mem_set memOffset length d;;; continue.

Definition opExtCodeSize : I outcome :=
  slot <- pop;; n <- query (StateDB.GetCodeSize (BigToAddress slot));; push n;;; continue.

Definition opExtCodeCopy : I outcome :=
  a <- pop;; memOffset <- pop;; codeOffset <- pop;; length <- pop;;
  code <- query (StateDB.GetCode (BigToAddress a));;
  d <- lift (getDataBig code codeOffset length);;
  mem_set memOffset length d;;; continue.

Definition opExtCodeHash : I outcome :=
  slot <- pop;;
  let address := BigToAddress slot in
  em <- query (StateDB.Empty address);;
  if em then push 0;;; continue
  else h <- query (StateDB.GetCodeHash address);; push h;;; continue.

Definition opBlockhash : I outcome :=
  num <- pop;;
  push (if (num >? BlockNumber v - 257) && (num <? BlockNumber v) then GetHash v (Uint64 num) else 0);;;
  continue.

Definition opMload : I outcome := offset <- pop;; d <- mem_get offset 32;; push (be_val d);;; continue.

Definition opMstore : I outcome :=
  mStart <- pop;; val <- pop;; mem_do (mem_Set32 (Uint64 mStart) val);;; continue.

Definition opMstore8 : I outcome :=
  off <- pop;; val <- pop;;
  mem_do (fun m =>
    let i := Int64 off in
    if (0 <=? i) && (i <? mem_Len m)
    then Done (mkMemory (<[Z.to_nat i := u8 (Int64 val)]> (store m)) (lastGasCost m))
    else Crash index_out_of_range);;;
  continue.

Definition opSload : I outcome :=
  loc <- pop;; c <- get contract;;
  val <- query (StateDB.GetState (self c) (BigToHash loc));; push val;;; continue.

Definition opSstore : I outcome :=
  loc <- pop;; val <- pop;; c <- get contract;;
  update (StateDB.SetState (self c) (BigToHash loc) (BigToHash val));;; continue.

Definition opJump : I outcome :=
  pos <- pop;; c <- get contract;;
  ok <- lift (validJumpdest pos c);;
  if ok then set_pc (Uint64 pos);;; continue else iret ([], Some errInvalidJump).

Definition opJumpi : I outcome :=
  pos <- pop;; cond <- pop;; c <- get contract;;
  if negb (cond =? 0) then
    ok <- lift (validJumpdest pos c);;
    if ok then set_pc (Uint64 pos);;; continue else iret ([], Some errInvalidJump)
  else p <- get pc;; set_pc (u64 (p + 1));;; continue.

(** [opReturn] and [opRevert] *)
Definition opReturn : I outcome :=
  offset <- pop;; size <- pop;; ret <- mem_get offset size;; iret (ret, None).

Definition opSuicide : I outcome :=
  c <- get contract;;
  balance <- query (StateDB.GetBalance (self c));;
  b <- pop;;
  update (StateDB.AddBalance (BigToAddress b) balance);;;
  _ <- query (StateDB.Suicide (self c));; continue.

Fixpoint pop_topics (size : nat) : I (list Z) :=
  match size with
  | O => iret []
  | S size' => t <- pop;; ts <- pop_topics size';; iret (BigToHash t :: ts)
  end.

Definition makeLog (size : nat) : I outcome :=
  mStart <- pop;; mSize <- pop;;
  topics <- pop_topics size;;
  d <- mem_get mStart mSize;;
  c <- get contract;;
  update (StateDB.AddLog (StateDB.mkLog (self c) topics d (Uint64 (BlockNumber v)) 0 0 0 0));;;
  continue.

Definition makePush (size : Z) : I outcome :=
  c <- get contract;; p <- get pc;;
  let codeLen := len (Code c) in
  let startMin := if p + 1 <? codeLen then p + 1 else codeLen in
  let endMin := if startMin + size <? codeLen then startMin + size else codeLen in
  d <- lift (or_crash index_out_of_range (go_slice (Code c) startMin endMin));;
  push (be_val (RightPadBytes d size));;;
  set_pc (u64 (p + size));;; continue.

(** ** Calls: evm.go and the entry of the interpreter *)
Section with_loop.

(** The loop of the interpreter on a frame, to the end of the frame. *)
Variable loop : Frame -> vmres (outcome * Frame).

(** [EVMInterpreter.Run]: the depth and the read-only flag are set back on return. *)
Definition Run (c : Contract) (input : bytes) (ro : bool) (e : EVM) : vmres (outcome * Contract * EVM) :=
  let ro' := readOnly e || ro in
  let inner := mkEVM (sdb e) (depth e + 1) (callGasTemp e) (gasLeft e) ro' [] in
  let leave (e' : EVM) :=
    mkEVM (sdb e') (depth e) (callGasTemp e') (gasLeft e') (readOnly e) (returnData e') in
  if (length (Code c) =? 0)%nat then Done (([], None), c, leave inner)
  else
    do! (o, f) := loop (mkFrame (set_Input input c) 0 NewMemory [] inner) in
    Done (o, contract f, leave (evm f)).

(** The function [run]: precompiled contracts first. *)
Definition run (c : Contract) (input : bytes) (ro : bool) (e : EVM) : vmres (outcome * Contract * EVM) :=
  match CodeAddr c ≫= PrecompiledContractsByzantium with
  | Some p =>
      do! gas := RequiredGas p input in
      let '(g, ok) := useGas (gasLeft e) gas in
      let e := with_gasLeft g e in
      if ok then
        do! (r, s) := native_Run p input (sdb e) in
        Done (match r with inl ret => (ret, None) | inr err => ([], Some err) end, c, with_sdb s e)
      else Done (([], Some ErrOutOfGas), c, e)
  | None => Run c input ro e
  end.

(** core/evm.go *)
Definition CanTransfer (addr amount : Z) (s : StateDB.StateDB) : bool * StateDB.StateDB :=
  let '(b, s) := StateDB.GetBalance addr s in (b >=? amount, s).
Definition Transfer (sender recipient amount : Z) (s : StateDB.StateDB) : StateDB.StateDB :=
  StateDB.AddBalance recipient amount (StateDB.SubBalance sender amount s).

(** The code of an account, with its hash looked up first. *)
Definition load_code (addr : Z) (s : StateDB.StateDB) : bytes * StateDB.StateDB :=
  let '(_, s) := StateDB.GetCodeHash addr s in StateDB.GetCode addr s.

(** The result of a call: output, error, gas left of what was given, machine. *)
Definition call_result : Type := bytes * option vmerror * Z * EVM.

(** The end of every call: run, and on an error revert and take the gas. *)
Definition run_or_revert (snapshot : Z) (c : Contract) (input : bytes) (ro : bool) (e : EVM) : vmres call_result :=
  do! (ret, err, c, e) := run c input ro e in
  match err with
  | None => Done (ret, None, Gas c, e)
  | Some err =>
      do! s := or_crash state_panic (StateDB.RevertToSnapshot snapshot (sdb e)) in
      let e := with_sdb s e in
      Done (ret, Some err, if decide (err = errExecutionReverted) then Gas c else 0, e)
  end.

Definition Call (caller addr : Z) (input : bytes) (gas value : Z) (e : EVM) : vmres call_result :=
  if NoRecursion v && (depth e >? 0) then Done ([], None, gas, e)
  else if depth e >? CallCreateDepth then Done ([], Some ErrDepth, gas, e)
  else
    let '(can, s) := CanTransfer caller value (sdb e) in
    if negb can then Done ([], Some ErrInsufficientBalance, gas, with_sdb s e)
    else
      let '(snapshot, s) := StateDB.Snapshot s in
      let '(ex, s) := StateDB.Exist addr s in
      if negb ex && bool_decide (PrecompiledContractsByzantium addr = None) && chain_rule IsEIP158 && (value =? 0)
      then Done ([], None, gas, with_sdb s e)
      else
        let s := if ex then s else StateDB.CreateAccount addr s in
        let s := Transfer caller addr value s in
        let '(code, s) := load_code addr s in
        run_or_revert snapshot (SetCallCode addr code (NewContract caller addr value gas)) input false (with_sdb s e).

Definition CallCode (caller addr : Z) (input : bytes) (gas value : Z) (e : EVM) : vmres call_result :=
  if NoRecursion v && (depth e >? 0) then Done ([], None, gas, e)
  else if depth e >? CallCreateDepth then Done ([], Some ErrDepth, gas, e)
  else
    let '(can, s) := CanTransfer caller value (sdb e) in
    if negb can then Done ([], Some ErrInsufficientBalance, gas, with_sdb s e)
    else
      let '(snapshot, s) := StateDB.Snapshot s in
      let '(code, s) := load_code addr s in
      run_or_revert snapshot (SetCallCode addr code (NewContract caller caller value gas)) input false (with_sdb s e).

Definition DelegateCall (caller : Contract) (addr : Z) (input : bytes) (gas : Z) (e : EVM) : vmres call_result :=
  if NoRecursion v && (depth e >? 0) then Done ([], None, gas, e)
  else if depth e >? CallCreateDepth then Done ([], Some ErrDepth, gas, e)
  else
    let '(snapshot, s) := StateDB.Snapshot (sdb e) in
    let '(code, s) := load_code addr s in
    run_or_revert snapshot
      (SetCallCode addr code (AsDelegate caller (NewContract (self caller) (self caller) 0 gas)))
      input false (with_sdb s e).

Definition StaticCall (caller addr : Z) (input : bytes) (gas : Z) (e : EVM) : vmres call_result :=
  if NoRecursion v && (depth e >? 0) then Done ([], None, gas, e)
  else if depth e >? CallCreateDepth then Done ([], Some ErrDepth, gas, e)
  else
    let '(snapshot, s) := StateDB.Snapshot (sdb e) in
    let '(code, s) := load_code addr s in
    let s := StateDB.AddBalance addr 0 s in
    run_or_revert snapshot (SetCallCode addr code (NewContract caller addr 0 gas)) input true (with_sdb s e).

(** The result of a creation, with the address of the contract. *)
Definition create_result : Type := bytes * option vmerror * Z * Z * EVM.

(** Storing the code a constructor returned. *)
Definition store_code (address : Z) (ret : bytes) (err : option vmerror) (c : Contract) (e : EVM) :
    option vmerror * Contract * EVM :=
  match err with
  | Some _ => (err, c, e)
  | None =>
      let '(ok, c) := UseGas (u64 (len ret * CreateDataGas)) c in
      if ok then (None, c, with_sdb (StateDB.SetCode address ret (sdb e)) e)
      else (Some ErrCodeStoreOutOfGas, c, e)
  end.

(** [create] from its snapshot on *)
Definition deploy (caller : Z) (code : bytes) (gas value address : Z) (e : EVM) : vmres create_result :=
  let '(snapshot, s) := StateDB.Snapshot (sdb e) in
  let s := StateDB.CreateAccount address s in
  let s := if chain_rule IsEIP158 then StateDB.SetNonce address 1 s else s in
  let s := Transfer caller address value s in
  let c := SetCallCode address code (NewContract caller address value gas) in
  if NoRecursion v && (depth e >? 0) then Done ([], None, address, gas, with_sdb s e)
  else
    do! (ret, err, c, e) := run c [] false (with_sdb s e) in
    let maxCodeSizeExceeded := chain_rule IsEIP158 && (len ret >? MaxCodeSize) in
    let '(err, c, e) := if maxCodeSizeExceeded then (err, c, e) else store_code address ret err c e in
    do! (c, e) :=
      (if maxCodeSizeExceeded ||
          match err with
          | Some er => chain_rule IsHomestead || bool_decide (er <> ErrCodeStoreOutOfGas)
          | None => false
          end
       then
         do! s := or_crash state_panic (StateDB.RevertToSnapshot snapshot (sdb e)) in
         Done (if decide (err = Some errExecutionReverted) then c else set_Gas 0 c, with_sdb s e)
       else Done (c, e)) in
    let err := match err with
               | None => if maxCodeSizeExceeded then Some errMaxCodeSizeExceeded else None
               | Some _ => err
               end in
    Done (ret, err, address, Gas c, e).

Definition create (caller : Z) (code : bytes) (gas value address : Z) (e : EVM) : vmres create_result :=
  if depth e >? CallCreateDepth then Done ([], Some ErrDepth, 0, gas, e)
  else
    let '(can, s) := CanTransfer caller value (sdb e) in
    if negb can then Done ([], Some ErrInsufficientBalance, 0, gas, with_sdb s e)
    else
      let '(nonce, s) := StateDB.GetNonce caller s in
      let s := StateDB.SetNonce caller (u64 (nonce + 1)) s in
      let '(contractHash, s) := StateDB.GetCodeHash address s in
      let '(n, s) := StateDB.GetNonce address s in
      if negb (n =? 0) || (negb (contractHash =? 0) && negb (contractHash =? StateDB.emptyCodeHash))
      then Done ([], Some ErrContractAddressCollision, 0, 0, with_sdb s e)
      else
        deploy caller code gas value address (with_sdb s e).

(** crypto.go: the nonce in RLP, or the salt and the hash of the code *)
Definition CreateAddress (b nonce : Z) : vmres Z :=
  do! r := or_crash index_out_of_range
             (Rlp.EncodeToBytes (Rlp.VList [Rlp.VBytes (address_Bytes b); Rlp.VUint nonce])) in
  Done (BytesToAddress (drop 12 (Keccak256 (default [] r)))).
Definition CreateAddress2 (b salt : Z) (inithash : bytes) : Z :=
  BytesToAddress (drop 12 (Keccak256 ([0xff] ++ address_Bytes b ++ hash_Bytes salt ++ inithash))).

Definition Create (caller : Z) (code : bytes) (gas value : Z) (e : EVM) : vmres create_result :=
  let '(nonce, s) := StateDB.GetNonce caller (sdb e) in
  do! address := CreateAddress caller nonce in
  create caller code gas value address (with_sdb s e).

Definition Create2 (caller : Z) (code : bytes) (gas endowment salt : Z) (e : EVM) : vmres create_result :=
  create caller code gas endowment
    (CreateAddress2 caller (BigToHash salt) (hash_Bytes (Keccak256Hash code))) e.

(** ** Instructions that call *)
Definition add_gas (g : Z) : I unit :=
  fun f => Done (tt, with_contract (set_Gas (u64 (Gas (contract f) + g)) (contract f)) f).
Definition use_all_but_64th (always : bool) : I Z :=
  fun f =>
    let gas := Gas (contract f) in
    let gas := if always then gas - gas / 64 else gas in
    Done (gas, with_contract (snd (UseGas gas (contract f))) f).
Definition machine {A} (m : EVM -> vmres (A * EVM)) : I A :=
  fun f => do! (a, e) := m (evm f) in Done (a, with_evm e f).

Definition opCreate : I outcome :=
  value <- pop;; offset <- pop;; size <- pop;;
  input <- mem_get offset size;;
  gas <- use_all_but_64th (chain_rule IsEIP150);;
  c <- get contract;;
  r <- machine (Create (self c) input gas value);;
  let '(res, suberr, addr, returnGas) := r in
  push (match suberr with
        | Some ErrCodeStoreOutOfGas => if chain_rule IsHomestead then 0 else addr
        | Some _ => 0
        | None => addr
        end);;;
  add_gas returnGas;;;
  iret (if decide (suberr = Some errExecutionReverted) then res else [], None).

Definition opCreate2 : I outcome :=
  endowment <- pop;; offset <- pop;; size <- pop;; salt <- pop;;
  input <- mem_get offset size;;
  gas <- use_all_but_64th true;;
  c <- get contract;;
  r <- machine (Create2 (self c) input gas endowment salt);;
  let '(res, suberr, addr, returnGas) := r in
  push (match suberr with Some _ => 0 | None => addr end);;;
  add_gas returnGas;;;
  iret (if decide (suberr = Some errExecutionReverted) then res else [], None).

(** The end of the four call instructions. *)
Definition finish_call (retOffset retSize : Z) (r : bytes * option vmerror * Z) : I outcome :=
  let '(ret, err, returnGas) := r in
  push (match err with Some _ => 0 | None => 1 end);;;
  (if bool_decide (err = None \/ err = Some errExecutionReverted) then mem_set retOffset retSize ret else iret tt);;;
  add_gas returnGas;;;
  iret (ret, None).

(** [opCall] and [opCallCode]: the gas on the stack is not looked at. *)
Definition opCall_ (callee : Z -> Z -> bytes -> Z -> Z -> EVM -> vmres call_result) : I outcome :=
  _ <- pop;; gas <- get (fun f => callGasTemp (evm f));;
  addr <- pop;; val <- pop;; inOffset <- pop;; inSize <- pop;; retOffset <- pop;; retSize <- pop;;
  let value := U256 val in
  args <- mem_get inOffset inSize;;
  let gas := if negb (value =? 0) then u64 (gas + CallStipend) else gas in
  c <- get contract;;
  r <- machine (callee (self c) (BigToAddress addr) args gas value);;
  finish_call retOffset retSize r.

(** [opDelegateCall] and [opStaticCall] *)
Definition opCall6 (callee : Contract -> Z -> bytes -> Z -> EVM -> vmres call_result) : I outcome :=
  _ <- pop;; gas <- get (fun f => callGasTemp (evm f));;
  addr <- pop;; inOffset <- pop;; inSize <- pop;; retOffset <- pop;; retSize <- pop;;
  args <- mem_get inOffset inSize;;
  c <- get contract;;
  r <- machine (callee c (BigToAddress addr) args gas);;
  finish_call retOffset retSize r.

Definition opCall : I outcome := opCall_ Call.
Definition opCallCode : I outcome := opCall_ CallCode.
Definition opDelegateCall : I outcome := opCall6 DelegateCall.
Definition opStaticCall : I outcome := opCall6 (fun c => StaticCall (self c)).

(** ** The jump table and the loop: jump_table.go, interpreter.go *)
Definition execute (op : OpCode) : I outcome :=
  let binary (g : OpCode -> Z -> Z -> option Z) :=
    x <- pop;; y <- pop;; push (default 0 (g op x y));;; continue in
  match op with
  | STOP | JUMPDEST => continue
  | ADD | MUL | SUB | DIV | SDIV | MOD | SMOD | EXP | SIGNEXTEND => binary opArith
  | LT | GT | SLT | SGT | EQ => binary opCompare
  | AND | OR | XOR | BYTE => binary opBits
  | SHL | SHR | SAR => binary opShift
  | ADDMOD | MULMOD => x <- pop;; y <- pop;; z <- pop;; push (opModular op x y z);;; continue
  | ISZERO | NOT => x <- pop;; push (opUnary op x);;; continue
  | ADDRESS | ORIGIN | CALLER | CALLVALUE | CALLDATASIZE | RETURNDATASIZE | CODESIZE | GASPRICE
  | COINBASE | TIMESTAMP | NUMBER | DIFFICULTY | GASLIMIT | PC | MSIZE | GAS =>
      x <- get (opValue op);; push x;;; continue
  | SHA3 => opSha3
  | BALANCE => opBalance
  | CALLDATALOAD => opCallDataLoad
  | CALLDATACOPY => copy_op Input
  | CODECOPY => copy_op Code
  | RETURNDATACOPY => opReturnDataCopy
  | EXTCODESIZE => opExtCodeSize
  | EXTCODECOPY => opExtCodeCopy
  | EXTCODEHASH => opExtCodeHash
  | BLOCKHASH => opBlockhash
  | POP => _ <- pop;; continue
  | MLOAD => opMload
  | MSTORE => opMstore
  | MSTORE8 => opMstore8
  | SLOAD => opSload
  | SSTORE => opSstore
  | JUMP => opJump
  | JUMPI => opJumpi
  | PUSH n => makePush n
  | DUP n => dup (Z.to_nat n);;; continue
  | SWAP n => swap (Z.to_nat (n + 1));;; continue
  | LOG n => makeLog (Z.to_nat n)
  | CREATE => opCreate
  | CREATE2 => opCreate2
  | CALL => opCall
  | CALLCODE => opCallCode
  | DELEGATECALL => opDelegateCall
  | STATICCALL => opStaticCall
  | RETURN | REVERT => opReturn
  | SELFDESTRUCT => opSuicide
  end.

Definition enforceRestrictions (op : OpCode) : I (option vmerror) :=
  ro <- get (fun f => readOnly (evm f));;
  if chain_rule IsByzantium && ro then
    if writes op then iret (Some errWriteProtection)
    else if decide (op = CALL) then
      val <- Back 2;; iret (if BitLen val >? 0 then Some errWriteProtection else None)
    else iret None
  else iret None.

(** The memory an operation needs, in bytes, rounded up to words. *)
Definition required_memory (op : OpCode) : I gas_result :=
  match memorySize op with
  | None => gok 0
  | Some size =>
      n <- size;;
      let$ memSize := checked (bigUint64 n) in
      checked (SafeMul (toWordSize memSize) 32)
  end.

Definition charge (cost : Z) : I bool :=
  fun f => let '(g, ok) := useGas (gasLeft (evm f)) cost in Done (ok, with_evm (with_gasLeft g (evm f)) f).

(** One turn of the loop: [inl] goes on, [inr] returns from the frame. *)
Definition turn : I (unit + outcome) :=
  p <- get pc;; c <- get contract;; st <- get stack;;
  let stop (e : vmerror) : I (unit + outcome) := iret (inr ([], Some e)) in
  match opcode_of (GetByte p c) with
  | None => stop errInvalidOpcode
  | Some op =>
      match validateStack op st with
      | Some e => stop e
      | None =>
          r <- enforceRestrictions op;;
          match r with
          | Some e => stop e
          | None =>
              msize <- required_memory op;;
              match msize with
              | inr e => stop e
              | inl msize =>
                  cost <- opBaseGasCall op msize;;
                  match cost with
                  | inr _ => stop ErrOutOfGas
                  | inl cost =>
                      paid <- charge cost;;
                      if negb paid then stop ErrOutOfGas
                      else
                        (if msize >? 0 then mem_do (fun m => Done (mem_Resize msize m)) else iret tt);;;
                        o <- execute op;;
                        let '(res, err) := o in
                        (if returns op
                         then fun f => Done (tt, with_evm (with_returnData res (evm f)) f)
                         else iret tt);;;
                        match err with
                        | Some e => stop e
                        | None =>
                            if reverts op then iret (inr (res, Some errExecutionReverted))
                            else if halts op then iret (inr (res, None))
                            else if jumps op then iret (inl tt)
                            else p <- get pc;; set_pc (u64 (p + 1));;; iret (inl tt)
                        end
                  end
              end
          end
      end
  end.

End with_loop.

(** One unit of fuel is for one instruction, of this frame or of a call. *)
Fixpoint loop (fuel : nat) (f : Frame) : vmres (outcome * Frame) :=
  match fuel with
  | O => Starved
  | S fuel' =>
      do! (r, f) := turn (loop fuel') f in
      match r with
      | inl _ => loop fuel' f
      | inr o => Done (o, f)
      end
  end.

End with_env.

End Evm.
