(* ===== verification/EvmLogic.v ===== *)
(** * Reasoning about the virtual machine

    Well-formed states and how programs change them: by journalled operations,
    snapshots and returns to them ([evolves]).  Well-formed frames, and a rule
    for each primitive of the instruction monad: the rules track the stack and
    the memory of the frame and keep everything else well formed. *)
From S2P Require Import Prelude EthMath StateDB StateRevert StateSpec Rlp EvmBase Precompiles Evm.

Module EvmLogic.
Import EthMath EvmBase Precompiles Evm StateRevert StateSpec.

(** ** Outcomes *)
Definition safe {A} (P : A -> Prop) (m : vmres A) : Prop :=
  match m with Done a => P a | Crash c => c = admin_input | Starved => False end.

Lemma safe_bind {A B} (P : A -> Prop) (Q : B -> Prop) m k :
  safe P m -> (forall a, P a -> safe Q (k a)) -> safe Q (vbind m k).
Proof. destruct m; simpl; auto. Qed.

Lemma safe_mono {A} (P Q : A -> Prop) m : safe P m -> (forall a, P a -> Q a) -> safe Q m.
Proof. destruct m; simpl; auto. Qed.

Lemma safe_ibind {A B} (P : A * Frame -> Prop) (Q : B * Frame -> Prop) (m : I A) (k : A -> I B) f :
  safe P (m f) -> (forall a f', P (a, f') -> safe Q (k a f')) -> safe Q (ibind m k f).
Proof. intros Hm Hk. unfold ibind. eapply safe_bind; [exact Hm|]. intros [a f'] Hp. by apply Hk. Qed.

Lemma safe_iret {A} (Q : A * Frame -> Prop) (m : I A) f : safe Q (ibind m iret f) -> safe Q (m f).
Proof. unfold ibind, iret. by destruct (m f) as [[]| |]. Qed.

Lemma ibind_assoc {A B C} (m : I A) (k : A -> I B) (k' : B -> I C) f :
  ibind (ibind m k) k' f = ibind m (fun a => ibind (k a) k') f.
Proof. unfold ibind. by destruct (m f) as [[]| |]. Qed.

Lemma ibind_iret {A B} (a : A) (k : A -> I B) f : ibind (iret a) k f = k a f.
Proof. done. Qed.

(** What the environment supplies. *)
Class NativeLaws `{Natives} := {
  sha256_bytes : forall bz, Forall is_byte (sha256_Sum256 bz);
  ripemd160_bytes : forall bz, Forall is_byte (ripemd160_Sum bz);
  marshal_bytes : forall g, Forall is_byte (G1_Marshal g);
  ecrecover_length : forall h sg pk, crypto_Ecrecover h sg = Some pk -> (length pk = 65)%nat
}.

Section with_laws.
Context `{HK : Keccak, HKL : !KeccakLaw, HN : Natives, HNL : !NativeLaws}.

(** ** States *)
Record account_ok (x : account) : Prop := {
  ok_balance : 0 <= balance x;
  ok_nonce : is_u64 (nonce x);
  ok_codehash : 0 <= codehash x;
  ok_code : Forall is_byte (acode x);
  ok_storage : forall k, 0 <= storage x k;
  ok_saved : forall k, 0 <= saved x k
}.
Definition ledger_ok (l : ledger) : Prop := forall a x, l a = Some x -> account_ok x.

Record state_ok (s : StateDB.StateDB) : Prop := {
  so_wf : wf s;
  so_ledger : ledger_ok (abs s)
}.

#[local] Infix "≈" := state_eq (at level 70).

(** States loaded from a sound trie. *)
Definition stored_ok (x : StateDB.Account) : Prop :=
  0 <= StateDB.Balance x /\ is_u64 (StateDB.Nonce x) /\ 0 <= StateDB.CodeHash x /\
  map_Forall (fun _ w => 0 <= w) (StateDB.Root x).

Lemma New_ok t cs : map_Forall (fun _ => stored_ok) t -> map_Forall (fun _ c => Forall is_byte c) cs ->
  state_ok (StateDB.New t cs).
Proof.
  intros Ht Hc. split; [apply wf_New|]. intros a x. unfold abs, peek. simpl. rewrite lookup_empty.
  destruct (t !! a) as [d|] eqn:E; [|done]. intros [= <-]. destruct (Ht a d E) as (Hb & Hn & Hh & Hr).
  split; try done; simpl.
  - unfold code_of. simpl. destruct (_ =? _); [done|]. destruct (cs !! _) eqn:Ec; [|done]. by apply (Hc _ _ Ec).
  - intros k. unfold current, committed, trie_of. simpl. rewrite !lookup_empty. simpl.
    destruct (StateDB.Root d !! k) eqn:Ek; [|done]. by apply (Hr _ _ Ek).
  - intros k. unfold committed, trie_of. simpl. rewrite !lookup_empty. simpl.
    destruct (StateDB.Root d !! k) eqn:Ek; [|done]. by apply (Hr _ _ Ek).
Qed.

Lemma account_ok_proper x y : acc_eq x y -> account_ok x -> account_ok y.
Proof. intros [] []. split; congruence. Qed.

Lemma ledger_ok_proper l l' : ledger_eq l l' -> ledger_ok l -> ledger_ok l'.
Proof.
  intros E Hl a x Ex. specialize (E a). rewrite Ex in E. inversion E as [y ? Hxy E1|]; subst.
  eapply account_ok_proper; [exact Hxy|]. by apply (Hl a).
Qed.

Lemma fresh_ok : account_ok fresh.
Proof. split; try done. simpl. apply keccak_range. Qed.

Lemma ledger_ok_default l a : ledger_ok l -> account_ok (default fresh (l a)).
Proof. intros Hl. destruct (l a) as [x|] eqn:E; [by apply (Hl a)|apply fresh_ok]. Qed.

Lemma on_ok a f l : ledger_ok l -> (account_ok (default fresh (l a)) -> account_ok (f (default fresh (l a)))) ->
  ledger_ok (on a f l).
Proof.
  intros Hl Hf b x. unfold on. destruct (decide (b = a)); [|apply Hl].
  intros [= <-]. by apply Hf, ledger_ok_default.
Qed.

Lemma at_ok a f l : ledger_ok l -> (forall x, account_ok x -> account_ok (f x)) -> ledger_ok (at_ a f l).
Proof.
  intros Hl Hf b x. unfold at_. destruct (decide (b = a)); [|apply Hl].
  destruct (l a) as [y|] eqn:E; [|done]. intros [= <-]. by apply Hf, (Hl a).
Qed.

(** ** How a program changes the state *)
Record evolves (s s' : StateDB.StateDB) : Prop := {
  ev_ok : state_ok s';
  ev_steps : steps (StateDB.nextRevisionId s) s s';
  ev_next : StateDB.nextRevisionId s <= StateDB.nextRevisionId s'
}.

Lemma evolves_refl s : state_ok s -> evolves s s.
Proof. intros Hs. split; [done|apply rtc_refl|lia]. Qed.

Lemma ev_trans s1 s2 s3 : evolves s1 s2 -> evolves s2 s3 -> evolves s1 s3.
Proof.
  intros [H1 H2 H3] [H4 H5 H6]. split; [done| |lia].
  etrans; [exact H2|]. by apply (steps_weaken (StateDB.nextRevisionId s2)).
Qed.

Lemma wf_delta s s' : wf s -> delta s s' -> wf s' /\ StateDB.nextRevisionId s' = StateDB.nextRevisionId s.
Proof.
  intros [Hl He Hs Hr] Hd. destruct (Hd Hl) as [es [De _ Dl Do Dr Dn]]. split; [|done]. split; try done.
  - rewrite De. by apply Forall_app.
  - by rewrite Dr.
  - rewrite Dr, Dn, De, length_app. eapply Forall_impl; [exact Hr|]. simpl. intros r. lia.
Qed.

Lemma evolves_delta s s' : state_ok s -> delta s s' -> ledger_ok (abs s') -> evolves s s'.
Proof.
  intros [Hw Hl] Hd Hl'. destruct (wf_delta s s' Hw Hd) as [Hw' Hn]. split; [by split|by apply delta_steps|lia].
Qed.

Lemma evolves_silent s s' : state_ok s -> silent s s' -> evolves s s'.
Proof.
  intros Hs (Hl & He & Hlog). apply evolves_delta; [done|by apply delta_silent|].
  eapply ledger_ok_proper; [symmetry; by apply abs_proper|apply Hs].
Qed.

Lemma state_ok_live s : state_ok s -> live s.
Proof. intros [[]]. done. Qed.
#[local] Hint Resolve state_ok_live evolves_refl : core.

(** An operation with its specification on ledgers. *)
Lemma evolves_spec s s' l : state_ok s -> delta s s' -> ledger_eq (abs s') l -> ledger_ok l -> evolves s s'.
Proof. intros Hs Hd E Hl. apply evolves_delta; try done. eapply ledger_ok_proper; [symmetry; exact E|done]. Qed.

Lemma AddBalance_evolves a w s : state_ok s -> 0 <= w -> evolves s (StateDB.AddBalance a w s).
Proof.
  intros Hs Hw. eapply evolves_spec; [done|by apply AddBalance_delta; auto|by apply AddBalance_abs; auto|].
  apply on_ok; [apply Hs|]. intros []. split; try done. simpl. lia.
Qed.

Lemma SubBalance_evolves a w s : state_ok s -> w <= from 0 balance (abs s) a -> evolves s (StateDB.SubBalance a w s).
Proof.
  intros Hs Hw. eapply evolves_spec; [done|by apply SubBalance_delta; auto|by apply SubBalance_abs; auto|].
  apply on_ok; [apply Hs|]. intros []. split; try done. simpl. unfold from in Hw. destruct (abs s a); simpl in *; lia.
Qed.

Lemma SetNonce_evolves a n s : state_ok s -> is_u64 n -> evolves s (StateDB.SetNonce a n s).
Proof.
  intros Hs Hn. eapply evolves_spec; [done|by apply SetNonce_delta; auto|by apply SetNonce_abs; auto|].
  apply on_ok; [apply Hs|]. intros []. by split.
Qed.

Lemma SetCode_evolves a c s : state_ok s -> Forall is_byte c -> evolves s (StateDB.SetCode a c s).
Proof.
  intros Hs Hn. eapply evolves_spec; [done|by apply SetCode_delta; auto|by apply SetCode_abs; auto|].
  apply on_ok; [apply Hs|]. intros []. split; try done. simpl. apply keccak_range.
Qed.

Lemma SetState_evolves a k w s : state_ok s -> 0 <= w -> evolves s (StateDB.SetState a k w s).
Proof.
  intros Hs Hn. eapply evolves_spec; [done|by apply SetState_delta; auto|by apply SetState_abs; auto|].
  apply on_ok; [apply Hs|]. intros []. split; try done. intros k'. simpl. by destruct (decide _).
Qed.

Lemma CreateAccount_evolves a s : state_ok s -> evolves s (StateDB.CreateAccount a s).
Proof.
  intros Hs. eapply evolves_spec; [done|by apply CreateAccount_delta; auto|by apply CreateAccount_abs; auto|].
  apply on_ok; [apply Hs|]. intros []. pose proof fresh_ok as []. by split.
Qed.

Lemma Suicide_evolves a s : state_ok s -> evolves s (StateDB.Suicide a s).2.
Proof.
  intros Hs. eapply evolves_spec; [done|by apply Suicide_delta; auto|by apply Suicide_abs; auto|].
  apply at_ok; [apply Hs|]. intros x []. by split.
Qed.

Lemma AddLog_evolves l s : state_ok s -> evolves s (StateDB.AddLog l s).
Proof. intros Hs. eapply evolves_spec; [done|by apply AddLog_delta; auto| |apply Hs]. done. Qed.

Lemma AddPreimage_evolves h p s : state_ok s -> evolves s (StateDB.AddPreimage h p s).
Proof.
  intros Hs. eapply evolves_spec; [done|by apply AddPreimage_delta; auto| |apply Hs].
  unfold StateDB.AddPreimage. by destruct (_ !! h).
Qed.

Lemma AddRefund_evolves g s : state_ok s -> evolves s (StateDB.AddRefund g s).
Proof. intros Hs. eapply evolves_spec; [done|by apply AddRefund_delta; auto| |apply Hs]. done. Qed.

Lemma Snapshot_ok s : state_ok s -> state_ok (StateDB.Snapshot s).2.
Proof. intros [Hw Hl]. split; [by apply wf_snapshot|done]. Qed.

(** After a snapshot: what happened since can be undone, and was a part of the whole. *)
Lemma revert_evolves s s2 : state_ok s -> evolves (StateDB.Snapshot s).2 s2 ->
  exists s3, StateDB.RevertToSnapshot (StateDB.Snapshot s).1 s2 = Ok s3 /\ s3 ≈ s /\ evolves s s3.
Proof.
  intros Hs [Hok Hst Hn]. destruct Hs as [Hw Hl].
  destruct (revert_restores s s2 Hw Hst) as (s3 & E & He & Hl3 & Hen & Hv & Hn3 & Hlt).
  exists s3. split; [done|]. split; [done|]. destruct Hw as [_ He1 Hso Hr]. split.
  - split; [split; [done|by rewrite Hen|by rewrite Hv|]|].
    + rewrite Hv, Hen. eapply Forall_impl; [exact Hr|]. simpl. intros r. lia.
    + eapply ledger_ok_proper; [symmetry; by apply abs_proper|done].
  - eapply rtc_l; [by apply step_snapshot|]. eapply rtc_r; [by apply (steps_weaken _ (StateDB.nextRevisionId s)) in Hst; [exact Hst|simpl; lia]|].
    by apply (step_revert _ _ _ (StateDB.nextRevisionId s)).
  - lia.
Qed.

Lemma snapshot_evolves s s2 : state_ok s -> evolves (StateDB.Snapshot s).2 s2 -> evolves s s2.
Proof.
  intros Hs [Hok Hst Hn]. simpl in Hn. split; [done| |lia].
  eapply rtc_l; [by apply step_snapshot|]. apply (steps_weaken (StateDB.nextRevisionId s + 1)); [lia|done].
Qed.

(** Queries, and what they may answer. *)
Definition asks {A} (R : A -> Prop) (q : StateDB.StateDB -> A * StateDB.StateDB) : Prop :=
  forall s, state_ok s -> R (q s).1 /\ evolves s (q s).2.

Lemma asks_spec {A} (R : A -> Prop) q : (forall s, state_ok s -> exists x s', q s = (x, s') /\ R x /\ silent s s') -> asks R q.
Proof. intros Hq s Hs. destruct (Hq s Hs) as (x & s' & -> & HR & Hsi). split; [done|]. by apply evolves_silent. Qed.

Lemma from_ok {A} (R : A -> Prop) d f s a : state_ok s -> R d -> (forall x, account_ok x -> R (f x)) -> R (from d f (abs s) a).
Proof. intros Hs Hd Hf. unfold from. destruct (abs s a) as [x|] eqn:E; [|done]. apply Hf, (so_ledger _ Hs a x E). Qed.

Ltac asks_by L := apply asks_spec; intros s Hs; edestruct (L s) as (s' & E & Hsi); [by apply state_ok_live|];
  eexists _, s'; split_and!; [exact E| |exact Hsi].

Lemma asks_balance a : asks (Z.le 0) (StateDB.GetBalance a).
Proof. asks_by (GetBalance_spec a). apply (from_ok (Z.le 0)); [done|done|]. by intros x []. Qed.
Lemma asks_nonce a : asks is_u64 (StateDB.GetNonce a).
Proof. asks_by (GetNonce_spec a). apply from_ok; [done|done|]. by intros x []. Qed.
Lemma asks_codehash a : asks (Z.le 0) (StateDB.GetCodeHash a).
Proof. asks_by (GetCodeHash_spec a). apply (from_ok (Z.le 0)); [done|done|]. by intros x []. Qed.
Lemma asks_code a : asks (Forall is_byte) (StateDB.GetCode a).
Proof. asks_by (GetCode_spec a). apply (from_ok (Forall is_byte)); [done|constructor|]. by intros x []. Qed.
Lemma asks_state a k : asks (Z.le 0) (StateDB.GetState a k).
Proof. asks_by (GetState_spec a k). apply (from_ok (Z.le 0)); [done|done|]. by intros x []. Qed.
Lemma asks_exist a : asks (fun _ => True) (StateDB.Exist a).
Proof. by asks_by (Exist_spec a). Qed.
Lemma asks_empty a : asks (fun _ => True) (StateDB.Empty a).
Proof. by asks_by (Empty_spec a). Qed.
Lemma asks_suicided a : asks (fun _ => True) (StateDB.HasSuicided a).
Proof. by asks_by (HasSuicided_spec a). Qed.
Lemma asks_codesize a : asks (Z.le 0) (StateDB.GetCodeSize a).
Proof.
  apply asks_spec. intros s Hs. destruct (GetCodeSize_spec a s) as (n & s' & E & Hsi); [by apply state_ok_live|].
  exists (Z.of_nat n), s'. split_and!; [done|lia|done].
Qed.

(** ** Frames *)
Record env_ok (v : Env) : Prop := {
  eo_origin : 0 <= Origin v;
  eo_gasPrice : 0 <= GasPrice v;
  eo_coinbase : 0 <= Coinbase v;
  eo_hash : forall n, 0 <= GetHash v n;
  eo_rules : IsConstantinople (chainConfig v) (BlockNumber v) = false
}.

Record contract_ok (c : Contract) : Prop := {
  co_caller : 0 <= CallerAddress c;
  co_self : 0 <= self c;
  co_code : Forall is_byte (Code c);
  co_input : Forall is_byte (Input c);
  co_gas : 0 <= Gas c;
  co_value : 0 <= value c
}.

Record evm_ok (e : EVM) : Prop := {
  vo_state : state_ok (sdb e);
  vo_gas : 0 <= gasLeft e < 2 ^ 60;
  vo_temp : 0 <= callGasTemp e;
  vo_return : Forall is_byte (returnData e)
}.

(** From the state [s0] with gas [g0], a frame has come to this stack and memory. *)
Record sym (s0 : StateDB.StateDB) (g0 : Z) (st : list Z) (ms : bytes) (f : Frame) : Prop := {
  sy_stack : stack f = st;
  sy_words : Forall (Z.le 0) st;
  sy_store : store (memory f) = ms;
  sy_bytes : Forall is_byte ms;
  sy_len : len ms <= 2 ^ 41;
  sy_contract : contract_ok (contract f);
  sy_pc : 0 <= pc f;
  sy_evm : evm_ok (evm f);
  sy_evolves : evolves s0 (sdb (evm f));
  sy_gas : gasLeft (evm f) <= g0
}.

Section rules.
Context {B : Type} (Q : B * Frame -> Prop) (s0 : StateDB.StateDB) (g0 : Z).

Lemma get_rule {A} (g : Frame -> A) (k : A -> I B) f : safe Q (k (g f) f) -> safe Q (ibind (get g) k f).
Proof. done. Qed.

Lemma lift_rule {A} (P : A -> Prop) (m : vmres A) (k : A -> I B) f : safe P m ->
  (forall a, P a -> safe Q (k a f)) -> safe Q (ibind (lift m) k f).
Proof. intros Hm Hk. unfold ibind, lift. destruct m; simpl in *; auto. Qed.

Lemma pop_rule (k : Z -> I B) x st ms f : sym s0 g0 (x :: st) ms f ->
  (forall f', 0 <= x -> sym s0 g0 st ms f' -> safe Q (k x f')) -> safe Q (ibind pop k f).
Proof.
  intros [] Hk. unfold ibind, pop. rewrite sy_stack0. simpl.
  apply Forall_cons in sy_words0 as [Hx Hst]. by apply Hk.
Qed.

Lemma push_rule (k : unit -> I B) x st ms f : sym s0 g0 st ms f -> 0 <= x ->
  (forall f', sym s0 g0 (x :: st) ms f' -> safe Q (k tt f')) -> safe Q (ibind (push x) k f).
Proof.
  intros [] Hx Hk. unfold ibind, push. simpl. apply Hk. split; try done; simpl; [by rewrite sy_stack0|by constructor].
Qed.

Lemma Back_rule (k : Z -> I B) n x st ms f : sym s0 g0 st ms f -> st !! n = Some x ->
  (0 <= x -> safe Q (k x f)) -> safe Q (ibind (Back n) k f).
Proof.
  intros [] Hx Hk. unfold ibind, Back. rewrite sy_stack0, Hx. simpl. apply Hk.
  by apply (Forall_lookup_1 _ _ _ _ sy_words0 Hx).
Qed.

Lemma query_rule {A} (R : A -> Prop) (q : StateDB.StateDB -> A * StateDB.StateDB) (k : A -> I B) st ms f :
  sym s0 g0 st ms f ->
  asks R q ->
  (forall a f', R a -> sym s0 g0 st ms f' -> safe Q (k a f')) -> safe Q (ibind (query q) k f).
Proof.
  intros [] Hq Hk. unfold ibind, query. destruct (Hq (sdb (evm f)) (vo_state _ sy_evm0)) as [HR He].
  destruct (q (sdb (evm f))) as [a s]. simpl in *. apply Hk; [done|].
  split; try done; simpl; [|by eapply ev_trans]. destruct sy_evm0. split; try done. simpl. apply He.
Qed.

Lemma update_rule (u : StateDB.StateDB -> StateDB.StateDB) (k : unit -> I B) st ms f :
  sym s0 g0 st ms f -> (forall s, state_ok s -> evolves s (u s)) ->
  (forall f', sym s0 g0 st ms f' -> safe Q (k tt f')) -> safe Q (ibind (update u) k f).
Proof.
  intros [] Hu Hk. unfold ibind, update. simpl. pose proof (Hu (sdb (evm f)) (vo_state _ sy_evm0)) as He.
  apply Hk. split; try done; simpl; [|by eapply ev_trans]. destruct sy_evm0. split; try done. simpl. apply He.
Qed.

Lemma set_pc_rule p (k : unit -> I B) st ms f : sym s0 g0 st ms f -> 0 <= p ->
  (forall f', sym s0 g0 st ms f' -> safe Q (k tt f')) -> safe Q (ibind (set_pc p) k f).
Proof. intros [] Hp Hk. unfold ibind, set_pc. simpl. by apply Hk. Qed.

(** Memory: the part of it that is accessed must be there. *)
Definition covered (ms : bytes) (r : Z * Z) : Prop := r.2 = 0 \/ r.1 + r.2 <= len ms.

Lemma mem_get_rule off size (k : bytes -> I B) st ms f : sym s0 g0 st ms f -> 0 <= off -> 0 <= size ->
  covered ms (off, size) ->
  (forall d, Forall is_byte d -> len d <= 2 ^ 41 -> safe Q (k d f)) ->
  safe Q (ibind (mem_get off size) k f).
Proof.
  intros [] Ho Hs Hc Hk. unfold mem_get. unfold ibind at 1. unfold ibind at 1. unfold get, lift, mem_Get, mem_Len.
  cbn [vbind]. rewrite sy_store0. destruct Hc as [Hc|Hc]; simpl in Hc.
  { subst size. cbn. apply Hk; [done|]. simpl. lia. }
  destruct (Z.eq_dec size 0) as [->|Hne]; [cbn; apply Hk; [done|simpl; lia]|].
  unfold Int64. rewrite !i64_id by (unfold is_i64; lia). rewrite (proj2 (Z.eqb_neq _ _)) by done.
  rewrite Z.gtb_ltb, (proj2 (Z.ltb_lt _ _)) by lia.
  unfold go_slice. rewrite !(proj2 (Z.ltb_ge _ _)) by lia. cbn. apply Hk.
  - by apply Forall_take, Forall_drop.
  - rewrite length_take, length_drop. lia.
Qed.

(** A change of memory that keeps its size. *)
Lemma mem_do_rule (u : Memory -> vmres Memory) (k : unit -> I B) st ms f : sym s0 g0 st ms f ->
  (forall m, store m = ms -> safe (fun m' => Forall is_byte (store m') /\ len (store m') = len ms) (u m)) ->
  (forall ms' f', len ms' = len ms -> sym s0 g0 st ms' f' -> safe Q (k tt f')) ->
  safe Q (ibind (mem_do u) k f).
Proof.
  intros [] Hu Hk. unfold ibind, mem_do. specialize (Hu (memory f) sy_store0).
  destruct (u (memory f)) as [m| |]; simpl in *; [|done|done]. destruct Hu as [Hb Hl].
  apply (Hk (store m)); [done|]. split; try done. lia.
Qed.

Lemma mem_set_rule off size d (k : unit -> I B) st ms f : sym s0 g0 st ms f -> 0 <= off -> 0 <= size ->
  covered ms (off, size) -> Forall is_byte d ->
  (forall ms' f', len ms' = len ms -> sym s0 g0 st ms' f' -> safe Q (k tt f')) ->
  safe Q (ibind (mem_set off size d) k f).
Proof.
  intros Hsym Ho Hs Hc Hd Hk. eapply mem_do_rule; [exact Hsym| |exact Hk].
  pose proof (sy_len _ _ _ _ _ Hsym) as Hlen. pose proof (sy_bytes _ _ _ _ _ Hsym) as Hb.
  intros m Em. unfold mem_Set, mem_Len. rewrite Em.
  destruct (Z.eq_dec size 0) as [->|Hne]; [cbn; by rewrite <- Em in *|].
  destruct Hc as [Hc|Hc]; simpl in Hc; [done|]. unfold Uint64.
  rewrite !(u64_id off), !(u64_id size), !u64_id by (unfold is_u64; lia).
  rewrite Z.gtb_ltb, (proj2 (Z.ltb_lt _ _)) by lia. rewrite Z.gtb_ltb, (proj2 (Z.ltb_ge _ _)) by lia.
  unfold copy_to, go_slice. rewrite !(proj2 (Z.ltb_ge _ _)) by lia. cbn [orb or_crash vbind safe store].
  set (dst := take (Z.to_nat (off + size - off)) (drop (Z.to_nat off) ms)). set (w := take (length dst) d).
  assert (length w <= Z.to_nat size)%nat as Hw.
  { unfold w, dst. rewrite !length_take, length_drop. lia. }
  split.
  - apply Forall_app. split; [by apply Forall_take|]. apply Forall_app. split; [by apply Forall_take|by apply Forall_drop].
  - rewrite !length_app, length_take, length_drop. lia.
Qed.
End rules.

End with_laws.
End EvmLogic.
