(* ===== verification/EvmToy.v ===== *)
(** * A chain to evaluate on

    Concrete hash functions and curve operations that satisfy the laws (every
    signature is taken for one of account 1), the
    main network's rules at a low height, and a state with two accounts that
    have money and code. *)
From S2P Require Import Prelude EthMath StateDB StateRevert StateSpec EvmBase Precompiles EvmLogic.

Module EvmToy.
Import EthMath EvmBase Precompiles EvmLogic.

(** The public key of account 1. *)
Definition toy_pubkey : bytes := 4 :: replicate 32 0 ++ be_bytes 32 (2 ^ 256 - 6).

Definition toy_natives : Natives := {|
  G1 := unit; G2 := unit;
  sha256_Sum256 := fun bz => replicate 32 (Z.of_nat (length bz) mod 256);
  ripemd160_Sum := fun bz => replicate 20 (Z.of_nat (length bz) mod 256);
  crypto_Ecrecover := fun _ _ => Some toy_pubkey;
  G1_Unmarshal := fun _ => Some tt; G1_Marshal := fun _ => replicate 64 0;
  G1_Add := fun _ _ => tt; G1_ScalarMult := fun _ _ => tt;
  G2_Unmarshal := fun _ => None; PairingCheck := fun _ _ => false;
  admin_callback := Some (fun _ _ _ => false)
|}.

Lemma toy_keccak_law : @KeccakLaw StateRevert.toy_keccak.
Proof. intros bz. by apply Z.mod_pos_bound. Qed.

Lemma toy_native_laws : @NativeLaws toy_natives.
Proof.
  split; try (intros bz; apply Forall_replicate; done || by apply Z.mod_pos_bound).
  intros h sg pk [= <-]. vm_compute. reflexivity.
Qed.

(** The gas limit is EVMGasLimit of the application; the height is 5. *)
Definition toy_env : Env := mkEnv MainnetChainConfig false false 100000000 1 0 0 100000000 5 6 0 (fun _ => 0).

Lemma toy_env_ok : env_ok toy_env.
Proof. by split. Qed.

(** Account 1 has money, account 77 runs [code]. *)
Definition toy_db (code : bytes) : StateDB.StateDB :=
  StateDB.New {[ 1 := StateDB.mkAccount 0 1000 ∅ 7; 77 := StateDB.mkAccount 1 500 {[ 3 := 4 ]} 1234 ]} {[ 1234 := code ]}.

Lemma toy_db_ok code : Forall is_byte code -> @state_ok StateRevert.toy_keccak (toy_db code).
Proof.
  intros Hc. apply (@New_ok StateRevert.toy_keccak); repeat apply map_Forall_insert_2; try apply map_Forall_singleton; try done.
  split_and!; try done. by apply map_Forall_singleton.
Qed.

Definition toy_evm (code : bytes) : EVM := mkEVM (toy_db code) 0 0 10000 false [].

Lemma toy_evm_ok code : Forall is_byte code -> @evm_ok StateRevert.toy_keccak (toy_evm code).
Proof. intros Hc. split; [by apply toy_db_ok|done..]. Qed.

End EvmToy.
