(* ===== verification/EvmGas.v ===== *)
(** * The price of an instruction

    Gas is computed without a crash; an instruction after which the frame goes
    on costs something; and the memory it was charged for covers every region
    it is going to access. *)
From S2P Require Import Prelude EthMath StateDB StateRevert StateSpec Rlp EvmBase Precompiles Evm EvmLogic.

Module EvmGas.
Import EthMath EvmBase Precompiles Evm StateRevert StateSpec EvmLogic.

Section with_laws.
Context `{HK : Keccak, HKL : !KeccakLaw, HN : Natives, HNL : !NativeLaws}.
Variable v : Env.
Hypothesis Hv : env_ok v.

#[local] Hint Resolve state_ok_live evolves_refl : core.

(** ** Gas *)
Definition max_mem : Z := 0xffffffffe0.

Section gas.
Variables (s0 : StateDB.StateDB) (g0 : Z) (st : list Z) (ms : bytes).
Abbreviation sym := (sym s0 g0 st ms).

(** The price is at least [lo], and the memory asked for is not absurd. *)
Definition gpost (lo n : Z) (r : gas_result * Frame) : Prop :=
  sym r.2 /\ match r.1 with inl g => 0 <= g < 2 ^ 64 /\ lo <= g /\ n <= max_mem | inr _ => True end.

Lemma gbind_rule lo n (P : gas_result * Frame -> Prop) m k f : safe P (m f) ->
  (forall r, P r -> sym r.2) -> (forall g f', P (inl g, f') -> safe (gpost lo n) (k g f')) ->
  safe (gpost lo n) (gbind m k f).
Proof.
  intros Hm Hp Hk. unfold gbind. eapply safe_ibind; [exact Hm|]. intros [g|e] f' Hr; [by apply Hk|].
  split; [by apply (Hp _ Hr)|done].
Qed.

Lemma gok_rule lo n g f : sym f -> 0 <= g < 2 ^ 64 -> lo <= g -> n <= max_mem -> safe (gpost lo n) (gok g f).
Proof. intros. by split. Qed.

Lemma add_rule lo n g c f : sym f -> is_u64 g -> is_u64 c -> lo <= g + c -> n <= max_mem ->
  safe (gpost lo n) (checked (SafeAdd g c) f).
Proof.
  intros Hs Hg Hc Hlo Hn. unfold checked. rewrite SafeAdd_spec by done. unfold is_u64 in *.
  destruct (Z.ltb_spec (g + c) (2 ^ 64)); (split; [done|]); simpl; [lia|done].
Qed.

Lemma price_rule n g c f : sym f -> 1 <= c < 2 ^ 64 -> 0 <= g < 2 ^ 64 -> n <= max_mem ->
  safe (gpost 1 n) (checked (SafeAdd c g) f).
Proof. intros Hs Hc Hg Hn. apply add_rule; unfold is_u64; done || lia. Qed.

Lemma checked_rule lo n r k f : sym f -> (r.2 = false -> safe (gpost lo n) (k r.1 f)) ->
  safe (gpost lo n) (gbind (checked r) k f).
Proof. intros Hs Hk. unfold gbind, checked, ibind, iret. simpl. destruct (r.2); [by split|by apply Hk]. Qed.

Lemma toWordSize_spec n : is_u64 n -> 0 <= toWordSize n < 2 ^ 60 /\ n <= toWordSize n * 32 /\
  (n <= max_mem -> toWordSize n * 32 <= max_mem).
Proof.
  unfold is_u64, toWordSize, MaxUint64, max_mem. intros Hn. destruct (Z.gtb_spec n (2 ^ 64 - 1 - 31)).
  - change ((2 ^ 64 - 1) / 32 + 1) with (2 ^ 59). lia.
  - assert ((n + 31) / 32 * 32 <= n + 31 < (n + 31) / 32 * 32 + 32) as Hd.
    { pose proof (Z.mul_div_le (n + 31) 32). pose proof (Z.mul_succ_div_gt (n + 31) 32). lia. }
    lia.
Qed.

Lemma memoryGasCost_rule n f : sym f -> is_u64 n -> safe (gpost 0 n) (memoryGasCost n f).
Proof.
  intros Hs Hn. unfold memoryGasCost. destruct (Z.eqb_spec n 0) as [->|Hn0].
  { by apply gok_rule; unfold max_mem. }
  destruct (Z.gtb_spec n 0xffffffffe0) as [?|Hle]; [by split|].
  apply get_rule. destruct (_ >? _).
  - destruct Hs. unfold ibind, mem_do. simpl. split; [by split|]. simpl.
    pose proof (u64_range (u64 (u64 (toWordSize n * 3) + u64 (toWordSize n * toWordSize n) / 512)
      - lastGasCost (memory f))) as Hr. unfold is_u64 in Hr. unfold max_mem. lia.
  - apply gok_rule; unfold max_mem; done || lia.
Qed.

Lemma gas_memory_plus_rule lo fixed n f : sym f -> is_u64 n -> is_u64 fixed -> lo <= fixed ->
  safe (gpost lo n) (gas_memory_plus fixed n f).
Proof.
  intros Hs Hn Hf Hlo. unfold gas_memory_plus. eapply gbind_rule; [by apply memoryGasCost_rule|by intros r []|].
  intros g f' [Hs' (Hg & _ & Hm)]. apply add_rule; try done. lia.
Qed.

Lemma bigUint64_spec x : 0 <= x -> (bigUint64 x).2 = false -> (bigUint64 x).1 = x /\ is_u64 x.
Proof.
  unfold bigUint64. simpl. intros Hx. rewrite Z.gtb_ltb. intros Hb%Z.ltb_ge.
  apply BitLen_le in Hb; [|done|lia]. unfold Uint64. rewrite u64_id; done.
Qed.

Lemma SafeMul_u64 x y : is_u64 x -> is_u64 y -> is_u64 (SafeMul x y).1.
Proof. intros. rewrite SafeMul_spec by done. apply u64_range. Qed.

Lemma gas_copy_rule lo fixed word i n f : sym f -> is_u64 n -> is_u64 fixed -> is_u64 word -> lo <= fixed ->
  (i < length st)%nat -> safe (gpost lo n) (gas_copy fixed word i n f).
Proof.
  intros Hs Hn Hf Hw Hlo Hi. unfold gas_copy.
  eapply gbind_rule; [by apply (gas_memory_plus_rule lo)|by intros r []|].
  intros g f' [Hs' (Hg & Hg' & Hm)]. destruct (lookup_lt_is_Some_2 st i Hi) as [x Hx].
  eapply Back_rule; [exact Hs'|exact Hx|]. intros Hx0.
  apply checked_rule; [done|]. intros Hb. destruct (bigUint64_spec x Hx0 Hb) as [-> Hxu].
  destruct (toWordSize_spec x Hxu) as (Hts & _ & _).
  assert (is_u64 (toWordSize x)) as Htu by (unfold is_u64; lia).
  apply checked_rule; [done|]. intros _. pose proof (SafeMul_u64 _ _ Htu Hw) as Hmu.
  apply add_rule; try done. unfold is_u64 in Hmu. lia.
Qed.

Lemma makeGasLog_rule k n f : sym f -> is_u64 n -> 0 <= k -> (1 < length st)%nat -> safe (gpost 1 n) (makeGasLog k n f).
Proof.
  intros Hs Hn Hk Hi. unfold makeGasLog. destruct (lookup_lt_is_Some_2 st 1 Hi) as [x Hx].
  eapply Back_rule; [exact Hs|exact Hx|]. intros Hx0.
  apply checked_rule; [done|]. intros Hb. destruct (bigUint64_spec x Hx0 Hb) as [-> Hxu].
  eapply gbind_rule; [by apply memoryGasCost_rule|by intros r []|]. intros g f' [Hs' (Hg & _ & Hm)].
  eapply gbind_rule; [apply (add_rule 1 n); try done; lia|by intros r []|]. intros g1 f1 [Hs1 (Hg1 & Hl1 & _)].
  eapply gbind_rule; [apply (add_rule 1 n); try done; [apply u64_range|]|by intros r []|].
  { pose proof (u64_range (k * 375)) as Hr. unfold is_u64 in Hr. lia. }
  intros g2 f2 [Hs2 (Hg2 & Hl2 & _)]. apply checked_rule; [done|]. intros _.
  pose proof (SafeMul_u64 x 8 Hxu ltac:(by unfold is_u64)) as Hmu. apply add_rule; try done. unfold is_u64 in Hmu. lia.
Qed.

Lemma gasExp_rule n f : sym f -> n <= max_mem -> (1 < length st)%nat -> safe (gpost 1 n) (gasExp f).
Proof.
  intros Hs Hn Hi. unfold gasExp. destruct (lookup_lt_is_Some_2 st 1 Hi) as [x Hx].
  eapply Back_rule; [exact Hs|exact Hx|]. intros Hx0. pose proof (u64_range (u64 ((BitLen x + 7) / 8) * ExpByte gt)) as Hr.
  apply add_rule; try done. unfold is_u64 in Hr. lia.
Qed.

Lemma gasSStore_rule n f : sym f -> n <= max_mem -> (1 < length st)%nat -> safe (gpost 1 n) (gasSStore v f).
Proof.
  intros Hs Hn Hi. unfold gasSStore. destruct st as [|x [|y st']] eqn:Est; simpl in Hi; try lia.
  eapply Back_rule; [exact Hs|done|]. intros _. eapply Back_rule; [exact Hs|done|]. intros _. apply get_rule.
  eapply query_rule; [exact Hs|apply asks_state|]. intros cur f1 _ Hs1. rewrite (eo_rules _ Hv). cbn [negb].
  destruct (_ && _); [by apply gok_rule; rewrite ?Est|]. destruct (_ && _); [|by apply gok_rule; rewrite ?Est].
  eapply update_rule; [exact Hs1|apply AddRefund_evolves|]. intros f2 Hs2. by apply gok_rule; rewrite ?Est.
Qed.

Lemma gasSuicide_rule n f : sym f -> n <= max_mem -> (0 < length st)%nat -> safe (gpost 0 n) (gasSuicide v f).
Proof.
  intros Hs Hn Hi. unfold gasSuicide. apply get_rule.
  eapply (safe_ibind (fun '(g, f') => sym f' /\ 0 <= g < 2 ^ 64)).
  - destruct (IsEIP150 _ _); [|by split]. destruct (lookup_lt_is_Some_2 st 0 Hi) as [x Hx].
    eapply Back_rule; [exact Hs|exact Hx|]. intros _. destruct (IsEIP158 _ _).
    + eapply query_rule; [exact Hs|apply asks_empty|]. intros em f1 _ Hs1. destruct em; [|by split].
      eapply query_rule; [exact Hs1|apply asks_balance|]. intros b f2 _ Hs2. split; [done|]. by destruct (b =? 0).
    + eapply query_rule; [exact Hs|apply asks_exist|]. intros ex f1 _ Hs1. split; [done|]. by destruct ex.
  - intros g f1 [Hs1 Hg]. eapply query_rule; [exact Hs1|apply asks_suicided|]. intros su f2 _ Hs2. destruct su.
    + apply gok_rule; done || lia.
    + eapply update_rule; [exact Hs2|apply AddRefund_evolves|]. intros f3 Hs3. apply gok_rule; done || lia.
Qed.

Lemma baseGasCall_rule n f : sym f -> is_u64 n -> (2 < length st)%nat -> safe (gpost 1 n) (baseGasCall v n f).
Proof.
  intros Hs Hn Hi. unfold baseGasCall.
  destruct (lookup_lt_is_Some_2 st 2 Hi) as [x Hx], (lookup_lt_is_Some_2 st 1 ltac:(lia)) as [y Hy].
  eapply Back_rule; [exact Hs|exact Hx|]. intros _. eapply Back_rule; [exact Hs|exact Hy|]. intros _.
  eapply (safe_ibind (fun '(b, f') => sym f')).
  - destruct (IsEIP158 _ _).
    + destruct (negb _); [|done]. apply safe_iret.
      eapply query_rule; [exact Hs|apply asks_empty|]. intros em f1 _ Hs1. done.
    + eapply query_rule; [exact Hs|apply asks_exist|]. intros ex f1 _ Hs1. done.
  - intros b f1 Hs1. eapply gbind_rule; [by apply memoryGasCost_rule|by intros r []|]. intros g f2 [Hs2 (Hg & _ & Hm)].
    apply price_rule; try done; by destruct b, (x =? 0).
Qed.

Lemma baseGasCallCode_rule n f : sym f -> is_u64 n -> (2 < length st)%nat -> safe (gpost 1 n) (baseGasCallCode n f).
Proof.
  intros Hs Hn Hi. unfold baseGasCallCode. destruct (lookup_lt_is_Some_2 st 2 Hi) as [x Hx].
  eapply Back_rule; [exact Hs|exact Hx|]. intros _.
  eapply gbind_rule; [by apply memoryGasCost_rule|by intros r []|]. intros g f2 [Hs2 (Hg & _ & Hm)].
  apply price_rule; try done; by destruct (x =? 0).
Qed.

(** Operations that do not go on to a next one. *)
Definition last (op : OpCode) : bool := halts op || reverts op.

Lemma opBaseGasCall_rule op n f : sym f -> is_u64 n -> (memorySize op = None -> n = 0) ->
  (stack_use op).1 <= len st -> (forall k, op = LOG k -> 0 <= k) ->
  safe (gpost (if last op then 0 else 1) n) (opBaseGasCall v op n f).
Proof.
  intros Hs Hn Hmem Hst Hlog. unfold is_u64 in Hn.
  assert (memorySize op = None -> n <= max_mem) as Hm by (intros E; rewrite Hmem; done).
  destruct op; cbn [opBaseGasCall last halts reverts orb stack_use fst] in *;
    try (apply gok_rule; [done|done|done|by apply Hm]);
    try (apply gas_copy_rule; try done; lia);
    try (apply gas_memory_plus_rule; done).
  - apply gasExp_rule; [done|by apply Hm|lia].
  - apply gasSStore_rule; [done|by apply Hm|lia].
  - apply makeGasLog_rule; [done|done|by apply Hlog|]. specialize (Hlog n0 eq_refl). lia.
  - apply baseGasCall_rule; [done|done|lia].
  - apply baseGasCallCode_rule; [done|done|lia].
  - by apply memoryGasCost_rule.
  - by apply memoryGasCost_rule.
  - apply gasSuicide_rule; [done|by apply Hm|lia].
Qed.

(** ** Memory *)

(** The regions of memory an instruction accesses. *)
Definition regions (op : OpCode) : list (Z * Z) :=
  let at_ i j := (nth i st 0, nth j st 0) in
  match op with
  | SHA3 | RETURN | REVERT | LOG _ => [at_ 0%nat 1%nat]
  | CALLDATACOPY | RETURNDATACOPY | CODECOPY => [at_ 0%nat 2%nat]
  | EXTCODECOPY => [at_ 1%nat 3%nat]
  | MLOAD | MSTORE => [(nth 0 st 0, 32)]
  | MSTORE8 => [(nth 0 st 0, 1)]
  | CREATE | CREATE2 => [at_ 1%nat 2%nat]
  | CALL | CALLCODE => [at_ 5%nat 6%nat; at_ 3%nat 4%nat]
  | DELEGATECALL | STATICCALL => [at_ 4%nat 5%nat; at_ 2%nat 3%nat]
  | _ => []
  end.

Definition within (n : Z) (r : Z * Z) : Prop := r.2 = 0 \/ r.1 + r.2 <= n.

Lemma within_calc o l n : 0 <= o -> 0 <= l -> calcMemSize o l <= n -> within n (o, l).
Proof. unfold calcMemSize, within. simpl. destruct (Z.eqb_spec l 0); lia. Qed.

Lemma calcMemSize_nonneg o l : 0 <= o -> 0 <= l -> 0 <= calcMemSize o l.
Proof. unfold calcMemSize. destruct (l =? 0); lia. Qed.
#[local] Hint Resolve within_calc calcMemSize_nonneg : core.

Lemma BigMax_max x y : BigMax x y = Z.max x y.
Proof. unfold BigMax. destruct (Z.ltb_spec x y); lia. Qed.

Lemma Back_nth {B} (Q : B * Frame -> Prop) (k : Z -> I B) n f : sym f -> (n < length st)%nat ->
  (0 <= nth n st 0 -> safe Q (k (nth n st 0) f)) -> safe Q (ibind (Back n) k f).
Proof.
  intros Hs Hn. eapply Back_rule; [exact Hs|]. destruct (nth_lookup_or_length st n 0); [done|lia].
Qed.

Lemma memorySize_rule op m f : sym f -> memorySize op = Some m -> (stack_use op).1 <= len st ->
  (forall k, op = LOG k -> 0 <= k) ->
  safe (fun '(n, f') => sym f' /\ 0 <= n /\ forall n', n <= n' -> Forall (within n') (regions op)) (m f).
Proof.
  intros Hs Hm Hst Hlog.
  destruct op; simplify_eq/=; try specialize (Hlog _ eq_refl);
    repeat (first [rewrite ibind_assoc | rewrite ibind_iret | apply Back_nth; [done|lia|intros ?]]; cbv beta);
    simpl; rewrite ?BigMax_max;
    (split; [done|]; split; [try (etrans; [|apply Z.le_max_l]); apply calcMemSize_nonneg; lia|]);
    intros n' Hn'; repeat (apply Forall_cons; split; [apply within_calc; lia|]); done.
Qed.

Lemma required_memory_rule op f : sym f -> (stack_use op).1 <= len st -> (forall k, op = LOG k -> 0 <= k) ->
  safe (fun '(r, f') => sym f' /\
    match r with
    | inl n => is_u64 n /\ (memorySize op = None -> n = 0) /\ Forall (within n) (regions op)
    | inr _ => True
    end) (required_memory op f).
Proof.
  intros Hs Hst Hlog. unfold required_memory. destruct (memorySize op) as [m|] eqn:Em.
  - eapply safe_ibind; [by eapply memorySize_rule|]. intros n f' (Hs' & Hn & Hr).
    unfold gbind at 1, checked at 1, ibind at 1, iret at 1. cbn [vbind].
    destruct (bigUint64 n).2 eqn:E; [done|]. destruct (bigUint64_spec n Hn E) as [-> Hu].
    destruct (toWordSize_spec n Hu) as (Ht & Hle & _). unfold checked, iret. split; [done|].
    rewrite SafeMul_spec by (unfold is_u64; lia). simpl. destruct (_ <? _) eqn:El; [|done]. simpl.
    apply Z.ltb_lt in El. rewrite u64_id by (unfold is_u64; lia). unfold is_u64. split; [lia|]. split; [done|]. by apply Hr.
  - split; [done|]. split; [done|]. split; [done|]. by destruct op.
Qed.
End gas.

End with_laws.
End EvmGas.
