(* ===== verification/EvmInstr.v ===== *)
(** * Instructions are safe

    Every instruction that does not call, on the stack and the memory it was
    charged for: it does not crash, and it leaves a well-formed frame. *)
From S2P Require Import Prelude Wire EthMath EvmCode StateDB StateRevert StateSpec Rlp EvmBase Precompiles Evm EvmLogic EvmGas.

Module EvmInstr.
Import EthMath EvmBase Precompiles Evm StateRevert StateSpec EvmLogic EvmGas.

(** The arguments of the instructions that have one. *)
Definition op_ok (op : OpCode) : Prop :=
  match op with PUSH n | LOG n => 0 <= n | DUP n | SWAP n => 1 <= n | _ => True end.

Lemma opcode_ok b op : opcode_of b = Some op -> op_ok op.
Proof.
  unfold opcode_of, PUSH1, PUSH32. repeat (case_match; [intros [= <-]; simpl; lia|]).
  repeat case_match; intros E; by simplify_eq.
Qed.

(** ** Values *)
Lemma U256_nonneg x : 0 <= U256 x.
Proof. pose proof (U256_range x). lia. Qed.

Lemma be_val_nonneg bz : Forall is_byte bz -> 0 <= be_val bz.
Proof. intros Hb. pose proof (be_val_bound bz Hb). lia. Qed.

Lemma u64_nonneg x : 0 <= u64 x.
Proof. pose proof (u64_range x). unfold is_u64 in *. lia. Qed.

Create HintDb word.
Create HintDb instr.
#[export] Hint Resolve U256_nonneg be_val_nonneg u64_nonneg Z.le_refl : word.

Lemma opArith_nonneg op x y : 0 <= x -> 0 <= y -> 0 <= default 0 (opArith op x y).
Proof.
  intros Hx Hy. destruct op; cbn [opArith default id from_option]; try done; auto with word.
  all: repeat case_match; try done; auto with word.
  rewrite Exp_spec by done. apply Z.mod_pos_bound. done.
Qed.


Lemma opCompare_nonneg op x y : 0 <= default 0 (opCompare op x y).
Proof. destruct op; cbn [opCompare default id from_option]; repeat case_match; done. Qed.

Lemma Byte_nonneg x n : 0 <= x -> 0 <= n < 32 -> 0 <= Byte x 32 n.
Proof. intros Hx Hn. rewrite Byte_spec by done. apply Z.mod_pos_bound. done. Qed.

Lemma opBits_nonneg op x y : 0 <= x -> 0 <= y -> 0 <= default 0 (opBits op x y).
Proof.
  intros Hx Hy. destruct op; cbn [opBits default id from_option]; try done.
  - apply Z.land_nonneg. by left.
  - by apply Z.lor_nonneg.
  - by apply Z.lxor_nonneg.
  - destruct (Z.ltb_spec x 32); [|done]. unfold Int64. rewrite i64_id by (unfold is_i64; lia). by apply Byte_nonneg.
Qed.

Lemma opShift_nonneg op x y : 0 <= default 0 (opShift op x y).
Proof. destruct op; cbn [opShift default id from_option]; repeat case_match; try done; auto with word. Qed.

Lemma opModular_nonneg op x y z : 0 <= opModular op x y z.
Proof. unfold opModular. case_match; [auto with word|done]. Qed.

Lemma opUnary_nonneg op x : 0 <= opUnary op x.
Proof. unfold opUnary. repeat case_match; try done; auto with word. Qed.

#[export] Hint Resolve opArith_nonneg opCompare_nonneg opBits_nonneg opShift_nonneg opModular_nonneg opUnary_nonneg : word.

(** ** Data *)
Lemma go_slice_bytes (d : bytes) lo hi : 0 <= lo <= hi -> hi <= len d ->
  exists s, go_slice d lo hi = Ok s /\ len s = hi - lo /\ (Forall is_byte d -> Forall is_byte s).
Proof.
  intros Hlo Hhi. unfold go_slice. rewrite !(proj2 (Z.ltb_ge _ _)) by lia. cbn [orb].
  eexists. split; [done|]. split; [rewrite length_take, length_drop; lia|].
  intros Hd. by apply Forall_take, Forall_drop.
Qed.

Lemma RightPad_bytes d l : Forall is_byte d -> Forall is_byte (RightPadBytes d l).
Proof.
  intros Hd. unfold RightPadBytes. case_match; [done|]. apply Forall_app. split; [done|]. by apply Forall_replicate.
Qed.

Lemma LeftPad_bytes d l : Forall is_byte d -> Forall is_byte (LeftPadBytes d l).
Proof.
  intros Hd. unfold LeftPadBytes. case_match; [done|]. apply Forall_app. split; [|done]. by apply Forall_replicate.
Qed.

Lemma BigMin_min x y : BigMin x y = Z.min x y.
Proof. unfold BigMin. rewrite Z.gtb_ltb. destruct (Z.ltb_spec y x); lia. Qed.

Lemma getDataBig_safe d start size : Forall is_byte d -> 0 <= start -> 0 <= size ->
  safe (Forall is_byte) (getDataBig d start size).
Proof.
  intros Hd Hs Hz. unfold getDataBig. rewrite !BigMin_min.
  destruct (go_slice_bytes d (Z.min start (len d)) (Z.min (Z.min start (len d) + size) (len d)))
    as (s & -> & _ & Hb); [lia|lia|]. simpl. by apply RightPad_bytes, Hb.
Qed.

Lemma validJumpdest_safe dest c : 0 <= dest -> safe (fun _ => True) (validJumpdest dest c).
Proof.
  intros Hd. unfold validJumpdest. destruct (_ || _) eqn:E; [done|]. case_match; [done|].
  apply orb_false_iff in E as [_ E]. rewrite Z.geb_leb in E. apply Z.leb_gt in E.
  pose proof (u64_range dest) as Hr. unfold Uint64, is_u64 in *.
  destruct (codeBitmap_bits (Code c)) as (bits & pc' & -> & Hl & _). simpl.
  rewrite (codeSegment_total (Code c)); [done|done|lia].
Qed.


(** ** The instructions *)
Section posts.
Context `{HK : Keccak, HKL : !KeccakLaw, HN : Natives, HNL : !NativeLaws}.
Variables (s0 : StateDB.StateDB) (g0 : Z).

(** An instruction leaves a well-formed frame and returns bytes. *)
Definition ipost (r : outcome * Frame) : Prop :=
  (exists st ms, sym s0 g0 st ms r.2) /\ Forall is_byte r.1.1.

Lemma ipost_intro st ms o err f : sym s0 g0 st ms f -> Forall is_byte o -> safe ipost (iret (o, err) f).
Proof. intros Hs Ho. split; [by exists st, ms|done]. Qed.

Lemma continue_rule st ms f : sym s0 g0 st ms f -> safe ipost (continue f).
Proof. intros Hs. by eapply ipost_intro. Qed.

Lemma asks_suicide a : asks (fun _ => True) (StateDB.Suicide a).
Proof. intros s Hs. split; [done|]. by apply Suicide_evolves. Qed.

End posts.

(** Run the primitives that need no argument. *)
Ltac run_step :=
  match goal with
  | |- safe _ (ibind (get _) _ _) => apply get_rule
  | H : sym _ _ (_ :: _) _ ?f |- safe _ (ibind pop _ ?f) =>
      eapply pop_rule; [exact H|]; clear H; let g := fresh "fr" in intros g ? H
  | H : sym _ _ _ _ ?f |- safe _ (ibind (push _) _ ?f) =>
      eapply push_rule; [exact H|auto with word|]; clear H; let g := fresh "fr" in intros g H
  | H : sym _ _ _ _ ?f |- safe _ (ibind (set_pc _) _ ?f) =>
      eapply set_pc_rule; [exact H| |]; [|clear H; let g := fresh "fr" in intros g H]
  | H : sym _ _ _ _ ?f |- safe _ (continue ?f) => eapply continue_rule; exact H
  end; cbv beta.
Ltac run := repeat run_step.
Ltac ask L := eapply query_rule; [eassumption|apply L|]; let g := fresh "fr" in intros ? g ? ?; cbv beta.
Lemma uncons_le k x (st : list Z) : k <= len (x :: st) -> k - 1 <= len st.
Proof. simpl length. lia. Qed.

(** Take the operands off the stack. *)
Ltac uncons := repeat match goal with H : ?k <= len ?st |- _ =>
  is_var st; destruct st as [|? st]; [exfalso; simpl in H; lia|]; apply uncons_le in H; simpl Z.sub in H end.
Ltac covers := repeat match goal with H : Forall (covered _) (_ :: _) |- _ => apply Forall_cons in H as [? H] end.

Section with_laws.
Context `{HK : Keccak, HKL : !KeccakLaw, HN : Natives, HNL : !NativeLaws}.
Variable v : Env.
Hypothesis Hv : env_ok v.
Variables (s0 : StateDB.StateDB) (g0 : Z).
#[local] Abbreviation ipost := (ipost s0 g0).

Section op.
Variables (ms : bytes) (f : Frame).

Lemma opSha3_safe x y st : sym s0 g0 (x :: y :: st) ms f -> covered ms (x, y) -> safe ipost (opSha3 v f).
Proof.
  intros Hs Hc. unfold opSha3. run. eapply mem_get_rule; [eassumption|done|done|done|]. intros d Hd _.
  cbv beta zeta. pose proof (keccak_range d) as Hk. assert (0 <= Keccak256Hash d) by lia.
  destruct (EnablePreimageRecording v); [|rewrite ibind_iret; run].
  eapply update_rule; [eassumption|intros; by apply AddPreimage_evolves|]. intros f' Hs'. cbv beta. run.
Qed.

Lemma opBalance_safe x st : sym s0 g0 (x :: st) ms f -> safe ipost (opBalance f).
Proof. intros Hs. unfold opBalance. run. ask asks_balance. run. Qed.

Lemma opCallDataLoad_safe x st : sym s0 g0 (x :: st) ms f -> safe ipost (opCallDataLoad f).
Proof.
  intros Hs. unfold opCallDataLoad. run.
  eapply lift_rule; [apply getDataBig_safe; [|done|done]|]. { by apply (co_input _ (sy_contract _ _ _ _ _ Hs)). }
  intros d Hd. cbv beta. run.
Qed.

Lemma copy_op_safe src x y z st : sym s0 g0 (x :: y :: z :: st) ms f -> covered ms (x, z) ->
  (forall c, contract_ok c -> Forall is_byte (src c)) -> safe ipost (copy_op src f).
Proof.
  intros Hs Hc Hsrc. unfold copy_op. run.
  eapply lift_rule; [apply getDataBig_safe; [|done|done]|]. { apply Hsrc, (sy_contract _ _ _ _ _ Hs). }
  intros d Hd. cbv beta. eapply mem_set_rule; [eassumption|done|done|done|done|]. intros ms' f' _ Hs'. cbv beta. run.
Qed.

Lemma opReturnDataCopy_safe x y z st : sym s0 g0 (x :: y :: z :: st) ms f -> covered ms (x, z) ->
  safe ipost (opReturnDataCopy f).
Proof.
  intros Hs Hc. unfold opReturnDataCopy. run. cbv zeta. destruct (_ || _) eqn:E; [by eapply ipost_intro|].
  apply orb_false_iff in E as [E1 E2]. apply Z.ltb_ge in E2. rewrite Z.gtb_ltb in E1. apply Z.ltb_ge in E1.
  apply BitLen_le in E1; [|lia|lia]. unfold Uint64 in *. rewrite u64_id in E2 by (unfold is_u64; lia).
  rewrite !u64_id by (unfold is_u64; lia).
  destruct (go_slice_bytes (returnData (evm fr1)) y (y + z)) as (d & -> & _ & Hb); [lia|lia|].
  eapply (lift_rule _ (eq d)); [done|]. intros ? <-. eapply mem_set_rule; [eassumption|done|done|done| |].
  { apply Hb, (vo_return _ (sy_evm _ _ _ _ _ Hs)). }
  intros ms' f' _ Hs'. cbv beta. run.
Qed.

Lemma opExtCodeSize_safe x st : sym s0 g0 (x :: st) ms f -> safe ipost (opExtCodeSize f).
Proof. intros Hs. unfold opExtCodeSize. run. ask asks_codesize. run. Qed.

Lemma opExtCodeCopy_safe a x y z st : sym s0 g0 (a :: x :: y :: z :: st) ms f -> covered ms (x, z) ->
  safe ipost (opExtCodeCopy f).
Proof.
  intros Hs Hc. unfold opExtCodeCopy. run. ask asks_code.
  eapply lift_rule; [by apply getDataBig_safe|]. intros d Hd. cbv beta.
  eapply mem_set_rule; [eassumption|done|done|done|done|]. intros ms' f' _ Hs'. cbv beta. run.
Qed.

Lemma opExtCodeHash_safe x st : sym s0 g0 (x :: st) ms f -> safe ipost (opExtCodeHash f).
Proof. intros Hs. unfold opExtCodeHash. run. ask asks_empty. destruct a; [run|]. ask asks_codehash. run. Qed.

Lemma opBlockhash_safe x st : sym s0 g0 (x :: st) ms f -> safe ipost (opBlockhash v f).
Proof.
  intros Hs. unfold opBlockhash. run. eapply push_rule; [eassumption|case_match; [apply Hv|done]|].
  intros f' Hs'. cbv beta. run.
Qed.

Lemma opMload_safe x st : sym s0 g0 (x :: st) ms f -> covered ms (x, 32) -> safe ipost (opMload f).
Proof.
  intros Hs Hc. unfold opMload. run. eapply mem_get_rule; [eassumption|done|done|done|]. intros d Hd _. cbv beta. run.
Qed.

Lemma copy_to_safe lo hi w (st : bytes) : 0 <= lo <= hi -> hi <= len st -> Forall is_byte w -> Forall is_byte st ->
  safe (fun st' => Forall is_byte st' /\ len st' = len st) (copy_to lo hi w st).
Proof.
  intros Hlo Hhi Hw Hst. unfold copy_to. destruct (go_slice_bytes st lo hi Hlo Hhi) as (d & -> & Hd & _). simpl. split.
  - apply Forall_app. split; [by apply Forall_take|]. apply Forall_app. split; [by apply Forall_take|by apply Forall_drop].
  - rewrite !length_app, !length_take, length_drop. lia.
Qed.

Lemma opMstore_safe x y st : sym s0 g0 (x :: y :: st) ms f -> covered ms (x, 32) -> safe ipost (opMstore f).
Proof.
  intros Hs Hc. unfold opMstore. run. eapply mem_do_rule; [eassumption| |intros ms' f' _ Hs'; cbv beta; run].
  intros m Em. destruct Hc as [Hc|Hc]; simpl in Hc; [done|]. pose proof (sy_len _ _ _ _ _ Hs) as Hl.
  unfold mem_Set32, mem_Len, Uint64. rewrite Em, (u64_id x), u64_id by (unfold is_u64; lia).
  rewrite Z.gtb_ltb, (proj2 (Z.ltb_ge _ _)) by lia. eapply safe_bind.
  - apply copy_to_safe; [lia|done| |by apply (sy_bytes _ _ _ _ _ Hs)]. rewrite ReadBits_spec by done. apply Wire.be_bytes_byte.
  - intros st' Hst'. exact Hst'.
Qed.

Lemma opMstore8_safe x y st : sym s0 g0 (x :: y :: st) ms f -> covered ms (x, 1) -> safe ipost (opMstore8 f).
Proof.
  intros Hs Hc. unfold opMstore8. run. eapply mem_do_rule; [eassumption| |intros ms' f' _ Hs'; cbv beta; run].
  intros m Em. destruct Hc as [Hc|Hc]; simpl in Hc; [done|]. pose proof (sy_len _ _ _ _ _ Hs) as Hl.
  unfold mem_Len, Int64. rewrite Em, (i64_id x) by (unfold is_i64; lia).
  rewrite (proj2 (Z.leb_le _ _)), (proj2 (Z.ltb_lt _ _)) by lia. simpl. split; [|by rewrite length_insert].
  apply Forall_insert; [by apply (sy_bytes _ _ _ _ _ Hs)|]. by apply Z.mod_pos_bound.
Qed.

Lemma opSload_safe x st : sym s0 g0 (x :: st) ms f -> safe ipost (opSload f).
Proof. intros Hs. unfold opSload. run. ask asks_state. run. Qed.

Lemma opSstore_safe x y st : sym s0 g0 (x :: y :: st) ms f -> safe ipost (opSstore f).
Proof.
  intros Hs. unfold opSstore. run. eapply update_rule; [eassumption| |intros f' Hs'; cbv beta; run].
  intros s Hok. apply SetState_evolves; [done|]. by apply Z.mod_pos_bound.
Qed.

Lemma jump_safe x c st : sym s0 g0 st ms f -> 0 <= x ->
  safe ipost (ibind (lift (validJumpdest x c))
    (fun ok => if ok then set_pc (Uint64 x);;; continue else iret ([], Some errInvalidJump)) f).
Proof.
  intros Hs Hx. eapply lift_rule; [by apply validJumpdest_safe|]. intros ok _. cbv beta.
  destruct ok; [|by eapply ipost_intro]. run. apply u64_nonneg.
Qed.

Lemma opReturn_safe x y st : sym s0 g0 (x :: y :: st) ms f -> covered ms (x, y) -> safe ipost (opReturn f).
Proof.
  intros Hs Hc. unfold opReturn. run. eapply mem_get_rule; [eassumption|done|done|done|]. intros d Hd _.
  by eapply ipost_intro.
Qed.

Lemma opSuicide_safe x st : sym s0 g0 (x :: st) ms f -> safe ipost (opSuicide f).
Proof.
  intros Hs. unfold opSuicide. run. ask asks_balance. clear Hs. run.
  eapply update_rule; [eassumption|intros; by apply AddBalance_evolves|]. intros f1 Hs1. cbv beta. ask asks_suicide. run.
Qed.
End op.

Lemma opJump_safe ms f x st : sym s0 g0 (x :: st) ms f -> safe ipost (opJump f).
Proof. intros Hs. unfold opJump. run. by eapply jump_safe. Qed.

Lemma opJumpi_safe ms f x y st : sym s0 g0 (x :: y :: st) ms f -> safe ipost (opJumpi f).
Proof.
  intros Hs. unfold opJumpi. run. destruct (negb _); [by eapply jump_safe|]. run. apply u64_nonneg.
Qed.

Lemma pop_topics_rule {B} (Q : B * Frame -> Prop) (k : list Z -> I B) n st ms f : sym s0 g0 st ms f ->
  (n <= length st)%nat -> (forall ts f', sym s0 g0 (drop n st) ms f' -> safe Q (k ts f')) ->
  safe Q (ibind (pop_topics n) k f).
Proof.
  revert k st f. induction n as [|n IH]; intros k st f Hs Hn Hk; cbn [pop_topics]; [by apply Hk|].
  destruct st as [|x st]; simpl in Hn; [lia|]. rewrite ibind_assoc. run. rewrite ibind_assoc.
  eapply IH; [eassumption|lia|]. intros ts f' Hs'. cbv beta. rewrite ibind_iret. by apply Hk.
Qed.

Lemma makeLog_safe n ms f x y st : sym s0 g0 (x :: y :: st) ms f -> covered ms (x, y) -> (n <= length st)%nat ->
  safe ipost (makeLog v n f).
Proof.
  intros Hs Hc Hn. unfold makeLog. run. eapply pop_topics_rule; [eassumption|done|]. intros ts f1 Hs1. cbv beta.
  eapply mem_get_rule; [eassumption|done|done|done|]. intros d Hd _. cbv beta. run.
  eapply update_rule; [eassumption|intros; by apply AddLog_evolves|]. intros f2 Hs2. cbv beta. run.
Qed.

Lemma makePush_safe n ms f st : sym s0 g0 st ms f -> 0 <= n -> safe ipost (makePush n f).
Proof.
  intros Hs Hn. unfold makePush. run. cbv zeta. pose proof (sy_pc _ _ _ _ _ Hs) as Hp.
  set (lo := if pc f + 1 <? _ then pc f + 1 else _). assert (0 <= lo <= len (Code (contract f))) as Hlo.
  { unfold lo. destruct (Z.ltb_spec (pc f + 1) (len (Code (contract f)))); lia. }
  set (hi := if lo + n <? _ then lo + n else _). assert (lo <= hi <= len (Code (contract f))) as Hhi.
  { unfold hi. destruct (Z.ltb_spec (lo + n) (len (Code (contract f)))); lia. }
  destruct (go_slice_bytes (Code (contract f)) lo hi) as (d & -> & _ & Hb); [lia|lia|].
  eapply (lift_rule _ (eq d)); [done|]. intros ? <-.
  pose proof (RightPad_bytes d n (Hb (co_code _ (sy_contract _ _ _ _ _ Hs)))) as Hd. run. apply u64_nonneg.
Qed.

Lemma dup_safe n ms f st : sym s0 g0 st ms f -> (0 < n <= length st)%nat -> safe ipost ((dup n;;; continue) f).
Proof.
  intros Hs Hn. unfold dup. rewrite ibind_assoc. destruct (lookup_lt_is_Some_2 st (n - 1)) as [x Hx]; [lia|].
  eapply Back_rule; [exact Hs|exact Hx|]. intros Hx0. cbv beta. run.
Qed.

Lemma swap_safe n ms f st : sym s0 g0 st ms f -> (0 < n <= length st)%nat -> safe ipost ((swap n;;; continue) f).
Proof.
  intros Hs Hn. destruct (lookup_lt_is_Some_2 st (n - 1)) as [x Hx]; [lia|].
  destruct (lookup_lt_is_Some_2 st 0) as [y Hy]; [lia|]. destruct Hs. unfold ibind, swap. rewrite sy_stack0, Hx, Hy. simpl.
  eapply continue_rule. split; try done. simpl.
  apply Forall_insert; [apply Forall_insert; [done|]|]; by eapply Forall_lookup_1.
Qed.

Lemma opValue_nonneg op st ms f : sym s0 g0 st ms f -> 0 <= opValue v op f.
Proof.
  intros [_ _ _ _ _ [] Hpc [] _ _]. destruct Hv. destruct op; simpl; auto with word lia. unfold mem_Len. lia.
Qed.

(** ** Instructions that do not call *)
Definition calls (op : OpCode) : bool :=
  match op with CREATE | CREATE2 | CALL | CALLCODE | DELEGATECALL | STATICCALL => true | _ => false end.

#[local] Hint Resolve continue_rule opSha3_safe opBalance_safe opCallDataLoad_safe copy_op_safe opReturnDataCopy_safe
  opExtCodeSize_safe opExtCodeCopy_safe opExtCodeHash_safe opBlockhash_safe opMload_safe opMstore_safe opMstore8_safe
  opSload_safe opSstore_safe opJump_safe opJumpi_safe opReturn_safe opSuicide_safe makePush_safe : instr.

Lemma execute_plain lp op st ms f : calls op = false -> op_ok op -> sym s0 g0 st ms f ->
  (stack_use op).1 <= len st -> Forall (covered ms) (regions st op) -> safe ipost (execute v lp op f).
Proof.
  intros Hc Ho Hs Hst Hr. destruct op; try discriminate Hc; cbn [stack_use fst op_ok execute] in *; cbv beta iota zeta;
    try (eapply dup_safe; [exact Hs|lia]); try (eapply swap_safe; [exact Hs|lia]);
    uncons; cbn [regions nth] in Hr; covers; eauto with instr; try (run; done).
  all: try (apply get_rule; eapply push_rule; [exact Hs|by eapply opValue_nonneg|]; intros f' Hs'; cbv beta; run; done).
  - eapply copy_op_safe; [exact Hs|done|]. by intros c [].
  - eapply copy_op_safe; [exact Hs|done|]. by intros c [].
  - eapply makeLog_safe; [exact Hs|done|lia].
Qed.
End with_laws.

End EvmInstr.
