(* ===== verification/EvmCalls.v ===== *)
(** * Precompiled contracts and calls are safe

    On a well-formed state, over an interpreter loop that is safe on the gas
    that is left: no crash but that of the administrative contract, well-formed
    results, and after an error the state of before the call. *)
From S2P Require Import Prelude Wire EthMath EvmCode StateDB StateRevert StateSpec Rlp EvmBase Precompiles Evm EvmLogic EvmGas EvmInstr.

Module EvmCalls.
Import EthMath EvmBase Precompiles Evm StateRevert StateSpec EvmLogic EvmGas EvmInstr.

#[local] Infix "≈" := state_eq (at level 70).

(** ** Precompiled contracts *)
Lemma gtb_min x y : (if x >? y then y else x) = Z.min x y.
Proof. rewrite Z.gtb_ltb. destruct (Z.ltb_spec y x); lia. Qed.

Lemma getData_safe d start size : Forall is_byte d -> 0 <= start -> 0 <= size -> Z.min start (len d) + size < 2 ^ 64 ->
  safe (Forall is_byte) (getData d start size).
Proof.
  intros Hd Hs Hz Hm. unfold getData. rewrite !gtb_min, u64_id by (unfold is_u64; lia).
  destruct (go_slice_bytes d (Z.min start (len d)) (Z.min (Z.min start (len d) + size) (len d)))
    as (s & -> & _ & Hb); [lia|lia|]. simpl. by apply RightPad_bytes, Hb.
Qed.

Lemma modexp_gas_ge m : 0 <= m -> m <= modexp_gas m.
Proof.
  intros Hm. unfold modexp_gas. destruct (Z.leb_spec m 64); [nia|].
  destruct (Z.leb_spec m 1024).
  - pose proof (Z.div_pos (m * m) 4 ltac:(nia) ltac:(lia)). lia.
  - pose proof (Z.div_pos (m * m) 16 ltac:(nia) ltac:(lia)). lia.
Qed.

Lemma modexp_gas_bound m : 0 <= m -> modexp_gas m < 2 ^ 65 -> m < 2 ^ 40.
Proof.
  intros Hm Hg. destruct (Z.lt_ge_cases m (2 ^ 40)) as [?|Hge]; [done|]. exfalso. unfold modexp_gas in Hg.
  rewrite !(proj2 (Z.leb_gt _ _)) in Hg by lia.
  assert (2 ^ 76 <= m * m / 16) by (apply Z.div_le_lower_bound; nia). lia.
Qed.

Section with_laws.
Context `{HK : Keccak, HKL : !KeccakLaw, HN : Natives, HNL : !NativeLaws}.

#[local] Hint Resolve state_ok_live evolves_refl : core.

Definition native_ok (r : native_result) : Prop := match r with inl b => Forall is_byte b | inr _ => True end.

Lemma modexp_lens_safe input : Forall is_byte input -> len input < 2 ^ 62 ->
  safe (fun '(b, e, m, rest) => 0 <= b /\ 0 <= e /\ 0 <= m /\ Forall is_byte rest /\ len rest < 2 ^ 62) (modexp_lens input).
Proof.
  intros Hb Hl. unfold modexp_lens.
  eapply safe_bind; [apply getData_safe; [done|lia|lia|lia]|]. intros d1 H1.
  eapply safe_bind; [apply getData_safe; [done|lia|lia|lia]|]. intros d2 H2.
  eapply safe_bind; [apply getData_safe; [done|lia|lia|lia]|]. intros d3 H3.
  simpl. split_and!; try by apply be_val_nonneg. { by apply Forall_drop. } rewrite length_drop. lia.
Qed.

(** Operands that were paid for are not too long. *)
Lemma modexp_price_bound b e m msb : 0 <= b -> 0 <= e -> 0 <= m -> 0 <= msb -> 0 < BigMax m b ->
  modexp_gas (BigMax m b) * BigMax ((if e >? 32 then 8 * (e - 32) else 0) + msb) 1 / 20 < 2 ^ 60 ->
  b < 2 ^ 40 /\ m < 2 ^ 40 /\ e < 2 ^ 62.
Proof.
  rewrite !BigMax_max. intros Hb He Hm Hmsb Hpos Hg. set (M := Z.max m b) in *.
  set (A := Z.max _ 1) in *. pose proof (modexp_gas_ge M ltac:(lia)) as HG. set (G := modexp_gas M) in *.
  assert (G * A < 20 * 2 ^ 60 + 20) as Hlt.
  { pose proof (Z.mul_succ_div_gt (G * A) 20 ltac:(lia)). lia. }
  assert (1 <= A) as HA by (unfold A; lia).
  assert (M < 2 ^ 40) by (apply modexp_gas_bound; [lia|]; fold G; nia).
  assert (A < 20 * 2 ^ 60 + 20) by nia.
  split_and!; [lia|lia|]. unfold A in *. rewrite Z.gtb_ltb in *. destruct (Z.ltb_spec 32 e); lia.
Qed.

Lemma Bytes_bytes x : Forall is_byte (Bytes x).
Proof. apply Wire.be_bytes_byte. Qed.

Lemma gas_word_small x : 0 <= x -> (if BitLen x >? 64 then MaxUint64 else Uint64 x) < 2 ^ 60 -> x < 2 ^ 60.
Proof.
  intros Hx. rewrite Z.gtb_ltb. destruct (Z.ltb_spec 64 (BitLen x)) as [?|Hle]; [done|].
  apply BitLen_le in Hle; [|done|lia]. unfold Uint64. by rewrite u64_id by (unfold is_u64; lia).
Qed.

Lemma bigModExp_safe input g : Forall is_byte input -> len input < 2 ^ 62 ->
  bigModExp_RequiredGas input = Done g -> g < 2 ^ 60 -> safe native_ok (bigModExp_Run input).
Proof.
  intros Hi Hl Hg Hlt. unfold bigModExp_RequiredGas in Hg. unfold bigModExp_Run.
  pose proof (modexp_lens_safe input Hi Hl) as Hs. destruct (modexp_lens input) as [[[[b e] m] rest]| |]; try done.
  destruct Hs as (Hb & He & Hm & Hr & Hrl). cbn [vbind] in *.
  destruct (if len rest <=? b then _ else _) as [hd| |]; try done. cbn [vbind] in Hg. apply (f_equal Some) in Hg. injection Hg as <-.
  set (msb := if _ >? 0 then _ else 0) in Hlt. assert (0 <= msb) as Hmsb.
  { unfold msb. pose proof (BitLen_nonneg (be_val hd)). rewrite Z.gtb_ltb. destruct (Z.ltb_spec 0 (BitLen (be_val hd))); lia. }
  destruct (Z.eq_dec (BigMax m b) 0) as [E0|E0].
  { rewrite BigMax_max in E0. assert (b = 0) as -> by lia. assert (m = 0) as -> by lia. by constructor. }
  assert (0 < BigMax m b) as Hpos by (rewrite BigMax_max in *; lia).
  destruct (modexp_price_bound b e m msb) as (Hbb & Hmb & Heb); try done.
  { apply gas_word_small; [|done]. apply Z.div_pos; [|lia]. apply Z.mul_nonneg_nonneg; [|rewrite BigMax_max; lia].
    pose proof (modexp_gas_ge (BigMax m b)). lia. }
  unfold Uint64. rewrite !(u64_id b), !(u64_id m), !(u64_id e), !u64_id by (unfold is_u64; lia).
  destruct (_ && _); [by constructor|].
  eapply safe_bind; [apply getData_safe; [done|lia|lia|lia]|]. intros d1 _.
  eapply safe_bind; [apply getData_safe; [done|lia|lia|lia]|]. intros d2 _.
  eapply safe_bind; [apply getData_safe; [done|lia|lia|lia]|]. intros d3 _.
  destruct (_ =? 0); simpl; apply LeftPad_bytes; [done|]. apply Bytes_bytes.
Qed.

Lemma slice_safe b lo hi : Forall is_byte b -> 0 <= lo <= hi -> hi <= len b ->
  safe (fun s => Forall is_byte s /\ len s = hi - lo) (slice b lo hi).
Proof. intros Hb Hl Hh. unfold slice. destruct (go_slice_bytes b lo hi Hl Hh) as (s & -> & Hs & Hd). simpl. auto. Qed.

Lemma slice_total b lo hi : 0 <= lo <= hi -> hi <= len b -> exists s, slice b lo hi = Done s.
Proof. intros Hl Hh. unfold slice. destruct (go_slice_bytes b lo hi Hl Hh) as (s & -> & _). by exists s. Qed.

Lemma hash_Bytes_ok h : Forall is_byte (hash_Bytes h) /\ len (hash_Bytes h) = 32.
Proof. unfold hash_Bytes. rewrite Wire.be_bytes_length. split; [apply Wire.be_bytes_byte|done]. Qed.

Lemma RightPad_length d l : l <= len (RightPadBytes d l).
Proof. unfold RightPadBytes. destruct (Z.leb_spec l (len d)); [done|]. rewrite length_app, length_replicate. lia. Qed.

Lemma ecrecover_safe input : Forall is_byte input -> safe (fun '(r, _) => native_ok r) (ecrecover_Run input).
Proof.
  intros Hi. unfold ecrecover_Run. pose proof (RightPad_length input 128) as Hl.
  set (inp := RightPadBytes input 128) in *.
  destruct (slice_total inp 64 96) as [rb ->]; [lia|lia|]. destruct (slice_total inp 96 128) as [sb ->]; [lia|lia|].
  destruct (lookup_lt_is_Some_2 inp 63) as [vb ->]; [lia|]. destruct (slice_total inp 32 63) as [zs ->]; [lia|lia|].
  destruct (slice_total inp 0 32) as [h ->]; [lia|lia|]. destruct (slice_total inp 64 128) as [sg ->]; [lia|lia|].
  cbn [vbind deref or_crash]. destruct (_ || _); [by constructor|].
  destruct (crypto_Ecrecover _ _) as [pk|] eqn:E; [|by constructor]. apply ecrecover_length in E.
  destruct (slice_total pk 1 (len pk)) as [p ->]; [lia|lia|]. cbn [vbind].
  destruct (hash_Bytes_ok (Keccak256Hash p)) as [Hb Hn].
  eapply safe_bind; [apply (slice_safe (Keccak256 p)); unfold Keccak256; [done|lia|lia]|].
  intros d [Hd _]. simpl. by apply LeftPad_bytes.
Qed.

Lemma bn256Add_safe input : Forall is_byte input -> len input < 2 ^ 62 -> safe native_ok (bn256Add_Run input).
Proof.
  intros Hi Hl. unfold bn256Add_Run. eapply safe_bind; [apply getData_safe; [done|lia|lia|lia]|]. intros d1 _.
  destruct (G1_Unmarshal d1); [|done]. eapply safe_bind; [apply getData_safe; [done|lia|lia|lia]|]. intros d2 _.
  destruct (G1_Unmarshal d2); [|done]. simpl. apply marshal_bytes.
Qed.

Lemma bn256ScalarMul_safe input : Forall is_byte input -> len input < 2 ^ 62 -> safe native_ok (bn256ScalarMul_Run input).
Proof.
  intros Hi Hl. unfold bn256ScalarMul_Run. eapply safe_bind; [apply getData_safe; [done|lia|lia|lia]|]. intros d1 _.
  destruct (G1_Unmarshal d1); [|done]. eapply safe_bind; [apply getData_safe; [done|lia|lia|lia]|]. intros d2 _.
  simpl. apply marshal_bytes.
Qed.

Lemma read_pairs_safe n input i cs ts : 0 <= i -> i + 192 * Z.of_nat n <= len input ->
  safe (fun _ => True) (read_pairs n input i cs ts).
Proof.
  revert i cs ts. induction n as [|n IH]; intros i cs ts Hi Hn; cbn [read_pairs]; [done|].
  destruct (slice_total input i (i + 64)) as [b1 ->]; [lia|lia|].
  destruct (slice_total input (i + 64) (i + 192)) as [b2 ->]; [lia|lia|]. cbn [vbind].
  destruct (G1_Unmarshal b1); [|done]. destruct (G2_Unmarshal b2); [|done]. apply IH; lia.
Qed.

Lemma bn256Pairing_safe input : safe native_ok (bn256Pairing_Run input).
Proof.
  unfold bn256Pairing_Run. destruct (_ >? 0); [done|]. pose proof (Z.mul_div_le (len input) 192 ltac:(lia)).
  eapply safe_bind; [apply read_pairs_safe; [lia|]|].
  { rewrite Z2Nat.id; [lia|]. apply Z.div_pos; lia. }
  intros [[cs ts]|] _; simpl; [|done]. apply hash_Bytes_ok.
Qed.

Lemma AdminOP_safe input s : state_ok s -> safe (fun '(r, s') => native_ok r /\ evolves s s') (AdminOP_Run input s).
Proof.
  intros Hs. unfold AdminOP_Run. destruct (go_slice input 0 32); [|done]. cbn [or_crash vbind].
  destruct (go_slice input 32 52) as [fr|]; [|done]. cbn [or_crash vbind]. destruct (go_slice input 52 _); [|done].
  cbn [or_crash vbind]. destruct admin_callback as [cb|]; [|by auto].
  destruct (asks_nonce (BytesToAddress fr) s Hs) as [_ He].
  destruct (StateDB.GetNonce _ s) as [n s']. simpl. split; [|done]. destruct (cb _ _ _); [done|by constructor].
Qed.

Lemma RequiredGas_safe p input : Forall is_byte input -> len input < 2 ^ 62 -> safe (Z.le 0) (RequiredGas p input).
Proof.
  intros Hi Hl. destruct p; simpl; try done; try apply u64_nonneg. unfold bigModExp_RequiredGas.
  eapply safe_bind; [by apply modexp_lens_safe|]. intros [[[b e] m] rest] (Hb & He & Hm & Hr & Hrl).
  eapply (safe_bind (fun _ => True)).
  - destruct (Z.leb_spec (len rest) b); [done|]. eapply safe_mono; [|done]. unfold Uint64. rewrite (u64_id b) by (unfold is_u64; lia).
    apply getData_safe; [done|lia| |]; rewrite Z.gtb_ltb; destruct (Z.ltb_spec 32 e); rewrite ?u64_id by (unfold is_u64; lia); lia.
  - intros hd _. cbv zeta. destruct (_ >? 64); [done|]. apply u64_nonneg.
Qed.

Lemma native_safe p input s g : Forall is_byte input -> len input < 2 ^ 62 -> state_ok s ->
  RequiredGas p input = Done g -> g < 2 ^ 60 ->
  safe (fun '(r, s') => native_ok r /\ evolves s s') (native_Run p input s).
Proof.
  intros Hi Hl Hs Hg Hlt.
  assert (forall m, safe native_ok m -> safe (fun '(r, s') => native_ok r /\ evolves s s') (do! r := m in Done (r, s)))
    as Hpure by (intros [r| |]; simpl; auto).
  destruct p; cbn [native_Run].
  - pose proof (ecrecover_safe input Hi) as He. destruct (ecrecover_Run input) as [[r ?]| |]; simpl in *; auto.
  - split; [|by auto]. apply sha256_bytes.
  - split; [|by auto]. apply LeftPad_bytes, ripemd160_bytes.
  - by split; auto.
  - by apply Hpure, (bigModExp_safe _ g).
  - by apply Hpure, bn256Add_safe.
  - by apply Hpure, bn256ScalarMul_safe.
  - apply Hpure, bn256Pairing_safe.
  - by apply AdminOP_safe.
Qed.

(** ** Balances *)
Definition bal (s : StateDB.StateDB) (a : Z) : Z := from 0 balance (abs s) a.

Lemma bal_eq s l a : ledger_eq (abs s) l -> bal s a = from 0 balance l a.
Proof. intros E. apply from_proper; [|done]. by intros x y []. Qed.

Lemma bal_silent s s' a : silent s s' -> bal s' a = bal s a.
Proof. intros (_ & He & _). apply bal_eq. by apply abs_proper. Qed.

Lemma from_on a f l b : (forall x, balance (f x) = balance x) -> from 0 balance (on a f l) b = from 0 balance l b.
Proof.
  intros Hf. unfold from, on. destruct (decide (b = a)) as [->|]; [|done]. rewrite Hf. by destruct (l a).
Qed.

Lemma bal_CreateAccount s a b : live s -> bal (StateDB.CreateAccount a s) b = bal s b.
Proof. intros Hl. rewrite (bal_eq _ _ b (CreateAccount_abs a s Hl)). by apply from_on. Qed.

Lemma bal_SetNonce s a n b : live s -> bal (StateDB.SetNonce a n s) b = bal s b.
Proof. intros Hl. rewrite (bal_eq _ _ b (SetNonce_abs a n s Hl)). by apply from_on. Qed.

Lemma CanTransfer_spec a w s : state_ok s -> exists s', CanTransfer a w s = (bal s a >=? w, s') /\ silent s s'.
Proof.
  intros Hs. unfold CanTransfer. destruct (GetBalance_spec a s (state_ok_live s Hs)) as (s' & -> & Hsi). by exists s'.
Qed.

Lemma Transfer_evolves from_ to w s : state_ok s -> 0 <= w <= bal s from_ -> evolves s (Transfer from_ to w s).
Proof.
  intros Hs Hw. unfold Transfer. pose proof (SubBalance_evolves from_ w s Hs ltac:(unfold bal in Hw; lia)) as H1.
  eapply ev_trans; [exact H1|]. apply AddBalance_evolves; [apply H1|lia].
Qed.

Lemma load_code_evolves a s : state_ok s -> Forall is_byte (load_code a s).1 /\ evolves s (load_code a s).2.
Proof.
  intros Hs. unfold load_code. destruct (asks_codehash a s Hs) as [_ He]. destruct (StateDB.GetCodeHash a s) as [h s1].
  destruct (asks_code a s1 (ev_ok _ _ He)) as [Hb He1]. simpl in *. split; [done|]. by eapply ev_trans.
Qed.

(** ** Runs *)
Record moves (s : StateDB.StateDB) (g : Z) (e' : EVM) : Prop := {
  mv_ok : evm_ok e';
  mv_evolves : evolves s (sdb e');
  mv_gas : gasLeft e' <= g
}.

Lemma moves_trans s s' g e : evolves s s' -> moves s' g e -> moves s g e.
Proof. intros He [H1 H2 H3]. split; [done|by eapply ev_trans|done]. Qed.

Lemma moves_sdb s g e s' : moves s g e -> evolves (sdb e) s' -> moves s g (with_sdb s' e).
Proof.
  intros [[]] He. split; [split; try done; apply He|by eapply ev_trans|done].
Qed.

Lemma evm_sdb e s : evm_ok e -> evolves (sdb e) s -> evm_ok (with_sdb s e).
Proof. intros [] He. split; try done. apply He. Qed.

Definition run_post (s : StateDB.StateDB) (g : Z) (r : outcome * Contract * EVM) : Prop :=
  Forall is_byte r.1.1.1 /\ contract_ok r.1.2 /\ moves s g r.2.

Section loop.
Variable v : Env.
Variable lp : Frame -> vmres (outcome * Frame).
Variable bound : Z.

(** The loop is safe on frames with less gas than [bound]. *)
Definition loop_ok : Prop := forall s g st ms f, sym s g st ms f -> gasLeft (evm f) < bound ->
  safe (fun '(o, f') => Forall is_byte o.1 /\ contract_ok (contract f') /\ moves s g (evm f')) (lp f).
Hypothesis Hlp : loop_ok.

Lemma Run_safe c input ro e : contract_ok c -> Forall is_byte input -> evm_ok e -> gasLeft e < bound ->
  safe (run_post (sdb e) (gasLeft e)) (Run lp c input ro e).
Proof.
  intros Hc Hi He Hb. unfold Run. destruct (_ =? 0)%nat.
  { simpl. split_and!; [done|done|]. destruct He. split; [split; try done|by apply evolves_refl|simpl; lia]. }
  eapply safe_bind.
  - apply (Hlp (sdb e) (gasLeft e) [] []); [|done]. destruct Hc, He.
    by split.
  - intros [o f'] (Ho & Hc' & [[] He' Hg]). split_and!; [done|done|]. by split; [split|..].
Qed.

Lemma run_safe c input ro e : contract_ok c -> Forall is_byte input -> len input < 2 ^ 62 -> evm_ok e ->
  gasLeft e < bound -> safe (run_post (sdb e) (gasLeft e)) (run lp c input ro e).
Proof.
  intros Hc Hi Hl He Hb. unfold run. destruct (_ ≫= _) as [p|]; [|by apply Run_safe].
  pose proof (RequiredGas_safe p input Hi Hl) as Hg. destruct (RequiredGas p input) as [g| |] eqn:Eg; try done.
  cbn [vbind]. unfold useGas. pose proof He as [Hok [Hg0 Hg1] Ht Hr]. destruct (Z.ltb_spec (gasLeft e) g).
  - split_and!; [done|done|]. by split; [split|apply evolves_refl|simpl; lia].
  - eapply safe_bind; [eapply native_safe; [done|done|exact Hok|exact Eg|lia]|].
    intros [r s'] [Hn He']. split_and!; [by destruct r|done|]. simpl in Hg. split; [split; try done; simpl; [apply He'|lia]|done|simpl; lia].
Qed.

(** The outcome of a call from the state [s]: on an error the state is as it was. *)
Definition call_post (s : StateDB.StateDB) (g : Z) (r : call_result) : Prop :=
  let '(ret, err, gas, e') := r in
  Forall is_byte ret /\ 0 <= gas /\ moves s g e' /\ (err <> None -> sdb e' ≈ s).

Lemma call_post_silent s s' g r : state_ok s -> silent s s' -> call_post s' g r -> call_post s g r.
Proof.
  intros Hs Hsi. destruct r as [[[ret err] gas] e']. intros (Hb & Hg & Hm & He). split_and!; try done.
  - eapply moves_trans; [|exact Hm]. by apply evolves_silent.
  - intros Hne. destruct Hsi as (_ & Heq & _). by rewrite (He Hne).
Qed.

Lemma run_or_revert_safe s c input ro e : state_ok s -> evolves (StateDB.Snapshot s).2 (sdb e) ->
  contract_ok c -> Forall is_byte input -> len input < 2 ^ 62 -> evm_ok e -> gasLeft e < bound ->
  safe (call_post s (gasLeft e)) (run_or_revert lp (StateDB.Snapshot s).1 c input ro e).
Proof.
  intros Hs Hev Hc Hi Hl He Hb. unfold run_or_revert. eapply safe_bind; [by apply run_safe|].
  intros [[[ret err] c'] e'] (Hr & Hc' & [Hok He' Hg]). cbn [fst snd] in *.
  assert (evolves (StateDB.Snapshot s).2 (sdb e')) as Hev' by (by eapply ev_trans).
  destruct err as [er|].
  - destruct (revert_evolves s (sdb e') Hs Hev') as (s3 & -> & Heq & Hev3). simpl. split_and!; [done| | |done].
    + destruct (decide _); [apply Hc'|done].
    + destruct Hok. split; [split; try done; apply Hev3|done|done].
  - split_and!; [done|apply Hc'| |done]. split; [done|by apply snapshot_evolves|done].
Qed.

Lemma call_post_here s g e err gas : evm_ok e -> silent s (sdb e) -> state_ok s -> 0 <= gas -> gasLeft e <= g ->
  call_post s g ([], err, gas, e).
Proof.
  intros He Hsi Hs Hg Hl. split_and!; try done; [split; [done|by apply evolves_silent|done]|]. by destruct Hsi as (_ & ? & _).
Qed.

Lemma silent_refl s : state_ok s -> silent s s.
Proof. intros Hs. split; [by apply state_ok_live|]. split; reflexivity. Qed.
#[local] Hint Resolve silent_refl : core.

(** Before a transfer: the money is there. *)
Lemma can_transfer {A} (Q : A -> Prop) caller w s (yes no : StateDB.StateDB -> vmres A) : state_ok s ->
  (forall s', silent s s' -> safe Q (no s')) ->
  (forall s', silent s s' -> state_ok s' -> w <= bal s' caller -> safe Q (yes s')) ->
  safe Q (let '(can, s') := CanTransfer caller w s in if negb can then no s' else yes s').
Proof.
  intros Hs Hn Hy. destruct (CanTransfer_spec caller w s Hs) as (s' & -> & Hsi). rewrite Z.geb_leb.
  destruct (Z.leb_spec w (bal s caller)) as [Hle|]; [|by apply Hn]. apply Hy; [done| |by rewrite (bal_silent s)].
  apply (evolves_silent s s' Hs Hsi).
Qed.

Section calls.
Variables (input : bytes) (gas : Z) (e : EVM).
Hypotheses (Hi : Forall is_byte input) (Hl : len input < 2 ^ 62) (Hgas : 0 <= gas) (He : evm_ok e) (Hb : gasLeft e < bound).

Lemma evm_after s' : evolves (sdb e) s' -> evm_ok (with_sdb s' e).
Proof. by apply evm_sdb. Qed.

(** Running code at the end of a call. *)
Lemma run_code s caller obj val addr s' ro : evolves (sdb e) s -> evolves (StateDB.Snapshot s).2 s' ->
  0 <= caller -> 0 <= obj -> 0 <= val ->
  safe (call_post s (gasLeft e))
    (let '(code, s'') := load_code addr s' in
     run_or_revert lp (StateDB.Snapshot s).1 (SetCallCode addr code (NewContract caller obj val gas)) input ro (with_sdb s'' e)).
Proof.
  intros Hs Hs' Hc Ho Hv. destruct (load_code_evolves addr s' (ev_ok _ _ Hs')) as [Hcode He2].
  destruct (load_code addr s') as [code s2]. simpl in *.
  assert (evolves (StateDB.Snapshot s).2 s2) as Hev by (by eapply ev_trans).
  apply (run_or_revert_safe s _ input ro (with_sdb s2 e)); try done; [apply Hs|].
  apply evm_after. eapply ev_trans; [exact Hs|]. apply snapshot_evolves; [apply Hs|done].
Qed.

Lemma Call_safe caller addr val : 0 <= caller -> 0 <= addr -> 0 <= val ->
  safe (call_post (sdb e) (gasLeft e)) (Call v lp caller addr input gas val e).
Proof.
  intros Hc Ha Hv. pose proof (vo_state _ He) as Hs. unfold Call.
  destruct (_ && _); [by apply call_post_here; auto|]. destruct (_ >? _); [by apply call_post_here; auto|].
  apply can_transfer; [done|..]; clear Hs; intros s1 Hsi.
  { apply call_post_here; try done; [|apply He]. by apply evm_after, evolves_silent; [apply He|]. }
  intros Hs1 Hle. assert (evolves (sdb e) s1) as Hev1 by (by apply evolves_silent; [apply He|]).
  eapply safe_mono; [|intros r; by apply call_post_silent; [apply He|]].
  rewrite (surjective_pairing (StateDB.Snapshot s1)). pose proof (Snapshot_ok s1 Hs1) as Hs2.
  destruct (Exist_spec addr (StateDB.Snapshot s1).2) as (s3 & Ex & Hsi3); [by apply state_ok_live|].
  rewrite Ex. match type of Ex with _ = (?b, _) => generalize b; clear Ex; intros ex end.
  pose proof (evolves_silent _ _ Hs2 Hsi3) as Hev3.
  destruct (_ && _).
  { split_and!; try done. split; [|by apply snapshot_evolves|done]. apply evm_after.
    eapply ev_trans; [exact Hev1|]. by apply snapshot_evolves. }
  apply run_code; try done. set (s4 := if ex then s3 else _).
  assert (evolves s3 s4 /\ bal s4 caller = bal s3 caller) as [Hev4 Hbal].
  { unfold s4. destruct ex; [by split; [apply evolves_refl, Hev3|]|].
    split; [apply CreateAccount_evolves, Hev3|apply bal_CreateAccount, state_ok_live, Hev3]. }
  eapply ev_trans; [exact Hev3|]. eapply ev_trans; [exact Hev4|]. apply Transfer_evolves; [apply Hev4|].
  rewrite Hbal, (bal_silent _ _ _ Hsi3). unfold bal in *. simpl. done.
Qed.

Lemma CallCode_safe caller addr val : 0 <= caller -> 0 <= val ->
  safe (call_post (sdb e) (gasLeft e)) (CallCode v lp caller addr input gas val e).
Proof.
  intros Hc Hv. pose proof (vo_state _ He) as Hs. unfold CallCode.
  destruct (_ && _); [by apply call_post_here; auto|]. destruct (_ >? _); [by apply call_post_here; auto|].
  apply can_transfer; [done|..]; clear Hs; intros s1 Hsi.
  { apply call_post_here; try done; [|apply He]. by apply evm_after, evolves_silent; [apply He|]. }
  intros Hs1 _. eapply safe_mono; [|intros r; by apply call_post_silent; [apply He|]].
  apply run_code; try done; [by apply evolves_silent; [apply He|]|]. by apply evolves_refl, Snapshot_ok.
Qed.

Lemma DelegateCall_safe parent addr : contract_ok parent ->
  safe (call_post (sdb e) (gasLeft e)) (DelegateCall v lp parent addr input gas e).
Proof.
  intros Hp. pose proof (vo_state _ He) as Hs. unfold DelegateCall.
  destruct (_ && _); [by apply call_post_here; auto|]. destruct (_ >? _); [by apply call_post_here; auto|].
  rewrite (surjective_pairing (StateDB.Snapshot (sdb e))). pose proof (Snapshot_ok _ Hs) as Hs1.
  destruct (load_code_evolves addr _ Hs1) as [Hcode He2]. destruct (load_code addr _) as [code s2]. cbn [fst snd] in *.
  apply (run_or_revert_safe (sdb e) _ input false (with_sdb s2 e)); try done.
  - destruct Hp. by split.
  - by apply evm_after, snapshot_evolves.
Qed.

Lemma StaticCall_safe caller addr : 0 <= caller -> 0 <= addr ->
  safe (call_post (sdb e) (gasLeft e)) (StaticCall v lp caller addr input gas e).
Proof.
  intros Hc Ha. pose proof (vo_state _ He) as Hs. unfold StaticCall.
  destruct (_ && _); [by apply call_post_here; auto|]. destruct (_ >? _); [by apply call_post_here; auto|].
  rewrite (surjective_pairing (StateDB.Snapshot (sdb e))). pose proof (Snapshot_ok _ Hs) as Hs1.
  destruct (load_code_evolves addr _ Hs1) as [Hcode He2]. destruct (load_code addr _) as [code s2]. cbn [fst snd] in *.
  pose proof (AddBalance_evolves addr 0 s2 (ev_ok _ _ He2) ltac:(lia)) as He3.
  pose proof (ev_trans _ _ _ He2 He3) as He4.
  apply (run_or_revert_safe (sdb e) _ input true (with_sdb (StateDB.AddBalance addr 0 s2) e)); try done.
  by apply evm_after, snapshot_evolves.
Qed.

(** *** Creation *)
Definition create_post (s : StateDB.StateDB) (g : Z) (r : create_result) : Prop :=
  let '(ret, err, addr, rest, e') := r in
  Forall is_byte ret /\ 0 <= addr /\ 0 <= rest /\ moves s g e'.

Lemma create_post_here s g err addr rest e' : evm_ok e' -> evolves s (sdb e') -> 0 <= addr -> 0 <= rest -> gasLeft e' <= g ->
  create_post s g ([], err, addr, rest, e').
Proof. intros. by split_and!. Qed.

Lemma store_code_ok address ret err c s g e' : Forall is_byte ret -> contract_ok c -> moves s g e' ->
  let '(err', c', e'') := store_code address ret err c e' in contract_ok c' /\ moves s g e''.
Proof.
  intros Hr Hc Hm. unfold store_code, UseGas. destruct err; [done|]. destruct (Z.ltb_spec (Gas c) (u64 (len ret * CreateDataGas))); [done|].
  split; [destruct Hc; split; try done; simpl; lia|]. apply moves_sdb; [done|]. by apply SetCode_evolves; [apply Hm|].
Qed.

Lemma deploy_run caller code val address s : Forall is_byte code -> 0 <= caller -> 0 <= val -> 0 <= address ->
  evolves (sdb e) s -> safe (run_post s (gasLeft e))
    (run lp (SetCallCode address code (NewContract caller address val gas)) [] false (with_sdb s e)).
Proof. intros Hcode Hc Hv Ha Hs. by apply (run_safe _ [] false (with_sdb s e)); try done; apply evm_after. Qed.

(** The state a constructor starts from. *)
Lemma deploy_state caller val address (eip158 : bool) : 0 <= val <= bal (sdb e) caller ->
  evolves (StateDB.Snapshot (sdb e)).2
    (Transfer caller address val
      (let s := StateDB.CreateAccount address (StateDB.Snapshot (sdb e)).2 in
       if eip158 then StateDB.SetNonce address 1 s else s)).
Proof.
  intros Hv. pose proof (Snapshot_ok _ (vo_state _ He)) as Hs. set (s1 := (StateDB.Snapshot (sdb e)).2) in *.
  pose proof (CreateAccount_evolves address s1 Hs) as H1. pose proof (state_ok_live _ Hs) as Hl1.
  pose proof (state_ok_live _ (ev_ok _ _ H1)) as Hl2. cbv zeta. destruct eip158.
  - pose proof (SetNonce_evolves address 1 _ (ev_ok _ _ H1) ltac:(done)) as H2.
    eapply ev_trans; [exact H1|]. eapply ev_trans; [exact H2|]. apply Transfer_evolves; [apply H2|].
    by rewrite bal_SetNonce, bal_CreateAccount.
  - eapply ev_trans; [exact H1|]. apply Transfer_evolves; [apply H1|]. by rewrite bal_CreateAccount.
Qed.

Lemma deploy_safe caller code val address : Forall is_byte code -> 0 <= caller -> 0 <= val <= bal (sdb e) caller ->
  0 <= address -> safe (create_post (sdb e) (gasLeft e)) (deploy v lp caller code gas val address e).
Proof.
  intros Hcode Hc Hv Ha. unfold deploy. rewrite (surjective_pairing (StateDB.Snapshot (sdb e))). cbn [negb].
  pose proof (deploy_state caller val address (IsEIP158 (chainConfig v) (BlockNumber v)) Hv) as Hev. cbv zeta in *.
  set (s1 := Transfer _ _ _ _) in *. pose proof (vo_state _ He) as Hs.
  pose proof (snapshot_evolves _ _ Hs Hev) as Hev'.
  destruct (_ && _); [by apply create_post_here; auto using evm_after|].
  eapply safe_bind; [by apply deploy_run; try lia|]. intros [[[ret err] c] e1] (Hret & Hc1 & Hm).
  cbn [fst snd] in *. set (mx := _ && _).
  assert (let '(err', c', e'') := if mx then (err, c, e1) else store_code address ret err c e1 in
    contract_ok c' /\ moves s1 (gasLeft e) e'') as Hst by (destruct mx; [done|by apply store_code_ok]).
  destruct (if mx then _ else _) as [[err2 c2] e2]. destruct Hst as [Hc2 [Hok2 Hev2 Hg2]].
  assert (evolves (StateDB.Snapshot (sdb e)).2 (sdb e2)) as Hev3 by (by eapply ev_trans).
  eapply (safe_bind (fun '(c', e') => contract_ok c' /\ moves (sdb e) (gasLeft e) e')).
  - destruct (_ || _); [|by split; [|split; [|apply snapshot_evolves|]]].
    destruct (revert_evolves _ _ Hs Hev3) as (s3 & -> & _ & Hev4). simpl. split.
    + destruct (decide _); [done|]. by destruct Hc2.
    + destruct Hok2. by split; [split; try done; apply Hev4|..].
  - intros [c3 e3] [Hc3 Hm3]. simpl. split_and!; [done|done|apply Hc3|done].
Qed.
End calls.

Lemma create_safe caller code gas val address e : 0 <= gas -> evm_ok e -> gasLeft e < bound -> Forall is_byte code -> 0 <= caller -> 0 <= val -> 0 <= address ->
  safe (create_post (sdb e) (gasLeft e)) (create v lp caller code gas val address e).
Proof.
  intros Hgas He Hb Hcode Hc Hv Ha. pose proof (vo_state _ He) as Hs. unfold create.
  destruct (_ >? _); [by apply create_post_here; auto|]. apply can_transfer; [done|..]; intros s1 Hsi;
    pose proof (evolves_silent _ _ Hs Hsi) as Hev1.
  { apply create_post_here; try done. by apply evm_sdb. }
  intros Hs1 Hle. destruct (GetNonce_spec caller s1) as (s2 & -> & Hsi2); [by apply state_ok_live|].
  pose proof (evolves_silent _ _ Hs1 Hsi2) as Hev2.
  set (n := u64 _). pose proof (SetNonce_evolves caller n s2 (ev_ok _ _ Hev2) (u64_range _)) as Hev3.
  destruct (GetCodeHash_spec address (StateDB.SetNonce caller n s2)) as (s4 & -> & Hsi4); [by apply state_ok_live; apply Hev3|].
  pose proof (evolves_silent _ _ (ev_ok _ _ Hev3) Hsi4) as Hev4.
  destruct (GetNonce_spec address s4) as (s5 & -> & Hsi5); [by apply state_ok_live; apply Hev4|].
  pose proof (evolves_silent _ _ (ev_ok _ _ Hev4) Hsi5) as Hev5.
  assert (evolves (sdb e) s5) as Hev by (repeat (eapply ev_trans; [eassumption|]); by apply evolves_refl, Hev5).
  assert (val <= bal s5 caller) as Hbal.
  { rewrite (bal_silent _ _ _ Hsi5), (bal_silent _ _ _ Hsi4), bal_SetNonce, (bal_silent _ _ _ Hsi2); [done|].
    apply state_ok_live, Hev2. }
  pose proof (evm_sdb _ _ He Hev) as He5.
  destruct (_ || _); [by apply create_post_here|].
  eapply safe_mono; [by apply (deploy_safe [] gas (with_sdb s5 e)); try done|].
  intros [[[[ret err] addr] rest] e'] (? & ? & ? & Hm). split_and!; try done. by eapply moves_trans.
Qed.

Lemma CreateAddress_safe b nonce : is_u64 nonce -> safe (Z.le 0) (CreateAddress b nonce).
Proof.
  intros Hn. unfold CreateAddress.
  rewrite Rlp.EncodeToBytes_spec; [simpl; by apply Z.mod_pos_bound| |].
  - simpl. unfold is_u64 in Hn. lia.
  - cbn [Rlp.enc map concat]. rewrite app_nil_r. unfold is_u64 in Hn.
    assert (length (address_Bytes b) = 20)%nat as H20 by apply Wire.be_bytes_length.
    assert (length (if (nonce =? 0)%Z then [] else Bytes nonce) <= 8)%nat as H8.
    { destruct (nonce =? 0); [simpl; lia|]. unfold Bytes. rewrite Wire.be_bytes_length.
      pose proof (proj2 (BitLen_le nonce 64 ltac:(lia) ltac:(lia)) ltac:(lia)). pose proof (BitLen_nonneg nonce).
      assert ((BitLen nonce + 7) / 8 < 9) by (apply Z.div_lt_upper_bound; lia). lia. }
    set (n := if nonce =? 0 then [] else Bytes nonce) in *.
    pose proof (Rlp.enc_string_length (address_Bytes b)) as L1. pose proof (Rlp.enc_string_length n) as L2.
    set (p := _ ++ _). assert (length p <= 46)%nat by (unfold p; rewrite length_app; lia).
    pose proof (Rlp.enc_list_le p). lia.
Qed.

Lemma Create_safe caller code gas val e : 0 <= gas -> evm_ok e -> gasLeft e < bound -> Forall is_byte code ->
  0 <= caller -> 0 <= val -> safe (create_post (sdb e) (gasLeft e)) (Create v lp caller code gas val e).
Proof.
  intros Hgas He Hb Hcode Hc Hv. unfold Create. destruct (asks_nonce caller (sdb e) (vo_state _ He)) as [Hn Hev].
  destruct (StateDB.GetNonce caller (sdb e)) as [n s1]. simpl in Hn, Hev.
  eapply safe_bind; [by apply CreateAddress_safe|]. intros a Ha.
  eapply safe_mono; [by apply create_safe; [|apply evm_sdb|..]|].
  intros [[[[ret err] addr] rest] e'] (? & ? & ? & Hm). split_and!; try done. by eapply moves_trans.
Qed.

Lemma Create2_safe caller code gas val salt e : 0 <= gas -> evm_ok e -> gasLeft e < bound -> Forall is_byte code ->
  0 <= caller -> 0 <= val -> safe (create_post (sdb e) (gasLeft e)) (Create2 v lp caller code gas val salt e).
Proof. intros. apply create_safe; try done. by apply Z.mod_pos_bound. Qed.
End loop.
End with_laws.
End EvmCalls.
