(* ===== verification/EvmSafe.v ===== *)
(** * The virtual machine is safe

    On a well-formed state every call ends, whatever the code: the gas of the
    machine pays for every instruction that does not end a frame.  It never
    crashes, except where a call of the administrative contract is too short.
    It changes the state through journalled operations only, so that a call
    that fails leaves the state as it was. *)
From S2P Require Import Prelude Wire EthMath EvmCode StateDB StateRevert StateSpec Rlp EvmBase Precompiles Evm EvmLogic EvmToy EvmGas EvmInstr EvmCalls.

Module EvmSafe.
Import EthMath EvmBase Precompiles Evm StateRevert StateSpec EvmLogic EvmGas EvmInstr EvmCalls.

#[local] Infix "≈" := state_eq (at level 70).

Section with_laws.
Context `{HK : Keccak, HKL : !KeccakLaw, HN : Natives, HNL : !NativeLaws}.
Variable v : Env.
Hypothesis Hv : env_ok v.

(** ** Instructions that call *)
Section calls.
Variables (lp : Frame -> vmres (outcome * Frame)) (bound : Z).
Hypothesis Hlp : loop_ok lp bound.
Variables (s0 : StateDB.StateDB) (g0 : Z).
Hypothesis Hg0 : g0 < bound.

Lemma sym_contract st ms f c : sym s0 g0 st ms f -> contract_ok c -> sym s0 g0 st ms (with_contract c f).
Proof. intros [] Hc. by split. Qed.

Lemma gas_contract c g : contract_ok c -> 0 <= g -> contract_ok (set_Gas g c).
Proof. intros [] Hg. by split. Qed.

Lemma add_gas_rule {B} (Q : B * Frame -> Prop) g (k : unit -> I B) st ms f : sym s0 g0 st ms f ->
  (forall f', sym s0 g0 st ms f' -> safe Q (k tt f')) -> safe Q (ibind (add_gas g) k f).
Proof.
  intros Hs Hk. apply Hk, sym_contract; [done|]. apply gas_contract; [apply Hs|apply u64_nonneg].
Qed.

Lemma use_gas_rule {B} (Q : B * Frame -> Prop) always (k : Z -> I B) st ms f : sym s0 g0 st ms f ->
  (forall g f', 0 <= g -> sym s0 g0 st ms f' -> safe Q (k g f')) -> safe Q (ibind (use_all_but_64th always) k f).
Proof.
  intros Hs Hk. pose proof (sy_contract _ _ _ _ _ Hs) as Hc. pose proof (co_gas _ Hc) as Hg.
  assert (0 <= Gas (contract f) - Gas (contract f) / 64 <= Gas (contract f)) as Hd.
  { pose proof (Z.div_pos (Gas (contract f)) 64 Hg ltac:(lia)).
    pose proof (Z.div_le_upper_bound (Gas (contract f)) 64 (Gas (contract f)) ltac:(lia) ltac:(lia)). lia. }
  unfold ibind, use_all_but_64th. cbn [vbind]. set (g := if always then _ else _).
  assert (0 <= g <= Gas (contract f)) as Hgb by (unfold g; destruct always; lia).
  apply Hk; [lia|]. apply sym_contract; [done|]. unfold UseGas.
  destruct (Z.ltb_spec (Gas (contract f)) g); [done|]. apply gas_contract; [done|lia].
Qed.

Lemma machine_rule {A B} (Q : B * Frame -> Prop) (R : A -> Prop) (m : EVM -> vmres (A * EVM)) (k : A -> I B) st ms f :
  sym s0 g0 st ms f ->
  safe (fun '(a, e') => R a /\ moves (sdb (evm f)) (gasLeft (evm f)) e') (m (evm f)) ->
  (forall a f', R a -> sym s0 g0 st ms f' -> safe Q (k a f')) -> safe Q (ibind (machine m) k f).
Proof.
  intros Hs Hm Hk. unfold ibind, machine. destruct (m (evm f)) as [[a e']| |]; [|done|done].
  destruct Hm as [Ha [Hok He Hg]]. apply Hk; [done|]. destruct Hs. split; try done; simpl; [|lia].
  by eapply ev_trans.
Qed.

Lemma finish_call_safe off size ret err rest st ms f : sym s0 g0 st ms f -> Forall is_byte ret -> 0 <= off -> 0 <= size ->
  covered ms (off, size) -> safe (ipost s0 g0) (finish_call off size (ret, err, rest) f).
Proof.
  intros Hs Hr Ho Hz Hc. unfold finish_call. eapply push_rule; [exact Hs|by destruct err|]. intros f1 Hs1. cbv beta.
  assert (forall ms' f', sym s0 g0 ((match err with Some _ => 0 | None => 1 end) :: st) ms' f' ->
    safe (ipost s0 g0) ((add_gas rest;;; iret (ret, None)) f')) as Hend.
  { intros ms' f' Hs'. eapply add_gas_rule; [exact Hs'|]. intros f2 Hs2. by eapply ipost_intro. }
  destruct (bool_decide _); [|by eapply Hend].
  eapply mem_set_rule; [exact Hs1|done|done|done|done|]. intros ms' f' _ Hs'. by eapply Hend.
Qed.

(** The arguments of a call fit what the callee expects. *)
Lemma call_step {callee : EVM -> vmres call_result} off size st ms f :
  sym s0 g0 st ms f -> 0 <= off -> 0 <= size -> covered ms (off, size) ->
  (evm_ok (evm f) -> gasLeft (evm f) < bound -> safe (call_post (sdb (evm f)) (gasLeft (evm f))) (callee (evm f))) ->
  safe (ipost s0 g0) ((r <- machine callee;; finish_call off size r) f).
Proof.
  intros Hs Ho Hz Hc Hcall. pose proof (sy_gas _ _ _ _ _ Hs) as Hg.
  eapply (machine_rule _ (fun '(ret, err, rest) => Forall is_byte ret)); [exact Hs| |].
  - eapply safe_mono; [apply Hcall; [apply Hs|lia]|]. by intros [[[ret err] rest] e'] (? & ? & ? & _).
  - intros [[ret err] rest] f' Hr Hs'. by eapply finish_call_safe.
Qed.

Lemma BigToAddress_nonneg x : 0 <= BigToAddress x.
Proof. by apply Z.mod_pos_bound. Qed.

Ltac args Hs := eapply mem_get_rule; [exact Hs|done|done|done|];
  let d := fresh "d" in let Hd := fresh "Hd" in let Hl := fresh "Hl" in intros d Hd Hl; cbv beta.

Lemma opCall__safe callee a0 a1 a2 a3 a4 a5 a6 st ms f : sym s0 g0 (a0 :: a1 :: a2 :: a3 :: a4 :: a5 :: a6 :: st) ms f ->
  covered ms (a5, a6) -> covered ms (a3, a4) ->
  (forall self addr input gas val e, 0 <= self -> 0 <= addr -> Forall is_byte input -> len input < 2 ^ 62 -> 0 <= gas ->
     0 <= val -> evm_ok e -> gasLeft e < bound -> safe (call_post (sdb e) (gasLeft e)) (callee self addr input gas val e)) ->
  safe (ipost s0 g0) (opCall_ callee f).
Proof.
  intros Hs H1 H2 Hcall. unfold opCall_. run_step. pose proof (vo_temp _ (sy_evm _ _ _ _ _ Hs)) as Ht.
  run. cbv zeta. args Hs. run. eapply call_step; [exact Hs|done|done|done|].
  intros He Hb. apply Hcall; try done; [apply Hs|apply BigToAddress_nonneg|lia| |apply U256_nonneg].
  destruct (negb _); [apply u64_nonneg|done].
Qed.

Lemma opCall6_safe callee a0 a1 a2 a3 a4 a5 st ms f : sym s0 g0 (a0 :: a1 :: a2 :: a3 :: a4 :: a5 :: st) ms f ->
  covered ms (a4, a5) -> covered ms (a2, a3) ->
  (forall c addr input gas e, contract_ok c -> 0 <= addr -> Forall is_byte input -> len input < 2 ^ 62 -> 0 <= gas ->
     evm_ok e -> gasLeft e < bound -> safe (call_post (sdb e) (gasLeft e)) (callee c addr input gas e)) ->
  safe (ipost s0 g0) (opCall6 callee f).
Proof.
  intros Hs H1 H2 Hcall. unfold opCall6. run_step. pose proof (vo_temp _ (sy_evm _ _ _ _ _ Hs)) as Ht.
  run. args Hs. run. eapply call_step; [exact Hs|done|done|done|].
  intros He Hb. apply Hcall; try done; [apply Hs|apply BigToAddress_nonneg|lia].
Qed.

(** The end of the two instructions that create. *)
Lemma create_step {callee : EVM -> vmres create_result} (word : option vmerror -> Z -> Z) st ms f :
  sym s0 g0 st ms f -> (forall err addr, 0 <= addr -> 0 <= word err addr) ->
  (evm_ok (evm f) -> gasLeft (evm f) < bound -> safe (create_post (sdb (evm f)) (gasLeft (evm f))) (callee (evm f))) ->
  safe (ipost s0 g0)
    ((r <- machine callee;;
      let '(res, suberr, addr, returnGas) := r in
      push (word suberr addr);;; add_gas returnGas;;;
      iret (if decide (suberr = Some errExecutionReverted) then res else [], None)) f).
Proof.
  intros Hs Hw Hcall. pose proof (sy_gas _ _ _ _ _ Hs) as Hg.
  eapply (machine_rule _ (fun '(ret, err, addr, rest) => Forall is_byte ret /\ 0 <= addr)); [exact Hs| |].
  - eapply safe_mono; [apply Hcall; [apply Hs|lia]|]. by intros [[[[ret err] addr] rest] e'] (? & ? & ? & ?).
  - intros [[[ret err] addr] rest] f' [Hr Ha] Hs'. cbv beta iota.
    eapply push_rule; [exact Hs'|by apply Hw|]. intros f1 Hs1. cbv beta. eapply add_gas_rule; [exact Hs1|]. intros f2 Hs2.
    eapply ipost_intro; [exact Hs2|]. by destruct (decide _).
Qed.

Lemma opCreate_safe a0 a1 a2 st ms f : sym s0 g0 (a0 :: a1 :: a2 :: st) ms f -> covered ms (a1, a2) ->
  safe (ipost s0 g0) (opCreate v lp f).
Proof.
  intros Hs Hc. unfold opCreate. run. args Hs. eapply use_gas_rule; [exact Hs|]. intros g f' Hg Hs'. cbv beta. run.
  apply (create_step (fun suberr addr => match suberr with
    | Some ErrCodeStoreOutOfGas => if IsHomestead (chainConfig v) (BlockNumber v) then 0 else addr
    | Some _ => 0 | None => addr end) st ms); [done|intros [[]|] addr Ha; try done; by destruct (IsHomestead _ _)|].
  intros He Hb. eapply Create_safe; try done. apply Hs'.
Qed.

Lemma opCreate2_safe a0 a1 a2 a3 st ms f : sym s0 g0 (a0 :: a1 :: a2 :: a3 :: st) ms f -> covered ms (a1, a2) ->
  safe (ipost s0 g0) (opCreate2 v lp f).
Proof.
  intros Hs Hc. unfold opCreate2. run. args Hs. eapply use_gas_rule; [exact Hs|]. intros g f' Hg Hs'. cbv beta. run.
  apply (create_step (fun suberr addr => match suberr with Some _ => 0 | None => addr end) st ms);
    [done|by intros [|] addr|].
  intros He Hb. eapply Create2_safe; try done. apply Hs'.
Qed.

Lemma execute_safe op st ms f : op_ok op -> sym s0 g0 st ms f ->
  (stack_use op).1 <= len st -> Forall (covered ms) (regions st op) -> safe (ipost s0 g0) (execute v lp op f).
Proof.
  intros Ho Hs Hst Hr. destruct (calls op) eqn:Ec; [|by apply (execute_plain v Hv s0 g0 lp op st ms)].
  destruct op; try discriminate Ec; cbn [stack_use fst execute] in *; uncons; cbn [regions nth] in Hr; covers.
  - by eapply opCreate_safe.
  - eapply opCall__safe; [exact Hs|done|done|]. intros. by eapply Call_safe.
  - eapply opCall__safe; [exact Hs|done|done|]. intros. by eapply CallCode_safe.
  - eapply opCall6_safe; [exact Hs|done|done|]. intros. by eapply DelegateCall_safe.
  - by eapply opCreate2_safe.
  - eapply opCall6_safe; [exact Hs|done|done|]. intros c addr input gas e [] **. by eapply StaticCall_safe.
Qed.
End calls.

(** ** One turn of the loop *)
Lemma sym_weaken s g g' st ms f : sym s g st ms f -> g <= g' -> sym s g' st ms f.
Proof. intros [] Hg. split; try done. lia. Qed.

(** A turn ends the frame or has used gas. *)
Definition turn_post (s : StateDB.StateDB) (g : Z) (r : (unit + outcome) * Frame) : Prop :=
  match r.1 with
  | inl _ => exists st ms, sym s (g - 1) st ms r.2
  | inr o => Forall is_byte o.1 /\ exists st ms, sym s g st ms r.2
  end.

Lemma charge_rule {B} (Q : B * Frame -> Prop) cost (k : bool -> I B) s g st ms f : sym s g st ms f -> 0 <= cost ->
  (forall f', sym s (g - cost) st ms f' -> safe Q (k true f')) ->
  (forall f', sym s g st ms f' -> safe Q (k false f')) -> safe Q (ibind (charge cost) k f).
Proof.
  intros [] Hc Hy Hn. unfold ibind, charge, useGas. destruct sy_evm0 as [? [? ?] ? ?].
  destruct (Z.ltb_spec (gasLeft (evm f)) cost); cbn [vbind].
  - by apply Hn.
  - apply Hy. split; try done; simpl; [split; try done; simpl; lia|lia].
Qed.

Lemma within_covered n op (st : list Z) ms : n <= len ms -> Forall (within n) (regions st op) ->
  Forall (covered ms) (regions st op).
Proof. intros Hn Hr. eapply Forall_impl; [exact Hr|]. intros r [H|H]; [by left|right; lia]. Qed.

Lemma resize_rule {B} (Q : B * Frame -> Prop) n (k : unit -> I B) s g st ms f op : sym s g st ms f -> 0 <= n <= max_mem ->
  Forall (within n) (regions st op) ->
  (forall ms' f', sym s g st ms' f' -> Forall (covered ms') (regions st op) -> safe Q (k tt f')) ->
  safe Q (ibind (if n >? 0 then mem_do (fun m => Done (mem_Resize n m)) else iret tt) k f).
Proof.
  intros Hs [Hn0 Hn] Hr Hk. rewrite Z.gtb_ltb. destruct (Z.ltb_spec 0 n).
  - unfold ibind, mem_do, mem_Resize, mem_Len. cbn [vbind]. pose proof Hs as [].
    destruct (Z.ltb_spec (len (store (memory f))) n).
    + apply (Hk (store (memory f) ++ replicate (Z.to_nat (n - len (store (memory f)))) 0)).
      * assert (n <= 2 ^ 41) by (unfold max_mem in Hn; lia).
        split; try done; rewrite sy_store0; [by apply Forall_app; split; [|apply Forall_replicate]|].
        rewrite length_app, length_replicate. lia.
      * eapply within_covered; [|exact Hr]. rewrite length_app, length_replicate. lia.
    + apply (Hk ms); [by destruct f|]. eapply within_covered; [|exact Hr]. subst ms. lia.
  - rewrite ibind_iret. apply (Hk ms); [done|]. eapply within_covered; [|exact Hr]. lia.
Qed.

Lemma enforce_rule {B} (Q : B * Frame -> Prop) op (k : option vmerror -> I B) s g st ms f : sym s g st ms f ->
  (stack_use op).1 <= len st -> (forall r f', sym s g st ms f' -> safe Q (k r f')) ->
  safe Q (ibind (enforceRestrictions v op) k f).
Proof.
  intros Hs Hst Hk. unfold enforceRestrictions. rewrite ibind_assoc. apply get_rule.
  destruct (_ && _); [|rewrite ibind_iret; by apply Hk]. destruct (writes op); [rewrite ibind_iret; by apply Hk|].
  destruct (decide (op = CALL)) as [->|]; [|rewrite ibind_iret; by apply Hk]. simpl in Hst.
  rewrite ibind_assoc. eapply Back_nth; [exact Hs|lia|]. intros _. rewrite ibind_iret. by apply Hk.
Qed.

(** What follows an instruction. *)
Lemma after_rule op s g g' o f : ipost s g' (o, f) -> g' <= g -> (last op = false -> g' <= g - 1) ->
  safe (turn_post s g)
    ((let '(res, err) := o in
      (if returns op then fun f => Done (tt, with_evm (with_returnData res (evm f)) f) else iret tt);;;
      match err with
      | Some e => iret (inr ([], Some e))
      | None =>
          if reverts op then iret (inr (res, Some errExecutionReverted))
          else if halts op then iret (inr (res, None))
          else if jumps op then iret (inl tt)
          else p <- get pc;; set_pc (u64 (p + 1));;; iret (inl tt)
      end) f).
Proof.
  destruct o as [res err]. intros [(st & ms & Hs) Hr] Hg Hl. cbn [fst snd] in *.
  match goal with |- safe _ (ibind ?m _ f) =>
    assert (exists f', m f = Done (tt, f') /\ sym s g' st ms f') as (f1 & E1 & Hs1) end.
  { destruct (returns op); eexists; (split; [done|]); [|done]. destruct Hs. split; try done. destruct sy_evm0. by split. }
  unfold ibind at 1. rewrite E1. cbn [vbind].
  pose proof (sym_weaken _ _ _ _ _ _ Hs1 Hg) as Hs2.
  destruct err; [split; [done|by exists st, ms]|].
  destruct (reverts op) eqn:Er; [split; [done|by exists st, ms]|].
  destruct (halts op) eqn:Eh; [split; [done|by exists st, ms]|].
  assert (last op = false) as Hlast by (unfold last; by rewrite Er, Eh). specialize (Hl Hlast).
  pose proof (sym_weaken _ _ _ _ _ _ Hs1 Hl) as Hs3.
  destruct (jumps op); [by exists st, ms|]. apply get_rule.
  eapply set_pc_rule; [exact Hs3|apply u64_nonneg|]. intros f2 Hs4. by exists st, ms.
Qed.

Lemma validateStack_None op st : validateStack op st = None -> (stack_use op).1 <= len st.
Proof. unfold validateStack. destruct (stack_use op) as [p q]. simpl. destruct (Z.ltb_spec (len st) p); [done|]. lia. Qed.

Lemma turn_safe lp bound s g st ms f : loop_ok lp bound -> sym s g st ms f -> g <= bound ->
  safe (turn_post s g) (turn v lp f).
Proof.
  intros Hlp Hs Hg. unfold turn. do 3 apply get_rule. cbv zeta. rewrite (sy_stack _ _ _ _ _ Hs).
  assert (forall e f', sym s g st ms f' -> safe (turn_post s g) (iret (inr ([], Some e)) f')) as Hstop
    by (intros e f' Hs'; split; [done|by exists st, ms]).
  destruct (opcode_of _) as [op|] eqn:Eop; [|by apply Hstop]. apply opcode_ok in Eop as Hop.
  destruct (validateStack op st) eqn:Est; [by apply Hstop|]. apply validateStack_None in Est.
  assert (forall k, op = LOG k -> 0 <= k) as Hlog by (by intros k ->).
  eapply enforce_rule; [exact Hs|done|]. intros [e|] f1 Hs1; [by apply Hstop|].
  eapply safe_ibind; [by apply (required_memory_rule s g st ms)|]. intros [n|e] f2 [Hs2 Hn]; [|by apply Hstop].
  destruct Hn as (Hu & Hnone & Hr).
  eapply safe_ibind; [by apply (opBaseGasCall_rule v Hv s g st ms)|]. intros [cost|e] f3 [Hs3 Hc]; [|by apply Hstop].
  cbn [fst snd] in *. destruct Hc as ([Hc0 Hc1] & Hlo & Hm).
  eapply charge_rule; [exact Hs3|done| |]; [|intros f4 Hs4; by apply Hstop]. intros f4 Hs4. cbn [negb].
  unfold is_u64 in Hu. eapply resize_rule; [exact Hs4|lia|exact Hr|]. intros ms' f5 Hs5 Hcov.
  eapply (safe_ibind (ipost s (g - cost))).
  - destruct (last op) eqn:El.
    + apply (execute_plain v Hv s (g - cost) lp op st ms'); try done. by destruct op.
    + eapply (execute_safe lp bound); try done. lia.
  - intros o f6 Ho. apply (after_rule op s g (g - cost)); [done|lia|]. intros El. rewrite El in Hlo. lia.
Qed.

(** ** The loop *)
Lemma loop_safe fuel : loop_ok (loop v fuel) (Z.of_nat fuel).
Proof.
  induction fuel as [|fuel IH]; intros s g st ms f Hs Hb; cbn [loop].
  { pose proof (vo_gas _ (sy_evm _ _ _ _ _ Hs)). lia. }
  set (g1 := gasLeft (evm f)) in *. assert (sym s g1 st ms f) as Hs1 by (destruct Hs; by split).
  pose proof (sy_gas _ _ _ _ _ Hs) as Hg. fold g1 in Hg.
  eapply safe_bind; [apply (turn_safe _ (Z.of_nat fuel) s g1 st ms f IH Hs1); lia|].
  intros [[|o] f'] Ht; unfold turn_post in Ht; cbn [fst snd] in Ht.
  - destruct Ht as (st' & ms' & Hs'). pose proof (sy_gas _ _ _ _ _ Hs') as Hg'.
    eapply safe_mono; [by apply (IH s (g1 - 1) st' ms'); [|lia]|].
    intros [o f''] (Ho & Hc & [H1 H2 H3]). split_and!; try done. split; try done. lia.
  - destruct Ht as (Ho & st' & ms' & []). split_and!; try done. split; try done. lia.
Qed.

(** C12: a message call ends, whatever code it runs: as many turns of the
    interpreter as the machine has gas left are enough.  The node does not
    crash, unless the code calls the administrative contract on an input that
    is too short.  The machine is well formed afterwards and has not gained gas. *)
Theorem Call_ends fuel caller addr input gas val e :
  evm_ok e -> gasLeft e < Z.of_nat fuel -> 0 <= caller -> 0 <= addr -> 0 <= gas -> 0 <= val ->
  Forall is_byte input -> len input < 2 ^ 62 ->
  (exists ret err rest e', Call v (loop v fuel) caller addr input gas val e = Done (ret, err, rest, e') /\
     evm_ok e' /\ gasLeft e' <= gasLeft e) \/
  Call v (loop v fuel) caller addr input gas val e = Crash admin_input.
Proof.
  intros He Hf Hc Ha Hg Hw Hi Hl.
  pose proof (Call_safe v _ _ (loop_safe fuel) input gas e Hi Hl Hg He Hf caller addr val Hc Ha Hw) as Hs.
  destruct (Call _ _ _ _ _ _ _ _) as [[[[ret err] rest] e']|c|]; [left|right; by rewrite Hs|done].
  destruct Hs as (_ & _ & [] & _). by exists ret, err, rest, e'.
Qed.

(** C13: a call of any of the four kinds that returns an error, from the
    innermost out-of-gas to a revert, leaves every account, the refund, the logs
    and the preimages as they were before the call. *)
Theorem failed_call_undone fuel (parent : Contract) caller addr input gas val e ret err rest e' :
  evm_ok e -> contract_ok parent -> gasLeft e < Z.of_nat fuel -> 0 <= caller -> 0 <= addr -> 0 <= gas -> 0 <= val ->
  Forall is_byte input -> len input < 2 ^ 62 ->
  Done (ret, Some err, rest, e') ∈
    [Call v (loop v fuel) caller addr input gas val e; CallCode v (loop v fuel) caller addr input gas val e;
     DelegateCall v (loop v fuel) parent addr input gas e; StaticCall v (loop v fuel) caller addr input gas e] ->
  sdb e' ≈ sdb e.
Proof.
  intros He Hp Hf Hc Ha Hg Hw Hi Hl Hin. pose proof (loop_safe fuel) as Hlp.
  assert (Forall (safe (call_post (sdb e) (gasLeft e)))
    [Call v (loop v fuel) caller addr input gas val e; CallCode v (loop v fuel) caller addr input gas val e;
     DelegateCall v (loop v fuel) parent addr input gas e; StaticCall v (loop v fuel) caller addr input gas e]) as Hall.
  { repeat apply Forall_cons_2; [by eapply Call_safe|by eapply CallCode_safe|by eapply DelegateCall_safe|
      by eapply StaticCall_safe|constructor]. }
  rewrite Forall_forall in Hall. destruct (Hall _ Hin) as (_ & _ & _ & Hu). by apply Hu.
Qed.
End with_laws.

(** ** Runs *)
Import EvmToy.
#[local] Existing Instances toy_keccak toy_natives toy_keccak_law toy_native_laws.

(** [JUMPDEST; PUSH1 0; JUMP] *)
Definition spin : bytes := [0x5b; 0x60; 0; 0x56].

Lemma Call_ends_witness :
  (exists ret err rest e', Call toy_env (loop toy_env 10001) 1 77 [] 0 10 (toy_evm spin) = Done (ret, err, rest, e') /\
     evm_ok e' /\ gasLeft e' <= 10000) \/
  Call toy_env (loop toy_env 10001) 1 77 [] 0 10 (toy_evm spin) = Crash admin_input.
Proof.
  apply (Call_ends toy_env toy_env_ok 10001 1 77 [] 0 10 (toy_evm spin)); try done.
  apply toy_evm_ok. unfold spin. repeat apply Forall_cons_2; try done.
Defined.

(** [PUSH1 9; PUSH1 3; SSTORE; PUSH1 0; PUSH1 0; REVERT] *)
Definition store_and_revert : bytes := [0x60; 9; 0x60; 3; 0x55; 0x60; 0; 0x60; 0; 0xfd].

Lemma failed_call_undone_witness :
  exists ret err rest e', Call toy_env (loop toy_env 10001) 1 77 [] 0 10 (toy_evm store_and_revert)
    = Done (ret, Some err, rest, e') /\ sdb e' ≈ toy_db store_and_revert.
Proof.
  destruct (Call toy_env (loop toy_env 10001) 1 77 [] 0 10 (toy_evm store_and_revert)) as [[[[ret [err|]] rest] e']| |] eqn:E;
    [|exfalso; revert E; vm_compute; discriminate..].
  exists ret, err, rest, e'. split; [done|].
  apply (failed_call_undone toy_env toy_env_ok 10001 (NewContract 1 77 0 0) 1 77 [] 0 10 (toy_evm store_and_revert)
    ret err rest e'); [clear E..|apply list_elem_of_In; left; exact E]; try done.
  apply toy_evm_ok. unfold store_and_revert. repeat apply Forall_cons_2; try done.
Defined.

End EvmSafe.
