(* ===== verification/Transition.v ===== *)
(** * Transactions and blocks of the EVM application

    eth/core: the gas pool, [StateTransition], [NewEVMContext] and
    [ApplyTransaction]; chain/app/evm/evm.go: the functions a block is executed
    with, and the serial execution of a block.  The run of the interpreter is
    the loop of Evm.v on [fuel] turns. *)
From S2P Require Import Prelude EthMath StateDB Rlp RlpDecode EvmBase Precompiles EthTx TxCodec Receipts Evm.

Module Transition.
Import EthMath EvmBase Precompiles EthTx Evm.

(** ** Errors *)
Inductive coreerr :=
| ErrNonceTooHigh | ErrNonceTooLow | ErrGasLimitReached | errInsufficientBalanceForGas
| vm_error (e : vmerror)
| tx_error (e : txerr)
| rlp_error (e : RlpDecode.rlperr)
| not_encodable.

(** ** gaspool.go *)
Definition MaxUint64 : Z := 2 ^ 64 - 1.

Definition AddGas (amount gp : Z) : vmres Z :=
  if gp >? MaxUint64 - amount then Crash gas_pool_overflow else Done (gp + amount).

Definition SubGas (amount gp : Z) : coreerr + Z :=
  if gp <? amount then inl ErrGasLimitReached else inr (gp - amount).

(** ** state_transition.go *)
Definition TxGas : Z := 21000.
Definition TxGasContractCreation : Z := 53000.
Definition TxDataZeroGas : Z := 4.
Definition TxDataNonZeroGas : Z := 68.

Definition IntrinsicGas (data : bytes) (contractCreation homestead : bool) : coreerr + Z :=
  let gas := if contractCreation && homestead then TxGasContractCreation else TxGas in
  if len data >? 0 then
    let nz := len (filter (fun b => b <> 0) data) in
    if (MaxUint64 - gas) / TxDataNonZeroGas <? nz then inl (vm_error ErrOutOfGas)
    else
      let gas := gas + nz * TxDataNonZeroGas in
      let z := len data - nz in
      if (MaxUint64 - gas) / TxDataZeroGas <? z then inl (vm_error ErrOutOfGas)
      else inr (gas + z * TxDataZeroGas)
  else inr gas.

Record StateTransition := mkTransition { gp : Z; gas : Z; initialGas : Z; st_evm : EVM }.

Definition with_st_evm (e : EVM) (st : StateTransition) : StateTransition :=
  mkTransition (gp st) (gas st) (initialGas st) e.
Definition with_st_sdb (s : StateDB.StateDB) (st : StateTransition) : StateTransition :=
  with_st_evm (with_sdb s (st_evm st)) st.
Definition with_st_gas (g : Z) (st : StateTransition) : StateTransition :=
  mkTransition (gp st) g (initialGas st) (st_evm st).

Definition gasUsed (st : StateTransition) : Z := u64 (initialGas st - gas st).

Section with_crypto.
Context `{Keccak, Natives}.

Section with_message.
Variables (v : Env) (fuel : nat) (msg : Message).

Definition buyGas (st : StateTransition) : option coreerr * StateTransition :=
  let mgval := msg_Gas msg * msg_GasPrice msg in
  let '(b, s) := StateDB.GetBalance (From msg) (sdb (st_evm st)) in
  let st := with_st_sdb s st in
  if b <? mgval then (Some errInsufficientBalanceForGas, st)
  else
    match SubGas (msg_Gas msg) (gp st) with
    | inl e => (Some e, st)
    | inr g =>
        let st := mkTransition g (u64 (gas st + msg_Gas msg)) (msg_Gas msg) (st_evm st) in
        (None, with_st_sdb (StateDB.SubBalance (From msg) mgval (sdb (st_evm st))) st)
    end.

Definition preCheck (st : StateTransition) : option coreerr * StateTransition :=
  if CheckNonce msg then
    let '(nonce, s) := StateDB.GetNonce (From msg) (sdb (st_evm st)) in
    let st := with_st_sdb s st in
    if nonce <? msg_Nonce msg then (Some ErrNonceTooHigh, st)
    else if nonce >? msg_Nonce msg then (Some ErrNonceTooLow, st)
    else buyGas st
  else buyGas st.

Definition refundGas (st : StateTransition) : vmres StateTransition :=
  let refund := gasUsed st / 2 in
  let counter := StateDB.GetRefund (sdb (st_evm st)) in
  let refund := if refund >? counter then counter else refund in
  let st := with_st_gas (u64 (gas st + refund)) st in
  let remaining := gas st * msg_GasPrice msg in
  let st := with_st_sdb (StateDB.AddBalance (From msg) remaining (sdb (st_evm st))) st in
  do! g := AddGas (gas st) (gp st) in
  Done (mkTransition g (gas st) (initialGas st) (st_evm st)).

(** The message itself: a contract is created or an account called. *)
Definition run_message (st : StateTransition) : vmres (bytes * option vmerror * StateTransition) :=
  match To msg with
  | None =>
      do! (ret, err, _, g, e) := Create v (loop v fuel) (From msg) (msg_Data msg) (gas st) (msg_Value msg) (st_evm st) in
      Done (ret, err, with_st_evm e (with_st_gas g st))
  | Some to =>
      let '(n, s) := StateDB.GetNonce (From msg) (sdb (st_evm st)) in
      let s := StateDB.SetNonce (From msg) (u64 (n + 1)) s in
      do! (ret, err, g, e) :=
        Call v (loop v fuel) (From msg) to (msg_Data msg) (gas st) (msg_Value msg) (with_sdb s (st_evm st)) in
      Done (ret, err, with_st_evm e (with_st_gas g st))
  end.

(** What is returned: an error of the transaction, or the output, the gas used
    and whether the execution failed. *)
Definition TransitionDb (st : StateTransition) : vmres ((coreerr + bytes * Z * bool) * StateTransition) :=
  let '(err, st) := preCheck st in
  match err with
  | Some e => Done (inl e, st)
  | None =>
      match IntrinsicGas (msg_Data msg) (bool_decide (To msg = None)) (IsHomestead (chainConfig v) (BlockNumber v)) with
      | inl e => Done (inl e, st)
      | inr g =>
          if gas st <? g then Done (inl (vm_error ErrOutOfGas), st)
          else
            do! (ret, vmerr, st) := run_message (with_st_gas (gas st - g) st) in
            if decide (vmerr = Some ErrInsufficientBalance) then Done (inl (vm_error ErrInsufficientBalance), st)
            else
              do! st := refundGas st in
              let fee := gasUsed st * msg_GasPrice msg in
              let st := with_st_sdb (StateDB.AddBalance (Coinbase v) fee (sdb (st_evm st))) st in
              Done (inr (ret, gasUsed st, bool_decide (vmerr <> None)), st)
      end
  end.

Definition ApplyMessage (gp : Z) (e : EVM) : vmres ((coreerr + bytes * Z * bool) * StateTransition) :=
  TransitionDb (mkTransition gp 0 0 e).
End with_message.

(** ** evm.go: the context of a transaction *)
Record Header := mkHeader { ParentHash : Z; header_Difficulty : Z; header_GasLimit : Z; header_Time : Z; Number : Z }.

(** The headers of a chain, by hash and number. *)
Definition headers : Type := Z -> Z -> option Header.

(** The walk from a header to its ancestors, on at most [steps] of them. *)
Fixpoint ancestor (chain : headers) (steps : nat) (hash number n : Z) : Z :=
  match steps with
  | O => 0
  | Datatypes.S steps =>
      match chain hash number with
      | None => 0
      | Some h =>
          let below := u64 (Uint64 (Number h) - 1) in
          if n =? below then ParentHash h else ancestor chain steps (ParentHash h) below n
      end
  end.

Definition GetHashFn (ref : Header) (chain : headers) (n : Z) : Z :=
  let below := u64 (Uint64 (Number ref) - 1) in
  if n =? below then ParentHash ref
  else ancestor chain (Datatypes.S (Z.to_nat (Number ref))) (ParentHash ref) below n.

(** [NewEVMContext]: the beneficiary is the zero address, whoever proposed. *)
Definition NewEVMContext (config : ChainConfig) (evmGasLimit : Z) (msg : Message) (h : Header) (chain : headers) : Env :=
  mkEnv config false false evmGasLimit (From msg) (msg_GasPrice msg) 0 (header_GasLimit h) (Number h) (header_Time h)
    (header_Difficulty h) (GetHashFn h chain).

(** ** state_processor.go *)
Section with_block.
Variables (config : ChainConfig) (evmGasLimit : Z) (fuel : nat) (header : Header) (chain : headers).

Definition tx_result : Type := coreerr + Receipts.Receipt.

(** The receipt of a transaction that was applied. *)
Definition make_receipt (msg : Message) (tx : txdata) (failed : bool) (used total : Z) (s : StateDB.StateDB) :
    vmres Receipts.Receipt :=
  let r := Receipts.NewReceipt [] failed total in
  do! txBytes := or_crash index_out_of_range (EncodeRLP tx) in
  let hash := Keccak256Hash (default [] txBytes) in
  do! contract := (match To msg with None => CreateAddress (From msg) (AccountNonce tx) | Some _ => Done 0 end) in
  let logs := StateDB.GetLogs hash s in
  let r := Receipts.mkReceipt (Receipts.PostState r) (Receipts.Status r) (Receipts.CumulativeGasUsed r) (Receipts.Bloom r)
             logs hash contract used in
  do! bloom := or_crash index_out_of_range (Receipts.CreateBloom [r]) in
  Done (Receipts.mkReceipt (Receipts.PostState r) (Receipts.Status r) (Receipts.CumulativeGasUsed r) bloom
          logs hash contract used).

Definition ApplyTransaction (gp : Z) (s : StateDB.StateDB) (tx : txdata) (usedGas : Z) : vmres (tx_result * StateDB.StateDB) :=
  match MakeSigner config with
  | None => Crash nil_dereference
  | Some signer =>
      do! m := or_crash index_out_of_range (AsMessage signer tx) in
      match m with
      | inl e => Done (inl (tx_error e), s)
      | inr msg =>
          let v := NewEVMContext config evmGasLimit msg header chain in
          do! e := NewEVM v s in
          do! (r, st) := ApplyMessage v fuel msg gp e in
          let s := sdb (st_evm st) in
          match r with
          | inl e => Done (inl e, s)
          | inr (_, used, failed) =>
              let s := StateDB.Finalise true s in
              do! receipt := make_receipt msg tx failed used (u64 (usedGas + used)) s in
              Done (inr receipt, s)
          end
      end
  end.

(** ** chain/app/evm/evm.go *)

(** The function [exec] of [genExecFun] *)
Definition exec (blockHash : Z) (txIndex : Z) (tx : txdata) (s : StateDB.StateDB) : vmres (tx_result * StateDB.StateDB) :=
  do! gp := AddGas (Uint64 (tt256 - 1)) 0 in
  do! txBytes := or_crash index_out_of_range (EncodeRLP tx) in
  match txBytes with
  | None => Done (inl not_encodable, s)
  | Some b =>
      let s := StateDB.Prepare (Keccak256Hash b) blockHash txIndex s in
      ApplyTransaction gp s tx 0
  end.

(** The application while a block is executed. *)
Record Progress := mkProgress {
  currentState : StateDB.StateDB; receipts : list Receipts.Receipt;
  ValidTxs : list bytes; InvalidTxs : list (bytes * coreerr)
}.

(** One transaction between [begin] and [end]: the snapshot, [exec] and [end]. *)
Definition finish (snapshot : Z) (raw : bytes) (r : tx_result) (s : StateDB.StateDB) (p : Progress) : vmres Progress :=
  match r with
  | inl e =>
      do! s := or_crash state_panic (StateDB.RevertToSnapshot snapshot s) in
      Done (mkProgress s (receipts p) (ValidTxs p) (InvalidTxs p ++ [(raw, e)]))
  | inr receipt => Done (mkProgress s (receipts p ++ [receipt]) (ValidTxs p ++ [raw]) (InvalidTxs p))
  end.

(** verifycpuserial.go: an empty transaction is valid, and nothing is executed. *)
Definition execTx (blockHash : Z) (index : Z) (raw : bytes) (p : Progress) : vmres Progress :=
  let '(snapshot, s) := StateDB.Snapshot (currentState p) in
  match raw with
  | [] => Done (mkProgress s (receipts p) (ValidTxs p ++ [raw]) (InvalidTxs p))
  | _ =>
      match TxCodec.DecodeTx raw with
      | inl e => finish snapshot raw (inl (rlp_error e)) s p
      | inr tx => do! (r, s) := exec blockHash index tx s in finish snapshot raw r s p
      end
  end.

Fixpoint exeWithCPUSerialVeirfy (blockHash : Z) (i : Z) (txs : list bytes) (p : Progress) : vmres Progress :=
  match txs with
  | [] => Done p
  | raw :: txs => do! p := execTx blockHash i raw p in exeWithCPUSerialVeirfy blockHash (i + 1) txs p
  end.
End with_block.

End with_crypto.

End Transition.
