(* ===== verification/TransitionSafe.v ===== *)
(** * What a transaction can do to the state

    [Finalise] keeps states sound, [TransitionDb] only changes the state through
    its journal, and a transaction that returns an error is undone. *)
From S2P Require Import Prelude Wire EthMath StateDB StateRevert StateSpec Rlp RlpDecode EvmBase Precompiles EthTx TxCodec Receipts Evm EvmLogic EvmToy EvmGas EvmInstr EvmCalls EvmSafe Transition.

Module TransitionSafe.
Import EthMath EvmBase Precompiles EthTx Evm Transition StateRevert StateSpec EvmLogic EvmInstr EvmCalls EvmSafe.

#[local] Infix "≈" := state_eq (at level 70).

Section with_laws.
Context `{HK : Keccak, HKL : !KeccakLaw, HN : Natives, HNL : !NativeLaws}.

(** ** [Finalise] *)
Definition sound (s : StateDB.StateDB) : Prop := live s /\ ledger_ok (abs s).

Lemma update_entries_nonneg (t o d : gmap Z Z) :
  (forall k, 0 <= default (default 0 (t !! k)) (o !! k)) -> map_Forall (fun _ w => 0 <= w) d ->
  let r := map_fold StateDB.update_entry (t, o) d in
  forall k, 0 <= default (default 0 (r.1 !! k)) (r.2 !! k).
Proof.
  intros Hto. apply (map_fold_weak_ind (fun r d => map_Forall (fun _ w => 0 <= w) d ->
    forall k, 0 <= default (default 0 (r.1 !! k)) (r.2 !! k))); [done|].
  intros key w m [t' o'] Hm IH Hd k. apply map_Forall_insert in Hd as [Hw Hd]; [|done]. specialize (IH Hd k).
  unfold StateDB.update_entry. destruct (w =? _); [done|]. cbn [fst snd] in *.
  destruct (decide (k = key)) as [->|Hne]; [by rewrite lookup_insert_eq|].
  rewrite lookup_insert_ne by done. by destruct (w =? 0); rewrite ?lookup_delete_ne, ?lookup_insert_ne by done.
Qed.

Lemma updateRoot_shape o :
  let r := map_fold StateDB.update_entry (trie_of o, StateDB.originStorage o) (StateDB.dirtyStorage o) in
  StateDB.updateRoot o =
    StateDB.mkObject (StateDB.address o)
      (StateDB.mkAccount (StateDB.Nonce (StateDB.data o)) (StateDB.Balance (StateDB.data o)) r.1 (StateDB.CodeHash (StateDB.data o)))
      (Some r.1) (StateDB.code o) r.2 ∅ (StateDB.dirtyCode o) (StateDB.suicided o) (StateDB.deleted o).
Proof.
  unfold StateDB.updateRoot, StateDB.updateTrie, StateDB.getTrie, trie_of.
  destruct (StateDB.storage_trie o); simpl; by destruct (map_fold _ _ _).
Qed.

Lemma updateRoot_ok cs o : account_ok (view cs o) -> account_ok (view cs (StateDB.updateRoot o)).
Proof.
  intros [Hb Hn Hh Hc Hs Hsv]. simpl in *.
  pose proof (update_entries_nonneg (trie_of o) (StateDB.originStorage o) (StateDB.dirtyStorage o) Hsv) as Hu.
  assert (map_Forall (fun _ w => 0 <= w) (StateDB.dirtyStorage o)) as Hd.
  { intros k' w Hw. specialize (Hs k'). unfold current in Hs. by rewrite Hw in Hs. }
  specialize (Hu Hd). cbv zeta in Hu. pose proof (updateRoot_shape o) as E. cbv zeta in E. rewrite E.
  split; try done; simpl; intros k; unfold current, committed, trie_of; simpl; rewrite ?lookup_empty; apply Hu.
Qed.

Lemma finalise_object_sound a s : sound s -> sound (StateDB.finalise_object true a s).
Proof.
  intros [[Hobj Hsz] Hl]. unfold StateDB.finalise_object.
  destruct (StateDB.stateObjects s !! a) as [o|] eqn:Eo; [|done]. destruct (Hobj a o Eo) as [Ea Hdel].
  destruct (StateDB.suicided o || (true && StateDB.empty o)) eqn:Ed; cbn [andb] in Ed.
  - split; [split; [|done]|].
    + intros b o'. simpl. rewrite Ea. destruct (decide (b = a)) as [->|Hne].
      * rewrite lookup_insert_eq. intros [= <-]. split; [done|]. intros _. by rewrite lookup_delete_eq.
      * rewrite lookup_insert_ne, lookup_delete_ne by done. apply Hobj.
    + intros b x. unfold abs, peek. simpl. rewrite Ea. destruct (decide (b = a)) as [->|Hne]; [by rewrite lookup_insert_eq|].
      rewrite lookup_insert_ne, lookup_delete_ne by done. apply (Hl b x).
  - assert (StateDB.deleted o = false) as Ef by (destruct (StateDB.deleted o); [destruct Hdel; congruence|done]).
    pose proof (updateRoot_shape o) as E. cbv zeta in E.
    assert (StateDB.address (StateDB.updateRoot o) = a /\ StateDB.deleted (StateDB.updateRoot o) = false) as [Ea' Ef']
      by (by rewrite E).
    pose proof (updateRoot_ok (StateDB.codes s) o) as Hok. clear E.
    generalize dependent (StateDB.updateRoot o). intros o2 Ea' Ef' Hok. split; [split; [|done]|].
    + intros b o'. simpl. rewrite Ea'. destruct (decide (b = a)) as [->|Hne].
      * rewrite lookup_insert_eq. intros [= <-]. split; [done|]. congruence.
      * rewrite !lookup_insert_ne by done. apply Hobj.
    + intros b x. unfold abs, peek. simpl. rewrite Ea'. destruct (decide (b = a)) as [->|Hne].
      * rewrite lookup_insert_eq, Ef'. intros [= <-]. apply Hok. apply (Hl a). unfold abs, peek. by rewrite Eo, Ef.
      * rewrite !lookup_insert_ne by done. apply (Hl b x).
Qed.

Lemma Finalise_ok s : state_ok s -> state_ok (StateDB.Finalise true s).
Proof.
  intros [[Hlive _ _ _] Hl].
  assert (forall l, sound (foldr (StateDB.finalise_object true) s l)) as Hf.
  { intros l. induction l as [|a l IH]; [by split|]. by apply finalise_object_sound. }
  specialize (Hf (elements (dom (StateDB.dirties s)))). destruct Hf as [[Ho Hs] Hl'].
  split; [split; [by split| | |]; constructor|done].
Qed.

(** ** [Prepare] *)
Lemma Prepare_ok th bh ti s : state_ok s -> state_ok (StateDB.Prepare th bh ti s).
Proof. intros [[[Ho Hs] He Hso Hr] Hl]. split; [split; try done|done]. Qed.

Lemma Prepare_Snapshot th bh ti s :
  StateDB.Snapshot (StateDB.Prepare th bh ti s) = ((StateDB.Snapshot s).1, StateDB.Prepare th bh ti (StateDB.Snapshot s).2).
Proof. done. Qed.

(** ** State transitions *)

(** Outcomes of a transaction: it ends, and the node crashes in two ways at most. *)
Definition ends {A} (P : A -> Prop) (m : vmres A) : Prop :=
  match m with Done a => P a | Crash c => c = admin_input \/ c = gas_pool_overflow | Starved => False end.

Lemma ends_bind {A B} (P : A -> Prop) (Q : B -> Prop) m k :
  ends P m -> (forall a, P a -> ends Q (k a)) -> ends Q (vbind m k).
Proof. destruct m; simpl; auto. Qed.
Lemma safe_ends {A} (P : A -> Prop) m : safe P m -> ends P m.
Proof. destruct m; simpl; auto. Qed.
Lemma ends_mono {A} (P Q : A -> Prop) m : ends P m -> (forall a, P a -> Q a) -> ends Q m.
Proof. destruct m; simpl; auto. Qed.

Record msg_ok (m : Message) : Prop := {
  mo_from : 0 <= From m;
  mo_to : match To m with Some a => 0 <= a | None => True end;
  mo_value : 0 <= msg_Value m;
  mo_gas : 0 <= msg_Gas m;
  mo_price : 0 <= msg_GasPrice m;
  mo_data : Forall is_byte (msg_Data m);
  mo_length : len (msg_Data m) < 2 ^ 62
}.

(** A transition that started in the state [s] with the gas [g] left to the machine. *)
Record under_way (s : StateDB.StateDB) (g : Z) (st : StateTransition) : Prop := {
  uw_moves : moves s g (st_evm st);
  uw_gas : 0 <= gas st
}.

Lemma under_way_sdb s g st s' : under_way s g st -> evolves (sdb (st_evm st)) s' -> under_way s g (with_st_sdb s' st).
Proof. intros [Hm Hg] He. split; [by apply moves_sdb|done]. Qed.

Section with_message.
Variables (v : Env) (fuel : nat) (msg : Message).
Hypotheses (Hv : env_ok v) (Hmsg : msg_ok msg).

Lemma buyGas_under_way s g st : under_way s g st -> under_way s g (buyGas msg st).2.
Proof.
  intros Hu. pose proof (vo_state _ (mv_ok _ _ _ (uw_moves _ _ _ Hu))) as Hs. unfold buyGas.
  destruct (GetBalance_spec (From msg) (sdb (st_evm st))) as (s' & E & Hsi); [by apply state_ok_live|]. rewrite E.
  assert (under_way s g (with_st_sdb s' st)) as Hu' by (apply under_way_sdb; [done|by apply evolves_silent]).
  destruct (Z.ltb_spec (from 0 balance (abs (sdb (st_evm st))) (From msg)) (msg_Gas msg * msg_GasPrice msg)); [done|].
  unfold SubGas. destruct (_ <? _); [done|].
  set (st2 := mkTransition _ _ _ _). assert (under_way s g st2) as Hu2 by (destruct Hu'; split; [done|apply u64_nonneg]).
  apply under_way_sdb; [done|]. simpl. apply SubBalance_evolves; [apply (mv_ok _ _ _ (uw_moves _ _ _ Hu'))|].
  change (from 0 balance (abs s') (From msg)) with (bal s' (From msg)). by rewrite (bal_silent _ _ _ Hsi).
Qed.

Lemma preCheck_under_way s g st : under_way s g st -> under_way s g (preCheck msg st).2.
Proof.
  intros Hu. unfold preCheck. destruct (CheckNonce msg); [|by apply buyGas_under_way].
  destruct (asks_nonce (From msg) (sdb (st_evm st))) as [_ Hev]; [apply (mv_ok _ _ _ (uw_moves _ _ _ Hu))|].
  destruct (StateDB.GetNonce _ _) as [n s']. simpl in Hev.
  assert (under_way s g (with_st_sdb s' st)) as Hu' by (by apply under_way_sdb).
  destruct (_ <? _); [done|]. destruct (_ >? _); [done|]. by apply buyGas_under_way.
Qed.

Lemma refundGas_under_way s g st : under_way s g st -> ends (under_way s g) (refundGas msg st).
Proof.
  intros Hu. unfold refundGas. set (r := if _ >? _ then _ else _).
  assert (under_way s g (with_st_gas (u64 (gas st + r)) st)) as Hu2 by (destruct Hu; split; [done|apply u64_nonneg]).
  set (st2 := with_st_gas _ _) in *. set (st3 := with_st_sdb _ _).
  assert (under_way s g st3) as Hu3.
  { apply under_way_sdb; [done|]. apply AddBalance_evolves; [apply (mv_ok _ _ _ (uw_moves _ _ _ Hu2))|].
    destruct Hu2, Hmsg. by apply Z.mul_nonneg_nonneg. }
  clearbody r. unfold AddGas. destruct (_ >? _); simpl; [by right|]. by destruct Hu3.
Qed.

Lemma run_message_under_way s g st : under_way s g st -> g < Z.of_nat fuel ->
  ends (fun r => under_way s g r.2) (run_message v fuel msg st).
Proof.
  intros [[Hok Hev Hg] Hgas] Hf. destruct Hmsg. unfold run_message. destruct (To msg) as [to|].
  - destruct (asks_nonce (From msg) (sdb (st_evm st))) as [Hn Hev1]; [apply Hok|].
    destruct (StateDB.GetNonce _ _) as [n s']. simpl in Hn, Hev1.
    set (s2 := StateDB.SetNonce _ _ _).
    assert (evolves (sdb (st_evm st)) s2) as Hev2.
    { eapply ev_trans; [exact Hev1|]. apply SetNonce_evolves; [apply Hev1|apply u64_range]. }
    eapply ends_bind; [apply safe_ends, (Call_safe v _ _ (loop_safe v Hv fuel)); try done; [by apply evm_sdb|simpl; lia]|].
    intros [[[ret err] rest] e'] (_ & Hrest & [Hm1 Hm2 Hm3] & _). split; [|done].
    split; [done| |simpl in *; lia]. eapply ev_trans; [exact Hev|]. by eapply ev_trans.
  - eapply ends_bind; [apply safe_ends, (Create_safe v _ _ (loop_safe v Hv fuel)); try done; lia|].
    intros [[[[ret err] addr] rest] e'] (_ & _ & Hrest & [Hm1 Hm2 Hm3]). split; [|done].
    split; [done| |simpl in *; lia]. by eapply ev_trans.
Qed.

Lemma TransitionDb_under_way s g st : under_way s g st -> g < Z.of_nat fuel ->
  ends (fun r => under_way s g r.2) (TransitionDb v fuel msg st).
Proof.
  intros Hu Hf. unfold TransitionDb. pose proof (preCheck_under_way s g st Hu) as Hp.
  destruct (preCheck msg st) as [[e|] st1]; [done|]. simpl in Hp.
  destruct (IntrinsicGas _ _ _) as [e|ig]; [done|]. destruct (Z.ltb_spec (gas st1) ig); [done|].
  eapply ends_bind; [apply (run_message_under_way s g); [|done]|].
  { destruct Hp. split; [done|]. simpl. lia. }
  intros [[ret vmerr] st2] Hu2. simpl in Hu2. destruct (decide _); [done|].
  eapply ends_bind; [by apply refundGas_under_way|]. intros st3 Hu3. simpl.
  apply under_way_sdb; [done|]. apply AddBalance_evolves; [apply (mv_ok _ _ _ (uw_moves _ _ _ Hu3))|].
  apply Z.mul_nonneg_nonneg; [apply u64_nonneg|apply Hmsg].
Qed.
End with_message.

(** ** Transactions from the wire *)
Record tx_sane (tx : txdata) : Prop := {
  ts_ok : TxCodec.tx_ok tx;
  ts_payload : Forall is_byte (Payload tx);
  ts_small : len (concat (map Rlp.enc (TxCodec.fields_with (address_value (Recipient tx)) tx))) < 2 ^ 62
}.

Lemma DecodeTx_sane raw tx : Forall is_byte raw -> len raw < 2 ^ 62 -> TxCodec.DecodeTx raw = inr tx -> tx_sane tx.
Proof.
  intros Hf Hl Hd. apply TxCodec.DecodeTx_iff in Hd as (out & (Hok & rcp & Hr & ->) & ->); [|done|lia].
  pose proof (TxCodec.tx_value_length _ _ Hr) as Hlen. rewrite TxCodec.enc_list_head in *.
  apply Forall_app in Hf as [_ Hf]. rewrite length_app in Hl. split; [done| |cbv beta in *; lia].
  revert Hf. unfold TxCodec.fields_with. cbn [map concat]. rewrite !Forall_app. intros (_ & _ & _ & _ & _ & Hp & _).
  by apply TxCodec.bytes_of_string.
Qed.

Section with_tx.
Variable tx : txdata.
Hypothesis Htx : tx_sane tx.

Lemma EncodeRLP_sane : exists b, EncodeRLP tx = Ok (Some b).
Proof.
  destruct Htx as [Hok _ Hs]. eexists. apply Rlp.EncodeToBytes_spec; [by apply TxCodec.encodable_tx|].
  change (Rlp.enc (tx_value tx)) with (Rlp.enc_list (concat (map Rlp.enc (TxCodec.fields_with (address_value (Recipient tx)) tx)))).
  cbv beta in Hs. pose proof (Rlp.enc_list_le (concat (map Rlp.enc (TxCodec.fields_with (address_value (Recipient tx)) tx)))). lia.
Qed.

Lemma unsigned_length : len (concat (map Rlp.enc (unsigned_fields tx))) < 2 ^ 62.
Proof.
  destruct Htx as [_ _ Hs]. unfold TxCodec.fields_with, unsigned_fields in *. cbn [map concat] in *.
  rewrite !length_app in *. lia.
Qed.

Lemma payload_length : len (Payload tx) < 2 ^ 62.
Proof.
  destruct Htx as [_ _ Hs]. unfold TxCodec.fields_with in Hs. cbn [map concat] in Hs. rewrite !length_app in Hs.
  assert (length (Payload tx) <= length (Rlp.enc (Rlp.VBytes (Payload tx))))%nat.
  { cbn [Rlp.enc]. unfold Rlp.enc_string. destruct (Rlp.single (Payload tx)); rewrite ?length_app; lia. }
  lia.
Qed.

Lemma signer_Hash_total : exists h, signer_Hash HomesteadSigner tx = Ok h.
Proof.
  unfold signer_Hash, rlpHash. rewrite Rlp.EncodeToBytes_spec; [by eexists| |].
  - pose proof (TxCodec.encodable_tx tx (ts_ok _ Htx)) as He. unfold tx_value in He. cbn [Rlp.encodable] in *.
    rewrite forallb_app in He. by apply andb_true_iff in He as [? _].
  - cbn [Rlp.enc]. pose proof unsigned_length. pose proof (Rlp.enc_list_le (concat (map Rlp.enc (unsigned_fields tx)))). lia.
Qed.

Lemma Bytes_length_32 x : 0 <= x < 2 ^ 256 -> (length (Bytes x) <= 32)%nat.
Proof.
  intros Hx. unfold Bytes. rewrite Wire.be_bytes_length. assert (BitLen x <= 256) by (apply BitLen_le; lia).
  assert ((BitLen x + 7) / 8 < 33) by (apply Z.div_lt_upper_bound; lia). lia.
Qed.

Lemma recoverPlain_total h r s vb hs : exists o, recoverPlain h r s vb hs = Ok o /\ forall a, o = inr a -> 0 <= a.
Proof.
  unfold recoverPlain. destruct (_ >? _); [by eexists|]. set (w := u8 _).
  destruct (ValidateSignatureValues w r s hs) eqn:Ev; [|by eexists]. cbn [negb].
  assert (0 <= r < 2 ^ 256 /\ 0 <= s < 2 ^ 256) as [Hr Hs].
  { unfold ValidateSignatureValues in Ev. assert (secp256k1N < 2 ^ 256) by done.
    destruct (Z.ltb_spec r 1), (Z.ltb_spec s 1); try done. cbn [orb] in Ev. destruct (_ && _); [done|].
    destruct (Z.ltb_spec r secp256k1N), (Z.ltb_spec s secp256k1N); try done. lia. }
  unfold put_at. rewrite !(proj2 (Z.ltb_ge _ 0)) by (pose proof (Bytes_length_32 _ Hr); pose proof (Bytes_length_32 _ Hs); lia).
  cbn [rbind]. destruct (crypto_Ecrecover _ _) as [pub|]; [|by eexists].
  assert (forall key, 0 <= be_val (drop 12 (Keccak256 key))) as Hk.
  { intros key. apply be_val_bound. apply Forall_drop. apply Wire.be_bytes_byte. }
  destruct pub as [|x key]; [by eexists|].
  destruct (decide (x = 4)) as [->|Hne]; [eexists; split; [done|]; intros a [= <-]; apply Hk|].
  assert (forall A (p q : A), match x with 4 => p | _ => q end = q) as E4.
  { intros A p q. destruct x as [|[[|[]|]|[|[]|]|]|]; try done. }
  exists (inl ErrInvalidPublicKey). split; [|done]. apply E4.
Qed.

Lemma AsMessage_sane : exists o, AsMessage HomesteadSigner tx = Ok o /\ forall m, o = inr m -> msg_ok m.
Proof.
  unfold AsMessage, Sender. destruct signer_Hash_total as (h & ->). cbn [rbind].
  destruct (recoverPlain_total h (R tx) (S tx) (V tx) true) as ([e|a] & -> & Ha); cbn [rbind]; [by eexists|].
  eexists. split; [done|]. intros m [= <-]. destruct Htx as [[] Hp _]. split; simpl; try done; [by apply Ha| |lia|apply payload_length].
  destruct (Recipient tx); [lia|done].
Qed.

End with_tx.

(** ** Blocks *)
Record block_ok (config : ChainConfig) (limit : Z) (fuel : nat) (header : Header) (chain : headers) : Prop := {
  bo_homestead : HomesteadBlock config <> None;
  bo_constantinople : IsConstantinople config (Number header) = false;
  bo_ewasm : IsEWASM config (Number header) = false;
  bo_parent : 0 <= ParentHash header;
  bo_chain : forall h n x, chain h n = Some x -> 0 <= ParentHash x;
  bo_limit : 0 <= limit < 2 ^ 60;
  bo_fuel : limit < Z.of_nat fuel
}.

Lemma ancestor_nonneg chain steps hash number n : (forall h n x, chain h n = Some x -> 0 <= ParentHash x) ->
  0 <= ancestor chain steps hash number n.
Proof.
  intros Hc. revert hash number. induction steps as [|k IH]; intros hash number; simpl; [done|].
  destruct (chain hash number) as [h|] eqn:E; [|done]. destruct (_ =? _); [by eapply Hc|apply IH].
Qed.

Section with_block.
Variables (config : ChainConfig) (limit : Z) (fuel : nat) (header : Header) (chain : headers).
Hypothesis Hb : block_ok config limit fuel header chain.

Lemma context_ok msg : msg_ok msg -> env_ok (NewEVMContext config limit msg header chain).
Proof.
  intros []. destruct Hb. split; try done. simpl. intros n. unfold GetHashFn.
  destruct (_ =? _); [done|by apply ancestor_nonneg].
Qed.

Lemma make_receipt_ends msg tx failed used total s : tx_sane tx -> ends (fun _ => True) (make_receipt msg tx failed used total s).
Proof.
  intros Htx. unfold make_receipt. destruct (EncodeRLP_sane tx Htx) as (b & ->). cbn [or_crash vbind].
  eapply (ends_bind (fun _ => True)).
  - destruct (To msg); [done|]. eapply ends_mono; [apply safe_ends, CreateAddress_safe|done].
    destruct Htx as [[] _ _]. unfold is_u64. lia.
  - intros c _. destruct (Receipts.CreateBloom_spec [Receipts.mkReceipt [] (Receipts.Status (Receipts.NewReceipt [] failed total))
      total (replicate 256 0) (StateDB.GetLogs (Keccak256Hash (default [] (Some b))) s)
      (Keccak256Hash (default [] (Some b))) c used]) as (bl & E & _).
    simpl in *. rewrite E. done.
Qed.

(** What a transaction leaves: a state that can be brought back, or a sound one. *)
Definition applied (s : StateDB.StateDB) (r : tx_result * StateDB.StateDB) : Prop :=
  match r.1 with inl _ => evolves s r.2 | inr _ => state_ok r.2 end.

Lemma ApplyTransaction_ends gp s tx used : tx_sane tx -> state_ok s ->
  ends (applied s) (ApplyTransaction config limit fuel header chain gp s tx used).
Proof.
  intros Htx Hs. unfold ApplyTransaction, MakeSigner. destruct Hb.
  destruct (HomesteadBlock config) as [hb|]; [|done].
  destruct (AsMessage_sane tx Htx) as ([e|msg] & -> & Hm); cbn [or_crash vbind]; [by apply evolves_refl|].
  specialize (Hm msg eq_refl). pose proof (context_ok msg Hm) as Hv. unfold NewEVM. simpl IsEWASM. rewrite bo_ewasm0.
  cbn [vbind]. eapply ends_bind.
  - apply (TransitionDb_under_way _ fuel msg Hv Hm s limit); [|done]. split; [|done]. split; simpl; [by split|by apply evolves_refl|lia].
  - intros [[e|[[ret u] failed]] st] [[Hok Hev _] _]; cbn [fst snd] in *; [done|].
    eapply ends_bind; [by apply make_receipt_ends|]. intros r _. apply Finalise_ok. apply Hok.
Qed.

Lemma AddGas_max : AddGas (Uint64 (tt256 - 1)) 0 = Done MaxUint64.
Proof. vm_compute. reflexivity. Qed.

Lemma exec_ends bh i s tx : tx_sane tx -> state_ok s ->
  ends (fun r => exists th, applied (StateDB.Prepare th bh i s) r) (Transition.exec config limit fuel header chain bh i tx s).
Proof.
  intros Htx Hs. unfold Transition.exec. rewrite AddGas_max. cbn [vbind]. destruct (EncodeRLP_sane tx Htx) as (b & ->). cbn [or_crash vbind].
  eapply ends_mono; [by apply ApplyTransaction_ends, Prepare_ok|]. intros r Hr. by eexists.
Qed.

(** The block after one more transaction: it is counted as valid or invalid;
    if it is invalid, everything but the markers of the transaction is as before. *)
Definition one_more (raw : bytes) (p p' : Progress) : Prop :=
  state_ok (currentState p') /\
  ((ValidTxs p' = ValidTxs p ++ [raw] /\ InvalidTxs p' = InvalidTxs p) \/
   (exists e, ValidTxs p' = ValidTxs p /\ InvalidTxs p' = InvalidTxs p ++ [(raw, e)] /\ receipts p' = receipts p /\
      exists th bh ti, currentState p' ≈ StateDB.Prepare th bh ti (currentState p))).

Lemma finish_ends raw p r s th bh ti : state_ok (currentState p) ->
  applied (StateDB.Prepare th bh ti (StateDB.Snapshot (currentState p)).2) (r, s) ->
  ends (one_more raw p) (finish (StateDB.Snapshot (currentState p)).1 raw r s p).
Proof.
  intros Hs Ha. unfold finish. destruct r as [e|receipt]; unfold applied in Ha; cbn [fst snd] in Ha.
  - pose proof (Prepare_ok th bh ti _ Hs) as Hp. pose proof (Prepare_Snapshot th bh ti (currentState p)) as Esn.
    destruct (revert_evolves (StateDB.Prepare th bh ti (currentState p)) s Hp) as (s3 & E & Heq & Hev).
    { by rewrite Esn. }
    rewrite Esn in E. cbn [fst snd] in E. rewrite E. cbn [or_crash vbind]. split; [apply Hev|]. right. exists e. split_and!; try done.
    by exists th, bh, ti.
  - split; [done|]. by left.
Qed.

Lemma Prepare_self s : StateDB.Prepare (StateDB.thash s) (StateDB.bhash s) (StateDB.txIndex s) s = s.
Proof. by destruct s. Qed.

Lemma execTx_ends bh i raw p : Forall is_byte raw -> len raw < 2 ^ 62 -> state_ok (currentState p) ->
  ends (one_more raw p) (execTx config limit fuel header chain bh i raw p).
Proof.
  intros Hf Hl Hs. unfold execTx. pose proof (Snapshot_ok _ Hs) as Hs1.
  destruct (StateDB.Snapshot (currentState p)) as [snapshot s1] eqn:Esn. simpl in Hs1.
  destruct raw as [|x raw]; [split; [done|by left]|]. destruct (TxCodec.DecodeTx _) as [e|tx] eqn:Ed.
  - pose proof (finish_ends (x :: raw) p (inl (rlp_error e)) s1 (StateDB.thash s1) (StateDB.bhash s1) (StateDB.txIndex s1) Hs) as H.
    rewrite Esn in H. apply H. cbn [fst snd]. rewrite Prepare_self. by apply evolves_refl.
  - apply DecodeTx_sane in Ed as Htx; [|done|done]. eapply ends_bind; [by apply exec_ends|].
    intros [r s] (th & Ha). pose proof (finish_ends (x :: raw) p r s th bh i Hs) as H. rewrite Esn in H. by apply H.
Qed.

Definition raw_ok (raw : bytes) : Prop := Forall is_byte raw /\ len raw < 2 ^ 62.

Lemma block_progress bh txs i p : Forall raw_ok txs -> state_ok (currentState p) ->
  ends (fun p' => state_ok (currentState p') /\
    (length (ValidTxs p') + length (InvalidTxs p') = length (ValidTxs p) + length (InvalidTxs p) + length txs)%nat)
    (exeWithCPUSerialVeirfy config limit fuel header chain bh i txs p).
Proof.
  intros Hraw. revert i p. induction Hraw as [|raw txs [Hf Hl] _ IH]; intros i p Hs; simpl; [by split; [|lia]|].
  eapply ends_bind; [by apply execTx_ends|]. intros p1 [Hs1 Hone].
  eapply ends_mono; [by apply IH|]. intros p2 [Hs2 E]. split; [done|]. rewrite E.
  destruct Hone as [[-> ->]|(e & -> & -> & _)]; rewrite length_app; simpl; lia.
Qed.


(** C11: a transaction that ends up among the invalid ones leaves no trace: all
    accounts, the refund counter, the logs and the preimages are as before it,
    only the hashes and the index that mark the current transaction may differ;
    and it has no receipt. *)
Theorem invalid_tx_undone bh i raw p p' : raw_ok raw -> state_ok (currentState p) ->
  execTx config limit fuel header chain bh i raw p = Done p' -> InvalidTxs p' <> InvalidTxs p ->
  receipts p' = receipts p /\ ValidTxs p' = ValidTxs p /\
  exists th bh' ti, currentState p' ≈ StateDB.Prepare th bh' ti (currentState p).
Proof.
  intros [Hf Hl] Hs E Hne. pose proof (execTx_ends bh i raw p Hf Hl Hs) as H. rewrite E in H.
  destruct H as [_ [[_ ?]|(e & H1 & _ & H2 & H3)]]; [done|auto].
Qed.
End with_block.

End with_laws.

(** ** Runs *)
Import EvmToy.
#[local] Existing Instances toy_keccak toy_natives toy_keccak_law toy_native_laws.

Definition toy_header : Header := mkHeader 9 0 MaxUint64 6 5.
Definition no_headers : headers := fun _ _ => None.
Definition toy_limit : Z := 200000.
Definition toy_fuel : nat := Z.to_nat 200001.

Lemma toy_block_ok : block_ok MainnetChainConfig toy_limit toy_fuel toy_header no_headers.
Proof. split; [done|done|done|done|done|done|]. unfold toy_fuel, toy_limit. rewrite Z2Nat.id; lia. Qed.

Definition toy_progress (code : bytes) : Progress := mkProgress (toy_db code) [] [] [].

(** A transaction of account 1 that calls an account. *)
Definition toy_call (to nonce gas value : Z) (data : bytes) : bytes :=
  Rlp.enc (tx_value (mkTx nonce 0 gas (Some to) value data 27 1 1)).

(** [PUSH1 0; PUSH1 3; SSTORE] *)
Definition clear_slot : bytes := [0x60; 0; 0x60; 3; 0x55].

(** A good transaction, garbage, nothing, and the first transaction again. *)
Definition toy_txs : list bytes := [toy_call 77 0 30000 10 []; [1; 2]; []; toy_call 77 0 30000 10 []].

Lemma toy_raw_ok : Forall raw_ok toy_txs.
Proof. apply (bool_decide_unpack _). vm_compute. exact Logic.I. Qed.


Lemma invalid_tx_undone_witness :
  exists p', execTx MainnetChainConfig toy_limit toy_fuel toy_header no_headers 11 0 (toy_call 77 5 30000 10 [])
      (toy_progress clear_slot) = Done p' /\ receipts p' = [] /\
    exists th bh ti, currentState p' ≈ StateDB.Prepare th bh ti (toy_db clear_slot).
Proof.
  destruct (execTx MainnetChainConfig toy_limit toy_fuel toy_header no_headers 11 0 (toy_call 77 5 30000 10 [])
    (toy_progress clear_slot)) as [p'| |] eqn:E; [|exfalso; revert E; vm_compute; discriminate..].
  exists p'. split; [done|].
  destruct (invalid_tx_undone _ _ _ _ _ toy_block_ok 11 0 (toy_call 77 5 30000 10 []) (toy_progress clear_slot) p')
    as (H1 & _ & H3); [..|exact E| |by split].
  - clear E. apply (bool_decide_unpack _). vm_compute. exact Logic.I.
  - clear E. apply toy_db_ok. unfold clear_slot. repeat apply Forall_cons_2; try done.
  - assert (InvalidTxs <$> (match execTx MainnetChainConfig toy_limit toy_fuel toy_header no_headers 11 0 (toy_call 77 5 30000 10 [])
      (toy_progress clear_slot) with Done p => Some p | _ => None end) = Some [(toy_call 77 5 30000 10 [], ErrNonceTooHigh)]) as Ei
      by (vm_compute; reflexivity).
    rewrite E in Ei. injection Ei as ->. done.
Defined.

(** ** Transactions that crash a node *)

(** Ten calls that send one unit each: [CALL] hands every callee the stipend of
    2300 on top of gas that was never taken from the caller, and the caller gets
    back what the callee did not use. *)
Definition ten_calls : bytes :=
  concat (replicate 10 [0x60; 0; 0x60; 0; 0x60; 0; 0x60; 0; 0x60; 1; 0x60; 99; 0x60; 0; 0xf1; 0x50]).


End TransitionSafe.
