(* ===== verification/ParallelVerify.v ===== *)
(** * Verifying the signatures of a block in parallel

    chain/app/evm/verifycpuparallel.go: one goroutine decodes the transactions,
    several check signatures, and the caller executes them in order, all of them
    meeting in the entries of a queue.  A turn of a goroutine goes up to its next
    access of a field another one uses; the goroutines take turns in any order.
    [quit] is nil at the only call, so that [exit] stays zero. *)
From S2P Require Import Prelude EthMath StateDB Rlp RlpDecode EvmBase Precompiles EthTx TxCodec Receipts Evm Transition.

Module ParallelVerify.
Import EvmBase Precompiles EthTx Transition.

(** ** The queue *)
Inductive Status := appTxStatusNone | appTxStatusInit | appTxStatusChecking | appTxStatusChecked | appTxStatusFailed.

Record appTx := mkAppTx {
  rawbytes : bytes; oribys : bytes; atx : option txdata; ready : bool; status : Status; err : option coreerr
}.

(** [makeTxQueue]: a [Tx] has size one, and each row of the queue one entry. *)
Definition makeTxQueue (txs : list bytes) : list appTx :=
  map (fun _ => mkAppTx [] [] None false appTxStatusNone None) txs.

Definition set_status (st : Status) (t : appTx) : appTx := mkAppTx (rawbytes t) (oribys t) (atx t) (ready t) st (err t).
Definition set_err (e : option coreerr) (t : appTx) : appTx := mkAppTx (rawbytes t) (oribys t) (atx t) (ready t) (status t) e.
Definition set_oribys (b : bytes) (t : appTx) : appTx := mkAppTx (rawbytes t) b (atx t) (ready t) (status t) (err t).
Definition ready_Done (t : appTx) : appTx := mkAppTx (rawbytes t) (oribys t) (atx t) false (status t) (err t).

Definition ready_Add (t : appTx) : appTx := mkAppTx (rawbytes t) (oribys t) (atx t) true (status t) (err t).

(** [txQueue] from its decoding to the store of the status.  What a failed
    decoding leaves in [tx] is not looked at. *)
Definition txQueue (raw : bytes) (t : appTx) : appTx :=
  match raw with
  | [] => mkAppTx raw (oribys t) (atx t) (ready t) appTxStatusInit (err t)
  | _ =>
      match TxCodec.DecodeTx raw with
      | inl e => mkAppTx raw (oribys t) (Some (mkTx 0 0 0 None 0 [] 0 0 0)) (ready t) appTxStatusInit (Some (rlp_error e))
      | inr tx => mkAppTx raw (oribys t) (Some tx) (ready t) appTxStatusInit (err t)
      end
  end.

(** ** Goroutines *)

(** The initialiser in [txQueue]: before [Add], before the store of the status,
    and before that of [oribys]. *)
Inductive iphase := IAdd | IStore | IOri.

(** A validator in [tryValidate]: before the swap, after it, between the store
    of the status and that of the error, and at the deferred [Done] (with
    whether it goes on to the next entry). *)
Inductive vphase := Look | Swap | Swapped | Report (e : coreerr) | Finish (next : bool).

(** The executor: looking at the status, in [Wait], about to read the error of
    a failed entry, and about to call [end]. *)
Inductive ephase (C : Type) :=
| ELook (begun : option C)
| EWait (begun : C)
| EFailed (begun : C)
| EEnd (begun : C) (e : option coreerr).
Arguments ELook {C} begun.
Arguments EWait {C} begun.
Arguments EFailed {C} begun.
Arguments EEnd {C} begun e.

Section with_crypto.
Context `{HK : Keccak, HN : Natives}.

(** The parameters of the function: the signer and [beginExec], whose closures
    [exec] and [end] share what [begin] captured. *)
Variables (signer : Signer) (A C : Type).
Variables (beginExec : A -> C * A) (exec : nat -> bytes -> option txdata -> C -> A -> vmres (option coreerr * C * A)).
Variable end_ : bytes -> option coreerr -> C -> A -> vmres (bool * A).
Variable txs : list bytes.

Record world := mkWorld {
  queue : list appTx;
  init : nat * iphase;
  validators : list (nat * vphase);
  executor : nat * ephase C;
  app : A;
  dead : option crash
}.

Definition start (count : nat) (a : A) : world :=
  mkWorld (makeTxQueue txs) (0%nat, IAdd) (replicate count (0%nat, Look)) (0%nat, ELook None) a None.

Definition with_slot (i : nat) (f : appTx -> appTx) (w : world) : world :=
  mkWorld (alter f i (queue w)) (init w) (validators w) (executor w) (app w) (dead w).
Definition with_init (p : nat * iphase) (w : world) : world :=
  mkWorld (queue w) p (validators w) (executor w) (app w) (dead w).
Definition with_validator (k : nat) (p : nat * vphase) (w : world) : world :=
  mkWorld (queue w) (init w) (<[k := p]> (validators w)) (executor w) (app w) (dead w).
Definition with_executor (p : nat * ephase C) (a : A) (w : world) : world :=
  mkWorld (queue w) (init w) (validators w) p a (dead w).
Definition with_dead (c : crash) (w : world) : world :=
  mkWorld (queue w) (init w) (validators w) (executor w) (app w) (Some c).

Definition initTxQueue (w : world) : option world :=
  let '(i, ph) := init w in
  raw ← txs !! i;
  Some (match ph with
        | IAdd => with_init (i, IStore) (with_slot i ready_Add w)
        | IStore => with_init (i, IOri) (with_slot i (txQueue raw) w)
        | IOri => with_init (Datatypes.S i, IAdd) (with_slot i (set_oribys raw) w)
        end).

(** [tryValidate] once the swap has succeeded, up to its store of the status. *)
Definition check (t : appTx) : res (Status * vphase) :=
  match err t with
  | Some _ => Ok (appTxStatusFailed, Finish false)
  | None =>
      match atx t with
      | None => Ok (appTxStatusChecked, Finish false)
      | Some tx =>
          let! r := Sender signer tx in
          Ok (match r with
              | inl e => (appTxStatusFailed, Report (tx_error e))
              | inr _ => (appTxStatusChecked, Finish false)
              end)
      end
  end.

Definition validateRoutine (k : nat) (w : world) : option world :=
  '(i, ph) ← validators w !! k;
  t ← queue w !! i;
  match ph with
  | Look =>
      Some (match status t with
            | appTxStatusNone => w
            | appTxStatusInit => with_validator k (i, Swap) w
            | _ => with_validator k (Datatypes.S i, Look) w
            end)
  | Swap =>
      Some (match status t with
            | appTxStatusInit => with_validator k (i, Swapped) (with_slot i (set_status appTxStatusChecking) w)
            | _ => with_validator k (i, Look) w
            end)
  | Swapped =>
      Some (match check t with
            | Ok (st, ph) => with_validator k (i, ph) (with_slot i (set_status st) w)
            | Panic => with_dead index_out_of_range w
            end)
  | Report e => Some (with_validator k (i, Finish true) (with_slot i (set_err (Some e)) w))
  | Finish next => Some (with_validator k (if next then Datatypes.S i else i, Look) (with_slot i ready_Done w))
  end.

(** The loop of the caller. *)
Definition exeWithCPUParallelVeirfy (w : world) : option world :=
  let '(i, ph) := executor w in
  t ← queue w !! i;
  match ph with
  | ELook begun =>
      let '(c, a) := match begun with Some c => (c, app w) | None => beginExec (app w) end in
      Some (match status t with
            | appTxStatusChecked =>
                match exec i (rawbytes t) (atx t) c a with
                | Done (e, c, a) => with_executor (i, EEnd c e) a (with_slot i (set_err e) w)
                | Crash cr => with_dead cr w
                | Starved => w
                end
            | appTxStatusFailed => with_executor (i, EFailed c) a w
            | _ => with_executor (i, EWait c) a w
            end)
  | EWait c => if ready t then None else Some (with_executor (i, ELook (Some c)) (app w) w)
  | EFailed c => Some (with_executor (i, EEnd c (err t)) (app w) w)
  | EEnd c e =>
      Some (match end_ (oribys t) e c (app w) with
            | Done (go, a) => with_executor (if go : bool then Datatypes.S i else length txs, ELook None) a w
            | Crash cr => with_dead cr w
            | Starved => w
            end)
  end.

Inductive goroutine := Initialiser | Validator (k : nat) | Executor.

Definition turn (g : goroutine) (w : world) : option world :=
  match dead w with
  | Some _ => None
  | None =>
      match g with
      | Initialiser => initTxQueue w
      | Validator k => validateRoutine k w
      | Executor => exeWithCPUParallelVeirfy w
      end
  end.

Definition step (w w' : world) : Prop := exists g, turn g w = Some w'.

(** A schedule, as the list of who takes a turn. *)
Fixpoint schedule (gs : list goroutine) (w : world) : option world :=
  match gs with [] => Some w | g :: gs => w ← turn g w; schedule gs w end.

Lemma schedule_run gs w w' : schedule gs w = Some w' -> rtc step w w'.
Proof.
  revert w. induction gs as [|g gs IH]; intros w; simpl; [intros [= ->]; apply rtc_refl|].
  destruct (turn g w) as [w1|] eqn:E; [|done]. simpl. intros Hs. eapply rtc_l; [by exists g|by apply IH].
Qed.

Definition finished (w : world) : Prop := (length txs <= (executor w).1)%nat.

(** ** What is promised: each transaction once, in order *)
Inductive verdict :=
| Bad (signature : bool) (e : coreerr)
| Execute (tx : option txdata)
| Panics.

Definition judge (raw : bytes) : verdict :=
  match raw with
  | [] => Execute None
  | _ =>
      match TxCodec.DecodeTx raw with
      | inl e => Bad false (rlp_error e)
      | inr tx =>
          match Sender signer tx with
          | Ok (inl e) => Bad true (tx_error e)
          | Ok (inr _) => Execute (Some tx)
          | Panic => Panics
          end
      end
  end.

(** The call of [end] for a transaction that was executed to [e], or refused
    with [e].  The error of a bad signature and the bytes of the transaction may
    not have been stored when they are read. *)
Definition may_end (raw : bytes) (lost : bool) (e : option coreerr) (c : C) (a : A) (go : bool) (a' : A) : Prop :=
  exists e' raw', (e' = e \/ (lost = true /\ e' = None)) /\ (raw' = raw \/ raw' = []) /\ end_ raw' e' c a = Done (go, a').

Definition handled (i : nat) (raw : bytes) (a : A) (go : bool) (a' : A) : Prop :=
  let '(c, a1) := beginExec a in
  match judge raw with
  | Bad signature e => may_end raw signature (Some e) c a1 go a'
  | Execute tx => exists e c2 a2, exec i raw tx c a1 = Done (e, c2, a2) /\ may_end raw false e c2 a2 go a'
  | Panics => False
  end.

(** The application after the first [n] transactions, from [a0]. *)
Inductive upto (a0 : A) : nat -> A -> Prop :=
| upto_0 : upto a0 0 a0
| upto_S n raw a a' : upto a0 n a -> txs !! n = Some raw -> handled n raw a true a' -> upto a0 (Datatypes.S n) a'.

Definition all_handled (a0 a : A) : Prop :=
  upto a0 (length txs) a \/ exists n raw a1, upto a0 n a1 /\ txs !! n = Some raw /\ handled n raw a1 false a.

(** ** Invariants *)
Definition blank : appTx := mkAppTx [] [] None false appTxStatusNone None.

(** An entry that was queued and that the executor is not done with. *)
Record queued (raw : bytes) (t : appTx) : Prop := {
  qu_raw : rawbytes t = raw;
  qu_tx : atx t = atx (txQueue raw blank);
  qu_err : err t = err (txQueue raw blank) \/ exists e, judge raw = Bad true e /\ err t = Some e;
  qu_checked : status t = appTxStatusChecked -> judge raw = Execute (atx t);
  qu_failed : status t = appTxStatusFailed -> exists b e, judge raw = Bad b e
}.

Record entry_ok (open : Prop) (raw : bytes) (t : appTx) : Prop := {
  eo_ori : oribys t = raw \/ oribys t = [];
  eo_new : status t = appTxStatusNone -> err t = None /\ atx t = None;
  eo_open : open -> status t <> appTxStatusNone -> queued raw t;
  eo_closed : ~ open -> status t = appTxStatusChecked \/ status t = appTxStatusFailed
}.

Definition at_end (ph : ephase C) : bool := match ph with EEnd _ _ => true | _ => false end.
Definition open (w : world) (j : nat) : Prop :=
  ((executor w).1 < j)%nat \/ ((executor w).1 = j /\ at_end (executor w).2 = false).

Definition settled (t : appTx) : Prop := status t = appTxStatusChecked \/ status t = appTxStatusFailed.

Definition phase_ok (raw : bytes) (t : appTx) (ph : vphase) : Prop :=
  match ph with
  | Look => True
  | Swap => status t <> appTxStatusNone
  | Swapped => status t = appTxStatusChecking
  | Report e => judge raw = Bad true e /\ settled t
  | Finish _ => settled t
  end.

(** What the executor has, of the application [a] before the entry. *)
Definition begun_ok (a0 : A) (i : nat) (c : C) (a1 : A) : Prop :=
  (i < length txs)%nat /\ exists a, upto a0 i a /\ beginExec a = (c, a1).

Definition executor_ok (a0 : A) (w : world) : Prop :=
  let '(i, ph) := executor w in
  match ph with
  | ELook None => upto a0 i (app w)
  | ELook (Some c) | EWait c => begun_ok a0 i c (app w)
  | EFailed c => begun_ok a0 i c (app w) /\ exists t, queue w !! i = Some t /\ status t = appTxStatusFailed
  | EEnd c e =>
      exists raw, txs !! i = Some raw /\
        ((exists b er, judge raw = Bad b er /\ begun_ok a0 i c (app w) /\ (e = Some er \/ (b = true /\ e = None))) \/
         (exists tx c0 a1, judge raw = Execute tx /\ begun_ok a0 i c0 a1 /\ exec i raw tx c0 a1 = Done (e, c, app w)))
  end.

Record inv (a0 : A) (w : world) : Prop := {
  iv_length : length (queue w) = length txs;
  iv_entries : forall j t raw, queue w !! j = Some t -> txs !! j = Some raw -> entry_ok (open w j) raw t;
  iv_init : forall j t, queue w !! j = Some t ->
    ((init w).1 < j)%nat \/ ((init w).1 = j /\ (init w).2 <> IOri) -> status t = appTxStatusNone;
  iv_phase : forall k j ph t raw, validators w !! k = Some (j, ph) -> queue w !! j = Some t -> txs !! j = Some raw ->
    phase_ok raw t ph;
  iv_one : forall k k' j, validators w !! k = Some (j, Swapped) -> validators w !! k' = Some (j, Swapped) -> k = k';
  iv_executor : executor_ok a0 w
}.

Definition stopped (a0 : A) (w : world) : Prop :=
  executor w = (length txs, ELook None) /\ length (queue w) = length txs /\
  exists n raw a1, upto a0 n a1 /\ txs !! n = Some raw /\ handled n raw a1 false (app w).

(** *** Entries *)
Lemma txs_entry w a0 j t : inv a0 w -> queue w !! j = Some t -> exists raw, txs !! j = Some raw.
Proof.
  intros Hi Ht. apply lookup_lt_Some in Ht. rewrite (iv_length _ _ Hi) in Ht.
  destruct (txs !! j) as [raw|] eqn:E; [by exists raw|]. apply lookup_ge_None in E. lia.
Qed.

Lemma lookup_alter_cases (f : appTx -> appTx) (l : list appTx) (i j : nat) t : alter f i l !! j = Some t ->
  (i = j /\ exists t0, l !! j = Some t0 /\ t = f t0) \/ (i <> j /\ l !! j = Some t).
Proof.
  destruct (decide (i = j)) as [->|Hne].
  - rewrite list_lookup_alter_eq. destruct (l !! j) as [t0|]; [|done]. intros [= <-]. left. eauto.
  - rewrite list_lookup_alter_ne by done. auto.
Qed.

Lemma queue_tx raw t : rawbytes (txQueue raw t) = raw /\ status (txQueue raw t) = appTxStatusInit /\
  oribys (txQueue raw t) = oribys t /\ ready (txQueue raw t) = ready t /\
  (err t = None -> atx t = None -> atx (txQueue raw t) = atx (txQueue raw blank) /\ err (txQueue raw t) = err (txQueue raw blank)).
Proof. unfold txQueue. destruct raw; [naive_solver|]. destruct (TxCodec.DecodeTx _); naive_solver. Qed.

(** What the check of an entry finds is the verdict. *)
Lemma check_judge raw t : queued raw t ->
  match check t with
  | Ok (appTxStatusChecked, ph) => ph = Finish false /\ judge raw = Execute (atx t)
  | Ok (appTxStatusFailed, ph) =>
      (exists b e, judge raw = Bad b e) /\ (ph = Finish false \/ exists e, ph = Report e /\ judge raw = Bad true e)
  | Ok _ => False
  | Panic => True
  end.
Proof.
  intros [Hr Ht He _ _]. unfold check, judge, txQueue in *. destruct raw as [|x raw].
  - simpl in *. destruct He as [->|(e & [=] & _)]. rewrite Ht. auto.
  - destruct (TxCodec.DecodeTx _) as [e|tx]; simpl in *.
    + destruct He as [->|(e' & [=] & _)]. split; [eauto|by left].
    + destruct He as [->|(e' & Hj & ->)].
      * rewrite Ht. destruct (Sender signer tx) as [[e|a]|]; simpl; [|done|done]. split; [eauto|right; eauto].
      * split; [eauto|by left].
Qed.

(** The error read from a failed entry. *)
Lemma failed_err raw t b e : queued raw t -> judge raw = Bad b e -> err t = Some e \/ (b = true /\ err t = None).
Proof.
  intros [_ _ He _ _]. unfold judge, txQueue in *. destruct raw as [|x raw]; [done|].
  destruct (TxCodec.DecodeTx _) as [e0|tx]; simpl in *.
  - intros [= <- <-]. destruct He as [->|(e' & [=] & _)]. by left.
  - destruct (Sender signer tx) as [[e0|a]|]; try done. intros [= <- <-].
    destruct He as [->|(e' & [= <-] & ->)]; [by right|by left].
Qed.

(** *** The initialiser *)
Lemma entry_ok_iff (P Q : Prop) raw t : (P <-> Q) -> entry_ok P raw t -> entry_ok Q raw t.
Proof. intros E []. split; try done; rewrite <- E; done. Qed.

Lemma start_inv count a0 : inv a0 (start count a0).
Proof.
  assert (forall j t, makeTxQueue txs !! j = Some t -> t = blank) as Hb.
  { intros j t. unfold makeTxQueue. rewrite list_lookup_fmap. destruct (txs !! j); [|done]. by intros [= <-]. }
  split; simpl.
  - unfold makeTxQueue. apply length_map.
  - intros j t raw Ht%Hb Hr. subst t. split; simpl; try done; [by right|]. intros Hno. exfalso. apply Hno.
    destruct j; [by right|left; simpl; lia].
  - intros j t Ht%Hb _. by subst t.
  - intros k j ph t raw Hk. apply lookup_replicate in Hk as [[= -> ->] _]. done.
  - intros k k' j Hk. by apply lookup_replicate in Hk as [[= _ ?] _].
  - constructor.
Qed.

(** A change of one entry, of the initialiser and of the validators. *)
Lemma change_inv a0 w i f ini vs : inv a0 w ->
  (forall t raw, queue w !! i = Some t -> txs !! i = Some raw -> entry_ok (open w i) raw t ->
     entry_ok (open w i) raw (f t) /\ (status t = appTxStatusFailed -> status (f t) = appTxStatusFailed)) ->
  (forall j t, queue w !! j = Some t -> (ini.1 < j)%nat \/ (ini.1 = j /\ ini.2 <> IOri) ->
     status (if decide (i = j) then f t else t) = appTxStatusNone) ->
  (forall k j ph t raw, vs !! k = Some (j, ph) -> queue w !! j = Some t -> txs !! j = Some raw ->
     phase_ok raw (if decide (i = j) then f t else t) ph) ->
  (forall k k' j, vs !! k = Some (j, Swapped) -> vs !! k' = Some (j, Swapped) -> k = k') ->
  inv a0 (mkWorld (alter f i (queue w)) ini vs (executor w) (app w) (dead w)).
Proof.
  intros Hi HA HB HC HD. pose proof (fun j t => txs_entry w a0 j t Hi) as Htxs. destruct Hi as [Hl He Hn Hp Ho Hx]. split; simpl.
  - by rewrite length_alter.
  - intros j t raw [(-> & t0 & Ht & ->)|(Hne & Ht)]%lookup_alter_cases Hr; [|by apply He]. by apply HA; [| |apply He].
  - intros j t [(-> & t0 & Ht & ->)|(Hne & Ht)]%lookup_alter_cases Hj; specialize (HB j _ Ht Hj);
      [by rewrite decide_True in HB|by rewrite decide_False in HB].
  - intros k j ph t raw Hk [(-> & t0 & Ht & ->)|(Hne & Ht)]%lookup_alter_cases Hr; specialize (HC k j ph _ raw Hk Ht Hr);
      [by rewrite decide_True in HC|by rewrite decide_False in HC].
  - done.
  - unfold executor_ok in *. simpl. destruct (executor w) as [p ph]. destruct ph as [[c|]|c|c|c e]; try done.
    destruct Hx as [Hx (t & Ht & Hst)]. split; [done|]. destruct (decide (i = p)) as [->|Hne].
    + rewrite list_lookup_alter_eq, Ht. eexists. split; [done|].
      destruct (Htxs p t Ht) as (raw & Hr). destruct (HA t raw Ht Hr) as [_ HF]; [by apply He|auto].
    + rewrite list_lookup_alter_ne by done. eauto.
Qed.

Lemma entry_ok_same t t' P raw : rawbytes t' = rawbytes t -> atx t' = atx t -> status t' = status t -> err t' = err t ->
  oribys t' = oribys t \/ oribys t' = raw -> entry_ok P raw t -> entry_ok P raw t'.
Proof.
  intros E1 E2 E3 E4 E5 [Ho Hn Hop Hcl]. split; rewrite ?E3, ?E4, ?E2; try done; [destruct E5 as [->| ->]; auto|].
  intros H1 H2. destruct (Hop H1 H2). split; rewrite ?E3, ?E4, ?E2, ?E1; done.
Qed.

(** The entry the initialiser is at. *)
Lemma status_of_decide (i j : nat) (f : appTx -> appTx) t : (status (f t) = status t) ->
  status (if decide (i = j) then f t else t) = status t.
Proof. by destruct (decide _). Qed.

Lemma phase_ok_status raw t t' ph : status t = status t' -> phase_ok raw t ph -> phase_ok raw t' ph.
Proof. intros E. destruct ph; simpl; unfold settled; by rewrite ?E. Qed.

Lemma init_turn a0 w w' : inv a0 w -> initTxQueue w = Some w' -> inv a0 w'.
Proof.
  intros Hi. unfold initTxQueue. destruct (init w) as [i ph] eqn:Ei.
  destruct (txs !! i) as [raw|] eqn:Er; [|done]. simpl. intros [= <-].
  pose proof (iv_init _ _ Hi) as Hn. rewrite Ei in Hn. cbn [fst snd] in Hn. pose proof (iv_phase _ _ Hi) as Hp.
  destruct ph; [apply (change_inv a0 w i ready_Add (i, IStore) (validators w))
    |apply (change_inv a0 w i (txQueue raw) (i, IOri) (validators w))
    |apply (change_inv a0 w i (set_oribys raw) (Datatypes.S i, IAdd) (validators w))];
    try done; try apply (iv_one _ _ Hi); cbn [fst snd].
  - intros t raw' Ht Hr He. split; [by apply (entry_ok_same t); auto|done].
  - intros j t Ht Hj. rewrite status_of_decide by done. apply (Hn j t Ht). naive_solver.
  - intros k j ph t raw' Hk Ht Hr. eapply (phase_ok_status _ t); [by rewrite status_of_decide|by eapply Hp].
  - intros t raw' Ht Hr [Ho Hnew Hop Hcl]. assert (raw' = raw) as -> by congruence.
    assert (status t = appTxStatusNone) as Hst by (apply (Hn i t Ht); auto). destruct (Hnew Hst) as [He Ha].
    destruct (queue_tx raw t) as (H1 & H2 & H3 & _ & H4). destruct (H4 He Ha) as [H5 H6]. split; [|congruence].
    split; rewrite ?H3, ?H2; try done.
    + intros _ _. split; rewrite ?H2; auto; done.
    + intros Hno. destruct (Hcl Hno); congruence.
  - intros j t Ht Hj. destruct (decide (i = j)) as [->|Hne]; [naive_solver lia|]. apply (Hn j t Ht). left. lia.
  - intros k j ph t raw' Hk Ht Hr. specialize (Hp k j ph t raw' Hk Ht Hr). destruct (decide (i = j)) as [->|Hne]; [|done].
    assert (status t = appTxStatusNone) as Hst by (apply (Hn j t Ht); auto). destruct (queue_tx raw t) as (_ & H2 & _).
    destruct ph; simpl in *; unfold settled in *; rewrite ?H2; try done; naive_solver congruence.
  - intros t raw' Ht Hr He. assert (raw' = raw) as -> by congruence. split; [|done]. by apply (entry_ok_same t); auto.
  - intros j t Ht Hj. rewrite status_of_decide by done. apply (Hn j t Ht). left. naive_solver lia.
  - intros k j ph t raw' Hk Ht Hr. eapply (phase_ok_status _ t); [by rewrite status_of_decide|by eapply Hp].
Qed.

(** *** The validators *)
Lemma validator_change a0 w k i f t raw ph p :
  inv a0 w -> validators w !! k = Some (i, ph) -> queue w !! i = Some t -> txs !! i = Some raw ->
  (entry_ok (open w i) raw t -> entry_ok (open w i) raw (f t) /\ (status t = appTxStatusFailed -> status (f t) = appTxStatusFailed)) ->
  (status t = appTxStatusNone -> status (f t) = appTxStatusNone) ->
  (forall k' ph', k' <> k -> validators w !! k' = Some (i, ph') -> phase_ok raw t ph' -> phase_ok raw (f t) ph') ->
  (p = (i, p.2) /\ phase_ok raw (f t) p.2) \/ p.2 = Look ->
  (p.2 = Swapped -> forall k', k' <> k -> validators w !! k' <> Some (i, Swapped)) ->
  inv a0 (with_validator k p (with_slot i f w)).
Proof.
  intros Hi Hk Ht Hr HA HB HO HP HU. apply (change_inv a0 w i f (init w) (<[k := p]> (validators w)) Hi).
  - intros t' raw' Ht' Hr'. by simplify_eq.
  - intros j t' Ht' Hj. pose proof (iv_init _ _ Hi j t' Ht' Hj) as Hst. destruct (decide (i = j)) as [->|]; [|done].
    simplify_eq. auto.
  - intros k' j ph' t' raw' Hk' Ht' Hr'. apply list_lookup_insert_Some in Hk' as [(<- & E & _)|[Hne Hk']].
    + subst p. simpl in HP. destruct HP as [[[= ->] HP]| ->]; [|done]. simplify_eq. by rewrite decide_True.
    + pose proof (iv_phase _ _ Hi k' j ph' t' raw' Hk' Ht' Hr') as Hph. destruct (decide (i = j)) as [->|]; [|done].
      simplify_eq. by apply (HO k').
  - intros k1 k2 j H1 H2. apply list_lookup_insert_Some in H1 as [(<- & E1 & _)|[Hne1 H1]];
      apply list_lookup_insert_Some in H2 as [(<- & E2 & _)|[Hne2 H2]]; try done.
    + exfalso. subst p. destruct HP as [[[=] _]|[=]]. subst j. by apply (HU eq_refl k2).
    + exfalso. subst p. destruct HP as [[[=] _]|[=]]. subst j. by apply (HU eq_refl k1).
    + by eapply (iv_one _ _ Hi).
Qed.

Lemma validator_move a0 w k i t raw ph p :
  inv a0 w -> validators w !! k = Some (i, ph) -> queue w !! i = Some t -> txs !! i = Some raw ->
  (p = (i, p.2) /\ phase_ok raw t p.2 /\ p.2 <> Swapped) \/ p.2 = Look -> inv a0 (with_validator k p w).
Proof.
  intros Hi Hk Ht Hr Hp.
  replace (with_validator k p w) with (with_validator k p (with_slot i id w))
    by (unfold with_slot; rewrite list_alter_id by done; by destruct w).
  eapply validator_change; try done; [naive_solver|].
  intros E. destruct Hp as [(_ & _ & Hne)|Hl]; congruence.
Qed.

Lemma status_open a0 w i t raw : inv a0 w -> queue w !! i = Some t -> txs !! i = Some raw ->
  status t = appTxStatusInit \/ status t = appTxStatusChecking -> queued raw t.
Proof.
  intros Hi Ht Hr Hst. destruct (iv_entries _ _ Hi i t raw Ht Hr) as [_ _ Hop Hcl].
  assert (open w i) as Ho.
  { unfold open in *. destruct (decide ((executor w).1 < i)%nat); [by left|].
    destruct (decide ((executor w).1 = i /\ at_end (executor w).2 = false)); [by right|].
    exfalso. destruct Hcl as [E|E]; [naive_solver|destruct Hst; congruence..]. }
  apply Hop; [done|]. destruct Hst; congruence.
Qed.

Lemma queued_status raw t st : queued raw t -> st = appTxStatusInit \/ st = appTxStatusChecking -> queued raw (set_status st t).
Proof. intros [] Hst. split; try done; simpl; intros ->; by destruct Hst. Qed.

Lemma swapped_turn a0 w k i t raw st ph : inv a0 w -> validators w !! k = Some (i, Swapped) -> queue w !! i = Some t ->
  txs !! i = Some raw -> check t = Ok (st, ph) -> inv a0 (with_validator k (i, ph) (with_slot i (set_status st) w)).
Proof.
  intros Hi Hk Ht Hr Hc. assert (status t = appTxStatusChecking) as Hst by apply (iv_phase _ _ Hi k i Swapped t raw Hk Ht Hr).
  pose proof (status_open a0 w i t raw Hi Ht Hr (or_intror Hst)) as Hq. pose proof (check_judge raw t Hq) as Hj. rewrite Hc in Hj.
  assert (st = appTxStatusChecked \/ st = appTxStatusFailed) as Hst2 by (destruct st; auto; done).
  assert (phase_ok raw (set_status st t) ph) as Hph.
  { destruct Hst2 as [-> | ->]; [destruct Hj as [-> _]; by left|]. destruct Hj as [_ [->|(e & -> & He)]]; [by right|]. split; [done|by right]. }
  eapply (validator_change a0 w k i (set_status st) t raw Swapped (i, ph)); try done.
  - intros [Ho Hn Hop Hcl]. split; [|congruence]. split; try done; simpl.
    + destruct Hst2; congruence.
    + intros _ _. destruct Hq. split; try done; simpl; intros E; subst st; naive_solver.
  - congruence.
  - intros k' ph' Hne Hk'. assert (ph' <> Swapped) as Hns by (intros ->; apply Hne; by eapply (iv_one _ _ Hi)).
    destruct ph'; simpl; try done; unfold settled; simpl; destruct Hst2; subst; naive_solver.
  - left. by split.
  - simpl. intros ->. exfalso. simpl in Hph. destruct Hst2; congruence.
Qed.

Lemma validator_turn a0 w w' k : inv a0 w -> validateRoutine k w = Some w' -> inv a0 w'.
Proof.
  intros Hi. unfold validateRoutine. destruct (validators w !! k) as [[i ph]|] eqn:Hk; [|done]. simpl.
  destruct (queue w !! i) as [t|] eqn:Ht; [|done]. simpl. destruct (txs_entry w a0 i t Hi Ht) as (raw & Hr).
  pose proof (iv_phase _ _ Hi k i ph t raw Hk Ht Hr) as Hph. destruct ph; intros [= <-].
  - destruct (status t) eqn:Hst; [done| |by eapply validator_move; eauto..].
    eapply validator_move; eauto. left. simpl. by rewrite Hst.
  - destruct (status t) eqn:Hst; try (by eapply validator_move; eauto).
    pose proof (status_open a0 w i t raw Hi Ht Hr (or_introl Hst)) as Hq.
    eapply (validator_change a0 w k i _ t raw Swap (i, Swapped)); try done.
    + intros [Ho Hn Hop Hcl]. split; [|congruence]. split; try done; simpl.
      * intros _ _. apply queued_status; auto.
      * intros Hno. destruct (Hcl Hno); congruence.
    + intros k' ph' _ _. destruct ph'; simpl; try done; unfold settled; rewrite Hst; naive_solver.
    + by left.
    + intros _ k' _ Hk'. pose proof (iv_phase _ _ Hi k' i Swapped t raw Hk' Ht Hr) as E. simpl in E. congruence.
  - destruct (check t) as [[st ph]|] eqn:Hc; [by eapply swapped_turn|]. by destruct Hi.
  - destruct Hph as [Hj Hst]. eapply (validator_change a0 w k i _ t raw (Report e) (i, Finish true)); try done.
    + intros [Ho Hn Hop Hcl]. split; [|done].
      split; try done; [simpl; intros E; destruct Hst; congruence|].
      intros H1 H2. destruct (Hop H1 H2). split; try done. right. eauto.
    + by left.
  - eapply (validator_change a0 w k i _ t raw (Finish next)); try done.
    + intros He. split; [|done]. by apply (entry_ok_same t); auto.
    + by right.
Qed.

(** *** The executor *)
Lemma executor_move a0 w p a : inv a0 w -> (forall j, open w j <-> open (with_executor p a w) j) ->
  executor_ok a0 (with_executor p a w) -> inv a0 (with_executor p a w).
Proof.
  intros Hi Hopen Hx. pose proof Hi as [Hl He Hn Hp Ho _]. split; try done. intros j t raw Ht Hr.
  eapply entry_ok_iff; [apply Hopen|by apply He].
Qed.

(** The executor is done with the status and the error of its entry. *)
Lemma executor_close a0 w i ph c e e' a t : inv a0 w -> executor w = (i, ph) -> at_end ph = false -> queue w !! i = Some t ->
  status t = appTxStatusChecked \/ status t = appTxStatusFailed ->
  executor_ok a0 (with_executor (i, EEnd c e) a (with_slot i (set_err e') w)) ->
  inv a0 (with_executor (i, EEnd c e) a (with_slot i (set_err e') w)).
Proof.
  intros Hi Ex Hph Ht Hst Hx. pose proof Hi as [Hl He Hn Hp Ho _]. split; simpl; try done.
  - by rewrite length_alter.
  - intros j t' raw [(-> & t0 & Ht0 & ->)|(Hne & Ht')]%lookup_alter_cases Hr.
    + simplify_eq. destruct (He j t raw Ht Hr) as [Hori Hnew _ _]. split; try done; simpl.
      * intros E. destruct Hst; congruence.
      * intros [Hlt|[_ [=]]] _. simpl in Hlt. lia.
    + eapply entry_ok_iff; [|by apply He]. unfold open. simpl. rewrite Ex. simpl. naive_solver.
  - intros j t' [(-> & t0 & Ht0 & ->)|(Hne & Ht')]%lookup_alter_cases Hj; [|by apply (Hn j)].
    simplify_eq. apply (Hn j t Ht Hj).
  - intros k j ph' t' raw Hk [(-> & t0 & Ht0 & ->)|(Hne & Ht')]%lookup_alter_cases Hr; [|by eapply Hp].
    simplify_eq. eapply (phase_ok_status _ t); [done|by eapply Hp].
Qed.

Lemma open_phase w i ph ph' a j : executor w = (i, ph) -> at_end ph = at_end ph' ->
  open w j <-> open (with_executor (i, ph') a w) j.
Proof. intros E Hp. unfold open. rewrite E. simpl. by rewrite Hp. Qed.

Lemma executor_entry a0 w i ph t raw : inv a0 w -> executor w = (i, ph) -> at_end ph = false -> queue w !! i = Some t ->
  txs !! i = Some raw -> status t <> appTxStatusNone -> queued raw t.
Proof.
  intros Hi Ex Hph Ht Hr Hst. apply (eo_open _ _ _ (iv_entries _ _ Hi i t raw Ht Hr)); [|done].
  right. by rewrite Ex.
Qed.

Lemma look_turn a0 w i begun c a t raw w' : inv a0 w -> executor w = (i, ELook begun) -> queue w !! i = Some t -> txs !! i = Some raw ->
  begun_ok a0 i c a ->
  w' = match status t with
       | appTxStatusChecked =>
           match exec i (rawbytes t) (atx t) c a with
           | Done (e, c, a) => with_executor (i, EEnd c e) a (with_slot i (set_err e) w)
           | Crash cr => with_dead cr w
           | Starved => w
           end
       | appTxStatusFailed => with_executor (i, EFailed c) a w
       | _ => with_executor (i, EWait c) a w
       end -> inv a0 w'.
Proof.
  intros Hi Ex Ht Hr Hb ->. pose proof (executor_entry a0 w i _ t raw Hi Ex eq_refl Ht Hr) as Hq. destruct (status t) eqn:Hst.
  1-3: apply executor_move; [done|intros j; by apply (open_phase w i (ELook begun))|exact Hb].
  - destruct Hq as [E1 _ _ Hc _]; [done|]. specialize (Hc Hst). rewrite E1.
    destruct (exec i raw (atx t) c a) as [[[e c'] a']|cr|] eqn:Ee; [|by destruct Hi|done].
    eapply executor_close; eauto. exists raw. split; [done|]. right. exists (atx t), c, a. done.
  - apply executor_move; [done|intros j; by apply (open_phase w i (ELook begun))|]. split; [exact Hb|]. by exists t.
Qed.

Lemma end_turn a0 w i c e t raw w' : inv a0 w -> executor w = (i, EEnd c e) -> queue w !! i = Some t -> txs !! i = Some raw ->
  w' = match end_ (oribys t) e c (app w) with
       | Done (go, a) => with_executor (if go : bool then Datatypes.S i else length txs, ELook None) a w
       | Crash cr => with_dead cr w
       | Starved => w
       end -> inv a0 w' \/ stopped a0 w'.
Proof.
  intros Hi Ex Ht Hr ->. pose proof (eo_ori _ _ _ (iv_entries _ _ Hi i t raw Ht Hr)) as Hori.
  pose proof (iv_executor _ _ Hi) as Hx. unfold executor_ok in Hx. rewrite Ex in Hx. destruct Hx as (raw' & Hr' & Hx).
  assert (raw' = raw) as -> by congruence.
  assert (forall go a', end_ (oribys t) e c (app w) = Done (go, a') -> exists a, upto a0 i a /\ handled i raw a go a') as Hh.
  { intros go a' Ee. destruct Hx as [(b & er & Hj & (_ & a & Ha & Eb) & He)|(tx & c0 & a1 & Hj & (_ & a & Ha & Eb) & Hex)];
      exists a; (split; [done|]); unfold handled; rewrite Eb, Hj.
    - exists e, (oribys t). split_and!; [naive_solver|done|done].
    - exists e, c, (app w). split; [done|]. exists e, (oribys t). split_and!; [by left|done|done]. }
  destruct (end_ _ _ _ _) as [[go a']|cr|]; [|left; by destruct Hi|by left].
  destruct (Hh go a' eq_refl) as (a & Ha & Hd). destruct go; [left|right].
  - apply executor_move; [done| |by econstructor].
    intros j. unfold open. rewrite Ex. simpl. split; [intros [?|[_ [=]]]|intros [?|[? _]]]; lia.
  - split; [done|]. split; [apply (iv_length _ _ Hi)|]. by exists i, raw, a.
Qed.

Lemma executor_turn a0 w w' : inv a0 w -> exeWithCPUParallelVeirfy w = Some w' -> inv a0 w' \/ stopped a0 w'.
Proof.
  intros Hi. unfold exeWithCPUParallelVeirfy. destruct (executor w) as [i ph] eqn:Ex.
  destruct (queue w !! i) as [t|] eqn:Ht; [|done]. simpl. destruct (txs_entry w a0 i t Hi Ht) as (raw & Hr).
  pose proof (iv_executor _ _ Hi) as Hx. unfold executor_ok in Hx. rewrite Ex in Hx.
  destruct ph as [[c|]|c|c|c e].
  - intros [= <-]. left. by eapply look_turn.
  - destruct (beginExec (app w)) as [c a] eqn:Eb. intros [= <-]. left. eapply look_turn; try done. split; [by eapply lookup_lt_Some|by exists (app w)].
  - destruct (ready t); [done|]. intros [= <-]. left.
    apply executor_move; [done|intros j; by apply (open_phase w i (EWait c))|exact Hx].
  - intros [= <-]. destruct Hx as [Hb (t' & Ht' & Hst)]. simplify_eq.
    assert (with_executor (i, EEnd c (err t)) (app w) w =
      with_executor (i, EEnd c (err t)) (app w) (with_slot i (set_err (err t)) w)) as ->.
    { unfold with_executor, with_slot. simpl. f_equal. apply list_eq. intros j.
      destruct (decide (i = j)) as [->|Hne]; [rewrite list_lookup_alter_eq, Ht; by destruct t|by rewrite list_lookup_alter_ne]. }
    left. eapply executor_close; eauto. exists raw. split; [done|]. left.
    pose proof (executor_entry a0 w i _ t raw Hi Ex eq_refl Ht Hr) as Hq. rewrite Hst in Hq. specialize (Hq ltac:(done)).
    destruct (qu_failed _ _ Hq Hst) as (b & er & Hj). exists b, er. split_and!; [done|done|by apply (failed_err raw)].
  - intros [= <-]. by eapply end_turn.
Qed.

(** *** Runs *)
Lemma stopped_stays a0 w w' : stopped a0 w -> step w w' -> stopped a0 w'.
Proof.
  intros (Ex & Hl & Hs) [g Hg]. unfold turn in Hg. destruct (dead w); [done|]. destruct g as [|k|].
  - unfold initTxQueue in Hg. destruct (init w) as [i ph]. destruct (txs !! i); [|done]. simpl in Hg. simplify_eq.
    destruct ph; (split; [exact Ex|split; [simpl; rewrite length_alter; exact Hl|exact Hs]]).
  - unfold validateRoutine in Hg. destruct (validators w !! k) as [[i ph]|]; [|done]. simpl in Hg.
    destruct (queue w !! i) as [t|]; [|done]. simpl in Hg. destruct ph; simplify_eq; repeat case_match; simplify_eq;
      (split; [exact Ex|split; [simpl; rewrite ?length_alter; exact Hl|exact Hs]]).
  - unfold exeWithCPUParallelVeirfy in Hg. rewrite Ex in Hg. rewrite <- Hl in Hg. by rewrite (proj2 (lookup_ge_None _ _)) in Hg.
Qed.

Lemma keeps_inv a0 w w' : inv a0 w \/ stopped a0 w -> step w w' -> inv a0 w' \/ stopped a0 w'.
Proof.
  intros [Hi|Hs] Hst; [|right; by eapply stopped_stays]. destruct Hst as [g Hg]. unfold turn in Hg.
  destruct (dead w); [done|]. destruct g as [|k|]; [left; by eapply init_turn|left; by eapply validator_turn|by eapply executor_turn].
Qed.

Lemma run_inv count a0 w : rtc step (start count a0) w -> inv a0 w \/ stopped a0 w.
Proof.
  intros Hr. assert (inv a0 (start count a0) \/ stopped a0 (start count a0)) as H0 by (left; apply start_inv).
  revert H0. generalize (start count a0) Hr. clear Hr. intros w0 Hr. induction Hr as [|w0 w1 w2 Hst _ IH]; [done|].
  intros H0. by eapply IH, keeps_inv.
Qed.

Lemma upto_le a0 n a : upto a0 n a -> (n <= length txs)%nat.
Proof. destruct 1 as [|n raw a a' _ Hr _]; [lia|]. apply lookup_lt_Some in Hr. lia. Qed.

Lemma run_in_order count a0 w : rtc step (start count a0) w -> finished w -> all_handled a0 (app w).
Proof.
  intros Hr%run_inv Hf. destruct Hr as [Hi|(_ & _ & Hs)]; [left|by right].
  pose proof (iv_executor _ _ Hi) as Hx. unfold executor_ok, finished in *. destruct (executor w) as [i ph]. simpl in Hf.
  destruct ph as [[c|]|c|c|c e].
  - destruct Hx. lia.
  - pose proof (upto_le _ _ _ Hx). by replace (length txs) with i by lia.
  - destruct Hx. lia.
  - destruct Hx as [[? _] _]. lia.
  - destruct Hx as (raw & Hr & _). apply lookup_lt_Some in Hr. lia.
Qed.


(** ** The executor can always go on *)
Definition early (t : appTx) : bool :=
  match status t with appTxStatusNone | appTxStatusInit => true | _ => false end.
Definition busy (ph : vphase) : bool := match ph with Swapped | Report _ | Finish _ => true | _ => false end.

(** Somebody is at work on what the executor may wait for. *)
Record lively (w : world) : Prop := {
  lv_behind : forall k j ph j' t, validators w !! k = Some (j, ph) -> (j' < j)%nat -> queue w !! j' = Some t -> early t = false;
  lv_checking : forall j t, queue w !! j = Some t -> status t = appTxStatusChecking ->
    exists k, validators w !! k = Some (j, Swapped);
  lv_ready : forall j t, queue w !! j = Some t -> ready t = true ->
    early t = true \/ exists k ph, validators w !! k = Some (j, ph) /\ busy ph = true;
  lv_init : forall j t, queue w !! j = Some t -> (j < (init w).1)%nat \/ (j = (init w).1 /\ (init w).2 = IOri) ->
    status t <> appTxStatusNone;
  lv_some : validators w <> []
}.

Lemma start_lively count a : (0 < count)%nat -> lively (start count a).
Proof.
  intros Hc. assert (forall j t, makeTxQueue txs !! j = Some t -> t = blank) as Hb.
  { intros j t. unfold makeTxQueue. rewrite list_lookup_fmap. destruct (txs !! j); [|done]. by intros [= <-]. }
  split; simpl.
  - intros k j ph j' t Hk Hj. apply lookup_replicate in Hk as [[= -> _] _]. lia.
  - by intros j t ->%Hb.
  - by intros j t ->%Hb.
  - intros j t _ [?|[_ [=]]]. lia.
  - by destruct count; [lia|].
Qed.

Lemma lively_init a0 w w' : inv a0 w -> lively w -> initTxQueue w = Some w' -> lively w'.
Proof.
  intros Hi [H1 H2 H3 H4 H5]. unfold initTxQueue. destruct (init w) as [i ph] eqn:Ei.
  destruct (txs !! i) as [raw|] eqn:Er; [|done]. simpl. intros [= <-].
  pose proof (iv_init _ _ Hi) as Hn. rewrite Ei in Hn. cbn [fst snd] in *.
  assert (forall t, ph <> IOri -> queue w !! i = Some t -> status t = appTxStatusNone) as Hnew by (intros t Hne Ht; apply (Hn i t Ht); auto).
  destruct ph.
  - split; simpl; try done.
    + intros k j ph j' t Hk Hlt [(-> & t0 & Ht & ->)|(Hne & Ht)]%lookup_alter_cases; [|by eapply H1]. by eapply (H1 k j ph j' t0).
    + intros j t [(-> & t0 & Ht & ->)|(Hne & Ht)]%lookup_alter_cases; [exact (H2 j t0 Ht)|exact (H2 j t Ht)].
    + intros j t [(-> & t0 & Ht & ->)|(Hne & Ht)]%lookup_alter_cases; [|exact (H3 j t Ht)]. intros _. left.
      unfold early. simpl. by rewrite (Hnew t0).
    + intros j t [(-> & t0 & Ht & ->)|(Hne & Ht)]%lookup_alter_cases Hj; [|by apply (H4 j t); naive_solver]. naive_solver lia.
  - split; simpl; try done.
    + intros k j ph j' t Hk Hlt [(-> & t0 & Ht & ->)|(Hne & Ht)]%lookup_alter_cases; [|by eapply H1].
      specialize (H1 k j ph j' t0 Hk Hlt Ht). unfold early in H1. by rewrite (Hnew t0) in H1.
    + intros j t [(-> & t0 & Ht & ->)|(Hne & Ht)]%lookup_alter_cases; [|exact (H2 j t Ht)].
      destruct (queue_tx raw t0) as (_ & -> & _). done.
    + intros j t [(-> & t0 & Ht & ->)|(Hne & Ht)]%lookup_alter_cases; [|exact (H3 j t Ht)]. intros _. left.
      unfold early. destruct (queue_tx raw t0) as (_ & -> & _). done.
    + intros j t [(-> & t0 & Ht & ->)|(Hne & Ht)]%lookup_alter_cases Hj; [|by apply (H4 j t); naive_solver].
      destruct (queue_tx raw t0) as (_ & -> & _). done.
  - split; simpl; try done.
    + intros k j ph j' t Hk Hlt [(-> & t0 & Ht & ->)|(Hne & Ht)]%lookup_alter_cases; [|by eapply H1]. by eapply (H1 k j ph j' t0).
    + intros j t [(-> & t0 & Ht & ->)|(Hne & Ht)]%lookup_alter_cases; [exact (H2 j t0 Ht)|exact (H2 j t Ht)].
    + intros j t [(-> & t0 & Ht & ->)|(Hne & Ht)]%lookup_alter_cases; [|exact (H3 j t Ht)]. intros Hrd.
      destruct (H3 j t0 Ht Hrd); [by left|by right].
    + intros j t [(-> & t0 & Ht & ->)|(Hne & Ht)]%lookup_alter_cases Hj; [by apply (H4 j t0 Ht); auto|].
      apply (H4 j t Ht). naive_solver lia.
Qed.

(** A move of one validator and its entry. *)
Lemma lively_validator w k i ph t f p : lively w -> validators w !! k = Some (i, ph) -> queue w !! i = Some t ->
  (early t = false -> early (f t) = false) -> (status t <> appTxStatusNone -> status (f t) <> appTxStatusNone) ->
  (p.1 = i \/ (p.1 = Datatypes.S i /\ early (f t) = false)) ->
  (status (f t) = appTxStatusChecking -> p = (i, Swapped) \/ (status t = appTxStatusChecking /\ ph <> Swapped)) ->
  (ready (f t) = true -> early (f t) = true \/ (p.1 = i /\ busy p.2 = true) \/ (ready t = true /\ early t = false /\ busy ph = false)) ->
  lively (with_validator k p (with_slot i f w)).
Proof.
  intros [H1 H2 H3 H4 H5] Hk Ht HE HZ HP HC HR.
  assert ((k < length (validators w))%nat) as Hlt by (by eapply lookup_lt_Some).
  assert (forall k' j ph', validators w !! k' = Some (j, ph') -> k' <> k -> <[k := p]> (validators w) !! k' = Some (j, ph')) as Hkeep
    by (intros; by rewrite list_lookup_insert_ne by done).
  split; simpl.
  - intros k' j ph' j' t' Hk' Hj Ht'.
    assert (exists t0, queue w !! j' = Some t0 /\ (early t0 = false -> early t' = false)) as (t0 & Ht0 & Hto).
    { apply lookup_alter_cases in Ht' as [(<- & t0 & Ht0 & ->)|(Hne & Ht')]; [|by eauto]. simplify_eq. eauto. }
    apply list_lookup_insert_Some in Hk' as [(<- & -> & _)|[Hne Hk']]; [|apply Hto; by eapply H1].
    simpl in HP. destruct HP as [->|[-> He]]; [apply Hto; by eapply (H1 k i ph)|].
    destruct (decide (j' = i)) as [->|Hne]; [|apply Hto; apply (H1 k i ph j' t0); [done|lia|done]].
    rewrite list_lookup_alter_eq, Ht in Ht'. injection Ht' as <-. exact He.
  - intros j t' [(<- & t0 & Ht0 & ->)|(Hne & Ht')]%lookup_alter_cases Hst.
    + simplify_eq. destruct (HC Hst) as [->|[Hs Hp]]; [exists k; by rewrite list_lookup_insert_eq|].
      destruct (H2 i t Ht Hs) as (k' & Hk'). exists k'. apply Hkeep; [done|]. intros ->. congruence.
    + destruct (H2 j t' Ht' Hst) as (k' & Hk'). exists k'. apply Hkeep; [done|]. intros ->. congruence.
  - intros j t' [(<- & t0 & Ht0 & ->)|(Hne & Ht')]%lookup_alter_cases Hrd.
    + simplify_eq. destruct (HR Hrd) as [?|[[Hp1 Hp2]|(Hr1 & Hr2 & Hr3)]]; [by left|right; exists k, p.2|right].
      * rewrite list_lookup_insert_eq by done. by destruct p; simpl in *; subst.
      * destruct (H3 i t Ht Hr1) as [?|(k' & ph' & Hk' & Hb)]; [congruence|]. exists k', ph'. split; [|done].
        apply Hkeep; [done|]. intros ->. congruence.
    + destruct (H3 j t' Ht' Hrd) as [?|(k' & ph' & Hk' & Hb)]; [by left|right]. exists k', ph'. split; [|done].
      apply Hkeep; [done|]. intros ->. congruence.
  - intros j t' [(<- & t0 & Ht0 & ->)|(Hne & Ht')]%lookup_alter_cases Hj; [|by apply (H4 j)]. simplify_eq. apply HZ. by apply (H4 i).
  - intros E. apply (f_equal length) in E. rewrite length_insert in E. simpl in E. lia.
Qed.

Lemma lively_move w k i ph t p : lively w -> validators w !! k = Some (i, ph) -> queue w !! i = Some t -> busy ph = false ->
  (p.1 = i \/ (p.1 = Datatypes.S i /\ early t = false)) -> lively (with_validator k p w).
Proof.
  intros Hl Hk Ht Hb Hp.
  replace (with_validator k p w) with (with_validator k p (with_slot i id w))
    by (unfold with_slot; rewrite list_alter_id by done; by destruct w).
  eapply lively_validator; try done.
  - intros Hst. right. split; [done|]. by intros ->.
  - simpl. intros Hrd. destruct (early t) eqn:E; [by left|auto].
Qed.

Lemma check_late t st ph : check t = Ok (st, ph) -> early (set_status st t) = false /\ st <> appTxStatusChecking /\ busy ph = true.
Proof.
  unfold check. destruct (err t); [by intros [= <- <-]|]. destruct (atx t) as [tx|]; [|by intros [= <- <-]].
  destruct (Sender signer tx) as [[e|a]|]; simpl; [| |done]; by intros [= <- <-].
Qed.

Lemma settled_late t : settled t -> early t = false.
Proof. unfold early. by intros [-> | ->]. Qed.

Lemma lively_validators a0 w w' k : inv a0 w -> lively w -> validateRoutine k w = Some w' -> dead w' = None -> lively w'.
Proof.
  intros Hi Hl. unfold validateRoutine. destruct (validators w !! k) as [[i ph]|] eqn:Hk; [|done]. simpl.
  destruct (queue w !! i) as [t|] eqn:Ht; [|done]. simpl. destruct (txs_entry w a0 i t Hi Ht) as (raw & Hr).
  pose proof (iv_phase _ _ Hi k i ph t raw Hk Ht Hr) as Hph. destruct ph; intros [= <-].
  - destruct (status t) eqn:Hst; intros _; [done|by eapply lively_move; eauto|..];
      (eapply lively_move; [done|done|done|done|right; split; [done|unfold early; by rewrite Hst]]).
  - destruct (status t) eqn:Hst; intros _; try (by eapply lively_move; eauto).
    eapply lively_validator; try done; [by left|by left|intros _; right; by left].
  - destruct (check t) as [[st ph]|] eqn:Hc; [|done]. intros _. destruct (check_late t st ph Hc) as (H1 & H2 & H3).
    eapply lively_validator; try done; [|by left|intros _; right; by left].
    simpl. intros _ ->. unfold early in H1. done.
  - intros _. destruct Hph as [_ Hs]. eapply lively_validator; try done; [by left|by right|]. intros _. right. by left.
  - intros _. eapply lively_validator; try done.
    + destruct next; [|by left]. right. split; [done|]. by apply (settled_late t).
    + intros E. simpl in *. destruct Hph; congruence.
Qed.

Lemma lively_same w w' : lively w -> validators w' = validators w -> init w' = init w ->
  (forall j t', queue w' !! j = Some t' -> exists t, queue w !! j = Some t /\ status t = status t' /\ ready t = ready t') -> lively w'.
Proof.
  intros [H1 H2 H3 H4 H5] Ev Ei Hq. assert (forall t t', status t = status t' -> early t = early t') as He by (unfold early; by intros t t' ->).
  split; rewrite ?Ev, ?Ei; try done.
  - intros k j ph j' t' Hk Hj Ht'. destruct (Hq j' t' Ht') as (t & Ht & Hs & _). rewrite <- (He t t' Hs). by eapply H1.
  - intros j t' Ht' Hst. destruct (Hq j t' Ht') as (t & Ht & Hs & _). apply (H2 j t Ht). congruence.
  - intros j t' Ht' Hrd. destruct (Hq j t' Ht') as (t & Ht & Hs & Hr). rewrite <- (He t t' Hs). apply (H3 j t Ht). congruence.
  - intros j t' Ht' Hj. destruct (Hq j t' Ht') as (t & Ht & <- & _). by apply (H4 j t Ht).
Qed.

Lemma lively_executor w w' : lively w -> exeWithCPUParallelVeirfy w = Some w' -> lively w'.
Proof.
  intros Hl. unfold exeWithCPUParallelVeirfy. destruct (executor w) as [i ph]. destruct (queue w !! i) as [t|] eqn:Ht; [|done]. simpl.
  assert (forall p a, lively (with_executor p a w)) as Hmove by (intros p a; apply (lively_same w); [done..|]; intros j t' Ht'; by exists t').
  assert (forall p a e, lively (with_executor p a (with_slot i (set_err e) w))) as Herr.
  { intros p a e. apply (lively_same w); [done..|]. intros j t' [(-> & t0 & Ht0 & ->)|(Hne & Ht')]%lookup_alter_cases; [by exists t0|by exists t']. }
  assert (forall cr, lively (with_dead cr w)) as Hdead by (intros cr; apply (lively_same w); [done..|]; intros j t' Ht'; by exists t').
  destruct ph as [b|c|c|c e].
  - destruct (match b with Some c => (c, app w) | None => beginExec (app w) end) as [c a].
    destruct (status t); try (intros [= <-]; apply Hmove). destruct (exec _ _ _ _ _) as [[[e c'] a']|cr|]; intros [= <-]; [apply Herr|apply Hdead|done].
  - destruct (ready t); [done|]. intros [= <-]. apply Hmove.
  - intros [= <-]. apply Hmove.
  - destruct (end_ _ _ _ _) as [[go a]|cr|]; intros [= <-]; [apply Hmove|apply Hdead|done].
Qed.

(** What is left to do. *)
Definition status_rank (t : appTx) : nat :=
  match status t with appTxStatusNone => 4 | appTxStatusInit => 3 | appTxStatusChecking => 2 | _ => 1 end.
Definition init_rank (p : nat * iphase) : nat :=
  3 * (length txs - p.1) + match p.2 with IAdd => 3 | IStore => 2 | IOri => 1 end.
Definition validator_rank (p : nat * vphase) : nat :=
  6 * (length txs - p.1) + match p.2 with Look => 2 | Swap => 1 | Swapped => 5 | Report _ => 4 | Finish _ => 3 end.
Definition executor_rank (p : nat * ephase C) : nat :=
  5 * (length txs - p.1) + match p.2 with EWait _ => 4 | ELook _ => 3 | EFailed _ => 2 | EEnd _ _ => 1 end.
Definition left_to_do (w : world) : nat :=
  init_rank (init w) + 10 * sum_list_with status_rank (queue w) + sum_list_with validator_rank (validators w) +
  executor_rank (executor w).

Lemma sum_insert {X} (f : X -> nat) l k x y : l !! k = Some x ->
  (sum_list_with f (<[k := y]> l) + f x = sum_list_with f l + f y)%nat.
Proof.
  revert k. induction l as [|z l IH]; intros [|k] Hk; simplify_eq/=; [lia|]. specialize (IH k Hk). lia.
Qed.

Lemma sum_alter {X} (f : X -> nat) (g : X -> X) l k x : l !! k = Some x ->
  (sum_list_with f (alter g k l) + f x = sum_list_with f l + f (g x))%nat.
Proof.
  intros Hk. rewrite <- (sum_insert f l k x (g x) Hk). do 2 f_equal. apply list_eq. intros j.
  destruct (decide (k = j)) as [->|Hne].
  - rewrite list_lookup_alter_eq, Hk, list_lookup_insert_eq by (by eapply lookup_lt_Some). done.
  - by rewrite list_lookup_alter_ne, list_lookup_insert_ne by done.
Qed.

Lemma left_slot w i t f : queue w !! i = Some t ->
  (left_to_do (with_slot i f w) + 10 * status_rank t = left_to_do w + 10 * status_rank (f t))%nat.
Proof. intros Ht. unfold left_to_do. simpl. pose proof (sum_alter status_rank f (queue w) i t Ht). lia. Qed.
Lemma left_validator w k p p' : validators w !! k = Some p ->
  (left_to_do (with_validator k p' w) + validator_rank p = left_to_do w + validator_rank p')%nat.
Proof. intros Hk. unfold left_to_do. simpl. pose proof (sum_insert validator_rank (validators w) k p p' Hk). lia. Qed.

Record good (a0 : A) (w : world) : Prop := { gd_inv : inv a0 w; gd_lively : lively w; gd_alive : dead w = None }.

Lemma start_good count a : (0 < count)%nat -> good a (start count a).
Proof. intros. split; [apply start_inv|by apply start_lively|done]. Qed.

Lemma good_step a0 w w' g : good a0 w -> turn g w = Some w' -> dead w' = None -> good a0 w' \/ stopped a0 w'.
Proof.
  intros [Hi Hl Hd] Hg Hd'. unfold turn in Hg. rewrite Hd in Hg. destruct g as [|k|].
  - left. split; [by eapply init_turn|by eapply lively_init|done].
  - left. split; [by eapply validator_turn|by eapply lively_validators|done].
  - destruct (executor_turn a0 w w' Hi Hg) as [?|?]; [left|by right]. split; [done|by eapply lively_executor|done].
Qed.

(** The block is done, or the process is dead, or the model is out of fuel. *)
Definition starving (w : world) : Prop :=
  exists t, queue w !! (executor w).1 = Some t /\
    match (executor w).2 with
    | ELook b =>
        let '(c, a) := match b with Some c => (c, app w) | None => beginExec (app w) end in
        exec (executor w).1 (rawbytes t) (atx t) c a = Starved
    | EEnd c e => end_ (oribys t) e c (app w) = Starved
    | _ => False
    end.
Definition over (w : world) : Prop := finished w \/ dead w <> None \/ starving w.

Definition advances (a0 : A) (w : world) : Prop :=
  exists w', rtc step w w' /\ (over w' \/ (good a0 w' /\ (left_to_do w' < left_to_do w)%nat)).

Lemma advance_one a0 w w' g : good a0 w -> turn g w = Some w' -> (left_to_do w' < left_to_do w)%nat -> advances a0 w.
Proof.
  intros Hgd Hg Hlt. exists w'. split; [apply rtc_once; by exists g|]. destruct (dead w') as [c|] eqn:Ed; [left; right; left; congruence|].
  destruct (good_step a0 w w' g Hgd Hg Ed) as [?|(Ex & _)]; [by right|]. left. left. unfold finished. by rewrite Ex.
Qed.

Lemma advance_two a0 w w1 w2 g g' : good a0 w -> turn g w = Some w1 -> dead w1 = None -> turn g' w1 = Some w2 ->
  (left_to_do w2 < left_to_do w)%nat -> advances a0 w.
Proof.
  intros Hgd Hg Hd Hg' Hlt. destruct (good_step a0 w w1 g Hgd Hg Hd) as [Hg1|(Ex & _)].
  - exists w2. split; [eapply rtc_l; [by exists g|apply rtc_once; by exists g']|].
    destruct (dead w2) as [c|] eqn:Ed; [left; right; left; congruence|].
    destruct (good_step a0 w1 w2 g' Hg1 Hg' Ed) as [?|(Ex & _)]; [by right|]. left. left. unfold finished. by rewrite Ex.
  - exists w1. split; [apply rtc_once; by exists g|]. left. left. unfold finished. by rewrite Ex.
Qed.

Section validator_advances.
Variables (a0 : A) (w : world) (k i : nat) (ph : vphase) (t : appTx).
Hypotheses (Hgd : good a0 w) (Hk : validators w !! k = Some (i, ph)) (Ht : queue w !! i = Some t).

Lemma entry_lt : (i < length txs)%nat.
Proof using Hgd Ht. rewrite <- (iv_length _ _ (gd_inv _ _ Hgd)). by eapply lookup_lt_Some. Qed.

Lemma turn_validator : turn (Validator k) w = validateRoutine k w.
Proof using Hgd. unfold turn. by rewrite (gd_alive _ _ Hgd). Qed.

Lemma less_left p f : (validator_rank p + 10 * status_rank (f t) < validator_rank (i, ph) + 10 * status_rank t)%nat ->
  (left_to_do (with_validator k p (with_slot i f w)) < left_to_do w)%nat.
Proof using Hk Ht.
  intros Hp. pose proof (left_slot w i t f Ht). pose proof (left_validator (with_slot i f w) k (i, ph) p Hk). lia.
Qed.

Lemma less_left_move p : (validator_rank p < validator_rank (i, ph))%nat -> (left_to_do (with_validator k p w) < left_to_do w)%nat.
Proof using Hk. intros Hp. pose proof (left_validator w k (i, ph) p Hk). lia. Qed.

(** A swap that fails, and the look after it. *)
Lemma swap_fails : ph = Swap -> early t = false -> advances a0 w.
Proof using Hgd Hk Ht.
  intros -> He. pose proof entry_lt as Hi. set (w1 := with_validator k (i, Look) w).
  assert (validators w1 !! k = Some (i, Look)) as Hk1 by (apply list_lookup_insert_eq; by eapply lookup_lt_Some).
  apply (advance_two a0 w w1 (with_validator k (Datatypes.S i, Look) w1) (Validator k) (Validator k)); [done| |apply Hgd| |].
  - rewrite turn_validator. unfold validateRoutine. rewrite Hk. simpl. rewrite Ht. simpl. unfold early in He. by destruct (status t).
  - unfold turn. replace (dead w1) with (dead w) by done. rewrite (gd_alive _ _ Hgd). unfold validateRoutine. rewrite Hk1. simpl.
    rewrite Ht. simpl. unfold early in He. by destruct (status t).
  - pose proof (left_validator w k (i, Swap) (i, Look) Hk) as H1. fold w1 in H1.
    pose proof (left_validator w1 k (i, Look) (Datatypes.S i, Look) Hk1) as H2. unfold validator_rank in *. simpl in *. lia.
Qed.

Lemma validator_advances : status t <> appTxStatusNone -> advances a0 w.
Proof using Hgd Hk Ht.
  intros Hst. pose proof entry_lt as Hi. pose proof turn_validator as Et. pose proof less_left as Hm. pose proof less_left_move as Hm1.
  pose proof swap_fails as Hsf. destruct (txs_entry w a0 i t (gd_inv _ _ Hgd) Ht) as (raw & Hr).
  pose proof (iv_phase _ _ (gd_inv _ _ Hgd) k i ph t raw Hk Ht Hr) as Hph.
  unfold validateRoutine in Et. rewrite Hk in Et. simpl in Et. rewrite Ht in Et. simpl in Et. destruct ph.
  - destruct (status t); [done|..]; (eapply advance_one; [done|exact Et|]); apply Hm1; unfold validator_rank; simpl; lia.
  - destruct (status t) eqn:Es; [done| |by apply Hsf; [|unfold early; rewrite Es]..].
    eapply advance_one; [done|exact Et|]. apply Hm. unfold validator_rank, status_rank. simpl. rewrite Es. lia.
  - simpl in Hph. destruct (check t) as [[st ph']|] eqn:Hc.
    + eapply advance_one; [done|exact Et|]. apply Hm. pose proof (check_late t st ph' Hc) as (H1 & H2 & _).
      unfold validator_rank, status_rank. simpl. rewrite Hph. unfold early in H1. simpl in H1. destruct st, ph'; try done; lia.
    + exists (with_dead index_out_of_range w). split; [apply rtc_once; by exists (Validator k)|]. left. right. by left.
  - eapply advance_one; [done|exact Et|]. apply Hm. unfold validator_rank, status_rank. simpl. lia.
  - eapply advance_one; [done|exact Et|]. apply Hm. unfold validator_rank, status_rank. simpl. destruct next; simpl; lia.
Qed.
End validator_advances.

Lemma init_advances a0 w : good a0 w -> ((init w).1 < length txs)%nat -> advances a0 w.
Proof.
  intros Hgd Hlt. destruct (init w) as [i ph] eqn:Ei. simpl in Hlt. destruct (lookup_lt_is_Some_2 txs i Hlt) as [raw Hr].
  assert (is_Some (queue w !! i)) as [t Ht] by (apply lookup_lt_is_Some; by rewrite (iv_length _ _ (gd_inv _ _ Hgd))).
  assert (turn Initialiser w = initTxQueue w) as Et by (unfold turn; by rewrite (gd_alive _ _ Hgd)).
  unfold initTxQueue in Et. rewrite Ei, Hr in Et. simpl in Et. eapply advance_one; [done|exact Et|].
  assert (forall p f, (init_rank p + 10 * status_rank (f t) < init_rank (i, ph) + 10 * status_rank t)%nat ->
    (left_to_do (with_init p (with_slot i f w)) < left_to_do w)%nat) as Hm.
  { intros p f Hp. pose proof (left_slot w i t f Ht) as H1. unfold left_to_do in *. simpl in *. rewrite Ei in *. lia. }
  assert (ph <> IOri -> status t = appTxStatusNone) as Hnew.
  { intros Hne. apply (iv_init _ _ (gd_inv _ _ Hgd) i t Ht). right. by rewrite Ei. }
  destruct ph; apply Hm; unfold init_rank, status_rank; simpl; try lia.
  destruct (queue_tx raw t) as (_ & -> & _). rewrite Hnew by done. lia.
Qed.

Lemma left_executor w p a : (left_to_do (with_executor p a w) + executor_rank (executor w) = left_to_do w + executor_rank p)%nat.
Proof. unfold left_to_do. simpl. lia. Qed.

(** With all entries queued, the one the executor is at gets its verdict. *)
Lemma verdict_advances a0 w i t : good a0 w -> (length txs <= (init w).1)%nat -> queue w !! i = Some t -> 
  status t = appTxStatusInit \/ status t = appTxStatusChecking \/ ready t = true -> advances a0 w.
Proof.
  intros Hgd Hall Ht Hst. pose proof (gd_lively _ _ Hgd) as Hl.
  assert (forall j t, queue w !! j = Some t -> status t <> appTxStatusNone) as Hnew.
  { intros j t' Ht'. apply (lv_init _ Hl j t' Ht'). left. apply lookup_lt_Some in Ht'.
    rewrite (iv_length _ _ (gd_inv _ _ Hgd)) in Ht'. lia. }
  assert (forall k ph, validators w !! k = Some (i, ph) -> advances a0 w) as Hhere.
  { intros k ph Hk. eapply validator_advances; eauto. }
  assert (early t = true -> advances a0 w) as Hearly.
  { intros He. destruct (validators w) as [|[j ph] vs] eqn:Ev; [by destruct (lv_some _ Hl)|].
    assert (validators w !! 0%nat = Some (j, ph)) as Hk by (by rewrite Ev).
    assert ((j <= i)%nat) as Hj. { apply Nat.nlt_ge. intros Hlt. pose proof (lv_behind _ Hl _ _ _ i t Hk Hlt Ht). congruence. }
    assert (is_Some (queue w !! j)) as [t' Ht'] by (apply lookup_lt_is_Some; apply lookup_lt_Some in Ht; lia).
    eapply (validator_advances a0 w 0 j ph t'); eauto. }
  destruct Hst as [E|[E|E]].
  - apply Hearly. unfold early. by rewrite E.
  - destruct (lv_checking _ Hl i t Ht E) as (k & Hk). by eapply Hhere.
  - destruct (lv_ready _ Hl i t Ht E) as [?|(k & ph & Hk & _)]; [by apply Hearly|by eapply Hhere].
Qed.

Lemma dead_over w w' c g : turn g w = Some w' -> dead w' = Some c -> forall a0, advances a0 w.
Proof. intros Hg Hd a0. exists w'. split; [apply rtc_once; by exists g|]. left. right. left. congruence. Qed.

Lemma executor_advances a0 w i ph t : good a0 w -> (length txs <= (init w).1)%nat -> executor w = (i, ph) -> queue w !! i = Some t ->
  advances a0 w.
Proof.
  intros Hgd Hall Ex Ht. assert ((i < length txs)%nat) as Hi by (rewrite <- (iv_length _ _ (gd_inv _ _ Hgd)); by eapply lookup_lt_Some).
  assert (turn Executor w = exeWithCPUParallelVeirfy w) as Et by (unfold turn; by rewrite (gd_alive _ _ Hgd)).
  unfold exeWithCPUParallelVeirfy in Et. rewrite Ex, Ht in Et. simpl in Et.
  assert (forall p a, (executor_rank p < executor_rank (i, ph))%nat -> (left_to_do (with_executor p a w) < left_to_do w)%nat) as Hm.
  { intros p a Hp. pose proof (left_executor w p a). rewrite Ex in *. lia. }
  pose proof (verdict_advances a0 w i t Hgd Hall Ht) as Hverdict. destruct ph as [b|c|c|c e].
  - destruct (match b with Some c => (c, app w) | None => beginExec (app w) end) as [c a] eqn:Eb.
    destruct (status t) eqn:Es; [|by apply Hverdict; auto..| |].
    + exfalso. apply (lv_init _ (gd_lively _ _ Hgd) i t Ht); [left; lia|done].
    + destruct (exec i (rawbytes t) (atx t) c a) as [[[e c'] a']|cr|] eqn:Ee.
      * eapply advance_one; [done|exact Et|]. pose proof (left_slot w i t (set_err e) Ht) as H1.
        pose proof (left_executor (with_slot i (set_err e) w) (i, EEnd c' e) a') as H2. simpl in H2. rewrite Ex in H2.
        unfold executor_rank, status_rank in *. simpl in *. lia.
      * by eapply dead_over.
      * exists w. split; [apply rtc_refl|]. left. right. right. exists t. rewrite Ex. simpl. by rewrite Eb.
    + eapply advance_one; [done|exact Et|]. apply Hm. unfold executor_rank. simpl. lia.
  - destruct (ready t) eqn:Er; [by apply Hverdict; auto|]. eapply advance_one; [done|exact Et|]. apply Hm. unfold executor_rank. simpl. lia.
  - eapply advance_one; [done|exact Et|]. apply Hm. unfold executor_rank. simpl. lia.
  - destruct (end_ (oribys t) e c (app w)) as [[go a]|cr|] eqn:Ee.
    + eapply advance_one; [done|exact Et|]. apply Hm. unfold executor_rank. destruct go; simpl; lia.
    + by eapply dead_over.
    + exists w. split; [apply rtc_refl|]. left. right. right. exists t. by rewrite Ex.
Qed.

Lemma world_advances a0 w : good a0 w -> advances a0 w.
Proof.
  intros Hgd. destruct (decide ((init w).1 < length txs)%nat); [by apply init_advances|].
  destruct (executor w) as [i ph] eqn:Ex. destruct (queue w !! i) as [t|] eqn:Ht; [eapply executor_advances; eauto; lia|].
  exists w. split; [apply rtc_refl|]. left. left. unfold finished. rewrite Ex. simpl. apply lookup_ge_None in Ht.
  by rewrite (iv_length _ _ (gd_inv _ _ Hgd)) in Ht.
Qed.

Lemma good_finishes a0 w : good a0 w -> exists w', rtc step w w' /\ over w'.
Proof.
  induction (well_founded_ltof _ left_to_do w) as [w _ IH]. intros Hgd.
  destruct (world_advances a0 w Hgd) as (w1 & Hr & [Ho|[Hg1 Hlt]]); [by exists w1|].
  destruct (IH w1 Hlt Hg1) as (w2 & Hr2 & Ho). exists w2. split; [by etrans|done].
Qed.

Lemma run_good count a0 w : (0 < count)%nat -> rtc step (start count a0) w -> good a0 w \/ stopped a0 w \/ dead w <> None.
Proof.
  intros Hc Hr. assert (good a0 (start count a0) \/ stopped a0 (start count a0) \/ dead (start count a0) <> None) as H0
    by (left; by apply start_good).
  revert H0. generalize (start count a0) Hr. clear Hr. intros w0 Hr. induction Hr as [|w0 w1 w2 Hst _ IH]; [done|].
  intros H0. apply IH. destruct (dead w1) as [c|] eqn:Ed; [right; right; congruence|]. destruct H0 as [Hg|[Hs|Hd]].
  - destruct Hst as [g Hg']. destruct (good_step a0 w0 w1 g Hg Hg' Ed); auto.
  - right. left. by eapply stopped_stays.
  - destruct Hst as [g Hg']. unfold turn in Hg'. by destruct (dead w0).
Qed.


End with_crypto.

End ParallelVerify.
