(* ===== verification/BlockExec.v ===== *)
(** * The EVM application executes a block

    The closures of [genExecFun] as arguments of the parallel execution
    (chain/app/evm/evm.go), with what two races and an empty transaction do. *)
From S2P Require Import Prelude EthMath Types Blocks StateDB StateRevert Rlp RlpDecode EvmBase Precompiles EthTx TxCodec Receipts Evm EvmLogic EvmToy Transition TransitionSafe ParallelVerify.

Module BlockExec.
Import EthMath EvmBase Precompiles EthTx Transition ParallelVerify.

Section with_crypto.
Context `{HK : Keccak, HN : Natives}.
Variables (config : ChainConfig) (evmGasLimit : Z) (fuel : nat) (header : Header) (chain : headers) (blockHash : Z).

(** The header of the EVM for a block; the time is in seconds. *)
Definition makeCurrentHeader (h : Blocks.Header) : Header :=
  mkHeader (BytesToHash (bid_Hash (Blocks.h_LastBlockID h))) 0 (Uint64 (tt256 - 1)) (Blocks.h_Time h / 1000000000) (Blocks.h_Height h).

(** What the closures share: the snapshot and the receipts not yet handed over. *)
Record closure := mkClosure { stateSnapshot : Z; temReceipt : list Receipts.Receipt }.

Definition with_state (s : StateDB.StateDB) (p : Progress) : Progress := mkProgress s (receipts p) (ValidTxs p) (InvalidTxs p).

Definition begin_ (p : Progress) : closure * Progress :=
  let '(id, s) := StateDB.Snapshot (currentState p) in (mkClosure id [], with_state s p).

(** [EncodeToBytes] calls a method of the transaction, which is nil for empty bytes. *)
Definition execFunc (i : nat) (raw : bytes) (tx : option txdata) (c : closure) (p : Progress) :
    vmres (option coreerr * closure * Progress) :=
  match tx with
  | None => Crash nil_dereference
  | Some tx =>
      do! (r, s) := exec config evmGasLimit fuel header chain blockHash (Z.of_nat i) tx (currentState p) in
      let p := with_state s p in
      match r with
      | inl e => Done (Some e, c, p)
      | inr receipt => Done (None, mkClosure (stateSnapshot c) (temReceipt c ++ [receipt]), p)
      end
  end.

Definition endFunc (raw : bytes) (e : option coreerr) (c : closure) (p : Progress) : vmres (bool * Progress) :=
  match e with
  | Some e =>
      do! s := or_crash state_panic (StateDB.RevertToSnapshot (stateSnapshot c) (currentState p)) in
      Done (true, mkProgress s (receipts p) (ValidTxs p) (InvalidTxs p ++ [(raw, e)]))
  | None =>
      Done (true, mkProgress (currentState p) (receipts p ++ temReceipt c) (ValidTxs p ++ [raw]) (InvalidTxs p))
  end.

(** [OnExecute] at its start: [count] validators, the signer of the application. *)
Definition OnExecute (count : nat) (txs : list bytes) (p : Progress) : world Progress closure :=
  start Progress closure txs count p.

Definition block_step (txs : list bytes) : relation (world Progress closure) :=
  step HomesteadSigner Progress closure begin_ execFunc endFunc txs.

Lemma endFunc_goes_on raw e c p go p' : endFunc raw e c p = Done (go, p') -> go = true.
Proof. unfold endFunc. destruct e; [|by intros [= <- _]]. destruct (or_crash _ _); simpl; [by intros [= <- _]|done..]. Qed.

Lemma upto_handled a0 n a txs m : upto HomesteadSigner Progress closure begin_ execFunc endFunc txs a0 n a -> (m < n)%nat ->
  exists raw a1 a2, txs !! m = Some raw /\ handled HomesteadSigner Progress closure begin_ execFunc endFunc m raw a1 true a2.
Proof.
  induction 1 as [|n raw a a' _ IH Hr Hh]; intros Hm; [lia|]. destruct (decide (m = n)) as [->|]; [by eauto|]. apply IH. lia.
Qed.

(** C40: no execution of a block that contains an empty transaction comes to
    its end: the check lets it pass and the execution dereferences its nil
    transaction.  (The serial execution counts it as valid.) *)
Theorem empty_tx_never_finishes count txs p w : [] ∈ txs -> rtc (block_step txs) (OnExecute count txs p) w ->
  ~ finished Progress closure txs w.
Proof.
  intros Hin Hr Hf. apply list_elem_of_lookup in Hin as [m Hm]. pose proof (lookup_lt_Some _ _ _ Hm) as Hlt.
  destruct (run_in_order _ _ _ _ _ _ _ count p w Hr Hf) as [Hu|(n & raw & a1 & _ & _ & Hh)].
  - destruct (upto_handled _ _ _ _ m Hu Hlt) as (raw & a1 & a2 & Hm' & Hh). assert (raw = []) as -> by congruence.
    unfold handled in Hh. destruct (begin_ a1) as [c a3]. by destruct Hh as (e & c2 & a4 & E & _).
  - unfold handled in Hh. destruct (begin_ a1) as [c a3].
    assert (forall lost e c a, may_end Progress closure endFunc raw lost e c a false (app Progress closure w) -> False) as Hno
      by (intros lost e c' a (e' & raw' & _ & _ & E); by apply endFunc_goes_on in E).
    destruct (judge HomesteadSigner raw); [by eapply Hno| |done]. destruct Hh as (e' & c2 & a4 & _ & H2). by eapply Hno.
Qed.
End with_crypto.

(** ** Runs *)
Import EvmToy TransitionSafe.
#[local] Existing Instances StateRevert.toy_keccak toy_natives.

Definition toy_start (txs : list bytes) : world Progress closure := OnExecute 1 txs (toy_progress clear_slot).
Definition toy_schedule (txs : list bytes) (gs : list goroutine) : option (world Progress closure) :=
  schedule HomesteadSigner Progress closure begin_
    (execFunc MainnetChainConfig toy_limit toy_fuel toy_header no_headers 11) endFunc txs gs (toy_start txs).

(** What a block reports when it is done. *)
Definition reports (o : option (world Progress closure)) : option (nat * list bytes * list (bytes * coreerr)) :=
  w ← o;
  Some ((executor _ _ w).1, ValidTxs (app _ _ w), InvalidTxs (app _ _ w)).

(** A transaction whose signature is zero. *)
Definition unsigned : bytes := Rlp.enc (tx_value (mkTx 0 0 30000 (Some 77) 10 [] 27 0 0)).

Definition patient : list goroutine :=
  replicate 3 Initialiser ++ replicate 5 (Validator 0) ++ replicate 3 Executor.
Definition hasty : list goroutine :=
  replicate 3 Initialiser ++ replicate 3 (Validator 0) ++ replicate 3 Executor.
Definition hastier : list goroutine :=
  replicate 2 Initialiser ++ replicate 3 (Validator 0) ++ replicate 3 Executor.

(** Whether a transaction with a bad signature is reported as invalid
    depends on the order of turns.  The validator stores the status before the
    error, and an executor that reads the error in between takes the transaction
    for a valid one, although it was not executed; when the initialiser is late
    too, the transaction that is reported has no bytes. *)
Theorem lost_error :
  reports (toy_schedule [unsigned] patient) = Some (1%nat, [], [(unsigned, tx_error ErrInvalidSig)]) /\
  reports (toy_schedule [unsigned] hasty) = Some (1%nat, [unsigned], []) /\
  reports (toy_schedule [unsigned] hastier) = Some (1%nat, [[]], []).
Proof. split_and!; vm_compute; reflexivity. Qed.

Definition toy_step (txs : list bytes) : relation (world Progress closure) :=
  block_step MainnetChainConfig toy_limit toy_fuel toy_header no_headers 11 txs.

Lemma toy_run txs gs w : toy_schedule txs gs = Some w -> rtc (toy_step txs) (toy_start txs) w.
Proof. apply schedule_run. Qed.



Lemma empty_tx_never_finishes_witness : ~ finished Progress closure [[]] (toy_start [[]]).
Proof.
  apply (empty_tx_never_finishes MainnetChainConfig toy_limit toy_fuel toy_header no_headers 11 1 [[]] (toy_progress clear_slot)
    (toy_start [[]])); [by left|apply rtc_refl].
Defined.

End BlockExec.
