(* ===== verification/Limbs.v ===== *)
(** * Arithmetic on limbs

    gemmill/ed25519/edwards25519 keeps large integers as arrays of limbs and
    reduces them by long sequences of carries in int32 and int64.  Each of the
    two shapes of steps in these sequences is an instruction here, executed on
    the array with the wrap-around of the width.

    A checker walks through a sequence with an interval for each limb.  When it
    accepts, no operation of the sequence overflows, the limbs end within the
    computed intervals, and the value of the array is unchanged modulo [M]. *)
From S2P Require Import Prelude.

Module Limbs.

(** Two's complement of [w] bits. *)
Definition wrap (w z : Z) : Z := (z + 2 ^ (w - 1)) mod 2 ^ w - 2 ^ (w - 1).

Definition lk (x : list Z) (i : nat) : Z := default 0 (x !! i).

Inductive instr :=
| Carry (i j : nat) (s k r : Z)        (* c = (x[i] + r) >> s; x[j] += c * k; x[i] -= c << s *)
| Fold (i : nat) (l : list (nat * Z)). (* x[j] += x[i] * c for each (j, c); x[i] = 0 *)

Section width.
Variable w : Z.

Definition add_at (j : nat) (z : Z) (x : list Z) : list Z := <[j := wrap w (lk x j + z)]> x.

Definition exec (p : instr) (x : list Z) : list Z :=
  match p with
  | Carry i j s k r =>
      let c := Z.shiftr (wrap w (lk x i + r)) s in
      let x := add_at j (wrap w (c * k)) x in
      <[i := wrap w (lk x i - wrap w (Z.shiftl c s))]> x
  | Fold i l =>
      <[i := 0]> (foldl (fun x jc => add_at jc.1 (wrap w (lk x i * jc.2)) x) x l)
  end.

Definition run (prog : list instr) (x : list Z) : list Z := foldl (fun x p => exec p x) x prog.

(** ** The checker *)
#[local] Abbreviation itv := (Z * Z)%type.
Definition within (z : Z) (b : itv) : Prop := b.1 <= z <= b.2.
Definition fits (b : itv) : bool := (- 2 ^ (w - 1) <=? b.1) && (b.2 <? 2 ^ (w - 1)).
Definition bk (b : list itv) (i : nat) : itv := default (0, 0) (b !! i).

Definition itv_add (a b : itv) : itv := (a.1 + b.1, a.2 + b.2).
Definition itv_mul (a : itv) (k : Z) : itv := (Z.min (a.1 * k) (a.2 * k), Z.max (a.1 * k) (a.2 * k)).

Variable M : Z.
Variable e : list Z.      (* the bit each limb starts at *)

Definition same_weight (a b : Z) : bool := (a - b) mod M =? 0.

Definition check_add (j : nat) (a : itv) (b : list itv) : option (list itv) :=
  let n := itv_add (bk b j) a in
  if (j <? length b)%nat && fits a && fits n then Some (<[j := n]> b) else None.

Fixpoint check_adds (i : nat) (l : list (nat * Z)) (b : list itv) : option (list itv) :=
  match l with
  | [] => Some b
  | (j, c) :: l => if (i =? j)%nat then None else b ← check_add j (itv_mul (bk b i) c) b; check_adds i l b
  end.

(** What is left of a limb after a carry. *)
Definition rest (a : itv) (s r : Z) : itv :=
  let lo := Z.shiftr (a.1 + r) s in
  if lo =? Z.shiftr (a.2 + r) s then (a.1 - lo * 2 ^ s, a.2 - lo * 2 ^ s) else (- r, 2 ^ s - 1 - r).

Definition check (p : instr) (b : list itv) : option (list itv) :=
  match p with
  | Carry i j s k r =>
      let a := itv_add (bk b i) (r, r) in
      let c := (Z.shiftr a.1 s, Z.shiftr a.2 s) in
      if (0 <=? s) && negb (i =? j)%nat && (i <? length b)%nat && fits a && fits (itv_mul c (2 ^ s)) &&
         same_weight (2 ^ (lk e i + s)) (k * 2 ^ lk e j) && (0 <=? lk e i) && (0 <=? lk e j) then
        b ← check_add j (itv_mul c k) b;
        if fits (rest (bk b i) s r) then Some (<[i := rest (bk b i) s r]> b) else None
      else None
  | Fold i l =>
      if (i <? length b)%nat && same_weight (2 ^ lk e i) (foldr (fun jc z => jc.2 * 2 ^ lk e jc.1 + z) 0 l) then
        b ← check_adds i l b; Some (<[i := (0, 0)]> b)
      else None
  end.

Fixpoint check_all (prog : list instr) (b : list itv) : option (list itv) :=
  match prog with
  | [] => Some b
  | p :: prog => b ← check p b; check_all prog b
  end.

(** ** Soundness *)
Fixpoint value (x e : list Z) : Z :=
  match x, e with
  | z :: x, k :: e => z * 2 ^ k + value x e
  | _, _ => 0
  end.

Hypothesis Hw : 0 < w.

Lemma wrap_id z : - 2 ^ (w - 1) <= z < 2 ^ (w - 1) -> wrap w z = z.
Proof.
  intros Hz. unfold wrap. rewrite Z.mod_small; [lia|]. replace (2 ^ w) with (2 * 2 ^ (w - 1)); [lia|].
  rewrite <- Z.pow_succ_r by lia. f_equal. lia.
Qed.

Lemma wrap_fits z b : fits b = true -> within z b -> wrap w z = z.
Proof. unfold fits, within. intros [H1 H2]%andb_true_iff Hz. apply wrap_id. lia. Qed.

Lemma within_add x y a b : within x a -> within y b -> within (x + y) (itv_add a b).
Proof. unfold within, itv_add. cbn [fst snd]. lia. Qed.

Lemma within_mul x a k : within x a -> within (x * k) (itv_mul a k).
Proof.
  unfold within, itv_mul. cbn [fst snd]. intros [H1 H2].
  destruct (Z.le_ge_cases 0 k); [rewrite Z.min_l, Z.max_r|rewrite Z.min_r, Z.max_l]; nia.
Qed.

(** All limbs are within their intervals. *)
Definition bounded (x : list Z) (b : list itv) : Prop := Forall2 within x b.

Lemma bounded_lk x b i : bounded x b -> (i < length b)%nat -> within (lk x i) (bk b i).
Proof.
  intros Hb Hi. destruct (lookup_lt_is_Some_2 b i Hi) as [a Ea]. destruct (Forall2_lookup_r _ _ _ _ _ Hb Ea) as (z & Ez & Hz).
  unfold lk, bk. by rewrite Ea, Ez.
Qed.

Lemma value_insert x : forall e' i z, length x = length e' -> (i < length x)%nat -> value (<[i := z]> x) e' = value x e' + (z - lk x i) * 2 ^ lk e' i.
Proof.
  induction x as [|y x IH]; intros [|k e'] i z Hl Hi; cbn [length] in *; try lia.
  destruct i as [|i].
  - unfold lk. cbn. lia.
  - change (<[S i:=z]> (y :: x)) with (y :: <[i:=z]> x). cbn [value]. rewrite IH by lia.
    change (lk (y :: x) (S i)) with (lk x i). change (lk (k :: e') (S i)) with (lk e' i). lia.
Qed.

Lemma same_weight_spec a b : same_weight a b = true -> exists q, a - b = q * M.
Proof.
  unfold same_weight. intros E%Z.eqb_eq. destruct (decide (M = 0)) as [->|].
  - exists 0. by rewrite Z.mod_0_r in E.
  - exists ((a - b) / M). pose proof (Z.div_mod (a - b) M). lia.
Qed.

Lemma check_add_sound j z a b b' x : check_add j a b = Some b' -> bounded x b -> length x = length e -> within z a ->
  wrap w z = z /\ wrap w (lk x j + z) = lk x j + z /\ bounded (add_at j z x) b' /\ length b' = length b /\
  (forall i, i <> j -> bk b' i = bk b i) /\ (forall i, i <> j -> lk (add_at j z x) i = lk x i) /\
  value (add_at j z x) e = value x e + z * 2 ^ lk e j.
Proof.
  unfold check_add. intros E Hb Hl Hz. destruct (_ && _) eqn:Ec in E; [|done]. injection E as <-.
  apply andb_true_iff in Ec as [[Hj Ha]%andb_true_iff Hn]. apply Nat.ltb_lt in Hj. pose proof (Forall2_length _ _ _ Hb) as Hlb.
  assert (within (lk x j + z) (itv_add (bk b j) a)) as Hs by (apply within_add; [by apply bounded_lk|done]).
  pose proof (wrap_fits _ _ Hn Hs) as Ew. unfold add_at. rewrite Ew. split_and!; [by apply (wrap_fits z a)|done| |by rewrite length_insert|..].
  - by apply Forall2_insert.
  - intros i Hi. unfold bk. by rewrite list_lookup_insert_ne.
  - intros i Hi. unfold lk. by rewrite list_lookup_insert_ne.
  - rewrite value_insert by lia. lia.
Qed.

Lemma shiftr_within s z a : 0 <= s -> within z a -> within (Z.shiftr z s) (Z.shiftr a.1 s, Z.shiftr a.2 s).
Proof. intros Hs [H1 H2]. rewrite !Z.shiftr_div_pow2 by done. split; cbn [fst snd]; apply Z.div_le_mono; lia || apply Z.pow_pos_nonneg; lia. Qed.

Lemma rest_within s r z a : 0 <= s -> within z a -> within (z - Z.shiftr (z + r) s * 2 ^ s) (rest a s r).
Proof.
  intros Hs Hz. pose proof (shiftr_within s (z + r) (a.1 + r, a.2 + r) Hs) as Hsh. unfold rest, within in *. cbn [fst snd] in *.
  destruct (Z.eqb_spec (Z.shiftr (a.1 + r) s) (Z.shiftr (a.2 + r) s)) as [E|_]; cbn [fst snd].
  - assert (Z.shiftr (z + r) s = Z.shiftr (a.1 + r) s) as -> by lia. lia.
  - rewrite Z.shiftr_div_pow2 by done. assert (0 < 2 ^ s) as Hp by (by apply Z.pow_pos_nonneg).
    pose proof (Z.div_mod (z + r) (2 ^ s) ltac:(lia)). pose proof (Z.mod_pos_bound (z + r) (2 ^ s) Hp). lia.
Qed.

Lemma exec_carry i j s k r b b' x : check (Carry i j s k r) b = Some b' -> bounded x b -> length x = length e ->
  bounded (exec (Carry i j s k r) x) b' /\ exists q, value (exec (Carry i j s k r) x) e = value x e + q * M.
Proof.
  cbn [check exec]. intros E Hb Hl. destruct (_ && _) eqn:Ec in E; [|done].
  apply andb_true_iff in Ec as [[[[[[[Hs Hij]%andb_true_iff Hi]%andb_true_iff Ha]%andb_true_iff Hc]%andb_true_iff Hwt]%andb_true_iff He]%andb_true_iff Hej].
  apply Z.leb_le in Hs, He, Hej. apply negb_true_iff, Nat.eqb_neq in Hij. apply Nat.ltb_lt in Hi. pose proof (Forall2_length _ _ _ Hb) as Hlb.
  assert (within (lk x i + r) (itv_add (bk b i) (r, r))) as Hir by (apply within_add; [by apply bounded_lk|unfold within; cbn; lia]).
  rewrite (wrap_fits _ _ Ha Hir). pose proof (shiftr_within s _ _ Hs Hir) as Hsh. revert Hsh. set (c := Z.shiftr (lk x i + r) s). intros Hsh.
  apply bind_Some in E as (b1 & E1 & E). pose proof (within_mul _ _ k Hsh) as Hk.
  destruct (check_add_sound j (c * k) _ _ b1 x E1 Hb Hl Hk) as (-> & _ & Hb1 & Hl1 & Hbk & Hlk & Hv).
  rewrite (Hlk i Hij), (Z.shiftl_mul_pow2 c s Hs), (wrap_fits _ _ Hc (within_mul _ _ _ Hsh)).
  pose proof (Forall2_length _ _ _ Hb1) as Hlb1. rewrite (Hbk i Hij) in E.
  destruct (fits _) eqn:Ef in E; [|done]. injection E as <-.
  pose proof (rest_within s r _ _ Hs (bounded_lk x b i Hb Hi)) as Hn. fold c in Hn.
  rewrite (wrap_fits _ _ Ef Hn). split; [by apply Forall2_insert|].
  apply same_weight_spec in Hwt as [q Hq]. exists (- c * q). rewrite value_insert by lia. rewrite Hv, (Hlk i Hij).
  rewrite Z.pow_add_r in Hq by done. transitivity (value x e - c * (2 ^ lk e i * 2 ^ s - k * 2 ^ lk e j)); [ring|]. rewrite Hq. ring.
Qed.

Lemma check_adds_sound i l : forall b b' x, check_adds i l b = Some b' -> bounded x b -> length x = length e -> (i < length b)%nat ->
  let x' := foldl (fun x jc => add_at jc.1 (wrap w (lk x i * jc.2)) x) x l in
  bounded x' b' /\ length b' = length b /\ lk x' i = lk x i /\
  value x' e = value x e + lk x i * foldr (fun jc z => jc.2 * 2 ^ lk e jc.1 + z) 0 l.
Proof.
  induction l as [|[j c] l IH]; intros b b' x E Hb Hl Hi; cbn [check_adds foldl foldr fst snd] in *.
  { injection E as <-. split_and!; try done. lia. }
  destruct (Nat.eqb_spec i j) as [|Hij]; [done|]. apply bind_Some in E as (b1 & E1 & E).
  pose proof (within_mul _ _ c (bounded_lk x b i Hb Hi)) as Hc.
  destruct (check_add_sound j (lk x i * c) _ _ b1 x E1 Hb Hl Hc) as (-> & _ & Hb1 & Hl1 & Hbk & Hlk & Hv).
  destruct (IH b1 b' (add_at j (lk x i * c) x) E Hb1) as (H1 & H2 & H3 & H4); [unfold add_at; by rewrite length_insert|lia|].
  split_and!; [done|lia|by rewrite H3, Hlk|]. rewrite H4, Hv, (Hlk i Hij). ring.
Qed.

Lemma exec_fold i l b b' x : check (Fold i l) b = Some b' -> bounded x b -> length x = length e ->
  bounded (exec (Fold i l) x) b' /\ exists q, value (exec (Fold i l) x) e = value x e + q * M.
Proof.
  cbn [check exec]. intros E Hb Hl. destruct (_ && _) eqn:Ec in E; [|done]. apply andb_true_iff in Ec as [Hi Hwt]. apply Nat.ltb_lt in Hi.
  apply bind_Some in E as (b1 & E1 & E). injection E as <-. pose proof (Forall2_length _ _ _ Hb) as Hlb.
  destruct (check_adds_sound i l b b1 x E1 Hb Hl Hi) as (Hb1 & Hl1 & Hlk & Hv). pose proof (Forall2_length _ _ _ Hb1) as Hlb1.
  split; [apply Forall2_insert; [done|unfold within; cbn; lia]|]. apply same_weight_spec in Hwt as [q Hq]. exists (- lk x i * q).
  rewrite value_insert by lia. rewrite Hv, Hlk. rewrite <- (Z.opp_involutive (foldr _ _ _)).
  replace (- foldr (fun jc z => jc.2 * 2 ^ lk e jc.1 + z) 0 l) with (q * M - 2 ^ lk e i) by lia. ring.
Qed.

(** A sequence that is accepted computes without overflow and keeps the value. *)
Lemma run_sound prog : forall b b' x, check_all prog b = Some b' -> bounded x b -> length x = length e ->
  bounded (run prog x) b' /\ exists q, value (run prog x) e = value x e + q * M.
Proof.
  induction prog as [|p prog IH]; intros b b' x E Hb Hl; cbn [check_all run foldl] in *.
  { injection E as <-. split; [done|]. exists 0. lia. }
  apply bind_Some in E as (b1 & E1 & E). fold (run prog (exec p x)).
  assert (bounded (exec p x) b1 /\ exists q, value (exec p x) e = value x e + q * M) as [Hb1 [q Hq]]
    by (destruct p; [by eapply exec_carry|by eapply exec_fold]).
  assert (length (exec p x) = length e) as Hl1.
  { rewrite <- Hl. destruct p as [i j s k r|i l]; cbn [exec]; rewrite ?length_insert.
    - unfold add_at. by rewrite length_insert.
    - clear. revert x. induction l as [|jc l IH]; intros x; [done|]. cbn [foldl]. rewrite IH. unfold add_at. by rewrite length_insert. }
  destruct (IH b1 b' (exec p x) E Hb1 Hl1) as [Hb2 [q2 Hq2]]. split; [done|]. exists (q2 + q). rewrite Hq2, Hq. ring.
Qed.
End width.

(** ** Little-endian bytes *)
Fixpoint le (l : bytes) : Z := match l with [] => 0 | b :: l => b + 256 * le l end.
Fixpoint le_enc (n : nat) (z : Z) : bytes := match n with O => [] | S n => z mod 256 :: le_enc n (z / 256) end.

Lemma le_bound l : Forall is_byte l -> 0 <= le l < 256 ^ Z.of_nat (length l).
Proof.
  induction 1 as [|b l Hb _ IH]; cbn [le length]; [done|]. rewrite Nat2Z.inj_succ, Z.pow_succ_r by lia. unfold is_byte in Hb. lia.
Qed.

Lemma le_enc_le l : Forall is_byte l -> le_enc (length l) (le l) = l.
Proof.
  induction 1 as [|b l Hb _ IH]; cbn [le length le_enc]; [done|]. unfold is_byte in Hb.
  rewrite (Z.mul_comm 256), Z.mod_add, Z.mod_small, Z.div_add, Z.div_small by lia. by rewrite Z.add_0_l, IH.
Qed.

Lemma le_le_enc n : forall z, 0 <= z < 256 ^ Z.of_nat n -> le (le_enc n z) = z.
Proof.
  induction n as [|n IH]; intros z Hz; [cbn in *; lia|]. rewrite Nat2Z.inj_succ, Z.pow_succ_r in Hz by lia. cbn [le_enc le].
  rewrite IH; [pose proof (Z.div_mod z 256); lia|]. split; [apply Z.div_pos; lia|apply Z.div_lt_upper_bound; lia].
Qed.

Lemma le_enc_bytes n z : length (le_enc n z) = n /\ Forall is_byte (le_enc n z).
Proof.
  revert z. induction n as [|n IH]; intros z; cbn [le_enc length]; [done|]. destruct (IH (z / 256)) as [-> Hf].
  split; [done|]. constructor; [apply Z.mod_pos_bound; lia|done].
Qed.

Lemma lor_add a x s : 0 <= s -> 0 <= a < 2 ^ s -> Z.lor a (x * 2 ^ s) = a + x * 2 ^ s.
Proof.
  intros Hs Ha. rewrite <- (Z.add_lor_land a (x * 2 ^ s)). enough (Z.land a (x * 2 ^ s) = 0) as -> by lia.
  apply Z.bits_inj'. intros n Hn. rewrite Z.land_spec, Z.bits_0. destruct (Z.lt_ge_cases n s).
  - by rewrite (Z.mul_pow2_bits_low x s n), andb_false_r.
  - rewrite <- (Z.mod_small a (2 ^ s) Ha), Z.mod_pow2_bits_high by lia. done.
Qed.
End Limbs.
